(* ===== verification/_CoqProject ===== *)
-Q . S2P
Prelude.v
CoreTypes.v
HashRing.v
Sql.v
Parse.v
MembershipTable.v
Discovery.v
Mailbox.v
Futures.v
Observers.v
Directory.v
ConcurrentDirectory.v
Reminders.v
Calls.v
CallGraph.v
Auth.v
Swim.v
Membership.v
Rebalancer.v
Store.v
DbStores.v
PersistentMailbox.v
Journal.v
Transaction.v
Silos.v
Replication.v
DbLog.v
CrossCluster.v
Registry.v
Transport.v
CallsInFlight.v
MultiCluster.v
ClusterRef.v
TcpTransport.v
ClusterSilo.v
Client.v
RingTransitions.v
Serving.v
Macros.v
VirtualActor.v
Asks.v
Linearizable.v
Examples.v
RuntimeExamples.v
