(* ===== verification/Prelude.v ===== *)
(** * Orlando: a verification library for the virtual-actor framework

    Orlando is a Rust framework of virtual actors ("grains").  A caller holds a
    reference to a grain id; the runtime activates the grain on first use, runs
    its messages through a mailbox, persists its state, and places activations
    over a cluster of silos.  This library translates the logic of the crates under
    [src/crates/] into executable definitions and proves the properties that the rest
    of the system relies on.

    ** Parts, files and sources

    - [Prelude] (this file): [result], machine integers with their wrap-around,
      signed 64-bit columns ([as_i64]), strings (append, split, [slash]), ordered
      maps (Rust's [BTreeMap] with its [range] queries), the tactics and the hint
      database [orlando].
    - [CoreTypes]: [GrainId], [ClusterId], [SiloAddress], [GrainError]
      (orlando-core [grain_id.rs], [cluster_id.rs], [error.rs]).
    - [HashRing]: FNV-1a on 64-bit words, the consistent-hash ring and the placement
      strategies (orlando-cluster [hash_ring.rs], [placement.rs]).
    - [Sql], [Parse]: what the SQL back ends share (tables as maps from keys to rows,
      statements that may fail) and [str::parse] on integers with its errors.
    - [MembershipTable]: the versioned membership table, in memory and in SQLite
      ([membership_table.rs], [sqlite_membership_table.rs]).
    - [Discovery]: static, DNS and Consul providers of seed addresses ([discovery.rs]).
    - [Mailbox]: the activation lifecycle, the interface [GrainActivator] that
      mailboxes use to unregister themselves, the sequential mailbox as a function
      of what the receiver yields, and the reentrant mailbox as a step relation over
      spawned tasks and a lock (orlando-core [activation_state.rs],
      [grain_context.rs], [mailbox.rs], [reentrant_mailbox.rs]).
    - [Futures]: futures as machines that are polled, and the containment of their panics
      ([activation_state.rs], [CatchUnwind]), which justifies a handler being a function from
      states to states and an outcome.
    - [Observers]: subscription sets, broadcast, numbered streams and the type-indexed map
      of extensions (orlando-core [observer.rs], [stream.rs], [extensions.rs]).
    - [Reminders]: reminder stores, the poll loop of the reminder service, the delivery of
      a tick, and volatile timers (orlando-timers).
    - [Directory]: the grain directory with activate-on-miss, limit, draining,
      worker pools and gauge (orlando-runtime [directory.rs]).  A [Runtime]
      record holds the directory with the open channels, what each has been sent
      ([rt_inbox]), cancelled tokens and ended tasks; each operation is one atomic step.
    - [ConcurrentDirectory]: [get_or_insert] and [drain] again, as their single accesses to
      shared state, interleaving with each other and with mailboxes that stop.
    - [Calls]: request contexts and the call chain, envelopes, filters, [GrainRef] and
      [WorkerGrainRef] (orlando-core [request_context.rs], [envelope.rs],
      [filter.rs], [grain_ref.rs], [worker_ref.rs]).
    - [CallGraph]: handlers as programs that ask other grains, and a call followed through all the calls
      it causes, with the applications [deadlock_detection.rs] and [request_context.rs].
    - [Auth]: the shared-secret check and the connection pool (orlando-cluster
      [auth.rs], [connection_pool.rs]).
    - [Swim]: member table, gossip queue, gossip application, suspicion, expiry, wire
      conversions and one period of the protocol loop ([swim.rs],
      [failure_detector.rs]).
    - [Membership]: the rate limiter and the handlers of the membership service, and the
      invariant of the shared state over every interleaving of handlers and periods
      ([membership.rs]).
    - [Store]: the interface [StateStore], the in-memory and the file store
      (orlando-persistence [store.rs], [memory_store.rs], [file_store.rs]).
    - [DbStores]: the SQLite and Postgres state stores as statements, the Redis store as
      scripts ([sqlite_store.rs], [postgres_store.rs], [redis_store.rs]).
    - [PersistentMailbox]: loading with retries, the three persistence strategies,
      the reentrant variant and versioned state ([persistent_mailbox.rs],
      [versioned_grain.rs]), proved against the classes [StateStoreLaws] and
      [GrainActivatorLaws] that [Store] and [Mailbox] discharge.
    - [Journal]: the interface [JournalStore], the in-memory journal, the journaled turn
      and mailbox ([journal_store.rs], [memory_journal_store.rs],
      [journaled_mailbox.rs], [persistent_silo.rs]).
    - [Silos]: grain contexts, the plain and the persistent silo with their reference
      factories (which loop an activation runs, with which store and filters), the metrics
      filter and the serializers ([grain_context.rs], orlando-runtime [silo.rs],
      [metrics_filter.rs], orlando-persistence [persistent_silo.rs], [serializer.rs]).
    - [Replication]: log, sink, pump, consumer and replica store
      ([replication_log.rs], [replication_sink.rs], [replication_producer.rs],
      [replication_consumer.rs], [store_wrapper.rs]).
    - [DbLog]: the SQLite and Postgres replication logs ([sqlite_replication_log.rs],
      [postgres_replication_log.rs]).
    - [CrossCluster]: the interface [CrossClusterDirectory] with the in-memory directory and its
      epochs, a directory whose requests can fail and one that other clusters write in between, peer health, and the
      failover manager over any directory ([cross_cluster_directory.rs], [multi_cluster.rs],
      [failover.rs]).
    - [Rebalancer]: moving grains off a silo after a membership change
      ([rebalancer.rs]).
    - [Transaction]: transactional handlers as programs over their context, the rollback in
      [TransactionalGrainRef::ask], the coordinator, and state facets
      ([transaction.rs], [multi_transaction.rs], [facet.rs], [persistent_silo.rs]).
    - [Registry]: registration of grain and message types and the dispatch of a remote
      call through the directory ([message_registry.rs], [network_message.rs]).
    - [Transport]: the transport service of every silo of a [World], with forwarding, hop
      limit, cluster-wide lookup and the gateway of a peer cluster ([transport.rs],
      [cluster_gateway.rs]).
    - [CallsInFlight]: the same calls as their single accesses to silos and directories, which
      interleave with anything ([transport.rs]).
    - [MultiCluster]: clusters that share a cross-cluster directory ([transport.rs]).
    - [ClusterRef]: cluster-wide references, remote calls and retries
      ([cluster_grain_ref.rs], [retry.rs]).
    - [TcpTransport]: the TCP transport: frames on a connection, the client with its
      reconnect and the pool ([tcp_transport.rs]).
    - [ClusterSilo]: the cluster silo, its builder, joining through seeds or a provider,
      the wiring of [serve], shutdown and the health endpoints ([cluster_silo.rs],
      [health_server.rs]).
    - [Client]: the external client, its own ring, refresh and retry (orlando-client).
    - [RingTransitions]: silos whose rings disagree, and the lookup before an activation.
    - [Serving]: the background tasks of a serving silo: the writers of the ring and the
      rebalancer as interleaved stores, broadcasts and receives, and the loops of the
      failure detector, rebalancer, replication consumer, health checker, failover manager,
      TCP listener and health server with their shutdown signals.
    - [Macros]: the attribute macros, from tokens to generated items to the traits they
      implement (orlando-macros [lib.rs], the provided methods of [grain.rs] and
      [network_message.rs]).
    - [VirtualActor]: the composition: a cluster of silos called through references, transport,
      registry, directory and mailbox refines one sequential object.
    - [Asks]: the asks of a grain on the silo that holds it, cut at the accesses of [get_or_insert], the send, the turn of the
      mailbox and the reply or timeout, with mailboxes that stop and are torn down in between ([grain_ref.rs],
      [envelope.rs], [mailbox.rs], [directory.rs]).
    - [Linearizable]: concurrent calls in such a cluster, access by access from the silo they arrive at to the answer, with their
      history ([transport.rs], [message_registry.rs]).
    - [Examples]: applications on top: the ledger, account, profile and chat room of
      [event_sourcing.rs], [transactional_grain.rs], [versioned_grain.rs] and [chat_room.rs].
    - [RuntimeExamples]: the other applications: publish and subscribe, a stream, a worker pool, a mailbox under
      load, a heartbeat, and counters behind filters, in a cluster and in a store.

    Interfaces between the parts are classes: mailboxes use [GrainActivator], which the
    directory's [Runtime] implements; persistent mailboxes and transactions use
    [StateStore], journaled ones [JournalStore]; the membership table and the reminder
    service have classes of their own, each with an in-memory and a SQL instance, and the cross-cluster
    directory has one with an in-memory instance, one with outages and one that several clusters write.  [Transport] composes [Registry],
    [Directory], [Membership], [Auth] and [CrossCluster] into one silo; [ClusterRef],
    [TcpTransport], [ClusterSilo] and [Client] run on top of it.

    ** What the theorems show

    - The virtual actor: in a converged cluster the answers to calls from any silos, with
      deactivations in between, are those of one sequential object; no message is
      lost, handled twice or handled by a second activation.  Concurrent calls are linearizable: however their
      accesses interleave, with each other and with mailboxes that stop and are replaced meanwhile, a call that is answered took
      effect once, between its start and its end, and the answers are those of the object in the order of these
      effects; a call that finds its mailbox closed has no effect, and one that times out at most one.  Without a stop, on a
      silo that accepts activations, no call finds its mailbox closed.
    - Calls end: a call in flight ends after a bounded number of accesses whatever changes around it, and without
      interruptions its accesses are the atomic handler.  A call from outside into a finite set of grains that call each other
      is answered without any ask waiting for its timeout, because the call chain refuses calls to busy grains (one outside
      call at a time, ids without a comma).
    - Single activation: however concurrent callers and stopping mailboxes interleave, at most
      one mailbox holds a grain; every reachable directory has distinct live senders and a
      gauge that counts its entries.  After a drain only grains of calls that had read
      the flag before it was set can be active, and the activation limit is exceeded by at most
      the number of concurrent calls less one; both bounds are attained.  Uninterrupted, the
      accesses are the atomic operations of [Directory].  A late teardown of a replaced
      activation, the one way around single activation on a silo, is stated as a theorem too.
      Across silos, the lookup before an activation keeps a grain on one silo while the rings
      disagree, provided each contains the silos that are there, lookups are answered and calls do not overlap.
    - Turn discipline: the sequential mailbox handles messages one at a time and in order
      up to the first panic; every run of the reentrant mailbox equals a sequential run
      in lock order, within the bound [MAX_CONCURRENT] = 256.
    - Calls: call cycles are detected before any effect; the order of filter hooks and
      the outcome of every error branch.
    - Durability: what a stopped or faulted activation leaves in the store under each
      strategy is what the next one loads; versioned loads migrate step by step;
      replaying snapshot and journal gives the fold of all events.  A grain reached through
      a persistent reference keeps its state across activations, and the first reference
      that activates a grain decides which loop it runs, for every kind of reference.
    - Back ends: the SQL membership table, state stores and replication logs refine the
      in-memory ones as long as their statements succeed, Redis refines SQL, and stale
      etags are refused; concurrent writers of the membership table see one totally
      ordered sequence of views.
    - Notifications: observers are told exactly once each, streams are numbered without
      gaps, a poll fires exactly the due reminders and reschedules them.
    - Placement and membership: the ring maps a key to its clockwise successor, a
      membership change moves only the keys it must, the ring agrees with the member
      table over every interleaving of requests and periods (whose gossip batches do not
      announce a death after a join of the same silo), live silos refute suspicions and silent ones are removed.
      With writers that store the ring before they broadcast, in any interleaving with the rebalancer and with calls in flight, a
      grain left on a silo that lost it was activated after the last pass by a call that had looked at an older ring or by
      a reference that does not look.
    - Across clusters: while the directory is reachable and calls do not overlap, a grain is activated only in the cluster
      that it names; replicas converge, ownership is fenced by epochs, failover needs an outage of a whole grace period without
      a healthy check in it, and its sweep fences every grain it reaches and takes those that no other cluster claims
      meanwhile, also when requests to the directory fail.
    - Remote calls: a call is forwarded at most three times whatever the silos believe; in a
      converged cluster it is dispatched at the ring's owner and a remote ask returns what
      the owner's mailbox replies; retries are bounded and follow the backoff.
    - Joining and clients: a silo that joins through a seed enters every member's ring, an
      external client reaches the owner the silos agree on, and a TCP connection pairs
      each response with its request.
    - Declarations and applications: a written attribute list parses to exactly its attributes,
      which decide the loop, store and wire name of a grain and its messages; the ledger
      keeps its history over any activations, the account is never overdrawn, the chat
      rooms keep the minutes, every subscriber gets every item, a pool shares its work evenly, a full mailbox
      sheds exactly the excess, and a counter is the sum of its increments behind filters, from every silo
      of a cluster and across activations.
    - Some theorems state what goes wrong: gossip is broadcast before the ring is stored and
      can strand a grain, references to local grains skip the cluster-wide lookup, an activation left on a silo that lost its
      grain is unreachable, a late teardown duplicates an activation, the failover
      manager of a silo never sees a peer's status, two clusters that claim a grain at the same time or cannot read
      the directory both activate it, a cancelled TCP call shifts the
      responses of the ones after it, a cluster with a token cannot be joined.  Lemmas without a number record
      further ones (file-store etags after a restart, reentrant flushes out of order,
      repeated migrations after a fault, commas in grain keys).

    ** Modelling choices and bounds

    Rust's [u64]/[u32] values are integers in range and unchecked additions wrap
    (release profile); counters that would need 2^64 steps to wrap appear as explicit
    bounds.  User code (handlers, hooks, migrations, codecs) is a parameter; a handler
    may panic.  Awaiting is modelled by its outcome: a mailbox is given the finite list
    of what its receiver yields, a call the outcome of its reply channel, a protocol
    period the answers of its peers and its random choices.  A list that ends before
    the mailbox stops yields [None], and the theorems about runs prove that the given
    lists suffice.  Loops with a fixed bound keep it (three load and save attempts,
    polls of 100 entries, 1024 queued gossip updates).  Theorems about the ring under
    membership changes fix a universe of silo ids whose virtual nodes do not collide
    ([universe_ok]); witnesses compute such universes.

    A database statement, transaction or script applies as a whole or fails and changes
    nothing; which ones fail is an argument ([Faults]).  The network is an argument as well:
    each request has a fate (answered, lost on the way, lost on the way back), and the
    theorems state what they assume of it.  A TLS configuration is present or absent.

    Shared state is accessed in steps of one of two sizes.  An operation, handler, request or
    protocol period is one atomic step in most files; the reentrant mailbox, the membership
    steps, [ConcurrentDirectory], [CallsInFlight], [Asks] and [Serving] make the interleavings inside them explicit;
    in [ConcurrentDirectory], [CallsInFlight] and [Serving] a theorem says that an uninterrupted run is the atomic
    operation.  [CallsInFlight] takes the dispatch at the owner as one access; [Asks] and [Linearizable] cut it open.
    In [Asks] a turn of a mailbox (receive, handler, reply) is one step, and so is a handler's state change.

    ** Not modelled

    Crate roots (re-exports), the trait [ReplicatedGrain] (nothing uses it), database migrations,
    sockets, tonic and axum servers, TLS handshakes, tracing and the text of logs; the codecs
    (bincode, serde, prost), the frame codec, the parser of Rust types ([syn]) and the retry loop
    of the backoff crate are parameters; the Prometheus exporter example, and tests.

    Interleavings inside a request to the gateway of another cluster (one access of the call that makes it), the fate of a
    message that a timed-out call left in the mailbox of a busy grain ([CallGraph]), a protocol period of the failure
    detector cut at its awaits, transactions of two database clients at once (but for the examples that state what they do), and
    linearizability while rings change: [RingTransitions] shows the duplicates that a call in flight can then lead to. *)
From stdpp Require Export base tactics gmap strings list sorting pretty fin_maps relations.
From Stdlib Require Export ZArith Lia.
From Stdlib Require Import Ascii.

#[global] Set Default Goal Selector "!".
#[global] Open Scope Z_scope.

(** * Scope and automation *)
Declare Scope orlando_scope.
Delimit Scope orlando_scope with orlando.
#[global] Open Scope orlando_scope.

Create HintDb orlando.

(** Case analysis on every [match]/[decide] in sight, then clean up. *)
Ltac crush_cases := repeat (case_match || case_decide); simplify_eq/=.

(** Split conjunctions, solve what is immediate, leave the rest. *)
Ltac split_all := repeat match goal with |- _ ∧ _ => split end.

(** * Results: Rust's [Result<A, E>] *)
Inductive result (E A : Type) : Type :=
| Ok (a : A)
| Err (e : E).
Arguments Ok {E A} a.
Arguments Err {E A} e.

#[global] Instance result_ret {E} : MRet (result E) := λ A a, Ok a.
#[global] Instance result_bind {E} : MBind (result E) := λ A B f m,
  match m with Ok a => f a | Err e => Err e end.
#[global] Instance result_eq_dec {E A} `{EqDecision E, EqDecision A} : EqDecision (result E A).
Proof. solve_decision. Defined.

Definition is_ok {E A} (r : result E A) : bool :=
  match r with Ok _ => true | Err _ => false end.

Definition map_err {E F A} (f : E → F) (r : result E A) : result F A :=
  match r with Ok a => Ok a | Err e => Err (f e) end.

Definition ok_or {E A} (e : E) (o : option A) : result E A :=
  match o with Some a => Ok a | None => Err e end.

(** [Result::ok] *)
Definition res_ok {E A} (r : result E A) : option A :=
  match r with Ok a => Some a | Err _ => None end.

(** * Machine integers.  A [uN] is a [Z] in [[0, 2^N)]; [+] on them is the
    release-profile semantics of Rust (the workspace sets no [overflow-checks]),
    i.e. it wraps. *)
Definition u8_mod : Z := 2 ^ 8.
Definition u16_mod : Z := 2 ^ 16.
Definition u32_mod : Z := 2 ^ 32.
Definition u64_mod : Z := 2 ^ 64.
Definition u64_max : Z := u64_mod - 1.

Definition is_u16 (z : Z) : Prop := 0 ≤ z < u16_mod.
Definition is_u32 (z : Z) : Prop := 0 ≤ z < u32_mod.
Definition is_u64 (z : Z) : Prop := 0 ≤ z < u64_mod.

Definition u64_add (a b : Z) : Z := (a + b) mod u64_mod.
Definition u64_wrapping_mul (a b : Z) : Z := (a * b) mod u64_mod.

(** [p as u16], [p as u32], [n as u64] on an unsigned source. *)
Definition as_u16 (z : Z) : Z := z mod u16_mod.
Definition as_u32 (z : Z) : Z := z mod u32_mod.
Definition as_u64 (z : Z) : Z := z mod u64_mod.

Lemma u64_mod_pos : 0 < u64_mod.
Proof. done. Qed.

Lemma u64_add_small a b : is_u64 (a + b) → u64_add a b = a + b.
Proof. intros. by apply Z.mod_small. Qed.

Lemma u64_add_bound a b : is_u64 (u64_add a b).
Proof. by apply Z.mod_pos_bound. Qed.

Lemma as_u16_id z : is_u16 z → as_u16 z = z.
Proof. intros. by apply Z.mod_small. Qed.

Lemma as_u16_bound z : is_u16 (as_u16 z).
Proof. by apply Z.mod_pos_bound. Qed.

#[export] Hint Resolve u64_add_bound as_u16_bound u64_mod_pos : orlando.

(** [x as i64]: the two's complement reading, and the range of [i64]. *)
Definition i64_half : Z := 2 ^ 63.
Definition as_i64 (z : Z) : Z := (z + i64_half) mod u64_mod - i64_half.
Definition is_i64 (z : Z) : Prop := - i64_half ≤ z < i64_half.

Lemma as_i64_range z : is_i64 (as_i64 z).
Proof.
  unfold as_i64, is_i64, i64_half, u64_mod. pose proof (Z.mod_pos_bound (z + 2 ^ 63) (2 ^ 64)). lia.
Qed.

Lemma as_u64_as_i64 z : is_u64 z → as_u64 (as_i64 z) = z.
Proof.
  intros Hz. unfold as_u64, as_i64, i64_half.
  rewrite <- (Zminus_mod_idemp_r _ (2 ^ 63)), Zminus_mod_idemp_l, Zminus_mod_idemp_r.
  replace (z + 2 ^ 63 - 2 ^ 63) with z by lia. by apply Z.mod_small.
Qed.

Lemma as_i64_small z : 0 ≤ z < i64_half → as_i64 z = z.
Proof. unfold as_i64, i64_half, u64_mod. intros. rewrite Z.mod_small; lia. Qed.

Lemma as_u64_small z : 0 ≤ z < u64_mod → as_u64 z = z.
Proof. intros. by apply Z.mod_small. Qed.

Lemma as_i64_inj z z' : is_u64 z → is_u64 z' → as_i64 z = as_i64 z' → z = z'.
Proof. intros Hz Hz' E. by rewrite <- (as_u64_as_i64 z), <- (as_u64_as_i64 z'), E. Qed.

(** * Bytes *)
Abbreviation bytes := (list Byte.byte).
#[global] Instance byte_eq_dec : EqDecision Byte.byte := Byte.byte_eq_dec.
#[global] Program Instance byte_countable : Countable Byte.byte :=
  inj_countable Byte.to_N Byte.of_N _.
Next Obligation. intros b. apply Byte.of_to_N. Qed.

(** * Strings *)

(** [format!("{}/{}", a, b)] *)
Definition slash (a b : string) : string := a +:+ "/" +:+ b.
(** [format!("{}:{}", a, b)] *)
Definition colon (a b : string) : string := a +:+ ":" +:+ b.

(** A character occurs in a string. *)
Fixpoint str_has (c : ascii) (s : string) : bool :=
  match s with
  | EmptyString => false
  | String c' s' => bool_decide (c = c') || str_has c s'
  end.

(** [str::split(c)]: the pieces between the occurrences of [c]; never empty. *)
Fixpoint str_split (c : ascii) (s : string) : list string :=
  match s with
  | EmptyString => [EmptyString]
  | String c' s' =>
      if bool_decide (c = c') then EmptyString :: str_split c s'
      else match str_split c s' with
           | [] => [String c' EmptyString]
           | p :: ps => String c' p :: ps
           end
  end.

Lemma str_app_cons c (a b : string) : String c a +:+ b = String c (a +:+ b).
Proof. done. Qed.

Lemma str_app_nil_l (b : string) : "" +:+ b = b.
Proof. done. Qed.

Lemma str_app_nil_r s : s +:+ "" = s.
Proof. induction s as [|c s IH]; [done|]. by rewrite str_app_cons, IH. Qed.

Lemma str_app_assoc (a b c : string) : a +:+ b +:+ c = (a +:+ b) +:+ c.
Proof. induction a as [|x a IH]; [done|]. by rewrite !str_app_cons, IH. Qed.

Lemma str_has_app c a b : str_has c (a +:+ b) = str_has c a || str_has c b.
Proof.
  induction a as [|x a IH]; [done|]. rewrite str_app_cons. cbn [str_has].
  by rewrite IH, orb_assoc.
Qed.

Lemma str_has_cons_eq c s : str_has c (String c s) = true.
Proof. cbn. by rewrite bool_decide_true. Qed.

Lemma str_split_no_sep c s : str_has c s = false → str_split c s = [s].
Proof.
  induction s as [|x s IH]; [done|]. cbn. intros [Hx Hs]%orb_false_iff.
  by rewrite Hx, IH.
Qed.

Lemma str_split_app c a b :
  str_has c b = false → str_split c (a +:+ String c b) = str_split c a ++ [b].
Proof.
  intros Hb. induction a as [|x a IH].
  - rewrite str_app_nil_l. cbn [str_split].
    by rewrite bool_decide_true, str_split_no_sep by done.
  - rewrite str_app_cons. cbn [str_split]. rewrite IH. case_bool_decide; [done|].
    destruct (str_split c a) eqn:E; [|done].
    by destruct a; cbn in E; repeat case_match.
Qed.

(** Every piece of a split is free of the separator. *)
Lemma str_split_pieces c s p : p ∈ str_split c s → str_has c p = false.
Proof.
  revert p. induction s as [|x s IH]; cbn; intros p Hp.
  - by apply list_elem_of_singleton in Hp as ->.
  - case_bool_decide as Hx.
    + apply elem_of_cons in Hp as [->|Hp]; [done|]. by apply IH.
    + destruct (str_split c s) as [|q qs] eqn:E.
      * apply list_elem_of_singleton in Hp as ->. cbn. by rewrite bool_decide_false.
      * apply elem_of_cons in Hp as [->|Hp].
        -- cbn. rewrite bool_decide_false by done. apply IH. by left.
        -- apply IH. by right.
Qed.

(** [a ++ sep ++ b] determines [a] and [b] when [b] has no separator. *)
Lemma str_sep_inj c a b a' b' :
  str_has c b = false → str_has c b' = false →
  a +:+ String c b = a' +:+ String c b' → a = a' ∧ b = b'.
Proof.
  intros Hb Hb'. revert a'. induction a as [|x a IH]; intros [|x' a'] H;
    rewrite ?str_app_nil_l, ?str_app_cons in H; injection H; intros; subst.
  - done.
  - by rewrite str_has_app, str_has_cons_eq, orb_true_r in Hb.
  - by rewrite str_has_app, str_has_cons_eq, orb_true_r in Hb'.
  - destruct (IH a') as [-> ->]; done.
Qed.

(** Dually, it determines both when the left parts have no separator. *)
Lemma str_sep_inj_l c a b a' b' :
  str_has c a = false → str_has c a' = false →
  a +:+ String c b = a' +:+ String c b' → a = a' ∧ b = b'.
Proof.
  revert a'. induction a as [|x a IH]; intros [|x' a'] Ha Ha' H;
    rewrite ?str_app_nil_l, ?str_app_cons in H; injection H; intros; subst.
  - done.
  - by rewrite str_has_cons_eq in Ha'.
  - by rewrite str_has_cons_eq in Ha.
  - apply orb_false_iff in Ha as [_ Ha], Ha' as [_ Ha'].
    destruct (IH a') as [-> ->]; done.
Qed.

(** * Ordered maps: Rust's [BTreeMap<u64, A>].

    The contents are a [gmap Z A]; iteration is in increasing key order. *)
Section btree.
Context {A : Type}.
Implicit Types (m : gmap Z A) (k j : Z) (p q : Z * A).

Definition key_le p q : Prop := p.1 ≤ q.1.
#[global] Instance key_le_dec : RelDecision key_le.
Proof. intros p q. unfold key_le. apply _. Defined.
#[global] Instance key_le_trans : Transitive key_le.
Proof. unfold key_le. intros ???. lia. Qed.
#[global] Instance key_le_total : Total key_le.
Proof. unfold key_le. intros ??. lia. Qed.

(** [BTreeMap::iter] *)
Definition btree_iter m : list (Z * A) := merge_sort key_le (map_to_list m).

(** [BTreeMap::range(k..).next()] *)
Definition btree_ceiling m k : option (Z * A) :=
  head (filter (λ p, k ≤ p.1) (btree_iter m)).

(** [BTreeMap::iter().next()] *)
Definition btree_first m : option (Z * A) := head (btree_iter m).

Lemma elem_of_btree_iter m j v : (j, v) ∈ btree_iter m ↔ m !! j = Some v.
Proof. unfold btree_iter. by rewrite merge_sort_Permutation, elem_of_map_to_list. Qed.

Lemma btree_iter_sorted m : StronglySorted key_le (btree_iter m).
Proof. apply StronglySorted_merge_sort; apply _. Qed.

Lemma sorted_filter (P : Z * A → Prop) `{∀ p, Decision (P p)} l :
  StronglySorted key_le l → StronglySorted key_le (filter P l).
Proof.
  induction 1 as [|p l Hl IH Hp]; [constructor|].
  rewrite filter_cons. case_decide; [|done]. constructor; [done|].
  apply Forall_forall. intros q [_ Hq]%list_elem_of_filter. by eapply Forall_forall in Hp.
Qed.

Lemma sorted_head_least l p q :
  StronglySorted key_le l → head l = Some p → q ∈ l → p.1 ≤ q.1.
Proof.
  intros Hs Hp Hq. destruct Hs as [|p' l Hs Hall]; [done|]. simplify_eq/=.
  apply elem_of_cons in Hq as [->|Hq]; [done|]. by eapply Forall_forall in Hall.
Qed.

(** The first entry, in key order, whose key satisfies [P]. *)
Lemma head_filter_iter (P : Z → Prop) `{∀ j, Decision (P j)} m j v :
  head (filter (λ p, P p.1) (btree_iter m)) = Some (j, v) ↔
  m !! j = Some v ∧ P j ∧ ∀ j', is_Some (m !! j') → P j' → j ≤ j'.
Proof.
  set (l := filter (λ p, P p.1) (btree_iter m)).
  assert (∀ j v, (j, v) ∈ l ↔ P j ∧ m !! j = Some v) as Hl.
  { intros. unfold l. rewrite list_elem_of_filter, elem_of_btree_iter. done. }
  assert (∀ p q, head l = Some p → q ∈ l → p.1 ≤ q.1) as Hmin.
  { intros p q. by apply sorted_head_least, sorted_filter, btree_iter_sorted. }
  assert (∀ p, head l = Some p → p ∈ l) as Hhd.
  { intros p. destruct l; [done|]. cbn. intros [= ->]. by left. }
  split.
  - intros Hh. destruct (proj1 (Hl j v) (Hhd _ Hh)). split_and!; [done..|].
    intros j' [v' Hv'] HP. apply (Hmin (j, v) (j', v')); [done|]. by apply Hl.
  - intros (Hj & HP & Hleast). assert ((j, v) ∈ l) as Hin by by apply Hl.
    destruct (head l) as [[j' v']|] eqn:E; [|destruct l; [by apply elem_of_nil in Hin|done]].
    destruct (proj1 (Hl j' v') (Hhd _ eq_refl)) as [HP' Hj'].
    pose proof (Hmin _ _ eq_refl Hin). pose proof (Hleast j' ltac:(eauto) HP').
    cbn in *. assert (j' = j) as -> by lia. by simplify_eq.
Qed.

Lemma head_filter_iter_None (P : Z → Prop) `{∀ j, Decision (P j)} m :
  head (filter (λ p, P p.1) (btree_iter m)) = None ↔ ∀ j, is_Some (m !! j) → ¬ P j.
Proof.
  split.
  - intros Hh j [v Hv] HP.
    assert ((j, v) ∈ filter (λ p, P p.1) (btree_iter m)) as Hin.
    { by rewrite list_elem_of_filter, elem_of_btree_iter. }
    destruct (filter _ _); [by apply elem_of_nil in Hin|done].
  - intros Hall. destruct (filter _ _) as [|[j v] l] eqn:E; [done|].
    assert ((j, v) ∈ filter (λ p, P p.1) (btree_iter m)) as [HP Hj]%list_elem_of_filter.
    { rewrite E. by left. }
    apply elem_of_btree_iter in Hj. by destruct (Hall j ltac:(eauto)).
Qed.

(** [btree_ceiling] is the entry with the least key at or above [k]. *)
Lemma btree_ceiling_Some m k j v :
  btree_ceiling m k = Some (j, v) ↔
  m !! j = Some v ∧ k ≤ j ∧ ∀ j', is_Some (m !! j') → k ≤ j' → j ≤ j'.
Proof. apply (head_filter_iter (λ j, k ≤ j)). Qed.

Lemma btree_ceiling_None m k :
  btree_ceiling m k = None ↔ ∀ j, is_Some (m !! j) → j < k.
Proof.
  unfold btree_ceiling. rewrite (head_filter_iter_None (λ j, k ≤ j)).
  by setoid_rewrite Z.nle_gt.
Qed.

Lemma btree_first_filter m : btree_first m = head (filter (λ p, (λ _, True) p.1) (btree_iter m)).
Proof.
  unfold btree_first. f_equal. induction (btree_iter m) as [|p l IH]; [done|].
  rewrite filter_cons, decide_True by done. by f_equal.
Qed.

(** [btree_first] is the entry with the least key. *)
Lemma btree_first_Some m j v :
  btree_first m = Some (j, v) ↔ m !! j = Some v ∧ ∀ j', is_Some (m !! j') → j ≤ j'.
Proof.
  rewrite btree_first_filter. etrans; [apply (head_filter_iter (λ _, True) (H := λ _, True_dec))|]. naive_solver.
Qed.

Lemma btree_first_None m : btree_first m = None ↔ m = ∅.
Proof.
  rewrite btree_first_filter. etrans; [apply (head_filter_iter_None (λ _, True) (H := λ _, True_dec))|]. split.
  - intros Hall. apply map_empty. intros j. apply eq_None_not_Some. naive_solver.
  - intros -> j [v Hv]. by rewrite lookup_empty in Hv.
Qed.
End btree.
