(* ===== verification/CoreTypes.v ===== *)
(** Identities and errors shared by every crate: [GrainId], [ClusterId]
    (orlando-core), [SiloAddress] (orlando-cluster) and [GrainError]. *)
From Stdlib Require Import Ascii.
From S2P Require Import Prelude.

(** [orlando_core::GrainId] *)
Record GrainId := mkGrainId { type_name : string; key : string }.

#[global] Instance GrainId_eq_dec : EqDecision GrainId.
Proof. solve_decision. Defined.
#[global] Program Instance GrainId_countable : Countable GrainId :=
  inj_countable' (λ g, (type_name g, key g)) (λ p, mkGrainId p.1 p.2) _.
Next Obligation. by intros []. Qed.

(** [impl Display for GrainId]: ["{type_name}/{key}"]. *)
Definition GrainId_display (g : GrainId) : string := slash (type_name g) (key g).

(** [orlando_core::ClusterId] (a newtype over [String]). *)
Record ClusterId := mkClusterId { as_str : string }.
#[global] Instance ClusterId_eq_dec : EqDecision ClusterId.
Proof. solve_decision. Defined.
#[global] Program Instance ClusterId_countable : Countable ClusterId :=
  inj_countable' as_str mkClusterId _.
Next Obligation. by intros []. Qed.

(** [orlando_cluster::SiloAddress] *)
Record SiloAddress := mkSilo { host : string; port : Z; silo_id : string }.
#[global] Instance SiloAddress_eq_dec : EqDecision SiloAddress.
Proof. solve_decision. Defined.

(** The [u16] range of [SiloAddress::port]. *)
Definition silo_wf (s : SiloAddress) : Prop := is_u16 (port s).

(** [SiloAddress::endpoint] *)
Definition endpoint (s : SiloAddress) : string := colon (host s) (pretty (port s)).

(** [orlando_core::GrainError]; a [Duration] is its number of nanoseconds. *)
Inductive GrainError :=
| MailboxClosed
| ReplyTypeMismatch
| RemoteCallFailed (e : string)
| HandlerFailed (e : string)
| Timeout (d : Z)
| MailboxFull
| SiloOverloaded
| DeadlockDetected (cycle : string).
#[global] Instance GrainError_eq_dec : EqDecision GrainError.
Proof. solve_decision. Defined.

(** [GrainId]s print injectively when the type name has no slash (Rust type
    paths use [::]). *)
Lemma GrainId_display_inj g g' :
  str_has "/"%char (type_name g) = false → str_has "/"%char (type_name g') = false →
  GrainId_display g = GrainId_display g' → g = g'.
Proof.
  unfold GrainId_display, slash. intros Hg Hg' H.
  destruct g, g'. cbn in *. rewrite !str_app_cons, !str_app_nil_l in H.
  by destruct (str_sep_inj_l _ _ _ _ _ Hg Hg' H) as [-> ->].
Qed.
