(* ===== verification/HashRing.v ===== *)
(** The consistent-hash ring of [orlando-cluster/src/hash_ring.rs] and the
    placement strategies of [placement.rs] that consult it. *)
From Stdlib Require Import Ascii.
From S2P Require Import Prelude CoreTypes.

(** * FNV-1a *)
Definition fnv_offset_basis : Z := 0xcbf29ce484222325.
Definition fnv_prime : Z := 0x100000001b3.

(** [str::as_bytes] *)
Fixpoint as_bytes (s : string) : list Z :=
  match s with
  | EmptyString => []
  | String c s' => Z.of_N (N_of_ascii c) :: as_bytes s'
  end.

Definition fnv_step (hash byte : Z) : Z := u64_wrapping_mul (Z.lxor hash byte) fnv_prime.

Definition hash_key (k : string) : Z := foldl fnv_step fnv_offset_basis (as_bytes k).

(** * The ring *)
Record HashRing := mkRing { ring : gmap Z SiloAddress; virtual_nodes : Z }.

Definition HashRing_new (virtual_nodes : Z) : HashRing := mkRing ∅ virtual_nodes.

(** [hash_key(&format!("{}:{}", silo_id, i))] *)
Definition vnode_key (id : string) (i : Z) : Z := hash_key (colon id (pretty i)).

Definition HashRing_add (r : HashRing) (silo : SiloAddress) : HashRing :=
  mkRing
    (foldl (λ m i, <[vnode_key (silo_id silo) i := silo]> m) (ring r)
       (seqZ 0 (virtual_nodes r)))
    (virtual_nodes r).

Definition HashRing_remove (r : HashRing) (silo : SiloAddress) : HashRing :=
  mkRing
    (foldl (λ m i, delete (vnode_key (silo_id silo) i) m) (ring r)
       (seqZ 0 (virtual_nodes r)))
    (virtual_nodes r).

Definition HashRing_is_empty (r : HashRing) : bool := bool_decide (ring r = ∅).

Definition HashRing_get (r : HashRing) (grain_key : string) : option SiloAddress :=
  if HashRing_is_empty r then None
  else
    let k := hash_key grain_key in
    snd <$> (match btree_ceiling (ring r) k with
             | Some p => Some p
             | None => btree_first (ring r)
             end).

(** The [seen_ids] loop of [HashRing::members]. *)
Fixpoint HashRing_members_loop (seen : gset string) (values : list SiloAddress) : list SiloAddress :=
  match values with
  | [] => []
  | silo :: rest =>
      if decide (silo_id silo ∈ seen) then HashRing_members_loop seen rest
      else silo :: HashRing_members_loop ({[silo_id silo]} ∪ seen) rest
  end.

Definition HashRing_members (r : HashRing) : list SiloAddress :=
  HashRing_members_loop ∅ (snd <$> btree_iter (ring r)).

(** * Placement strategies *)
Inductive PlacementStrategy := HashBasedPlacement | PreferLocalPlacement | RandomPlacement.

(** [PlacementStrategy::place]; [rnd n] is [fastrand::usize(..n)]. *)
Definition place (rnd : nat → nat) (strategy : PlacementStrategy)
    (grain_type grain_key local_silo_id : string) (r : HashRing) : option SiloAddress :=
  match strategy with
  | HashBasedPlacement => HashRing_get r (slash grain_type grain_key)
  | PreferLocalPlacement =>
      snd <$> list_find (λ s, silo_id s = local_silo_id) (HashRing_members r)
  | RandomPlacement =>
      match HashRing_members r with
      | [] => None
      | ms => ms !! rnd (length ms)
      end
  end.

Example fnv_empty : hash_key "" = 0xcbf29ce484222325. Proof. vm_compute. reflexivity. Qed.
Example fnv_a : hash_key "a" = 0xaf63dc4c8601ec8c. Proof. vm_compute. reflexivity. Qed.
Example fnv_foobar : hash_key "foobar" = 0x85944171f73967e8. Proof. vm_compute. reflexivity. Qed.

(** * Lookup characterisations *)

(** The ring positions of a silo id: one per virtual node. *)
Definition vnodes (vn : Z) (id : string) : list Z := vnode_key id <$> seqZ 0 vn.

(** Two silo ids share no ring position. *)
Definition collision_free (vn : Z) (id id' : string) : Prop :=
  Forall (λ k, k ∉ vnodes vn id') (vnodes vn id).

#[global] Instance collision_free_dec vn id id' : Decision (collision_free vn id id').
Proof. unfold collision_free. apply _. Defined.

Lemma collision_free_spec vn id id' :
  collision_free vn id id' ↔ ∀ k, k ∈ vnodes vn id → k ∈ vnodes vn id' → False.
Proof. unfold collision_free. rewrite Forall_forall. naive_solver. Qed.

Lemma collision_free_sym vn id id' : collision_free vn id id' → collision_free vn id' id.
Proof. rewrite !collision_free_spec. naive_solver. Qed.

Lemma lookup_foldl_insert {A B} (f : B → Z) (v : A) (l : list B) (m : gmap Z A) j :
  foldl (λ m i, <[f i := v]> m) m l !! j = if decide (j ∈ f <$> l) then Some v else m !! j.
Proof.
  revert m. induction l as [|i l IH]; intros m; [done|].
  cbn. rewrite IH. destruct (decide (j ∈ f <$> l)).
  - by rewrite decide_True by (by right).
  - destruct (decide (j = f i)) as [->|].
    + rewrite decide_True by (by left). by rewrite lookup_insert_eq.
    + rewrite decide_False by (by intros [?|?]%elem_of_cons). by rewrite lookup_insert_ne.
Qed.

Lemma lookup_foldl_delete {A B} (f : B → Z) (l : list B) (m : gmap Z A) j :
  foldl (λ m i, delete (f i) m) m l !! j = if decide (j ∈ f <$> l) then None else m !! j.
Proof.
  revert m. induction l as [|i l IH]; intros m; [done|].
  cbn. rewrite IH. destruct (decide (j ∈ f <$> l)).
  - by rewrite decide_True by (by right).
  - destruct (decide (j = f i)) as [->|].
    + rewrite decide_True by (by left). by rewrite lookup_delete_eq.
    + rewrite decide_False by (by intros [?|?]%elem_of_cons). by rewrite lookup_delete_ne.
Qed.

Lemma lookup_add r s j :
  ring (HashRing_add r s) !! j =
  if decide (j ∈ vnodes (virtual_nodes r) (silo_id s)) then Some s else ring r !! j.
Proof. apply lookup_foldl_insert. Qed.

Lemma lookup_remove r s j :
  ring (HashRing_remove r s) !! j =
  if decide (j ∈ vnodes (virtual_nodes r) (silo_id s)) then None else ring r !! j.
Proof. apply lookup_foldl_delete. Qed.

Lemma ring_ext r r' :
  virtual_nodes r = virtual_nodes r' → (∀ j, ring r !! j = ring r' !! j) → r = r'.
Proof. destruct r, r'. cbn. intros -> H. f_equal. by apply map_eq. Qed.

(** [j] is the clockwise successor of [h] among the occupied positions. *)
Definition successor (m : gmap Z SiloAddress) (h j : Z) : Prop :=
  is_Some (m !! j) ∧
  ((h ≤ j ∧ ∀ j', is_Some (m !! j') → h ≤ j' → j ≤ j') ∨
   ((∀ j', is_Some (m !! j') → j' < h) ∧ ∀ j', is_Some (m !! j') → j ≤ j')).

Lemma successor_unique m h j j' : successor m h j → successor m h j' → j = j'.
Proof.
  intros [Hj [[H1 H2]|[H1 H2]]] [Hj' [[H3 H4]|[H3 H4]]].
  - specialize (H2 _ Hj' H3). specialize (H4 _ Hj H1). lia.
  - specialize (H3 _ Hj). lia.
  - specialize (H1 _ Hj'). lia.
  - specialize (H2 _ Hj'). specialize (H4 _ Hj). lia.
Qed.

Lemma get_successor r k s :
  HashRing_get r k = Some s ↔
  ∃ j, successor (ring r) (hash_key k) j ∧ ring r !! j = Some s.
Proof.
  unfold HashRing_get, HashRing_is_empty. case_bool_decide as He.
  { split; [done|]. intros (j & [[? Hj] _] & _). rewrite He in Hj.
    by rewrite lookup_empty in Hj. }
  destruct (btree_ceiling _ _) as [[j v]|] eqn:E.
  - apply btree_ceiling_Some in E as (Hj & Hk & Hmin).
    assert (successor (ring r) (hash_key k) j) by (split; eauto). cbn. split.
    + intros [= <-]. eauto.
    + intros (j' & Hs & Hj'). rewrite (successor_unique _ _ _ _ Hs H) in Hj'. by simplify_eq.
  - pose proof (proj1 (btree_ceiling_None _ _) E) as Hlt.
    destruct (btree_first (ring r)) as [[j v]|] eqn:F; [|by apply btree_first_None in F].
    apply btree_first_Some in F as [Hj Hmin].
    assert (successor (ring r) (hash_key k) j) by (split; eauto). cbn. split.
    + intros [= <-]. eauto.
    + intros (j' & Hs & Hj'). rewrite (successor_unique _ _ _ _ Hs H) in Hj'. by simplify_eq.
Qed.

Lemma get_None r k : HashRing_get r k = None ↔ ring r = ∅.
Proof.
  unfold HashRing_get, HashRing_is_empty. case_bool_decide; [done|].
  destruct (btree_ceiling _ _) as [[??]|]; cbn; [done|].
  destruct (btree_first _) as [[??]|] eqn:F; cbn; [done|].
  split; [|done]. by apply btree_first_None in F.
Qed.

(** The successor in a larger map is the old successor or a new position. *)
Lemma successor_mono m m' h j :
  (∀ i, is_Some (m !! i) → is_Some (m' !! i)) →
  successor m' h j → is_Some (m !! j) → successor m h j.
Proof.
  intros Hsub [_ Hj] Hm. split; [done|].
  destruct Hj as [[H1 H2]|[H1 H2]]; [left|right]; naive_solver.
Qed.

(** Every occupied position is a virtual node of the silo stored there. *)
Definition ring_wf (r : HashRing) : Prop :=
  ∀ j s, ring r !! j = Some s → j ∈ vnodes (virtual_nodes r) (silo_id s).

Lemma ring_wf_new vn : ring_wf (HashRing_new vn).
Proof. intros j s. cbn. by rewrite lookup_empty. Qed.

Lemma ring_wf_add r s : ring_wf r → ring_wf (HashRing_add r s).
Proof. intros Hr j t. rewrite lookup_add. case_decide; [by intros [= <-]|apply Hr]. Qed.

Lemma ring_wf_remove r s : ring_wf r → ring_wf (HashRing_remove r s).
Proof. intros Hr j t. rewrite lookup_remove. case_decide; [done|apply Hr]. Qed.

#[export] Hint Resolve ring_wf_new ring_wf_add ring_wf_remove : orlando.

(** * Members *)
Lemma members_loop_elem seen l s :
  s ∈ HashRing_members_loop seen l → s ∈ l ∧ silo_id s ∉ seen.
Proof.
  revert seen. induction l as [|t l IH]; intros seen; cbn; [by intros ?%elem_of_nil|].
  case_decide.
  - intros [? ?]%IH. split; [by right|done].
  - intros [->|[? ?]%IH]%elem_of_cons; [split; [by left|done]|].
    split; [by right|set_solver].
Qed.

Lemma members_loop_covers seen l s :
  s ∈ l → silo_id s ∉ seen → silo_id s ∈ silo_id <$> HashRing_members_loop seen l.
Proof.
  revert seen. induction l as [|t l IH]; intros seen; cbn; [by intros ?%elem_of_nil|].
  intros [->|Hs]%elem_of_cons Hseen; case_decide.
  - done.
  - by left.
  - by apply IH.
  - cbn. destruct (decide (silo_id s = silo_id t)) as [->|]; [by left|].
    right. apply IH; set_solver.
Qed.

Lemma members_loop_nodup seen l : NoDup (silo_id <$> HashRing_members_loop seen l).
Proof.
  revert seen. induction l as [|t l IH]; intros seen; cbn; [constructor|].
  case_decide; [done|]. cbn. constructor; [|done].
  intros (s & Hs & [_ ?]%members_loop_elem)%list_elem_of_fmap. set_solver.
Qed.

Lemma elem_of_values r s : s ∈ snd <$> btree_iter (ring r) ↔ ∃ j, ring r !! j = Some s.
Proof.
  rewrite list_elem_of_fmap. split.
  - intros ([j t] & -> & Hj%elem_of_btree_iter). eauto.
  - intros [j Hj]. exists (j, s). by rewrite elem_of_btree_iter.
Qed.

Lemma members_sound r s : s ∈ HashRing_members r → ∃ j, ring r !! j = Some s.
Proof. intros [Hs _]%members_loop_elem. by apply elem_of_values. Qed.

Lemma members_ids r id :
  id ∈ silo_id <$> HashRing_members r ↔ ∃ j s, ring r !! j = Some s ∧ silo_id s = id.
Proof.
  split.
  - intros (s & -> & [j Hj]%members_sound)%list_elem_of_fmap. eauto.
  - intros (j & s & Hj & <-). apply members_loop_covers; [|set_solver].
    apply elem_of_values. eauto.
Qed.

Lemma members_nodup r : NoDup (silo_id <$> HashRing_members r).
Proof. apply members_loop_nodup. Qed.

(** Building a ring from a list of silos (the loop of [MembershipView::build_ring]
    and of the client's [connect]). *)
Definition ring_of (vn : Z) (silos : list SiloAddress) : HashRing :=
  foldl HashRing_add (HashRing_new vn) silos.

Lemma add_virtual_nodes r s : virtual_nodes (HashRing_add r s) = virtual_nodes r.
Proof. done. Qed.

Lemma add_comm r s t :
  collision_free (virtual_nodes r) (silo_id s) (silo_id t) →
  HashRing_add (HashRing_add r s) t = HashRing_add (HashRing_add r t) s.
Proof.
  rewrite collision_free_spec. intros Hc. apply ring_ext; [done|]. intros j.
  rewrite !lookup_add. cbn. repeat case_decide; naive_solver.
Qed.

(** * Properties of the ring *)

(** C38: [HashRing::get] returns [None] exactly on an empty ring, and otherwise the
    silo at the clockwise successor of the key's FNV-1a hash: the least occupied
    position at or above it, wrapping to the least position of all. *)
Theorem ring_get_is_successor r k :
  (HashRing_get r k = None ↔ ring r = ∅) ∧
  (∀ s, HashRing_get r k = Some s ↔
        ∃ j, successor (ring r) (hash_key k) j ∧ ring r !! j = Some s).
Proof. split; [apply get_None|apply get_successor]. Qed.

(** Consistent hashing, joins: adding a silo leaves the owner of every key
    unchanged or makes the new silo its owner; no key moves between old silos. *)
Theorem add_moves_keys_only_to_new_silo r s k :
  HashRing_get (HashRing_add r s) k = HashRing_get r k ∨
  HashRing_get (HashRing_add r s) k = Some s.
Proof.
  destruct (HashRing_get (HashRing_add r s) k) as [t|] eqn:E.
  - apply get_successor in E as (j & Hs & Hj). rewrite lookup_add in Hj. case_decide as Hd.
    + right. by simplify_eq.
    + left. symmetry. apply get_successor. exists j. split; [|done].
      eapply successor_mono; [|exact Hs|by rewrite Hj].
      intros i Hi. rewrite lookup_add. by case_decide.
  - left. symmetry. apply get_None in E. apply get_None, map_empty. intros j.
    pose proof (lookup_add r s j) as Hj. rewrite E, lookup_empty in Hj. by case_decide.
Qed.

(** Consistent hashing, departures: removing a silo never moves a key owned by a
    different silo, provided the two silos share no ring position. *)
Theorem remove_keeps_other_owners r s t k :
  ring_wf r → collision_free (virtual_nodes r) (silo_id s) (silo_id t) →
  HashRing_get r k = Some t → HashRing_get (HashRing_remove r s) k = Some t.
Proof.
  intros Hwf Hc (j & Hs & Hj)%get_successor. apply get_successor. exists j.
  assert (ring (HashRing_remove r s) !! j = Some t) as Hj'.
  { rewrite lookup_remove. case_decide as Hd; [|done].
    rewrite collision_free_spec in Hc. destruct (Hc j); [done|by apply Hwf]. }
  split; [|done]. eapply successor_mono; [|exact Hs|by rewrite Hj'].
  intros i [u Hi]. rewrite lookup_remove in Hi. case_decide; [done|]. eauto.
Qed.

Definition silo_a : SiloAddress := mkSilo "127.0.0.1" 5001 "silo-a".
Definition silo_b : SiloAddress := mkSilo "127.0.0.1" 5002 "silo-b".
Definition ring_ab : HashRing := ring_of 4 [silo_a; silo_b].

Lemma remove_keeps_other_owners_witness :
  ring_wf ring_ab ∧ collision_free 4 "silo-b" "silo-a" ∧
  HashRing_get ring_ab "my-grain/key-2" = Some silo_a ∧
  HashRing_get (HashRing_remove ring_ab silo_b) "my-grain/key-2" = Some silo_a.
Proof.
  assert (ring_wf ring_ab) as Hwf by (apply ring_wf_add, ring_wf_add, ring_wf_new).
  assert (collision_free 4 "silo-b" "silo-a") as Hc
    by (apply (bool_decide_unpack _); vm_compute; exact I).
  assert (HashRing_get ring_ab "my-grain/key-2" = Some silo_a) as Hg
    by (vm_compute; reflexivity).
  split; [exact Hwf|]. split; [exact Hc|]. split; [exact Hg|].
  exact (remove_keeps_other_owners ring_ab silo_b silo_a "my-grain/key-2" Hwf Hc Hg).
Defined.

(** Pairwise absence of collisions in a list of silos. *)
Definition collisions_free (vn : Z) (silos : list SiloAddress) : Prop :=
  ForallPairs (λ s t, s = t ∨ collision_free vn (silo_id s) (silo_id t)) silos.

Lemma ring_of_foldl_perm r silos silos' :
  silos ≡ₚ silos' → collisions_free (virtual_nodes r) silos →
  foldl HashRing_add r silos = foldl HashRing_add r silos'.
Proof.
  intros Hp. revert r. induction Hp as [|s l l' _ IH|s t l|l l' l'' Hp1 IH1 Hp2 IH2];
    intros r Hc; cbn.
  - done.
  - apply IH. intros a b Ha Hb. apply Hc; by right.
  - f_equal. destruct (Hc s t) as [->|Hst]; [by cbn; auto..|done|].
    by rewrite (add_comm r s t).
  - rewrite IH1 by done. apply IH2. intros a b Ha Hb.
    apply Hc; (eapply Permutation_in; [symmetry; exact Hp1|done]).
Qed.

(** Agreement of silos: the ring does not depend on the order in which its silos
    were added, so nodes that know the same members place every grain alike. *)
Theorem ring_order_independent vn silos silos' :
  silos ≡ₚ silos' → collisions_free vn silos → ring_of vn silos = ring_of vn silos'.
Proof. intros Hp Hc. by apply ring_of_foldl_perm. Qed.

Lemma ring_order_independent_witness :
  collisions_free 4 [silo_a; silo_b] ∧ ring_of 4 [silo_a; silo_b] = ring_of 4 [silo_b; silo_a].
Proof.
  assert (collisions_free 4 [silo_a; silo_b]) as Hc.
  { assert (collision_free 4 "silo-b" "silo-a") as H1
      by (apply (bool_decide_unpack _); vm_compute; exact I).
    pose proof (collision_free_sym _ _ _ H1) as H2.
    intros s t [<-|[<-|[]]] [<-|[<-|[]]]; auto. }
  split; [exact Hc|]. apply ring_order_independent; [constructor|exact Hc].
Defined.

(** Adding a silo to a ring where none of its positions is taken and then removing
    it restores the ring. *)
Theorem add_remove_roundtrip r s :
  Forall (λ j, ring r !! j = None) (vnodes (virtual_nodes r) (silo_id s)) →
  HashRing_remove (HashRing_add r s) s = r.
Proof.
  rewrite Forall_forall. intros Hfree. apply ring_ext; [done|]. intros j.
  rewrite lookup_remove, lookup_add, add_virtual_nodes. case_decide; [|done].
  symmetry. by apply Hfree.
Qed.

Lemma add_remove_roundtrip_witness :
  HashRing_remove (HashRing_add (ring_of 4 [silo_a]) silo_b) silo_b = ring_of 4 [silo_a].
Proof.
  apply add_remove_roundtrip. apply (bool_decide_unpack _). vm_compute. exact I.
Defined.

(** [HashRing::members] lists every silo id present on the ring exactly once, and
    the owner of any key, under every placement strategy, is one of those ids. *)
Theorem members_and_placement rnd strategy gt gk local r :
  NoDup (silo_id <$> HashRing_members r) ∧
  (∀ id, id ∈ silo_id <$> HashRing_members r ↔ ∃ j s, ring r !! j = Some s ∧ silo_id s = id) ∧
  (∀ s, place rnd strategy gt gk local r = Some s → silo_id s ∈ silo_id <$> HashRing_members r) ∧
  (∀ s, place rnd PreferLocalPlacement gt gk local r = Some s → silo_id s = local).
Proof.
  split_and!; [apply members_nodup|apply members_ids| |].
  - intros s. destruct strategy; cbn.
    + intros (j & _ & Hj)%get_successor. apply members_ids. eauto.
    + intros ([i t] & (Hi & _)%list_find_Some & ->)%fmap_Some.
      apply list_elem_of_fmap_2. by eapply list_elem_of_lookup_2.
    + intros Hs. apply list_elem_of_fmap_2.
      destruct (HashRing_members r); [done|]. by eapply list_elem_of_lookup_2.
  - cbn. intros s ([i t] & (_ & Hid & _)%list_find_Some & ->)%fmap_Some. done.
Qed.
