(* ===== verification/Sql.v ===== *)
(** * Statements of the SQL back ends

    What the SQL back ends have in common: signed 64-bit columns, a table as a finite
    map from its primary key to its rows, [ORDER BY] on a text key, and statements that may fail.

    The databases are not part of the repository; what the code relies on of them is
    that a statement (or a transaction) either applies as a whole or fails and changes nothing.
    Each operation below takes the failures of its statements as an argument, a
    function [Faults] from the position of an awaited statement to its error message. *)
From S2P Require Import Prelude.

(** The failures of the statements of one call: position of the awaited statement to
    its error.  [no_faults] is a call whose statements all succeed. *)
Abbreviation Faults := (nat → option string).
Definition no_faults : Faults := λ _, None.

(** Awaiting the [i]-th statement: [?] on its error, otherwise continue. *)
Definition stmt {E A} (be : string → E) (f : Faults) (i : nat) (k : result E A) : result E A :=
  match f i with Some e => Err (be e) | None => k end.

(** [ORDER BY key] over a table with a text primary key: rows in the order of the
    keys' bytes. *)
Section order_by.
Context {A : Type}.
Implicit Types (m : gmap string A) (l : list (string * A)).

Definition fst_le (p q : string * A) : Prop := String.le p.1 q.1.
#[global] Instance fst_le_dec : RelDecision fst_le.
Proof. intros p q. unfold fst_le. apply _. Defined.
#[global] Instance fst_le_trans : Transitive fst_le.
Proof. intros p q r. unfold fst_le. by etransitivity. Qed.
#[global] Instance fst_le_total : Total fst_le.
Proof. intros p q. apply (total String.le). Qed.

Definition by_key (l : list (string * A)) : list (string * A) := merge_sort fst_le l.
Definition order_by_key m : list A := snd <$> by_key (map_to_list m).

(** Sorting rows with distinct keys does not depend on the order they come in. *)
Lemma by_key_unique l l' :
  NoDup l.*1 → l ≡ₚ l' → StronglySorted fst_le l' → by_key l = l'.
Proof.
  intros Hnd Hp Hs. apply (StronglySorted_unique_strong fst_le); try done.
  - intros [k a] [k' a'] H1 H2 H3 H4. unfold by_key in H1. rewrite merge_sort_Permutation in H1.
    assert (k = k') as -> by (apply (anti_symm String.le); done).
    rewrite <- Hp in H2.
    apply list_elem_of_lookup in H1 as (i & Hi). apply list_elem_of_lookup in H2 as (j & Hj).
    assert (i = j) as ->.
    { apply (NoDup_lookup l.*1 i j k'); [done|..]; rewrite list_lookup_fmap; [by rewrite Hi|by rewrite Hj]. }
    congruence.
  - apply StronglySorted_merge_sort; apply _.
  - unfold by_key. by rewrite merge_sort_Permutation.
Qed.

Lemma by_key_perm l l' : NoDup l.*1 → l ≡ₚ l' → by_key l = by_key l'.
Proof.
  intros Hnd Hp. apply by_key_unique; [done| |apply StronglySorted_merge_sort; apply _].
  unfold by_key. by rewrite merge_sort_Permutation.
Qed.

Lemma elem_of_by_key l p : p ∈ by_key l ↔ p ∈ l.
Proof. unfold by_key. by rewrite merge_sort_Permutation. Qed.

Lemma elem_of_order_by_key m a : a ∈ order_by_key m ↔ ∃ k, m !! k = Some a.
Proof.
  unfold order_by_key. rewrite list_elem_of_fmap. split.
  - intros ([k b] & -> & Hp). rewrite elem_of_by_key, elem_of_map_to_list in Hp. eauto.
  - intros (k & Hk). exists (k, a). split; [done|]. by rewrite elem_of_by_key, elem_of_map_to_list.
Qed.
End order_by.

Lemma order_by_key_fmap {A B} (f : A → B) (m : gmap string A) :
  order_by_key (f <$> m) = f <$> order_by_key m.
Proof.
  unfold order_by_key.
  rewrite (by_key_unique (map_to_list (f <$> m)) (prod_map id f <$> by_key (map_to_list m))).
  - rewrite <- !list_fmap_compose. by apply list_fmap_ext; intros i [].
  - apply NoDup_fst_map_to_list.
  - rewrite map_to_list_fmap. apply fmap_Permutation. unfold by_key. by rewrite merge_sort_Permutation.
  - unfold by_key. generalize (StronglySorted_merge_sort fst_le (map_to_list m)).
    induction 1 as [|p l _ IH Hall]; [constructor|]. cbn. constructor; [done|].
    apply Forall_fmap. eapply Forall_impl; [exact Hall|]. by intros q.
Qed.
