(* ===== verification/Parse.v ===== *)
(** * Parsing integers

    [str::parse] for the integer types the code reads back from text (etags, ports), with
    its error values, and that it inverts printing. *)
From S2P Require Import Prelude.
From Stdlib Require Import Ascii.

(** [std::num::ParseIntError] and its [Display]. *)
Inductive ParseIntError := EmptyInput | InvalidDigit | PosOverflow | NegOverflow.

Definition ParseIntError_display (e : ParseIntError) : string :=
  match e with
  | EmptyInput => "cannot parse integer from empty string"
  | InvalidDigit => "invalid digit found in string"
  | PosOverflow => "number too large to fit in target type"
  | NegOverflow => "number too small to fit in target type"
  end.

Definition digit_of (c : ascii) : option Z :=
  let d := Z.of_N (N_of_ascii c) - 48 in
  if bool_decide (0 ≤ d ≤ 9) then Some d else None.

(** The digit loop; [sg] is 1 or -1. *)
Fixpoint parse_loop (lo hi sg acc : Z) (s : string) : result ParseIntError Z :=
  match s with
  | EmptyString => Ok acc
  | String c s' =>
      match digit_of c with
      | None => Err InvalidDigit
      | Some d =>
          let acc' := 10 * acc + sg * d in
          if bool_decide (hi < acc') then Err PosOverflow
          else if bool_decide (acc' < lo) then Err NegOverflow
          else parse_loop lo hi sg acc' s'
      end
  end.

(** [from_str_radix(s, 10)] of a type with range [lo..=hi]; a minus sign is only
    accepted by signed types. *)
Definition parse_int (lo hi : Z) (s : string) : result ParseIntError Z :=
  match s with
  | EmptyString => Err EmptyInput
  | String c s' =>
      if bool_decide (c = "+"%char) then
        if bool_decide (s' = "") then Err InvalidDigit else parse_loop lo hi 1 0 s'
      else if bool_decide (c = "-"%char) && bool_decide (lo < 0) then
        if bool_decide (s' = "") then Err InvalidDigit else parse_loop lo hi (-1) 0 s'
      else parse_loop lo hi 1 0 s
  end.

Definition parse_i64 : string → result ParseIntError Z := parse_int (- 2 ^ 63) (2 ^ 63 - 1).
Definition parse_u16 : string → result ParseIntError Z := parse_int 0 (u16_mod - 1).

(** ** Parsing inverts printing *)
Lemma digit_of_pretty (x : N) : (x < 10)%N → digit_of (pretty_N_char x) = Some (Z.of_N x).
Proof.
  intros Hx.
  assert (x = 0 ∨ x = 1 ∨ x = 2 ∨ x = 3 ∨ x = 4 ∨ x = 5 ∨ x = 6 ∨ x = 7 ∨ x = 8 ∨ x = 9)%N
    as Hc by lia.
  by repeat destruct Hc as [->|Hc]; subst.
Qed.

Lemma parse_loop_pretty lo hi sg (x : N) s :
  lo ≤ 0 ≤ hi → sg = 1 ∨ sg = -1 → lo ≤ sg * Z.of_N x ≤ hi →
  parse_loop lo hi sg 0 (pretty_N_go x s) = parse_loop lo hi sg (sg * Z.of_N x) s.
Proof.
  intros H0 Hsg. revert s. induction (N.lt_wf_0 x) as [x _ IH]. intros s Hx.
  assert (x = 0 ∨ 0 < x)%N as [->|Hpos] by lia.
  { by rewrite pretty_N_go_0, Z.mul_0_r. }
  pose proof (N.div_mod x 10 ltac:(done)) as Hdm. pose proof (N.mod_lt x 10 ltac:(done)) as Hm.
  rewrite pretty_N_go_step by done.
  assert (x `div` 10 < x)%N as Hlt by (apply N.div_lt; lia).
  rewrite IH by (first [exact Hlt | destruct Hsg as [-> | ->]; lia]).
  cbn [parse_loop]. rewrite digit_of_pretty by done.
  assert (10 * (sg * Z.of_N (x `div` 10)) + sg * Z.of_N (x `mod` 10) = sg * Z.of_N x) as ->.
  { rewrite Hdm at 3. rewrite N2Z.inj_add, N2Z.inj_mul. destruct Hsg as [-> | ->]; lia. }
  rewrite bool_decide_false by lia. rewrite bool_decide_false by lia. done.
Qed.

(** The first character of a printed positive number is a digit. *)
Lemma pretty_N_go_first (x : N) s :
  (0 < x)%N → ∃ d s', (d < 10)%N ∧ pretty_N_go x s = String (pretty_N_char d) s'.
Proof.
  revert s. induction (N.lt_wf_0 x) as [x _ IH]. intros s Hx. rewrite pretty_N_go_step by done.
  pose proof (N.mod_lt x 10 ltac:(done)).
  assert (x `div` 10 < x)%N as Hlt by (apply N.div_lt; lia).
  destruct (N.eq_0_gt_0_cases (x `div` 10)) as [E|Hpos].
  - rewrite E, pretty_N_go_0. eauto.
  - by apply IH.
Qed.

Lemma parse_int_pretty_pos lo hi (p : positive) :
  lo ≤ 0 → Z.pos p ≤ hi → parse_int lo hi (pretty_N_go (N.pos p) "") = Ok (Z.pos p).
Proof.
  intros Hlo Hhi. destruct (pretty_N_go_first (N.pos p) "" ltac:(done)) as (d & s' & Hd & E).
  pose proof (parse_loop_pretty lo hi 1 (N.pos p) "" ltac:(lia) ltac:(by left) ltac:(lia)) as Hp.
  rewrite E in *. unfold parse_int.
  assert (pretty_N_char d ≠ "+"%char ∧ pretty_N_char d ≠ "-"%char) as [? ?].
  { unfold pretty_N_char. by repeat case_match. }
  rewrite !bool_decide_false by done. cbn [andb]. by rewrite Hp.
Qed.

(** [z.to_string().parse()] gives [z] back for every value of the type. *)
Lemma parse_int_pretty lo hi z : lo ≤ 0 ≤ hi → lo ≤ z ≤ hi → parse_int lo hi (pretty z) = Ok z.
Proof.
  intros Hlo Hz. destruct z as [|p|p].
  - change (pretty 0) with "0". unfold parse_int. rewrite !bool_decide_false by done.
    cbn [andb parse_loop]. change (digit_of "0") with (Some 0). cbn.
    rewrite bool_decide_false by lia. by rewrite bool_decide_false by lia.
  - change (pretty (Z.pos p)) with (pretty_N_go (N.pos p) "").
    apply parse_int_pretty_pos; lia.
  - change (pretty (Z.neg p)) with (String "-" (pretty_N_go (N.pos p) "")).
    destruct (pretty_N_go_first (N.pos p) "" ltac:(done)) as (d & s' & Hd & E).
    pose proof (parse_loop_pretty lo hi (-1) (N.pos p) "" ltac:(lia) ltac:(by right) ltac:(lia)) as Hp.
    unfold parse_int. rewrite (bool_decide_false ("-"%char = "+"%char)) by done.
    rewrite (bool_decide_true (lo < 0)) by lia. rewrite (bool_decide_true ("-"%char = "-"%char)) by done.
    cbn [andb]. rewrite E in *. rewrite bool_decide_false by done. by rewrite Hp.
Qed.

(** A parsed value is in the range of its type. *)
Lemma parse_loop_range lo hi sg acc s n :
  lo ≤ acc ≤ hi → parse_loop lo hi sg acc s = Ok n → lo ≤ n ≤ hi.
Proof.
  revert acc. induction s as [|c s IH]; intros acc Ha; cbn [parse_loop]; [by intros [= <-]|].
  destruct (digit_of c); [|done]. repeat case_bool_decide; try done. apply IH. lia.
Qed.

Lemma parse_int_range lo hi s n : lo ≤ 0 ≤ hi → parse_int lo hi s = Ok n → lo ≤ n ≤ hi.
Proof.
  intros H0. unfold parse_int. destruct s as [|c s]; [done|].
  repeat case_bool_decide; cbn [andb]; try done; by apply parse_loop_range.
Qed.
