(* ===== verification/MembershipTable.v ===== *)
(** * The membership table

    [membership_table.rs] and [sqlite_membership_table.rs] of orlando-cluster: the view
    types, the in-memory table, the SQLite table with its row encoding, the interface
    [MembershipTable] and what it promises: every run of operations, whoever
    issues them, produces one totally ordered sequence of views. *)
From S2P Require Import Prelude Sql CoreTypes HashRing.
From Stdlib Require Import Ascii.

Inductive MembershipStatus := Joining | Active | Suspect | Dead.
#[global] Instance MembershipStatus_eq_dec : EqDecision MembershipStatus.
Proof. solve_decision. Defined.

(** [i_am_alive] is a [SystemTime], in nanoseconds since [UNIX_EPOCH]. *)
Record MemberEntry := mkEntry {
  addr : SiloAddress; status : MembershipStatus; generation : Z;
  suspectors : list string; i_am_alive : Z }.
#[global] Instance MemberEntry_eq_dec : EqDecision MemberEntry.
Proof. solve_decision. Defined.

Definition MemberEntry_joining (now : Z) (a : SiloAddress) (generation : Z) : MemberEntry :=
  mkEntry a Joining generation [] now.

Record MembershipView := mkView { view_version : Z; view_members : list MemberEntry }.

Definition active_silos (v : MembershipView) : list SiloAddress :=
  addr <$> filter (λ m, status m = Active) (view_members v).

Definition member (v : MembershipView) (id : string) : option MemberEntry :=
  snd <$> list_find (λ m, silo_id (addr m) = id) (view_members v).

(** The loop of [build_ring] is [foldl HashRing_add]. *)
Definition build_ring (v : MembershipView) (virtual_nodes : Z) : HashRing :=
  foldl HashRing_add (HashRing_new virtual_nodes) (active_silos v).

Inductive MembershipError :=
| VersionConflict (expected actual : Z)
| NotFound (id : string)
| Backend (message : string).
#[global] Instance MembershipError_eq_dec : EqDecision MembershipError.
Proof. solve_decision. Defined.

(** ** The interface *)
Class MembershipTable (T : Type) := {
  mt_read_all : T → result MembershipError MembershipView;
  mt_try_update : T → MemberEntry → Z → T * result MembershipError MembershipView;
  mt_update_i_am_alive : Z → T → string → T * result MembershipError unit }.

(** ** The in-memory table *)
Record Inner := mkInner { version : Z; members : gmap string MemberEntry }.
Definition InMemoryMembershipTable_new : Inner := mkInner 0 ∅.

Definition with_id (e : MemberEntry) : string * MemberEntry := (silo_id (addr e), e).

(** [members.values().cloned()] sorted by [addr.silo_id]. *)
Definition snapshot (i : Inner) : MembershipView :=
  mkView (version i) (by_key (with_id <$> (map_to_list (members i)).*2)).*2.

Definition InMemoryMembershipTable_read_all (i : Inner) : result MembershipError MembershipView :=
  Ok (snapshot i).

Definition InMemoryMembershipTable_try_update (i : Inner) (entry : MemberEntry) (expected : Z)
  : Inner * result MembershipError MembershipView :=
  if bool_decide (version i ≠ expected) then (i, Err (VersionConflict expected (version i)))
  else
    let i' := mkInner (u64_add (version i) 1) (<[silo_id (addr entry) := entry]> (members i)) in
    (i', Ok (snapshot i')).

Definition touch (now : Z) (e : MemberEntry) : MemberEntry :=
  mkEntry (addr e) (status e) (generation e) (suspectors e) now.

Definition InMemoryMembershipTable_update_i_am_alive (now : Z) (i : Inner) (id : string)
  : Inner * result MembershipError unit :=
  match members i !! id with
  | Some entry => (mkInner (version i) (<[id := touch now entry]> (members i)), Ok tt)
  | None => (i, Err (NotFound id))
  end.

#[global] Instance InMemory_table : MembershipTable Inner := {|
  mt_read_all := InMemoryMembershipTable_read_all;
  mt_try_update := InMemoryMembershipTable_try_update;
  mt_update_i_am_alive := InMemoryMembershipTable_update_i_am_alive |}.

(** ** The SQLite table: rows and their encoding *)
Definition newline : ascii := Ascii.ascii_of_nat 10.

Definition status_to_str (s : MembershipStatus) : string :=
  match s with
  | Joining => "joining" | Active => "active" | Suspect => "suspect" | Dead => "dead"
  end.

Definition status_from_str (s : string) : MembershipStatus :=
  if bool_decide (s = "joining") then Joining
  else if bool_decide (s = "active") then Active
  else if bool_decide (s = "suspect") then Suspect
  else Dead.

(** [s.join] with a newline. *)
Definition join_suspectors (l : list string) : string :=
  String.concat (String newline EmptyString) l.

Definition split_suspectors (s : string) : list string :=
  if bool_decide (s = "") then [] else str_split newline s.

Definition nanos_per_milli : Z := 1000000.

(** [duration_since] fails before the epoch; [as_millis() as i64] truncates. *)
Definition systemtime_to_millis (t : Z) : Z :=
  if bool_decide (t < 0) then 0 else as_i64 (t / nanos_per_milli).

Definition millis_to_systemtime (ms : Z) : Z := Z.max ms 0 * nanos_per_milli.

Record Row := mkRow {
  row_silo_id : string; row_host : string; row_port : Z; row_status : string;
  row_generation : Z; row_suspectors : string; row_i_am_alive : Z }.

Definition row_to_entry (r : Row) : MemberEntry :=
  mkEntry (mkSilo (row_host r) (as_u16 (row_port r)) (row_silo_id r))
    (status_from_str (row_status r)) (as_u64 (row_generation r))
    (split_suspectors (row_suspectors r)) (millis_to_systemtime (row_i_am_alive r)).

(** The values bound by the upsert of [try_update]. *)
Definition entry_to_row (e : MemberEntry) : Row :=
  mkRow (silo_id (addr e)) (host (addr e)) (port (addr e)) (status_to_str (status e))
    (as_i64 (generation e)) (join_suspectors (suspectors e)) (systemtime_to_millis (i_am_alive e)).

(** ** The SQLite table: statements and operations

    A database file holds the version row (absent before the first [connect]) and the
    member rows by primary key. *)
Record MembershipDb := mkDb { version_row : option Z; member_rows : gmap string Row }.

(** The statements of [connect]: [CREATE TABLE IF NOT EXISTS] and
    [INSERT OR IGNORE ... VALUES (0, 0)]. *)
Definition SqliteMembershipTable_connect (f : Faults) (db : MembershipDb)
  : result MembershipError MembershipDb :=
  stmt Backend f 0 (stmt Backend f 1 (stmt Backend f 2 (stmt Backend f 3
    (Ok (mkDb (Some (default 0 (version_row db))) (member_rows db)))))).

Definition row_not_found : string :=
  "no rows returned by a query that expected to return at least one row".

Definition select_version (db : MembershipDb) : result MembershipError Z :=
  ok_or (Backend row_not_found) (version_row db).

(** Two statements, outside a transaction: the version is read from [db1], the rows
    from [db2], the file as it is when the second statement runs. *)
Definition SqliteMembershipTable_read_all (f : Faults) (db1 db2 : MembershipDb)
  : result MembershipError MembershipView :=
  stmt Backend f 0 (
    match select_version db1 with
    | Err e => Err e
    | Ok v => stmt Backend f 1 (
        Ok (mkView (as_u64 v) (row_to_entry <$> order_by_key (member_rows db2))))
    end).

(** The transaction of [try_update]: the conditional [UPDATE] of the version row,
    then the upsert of the member row; an early return or an error rolls back. *)
Definition SqliteMembershipTable_try_update_tx (f : Faults) (db : MembershipDb)
  (entry : MemberEntry) (expected : Z) : MembershipDb * result MembershipError unit :=
  match
    stmt Backend f 0 (stmt Backend f 1 (
      if bool_decide (version_row db = Some (as_i64 expected)) then
        stmt Backend f 2 (stmt Backend f 3 (
          Ok (mkDb (Some (as_i64 expected + 1))
                (<[silo_id (addr entry) := entry_to_row entry]> (member_rows db)))))
      else
        stmt Backend f 2 (
          match select_version db with
          | Err e => Err e
          | Ok current => Err (VersionConflict expected (as_u64 current))
          end)))
  with
  | Ok db' => (db', Ok tt)
  | Err e => (db, Err e)
  end.

(** The whole of [try_update] when no other writer commits before it returns. *)
Definition SqliteMembershipTable_try_update (f : Faults) (db : MembershipDb)
  (entry : MemberEntry) (expected : Z) : MembershipDb * result MembershipError MembershipView :=
  match SqliteMembershipTable_try_update_tx f db entry expected with
  | (db', Err e) => (db', Err e)
  | (db', Ok _) => (db', SqliteMembershipTable_read_all (λ i, f (4 + i)%nat) db' db')
  end.

Definition row_touch (now : Z) (r : Row) : Row :=
  mkRow (row_silo_id r) (row_host r) (row_port r) (row_status r) (row_generation r)
    (row_suspectors r) (systemtime_to_millis now).

Definition SqliteMembershipTable_update_i_am_alive (f : Faults) (now : Z) (db : MembershipDb)
  (id : string) : MembershipDb * result MembershipError unit :=
  match f 0%nat with
  | Some e => (db, Err (Backend e))
  | None =>
      match member_rows db !! id with
      | None => (db, Err (NotFound id))
      | Some r => (mkDb (version_row db) (<[id := row_touch now r]> (member_rows db)), Ok tt)
      end
  end.

(** The operations as single steps: the two statements of [read_all], and the read after the commit of [try_update], see one
    state of the database. *)
#[global] Instance Sqlite_table : MembershipTable MembershipDb := {|
  mt_read_all db := SqliteMembershipTable_read_all no_faults db db;
  mt_try_update := SqliteMembershipTable_try_update no_faults;
  mt_update_i_am_alive := SqliteMembershipTable_update_i_am_alive no_faults |}.

(** ** What a table promises

    Entries the table can represent: ids in the newline-separated column must be free of newlines, and a
    single empty id is stored like no id. *)
Definition entry_ok (e : MemberEntry) : Prop :=
  is_u16 (port (addr e)) ∧ is_u64 (generation e) ∧
  Forall (λ s, str_has newline s = false) (suspectors e) ∧ suspectors e ≠ [""].

(** The agreed part of an entry and of a view: everything but the heartbeat. *)
Definition agreed (e : MemberEntry) : MemberEntry := touch 0 e.
Definition agreed_view (v : MembershipView) : Z * list MemberEntry :=
  (view_version v, agreed <$> view_members v).

(** Entries are stored under their own id. *)
Definition keys_ok (m : gmap string MemberEntry) : Prop :=
  map_Forall (λ k e, silo_id (addr e) = k) m.

(** The abstract effects: one put and one heartbeat on a versioned map. *)
Definition put (i : Inner) (e : MemberEntry) : Inner :=
  mkInner (version i + 1) (<[silo_id (addr e) := e]> (members i)).
Definition heartbeat (now : Z) (i : Inner) (id : string) : Inner :=
  mkInner (version i) (alter (touch now) id (members i)).

(** The contract: the table behaves as a versioned map [mt_state], up to the
    precision of the heartbeat ([mt_norm], [mt_time]). *)
Class MembershipTableLaws (T : Type) `{MembershipTable T} := {
  mt_inv : T → Prop;
  mt_state : T → Inner;
  mt_norm : MemberEntry → MemberEntry;
  mt_time : Z → Z;
  mt_norm_agreed e : entry_ok e → agreed (mt_norm e) = agreed e;
  mt_keys_ok t : mt_inv t → keys_ok (members (mt_state t));
  mt_read t : mt_inv t → mt_read_all t = Ok (snapshot (mt_state t));
  mt_update_ok t e : mt_inv t → entry_ok e → version (mt_state t) + 1 < i64_half →
    ∃ t', mt_try_update t e (version (mt_state t)) = (t', Ok (snapshot (mt_state t'))) ∧
          mt_inv t' ∧ mt_state t' = put (mt_state t) (mt_norm e);
  mt_update_conflict t e v : mt_inv t → is_u64 v → v ≠ version (mt_state t) →
    mt_try_update t e v = (t, Err (VersionConflict v (version (mt_state t))));
  mt_alive_ok t now id : mt_inv t → is_Some (members (mt_state t) !! id) →
    ∃ t', mt_update_i_am_alive now t id = (t', Ok tt) ∧ mt_inv t' ∧
          mt_state t' = heartbeat (mt_time now) (mt_state t) id;
  mt_alive_missing t now id : mt_inv t → members (mt_state t) !! id = None →
    mt_update_i_am_alive now t id = (t, Err (NotFound id)) }.

(** *** Lemmas on views *)
Lemma keys_ok_insert m e : keys_ok m → keys_ok (<[silo_id (addr e) := e]> m).
Proof. intros Hm. by apply map_Forall_insert_2. Qed.

Lemma keys_ok_alter m now id : keys_ok m → keys_ok (alter (touch now) id m).
Proof.
  intros Hm k e. rewrite lookup_alter. case_decide as Hk; [|apply Hm]. subst.
  intros (e0 & He0 & ->)%fmap_Some. exact (Hm _ _ He0).
Qed.

Lemma with_id_map_to_list m : keys_ok m → with_id <$> (map_to_list m).*2 = map_to_list m.
Proof.
  intros Hm. rewrite <- list_fmap_compose. rewrite <- (list_fmap_id (map_to_list m)) at 2.
  apply Forall_fmap_ext, Forall_forall. intros [k e] Hp. apply elem_of_map_to_list in Hp.
  unfold with_id. cbn. by rewrite (Hm k e Hp).
Qed.

Lemma snapshot_members i : keys_ok (members i) → view_members (snapshot i) = order_by_key (members i).
Proof. intros Hk. cbn. by rewrite with_id_map_to_list. Qed.

Lemma agreed_touch now e : agreed (touch now e) = agreed e.
Proof. done. Qed.

(** A heartbeat is not part of the agreed view. *)
Lemma heartbeat_agreed now i id :
  keys_ok (members i) → agreed_view (snapshot (heartbeat now i id)) = agreed_view (snapshot i).
Proof.
  intros Hk. unfold agreed_view. rewrite !snapshot_members by (try done; by apply keys_ok_alter).
  f_equal. rewrite <- !order_by_key_fmap. f_equal. apply map_eq. intros k. cbn.
  rewrite !lookup_fmap, lookup_alter. case_decide as Hd; [|done]. subst.
  by destruct (members i !! k).
Qed.

(** The ring only depends on the agreed view. *)
Lemma active_silos_agreed v :
  active_silos v = addr <$> filter (λ m, status m = Active) (agreed <$> view_members v).
Proof.
  unfold active_silos. induction (view_members v) as [|e l IH]; [done|].
  cbn [fmap list_fmap]. rewrite !filter_cons. cbn. case_decide; cbn; by rewrite IH.
Qed.

Lemma build_ring_agreed v v' vn :
  agreed_view v = agreed_view v' → build_ring v vn = build_ring v' vn.
Proof.
  intros [= _ E]. unfold build_ring. by rewrite !active_silos_agreed, E.
Qed.

(** ** The in-memory table keeps the contract *)
#[global] Instance InMemory_laws : MembershipTableLaws Inner.
Proof.
  refine {| mt_inv i := keys_ok (members i) ∧ is_u64 (version i); mt_state i := i;
            mt_norm e := e; mt_time t := t |}.
  - done.
  - by intros t [].
  - done.
  - intros t e [Hk Hv] He Hlt. cbn. unfold InMemoryMembershipTable_try_update.
    rewrite bool_decide_false by (intros []; done).
    assert (u64_add (version t) 1 = version t + 1) as ->.
    { apply u64_add_small. unfold is_u64, i64_half, u64_mod in *. lia. }
    eexists. split_and!; [done|by apply keys_ok_insert| |done..].
    cbn. unfold is_u64, i64_half, u64_mod in *. lia.
  - intros t e v _ _ Hne. cbn. unfold InMemoryMembershipTable_try_update.
    by rewrite bool_decide_true by done.
  - intros t now id [Hk Hv] [e He]. cbn. unfold InMemoryMembershipTable_update_i_am_alive.
    rewrite He. eexists. split; [done|].
    assert (<[id:=touch now e]> (members t) = alter (touch now) id (members t)) as ->.
    { apply map_eq. intros k. rewrite lookup_insert, lookup_alter.
      case_decide; subst; [by rewrite He|done]. }
    split; [|done]. split; [by apply keys_ok_alter|done].
  - intros t now id _ He. cbn. unfold InMemoryMembershipTable_update_i_am_alive. by rewrite He.
Defined.

(** ** The row encoding *)
Lemma status_roundtrip s : status_from_str (status_to_str s) = s.
Proof. by destruct s. Qed.

Lemma str_split_concat c s l :
  Forall (λ p, str_has c p = false) (s :: l) →
  str_split c (String.concat (String c EmptyString) (s :: l)) = s :: l.
Proof.
  revert s. induction l as [|s' l IH]; intros s [Hs Hl]%Forall_cons; [by apply str_split_no_sep|].
  assert (String.concat (String c "") (s :: s' :: l)
          = s +:+ String c (String.concat (String c "") (s' :: l))) as -> by done.
  generalize (IH s' Hl). generalize (String.concat (String c "") (s' :: l)). intros t Ht.
  clear IH. revert Hs. induction s as [|x s IHs]; intros Hs.
  - rewrite str_app_nil_l. cbn [str_split]. by rewrite bool_decide_true, Ht.
  - apply orb_false_iff in Hs as [Hx Hs]. rewrite str_app_cons. cbn [str_split].
    by rewrite Hx, IHs.
Qed.

Lemma suspectors_roundtrip l :
  Forall (λ s, str_has newline s = false) l → l ≠ [""] →
  split_suspectors (join_suspectors l) = l.
Proof.
  intros Hl Hne. unfold split_suspectors. destruct l as [|s l]; [done|].
  rewrite bool_decide_false; [by apply str_split_concat|].
  intros E. apply (f_equal (str_split newline)) in E. unfold join_suspectors in E.
  rewrite str_split_concat in E by done. by simplify_eq.
Qed.

(** What a row keeps of an entry: everything, the heartbeat to the millisecond. *)
Definition millis_norm (t : Z) : Z := millis_to_systemtime (systemtime_to_millis t).

Lemma row_roundtrip e :
  entry_ok e → row_to_entry (entry_to_row e) = touch (millis_norm (i_am_alive e)) e.
Proof.
  intros (Hp & Hg & Hs & Hne). destruct e as [[h p i] st g su al]. unfold row_to_entry, touch.
  cbn in *. by rewrite as_u16_id, status_roundtrip, as_u64_as_i64, suspectors_roundtrip.
Qed.

(** ** The SQLite table keeps the contract *)
Definition db_state (db : MembershipDb) : Inner :=
  mkInner (as_u64 (default 0 (version_row db))) (row_to_entry <$> member_rows db).

Definition db_inv (db : MembershipDb) : Prop :=
  map_Forall (λ k r, row_silo_id r = k) (member_rows db) ∧
  ∃ v, version_row db = Some v ∧ 0 ≤ v < i64_half.

Lemma db_keys_ok db : db_inv db → keys_ok (members (db_state db)).
Proof.
  intros [Hk _] k e. cbn. rewrite lookup_fmap.
  intros (r & Hr & ->)%fmap_Some. exact (Hk _ _ Hr).
Qed.

Lemma db_version db v : version_row db = Some v → 0 ≤ v < i64_half → version (db_state db) = v.
Proof.
  intros E Hv. cbn. rewrite E. apply as_u64_small. unfold i64_half, u64_mod in *. cbn. lia.
Qed.

Lemma db_read db :
  db_inv db → SqliteMembershipTable_read_all no_faults db db = Ok (snapshot (db_state db)).
Proof.
  intros Hdb. pose proof (snapshot_members _ (db_keys_ok _ Hdb)) as Hm.
  destruct Hdb as [Hk (v & E & Hv)]. unfold SqliteMembershipTable_read_all, stmt, select_version.
  rewrite E. cbn [no_faults ok_or]. f_equal. destruct (snapshot (db_state db)) eqn:S.
  cbn in Hm. rewrite <- order_by_key_fmap, <- Hm. f_equal.
  unfold snapshot in S. injection S as <- _. cbn. by rewrite E.
Qed.

Lemma db_tx_ok db e v :
  version_row db = Some v → 0 ≤ v < i64_half →
  SqliteMembershipTable_try_update_tx no_faults db e v
  = (mkDb (Some (v + 1)) (<[silo_id (addr e) := entry_to_row e]> (member_rows db)), Ok tt).
Proof.
  intros E Hv. unfold SqliteMembershipTable_try_update_tx, stmt, no_faults.
  rewrite as_i64_small, bool_decide_true by done. done.
Qed.

#[global] Instance Sqlite_laws : MembershipTableLaws MembershipDb.
Proof.
  refine {| mt_inv := db_inv; mt_state := db_state;
            mt_norm e := row_to_entry (entry_to_row e); mt_time := millis_norm |}.
  - intros e He. by rewrite row_roundtrip.
  - apply db_keys_ok.
  - apply db_read.
  - intros db e Hdb He Hlt. pose proof Hdb as [Hk (v & E & Hv)].
    rewrite (db_version _ _ E Hv) in *. cbn. unfold SqliteMembershipTable_try_update.
    rewrite (db_tx_ok _ _ _ E Hv).
    set (db' := mkDb _ _). assert (db_inv db') as Hdb'.
    { split; [by apply map_Forall_insert_2|]. exists (v + 1). split; [done|lia]. }
    exists db'. split; [|split; [done|]].
    + f_equal. apply (db_read db' Hdb').
    + unfold put, db_state. cbn. rewrite fmap_insert, E. cbn. f_equal.
      unfold as_u64, i64_half, u64_mod in *. rewrite !Z.mod_small; lia.
  - intros db e v [Hk (w & E & Hw)] Hu Hne. rewrite (db_version _ _ E Hw) in *. cbn.
    unfold SqliteMembershipTable_try_update, SqliteMembershipTable_try_update_tx, stmt, no_faults.
    rewrite bool_decide_false.
    2:{ rewrite E. intros [= Hwv]. apply Hne, as_i64_inj; [done| |].
        - unfold is_u64, i64_half, u64_mod in *. lia.
        - by rewrite (as_i64_small w). }
    unfold select_version. rewrite E. cbn. rewrite as_u64_small; [done|].
    unfold i64_half, u64_mod in *. lia.
  - intros db now id [Hk (v & E & Hv)] [e He]. cbn in He. rewrite lookup_fmap in He.
    apply fmap_Some in He as (r & Hr & ->). cbn. unfold SqliteMembershipTable_update_i_am_alive.
    cbn. rewrite Hr. eexists. split; [done|]. split.
    + split; [|eauto]. cbn. apply map_Forall_insert_2; [exact (Hk _ _ Hr)|done].
    + unfold heartbeat, db_state. cbn. f_equal. apply map_eq. intros k.
      rewrite lookup_alter, !lookup_fmap, lookup_insert. case_decide; subst; [by rewrite Hr|done].
  - intros db now id _ He. cbn in *. rewrite lookup_fmap, fmap_None in He.
    unfold SqliteMembershipTable_update_i_am_alive. cbn. by rewrite He.
Defined.

(** ** Runs of operations *)
Inductive TableOp :=
| OpReadAll
| OpTryUpdate (entry : MemberEntry) (expected : Z)
| OpIAmAlive (now : Z) (id : string).

Inductive TableResp :=
| RespView (r : result MembershipError MembershipView)
| RespUnit (r : result MembershipError unit).

Definition op_ok (o : TableOp) : Prop :=
  match o with OpTryUpdate e v => entry_ok e ∧ is_u64 v | _ => True end.

Section runs.
Context {T : Type} `{MembershipTableLaws T}.
Implicit Types (t : T) (ops : list TableOp) (rs : list TableResp).

Definition table_op t (o : TableOp) : T * TableResp :=
  match o with
  | OpReadAll => (t, RespView (mt_read_all t))
  | OpTryUpdate e v => let '(t', r) := mt_try_update t e v in (t', RespView r)
  | OpIAmAlive now id => let '(t', r) := mt_update_i_am_alive now t id in (t', RespUnit r)
  end.

Fixpoint table_run t ops : T * list TableResp :=
  match ops with
  | [] => (t, [])
  | o :: ops' =>
      let '(t1, r) := table_op t o in
      let '(t2, rs) := table_run t1 ops' in (t2, r :: rs)
  end.

(** The views a run returned, and the expected versions of its successful updates. *)
Definition ok_view (r : TableResp) : option MembershipView :=
  match r with RespView (Ok v) => Some v | _ => None end.
Definition views rs : list MembershipView := omap ok_view rs.

Definition won (p : TableOp * TableResp) : option Z :=
  match p with (OpTryUpdate _ v, RespView (Ok _)) => Some v | _ => None end.
Definition winners ops rs : list Z := omap won (zip ops rs).

(** What one operation does, on every branch. *)
Lemma table_op_cases t o :
  mt_inv t → op_ok o → version (mt_state t) + 1 < i64_half →
  let '(t', r) := table_op t o in
  mt_inv t' ∧
  ((∃ e, o = OpTryUpdate e (version (mt_state t)) ∧ r = RespView (Ok (snapshot (mt_state t'))) ∧
         mt_state t' = put (mt_state t) (mt_norm e)) ∨
   (won (o, r) = None ∧ version (mt_state t') = version (mt_state t) ∧
    agreed_view (snapshot (mt_state t')) = agreed_view (snapshot (mt_state t)) ∧
    (∀ v, ok_view r = Some v → v = snapshot (mt_state t)))).
Proof.
  intros Ht Ho Hlt. destruct o as [|e v|now id]; cbn [table_op].
  - rewrite (mt_read t Ht). split; [done|]. right. split_and!; try done. by intros v [= <-].
  - destruct Ho as [He Hv]. destruct (decide (v = version (mt_state t))) as [->|Hne].
    + destruct (mt_update_ok t e Ht He Hlt) as (t' & -> & Ht' & Hs). split; [done|]. left. eauto.
    + rewrite (mt_update_conflict t e v Ht Hv Hne). split; [done|]. right. by split_and!.
  - destruct (members (mt_state t) !! id) as [e|] eqn:E.
    + destruct (mt_alive_ok t now id Ht (mk_is_Some _ _ E)) as (t' & -> & Ht' & Hs).
      split; [done|]. right. rewrite Hs.
      split_and!; [done|done|by apply heartbeat_agreed, mt_keys_ok|done].
    + rewrite (mt_alive_missing t now id Ht E). split; [done|]. right. by split_and!.
Qed.

(** The invariant of a run seen from its first state. *)
Lemma table_run_spec t ops :
  mt_inv t → Forall op_ok ops → version (mt_state t) + Z.of_nat (length ops) < i64_half →
  let '(t', rs) := table_run t ops in
  mt_inv t' ∧
  winners ops rs = seqZ (version (mt_state t)) (version (mt_state t') - version (mt_state t)) ∧
  version (mt_state t) ≤ version (mt_state t') ∧
  (∀ v, v ∈ views rs → version (mt_state t) ≤ view_version v ≤ version (mt_state t') ∧
     (view_version v = version (mt_state t) →
      agreed_view v = agreed_view (snapshot (mt_state t)))) ∧
  (∀ v v', v ∈ views rs → v' ∈ views rs → view_version v = view_version v' →
     agreed_view v = agreed_view v').
Proof.
  revert t. induction ops as [|o ops IH]; intros t Ht Hops Hlt.
  - cbn. rewrite Z.sub_diag. split_and!; try done; set_solver.
  - apply Forall_cons in Hops as [Ho Hops]. cbn [length] in Hlt. cbn [table_run].
    assert (version (mt_state t) + 1 < i64_half) as Hlt1 by lia.
    generalize (table_op_cases t o Ht Ho Hlt1). destruct (table_op t o) as [t1 r].
    intros (Ht1 & Hcase).
    assert (version (mt_state t1) + Z.of_nat (length ops) < i64_half) as Hlt2.
    { destruct Hcase as [(e & _ & _ & ->)|(_ & -> & _)]; cbn; lia. }
    specialize (IH t1 Ht1 Hops Hlt2). destruct (table_run t1 ops) as [t2 rs].
    destruct IH as (Ht2 & Hw & Hle & Hv & Hc). split; [done|].
    destruct Hcase as [(e & -> & -> & Hs)|(Hnw & Hver & Hagr & Hr)].
    + assert (version (mt_state t1) = version (mt_state t) + 1) as Hver by by rewrite Hs.
      split_and!.
      * unfold winners. cbn. fold (winners ops rs). rewrite Hw, Hver.
        rewrite (seqZ_cons (version (mt_state t))) by lia. unfold Z.succ, Z.pred. f_equal. f_equal; lia.
      * lia.
      * intros v [->|Hin]%elem_of_cons; [cbn; lia|]. apply Hv in Hin as [? _]. lia.
      * intros v v' [->|Hin]%elem_of_cons [->|Hin']%elem_of_cons E; [done| | |by apply Hc].
        -- symmetry. apply Hv; [done|]. by rewrite <- E.
        -- apply Hv; [done|]. by rewrite E.
    + assert (∀ v, v ∈ views (r :: rs) → v = snapshot (mt_state t) ∨ v ∈ views rs) as Hsplit.
      { intros v. unfold views. cbn. destruct (ok_view r) eqn:E; [|by right].
        intros [->|?]%elem_of_cons; [left; by apply Hr|by right]. }
      rewrite Hver in *. split_and!.
      * unfold winners. cbn. cbn in Hnw. rewrite Hnw. exact Hw.
      * done.
      * intros v [->|Hin]%Hsplit; [cbn; split; [lia|done]|].
        destruct (Hv v Hin) as [? Hq]. split; [done|]. intros E. by rewrite Hq.
      * intros v v' [->|Hin]%Hsplit [->|Hin']%Hsplit E; [done| | |by apply Hc].
        -- symmetry. rewrite <- Hagr. apply Hv; [done|]. by rewrite <- E.
        -- rewrite <- Hagr. by apply Hv.
Qed.
End runs.

(** C19: strong consistency of the membership table, for every back end that keeps the
    contract: whatever operations are issued, in whatever order, the successful updates
    carry exactly the consecutive versions from the initial one on (every version has one
    winner and none is skipped), the final version counts them, and all views returned
    with the same version agree on every member, so that silos build the same ring. *)
Theorem membership_views_totally_ordered {T} `{MembershipTableLaws T} (t : T) ops :
  mt_inv t → Forall op_ok ops → version (mt_state t) + Z.of_nat (length ops) < i64_half →
  let '(t', rs) := table_run t ops in
  let v0 := version (mt_state t) in
  winners ops rs = seqZ v0 (version (mt_state t') - v0) ∧
  NoDup (winners ops rs) ∧
  version (mt_state t') = v0 + Z.of_nat (length (winners ops rs)) ∧
  (∀ v v' vn, v ∈ views rs → v' ∈ views rs → view_version v = view_version v' →
     agreed_view v = agreed_view v' ∧ build_ring v vn = build_ring v' vn).
Proof.
  intros Ht Hops Hlt. generalize (table_run_spec t ops Ht Hops Hlt).
  destruct (table_run t ops) as [t' rs]. intros (_ & Hw & Hle & _ & Hc).
  split_and!; [done| | |].
  - rewrite Hw. apply NoDup_seqZ.
  - rewrite Hw, length_seqZ. lia.
  - intros v v' vn Hv Hv' E. pose proof (Hc v v' Hv Hv' E) as Ha.
    split; [done|]. by apply build_ring_agreed.
Qed.

(** Two silos join a fresh SQLite table, one of them after a lost race. *)
Definition fresh_db : MembershipDb := mkDb (Some 0) ∅.
Definition entry_a : MemberEntry := mkEntry silo_a Active 1 [] 5000000.
Definition entry_b : MemberEntry := mkEntry silo_b Active 7 ["silo-a"; "silo-c"] 6500000.
Definition race : list TableOp :=
  [OpTryUpdate entry_a 0; OpTryUpdate entry_b 0; OpReadAll; OpIAmAlive 9000000 "silo-a";
   OpTryUpdate entry_b 1; OpReadAll].

Lemma membership_views_totally_ordered_witness :
  let '(t', rs) := table_run fresh_db race in
  winners race rs = [0; 1] ∧ length (views rs) = 4%nat ∧ NoDup (winners race rs).
Proof.
  assert (mt_inv fresh_db) as Hinv.
  { split; [apply map_Forall_empty|]. exists 0. done. }
  assert (Forall op_ok race) as Hok.
  { repeat constructor; cbn; unfold is_u16, is_u64, u16_mod, u64_mod; try lia; done. }
  pose proof (membership_views_totally_ordered fresh_db race Hinv Hok ltac:(done)) as Ht.
  destruct (table_run fresh_db race) as [t' rs] eqn:E. destruct Ht as (Hw & Hnd & _ & _).
  assert (rs = (table_run fresh_db race).2) as Hrs by (by rewrite E).
  split_and!; [|rewrite Hrs; vm_compute; reflexivity|exact Hnd].
  rewrite Hrs. vm_compute. reflexivity.
Defined.

(** ** Every back end refines the in-memory table *)
Section refinement.
Context {T : Type} `{MembershipTableLaws T}.

Definition norm_op (o : TableOp) : TableOp :=
  match o with
  | OpReadAll => OpReadAll
  | OpTryUpdate e v => OpTryUpdate (mt_norm e) v
  | OpIAmAlive now id => OpIAmAlive (mt_time now) id
  end.

Lemma table_op_refines (t : T) o :
  mt_inv t → op_ok o → 0 ≤ version (mt_state t) → version (mt_state t) + 1 < i64_half →
  let '(t', r) := table_op t o in
  mt_inv t' ∧ table_op (mt_state t) (norm_op o) = (mt_state t', r).
Proof.
  intros Ht Ho Hpos Hlt. destruct o as [|e v|now id]; cbn [table_op norm_op].
  - by rewrite (mt_read t Ht).
  - destruct Ho as [He Hv]. cbn [mt_try_update InMemory_table].
    unfold InMemoryMembershipTable_try_update.
    destruct (decide (v = version (mt_state t))) as [->|Hne].
    + destruct (mt_update_ok t e Ht He Hlt) as (t' & -> & Ht' & Hs). split; [done|].
      rewrite bool_decide_false by (intros []; done). rewrite Hs. unfold put.
      rewrite u64_add_small; [done|]. unfold is_u64, i64_half, u64_mod in *. lia.
    + rewrite (mt_update_conflict t e v Ht Hv Hne). by rewrite bool_decide_true.
  - cbn [mt_update_i_am_alive InMemory_table]. unfold InMemoryMembershipTable_update_i_am_alive.
    destruct (members (mt_state t) !! id) as [e|] eqn:E.
    + destruct (mt_alive_ok t now id Ht (mk_is_Some _ _ E)) as (t' & -> & Ht' & Hs).
      split; [done|]. rewrite Hs. unfold heartbeat. do 2 f_equal. f_equal. apply map_eq. intros k.
      rewrite lookup_insert, lookup_alter. case_decide; subst; [by rewrite E|done].
    + by rewrite (mt_alive_missing t now id Ht E).
Qed.

Lemma table_op_version (t : T) o :
  mt_inv t → op_ok o → version (mt_state t) + 1 < i64_half →
  version (mt_state t) ≤ version (mt_state (table_op t o).1) ≤ version (mt_state t) + 1.
Proof.
  intros Ht Ho Hlt. generalize (table_op_cases t o Ht Ho Hlt). destruct (table_op t o) as [t' r].
  intros (_ & [(e & _ & _ & Hs)|(_ & Hs & _)]); cbn [fst]; rewrite Hs; cbn; lia.
Qed.
End refinement.

(** C34: refinement: a table that keeps the contract answers every run of operations, each one atomic and without
    failing statements, with exactly the responses of the in-memory table to the normalised operations (views,
    conflicts and missing members included): heartbeats cut to the precision of the back end, suspectors without
    newlines, versions below [2^63]. For SQLite this covers the encoding of every column; a writer between the two
    statements of its [read_all] is [sqlite_read_all_torn]. *)
Theorem table_refines_in_memory {T} `{MembershipTableLaws T} (t : T) ops :
  mt_inv t → Forall op_ok ops → 0 ≤ version (mt_state t) →
  version (mt_state t) + Z.of_nat (length ops) < i64_half →
  let '(t', rs) := table_run t ops in
  table_run (mt_state t) (norm_op <$> ops) = (mt_state t', rs).
Proof.
  revert t. induction ops as [|o ops IH]; intros t Ht Hops Hpos Hlt; [done|].
  apply Forall_cons in Hops as [Ho Hops]. cbn [length] in Hlt. cbn [table_run fmap list_fmap].
  assert (version (mt_state t) + 1 < i64_half) as Hlt1 by lia.
  generalize (table_op_refines t o Ht Ho Hpos Hlt1), (table_op_version t o Ht Ho Hlt1).
  destruct (table_op t o) as [t1 r]. cbn [fst]. intros [Ht1 ->] Hv.
  specialize (IH t1 Ht1 Hops ltac:(lia) ltac:(lia)).
  destruct (table_run t1 ops) as [t2 rs]. by rewrite IH.
Qed.

Lemma table_refines_in_memory_witness :
  let '(db', rs) := table_run fresh_db race in
  table_run (db_state fresh_db) (norm_op <$> race) = (db_state db', rs).
Proof.
  assert (mt_inv fresh_db) as Hinv.
  { split; [apply map_Forall_empty|]. exists 0. done. }
  assert (Forall op_ok race) as Hok.
  { repeat constructor; cbn; unfold is_u16, is_u64, u16_mod, u64_mod; try lia; done. }
  exact (table_refines_in_memory fresh_db race Hinv Hok ltac:(done) ltac:(done)).
Defined.

(** ** Contents of the views *)
Lemma member_snapshot i id : keys_ok (members i) → member (snapshot i) id = members i !! id.
Proof.
  intros Hk. unfold member. rewrite snapshot_members by done.
  destruct (list_find _ _) as [[n e]|] eqn:F; cbn.
  - apply list_find_Some in F as (Hn & Hid & _).
    apply list_elem_of_lookup_2, elem_of_order_by_key in Hn as (k & He).
    by rewrite <- Hid, (Hk k e He).
  - apply list_find_None in F. rewrite Forall_forall in F.
    destruct (members i !! id) as [e|] eqn:E; [|done]. exfalso.
    apply (F e); [apply elem_of_order_by_key; eauto|exact (Hk _ _ E)].
Qed.

Lemma ring_values_from_list vn silos j s :
  ring (foldl HashRing_add (HashRing_new vn) silos) !! j = Some s → s ∈ silos.
Proof.
  induction silos as [|x l IH] using rev_ind; [done|].
  rewrite foldl_app. cbn [foldl]. rewrite lookup_add. case_decide.
  - intros [= ->]. apply elem_of_app. right. by apply list_elem_of_singleton.
  - intros Hj%IH. apply elem_of_app. by left.
Qed.

(** The owner a view's ring assigns is an [Active] member of that view. *)
Lemma build_ring_owner_active i vn k s :
  keys_ok (members i) → HashRing_get (build_ring (snapshot i) vn) k = Some s →
  ∃ e, members i !! silo_id s = Some e ∧ status e = Active ∧ addr e = s.
Proof.
  intros Hk (j & _ & Hj)%get_successor. apply ring_values_from_list in Hj.
  unfold active_silos in Hj. apply list_elem_of_fmap in Hj as (e & -> & He).
  apply list_elem_of_filter in He as [Ha He]. rewrite snapshot_members in He by done.
  apply elem_of_order_by_key in He as (k' & He). rewrite (Hk _ _ He). eauto.
Qed.

(** What an accepted update publishes: the new view contains the entry under its
    silo id (up to the heartbeat's precision) and every other member as before; keys are only ever assigned
    to [Active] members, so an entry published as joining, suspect or dead owns no key. *)
Theorem update_publishes_entry {T} `{MembershipTableLaws T} (t : T) e :
  mt_inv t → entry_ok e → version (mt_state t) + 1 < i64_half →
  ∃ t' v, mt_try_update t e (version (mt_state t)) = (t', Ok v) ∧
    view_version v = version (mt_state t) + 1 ∧
    agreed <$> member v (silo_id (addr e)) = Some (agreed e) ∧
    (∀ id, id ≠ silo_id (addr e) → member v id = member (snapshot (mt_state t)) id) ∧
    (∀ vn k s, HashRing_get (build_ring v vn) k = Some s →
       (status e ≠ Active → silo_id s ≠ silo_id (addr e)) ∧
       ∃ m, member v (silo_id s) = Some m ∧ status m = Active ∧ addr m = s).
Proof.
  intros Ht He Hlt. assert (addr (mt_norm e) = addr e) as Hid.
  { exact (f_equal addr (mt_norm_agreed e He)). }
  destruct (mt_update_ok t e Ht He Hlt) as (t' & E & Ht' & Hs).
  exists t', (snapshot (mt_state t')). pose proof (mt_keys_ok _ Ht') as Hk'.
  pose proof (mt_keys_ok _ Ht) as Hk.
  assert (members (mt_state t') !! silo_id (addr e) = Some (mt_norm e)) as Hself.
  { rewrite Hs. cbn. rewrite Hid. apply lookup_insert_eq. }
  split_and!.
  - done.
  - by rewrite Hs.
  - rewrite member_snapshot by done. rewrite Hself. cbn. by rewrite (mt_norm_agreed e He).
  - intros id Hne. rewrite !member_snapshot by done. rewrite Hs. cbn.
    by rewrite Hid, lookup_insert_ne by done.
  - intros vn k s Hg. apply build_ring_owner_active in Hg as (m & Hm & Ha & Hs'); [|done].
    split; [|exists m; by rewrite member_snapshot].
    intros Hst Heq. rewrite Heq, Hself in Hm. injection Hm as <-.
    pose proof (mt_norm_agreed e He) as Hag. apply (f_equal status) in Hag. cbn in Hag. congruence.
Qed.

Lemma update_publishes_entry_witness :
  let dead := mkEntry silo_a Dead 1 ["silo-b"] 0 in
  ∃ t' v, mt_try_update (mkDb (Some 3) {["silo-a" := entry_to_row entry_a]}) dead 3 = (t', Ok v) ∧
    view_version v = 4 ∧ agreed <$> member v "silo-a" = Some (agreed dead).
Proof.
  intros dead. pose (db := mkDb (Some 3) {["silo-a" := entry_to_row entry_a]}).
  assert (mt_inv db) as Hinv.
  { split; [by apply map_Forall_singleton|]. exists 3. done. }
  assert (entry_ok dead) as Hok.
  { repeat constructor; cbn; unfold is_u16, is_u64, u16_mod, u64_mod; try lia; done. }
  destruct (update_publishes_entry db dead Hinv Hok ltac:(done)) as (t' & v & E & Hv & Hm & _).
  exists t', v. split_and!; [exact E|exact Hv|exact Hm].
Defined.

(** ** Statements of concurrent callers

    [read_all] runs its two statements outside a transaction, so another caller's
    transaction can commit in between. *)

(** Torn read of the SQLite table: when an accepted update commits between the two
    statements of [read_all], the returned view carries the old version with the new members,
    so two views with the same version disagree and, for a silo that was not in the table,
    one of them assigns keys to it and the other does not. *)
Theorem sqlite_read_all_torn db e v :
  db_inv db → entry_ok e → version_row db = Some v →
  member_rows db !! silo_id (addr e) = None → status e = Active →
  ∃ db' torn whole,
    SqliteMembershipTable_try_update_tx no_faults db e v = (db', Ok tt) ∧
    SqliteMembershipTable_read_all no_faults db db' = Ok torn ∧
    SqliteMembershipTable_read_all no_faults db db = Ok whole ∧
    view_version torn = view_version whole ∧
    (addr e ∈ active_silos torn) ∧ (addr e ∉ active_silos whole).
Proof.
  intros Hdb He Hv Hnew Hst. pose proof Hdb as [Hk (v' & E & Hr)]. rewrite E in Hv. injection Hv as ->.
  rewrite (db_tx_ok _ _ _ E Hr).
  eexists _, _, _. split; [done|].
  unfold SqliteMembershipTable_read_all, stmt, select_version, no_faults. rewrite E. cbn [ok_or].
  split_and!; [done..| |]; unfold active_silos; cbn [view_members]; rewrite <- order_by_key_fmap;
    rewrite list_elem_of_fmap.
  - exists (row_to_entry (entry_to_row e)). rewrite row_roundtrip by done. split; [done|].
    apply list_elem_of_filter. split; [done|]. apply elem_of_order_by_key.
    exists (silo_id (addr e)). rewrite lookup_fmap. cbn. rewrite lookup_insert_eq. cbn.
    by rewrite row_roundtrip.
  - intros (m & Ha & Hm). apply list_elem_of_filter in Hm as [_ Hm].
    apply elem_of_order_by_key in Hm as (k & Hm). rewrite lookup_fmap in Hm.
    apply fmap_Some in Hm as (r & Hm & ->). pose proof (Hk _ _ Hm) as Hid. cbn in Hid.
    rewrite Ha in Hnew. cbn in Hnew. rewrite Hid in Hnew. congruence.
Qed.

Lemma sqlite_read_all_torn_witness :
  ∃ db' torn whole,
    SqliteMembershipTable_try_update_tx no_faults fresh_db entry_a 0 = (db', Ok tt) ∧
    SqliteMembershipTable_read_all no_faults fresh_db db' = Ok torn ∧
    SqliteMembershipTable_read_all no_faults fresh_db fresh_db = Ok whole ∧
    view_version torn = view_version whole ∧
    (addr entry_a ∈ active_silos torn) ∧ (addr entry_a ∉ active_silos whole).
Proof.
  apply sqlite_read_all_torn.
  - split; [apply map_Forall_empty|]. exists 0. done.
  - repeat constructor; cbn; unfold is_u16, is_u64, u16_mod, u64_mod; try lia; done.
  - reflexivity.
  - reflexivity.
  - reflexivity.
Defined.

(** Failing statements: the transaction applies as a whole or not at all.  A conflict or a
    failure of the transaction changes nothing; but [Backend] can also mean that the
    update was committed and only the read after it failed. *)
Theorem sqlite_update_atomic f db e v :
  let '(db', r) := SqliteMembershipTable_try_update f db e v in
  (db' = db ∧ ∃ x, r = Err x) ∨
  (version_row db = Some (as_i64 v) ∧ version_row db' = Some (as_i64 v + 1) ∧
   member_rows db' = <[silo_id (addr e) := entry_to_row e]> (member_rows db) ∧
   ((∃ view, r = Ok view) ∨ ∃ m, r = Err (Backend m) ∧ (f 4%nat = Some m ∨ f 5%nat = Some m))).
Proof.
  unfold SqliteMembershipTable_try_update, SqliteMembershipTable_try_update_tx,
    SqliteMembershipTable_read_all, stmt.
  destruct (f 0%nat); [left; eauto|]. destruct (f 1%nat); [left; eauto|].
  case_bool_decide as E.
  - destruct (f 2%nat); [left; eauto|]. destruct (f 3%nat); [left; eauto|].
    right. split_and!; [done..|]. cbn.
    destruct (f 4%nat) as [m|] eqn:E4; [right; eauto|].
    destruct (f 5%nat) as [m|] eqn:E5; [right; eauto|left; eauto].
  - destruct (f 2%nat); [left; eauto|]. destruct (select_version db); left; eauto.
Qed.

(** Reopening a table keeps its version and members. *)
Lemma connect_keeps_state db v :
  version_row db = Some v → SqliteMembershipTable_connect no_faults db = Ok db.
Proof. intros E. destruct db. cbn in *. by rewrite E. Qed.

Lemma connect_fresh : SqliteMembershipTable_connect no_faults (mkDb None ∅) = Ok fresh_db.
Proof. done. Qed.

(** What the column of suspectors does not keep: an id with a newline is split on the
    way back, and a lone empty id disappears. *)
Example suspector_newline_split :
  suspectors (row_to_entry (entry_to_row (mkEntry silo_a Suspect 1
    [String.append "a" (String newline "b")] 0))) = ["a"; "b"].
Proof. reflexivity. Qed.
