(* ===== verification/Discovery.v ===== *)
(** * Discovery of cluster members

    orlando-cluster [discovery.rs]: the providers of seed addresses.  The resolver and the Consul
    catalog are arguments: what [lookup_host] and the catalog's HTTP endpoint answer. *)
From S2P Require Import Prelude CoreTypes Parse.
From Stdlib Require Import Ascii.

(** Errors as far as this component builds them ([ClusterError::Transport]). *)
Inductive DiscoveryError := DiscoveryTransport (m : string).

(** [str::rsplit_once]: the parts around the last occurrence. *)
Fixpoint rsplit_once (c : ascii) (s : string) : option (string * string) :=
  match s with
  | EmptyString => None
  | String x s' =>
      match rsplit_once c s' with
      | Some (a, b) => Some (String x a, b)
      | None => if bool_decide (x = c) then Some (EmptyString, s') else None
      end
  end.

(** ** Static seeds *)
Definition parse_seed (s : string) : option SiloAddress :=
  match rsplit_once ":" s with
  | None => None
  | Some (host, port_str) =>
      match parse_u16 port_str with
      | Err _ => None
      | Ok port => Some (mkSilo host port s)
      end
  end.

Record StaticSeedProvider := mkSeeds { seeds : list SiloAddress }.

Definition StaticSeedProvider_new (addresses : list string) : StaticSeedProvider :=
  mkSeeds (omap parse_seed addresses).

Definition StaticSeedProvider_get_members (p : StaticSeedProvider)
  : result DiscoveryError (list SiloAddress) := Ok (seeds p).

(** ** DNS *)
Record DnsMembershipProvider := mkDns { dns_hostname : string; dns_port : Z }.
Definition DnsMembershipProvider_new := mkDns.

(** [lookup_host] resolves to socket addresses (printed ip, port) or fails. *)
Definition DnsMembershipProvider_get_members
  (lookup_host : string → result string (list (string * Z))) (p : DnsMembershipProvider)
  : result DiscoveryError (list SiloAddress) :=
  match lookup_host (colon (dns_hostname p) (pretty (dns_port p))) with
  | Err e => Err (DiscoveryTransport ("DNS lookup failed: " +:+ e))
  | Ok resolved => Ok ((λ a : string * Z, mkSilo a.1 a.2 (colon a.1 (pretty a.2))) <$> resolved)
  end.

(** ** Consul *)
Record ConsulMembershipProvider := mkConsul { consul_url : string; service_name : string }.
Definition ConsulMembershipProvider_new := mkConsul.

(** The fields of a catalog entry the code reads; [None] is a field that is missing or of
    another JSON type. *)
Record ConsulEntry := mkConsulEntry {
  ce_service_address : option string; ce_node_address : option string;
  ce_service_port : option Z; ce_service_id : option string }.

(** [trim_end_matches('/')]. *)
Fixpoint trim_end_slashes (s : string) : string :=
  match s with
  | EmptyString => EmptyString
  | String c s' =>
      match trim_end_slashes s' with
      | EmptyString => if bool_decide (c = "/"%char) then EmptyString else String c EmptyString
      | t => String c t
      end
  end.

Definition consul_request_url (p : ConsulMembershipProvider) : string :=
  trim_end_slashes (consul_url p) +:+ "/v1/health/service/" +:+ service_name p +:+ "?passing=true".

Definition consul_member (e : ConsulEntry) : option SiloAddress :=
  match (match ce_service_address e with
         | Some a => if bool_decide (a = "") then ce_node_address e else Some a
         | None => ce_node_address e
         end) with
  | None => None
  | Some address =>
      match ce_service_port e with
      | None => None
      | Some p =>
          let port := as_u16 p in
          let service_id := default "" (ce_service_id e) in
          Some (mkSilo address port
                  (if bool_decide (service_id = "") then colon address (pretty port) else service_id))
      end
  end.

(** The answer to the GET: a failed request, another status, a body that does not parse, or
    the entries. *)
Inductive ConsulAnswer :=
| ConsulFailed (e : string)
| ConsulStatus (code : string)
| ConsulUnparsable (e : string)
| ConsulEntries (entries : list ConsulEntry).

Definition ConsulMembershipProvider_get_members (http_get : string → ConsulAnswer)
  (p : ConsulMembershipProvider) : result DiscoveryError (list SiloAddress) :=
  match http_get (consul_request_url p) with
  | ConsulFailed e => Err (DiscoveryTransport ("Consul request failed: " +:+ e))
  | ConsulStatus code => Err (DiscoveryTransport ("Consul returned status " +:+ code))
  | ConsulUnparsable e => Err (DiscoveryTransport ("Consul response parse failed: " +:+ e))
  | ConsulEntries entries => Ok (omap consul_member entries)
  end.

(** ** Properties of seed addresses *)
Lemma rsplit_once_None c s : str_has c s = false → rsplit_once c s = None.
Proof.
  induction s as [|x s IH]; [done|]. cbn. intros [Hx Hs]%orb_false_iff. rewrite IH by done.
  apply bool_decide_eq_false in Hx. by rewrite bool_decide_false.
Qed.

Lemma rsplit_once_app c a b : str_has c b = false → rsplit_once c (a +:+ String c b) = Some (a, b).
Proof.
  intros Hb. induction a as [|x a IH].
  - rewrite str_app_nil_l. cbn. by rewrite rsplit_once_None, bool_decide_true by done.
  - rewrite str_app_cons. cbn. by rewrite IH.
Qed.

Lemma rsplit_once_Some c s a b :
  rsplit_once c s = Some (a, b) → s = a +:+ String c b ∧ str_has c b = false.
Proof.
  revert a. induction s as [|x s IH]; intros a; [done|]. cbn [rsplit_once].
  destruct (rsplit_once c s) as [[a' b']|] eqn:E.
  - intros [= <- <-]. destruct (IH a' eq_refl) as [-> Hb]. by rewrite str_app_cons.
  - case_bool_decide as Hx; [|done]. intros [= <- <-]. subst x. split; [done|].
    destruct (str_has c s) eqn:Hs; [|done]. exfalso.
    clear IH. revert E. induction s as [|y s IH]; [done|]. cbn in Hs |- *.
    apply orb_true_iff in Hs as [Hy|Hs].
    + apply bool_decide_eq_true in Hy. subst. destruct (rsplit_once y s) as [[]|]; [done|].
      by rewrite bool_decide_true.
    + specialize (IH Hs). by destruct (rsplit_once c s) as [[]|].
Qed.

Lemma pretty_N_char_no_colon d : bool_decide (":"%char = pretty_N_char d) = false.
Proof. unfold pretty_N_char. by repeat case_match. Qed.

Lemma pretty_N_go_no_colon x s : str_has ":" s = false → str_has ":" (pretty_N_go x s) = false.
Proof.
  revert s. induction (N.lt_wf_0 x) as [x _ IH]. intros s Hs.
  destruct (N.eq_0_gt_0_cases x) as [->|Hx]; [done|]. rewrite pretty_N_go_step by done.
  apply IH; [by apply N.div_lt|]. cbn. by rewrite pretty_N_char_no_colon.
Qed.

Lemma pretty_port_no_colon z : 0 ≤ z → str_has ":" (pretty z) = false.
Proof. destruct z as [|p|p]; [done| |lia]. intros _. by apply pretty_N_go_no_colon. Qed.

(** Seed addresses round-trip: the printed endpoint of any silo, IPv6 hosts with
    colons included, parses back to its host and port; and every seed that is accepted is the text of
    its host and a port in range, invalid entries being skipped without affecting
    the others. *)
Theorem seed_roundtrip addresses a :
  silo_wf a →
  StaticSeedProvider_new [endpoint a] = mkSeeds [mkSilo (host a) (port a) (endpoint a)] ∧
  (∀ s, s ∈ seeds (StaticSeedProvider_new addresses) →
     silo_wf s ∧ silo_id s ∈ addresses ∧
     ∃ port_str, silo_id s = colon (host s) port_str ∧ parse_u16 port_str = Ok (port s)) ∧
  (∀ l l', seeds (StaticSeedProvider_new (l ++ l')) =
           seeds (StaticSeedProvider_new l) ++ seeds (StaticSeedProvider_new l')).
Proof.
  intros Ha. split_and!.
  - unfold StaticSeedProvider_new. cbn [omap list_omap].
    assert (parse_seed (endpoint a) = Some (mkSilo (host a) (port a) (endpoint a))) as ->; [|done].
    unfold parse_seed, endpoint, colon. rewrite str_app_cons, str_app_nil_l.
    destruct Ha as [H0 Hlt]. rewrite rsplit_once_app by by apply pretty_port_no_colon.
    unfold parse_u16. rewrite parse_int_pretty; [done|unfold u16_mod; lia|lia].
  - intros s (x & Hx & Hs)%list_elem_of_omap. unfold parse_seed in Hs.
    destruct (rsplit_once ":" x) as [[h p]|] eqn:E; [|done].
    apply rsplit_once_Some in E as [-> _].
    destruct (parse_u16 p) as [n|] eqn:Ep; [|done]. injection Hs as <-. cbn. split_and!.
    + apply parse_int_range in Ep; [|unfold u16_mod; lia]. unfold silo_wf, is_u16. cbn. lia.
    + done.
    + exists p. split; [|done]. unfold colon. by rewrite str_app_cons, str_app_nil_l.
  - intros l l'. cbn. apply omap_app.
Qed.

Lemma seed_roundtrip_witness :
  StaticSeedProvider_new ["[::1]:65535"] = mkSeeds [mkSilo "[::1]" 65535 "[::1]:65535"] ∧
  seeds (StaticSeedProvider_new ["valid:1234"; "no-port"; "also:bad"; "big:65536"])
  = [mkSilo "valid" 1234 "valid:1234"].
Proof.
  pose (a := mkSilo "[::1]" 65535 "x").
  assert (silo_wf a) as Ha by (unfold silo_wf, is_u16, u16_mod; cbn; lia).
  destruct (seed_roundtrip [] a Ha) as [H _]. split; [exact H|vm_compute; reflexivity].
Defined.

(** A Consul port above the 16-bit range is truncated instead of refused. *)
Example consul_port_truncated :
  consul_member (mkConsulEntry (Some "10.0.0.1") None (Some 65537) None)
  = Some (mkSilo "10.0.0.1" 1 "10.0.0.1:1").
Proof. reflexivity. Qed.
