(* ===== verification/Mailbox.v ===== *)
(** The activation lifecycle of [orlando-core]: the [ActivationState] machine
    ([activation_state.rs]), the [GrainActivator] interface
    ([grain_context.rs]), the sequential mailbox loop ([mailbox.rs]) and the
    reentrant one ([reentrant_mailbox.rs]). *)
From S2P Require Import Prelude CoreTypes.

(** * The activation state machine *)
Inductive ActivationState :=
| Activating | Idle | Processing | Persisting | Draining | Deactivating | Faulted | Closed.

Inductive ActivationEvent :=
| ActivateSucceeded | ActivateFailed | MessageReceived | HandlerCompleted | PersistStarted
| HandlerPanicked | PersistSucceeded | PersistFailed | ChannelClosed | IdleTimeout
| DrainComplete | DeactivateComplete.

#[global] Instance ActivationState_eq_dec : EqDecision ActivationState.
Proof. solve_decision. Defined.
#[global] Instance ActivationEvent_eq_dec : EqDecision ActivationEvent.
Proof. solve_decision. Defined.

(** [ActivationState::next] *)
Definition ActivationState_next (self : ActivationState) (event : ActivationEvent)
    : ActivationState :=
  match self, event with
  | Activating, ActivateSucceeded => Idle
  | Activating, ActivateFailed => Faulted
  | Idle, MessageReceived => Processing
  | Idle, ChannelClosed => Draining
  | Idle, IdleTimeout => Draining
  | Processing, HandlerCompleted => Idle
  | Processing, PersistStarted => Persisting
  | Processing, HandlerPanicked => Faulted
  | Persisting, PersistSucceeded => Idle
  | Persisting, PersistFailed => Faulted
  | Draining, DrainComplete => Deactivating
  | Deactivating, DeactivateComplete => Closed
  | Faulted, DeactivateComplete => Closed
  | state, _ => state
  end.

(** [ActivationState::is_terminal] *)
Definition is_terminal (s : ActivationState) : bool :=
  match s with Closed => true | _ => false end.

(** The state after a sequence of events. *)
Definition fsm_run (s : ActivationState) (es : list ActivationEvent) : ActivationState :=
  foldl ActivationState_next s es.

(** How far along its life an activation is. *)
Definition phase (s : ActivationState) : nat :=
  match s with
  | Activating => 0
  | Idle | Processing | Persisting => 1
  | Draining => 2
  | Deactivating | Faulted => 3
  | Closed => 4
  end%nat.

Lemma next_phase s e : (phase s ≤ phase (ActivationState_next s e))%nat.
Proof. destruct s, e; cbn; lia. Qed.

Lemma fsm_run_phase s es : (phase s ≤ phase (fsm_run s es))%nat.
Proof.
  revert s. induction es as [|e es IH]; intros s; cbn; [lia|].
  etrans; [apply (next_phase s e)|apply IH].
Qed.

(** The lifecycle only moves forward: no event sequence takes an activation back to
    an earlier phase (so a faulted or draining activation never handles another
    message), the terminal state is exactly the one no event leaves, and every
    state has a sequence of events that closes it. *)
Theorem activation_lifecycle_forward s es :
  (phase s ≤ phase (fsm_run s es))%nat ∧
  (is_terminal s = true ↔ ∀ e, ActivationState_next s e = s) ∧
  (∃ es', fsm_run s es' = Closed).
Proof.
  split_and!; [apply fsm_run_phase| |].
  - split; [by destruct s|]. destruct s; cbn; intros H; [..|done]; exfalso.
    + by specialize (H ActivateFailed).
    + by specialize (H IdleTimeout).
    + by specialize (H HandlerPanicked).
    + by specialize (H PersistFailed).
    + by specialize (H DrainComplete).
    + by specialize (H DeactivateComplete).
    + by specialize (H DeactivateComplete).
  - exists [ActivateFailed; HandlerPanicked; PersistFailed; IdleTimeout; DrainComplete;
            DeactivateComplete].
    by destruct s.
Qed.

(** * The activator interface *)

(** A mailbox sender is the identity of its channel. *)
Abbreviation Sender := nat.
Abbreviation JoinHandle := nat.

(** [trait GrainActivator]: the methods without a default body. *)
Class GrainActivator (D : Type) := {
  ga_get_sender : D → GrainId → option Sender;
  ga_register : D → GrainId → Sender → JoinHandle → D;
  ga_remove : D → GrainId → D }.

(** What a mailbox relies on when it tears down. *)
Class GrainActivatorLaws (D : Type) `{GrainActivator D} : Prop := {
  ga_remove_get : ∀ d g, ga_get_sender (ga_remove d g) g = None;
  ga_remove_other : ∀ d g g', g ≠ g' → ga_get_sender (ga_remove d g) g' = ga_get_sender d g';
  ga_register_get : ∀ d g s t, ga_get_sender (ga_register d g s t) g = Some s }.

Section activator_defaults.
Context {D : Type} `{GrainActivator D}.

(** The default body of [GrainActivator::get_or_insert]. *)
Definition GrainActivator_get_or_insert (d : D) (g : GrainId)
    (create : GrainId → Sender * JoinHandle) : D * Sender :=
  match ga_get_sender d g with
  | Some sender => (d, sender)
  | None =>
      let '(sender, task) := create g in
      (ga_register d g sender task, sender)
  end.

(** The default body of [GrainActivator::get_or_insert_pool]; [create n] is the
    [n]-th call of the factory. *)
Fixpoint GrainActivator_get_or_insert_pool (d : D) (g : GrainId)
    (create : nat → Sender * JoinHandle) (pool_size : nat) : D * list Sender :=
  match pool_size with
  | O => (d, [])
  | S n =>
      let '(d1, senders) := GrainActivator_get_or_insert_pool d g create n in
      let '(sender, task) := create n in
      (ga_register d1 g sender task, senders ++ [sender])
  end.
End activator_defaults.

(** * The sequential mailbox *)

(** How a caught future ended ([catch_panic]). *)
Inductive FutResult := FutOk | FutPanicked.

Section mailbox.
Context {D : Type} `{GrainActivator D} {State : Type}.

(** A grain: its default state and hooks.  A hook or handler may have changed the
    state before it panicked. *)
Record Grain := {
  grain_default : State;
  on_activate : State → State * FutResult;
  on_deactivate : State → State * FutResult }.

(** A queued message: what its handler does to the state. *)
Abbreviation Envelope := (State → State * FutResult).

(** What [timeout(idle_timeout, rx.recv())] returns. *)
Inductive RecvOutcome :=
| RecvMessage (e : Envelope)
| RecvClosed
| RecvElapsed.

(** The calls a mailbox makes into user code and the directory, in order. *)
Inductive MailboxEffect := EOnActivate | EHandle (s_before s_after : State) | EOnDeactivate | ERemove.

(** The [while fsm == Idle] loop; [None] when the script of receive outcomes ends
    with the loop still waiting. *)
Fixpoint mailbox_loop (fsm : ActivationState) (st : State) (rx : list RecvOutcome)
    : option (ActivationState * State * list MailboxEffect) :=
  if decide (fsm = Idle) then
    match rx with
    | [] => None
    | r :: rx' =>
        let '(fsm, st', event, eff) :=
          match r with
          | RecvMessage envelope =>
              let fsm := ActivationState_next fsm MessageReceived in
              let '(st', res) := envelope st in
              (fsm, st',
               match res with FutOk => HandlerCompleted | FutPanicked => HandlerPanicked end,
               [EHandle st st'])
          | RecvClosed => (fsm, st, ChannelClosed, [])
          | RecvElapsed => (fsm, st, IdleTimeout, [])
          end in
        '(fsm', st'', effs) ← mailbox_loop (ActivationState_next fsm event) st' rx';
        Some (fsm', st'', eff ++ effs)
    end
  else Some (fsm, st, []).

Record MailboxEnd := mkEnd {
  end_fsm : ActivationState;
  end_state : State;
  end_dir : D;
  end_effects : list MailboxEffect }.

(** [run_mailbox] *)
Definition run_mailbox (G : Grain) (grain_id : GrainId) (rx : list RecvOutcome) (dir : D)
    : option MailboxEnd :=
  let '(st, res) := on_activate G (grain_default G) in
  let fsm := ActivationState_next Activating
    (match res with FutOk => ActivateSucceeded | FutPanicked => ActivateFailed end) in
  '(fsm, st, effs) ← mailbox_loop fsm st rx;
  let '(fsm, st, effs') :=
    match fsm with
    | Draining =>
        let fsm := ActivationState_next fsm DrainComplete in
        let '(st, _) := on_deactivate G st in
        (ActivationState_next fsm DeactivateComplete, st, [EOnDeactivate])
    | Faulted => (ActivationState_next fsm DeactivateComplete, st, [])
    | other => (other, st, [])
    end in
  Some (mkEnd fsm st (ga_remove dir grain_id) (EOnActivate :: effs ++ effs' ++ [ERemove])).

(** Running a list of handlers one after the other; stops at the first panic and says
    whether there was one. *)
Fixpoint turns (st : State) (msgs : list Envelope) : State * bool * list MailboxEffect :=
  match msgs with
  | [] => (st, false, [])
  | e :: msgs' =>
      let '(st', res) := e st in
      match res with
      | FutPanicked => (st', true, [EHandle st st'])
      | FutOk => let '(st'', p, effs) := turns st' msgs' in (st'', p, EHandle st st' :: effs)
      end
  end.

(** A receive outcome that ends the loop. *)
Definition stops (r : RecvOutcome) : bool :=
  match r with RecvMessage _ => false | _ => true end.

Lemma mailbox_loop_turns st msgs r rest :
  stops r = true →
  mailbox_loop Idle st ((RecvMessage <$> msgs) ++ r :: rest) =
  let '(st', panicked, effs) := turns st msgs in
  Some (if panicked then Faulted else Draining, st', effs).
Proof.
  intros Hr. revert st. induction msgs as [|e msgs IH]; intros st.
  - destruct r; [done|by destruct rest..].
  - cbn. destruct (e st) as [st' []]; cbn.
    + rewrite IH. by destruct (turns st' msgs) as [[??]?].
    + by destruct msgs.
Qed.

Lemma run_mailbox_ends G g msgs r rest (dir : D) :
  stops r = true →
  let '(st1, act) := on_activate G (grain_default G) in
  let '(st2, panicked, effs) := turns st1 msgs in
  let faulted := match act with FutPanicked => true | FutOk => panicked end in
  ∃ res, run_mailbox G g ((RecvMessage <$> msgs) ++ r :: rest) dir = Some res ∧
    end_fsm res = Closed ∧ end_dir res = ga_remove dir g ∧
    end_state res = match act with
                    | FutPanicked => st1
                    | FutOk => if panicked then st2 else (on_deactivate G st2).1
                    end ∧
    end_effects res = EOnActivate ::
      match act with FutPanicked => [] | FutOk => effs end ++
      (if faulted then [] else [EOnDeactivate]) ++ [ERemove].
Proof.
  intros Hr. unfold run_mailbox. destruct (on_activate G (grain_default G)) as [st1 act].
  destruct (turns st1 msgs) as [[st2 p] effs] eqn:E. destruct act; cbn.
  - rewrite mailbox_loop_turns by done. rewrite E. cbn.
    destruct p; cbn; [|destruct (on_deactivate G st2) as [st3 ?] eqn:F]; by eexists.
  - assert (mailbox_loop Faulted st1 ((RecvMessage <$> msgs) ++ r :: rest)
            = Some (Faulted, st1, [])) as -> by (by destruct msgs).
    by eexists.
Qed.

(** C4: the mailbox contract: whatever the handlers do, once the channel closes or idles
    out after the messages [msgs], the mailbox ends in [Closed] and its directory
    entry is gone; the messages were handled one at a time in order, each on the
    state its predecessor left; [on_deactivate] ran, last, exactly when neither
    [on_activate] nor a handler panicked, and no handler ran after a panic. *)
Theorem run_mailbox_correct `{!GrainActivatorLaws D} G g msgs r rest (dir : D) :
  stops r = true →
  let '(st1, act) := on_activate G (grain_default G) in
  let '(st2, panicked, effs) := turns st1 msgs in
  let faulted := match act with FutPanicked => true | FutOk => panicked end in
  ∃ res, run_mailbox G g ((RecvMessage <$> msgs) ++ r :: rest) dir = Some res ∧
    end_fsm res = Closed ∧
    ga_get_sender (end_dir res) g = None ∧
    (∀ g', g ≠ g' → ga_get_sender (end_dir res) g' = ga_get_sender dir g') ∧
    end_state res = match act with
                    | FutPanicked => st1
                    | FutOk => if panicked then st2 else (on_deactivate G st2).1
                    end ∧
    end_effects res = EOnActivate ::
      match act with FutPanicked => [] | FutOk => effs end ++
      (if faulted then [] else [EOnDeactivate]) ++ [ERemove].
Proof.
  intros Hr. pose proof (run_mailbox_ends G g msgs r rest dir Hr) as H'.
  destruct (on_activate _ _) as [st1 act]. destruct (turns _ _) as [[st2 p] effs].
  destruct H' as (res & H1 & H2 & H3 & H4 & H5). exists res. rewrite H3.
  split_and!; auto using ga_remove_get, ga_remove_other.
Qed.
End mailbox.
Arguments Grain : clear implicits.
Arguments RecvOutcome : clear implicits.
Arguments MailboxEffect : clear implicits.
Arguments MailboxEnd : clear implicits.

(** [testing::FakeActivator]: a plain map of senders. *)
Record FakeActivator := mkFake { senders : gmap GrainId Sender }.

#[global] Instance FakeActivator_activator : GrainActivator FakeActivator := {|
  ga_get_sender d g := senders d !! g;
  ga_register d g s _ := mkFake (<[g := s]> (senders d));
  ga_remove d g := mkFake (delete g (senders d)) |}.

#[global] Instance FakeActivator_laws : GrainActivatorLaws FakeActivator.
Proof.
  split; cbn; intros.
  - apply lookup_delete_eq.
  - by apply lookup_delete_ne.
  - apply lookup_insert_eq.
Qed.

(** A counter grain used in examples. *)
Definition counter_grain : Grain Z := {|
  grain_default := 0;
  on_activate s := (s, FutOk);
  on_deactivate s := (s, FutOk) |}.
Definition add_msg (n : Z) : Z → Z * FutResult := λ s, (s + n, FutOk).
Definition boom_msg : Z → Z * FutResult := λ s, (s, FutPanicked).
Definition test_id : GrainId := mkGrainId "TestGrain" "k".

Lemma run_mailbox_correct_witness :
  ∃ res, run_mailbox counter_grain test_id
           ((RecvMessage <$> [add_msg 5; boom_msg; add_msg 1]) ++ RecvClosed :: [])
           (mkFake {[test_id := 7%nat]}) = Some res ∧
         end_fsm res = Closed ∧ ga_get_sender (end_dir res) test_id = None ∧ end_state res = 5 ∧
         end_effects res = [EOnActivate; EHandle 0 5; EHandle 5 5; ERemove].
Proof.
  pose proof (run_mailbox_correct counter_grain test_id [add_msg 5; boom_msg; add_msg 1]
                RecvClosed [] (mkFake {[test_id := 7%nat]}) eq_refl) as H.
  cbn in H. destruct H as (res & H1 & H2 & H3 & _ & H5 & H6).
  exists res. split; [exact H1|]. split; [exact H2|]. split; [exact H3|].
  split; [exact H5|exact H6].
Defined.

(** * The reentrant mailbox *)
Section reentrant.
Context {D : Type} `{GrainActivator D} {State : Type} (G : Grain State) (g : GrainId).
Abbreviation Env := (State → State * FutResult).

(** [MAX_CONCURRENT] *)
Definition MAX_CONCURRENT : nat := 256.

(** The loop's variables.  A spawned task is named by the position of its message in
    [rr_spawned]; it waits for the state mutex ([rr_waiting]), runs its handler in
    one critical section, and then sits finished in the [JoinSet] until joined. *)
Record ReentrantRun := mkRun {
  rr_fsm : ActivationState;
  rr_state : State;
  rr_rx : list (RecvOutcome State);
  rr_held : option Env;          (** received, not yet spawned *)
  rr_spawned : list Env;
  rr_waiting : list nat;
  rr_finished : list nat;
  rr_handled : list nat;         (** order in which tasks took the mutex *)
  rr_dir : D }.

(** Entry of [run_reentrant_mailbox], up to the loop. *)
Definition reentrant_start (rx : list (RecvOutcome State)) (dir : D) : ReentrantRun :=
  let '(st, res) := on_activate G (grain_default G) in
  mkRun (ActivationState_next Activating
           (match res with FutOk => ActivateSucceeded | FutPanicked => ActivateFailed end))
        st rx None [] [] [] [] dir.

(** [tasks.len()] *)
Definition in_flight (c : ReentrantRun) : nat := length (rr_waiting c) + length (rr_finished c).

(** One step of the loop, of a spawned task, or of the teardown. *)
Inductive reentrant_step : ReentrantRun → ReentrantRun → Prop :=
| rs_recv st e rx sp w h d :
    (* biased select: a finished task would be joined first *)
    reentrant_step (mkRun Idle st (RecvMessage e :: rx) None sp w [] h d)
                   (mkRun Idle st rx (Some e) sp w [] h d)
| rs_spawn st e rx sp w f h d :
    (length w + length f < MAX_CONCURRENT)%nat →
    reentrant_step (mkRun Idle st rx (Some e) sp w f h d)
                   (mkRun Idle st rx None (sp ++ [e]) (w ++ [length sp]) f h d)
| rs_handle fsm st rx held sp w1 i w2 f h d e :
    sp !! i = Some e →
    reentrant_step (mkRun fsm st rx held sp (w1 ++ i :: w2) f h d)
                   (mkRun fsm (e st).1 rx held sp (w1 ++ w2) (f ++ [i]) (h ++ [i]) d)
| rs_join fsm st rx held sp w f1 i f2 h d :
    reentrant_step (mkRun fsm st rx held sp w (f1 ++ i :: f2) h d)
                   (mkRun fsm st rx held sp w (f1 ++ f2) h d)
| rs_stop st r rx sp w h d :
    stops r = true →
    reentrant_step (mkRun Idle st (r :: rx) None sp w [] h d)
      (mkRun (ActivationState_next Idle
                (match r with RecvClosed => ChannelClosed | _ => IdleTimeout end))
             st rx None sp w [] h d)
| rs_teardown fsm st rx held sp h d :
    fsm ≠ Idle → fsm ≠ Closed →
    reentrant_step (mkRun fsm st rx held sp [] [] h d)
      (let '(fsm', st') :=
         match fsm with
         | Draining =>
             (ActivationState_next (ActivationState_next fsm DrainComplete) DeactivateComplete,
              (on_deactivate G st).1)
         | Faulted => (ActivationState_next fsm DeactivateComplete, st)
         | other => (other, st)
         end in
       mkRun fsm' st' rx held sp [] [] h (ga_remove d g)).

(** Run the [i]-th spawned handler on a state. *)
Definition run_index (sp : list Env) (st : State) (i : nat) : State :=
  match sp !! i with Some e => (e st).1 | None => st end.

Definition activated : State := (on_activate G (grain_default G)).1.

Record reentrant_inv (c : ReentrantRun) : Prop := {
  ri_cap : (in_flight c ≤ MAX_CONCURRENT)%nat;
  ri_once : rr_waiting c ++ rr_handled c ≡ₚ seq 0 (length (rr_spawned c));
  ri_fsm : rr_fsm c ∈ [Idle; Draining; Faulted; Closed];
  ri_held : rr_fsm c = Draining → rr_held c = None;
  ri_state : match rr_fsm c with
             | Closed => rr_waiting c = [] ∧
                 (rr_state c = (on_deactivate G
                    (foldl (run_index (rr_spawned c)) activated (rr_handled c))).1 ∨
                  (rr_state c = activated ∧ rr_spawned c = []))
             | Faulted => rr_state c = activated ∧ rr_spawned c = []
             | _ => rr_state c = foldl (run_index (rr_spawned c)) activated (rr_handled c)
             end;
  ri_dir : rr_fsm c = Closed → ∃ d, rr_dir c = ga_remove d g }.

Lemma foldl_run_index_app sp e st h :
  Forall (λ i, i < length sp)%nat h →
  foldl (run_index (sp ++ [e])) st h = foldl (run_index sp) st h.
Proof.
  intros Hh. revert st. induction Hh as [|i h Hi Hh IH]; intros st; [done|].
  cbn. rewrite IH. unfold run_index at 2 4. by rewrite lookup_app_l.
Qed.

Lemma once_handled_lt w h (sp : list Env) :
  w ++ h ≡ₚ seq 0 (length sp) → Forall (λ i, i < length sp)%nat h.
Proof.
  intros Hp. apply Forall_forall. intros i Hi.
  assert (i ∈ seq 0 (length sp)) as ?%elem_of_seq by (rewrite <- Hp; set_solver). lia.
Qed.

Lemma reentrant_inv_start rx dir : reentrant_inv (reentrant_start rx dir).
Proof.
  unfold reentrant_start, activated. destruct (on_activate G (grain_default G)) as [st []] eqn:E;
    split; cbn; unfold activated; rewrite ?E; try done; try set_solver.
  - unfold in_flight, MAX_CONCURRENT. cbn. lia.
  - unfold in_flight, MAX_CONCURRENT. cbn. lia.
Qed.

Lemma reentrant_inv_step c c' : reentrant_step c c' → reentrant_inv c → reentrant_inv c'.
Proof.
  intros Hs [Hcap Honce Hfsm Hheld Hst Hdir]. unfold in_flight in *.
  destruct Hs as [|st e rx sp w f h d Hlt|fsm st rx held sp w1 i w2 f h d e Hi
                 |fsm st rx held sp w f1 i f2 h d| |fsm st rx held sp h d Hni Hnc];
    cbn in *.
  - by split.
  - split; cbn; try done.
    + unfold in_flight. cbn. rewrite length_app. cbn. lia.
    + rewrite length_app, seq_app. cbn. rewrite <- Honce. solve_Permutation.
    + rewrite Hst. symmetry. eapply foldl_run_index_app, once_handled_lt, Honce.
  - assert (fsm = Idle ∨ fsm = Draining) as Hf.
    { rewrite !elem_of_cons in Hfsm. destruct Hfsm as [->|[->|[->|[->|Hn]]]]; auto.
      - destruct Hst as [_ ->]. done.
      - destruct Hst as [Hw _]. by destruct w1.
      - by apply elem_of_nil in Hn. }
    split; cbn; try done.
    + unfold in_flight. cbn. rewrite !length_app in *. cbn in *. lia.
    + rewrite <- Honce. solve_Permutation.
    + destruct Hf as [-> | ->]; rewrite foldl_app; cbn; rewrite <- Hst;
        unfold run_index; by rewrite Hi.
  - split; cbn; try done. unfold in_flight. cbn. rewrite !length_app in *. cbn in *. lia.
  - destruct r; [done|..]; split; cbn; (done || set_solver).
  - rewrite !elem_of_cons in Hfsm. destruct Hfsm as [->|[->|[->|[->|Hn]]]]; try done.
    + split; cbn; [done|done|set_solver|done| |eauto]. split; [done|]. left. by rewrite Hst.
    + split; cbn; [done|done|set_solver|done| |eauto]. split; [done|]. by right.
    + by apply elem_of_nil in Hn.
Qed.

Lemma reentrant_inv_reachable rx dir c :
  rtc reentrant_step (reentrant_start rx dir) c → reentrant_inv c.
Proof.
  intros Hr. pose proof (reentrant_inv_start rx dir) as Hi. revert Hi.
  induction Hr; eauto using reentrant_inv_step.
Qed.
(** Every step consumes part of what is left to do, so runs are finite. *)
Definition reentrant_measure (c : ReentrantRun) : nat :=
  4 * length (rr_rx c) + (match rr_held c with Some _ => 3 | None => 0 end) + 2 * length (rr_waiting c) +
  length (rr_finished c) + (if decide (rr_fsm c = Closed) then 0 else 1).

Lemma reentrant_step_decreases c c' :
  reentrant_inv c → reentrant_step c c' → (reentrant_measure c' < reentrant_measure c)%nat.
Proof.
  intros [_ _ Hfsm _ _ _] Hs. unfold reentrant_measure.
  destruct Hs as [| |fsm st rx held sp w1 i w2 f h d e Hi|fsm st rx held sp w f1 i f2 h d
                 |st r|fsm st rx held sp h d Hni Hnc]; cbn in *;
    rewrite ?length_app; cbn; try lia.
  - destruct r; [done|cbn; repeat case_decide; simplify_eq; lia..].
  - rewrite !elem_of_cons in Hfsm. destruct Hfsm as [->|[->|[->|[->|Hn]]]];
      [..|by apply elem_of_nil in Hn]; cbn; repeat case_decide; simplify_eq; try done; lia.
Qed.

(** The loop is blocked only on an empty channel with no task in flight. *)
Definition awaiting_message (c : ReentrantRun) : Prop :=
  rr_fsm c = Idle ∧ rr_rx c = [] ∧ rr_held c = None ∧ rr_waiting c = [] ∧ rr_finished c = [].

Lemma reentrant_progress c :
  reentrant_inv c → rr_fsm c = Closed ∨ awaiting_message c ∨ ∃ c', reentrant_step c c'.
Proof.
  intros [_ Honce Hfsm Hheld Hst _]. destruct c as [fsm st rx held sp w f h d]; cbn in *.
  destruct w as [|i w].
  2:{ right; right. assert (i ∈ seq 0 (length sp)) as [_ Hi]%elem_of_seq
        by (rewrite <- Honce; set_solver).
      destruct (lookup_lt_is_Some_2 sp i Hi) as [e He].
      eexists. exact (rs_handle fsm st rx held sp [] i w f h d e He). }
  destruct f as [|i f].
  2:{ right; right. eexists. exact (rs_join fsm st rx held sp [] [] i f h d). }
  destruct (decide (fsm = Closed)) as [->|Hc]; [by left|]. right.
  destruct (decide (fsm = Idle)) as [->|Hni]; [|right; eexists; by apply rs_teardown].
  destruct held as [e|]; [right; eexists; apply rs_spawn; unfold MAX_CONCURRENT; cbn; lia|].
  destruct rx as [|r rx]; [by left|right].
  destruct r as [e| |]; eexists; [apply rs_recv|by apply rs_stop..].
Qed.

(** C8: reentrant grains are serializable: in every reachable configuration at most
    [MAX_CONCURRENT] handlers are in flight; an activation that did not fault and has
    closed has handled every accepted message exactly once, and its final state is
    that of running the handlers one after the other in the order they took the
    state mutex, followed by [on_deactivate]; its directory entry is gone.  Runs
    never get stuck before that except to wait for a message, and are finite. *)
Theorem reentrant_mailbox_serializable `{!GrainActivatorLaws D} rx (dir : D) c :
  rtc reentrant_step (reentrant_start rx dir) c →
  (in_flight c ≤ MAX_CONCURRENT)%nat ∧
  NoDup (rr_handled c) ∧
  (rr_fsm c = Closed → ga_get_sender (rr_dir c) g = None ∧
     rr_handled c ≡ₚ seq 0 (length (rr_spawned c)) ∧
     (rr_state c = (on_deactivate G
        (foldl (run_index (rr_spawned c)) activated (rr_handled c))).1 ∨
      (rr_state c = activated ∧ rr_spawned c = []))) ∧
  (rr_fsm c = Closed ∨ awaiting_message c ∨ ∃ c', reentrant_step c c') ∧
  (∀ c', reentrant_step c c' → (reentrant_measure c' < reentrant_measure c)%nat).
Proof.
  intros Hr%reentrant_inv_reachable. pose proof Hr as [Hcap Honce _ _ Hst Hdir].
  split_and!; [done| | |by apply reentrant_progress|].
  - assert (NoDup (rr_waiting c ++ rr_handled c)) as (_ & _ & ?)%NoDup_app; [|done].
    rewrite Honce. apply NoDup_seq.
  - intros Hc. rewrite Hc in Hst. destruct Hst as [Hw Hst].
    destruct (Hdir Hc) as [d ->]. rewrite Hw in Honce. split_and!; [apply ga_remove_get|done..].
  - intros c'. by apply reentrant_step_decreases.
Qed.
End reentrant.

Lemma reentrant_mailbox_serializable_witness :
  ∃ c, rtc (reentrant_step counter_grain test_id)
         (reentrant_start counter_grain [RecvMessage (add_msg 5); RecvMessage (add_msg 2); RecvClosed]
            (mkFake {[test_id := 7%nat]})) c ∧
       rr_fsm c = Closed ∧ rr_state c = 7 ∧ rr_handled c = [1; 0]%nat ∧
       ga_get_sender (rr_dir c) test_id = None.
Proof.
  assert (rtc (reentrant_step counter_grain test_id)
    (reentrant_start counter_grain [RecvMessage (add_msg 5); RecvMessage (add_msg 2); RecvClosed]
       (mkFake {[test_id := 7%nat]}))
    (mkRun Closed 7 [] None [add_msg 5; add_msg 2] [] [] [1; 0]%nat
       (ga_remove (mkFake {[test_id := 7%nat]}) test_id))) as Hr.
  { eapply rtc_l; [apply rs_recv|]. eapply rtc_l; [apply rs_spawn; apply Nat.ltb_lt; reflexivity|].
    eapply rtc_l; [apply rs_recv|]. eapply rtc_l; [apply rs_spawn; apply Nat.ltb_lt; reflexivity|].
    eapply rtc_l; [apply rs_stop; reflexivity|]. cbn.
    eapply rtc_l; [eapply rs_handle with (w1 := [0%nat]) (i := 1%nat) (w2 := []); reflexivity|].
    eapply rtc_l; [eapply rs_handle with (w1 := []) (i := 0%nat) (w2 := []); reflexivity|].
    eapply rtc_l; [eapply rs_join with (f1 := []) (i := 1%nat) (f2 := [0%nat])|].
    eapply rtc_l; [eapply rs_join with (f1 := []) (i := 0%nat) (f2 := [])|].
    eapply rtc_l; [apply rs_teardown; discriminate|]. apply rtc_refl. }
  destruct (reentrant_mailbox_serializable _ _ _ _ _ Hr) as (_ & _ & Hc & _).
  destruct (Hc eq_refl) as [Hd _].
  eexists. split; [exact Hr|]. split; [reflexivity|]. split; [reflexivity|].
  split; [reflexivity|exact Hd].
Defined.
