(* ===== verification/Futures.v ===== *)
(** * Handler futures and panic containment

    orlando-core [activation_state.rs], [CatchUnwind] and [catch_panic]: the adapter through which every
    mailbox loop drives the futures of handlers and hooks.  The mailbox models take a handler as a
    function from the state to a state and a [FutResult]; here that is derived from polling. *)
From S2P Require Import Prelude CoreTypes Mailbox.

(** ** Futures

    What an [async] body compiles to: a state machine that, when polled, runs to its next
    suspension point, to its end, or into a panic.  Polled again after its end, it panics. *)
Inductive Fut (St : Type) :=
| FDone                                          (** runs to its end *)
| FPanic                                         (** panics *)
| FSuspend (run : St → St) (next : St → Fut St)  (** works, then awaits *)
| FCompleted.                                    (** has been run to its end *)
Arguments FDone {St}.
Arguments FPanic {St}.
Arguments FSuspend {St} run next.
Arguments FCompleted {St}.

Inductive Poll (A : Type) := Pending | Ready (a : A).
Arguments Pending {A}.
Arguments Ready {A} a.

Section catch.
Context {St : Type}.

(** One poll of a boxed future on the state it borrows; [None] is an unwinding panic. *)
Definition poll_fut (f : Fut St) (st : St) : Fut St * St * option (Poll unit) :=
  match f with
  | FDone => (FCompleted, st, Some (Ready ()))
  | FPanic | FCompleted => (f, st, None)
  | FSuspend run next => let st := run st in (next st, st, Some Pending)
  end.

Record CatchUnwind := mkCatch { cu_inner : option (Fut St) }.

(** [<CatchUnwind as Future>::poll] *)
Definition CatchUnwind_poll (this : CatchUnwind) (st : St) : CatchUnwind * St * Poll FutResult :=
  match cu_inner this with
  | Some fut =>
      match poll_fut fut st with
      | (fut, st, Some (Ready _)) => (mkCatch (Some fut), st, Ready FutOk)
      | (fut, st, Some Pending) => (mkCatch (Some fut), st, Pending)
      | (_, st, None) => (mkCatch None, st, Ready FutPanicked)
      end
  | None => (this, st, Pending)
  end.

(** [.await] by a task that is woken [n] times at most. *)
Fixpoint await_catch (n : nat) (c : CatchUnwind) (st : St) : option (CatchUnwind * St * FutResult) :=
  match n with
  | O => None
  | S n' =>
      match CatchUnwind_poll c st with
      | (c, st, Ready r) => Some (c, st, r)
      | (c, st, Pending) => await_catch n' c st
      end
  end.

(** [catch_panic] *)
Definition catch_panic (n : nat) (f : Fut St) (st : St) : option (St * FutResult) :=
  '(_, st, r) ← await_catch n (mkCatch (Some f)) st; Some (st, r).

(** What a future does to the state, from its start to its end. *)
Fixpoint run_fut (f : Fut St) (st : St) : St * FutResult :=
  match f with
  | FDone => (st, FutOk)
  | FPanic | FCompleted => (st, FutPanicked)
  | FSuspend run next => run_fut (next (run st)) (run st)
  end.

Lemma await_catch_mono n c st x m : await_catch n c st = Some x → (n ≤ m)%nat → await_catch m c st = Some x.
Proof.
  revert c st m. induction n as [|n IH]; intros c st m; [done|]. destruct m as [|m]; [lia|].
  cbn. destruct (CatchUnwind_poll c st) as [[c' st'] [|r]]; [|done]. intros H ?. apply IH; [done|lia].
Qed.

Lemma await_catch_run f st :
  ∃ n c, await_catch n (mkCatch (Some f)) st = Some (c, (run_fut f st).1, (run_fut f st).2) ∧
    ((run_fut f st).2 = FutPanicked → cu_inner c = None).
Proof.
  revert st. induction f as [| |run next IH|]; intros st.
  - by exists 1%nat, (mkCatch (Some FCompleted)).
  - by exists 1%nat, (mkCatch None).
  - destruct (IH (run st) (run st)) as (n & c & Hn & Hc). by exists (S n), c.
  - by exists 1%nat, (mkCatch None).
Qed.

(** Panic containment: driving a future through [catch_panic] always ends, with the outcome and the state
    of running it from its start to its end or panic; the panic is a value and never unwinds into
    the mailbox, and a future that panicked is dropped, so that no later poll
    reaches it. *)
Theorem catch_panic_contains f st :
  ∃ n, (∀ m, (n ≤ m)%nat → catch_panic m f st = Some (run_fut f st)) ∧
    ∀ m c st' , (n ≤ m)%nat → await_catch m (mkCatch (Some f)) st = Some (c, st', FutPanicked) →
      ∀ st'', CatchUnwind_poll c st'' = (c, st'', Pending).
Proof.
  destruct (await_catch_run f st) as (n & c & Hn & Hc). exists n. split.
  - intros m Hm. unfold catch_panic. rewrite (await_catch_mono _ _ _ _ m Hn Hm). cbn. by destruct (run_fut f st).
  - intros m c' st' Hm. rewrite (await_catch_mono _ _ _ _ m Hn Hm). intros [= <- _ Hp] st''.
    unfold CatchUnwind_poll. by rewrite (Hc Hp).
Qed.

(** After a completed future the adapter does not stay pending: the future is still there, and is polled
    again. *)
Lemma repoll_after_completion st :
  let '(c, _, r) := CatchUnwind_poll (mkCatch (Some FDone)) st in
  r = Ready FutOk ∧ (CatchUnwind_poll c st).2 = Ready FutPanicked.
Proof. done. Qed.
End catch.
Arguments CatchUnwind : clear implicits.

(** A handler that awaits another call between two writes and then panics. *)
Definition half_done : Fut Z := FSuspend (λ n, n + 1) (λ _, FSuspend (λ n, n + 1) (λ _, FPanic)).
Example half_done_contained : catch_panic 5 half_done 0 = Some (2, FutPanicked).
Proof. reflexivity. Qed.
