(* ===== verification/Observers.v ===== *)
(** * Observers, streams and extensions

    orlando-core [observer.rs] (subscription sets and broadcast), [stream.rs] (numbered items
    on top of them) and [extensions.rs] (a map of values by their type, shared by clones). *)
From S2P Require Import Prelude Mailbox.
From Stdlib Require Import Sorting.Sorted.

(** ** Mailboxes as the broadcaster sees them

    A bounded channel: whether its receiver is gone, what is queued, and how much fits. *)
Record Mbox (N : Type) := mkMbox { mb_closed : bool; mb_queue : list N; mb_capacity : nat }.
Arguments mkMbox {N}.
Arguments mb_closed {N}.
Arguments mb_queue {N}.
Arguments mb_capacity {N}.

Section observers.
Context {N : Type}.
Abbreviation Mailboxes := (gmap Sender (Mbox N)).
Implicit Types (ms : Mailboxes) (msg : N).

(** A sender whose channel is not listed is closed. *)
Definition mb_is_closed ms (s : Sender) : bool :=
  match ms !! s with Some m => mb_closed m | None => true end.

(** [try_send]: refused when closed or full. *)
Definition mb_try_send ms (s : Sender) msg : Mailboxes :=
  match ms !! s with
  | Some m =>
      if mb_closed m || bool_decide (mb_capacity m ≤ length (mb_queue m))%nat then ms
      else <[s := mkMbox false (mb_queue m ++ [msg]) (mb_capacity m)]> ms
  | None => ms
  end.

Record Subscriber := mkSub { sub_id : Z; sub_sender : Sender }.
Record ObserverSet := mkObs { subscribers : list Subscriber; next_id : Z }.

Definition ObserverSet_new : ObserverSet := mkObs [] 0.

Definition ObserverSet_subscribe (o : ObserverSet) (sender : Sender) : ObserverSet * Z :=
  let id := next_id o in
  (mkObs (subscribers o ++ [mkSub id sender]) (u64_add (next_id o) 1), id).

Definition ObserverSet_unsubscribe (o : ObserverSet) (id : Z) : ObserverSet * bool :=
  let before := length (subscribers o) in
  let kept := filter (λ s, sub_id s ≠ id) (subscribers o) in
  (mkObs kept (next_id o), bool_decide (length kept < before)%nat).

(** The [retain] of [notify]: one pass over the subscribers. *)
Fixpoint notify_loop ms (subs : list Subscriber) msg : Mailboxes * list Subscriber :=
  match subs with
  | [] => (ms, [])
  | sub :: subs' =>
      if mb_is_closed ms (sub_sender sub) then notify_loop ms subs' msg
      else
        let '(ms', kept) := notify_loop (mb_try_send ms (sub_sender sub) msg) subs' msg in
        (ms', sub :: kept)
  end.

Definition ObserverSet_notify ms (o : ObserverSet) msg : Mailboxes * ObserverSet :=
  let '(ms', kept) := notify_loop ms (subscribers o) msg in (ms', mkObs kept (next_id o)).

Definition ObserverSet_len (o : ObserverSet) : nat := length (subscribers o).
Definition ObserverSet_is_empty (o : ObserverSet) : bool := bool_decide (subscribers o = []).

(** *** The set of subscriptions *)
Definition observers_inv (o : ObserverSet) : Prop :=
  NoDup (sub_id <$> subscribers o) ∧ Forall (λ s, 0 ≤ sub_id s < next_id o) (subscribers o) ∧
  0 ≤ next_id o.

Lemma observers_inv_new : observers_inv ObserverSet_new.
Proof. split_and!; [constructor..|done]. Qed.

Lemma observers_inv_subscribe o s :
  observers_inv o → next_id o + 1 < u64_mod → observers_inv (ObserverSet_subscribe o s).1.
Proof.
  intros (Hnd & Hlt & H0) Hmax. unfold observers_inv. cbn.
  rewrite u64_add_small by (unfold is_u64; lia). split_and!.
  - rewrite fmap_app. apply NoDup_app. split_and!; [done| |apply NoDup_singleton].
    intros i (x & -> & Hx)%list_elem_of_fmap Hi%list_elem_of_singleton. cbn in Hi.
    rewrite Forall_forall in Hlt. specialize (Hlt x Hx). lia.
  - apply Forall_app. split; [|apply Forall_singleton; cbn; lia].
    eapply Forall_impl; [exact Hlt|]. cbn. lia.
  - lia.
Qed.

(** Subscribers kept by a filter stay well formed. *)
Lemma observers_inv_filter o (P : Subscriber → Prop) `{∀ s, Decision (P s)} :
  observers_inv o → observers_inv (mkObs (filter P (subscribers o)) (next_id o)).
Proof.
  intros (Hnd & Hlt & H0). split_and!; cbn; [| |done].
  - induction (subscribers o) as [|s l IH]; [done|]. rewrite filter_cons. cbn in Hnd.
    apply NoDup_cons in Hnd as [Hs Hnd]. apply Forall_cons in Hlt as [_ Hlt].
    case_decide; [|by apply IH]. cbn. apply NoDup_cons. split; [|by apply IH].
    intros (x & E & [_ Hx]%list_elem_of_filter)%list_elem_of_fmap. apply Hs. rewrite E.
    by apply list_elem_of_fmap_2.
  - rewrite Forall_forall in *. intros x [_ Hx]%list_elem_of_filter. by apply Hlt.
Qed.

(** *** Broadcast *)
Lemma mb_try_send_closed ms s s' msg : mb_is_closed (mb_try_send ms s msg) s' = mb_is_closed ms s'.
Proof.
  unfold mb_try_send. destruct (ms !! s) as [m|] eqn:E; [|done].
  destruct (mb_closed m) eqn:Hc; cbn; [done|]. case_bool_decide; [done|].
  unfold mb_is_closed. rewrite lookup_insert. case_decide; [subst; by rewrite E, Hc|done].
Qed.

Definition is_open ms (s : Subscriber) : Prop := mb_is_closed ms (sub_sender s) = false.
#[global] Instance is_open_dec ms s : Decision (is_open ms s).
Proof. unfold is_open. apply _. Defined.

(** What a mailbox holds after [n] attempts to queue a message. *)
Definition queued (n : nat) msg (m : Mbox N) : Mbox N :=
  if mb_closed m then m
  else mkMbox false (mb_queue m ++ repeat msg (n `min` (mb_capacity m - length (mb_queue m))))
         (mb_capacity m).

Definition subscriptions_of (s : Sender) (subs : list Subscriber) : nat :=
  length (filter (λ x, sub_sender x = s) subs).

Lemma queued_0 msg m : queued 0 msg m = m.
Proof. unfold queued. destruct m as [[] q c]; cbn; [done|]. by rewrite app_nil_r. Qed.

Lemma queued_S n msg m ms s :
  ms !! s = Some m → mb_closed m = false →
  queued n msg <$> mb_try_send ms s msg !! s = Some (queued (S n) msg m).
Proof.
  intros E Hc. unfold mb_try_send. rewrite E, Hc. cbn [orb]. case_bool_decide as Hf.
  - rewrite E. cbn. f_equal. unfold queued. rewrite Hc. do 2 f_equal.
    assert (mb_capacity m - length (mb_queue m) = 0)%nat as -> by lia. by rewrite !Nat.min_0_r.
  - rewrite lookup_insert_eq. cbn. f_equal. unfold queued. rewrite Hc. cbn. f_equal.
    rewrite <- app_assoc. f_equal. cbn. rewrite length_app. cbn.
    replace (mb_capacity m - length (mb_queue m))%nat
      with (S (mb_capacity m - (length (mb_queue m) + 1)))%nat by lia.
    done.
Qed.

Lemma mb_try_send_other ms s s' msg : s ≠ s' → mb_try_send ms s msg !! s' = ms !! s'.
Proof.
  intros Hne. unfold mb_try_send. destruct (ms !! s) as [m|]; [|done].
  destruct (_ || _); [done|]. by rewrite lookup_insert_ne.
Qed.

Lemma notify_loop_spec ms subs msg :
  let '(ms', kept) := notify_loop ms subs msg in
  kept = filter (is_open ms) subs ∧
  ∀ s, ms' !! s = queued (subscriptions_of s subs) msg <$> ms !! s.
Proof.
  revert ms. induction subs as [|sub subs IH]; intros ms; cbn [notify_loop].
  { split; [done|]. intros s. unfold subscriptions_of. cbn. destruct (ms !! s); [|done]. cbn.
    by rewrite queued_0. }
  rewrite filter_cons. destruct (mb_is_closed ms (sub_sender sub)) eqn:Hc.
  - rewrite decide_False by (unfold is_open; by rewrite Hc). specialize (IH ms). destruct (notify_loop ms subs msg) as [ms' kept].
    destruct IH as [-> Hq]. split; [done|]. intros s. rewrite Hq.
    unfold subscriptions_of. rewrite filter_cons. case_decide as E; [|done]. subst s.
    unfold mb_is_closed in Hc. destruct (ms !! sub_sender sub) as [m|]; [|done]. cbn.
    unfold queued. by rewrite Hc.
  - rewrite decide_True by done. specialize (IH (mb_try_send ms (sub_sender sub) msg)).
    destruct (notify_loop _ subs msg) as [ms' kept]. destruct IH as [-> Hq]. split.
    + f_equal. apply list_filter_iff. intros x. unfold is_open. by rewrite mb_try_send_closed.
    + intros s. rewrite Hq. unfold subscriptions_of. rewrite filter_cons. case_decide as E.
      * subst s. unfold mb_is_closed in Hc. destruct (ms !! sub_sender sub) as [m|] eqn:Em; [|done].
        cbn [length]. by rewrite (queued_S _ _ m).
      * by rewrite mb_try_send_other.
Qed.
End observers.


Lemma filter_keeps_all {A} (P : A → Prop) `{∀ x, Decision (P x)} (l : list A) :
  (∀ x, x ∈ l → P x) → filter P l = l.
Proof.
  induction l as [|x l IH]; intros Hl; [done|]. rewrite filter_cons, decide_True by (apply Hl; by left).
  f_equal. apply IH. intros y Hy. apply Hl. by right.
Qed.

(** Broadcast: [notify] keeps exactly the subscribers whose mailbox is open, in order; each
    open mailbox gains the message once per subscription as long as it has room, further
    copies are dropped, and closed mailboxes are left alone; subscription ids stay distinct,
    so [unsubscribe] removes exactly the subscription it names and reports whether it existed. *)
Theorem observer_notify_exact {N} (ms : gmap Sender (Mbox N)) o msg id :
  observers_inv o →
  (let '(ms', o') := ObserverSet_notify ms o msg in
   observers_inv o' ∧ subscribers o' = filter (is_open ms) (subscribers o) ∧
   ∀ s, ms' !! s = queued (subscriptions_of s (subscribers o)) msg <$> ms !! s) ∧
  (let '(o', found) := ObserverSet_unsubscribe o id in
   observers_inv o' ∧ (found = true ↔ id ∈ sub_id <$> subscribers o) ∧
   (∀ x, x ∈ subscribers o' ↔ x ∈ subscribers o ∧ sub_id x ≠ id)).
Proof.
  intros Ho. split.
  - unfold ObserverSet_notify. pose proof (notify_loop_spec ms (subscribers o) msg) as Hs.
    destruct (notify_loop ms (subscribers o) msg) as [ms' kept]. destruct Hs as [-> Hq].
    split_and!; [by apply observers_inv_filter|done|done].
  - cbn. split_and!; [by apply observers_inv_filter| |].
    + rewrite bool_decide_eq_true. split.
      * intros Hlt. destruct (decide (id ∈ sub_id <$> subscribers o)) as [|Hn]; [done|]. exfalso.
        rewrite filter_keeps_all in Hlt; [lia|].
        intros x Hx E. apply Hn. subst id. by apply list_elem_of_fmap_2.
      * intros (x & -> & Hx)%list_elem_of_fmap.
        apply (length_filter_lt _ _ x); [done|]. by intros [].
    + intros x. rewrite list_elem_of_filter. tauto.
Qed.

(** Two subscribers, one with a full mailbox, and a dead one. *)
Definition demo_boxes : gmap Sender (Mbox Z) :=
  <[0%nat := mkMbox false [] 2]> (<[1%nat := mkMbox false [7; 8] 2]> {[2%nat := mkMbox true [] 2]}).
Definition demo_observers : ObserverSet := mkObs [mkSub 0 0; mkSub 1 1; mkSub 2 2] 3.

Lemma observer_notify_exact_witness :
  let '(ms', o') := ObserverSet_notify demo_boxes demo_observers 9 in
  subscribers o' = [mkSub 0 0; mkSub 1 1] ∧
  mb_queue <$> ms' !! 0%nat = Some [9] ∧ mb_queue <$> ms' !! 1%nat = Some [7; 8].
Proof.
  assert (observers_inv demo_observers) as Ho.
  { split_and!; [|repeat constructor; cbn; lia|done].
    apply (bool_decide_unpack _). vm_compute. exact I. }
  pose proof (observer_notify_exact demo_boxes demo_observers 9 1 Ho) as [H _].
  destruct (ObserverSet_notify demo_boxes demo_observers 9) as [ms' o'].
  destruct H as (_ & Hs & Hq). split_and!; [rewrite Hs|rewrite Hq..]; vm_compute; reflexivity.
Defined.

(** ** Streams *)
Section streams.
Context {T : Type}.

Record StreamItem := mkItem { si_stream_name : string; si_item : T; si_sequence : Z }.
Record StreamProducer := mkProducer { sp_name : string; sp_observers : ObserverSet; sp_sequence : Z }.
Abbreviation Boxes := (gmap Sender (Mbox StreamItem)).

Definition StreamProducer_new (name : string) : StreamProducer := mkProducer name ObserverSet_new 0.

Definition StreamProducer_subscribe (p : StreamProducer) (s : Sender) : StreamProducer * Z :=
  let '(o, id) := ObserverSet_subscribe (sp_observers p) s in
  (mkProducer (sp_name p) o (sp_sequence p), id).

Definition StreamProducer_unsubscribe (p : StreamProducer) (id : Z) : StreamProducer * bool :=
  let '(o, found) := ObserverSet_unsubscribe (sp_observers p) id in
  (mkProducer (sp_name p) o (sp_sequence p), found).

Definition StreamProducer_send (ms : Boxes) (p : StreamProducer) (item : T) : Boxes * StreamProducer :=
  let stream_item := mkItem (sp_name p) item (sp_sequence p) in
  let '(ms', o) := ObserverSet_notify ms (sp_observers p) stream_item in
  (ms', mkProducer (sp_name p) o (u64_add (sp_sequence p) 1)).

Definition StreamProducer_consumer_count (p : StreamProducer) : nat := ObserverSet_len (sp_observers p).

(** A producer with its consumers: their mailboxes, what each has taken out of its mailbox, and
    all items sent so far. *)
Record StreamWorld := mkStreamWorld {
  sw_producer : StreamProducer; sw_boxes : Boxes;
  sw_received : gmap Sender (list StreamItem); sw_sent : list T }.

Definition subscribed (w : StreamWorld) : list Sender :=
  sub_sender <$> subscribers (sp_observers (sw_producer w)).
Definition received (w : StreamWorld) (s : Sender) : list StreamItem := default [] (sw_received w !! s).
Definition box_queue (w : StreamWorld) (s : Sender) : list StreamItem :=
  match sw_boxes w !! s with Some m => mb_queue m | None => [] end.

(** The producer's and the consumers' steps, in any order. *)
Inductive stream_step : StreamWorld → StreamWorld → Prop :=
| st_send p ms rec sent item ms' p' :
    sp_sequence p + 1 < u64_mod → StreamProducer_send ms p item = (ms', p') →
    stream_step (mkStreamWorld p ms rec sent) (mkStreamWorld p' ms' rec (sent ++ [item]))
| st_subscribe p ms rec sent s :
    s ∉ sub_sender <$> subscribers (sp_observers p) →
    stream_step (mkStreamWorld p ms rec sent)
      (mkStreamWorld (StreamProducer_subscribe p s).1 ms rec sent)
| st_unsubscribe p ms rec sent id :
    stream_step (mkStreamWorld p ms rec sent)
      (mkStreamWorld (StreamProducer_unsubscribe p id).1 ms rec sent)
| st_open p ms rec sent s capacity :
    ms !! s = None → rec !! s = None →
    stream_step (mkStreamWorld p ms rec sent)
      (mkStreamWorld p (<[s := mkMbox false [] capacity]> ms) rec sent)
| st_receive p ms rec sent s c x q capacity :
    ms !! s = Some (mkMbox c (x :: q) capacity) →
    stream_step (mkStreamWorld p ms rec sent)
      (mkStreamWorld p (<[s := mkMbox c q capacity]> ms)
         (<[s := default [] (rec !! s) ++ [x]]> rec) sent)
| st_close p ms rec sent s m :
    ms !! s = Some m →
    stream_step (mkStreamWorld p ms rec sent)
      (mkStreamWorld p (<[s := mkMbox true (mb_queue m) (mb_capacity m)]> ms) rec sent).

(** Items in the order of their numbers, each the item sent under its number. *)
Definition in_order (name : string) (sent : list T) (l : list StreamItem) : Prop :=
  StronglySorted (λ x y, si_sequence x < si_sequence y) l ∧
  Forall (λ x, si_stream_name x = name ∧ 0 ≤ si_sequence x ∧
               sent !! Z.to_nat (si_sequence x) = Some (si_item x)) l.

Definition stream_inv (name : string) (w : StreamWorld) : Prop :=
  sp_name (sw_producer w) = name ∧
  sp_sequence (sw_producer w) = Z.of_nat (length (sw_sent w)) ∧
  NoDup (subscribed w) ∧
  ∀ s, in_order name (sw_sent w) (received w s ++ box_queue w s).

Lemma in_order_weaken name sent item l : in_order name sent l → in_order name (sent ++ [item]) l.
Proof.
  intros [Hs Hf]. split; [done|]. eapply Forall_impl; [exact Hf|]. intros x (? & ? & Hx).
  split_and!; [done..|]. by apply lookup_app_l_Some.
Qed.

Lemma in_order_snoc name sent item l :
  in_order name sent l →
  in_order name (sent ++ [item]) (l ++ [mkItem name item (Z.of_nat (length sent))]).
Proof.
  intros Hl. split.
  - destruct Hl as [Hs Hf]. induction Hs as [|x l Hs IH Hall]; [repeat constructor|].
    apply Forall_cons in Hf as [(Hn & H0 & Hx) Hf]. cbn. constructor; [by apply IH|].
    apply Forall_app. split; [done|]. apply Forall_singleton. cbn.
    apply lookup_lt_Some in Hx. lia.
  - apply Forall_app. split; [apply (in_order_weaken _ _ item) in Hl as [_ Hf]; exact Hf|].
    apply Forall_singleton. cbn. split_and!; [done|lia|]. rewrite Nat2Z.id.
    by rewrite lookup_app_r, Nat.sub_diag by lia.
Qed.

Lemma in_order_prefix name sent l l' : in_order name sent (l ++ l') → in_order name sent l.
Proof.
  intros [Hs Hf]. apply Forall_app in Hf as [Hf _]. split; [|done].
  induction l as [|x l IH]; [constructor|]. cbn in Hs. apply StronglySorted_inv in Hs as [Hs Hall].
  apply Forall_cons in Hf as [_ Hf]. apply Forall_app in Hall as [Hall _]. constructor; auto.
Qed.

Lemma subscriptions_of_le s (subs : list Subscriber) :
  NoDup (sub_sender <$> subs) → (subscriptions_of s subs ≤ 1)%nat.
Proof.
  unfold subscriptions_of. induction subs as [|x l IH]; cbn [fmap list_fmap]; [cbn; lia|].
  intros [Hx Hnd]%NoDup_cons. rewrite filter_cons. case_decide as E; [|by apply IH].
  assert (filter (λ x, sub_sender x = s) l = []) as ->; [|cbn; lia].
  apply elem_of_nil_inv. intros y [Hy Hin]%list_elem_of_filter. apply Hx. rewrite E, <- Hy.
  by apply list_elem_of_fmap_2.
Qed.

Lemma senders_filter (P : Subscriber → Prop) `{∀ s, Decision (P s)} (subs : list Subscriber) :
  NoDup (sub_sender <$> subs) → NoDup (sub_sender <$> filter P subs).
Proof.
  induction subs as [|x l IH]; [done|]. rewrite fmap_cons, filter_cons. intros [Hx Hnd]%NoDup_cons.
  case_decide; [|by apply IH]. cbn. apply NoDup_cons. split; [|by apply IH].
  intros (y & E & [_ Hy]%list_elem_of_filter)%list_elem_of_fmap. apply Hx. rewrite E.
  by apply list_elem_of_fmap_2.
Qed.

Lemma stream_inv_send name p ms rec sent item ms' p' :
  sp_sequence p + 1 < u64_mod → StreamProducer_send ms p item = (ms', p') →
  stream_inv name (mkStreamWorld p ms rec sent) →
  stream_inv name (mkStreamWorld p' ms' rec (sent ++ [item])).
Proof.
  intros Hlt Hsend (Hn & Hq & Hnd & Ho). unfold StreamProducer_send, ObserverSet_notify in Hsend.
  pose proof (notify_loop_spec ms (subscribers (sp_observers p))
    (mkItem (sp_name p) item (sp_sequence p))) as Hs.
  destruct (notify_loop _ _ _) as [ms1 kept]. destruct Hs as [-> Hq']. injection Hsend as <- <-.
  unfold subscribed in *. cbn in *.
  split_and!; cbn; [done| |by apply senders_filter|].
  - rewrite u64_add_small by (unfold is_u64; lia). rewrite length_app. cbn. lia.
  - intros s. specialize (Ho s). unfold received, box_queue in *. cbn in *. rewrite Hq'.
    destruct (ms !! s) as [m|]; cbn; [|by apply in_order_weaken].
    pose proof (subscriptions_of_le s _ Hnd) as Hone. unfold queued.
    destruct (mb_closed m); cbn; [by apply in_order_weaken|].
    destruct (_ `min` _)%nat as [|[|]] eqn:E; [|  |lia].
    + cbn. rewrite app_nil_r. by apply in_order_weaken.
    + cbn. rewrite app_assoc, Hn, Hq. by apply in_order_snoc.
Qed.

Lemma stream_inv_step name w w' : stream_step w w' → stream_inv name w → stream_inv name w'.
Proof.
  destruct 1 as [p ms rec sent item ms' p' Hlt Hsend|p ms rec sent s Hs|p ms rec sent id
    |p ms rec sent s cap Hs Hr|p ms rec sent s c x q cap Hs|p ms rec sent s m Hs]; intros Hi.
  - by eapply stream_inv_send.
  - destruct Hi as (Hn & Hq & Hnd & Ho). split_and!; [done..| |done]. cbn. rewrite fmap_app.
    apply NoDup_app. split_and!; [done| |apply NoDup_singleton].
    intros y Hy ->%list_elem_of_singleton. done.
  - destruct Hi as (Hn & Hq & Hnd & Ho). split_and!; [done..| |done]. by apply senders_filter.
  - destruct Hi as (Hn & Hq & Hnd & Ho). split_and!; [done..|]. intros s'. specialize (Ho s').
    unfold received, box_queue in *. cbn in *. rewrite lookup_insert. case_decide; [subst|done].
    by rewrite Hr, Hs in *.
  - destruct Hi as (Hn & Hq & Hnd & Ho). split_and!; [done..|]. intros s'. specialize (Ho s').
    unfold received, box_queue in *. cbn in *. rewrite !lookup_insert. case_decide; [subst|done].
    rewrite Hs in Ho. cbn in *. by rewrite <- app_assoc.
  - destruct Hi as (Hn & Hq & Hnd & Ho). split_and!; [done..|]. intros s'. specialize (Ho s').
    unfold received, box_queue in *. cbn in *. rewrite lookup_insert. case_decide; [subst|done].
    by rewrite Hs in Ho.
Qed.

Lemma stream_inv_reachable name w w' : rtc stream_step w w' → stream_inv name w → stream_inv name w'.
Proof. induction 1; eauto using stream_inv_step. Qed.

(** A fresh stream. *)
Definition stream_start (name : string) : StreamWorld :=
  mkStreamWorld (StreamProducer_new name) ∅ ∅ [].

Lemma stream_inv_start name : stream_inv name (stream_start name).
Proof.
  split_and!; [done..|constructor|]. intros s. unfold received, box_queue. cbn.
  rewrite !lookup_empty. split; constructor.
Qed.
End streams.
Arguments StreamItem : clear implicits.
Arguments StreamWorld : clear implicits.

(** Streams deliver in order: whatever the interleaving of sends, subscriptions,
    consumption and closing, every consumer takes items with strictly increasing sequence
    numbers out of its mailbox, each the item that was sent under that number; items can
    only be missing (full mailbox, or not subscribed), never repeated, reordered or altered. *)
Theorem stream_in_order {T} name (w : StreamWorld T) s :
  rtc stream_step (stream_start name) w →
  in_order name (sw_sent w) (received w s) ∧
  sp_sequence (sw_producer w) = Z.of_nat (length (sw_sent w)).
Proof.
  intros Hw. destruct (stream_inv_reachable name _ _ Hw (stream_inv_start name)) as (_ & Hq & _ & Ho).
  split; [|done]. by apply (in_order_prefix _ _ _ (box_queue w s)).
Qed.

(** A consumer with room for one item: the second item is dropped. *)
Definition demo_p1 : StreamProducer := (StreamProducer_subscribe (StreamProducer_new "prices") 0%nat).1.
Definition demo_s1 := StreamProducer_send {[0%nat := mkMbox false [] 1]} demo_p1 10.
Definition demo_s2 := StreamProducer_send demo_s1.1 demo_s1.2 20.
Definition no_items : gmap Sender (list (StreamItem Z)) := ∅.
Definition stream_end : StreamWorld Z :=
  mkStreamWorld demo_s2.2 (<[0%nat := mkMbox false [] 1]> demo_s2.1)
    (<[0%nat := default [] (no_items !! 0%nat) ++ [mkItem "prices" 10 0]]> no_items) [10; 20].

Lemma stream_in_order_witness :
  in_order "prices" [10; 20] [mkItem "prices" 10 0] ∧
  sp_sequence (sw_producer stream_end) = 2.
Proof.
  assert (rtc stream_step (stream_start "prices") stream_end) as Hr.
  { eapply rtc_l; [apply (st_open _ _ _ _ 0%nat 1); reflexivity|].
    eapply rtc_l; [apply (st_subscribe _ _ _ _ 0%nat); apply not_elem_of_nil|].
    eapply rtc_l; [apply (st_send _ _ _ _ 10 demo_s1.1 demo_s1.2); reflexivity|].
    eapply rtc_l; [apply (st_send _ _ _ _ 20 demo_s2.1 demo_s2.2); reflexivity|].
    apply rtc_once. apply (st_receive demo_s2.2 demo_s2.1 no_items [10; 20] 0%nat false
      (mkItem "prices" 10 0) [] 1). reflexivity. }
  pose proof (stream_in_order "prices" stream_end 0%nat Hr) as [H Hq].
  split; [exact H|exact Hq].
Defined.

(** ** Extensions

    A map from types to values of those types.  [TypeId] are the type tags and [El] what a
    tag stands for; a stored value is a [dyn Any], a tag with a value of its type.  Handles are
    shared by clones: a handle is a location in the heap of maps. *)
Section extensions.
Context {TypeId : Type} `{Countable TypeId} (El : TypeId → Type).

Definition Any : Type := sigT El.
Abbreviation TypeMap := (gmap TypeId Any).
Abbreviation ExtHeap := (gmap nat TypeMap).
Implicit Types (h : ExtHeap) (l : nat).

(** [downcast]: by comparing the tags. *)
Definition downcast (t : TypeId) (a : Any) : option (El t) :=
  match decide (projT1 a = t) with
  | left e => Some (eq_rect _ El (projT2 a) _ e)
  | right _ => None
  end.

Definition ext_map h l : TypeMap := default ∅ (h !! l).

Definition Extensions_new h : ExtHeap * nat :=
  let l := fresh (dom h) in (<[l := ∅]> h, l).
Definition Extensions_clone l : nat := l.

Definition Extensions_insert h l (t : TypeId) (v : El t) : ExtHeap :=
  <[l := <[t := existT t v]> (ext_map h l)]> h.

Definition Extensions_get h l (t : TypeId) : option (El t) := ext_map h l !! t ≫= downcast t.

Definition Extensions_contains h l (t : TypeId) : bool := bool_decide (is_Some (ext_map h l !! t)).

Definition Extensions_remove h l (t : TypeId) : ExtHeap * option (El t) :=
  (<[l := delete t (ext_map h l)]> h, ext_map h l !! t ≫= downcast t).

(** Every value is stored under its own tag. *)
Definition typed h : Prop := ∀ l, map_Forall (λ t a, projT1 a = t) (ext_map h l).

Lemma downcast_same t (v : El t) : downcast t (existT t v) = Some v.
Proof.
  unfold downcast. destruct (decide _) as [e|]; [|done]. f_equal. cbn in *.
  by rewrite (proof_irrel e eq_refl).
Qed.

Lemma ext_map_insert h l m l' : ext_map (<[l := m]> h) l' = if decide (l = l') then m else ext_map h l'.
Proof. unfold ext_map. rewrite lookup_insert. by case_decide. Qed.

Lemma typed_update h l m :
  typed h → map_Forall (λ t a, projT1 a = t) m → typed (<[l := m]> h).
Proof. intros Hh Hm l'. rewrite ext_map_insert. case_decide; [done|apply Hh]. Qed.
End extensions.

(** C36: type safety of extensions: every operation keeps each value under the tag of its
    type, so that a present extension always downcasts ([get] answers [Some] exactly when
    [contains] does), [get] returns the value last inserted through any clone of the
    handle, and inserting or removing one type does not touch another. *)
Theorem extensions_type_safe {TypeId} `{Countable TypeId} (El : TypeId → Type)
  (h : gmap nat (gmap TypeId (Any El))) l t (v : El t) :
  typed El h →
  typed El (Extensions_insert El h l t v) ∧ typed El (Extensions_remove El h l t).1 ∧
  (∀ u, Extensions_contains El h l u = true ↔ is_Some (Extensions_get El h l u)) ∧
  Extensions_get El (Extensions_insert El h l t v) (Extensions_clone l) t = Some v ∧
  Extensions_get El (Extensions_remove El h l t).1 (Extensions_clone l) t = None ∧
  (∀ u, u ≠ t → Extensions_get El (Extensions_insert El h l t v) l u = Extensions_get El h l u ∧
                Extensions_get El (Extensions_remove El h l t).1 l u = Extensions_get El h l u).
Proof.
  intros Hh. unfold Extensions_clone, Extensions_get, Extensions_insert, Extensions_remove. cbn.
  split_and!.
  - apply typed_update; [done|]. by apply map_Forall_insert_2.
  - apply typed_update; [done|]. by apply map_Forall_delete.
  - intros u. unfold Extensions_contains. rewrite bool_decide_eq_true.
    destruct (ext_map El h l !! u) as [[u' a]|] eqn:E; cbn.
    + pose proof (Hh l u _ E) as Hu. cbn in Hu. subst u'. rewrite downcast_same. by split; eauto.
    + by split; intros [].
  - rewrite ext_map_insert, decide_True by done. rewrite lookup_insert_eq. cbn. apply downcast_same.
  - rewrite ext_map_insert, decide_True by done. by rewrite lookup_delete_eq.
  - intros u Hu. rewrite !ext_map_insert, !decide_True by done.
    by rewrite lookup_insert_ne, lookup_delete_ne by done.
Qed.

Lemma extensions_type_safe_witness :
  let El := λ b : bool, if b then Z else string in
  let h := Extensions_insert El ∅ 0 true 42 in
  Extensions_get El (Extensions_insert El h 0 false "tag") 0 true = Some 42 ∧
  Extensions_get El (Extensions_insert El h 0 false "tag") 0 false = Some "tag".
Proof.
  intros El h. assert (typed El h) as Hh.
  { apply typed_update; [|apply map_Forall_insert_2; [reflexivity|]];
      [intros l|]; unfold ext_map; rewrite lookup_empty; apply map_Forall_empty. }
  destruct (extensions_type_safe El h 0 false "tag" Hh) as (_ & _ & _ & Hg & _ & Ho).
  split; [|exact Hg]. destruct (Ho true ltac:(discriminate)) as [-> _]. vm_compute. reflexivity.
Defined.
