(* ===== verification/Directory.v ===== *)
(** The grain directory of [orlando-runtime] ([directory.rs], [activation.rs],
    [worker_pool.rs]): activate-on-miss, the activation limit, draining, worker
    pools and the [activations_active] gauge.

    A channel, the mailbox task that owns its receiver and the task's cancellation
    token are created together; each is a number taken from [rt_fresh].  A channel is
    open while its number is in [rt_open] (its receiver is alive). *)
From S2P Require Import Prelude CoreTypes Mailbox.

(** * State *)
Record Activation := mkActivation {
  act_grain_id : GrainId;
  act_sender : Sender;
  act_task : JoinHandle;
  act_cancellation : nat }.

Record WorkerPool := mkPool {
  pool_grain_id : GrainId;
  pool_senders : list Sender;
  pool_tasks : list JoinHandle }.

Record GrainDirectory := mkDirectory {
  activations : gmap GrainId Activation;
  worker_pools : gmap GrainId WorkerPool;
  draining : bool;
  max_activations : Z }.

(** A message in a mailbox, type-erased: the name of its type, the values of its request context
    and its value (as the code of a countable type). *)
Record Delivery := mkDelivery {
  dl_message : string;
  dl_context : gmap string string;
  dl_value : positive }.

(** The directory together with the channels, tokens, tasks and metrics it acts on; [rt_inbox]
    holds what each channel has accepted, oldest first. *)
Record Runtime := mkRuntime {
  rt_dir : GrainDirectory;
  rt_open : gset Sender;
  rt_cancelled : gset nat;
  rt_aborted : gset JoinHandle;
  rt_gauge : gmap string Z;
  rt_inbox : gmap Sender (list Delivery);
  rt_fresh : nat }.

(** [Sender::is_closed] *)
Definition is_closed (w : Runtime) (s : Sender) : bool := bool_decide (s ∉ rt_open w).

(** What the mailbox behind [s] has been sent, and one more message enqueued. *)
Definition inbox (w : Runtime) (s : Sender) : list Delivery := default [] (rt_inbox w !! s).
Definition enqueue (w : Runtime) (s : Sender) (d : Delivery) : Runtime :=
  mkRuntime (rt_dir w) (rt_open w) (rt_cancelled w) (rt_aborted w) (rt_gauge w)
    (<[s := inbox w s ++ [d]]> (rt_inbox w)) (rt_fresh w).

Definition with_dir (w : Runtime) (d : GrainDirectory) : Runtime :=
  mkRuntime d (rt_open w) (rt_cancelled w) (rt_aborted w) (rt_gauge w) (rt_inbox w) (rt_fresh w).

Definition with_activations (w : Runtime) (a : gmap GrainId Activation) : Runtime :=
  with_dir w (mkDirectory a (worker_pools (rt_dir w)) (draining (rt_dir w))
                (max_activations (rt_dir w))).

Definition with_pools (w : Runtime) (p : gmap GrainId WorkerPool) : Runtime :=
  with_dir w (mkDirectory (activations (rt_dir w)) p (draining (rt_dir w))
                (max_activations (rt_dir w))).

(** [metrics::gauge!("orlando.grain.activations_active", "grain_type" => t)] moved by [z]. *)
Definition gauge_of (w : Runtime) (t : string) : Z := default 0 (rt_gauge w !! t).
Definition gauge_add (w : Runtime) (t : string) (z : Z) : Runtime :=
  mkRuntime (rt_dir w) (rt_open w) (rt_cancelled w) (rt_aborted w)
    (<[t := gauge_of w t + z]> (rt_gauge w)) (rt_inbox w) (rt_fresh w).

(** An [ActivationFactory]: a channel with a spawned mailbox holding its receiver. *)
Definition create_channel (w : Runtime) : Runtime * Sender :=
  (mkRuntime (rt_dir w) ({[rt_fresh w]} ∪ rt_open w) (rt_cancelled w) (rt_aborted w)
     (rt_gauge w) (rt_inbox w) (S (rt_fresh w)), rt_fresh w).

(** [let (tx, rx) = mpsc::channel(1); drop(rx); tx] *)
Definition closed_channel (w : Runtime) : Runtime * Sender :=
  (mkRuntime (rt_dir w) (rt_open w) (rt_cancelled w) (rt_aborted w)
     (rt_gauge w) (rt_inbox w) (S (rt_fresh w)), rt_fresh w).

Definition activation_of (g : GrainId) (n : nat) : Activation := mkActivation g n n n.

(** * Operations *)
Definition GrainDirectory_new : GrainDirectory := mkDirectory ∅ ∅ false 0.
Definition Runtime_new : Runtime := mkRuntime GrainDirectory_new ∅ ∅ ∅ ∅ ∅ 0.

Definition GrainDirectory_set_max_activations (w : Runtime) (limit : Z) : Runtime :=
  with_dir w (mkDirectory (activations (rt_dir w)) (worker_pools (rt_dir w))
                (draining (rt_dir w)) limit).

Definition GrainDirectory_activation_count (w : Runtime) : nat := size (activations (rt_dir w)).

(** The inherent [GrainDirectory::remove]. *)
Definition GrainDirectory_remove (w : Runtime) (id : GrainId) : Runtime * option Activation :=
  match activations (rt_dir w) !! id with
  | Some a =>
      (gauge_add (with_activations w (delete id (activations (rt_dir w)))) (type_name id) (-1),
       Some a)
  | None => (w, None)
  end.

Definition GrainDirectory_get_sender (w : Runtime) (id : GrainId) : option Sender :=
  act_sender <$> activations (rt_dir w) !! id.

(** [<GrainDirectory as GrainActivator>::register]; the token is a fresh one. *)
Definition GrainDirectory_register (w : Runtime) (id : GrainId) (s : Sender) (t : JoinHandle)
    : Runtime :=
  let a := mkActivation id s t (rt_fresh w) in
  let w := mkRuntime (rt_dir w) (rt_open w) (rt_cancelled w) (rt_aborted w) (rt_gauge w)
             (rt_inbox w) (S (rt_fresh w)) in
  with_activations w (<[id := a]> (activations (rt_dir w))).

(** [<GrainDirectory as GrainActivator>::remove] *)
Definition GrainDirectory_activator_remove (w : Runtime) (id : GrainId) : Runtime :=
  let w := (GrainDirectory_remove w id).1 in
  match worker_pools (rt_dir w) !! id with
  | Some pool =>
      if forallb (is_closed w) (pool_senders pool)
      then with_pools w (delete id (worker_pools (rt_dir w)))
      else w
  | None => w
  end.

(** [GrainDirectory::grain_ids] *)
Definition GrainDirectory_grain_ids (w : Runtime) : list GrainId :=
  elements (dom (activations (rt_dir w)) ∪ dom (worker_pools (rt_dir w))).

(** The sender of an existing entry, if its channel is open. *)
Definition live_sender (w : Runtime) (id : GrainId) : option Sender :=
  match GrainDirectory_get_sender w id with
  | Some s => if is_closed w s then None else Some s
  | None => None
  end.

(** [GrainDirectory::get_or_insert] *)
Definition GrainDirectory_get_or_insert (w : Runtime) (id : GrainId) : Runtime * Sender :=
  if draining (rt_dir w) then
    match live_sender w id with
    | Some sender => (w, sender)
    | None => closed_channel w
    end
  else
    let max := max_activations (rt_dir w) in
    if bool_decide (0 < max) && bool_decide (max ≤ Z.of_nat (GrainDirectory_activation_count w)) then
      match live_sender w id with
      | Some sender => (w, sender)
      | None => closed_channel w
      end
    else
      match activations (rt_dir w) !! id with
      | Some e =>
          if is_closed w (act_sender e) then
            let '(w, sender) := create_channel w in
            (with_activations w (<[id := activation_of id sender]> (activations (rt_dir w))),
             sender)
          else (w, act_sender e)
      | None =>
          let '(w, sender) := create_channel w in
          let w := gauge_add w (type_name id) 1 in
          (with_activations w (<[id := activation_of id sender]> (activations (rt_dir w))), sender)
      end.

(** The creation loop of [get_or_insert_pool]. *)
Fixpoint create_pool (w : Runtime) (n : nat) : Runtime * list Sender :=
  match n with
  | O => (w, [])
  | S n' =>
      let '(w, s) := create_channel w in
      let '(w, ss) := create_pool w n' in (w, s :: ss)
  end.

(** [GrainDirectory::get_or_insert_pool] *)
Definition GrainDirectory_get_or_insert_pool (w : Runtime) (id : GrainId) (pool_size : nat)
    : Runtime * list Sender :=
  match worker_pools (rt_dir w) !! id with
  | Some pool =>
      if existsb (λ s, negb (is_closed w s)) (pool_senders pool) then (w, pool_senders pool)
      else
        let '(w, ss) := create_pool w pool_size in
        (with_pools w (<[id := mkPool id ss ss]> (worker_pools (rt_dir w))), ss)
  | None =>
      let '(w, ss) := create_pool w pool_size in
      (with_pools w (<[id := mkPool id ss ss]> (worker_pools (rt_dir w))), ss)
  end.

(** [drain]: the first pass, [entry.value().cancellation.cancel()] for every entry. *)
Definition cancel_all (w : Runtime) : Runtime :=
  mkRuntime (rt_dir w) (rt_open w)
    (list_to_set ((act_cancellation ∘ snd) <$> map_to_list (activations (rt_dir w)))
     ∪ rt_cancelled w)
    (rt_aborted w) (rt_gauge w) (rt_inbox w) (rt_fresh w).

(** [drain]: take every entry out, keeping the tasks to wait for. *)
Fixpoint drain_remove (w : Runtime) (keys : list GrainId) : Runtime * list JoinHandle :=
  match keys with
  | [] => (w, [])
  | k :: keys' =>
      match GrainDirectory_remove w k with
      | (w, Some a) => let '(w, ts) := drain_remove w keys' in (w, act_task a :: ts)
      | (w, None) => drain_remove w keys'
      end
  end.

(** A task is over: it finished, or was aborted; its receiver is dropped. *)
Definition end_task (abort : bool) (w : Runtime) (t : JoinHandle) : Runtime :=
  mkRuntime (rt_dir w) (rt_open w ∖ {[t]}) (rt_cancelled w)
    (if abort then {[t]} ∪ rt_aborted w else rt_aborted w) (rt_gauge w) (rt_inbox w) (rt_fresh w).

(** [GrainDirectory::drain]; [finishes t] says whether task [t] ends by itself within the
    grace period. *)
Definition GrainDirectory_drain (finishes : JoinHandle → bool) (w : Runtime) : Runtime :=
  let w := with_dir w (mkDirectory (activations (rt_dir w)) (worker_pools (rt_dir w)) true
                         (max_activations (rt_dir w))) in
  let w := cancel_all w in
  let '(w, tasks) := drain_remove w (fst <$> map_to_list (activations (rt_dir w))) in
  let w := foldl (λ w t, end_task (negb (finishes t)) w t) w tasks in
  let pool_tasks := map_to_list (worker_pools (rt_dir w)) ≫= (pool_tasks ∘ snd) in
  let w := with_pools w ∅ in
  foldl (end_task true) w pool_tasks.

(** * The directory implements the activator interface *)
#[global] Instance Runtime_activator : GrainActivator Runtime := {|
  ga_get_sender := GrainDirectory_get_sender;
  ga_register := GrainDirectory_register;
  ga_remove := GrainDirectory_activator_remove |}.

Lemma remove_activations w id :
  activations (rt_dir (GrainDirectory_remove w id).1) = delete id (activations (rt_dir w)).
Proof.
  unfold GrainDirectory_remove. destruct (_ !! id) eqn:E; cbn; [done|]. by rewrite delete_id.
Qed.

Lemma activator_remove_activations w id :
  activations (rt_dir (GrainDirectory_activator_remove w id)) = delete id (activations (rt_dir w)).
Proof.
  unfold GrainDirectory_activator_remove. rewrite <- remove_activations.
  repeat case_match; done.
Qed.

#[global] Instance Runtime_activator_laws : GrainActivatorLaws Runtime.
Proof.
  split; cbn; unfold GrainDirectory_get_sender; intros.
  - by rewrite activator_remove_activations, lookup_delete_eq.
  - by rewrite activator_remove_activations, lookup_delete_ne.
  - cbn. by rewrite lookup_insert_eq.
Qed.

(** * Invariants *)

(** How many activations there are of a grain type. *)
Definition count_type (t : string) (m : gmap GrainId Activation) : Z :=
  Z.of_nat (size (filter (λ p, type_name p.1 = t) m)).

Lemma count_type_insert_fresh t m id a :
  m !! id = None →
  count_type t (<[id := a]> m) = count_type t m + (if decide (type_name id = t) then 1 else 0).
Proof.
  intros Hm. unfold count_type. case_decide as Ht.
  - rewrite map_filter_insert_True by done. rewrite map_size_insert_None; [lia|].
    apply map_lookup_filter_None. naive_solver.
  - rewrite map_filter_insert_False by done. rewrite delete_id by done. lia.
Qed.

Lemma count_type_insert_over t m id a b :
  m !! id = Some b → count_type t (<[id := a]> m) = count_type t m.
Proof.
  intros Hm. rewrite <- (insert_id m id b) at 2 by done.
  rewrite <- (insert_delete_eq m id a), <- (insert_delete_eq m id b).
  by rewrite !count_type_insert_fresh by apply lookup_delete_eq.
Qed.

Lemma count_type_delete t m id b :
  m !! id = Some b →
  count_type t (delete id m) = count_type t m - (if decide (type_name id = t) then 1 else 0).
Proof.
  intros Hm. rewrite <- (insert_id m id b) at 2 by done.
  rewrite <- (insert_delete_eq m id b).
  rewrite count_type_insert_fresh by apply lookup_delete_eq. case_decide; lia.
Qed.

Record directory_inv (w : Runtime) : Prop := {
  di_ids : ∀ g a, activations (rt_dir w) !! g = Some a → act_grain_id a = g;
  di_senders : ∀ g g' a a', activations (rt_dir w) !! g = Some a →
    activations (rt_dir w) !! g' = Some a' → act_sender a = act_sender a' → g = g';
  di_fresh : ∀ g a, activations (rt_dir w) !! g = Some a → (act_sender a < rt_fresh w)%nat;
  di_open : ∀ s, s ∈ rt_open w → (s < rt_fresh w)%nat;
  di_gauge : ∀ t, gauge_of w t = count_type t (activations (rt_dir w)) }.

Lemma gauge_of_add w t t' z :
  gauge_of (gauge_add w t z) t' = gauge_of w t' + (if decide (t = t') then z else 0).
Proof.
  unfold gauge_of at 1, gauge_add. cbn. rewrite lookup_insert. case_decide; simplify_eq/=; [done|].
  unfold gauge_of. lia.
Qed.

Lemma directory_inv_new : directory_inv Runtime_new.
Proof.
  split; cbn; try (intros *; rewrite lookup_empty; done); set_solver.
Qed.

Lemma directory_inv_remove w id :
  directory_inv w → directory_inv (GrainDirectory_remove w id).1.
Proof.
  intros [H1 H2 H3 H4 H5]. unfold GrainDirectory_remove. destruct (_ !! id) as [b|] eqn:E; [|done].
  split; cbn.
  - intros g a [_ ?]%lookup_delete_Some. eauto.
  - intros g g' a a' [_ ?]%lookup_delete_Some [_ ?]%lookup_delete_Some. eauto.
  - intros g a [_ ?]%lookup_delete_Some. eauto.
  - done.
  - intros t. rewrite gauge_of_add. cbn. rewrite (count_type_delete _ _ _ _ E).
    change (gauge_of (with_activations w (delete id (activations (rt_dir w)))) t) with (gauge_of w t).
    rewrite H5. case_decide; lia.
Qed.

(** An update that leaves the activations alone, only adding fresh names. *)
Lemma directory_inv_frame w w' :
  activations (rt_dir w') = activations (rt_dir w) → rt_gauge w' = rt_gauge w →
  (rt_fresh w ≤ rt_fresh w')%nat → (∀ s, s ∈ rt_open w' → (s < rt_fresh w')%nat) →
  directory_inv w → directory_inv w'.
Proof.
  intros Ha Hg Hf Ho [H1 H2 H3 H4 H5]. split; rewrite ?Ha; eauto.
  - intros g a Hga. specialize (H3 _ _ Hga). lia.
  - intros t. unfold gauge_of. rewrite Hg. apply H5.
Qed.

Lemma directory_inv_activator_remove w id :
  directory_inv w → directory_inv (GrainDirectory_activator_remove w id).
Proof.
  intros Hw%(directory_inv_remove w id). unfold GrainDirectory_activator_remove.
  repeat case_match; try done. eapply directory_inv_frame; [..|exact Hw]; try done. apply Hw.
Qed.

(** Registering a freshly created channel for [id]. *)
Lemma directory_inv_fresh_activation w w' id :
  directory_inv w →
  activations (rt_dir w') = <[id := activation_of id (rt_fresh w)]> (activations (rt_dir w)) →
  rt_fresh w' = S (rt_fresh w) → rt_open w' = {[rt_fresh w]} ∪ rt_open w →
  (∀ t, gauge_of w' t = count_type t (activations (rt_dir w'))) →
  directory_inv w'.
Proof.
  intros [H1 H2 H3 H4 H5] Ha Hf Ho Hg. split; [..|exact Hg]; rewrite ?Ha.
  - intros g a [[<- <-]|[_ ?]]%lookup_insert_Some; eauto.
  - intros g g' a a' [[<- <-]|[? Hga]]%lookup_insert_Some [[<- <-]|[? Hga']]%lookup_insert_Some;
      cbn; intros Heq; eauto.
    + specialize (H3 _ _ Hga'). lia.
    + specialize (H3 _ _ Hga). lia.
  - intros g a [[<- <-]|[_ Hga]]%lookup_insert_Some; rewrite Hf; cbn; [lia|].
    specialize (H3 _ _ Hga). lia.
  - intros s. rewrite Ho, Hf. intros [->%elem_of_singleton|Hs]%elem_of_union; [lia|].
    specialize (H4 _ Hs). lia.
Qed.

Lemma directory_inv_closed_channel w : directory_inv w → directory_inv (closed_channel w).1.
Proof.
  intros Hw. eapply directory_inv_frame; [..|exact Hw]; cbn; try done; try lia.
  intros s Hs%Hw. lia.
Qed.

Lemma directory_inv_get_or_insert w id :
  directory_inv w → directory_inv (GrainDirectory_get_or_insert w id).1.
Proof.
  intros Hw. unfold GrainDirectory_get_or_insert.
  destruct (draining _); [destruct (live_sender w id); [done|by apply directory_inv_closed_channel]|].
  destruct (_ && _); [destruct (live_sender w id); [done|by apply directory_inv_closed_channel]|].
  destruct (activations (rt_dir w) !! id) as [e|] eqn:E.
  - destruct (is_closed w (act_sender e)); [|done].
    eapply (directory_inv_fresh_activation w _ id); [done..|]. intros t. cbn.
    erewrite count_type_insert_over by done. apply (di_gauge _ Hw).
  - eapply (directory_inv_fresh_activation w _ id); [done..|]. intros t. cbn.
    rewrite (count_type_insert_fresh _ _ _ _ E), <- (di_gauge _ Hw), <- gauge_of_add. done.
Qed.

Lemma create_pool_spec w n :
  let '(w', ss) := create_pool w n in
  rt_dir w' = rt_dir w ∧ rt_gauge w' = rt_gauge w ∧ rt_cancelled w' = rt_cancelled w ∧
  ss = seq (rt_fresh w) n ∧ rt_fresh w' = (rt_fresh w + n)%nat ∧
  rt_open w' = list_to_set ss ∪ rt_open w.
Proof.
  revert w. induction n as [|n IH]; intros w; cbn.
  - split_and!; try done; try lia; set_solver.
  - specialize (IH (create_channel w).1). cbn in IH.
    destruct (create_pool _ n) as [w' ss]. destruct IH as (-> & -> & -> & -> & -> & ->).
    cbn. split_and!; try done; try lia; set_solver.
Qed.

Lemma directory_inv_pool w id n :
  directory_inv w → directory_inv (GrainDirectory_get_or_insert_pool w id n).1.
Proof.
  intros Hw. unfold GrainDirectory_get_or_insert_pool.
  pose proof (create_pool_spec w n) as Hp. destruct (create_pool w n) as [w' ss].
  destruct Hp as (Hd & Hg & _ & -> & Hf & Ho).
  assert (∀ p, directory_inv (with_pools w' p)).
  { intros p. eapply directory_inv_frame; [cbn; by rewrite Hd|done|cbn; lia| |exact Hw].
    intros s. cbn. rewrite Ho, Hf. intros [Hs%elem_of_list_to_set%elem_of_seq|Hs%Hw]%elem_of_union; lia. }
  destruct (worker_pools (rt_dir w) !! id); [destruct (existsb _ _)|]; cbn; auto.
Qed.

Lemma directory_inv_end_task b w t : directory_inv w → directory_inv (end_task b w t).
Proof.
  intros Hw. eapply directory_inv_frame; [..|exact Hw]; cbn; try done.
  intros s [Hs%Hw _]%elem_of_difference. lia.
Qed.

Lemma drain_remove_activations w ks :
  activations (rt_dir (drain_remove w ks).1) =
  filter (λ p, p.1 ∉ ks) (activations (rt_dir w)).
Proof.
  revert w. induction ks as [|k ks IH]; intros w; cbn.
  - symmetry. apply map_filter_id. intros. by apply not_elem_of_nil.
  - pose proof (remove_activations w k) as Hr.
    assert (activations (rt_dir (drain_remove (GrainDirectory_remove w k).1 ks).1) =
            filter (λ p, p.1 ∉ k :: ks) (activations (rt_dir w))) as Hgoal.
    { rewrite IH, Hr, map_filter_delete. apply map_eq. intros g. apply option_eq. intros a.
      rewrite lookup_delete_Some, !map_lookup_filter_Some. cbn. rewrite not_elem_of_cons.
      naive_solver. }
    destruct (GrainDirectory_remove w k) as [w' [a|]]; cbn in *; [|done].
    by destruct (drain_remove w' ks).
Qed.

Lemma directory_inv_drain_remove w ks : directory_inv w → directory_inv (drain_remove w ks).1.
Proof.
  revert w. induction ks as [|k ks IH]; intros w Hw; cbn; [done|].
  pose proof (directory_inv_remove w k Hw) as Hr.
  destruct (GrainDirectory_remove w k) as [w' [a|]]; cbn in *; [|by apply IH].
  specialize (IH _ Hr). by destruct (drain_remove w' ks).
Qed.

Lemma directory_inv_drain f w : directory_inv w → directory_inv (GrainDirectory_drain f w).
Proof.
  intros Hw. unfold GrainDirectory_drain.
  set (w1 := cancel_all _).
  assert (directory_inv w1) as H1.
  { eapply directory_inv_frame; [..|exact Hw]; cbn; try done. apply Hw. }
  pose proof (directory_inv_drain_remove w1 (fst <$> map_to_list (activations (rt_dir w1))) H1) as H2.
  destruct (drain_remove w1 _) as [w2 ts]. cbn in *.
  assert (directory_inv (foldl (λ w t, end_task (negb (f t)) w t) w2 ts)) as H3.
  { clear -H2. revert w2 H2. induction ts; intros w2 H2; cbn; auto using directory_inv_end_task. }
  set (w3 := foldl _ w2 ts) in *.
  assert (directory_inv (with_pools w3 ∅)) as H4.
  { eapply directory_inv_frame; [..|exact H3]; cbn; try done. apply H3. }
  revert H4. generalize (with_pools w3 ∅). generalize (map_to_list (worker_pools (rt_dir w3)) ≫= (pool_tasks ∘ snd)).
  intros l. induction l as [|t l IH]; intros w4 H4; cbn; auto using directory_inv_end_task.
Qed.

Lemma directory_inv_enqueue w s d : directory_inv w → directory_inv (enqueue w s d).
Proof. intros Hw. eapply directory_inv_frame; [..|exact Hw]; try done. apply Hw. Qed.

(** One atomic operation on the directory, by any thread of the silo. *)
Inductive directory_step : Runtime → Runtime → Prop :=
| ds_get_or_insert w g : directory_step w (GrainDirectory_get_or_insert w g).1
| ds_pool w g n : directory_step w (GrainDirectory_get_or_insert_pool w g n).1
| ds_remove w g : directory_step w (GrainDirectory_remove w g).1
| ds_activator_remove w g : directory_step w (GrainDirectory_activator_remove w g)
| ds_limit w n : directory_step w (GrainDirectory_set_max_activations w n)
| ds_task_end w b t : directory_step w (end_task b w t)
| ds_enqueue w s d : directory_step w (enqueue w s d)
| ds_drain w f : directory_step w (GrainDirectory_drain f w).

Lemma directory_step_inv w w' : directory_step w w' → directory_inv w → directory_inv w'.
Proof.
  destruct 1; auto using directory_inv_get_or_insert, directory_inv_pool, directory_inv_remove,
    directory_inv_activator_remove, directory_inv_end_task, directory_inv_enqueue, directory_inv_drain.
  intros Hw. eapply directory_inv_frame; [..|exact Hw]; try done. apply Hw.
Qed.

(** C9: in every state the directory can reach by any interleaving of its operations
    (everything but the raw [register]), each entry is filed under its own grain id,
    no two grains share a mailbox, and the [activations_active] gauge of every grain
    type equals the number of its live entries. *)
Theorem directory_invariant w :
  rtc directory_step Runtime_new w →
  (∀ g a, activations (rt_dir w) !! g = Some a → act_grain_id a = g) ∧
  (∀ g g' s, GrainDirectory_get_sender w g = Some s → GrainDirectory_get_sender w g' = Some s →
     g = g') ∧
  (∀ t, gauge_of w t = count_type t (activations (rt_dir w))).
Proof.
  intros Hr. assert (directory_inv w) as [H1 H2 _ _ H5].
  { pose proof directory_inv_new as Hi. revert Hi.
    induction Hr; eauto using directory_step_inv. }
  split_and!; [done| |done].
  intros g g' s. unfold GrainDirectory_get_sender.
  intros (a & Ha & ->)%fmap_Some (a' & Ha' & Heq)%fmap_Some. eauto.
Qed.

Lemma directory_invariant_witness :
  gauge_of (GrainDirectory_get_or_insert Runtime_new test_id).1 "TestGrain" = 1.
Proof.
  rewrite (proj2 (proj2 (directory_invariant _ (rtc_once _ _ (ds_get_or_insert Runtime_new test_id))))).
  vm_compute. reflexivity.
Defined.

Lemma live_sender_Some w id s :
  live_sender w id = Some s ↔ GrainDirectory_get_sender w id = Some s ∧ s ∈ rt_open w.
Proof.
  unfold live_sender, is_closed. destruct (GrainDirectory_get_sender w id) as [s'|]; [|naive_solver].
  case_bool_decide; naive_solver.
Qed.

(** Only channels that exist have been sent anything. *)
Definition inbox_inv (w : Runtime) : Prop := ∀ s, is_Some (rt_inbox w !! s) → (s < rt_fresh w)%nat.

Lemma inbox_inv_fresh w : inbox_inv w → inbox w (rt_fresh w) = [].
Proof.
  intros Hw. unfold inbox. destruct (rt_inbox w !! rt_fresh w) eqn:E; [|done].
  assert (rt_fresh w < rt_fresh w)%nat; [apply Hw; by rewrite E|lia].
Qed.

Lemma get_or_insert_inbox w g :
  rt_inbox (GrainDirectory_get_or_insert w g).1 = rt_inbox w ∧
  (rt_fresh w ≤ rt_fresh (GrainDirectory_get_or_insert w g).1)%nat ∧
  draining (rt_dir (GrainDirectory_get_or_insert w g).1) = draining (rt_dir w) ∧
  max_activations (rt_dir (GrainDirectory_get_or_insert w g).1) = max_activations (rt_dir w).
Proof.
  unfold GrainDirectory_get_or_insert, create_channel, closed_channel.
  repeat case_match; simplify_eq/=; split_and!; done || lia.
Qed.

Lemma activator_remove_inbox w g :
  let w' := GrainDirectory_activator_remove w g in
  rt_inbox w' = rt_inbox w ∧ rt_fresh w' = rt_fresh w ∧ rt_open w' = rt_open w ∧
  draining (rt_dir w') = draining (rt_dir w) ∧ max_activations (rt_dir w') = max_activations (rt_dir w).
Proof.
  unfold GrainDirectory_activator_remove, GrainDirectory_remove.
  destruct (activations (rt_dir w) !! g); cbn; repeat case_match; done.
Qed.

(** The activation limit is in force and reached. *)
Definition at_limit (w : Runtime) : Prop :=
  0 < max_activations (rt_dir w) ≤ Z.of_nat (GrainDirectory_activation_count w).
#[global] Instance at_limit_dec w : Decision (at_limit w).
Proof. unfold at_limit. apply _. Defined.

Lemma at_limit_test w :
  bool_decide (0 < max_activations (rt_dir w)) &&
  bool_decide (max_activations (rt_dir w) ≤ Z.of_nat (GrainDirectory_activation_count w)) =
  bool_decide (at_limit w).
Proof. unfold at_limit. by rewrite <- bool_decide_and. Qed.

Lemma get_or_insert_live w g s :
  live_sender w g = Some s → GrainDirectory_get_or_insert w g = (w, s).
Proof.
  intros Hl. unfold GrainDirectory_get_or_insert. rewrite Hl.
  apply live_sender_Some in Hl as [(a & Ha & ->)%fmap_Some Ho]. rewrite Ha.
  assert (is_closed w (act_sender a) = false) as ->.
  { unfold is_closed. rewrite bool_decide_false; [done|]. intros Hn. by apply Hn. }
  rewrite at_limit_test. by destruct (draining _), (bool_decide (at_limit w)).
Qed.

Lemma get_or_insert_refused w g :
  live_sender w g = None → draining (rt_dir w) = true ∨ at_limit w →
  GrainDirectory_get_or_insert w g = closed_channel w.
Proof.
  intros Hl Hr. unfold GrainDirectory_get_or_insert. rewrite Hl, at_limit_test.
  destruct (draining _); [done|]. destruct Hr; [done|]. by rewrite bool_decide_true.
Qed.

Lemma get_or_insert_created w g :
  live_sender w g = None → draining (rt_dir w) = false → ¬ at_limit w →
  let '(w', s) := GrainDirectory_get_or_insert w g in
  s = rt_fresh w ∧ rt_open w' = {[s]} ∪ rt_open w ∧ rt_fresh w' = S (rt_fresh w) ∧
  activations (rt_dir w') = <[g := activation_of g s]> (activations (rt_dir w)).
Proof.
  intros Hl Hd Hn. unfold GrainDirectory_get_or_insert.
  rewrite at_limit_test, Hd, bool_decide_false by done.
  destruct (activations (rt_dir w) !! g) as [e|] eqn:E; [|done].
  destruct (is_closed w (act_sender e)) eqn:F; [done|].
  exfalso. unfold live_sender, GrainDirectory_get_sender in Hl. rewrite E in Hl. cbn in Hl.
  by rewrite F in Hl.
Qed.

(** [get_or_insert] on every branch: an open entry is returned as it is and nothing
    changes; otherwise, while draining or at the activation limit, the caller gets a
    closed channel and the directory is unchanged; otherwise exactly one fresh, open
    activation is filed under the grain id, and no other entry changes.  In
    particular an enforced limit is never exceeded. *)
Theorem get_or_insert_correct w g :
  let '(w', s) := GrainDirectory_get_or_insert w g in
  match live_sender w g with
  | Some s0 => w' = w ∧ s = s0
  | None =>
      if decide (draining (rt_dir w) = true ∨ at_limit w) then
        rt_dir w' = rt_dir w ∧ rt_open w' = rt_open w ∧ s = rt_fresh w
      else
        s = rt_fresh w ∧ rt_open w' = {[s]} ∪ rt_open w ∧
        GrainDirectory_get_sender w' g = Some s ∧
        (∀ g', g ≠ g' → GrainDirectory_get_sender w' g' = GrainDirectory_get_sender w g') ∧
        (0 < max_activations (rt_dir w) →
         Z.of_nat (GrainDirectory_activation_count w') ≤ max_activations (rt_dir w))
  end.
Proof.
  destruct (live_sender w g) as [s0|] eqn:L; [by rewrite (get_or_insert_live _ _ _ L)|].
  case_decide as Hd; [by rewrite get_or_insert_refused|].
  apply Decidable.not_or in Hd as [Hd%not_true_is_false Hl].
  pose proof (get_or_insert_created w g L Hd Hl) as Hc.
  destruct (GrainDirectory_get_or_insert w g) as [w' s]. destruct Hc as (-> & Ho & _ & Ha).
  unfold GrainDirectory_get_sender, GrainDirectory_activation_count. rewrite Ha.
  split_and!; [done|done|by rewrite lookup_insert_eq|intros; by rewrite lookup_insert_ne|].
  intros Hmax. unfold at_limit, GrainDirectory_activation_count in Hl.
  rewrite map_size_insert. destruct (_ !! g); cbn; lia.
Qed.

(** A sequence of [get_or_insert] calls by concurrent callers. *)
Definition get_or_insert_all (w : Runtime) (gs : list GrainId) : Runtime :=
  foldl (λ w g, (GrainDirectory_get_or_insert w g).1) w gs.

Lemma live_sender_stable w g g' s :
  directory_inv w → live_sender w g = Some s →
  live_sender (GrainDirectory_get_or_insert w g').1 g = Some s.
Proof.
  intros Hw Hl. destruct (live_sender w g') as [s'|] eqn:L'; [by rewrite (get_or_insert_live _ _ _ L')|].
  assert (g ≠ g') as Hne by congruence.
  destruct (decide (draining (rt_dir w) = true ∨ at_limit w)) as [Hd|Hd].
  { rewrite get_or_insert_refused by done. exact Hl. }
  apply Decidable.not_or in Hd as [Hd%not_true_is_false Hlim].
  pose proof (get_or_insert_created w g' L' Hd Hlim) as Hc.
  destruct (GrainDirectory_get_or_insert w g') as [w' s']. destruct Hc as (-> & Ho & _ & Ha).
  cbn. apply live_sender_Some in Hl as [Hs Hop]. apply live_sender_Some.
  unfold GrainDirectory_get_sender in *. rewrite Ha, lookup_insert_ne by done. set_solver.
Qed.

(** Single activation: once a caller has obtained an open mailbox for a grain, every
    later caller gets the same mailbox, whatever other grains are activated in
    between, as long as it is not torn down. *)
Theorem single_activation w g gs s :
  directory_inv w → (GrainDirectory_get_or_insert w g).2 = s →
  s ∈ rt_open (GrainDirectory_get_or_insert w g).1 →
  (GrainDirectory_get_or_insert
     (get_or_insert_all (GrainDirectory_get_or_insert w g).1 gs) g).2 = s.
Proof.
  intros Hw Hs Ho.
  assert (live_sender (GrainDirectory_get_or_insert w g).1 g = Some s) as Hl.
  { pose proof (get_or_insert_correct w g) as Hc.
    destruct (GrainDirectory_get_or_insert w g) as [w' s']. cbn in *. subst s'.
    destruct (live_sender w g) as [s0|] eqn:L; [by destruct Hc as [-> ->]|].
    case_decide.
    - destruct Hc as (_ & Hop & ->). rewrite Hop in Ho. apply Hw in Ho. lia.
    - apply live_sender_Some. naive_solver. }
  pose proof (directory_inv_get_or_insert w g Hw) as Hw'. revert Hw' Hl. clear.
  generalize (GrainDirectory_get_or_insert w g).1. clear w.
  induction gs as [|g' gs IH]; intros w Hw Hl; cbn; [by rewrite (get_or_insert_live _ _ _ Hl)|].
  apply IH; auto using directory_inv_get_or_insert, live_sender_stable.
Qed.

Lemma single_activation_witness :
  let w := (GrainDirectory_get_or_insert Runtime_new test_id).1 in
  (GrainDirectory_get_or_insert (get_or_insert_all w [mkGrainId "A" "1"; test_id]) test_id).2 = 0%nat.
Proof.
  apply (single_activation Runtime_new test_id [mkGrainId "A" "1"; test_id] 0%nat).
  - exact directory_inv_new.
  - reflexivity.
  - apply (bool_decide_unpack _). vm_compute. exact I.
Defined.

(** * Draining *)
Lemma end_task_dir b w t : rt_dir (end_task b w t) = rt_dir w.
Proof. done. Qed.

Lemma foldl_end_task_dir f w ts : rt_dir (foldl (λ w t, end_task (f t) w t) w ts) = rt_dir w.
Proof. revert w. induction ts as [|t ts IH]; intros w; [done|]. cbn. by rewrite IH. Qed.

Lemma foldl_end_task_cancelled f w ts :
  rt_cancelled (foldl (λ w t, end_task (f t) w t) w ts) = rt_cancelled w.
Proof. revert w. induction ts as [|t ts IH]; intros w; [done|]. cbn. by rewrite IH. Qed.

Lemma drain_remove_frame w ks :
  let w' := (drain_remove w ks).1 in
  draining (rt_dir w') = draining (rt_dir w) ∧ rt_cancelled w' = rt_cancelled w ∧
  worker_pools (rt_dir w') = worker_pools (rt_dir w) ∧ rt_open w' = rt_open w.
Proof.
  revert w. induction ks as [|k ks IH]; intros w; [done|]. cbn.
  unfold GrainDirectory_remove. destruct (activations (rt_dir w) !! k); [|apply IH].
  set (w1 := gauge_add _ _ _). specialize (IH w1). cbn in IH.
  by destruct (drain_remove w1 ks).
Qed.

(** After [drain] the directory holds no activation and no pool, every activation's
    cancellation token has been cancelled, and every later [get_or_insert] hands out
    a closed channel and activates nothing. *)
Theorem drain_stops_activation f w g :
  let w' := GrainDirectory_drain f w in
  activations (rt_dir w') = ∅ ∧ worker_pools (rt_dir w') = ∅ ∧
  (∀ id a, activations (rt_dir w) !! id = Some a → act_cancellation a ∈ rt_cancelled w') ∧
  GrainDirectory_get_or_insert w' g = closed_channel w'.
Proof.
  cbn. unfold GrainDirectory_drain. set (w1 := cancel_all _).
  set (ks := fst <$> map_to_list (activations (rt_dir w1))).
  pose proof (drain_remove_activations w1 ks) as Ha.
  pose proof (drain_remove_frame w1 ks) as (Hd & Hc & Hp & _).
  destruct (drain_remove w1 ks) as [w2 ts]. cbn [fst] in Ha, Hd, Hc, Hp.
  set (w3 := foldl _ w2 ts). set (w4 := foldl _ (with_pools w3 ∅) _).
  assert (rt_dir w4 = rt_dir (with_pools w3 ∅)) as H4 by apply (foldl_end_task_dir (λ _, true)).
  assert (rt_dir w3 = rt_dir w2) as H3 by apply foldl_end_task_dir.
  assert (activations (rt_dir w4) = ∅) as Hempty.
  { rewrite H4. cbn. rewrite H3, Ha. apply map_empty. intros i. apply map_lookup_filter_None.
    right. intros a Hi Hn. cbn in Hn. apply Hn.
    apply list_elem_of_fmap. exists (i, a). split; [done|]. by apply elem_of_map_to_list. }
  split_and!; [done|by rewrite H4| |].
  - intros id a Hia.
    assert (rt_cancelled w4 = rt_cancelled w1) as ->.
    { etrans; [apply (foldl_end_task_cancelled (λ _, true))|]. cbn.
      etrans; [apply foldl_end_task_cancelled|]. done. }
    cbn. apply elem_of_union_l, elem_of_list_to_set, list_elem_of_fmap. exists (id, a).
    split; [done|]. by apply elem_of_map_to_list.
  - apply get_or_insert_refused.
    + unfold live_sender, GrainDirectory_get_sender. by rewrite Hempty, lookup_empty.
    + left. rewrite H4. cbn. by rewrite H3.
Qed.

(** * Worker pools *)

(** [get_or_insert_pool] returns the existing pool while any of its workers is alive;
    otherwise it files [pool_size] fresh, open, pairwise distinct workers.  Neither
    the draining flag nor the activation limit is consulted, so a drained or full
    silo still starts workers. *)
Theorem worker_pool_correct w g n :
  let '(w', ss) := GrainDirectory_get_or_insert_pool w g n in
  match worker_pools (rt_dir w) !! g with
  | Some pool =>
      if existsb (λ s, negb (is_closed w s)) (pool_senders pool)
      then w' = w ∧ ss = pool_senders pool
      else length ss = n ∧ NoDup ss ∧ Forall (λ s, s ∈ rt_open w') ss ∧
           worker_pools (rt_dir w') !! g = Some (mkPool g ss ss)
  | None => length ss = n ∧ NoDup ss ∧ Forall (λ s, s ∈ rt_open w') ss ∧
           worker_pools (rt_dir w') !! g = Some (mkPool g ss ss)
  end.
Proof.
  unfold GrainDirectory_get_or_insert_pool. pose proof (create_pool_spec w n) as Hp.
  destruct (create_pool w n) as [w' ss]. destruct Hp as (Hd & _ & _ & -> & _ & Ho).
  assert (let w'' := with_pools w' (<[g := mkPool g (seq (rt_fresh w) n) (seq (rt_fresh w) n)]>
                                      (worker_pools (rt_dir w'))) in
    length (seq (rt_fresh w) n) = n ∧ NoDup (seq (rt_fresh w) n) ∧
    Forall (λ s, s ∈ rt_open w'') (seq (rt_fresh w) n) ∧
    worker_pools (rt_dir w'') !! g = Some (mkPool g (seq (rt_fresh w) n) (seq (rt_fresh w) n))).
  { cbn. split_and!; [apply length_seq|apply NoDup_seq| |apply lookup_insert_eq].
    apply Forall_forall. intros s Hs. rewrite Ho. set_solver. }
  destruct (worker_pools (rt_dir w) !! g); [|done]. by destruct (existsb _ _).
Qed.

(** * Where the directory falls short *)
Lemma activator_remove_frame w g :
  let w' := GrainDirectory_activator_remove w g in
  rt_open w' = rt_open w ∧ draining (rt_dir w') = draining (rt_dir w) ∧
  max_activations (rt_dir w') = max_activations (rt_dir w) ∧ rt_fresh w' = rt_fresh w.
Proof.
  unfold GrainDirectory_activator_remove, GrainDirectory_remove.
  repeat (case_match; simplify_eq/=); done.
Qed.

(** [remove] is keyed by grain id, not by activation.  If an older activation of a
    grain tears down (calls [remove]) after a newer one was filed, the newer one's
    entry disappears while its mailbox is still open, and the next caller starts a
    second live activation of the same grain. *)
Theorem stale_teardown_duplicates_activation w g :
  directory_inv w → draining (rt_dir w) = false → max_activations (rt_dir w) = 0 →
  let newer := GrainDirectory_get_or_insert w g in
  let next := GrainDirectory_get_or_insert (GrainDirectory_activator_remove newer.1 g) g in
  newer.2 ∈ rt_open newer.1 →
  newer.2 ∈ rt_open next.1 ∧ next.2 ∈ rt_open next.1 ∧ newer.2 ≠ next.2.
Proof.
  intros Hw Hd Hm. pose proof (directory_inv_get_or_insert w g Hw) as Hw1.
  assert (draining (rt_dir (GrainDirectory_get_or_insert w g).1) = draining (rt_dir w) ∧
          max_activations (rt_dir (GrainDirectory_get_or_insert w g).1)
          = max_activations (rt_dir w)) as [Hd1 Hm1].
  { unfold GrainDirectory_get_or_insert. repeat (case_match; simplify_eq/=); done. }
  destruct (GrainDirectory_get_or_insert w g) as [w1 s1]. cbn in *. intros Hs1.
  destruct (activator_remove_frame w1 g) as (Ho & Hd2 & Hm2 & Hf2).
  pose proof (get_or_insert_created (GrainDirectory_activator_remove w1 g) g) as Hc.
  destruct (GrainDirectory_get_or_insert (GrainDirectory_activator_remove w1 g) g) as [w2 s2].
  destruct Hc as (-> & Ho2 & _).
  - unfold live_sender, GrainDirectory_get_sender.
    by rewrite activator_remove_activations, lookup_delete_eq.
  - congruence.
  - unfold at_limit. rewrite Hm2, Hm1, Hm. lia.
  - cbn. rewrite Ho2, Ho. pose proof (di_open _ Hw1 _ Hs1). rewrite Hf2.
    split_and!; [set_solver|set_solver|lia].
Qed.

Lemma stale_teardown_duplicates_activation_witness :
  let newer := GrainDirectory_get_or_insert Runtime_new test_id in
  let next := GrainDirectory_get_or_insert (GrainDirectory_activator_remove newer.1 test_id) test_id in
  newer.2 ∈ rt_open next.1 ∧ next.2 ∈ rt_open next.1 ∧ newer.2 ≠ next.2.
Proof.
  apply (stale_teardown_duplicates_activation Runtime_new test_id directory_inv_new
           eq_refl eq_refl).
  apply (bool_decide_unpack _). vm_compute. exact I.
Defined.

(** [register] files an activation without counting it, but removing the entry
    decrements the gauge: a registered grain that deactivates leaves the
    [activations_active] gauge of its type one too low. *)
Theorem register_unbalances_gauge w g s t :
  gauge_of (GrainDirectory_activator_remove (GrainDirectory_register w g s t) g) (type_name g) =
  gauge_of w (type_name g) - 1.
Proof.
  unfold GrainDirectory_activator_remove, GrainDirectory_remove. cbn.
  rewrite lookup_insert_eq. cbn.
  assert (∀ w' p, gauge_of (with_pools w' p) = gauge_of w') as Hp by done.
  repeat case_match; rewrite ?Hp, gauge_of_add, decide_True by done;
    change (gauge_of (with_activations ?w' _)) with (gauge_of w'); unfold gauge_of; cbn; lia.
Qed.

(** Composition with the mailbox: when a mailbox run by the directory for [g] ends, the
    directory has no entry for [g] and still satisfies its invariant. *)
Lemma mailbox_cleans_directory {St} (G : Grain St) g msgs r rest w :
  stops r = true → directory_inv w →
  ∃ res, run_mailbox G g ((RecvMessage <$> msgs) ++ r :: rest) w = Some res ∧
    end_fsm res = Closed ∧ GrainDirectory_get_sender (end_dir res) g = None ∧
    directory_inv (end_dir res).
Proof.
  intros Hr Hw. pose proof (run_mailbox_ends G g msgs r rest w Hr) as H'.
  destruct (on_activate _ _) as [st1 act]. destruct (turns _ _) as [[st2 p] effs].
  destruct H' as (res & H1 & H2 & H3 & _). exists res. rewrite H3.
  split_and!; auto using directory_inv_activator_remove.
  exact (ga_remove_get w g).
Qed.
