(* ===== verification/ConcurrentDirectory.v ===== *)
(** * The grain directory under concurrency

    [directory.rs] at the grain of its single accesses to shared state.  [Directory] treats every
    operation as one step; here a call of [get_or_insert] is the loads of the draining flag and of the
    limit, the count and the operation on the map's entry, each a step of its own, and [drain] is its
    loops, entry by entry.  The steps of callers, mailboxes and drain interleave freely. *)
From S2P Require Import Prelude CoreTypes Mailbox Directory.

(** ** A caller inside [get_or_insert] *)
Inductive Caller :=
| CStart (g : GrainId)              (** about to load the draining flag *)
| CLookup (g : GrainId)             (** about to look for an existing sender *)
| CFound (g : GrainId) (s : Sender) (** about to test that sender *)
| CLoadMax (g : GrainId)            (** about to load the limit *)
| CLen (g : GrainId) (max : Z)      (** about to compare the count with it *)
| CEntry (g : GrainId)              (** about to lock the entry *)
| CReturned (g : GrainId) (s : Sender).

(** [activations.entry(grain_id)] and the [match] on it, under the lock of the shard; also the
    mailbox it spawned. *)
Definition directory_entry (w : Runtime) (g : GrainId) : Runtime * Sender * option Sender :=
  match activations (rt_dir w) !! g with
  | Some e =>
      if is_closed w (act_sender e) then
        let '(w, sender) := create_channel w in
        (with_activations w (<[g := activation_of g sender]> (activations (rt_dir w))), sender, Some sender)
      else (w, act_sender e, None)
  | None =>
      let '(w, sender) := create_channel w in
      let w := gauge_add w (type_name g) 1 in
      (with_activations w (<[g := activation_of g sender]> (activations (rt_dir w))), sender, Some sender)
  end.

(** The next access of a caller. *)
Definition caller_step (w : Runtime) (c : Caller) : Runtime * Caller * option Sender :=
  match c with
  | CStart g => (w, if draining (rt_dir w) then CLookup g else CLoadMax g, None)
  | CLookup g =>
      match GrainDirectory_get_sender w g with
      | Some s => (w, CFound g s, None)
      | None => let '(w, s) := closed_channel w in (w, CReturned g s, None)
      end
  | CFound g s =>
      if is_closed w s then let '(w, s) := closed_channel w in (w, CReturned g s, None)
      else (w, CReturned g s, None)
  | CLoadMax g => (w, CLen g (max_activations (rt_dir w)), None)
  | CLen g max =>
      (w, if bool_decide (0 < max) && bool_decide (max ≤ Z.of_nat (GrainDirectory_activation_count w))
          then CLookup g else CEntry g, None)
  | CEntry g => let '(w, s, spawned) := directory_entry w g in (w, CReturned g s, spawned)
  | CReturned g s => (w, CReturned g s, None)
  end.

(** A caller that is not interrupted. *)
Fixpoint caller_run (n : nat) (w : Runtime) (c : Caller) : Runtime * Caller :=
  match n with
  | O => (w, c)
  | S n' => let '(w, c, _) := caller_step w c in caller_run n' w c
  end.

(** Without interruption the accesses of a caller are the operation [Directory] describes. *)
Theorem caller_run_agrees w g :
  caller_run 5 w (CStart g) =
    ((GrainDirectory_get_or_insert w g).1, CReturned g (GrainDirectory_get_or_insert w g).2).
Proof.
  unfold GrainDirectory_get_or_insert, live_sender. cbn [caller_run caller_step].
  destruct (draining (rt_dir w)); cbn [caller_run caller_step].
  - destruct (GrainDirectory_get_sender w g) as [s|]; cbn [caller_run caller_step]; [|done].
    by destruct (is_closed w s).
  - destruct (bool_decide (0 < _) && _); cbn [caller_run caller_step].
    + destruct (GrainDirectory_get_sender w g) as [s|]; cbn [caller_run caller_step]; [|done].
      by destruct (is_closed w s).
    + unfold directory_entry. destruct (activations (rt_dir w) !! g) as [e|]; [|done].
      by destruct (is_closed w (act_sender e)).
Qed.

(** ** Callers and mailboxes *)

(** Where a mailbox task is: in its loop; past it, in [on_deactivate]; after it called [remove]; over, its
    receiver dropped. *)
Inductive MailPhase := MRunning | MStopping | MRemoved | MEnded.

Record Conc := mkConc {
  c_rt : Runtime;
  c_callers : list Caller;
  c_mail : gmap Sender (GrainId * MailPhase) }.

Definition caller_grain (c : Caller) : GrainId :=
  match c with
  | CStart g | CLookup g | CFound g _ | CLoadMax g | CLen g _ | CEntry g | CReturned g _ => g
  end.

Definition add_mail (g : GrainId) (spawned : option Sender) (m : gmap Sender (GrainId * MailPhase)) :=
  match spawned with Some s => <[s := (g, MRunning)]> m | None => m end.

Inductive conc_step : Conc → Conc → Prop :=
| cs_call w cs ms g : conc_step (mkConc w cs ms) (mkConc w (CStart g :: cs) ms)
| cs_caller w w' pre c c' post ms spawned :
    caller_step w c = (w', c', spawned) →
    conc_step (mkConc w (pre ++ c :: post) ms) (mkConc w' (pre ++ c' :: post) (add_mail (caller_grain c) spawned ms))
| cs_send w cs ms s d : s ∈ rt_open w → conc_step (mkConc w cs ms) (mkConc (enqueue w s d) cs ms)
| cs_limit w cs ms n : conc_step (mkConc w cs ms) (mkConc (GrainDirectory_set_max_activations w n) cs ms)
| cs_stop w cs ms s g :
    ms !! s = Some (g, MRunning) → conc_step (mkConc w cs ms) (mkConc w cs (<[s := (g, MStopping)]> ms))
| cs_remove w cs ms s g :
    ms !! s = Some (g, MStopping) →
    conc_step (mkConc w cs ms) (mkConc (GrainDirectory_activator_remove w g) cs (<[s := (g, MRemoved)]> ms))
| cs_end w cs ms s g :
    ms !! s = Some (g, MRemoved) →
    conc_step (mkConc w cs ms) (mkConc (end_task false w s) cs (<[s := (g, MEnded)]> ms)).

(** The mailbox [s] has [g]'s state in its hands. *)
Definition holds (ms : gmap Sender (GrainId * MailPhase)) (g : GrainId) (s : Sender) : Prop :=
  ms !! s = Some (g, MRunning) ∨ ms !! s = Some (g, MStopping).

(** A sender a caller carries or has returned belongs to a mailbox of the caller's grain. *)
Definition caller_ok (w : Runtime) (ms : gmap Sender (GrainId * MailPhase)) (c : Caller) : Prop :=
  match c with
  | CFound g s => ∃ p, ms !! s = Some (g, p)
  | CReturned g s => (s < rt_fresh w)%nat ∧ (s ∉ rt_open w ∨ ∃ p, ms !! s = Some (g, p))
  | _ => True
  end.

Record conc_inv (s : Conc) : Prop := {
  ci_dir : directory_inv (c_rt s);
  ci_fresh : ∀ m x, c_mail s !! m = Some x → (m < rt_fresh (c_rt s))%nat;
  ci_open : ∀ m g p, c_mail s !! m = Some (g, p) → p = MEnded ∨ m ∈ rt_open (c_rt s);
  ci_entry : ∀ g m, GrainDirectory_get_sender (c_rt s) g = Some m ↔ holds (c_mail s) g m;
  ci_callers : Forall (caller_ok (c_rt s) (c_mail s)) (c_callers s) }.

Lemma closed_channel_inv w : directory_inv w → directory_inv (closed_channel w).1.
Proof.
  intros Hw. eapply directory_inv_frame; [..|exact Hw]; cbn; [done|done|lia|].
  intros s Hs%Hw. lia.
Qed.

(** A step that keeps the runtime's entries and only adds names. *)
Lemma conc_inv_frame w w' ms cs cs' :
  conc_inv (mkConc w cs ms) → directory_inv w' → rt_open w' = rt_open w → (rt_fresh w ≤ rt_fresh w')%nat →
  activations (rt_dir w') = activations (rt_dir w) → Forall (caller_ok w' ms) cs' →
  conc_inv (mkConc w' cs' ms).
Proof.
  intros [H1 H2 H3 H4 H5] Hd Ho Hf Ha Hc. cbn in *. split; cbn; [done|..|done].
  - intros m x Hm%H2. lia.
  - rewrite Ho. done.
  - intros g m. rewrite <- H4. unfold GrainDirectory_get_sender. by rewrite Ha.
Qed.

Lemma caller_ok_mono w w' ms c :
  caller_ok w ms c → (rt_fresh w ≤ rt_fresh w')%nat →
  (∀ s, (s < rt_fresh w)%nat → s ∈ rt_open w' → s ∈ rt_open w) → caller_ok w' ms c.
Proof.
  destruct c; cbn; try done. intros [Hlt Hs] Hf Ho. split; [lia|]. destruct Hs as [Hs|Hs]; [left|by right].
  intros Hs'. apply Hs. auto.
Qed.

(** The entry of a grain without one, or with a closed one: there is no such one here. *)
Lemma directory_entry_spec s g :
  conc_inv s →
  let '(w', m, spawned) := directory_entry (c_rt s) g in
  match GrainDirectory_get_sender (c_rt s) g with
  | Some m0 => w' = c_rt s ∧ m = m0 ∧ spawned = None
  | None =>
      spawned = Some m ∧ m = rt_fresh (c_rt s) ∧ rt_fresh w' = S m ∧ rt_open w' = {[m]} ∪ rt_open (c_rt s) ∧
      activations (rt_dir w') = <[g := activation_of g m]> (activations (rt_dir (c_rt s))) ∧
      draining (rt_dir w') = draining (rt_dir (c_rt s)) ∧
      max_activations (rt_dir w') = max_activations (rt_dir (c_rt s)) ∧ directory_inv w'
  end.
Proof.
  intros [H1 H2 H3 H4 H5]. unfold directory_entry.
  destruct (activations (rt_dir (c_rt s)) !! g) as [e|] eqn:E.
  - assert (GrainDirectory_get_sender (c_rt s) g = Some (act_sender e)) as He.
    { unfold GrainDirectory_get_sender. by rewrite E. }
    rewrite He. unfold is_closed. rewrite bool_decide_false; [done|]. intros Hn. apply Hn.
    apply H4 in He as [He|He]; apply H3 in He as [He|He]; done.
  - unfold GrainDirectory_get_sender. rewrite E. cbn. split_and!; try done.
    assert (live_sender (c_rt s) g = None) as HL.
    { unfold live_sender, GrainDirectory_get_sender. by rewrite E. }
    pose proof (directory_inv_get_or_insert
      (with_dir (c_rt s) (mkDirectory (activations (rt_dir (c_rt s))) (worker_pools (rt_dir (c_rt s))) false 0)) g) as Hi.
    unfold GrainDirectory_get_or_insert in Hi. cbn in Hi. rewrite E in Hi. cbn in Hi.
    eapply directory_inv_frame; [..|apply Hi]; try done.
    + cbn. intros x [->%elem_of_singleton|Hx%H1]%elem_of_union; lia.
    + eapply directory_inv_frame; [..|exact H1]; try done. apply H1.
Qed.

Lemma caller_ok_mail w ms s x c :
  (∀ g p, ms !! s = Some (g, p) → fst x = g) → caller_ok w ms c → caller_ok w (<[s := x]> ms) c.
Proof.
  intros Hs. destruct x as [gx px].
  assert (∀ m g, (∃ p, ms !! m = Some (g, p)) → ∃ p, <[s := (gx, px)]> ms !! m = Some (g, p)) as Hex.
  { intros m g [p Hp]. destruct (decide (s = m)) as [<-|Hne].
    - specialize (Hs _ _ Hp). cbn in Hs. subst. rewrite lookup_insert_eq. eauto.
    - rewrite lookup_insert_ne by done. eauto. }
  destruct c; cbn; try done; [apply Hex|]. intros [Hlt [?|?]]; (split; [done|]); [by left|right; by apply Hex].
Qed.

Lemma holds_insert ms s x g m :
  holds (<[s := x]> ms) g m ↔ (m = s ∧ (x = (g, MRunning) ∨ x = (g, MStopping))) ∨ (m ≠ s ∧ holds ms g m).
Proof.
  unfold holds. destruct (decide (s = m)) as [<-|Hne].
  - rewrite lookup_insert_eq. naive_solver.
  - rewrite !lookup_insert_ne by done. naive_solver.
Qed.

Lemma caller_step_inv w pre c post ms w' c' spawned :
  conc_inv (mkConc w (pre ++ c :: post) ms) → caller_step w c = (w', c', spawned) →
  conc_inv (mkConc w' (pre ++ c' :: post) (add_mail (caller_grain c) spawned ms)).
Proof.
  intros Hi Hs. pose proof Hi as [H1 H2 H3 H4 [Hpre [Hc Hpost]%Forall_cons]%Forall_app]. cbn in *.
  assert (∀ c', caller_ok w ms c' → conc_inv (mkConc w (pre ++ c' :: post) ms)) as Hsame.
  { intros c1 Hok. eapply conc_inv_frame; [exact Hi|done..|]. apply Forall_app. by repeat constructor. }
  assert (∀ g, conc_inv (mkConc (closed_channel w).1 (pre ++ CReturned g (rt_fresh w) :: post) ms)) as Hclosed.
  { intros g. eapply conc_inv_frame; [exact Hi|by apply closed_channel_inv|done|cbn; lia|done|].
    assert (∀ c, caller_ok w ms c → caller_ok (closed_channel w).1 ms c) as Hmono
      by (intros c1 Hc1; eapply caller_ok_mono; [exact Hc1|cbn; lia|done]).
    apply Forall_app; split; [by eapply Forall_impl|]. constructor; [|by eapply Forall_impl].
    cbn. split; [lia|]. left. intros Hin%H1. lia. }
  destruct c as [g|g|g m|g|g mx|g|g m]; cbn [caller_step] in Hs; simplify_eq/=; auto.
  - apply Hsame. by destruct (draining _).
  - destruct (GrainDirectory_get_sender w g) as [m|] eqn:E; simplify_eq/=; [|apply Hclosed].
    apply Hsame. apply H4 in E as [E|E]; cbn; eauto.
  - destruct (is_closed w m); simplify_eq/=; [apply Hclosed|]. apply Hsame. cbn. destruct Hc as [p Hp]. eauto.
  - apply Hsame. by destruct (_ && _).
  - pose proof (directory_entry_spec _ g Hi) as He. cbn [c_rt] in He.
    destruct (directory_entry w g) as [[w1 m] sp]. simplify_eq/=.
    destruct (GrainDirectory_get_sender w g) as [m0|] eqn:E.
    + destruct He as (-> & -> & ->). cbn. apply Hsame. apply H4 in E as [E|E]; cbn; eauto.
    + destruct He as (-> & -> & Hf & Ho & Ha & _ & _ & Hd). cbn.
      assert (ms !! rt_fresh w = None) as Hnew.
      { destruct (ms !! rt_fresh w) eqn:Em; [|done]. apply H2 in Em. lia. }
      assert (∀ c, caller_ok w ms c → caller_ok w' (<[rt_fresh w := (g, MRunning)]> ms) c) as Hmono.
      { intros c1 Hc1. apply caller_ok_mail; [intros ??; by rewrite Hnew|].
        eapply caller_ok_mono; [exact Hc1|lia|]. rewrite Ho. intros s' Hs'. rewrite elem_of_union, elem_of_singleton.
        intros [->|?]; [lia|done]. }
      split; cbn; [done|..].
      * intros m x. rewrite lookup_insert. case_decide; [intros; lia|intros Hm%H2; lia].
      * intros m g' p. rewrite Ho, elem_of_union, elem_of_singleton, lookup_insert.
        case_decide as Hm; [right; by left|]. intros [?|?]%H3; auto.
      * intros g' m. rewrite holds_insert. unfold GrainDirectory_get_sender. rewrite Ha, lookup_insert.
        case_decide as Hg.
        -- cbn. subst g'. split; [intros [= <-]; naive_solver|]. intros [[-> _]|[_ Hh%H4]]; [done|congruence].
        -- fold (GrainDirectory_get_sender w g'). rewrite H4.
           assert (holds ms g' m → m ≠ rt_fresh w) by (unfold holds; intros [Hm|Hm] ->; congruence).
           naive_solver.
      * apply Forall_app; split; [by eapply Forall_impl|]. constructor; [|by eapply Forall_impl].
        cbn. split; [lia|]. right. exists MRunning. by rewrite lookup_insert_eq.
Qed.

Lemma conc_step_inv s s' : conc_step s s' → conc_inv s → conc_inv s'.
Proof.
  destruct 1 as [w cs ms g|w w' pre c c' post ms sp Hs|w cs ms m d Ho|w cs ms n|w cs ms m g Hm|w cs ms m g Hm|w cs ms m g Hm];
    intros Hi; pose proof Hi as [H1 H2 H3 H4 H5]; cbn in *.
  - eapply conc_inv_frame; [exact Hi|done..|]. by constructor.
  - by eapply caller_step_inv.
  - eapply conc_inv_frame; [exact Hi|by apply directory_inv_enqueue|done..].
  - eapply conc_inv_frame; [exact Hi| |done..]. eapply directory_step_inv; [apply ds_limit|done].
  - split; cbn; [done|..].
    + intros m' x. rewrite lookup_insert. case_decide; [intros _; subst; eauto|eauto].
    + intros m' g' p. rewrite lookup_insert. case_decide; [|eauto]. intros [= <- <-]. subst. right.
      by destruct (H3 _ _ _ Hm).
    + intros g' m'. rewrite holds_insert, H4. unfold holds. destruct (decide (m' = m)) as [->|]; naive_solver.
    + eapply Forall_impl; [exact H5|]. intros c. apply caller_ok_mail. intros ?? Hm'. rewrite Hm in Hm'. by simplify_eq/=.
  - pose proof (activator_remove_frame w g) as (Ho & _ & _ & Hf). cbn in Ho, Hf.
    assert (GrainDirectory_get_sender w g = Some m) as Hg by (apply H4; by right).
    split; cbn; rewrite ?Ho, ?Hf; [by apply directory_inv_activator_remove|..].
    + intros m' x. rewrite lookup_insert. case_decide; [intros _; subst; eauto|eauto].
    + intros m' g' p. rewrite lookup_insert. case_decide; [|eauto]. intros [= <- <-]. subst. right.
      by destruct (H3 _ _ _ Hm).
    + intros g' m'. rewrite holds_insert. unfold GrainDirectory_get_sender. rewrite activator_remove_activations, lookup_delete.
      case_decide as Heq.
      * cbn. split; [done|]. intros [[_ [?|?]]|[Hne Hh%H4]]; congruence.
      * fold (GrainDirectory_get_sender w g'). rewrite H4. unfold holds.
        destruct (decide (m' = m)) as [->|]; naive_solver.
    + eapply Forall_impl; [exact H5|]. intros c Hc. apply caller_ok_mail; [intros ?? Hm'; rewrite Hm in Hm'; by simplify_eq/=|].
      eapply caller_ok_mono; [exact Hc|by rewrite Hf|by rewrite Ho].
  - split; cbn; [by apply directory_inv_end_task|..].
    + intros m' x. rewrite lookup_insert. case_decide; [intros _; subst; eauto|eauto].
    + intros m' g' p. rewrite lookup_insert. case_decide; [intros [= <- <-]; by left|].
      intros [?|?]%H3; [by left|]. right. set_solver.
    + intros g' m'. rewrite holds_insert. change (GrainDirectory_get_sender _ g') with (GrainDirectory_get_sender w g').
      rewrite H4. unfold holds. destruct (decide (m' = m)) as [->|]; naive_solver.
    + eapply Forall_impl; [exact H5|]. intros c Hc. apply caller_ok_mail; [intros ?? Hm'; rewrite Hm in Hm'; by simplify_eq/=|].
      eapply caller_ok_mono; [exact Hc|done|]. cbn. set_solver.
Qed.

(** ** What a step leaves alone

    Facts about single steps that the asks of [Asks] build on. *)
Lemma caller_step_inbox w c : rt_inbox (caller_step w c).1.1 = rt_inbox w ∧ (rt_fresh w ≤ rt_fresh (caller_step w c).1.1)%nat.
Proof.
  destruct c as [g|g|g m|g|g mx|g|g m]; cbn; try done.
  - destruct (GrainDirectory_get_sender w g); cbn; split; [done|lia|done|lia].
  - destruct (is_closed w m); cbn; split; [done|lia|done|lia].
  - unfold directory_entry. destruct (activations (rt_dir w) !! g) as [e|]; [destruct (is_closed w (act_sender e))|]; cbn; split; try done; lia.
Qed.

(** A caller that spawns a mailbox found no entry, and the mailbox is a fresh one. *)
Lemma caller_step_spawned w pre c post ms w' c' m :
  conc_inv (mkConc w (pre ++ c :: post) ms) → caller_step w c = (w', c', Some m) →
  m = rt_fresh w ∧ GrainDirectory_get_sender w (caller_grain c) = None.
Proof.
  intros Hi Hs. destruct c as [g|g|g s|g|g mx|g|g s]; cbn [caller_step] in Hs; try (by simplify_eq/=).
  - destruct (GrainDirectory_get_sender w g); by simplify_eq/=.
  - destruct (is_closed w s); by simplify_eq/=.
  - pose proof (directory_entry_spec _ g Hi) as He. cbn [c_rt] in He.
    destruct (directory_entry w g) as [[w1 s] sp]. simplify_eq/=.
    destruct (GrainDirectory_get_sender w g) as [m0|]; destruct_and!; [done|]. simplify_eq. done.
Qed.

Lemma conc_step_bystander w cs ms w' cs' ms' c :
  conc_step (mkConc w cs ms) (mkConc w' cs' ms') → conc_inv (mkConc w cs ms) →
  caller_ok w ms c → caller_ok w' ms' c.
Proof.
  intros Hs Hi Hc.
  assert (conc_inv (mkConc w (c :: cs) ms)) as Hi1 by (destruct Hi as [H1 H2 H3 H4 H5]; split; try done; by constructor).
  assert (∃ cs1, conc_step (mkConc w (c :: cs) ms) (mkConc w' cs1 ms') ∧ (c ∈ cs1)) as (cs1 & Hs1 & Hin).
  { inversion Hs; subst.
    - exists (CStart g :: c :: cs). split; [apply cs_call|by right; left].
    - exists (c :: pre ++ c' :: post). split; [by eapply (cs_caller _ _ (c :: pre))|by left].
    - eexists (c :: _). split; [by constructor|by left].
    - eexists (c :: _). split; [by constructor|by left].
    - eexists (c :: _). split; [by constructor|by left].
    - eexists (c :: _). split; [by constructor|by left].
    - eexists (c :: _). split; [by constructor|by left]. }
  destruct (conc_step_inv _ _ Hs1 Hi1) as [_ _ _ _ H5]. cbn in H5. by eapply (proj1 (Forall_forall _ _) H5).
Qed.

(** The mailboxes of a grain: they stay, ended ones stay ended, and a new one is fresh. *)
Lemma conc_step_mail w cs ms w' cs' ms' :
  conc_step (mkConc w cs ms) (mkConc w' cs' ms') → conc_inv (mkConc w cs ms) →
  (∀ s g p, ms !! s = Some (g, p) → ∃ p', ms' !! s = Some (g, p')) ∧
  (∀ s g, ms !! s = Some (g, MEnded) → ms' !! s = Some (g, MEnded)) ∧
  (∀ s g, ms' !! s = Some (g, MRunning) →
     ms !! s = Some (g, MRunning) ∨ s = rt_fresh w ∧ GrainDirectory_get_sender w g = None ∧ rt_inbox w' = rt_inbox w).
Proof.
  intros Hs Hi. pose proof Hi as [H1 H2 H3 H4 H5]. cbn in *.
  assert (∀ s g x (ms1 : gmap Sender (GrainId * MailPhase)), ms !! s = Some (g, x) → ∀ p s0 g0 p0, ms !! s0 = Some (g0, p0) →
    (s0 = s → g0 = g) → ∃ p', <[s0 := (g0, p)]> ms !! s = Some (g, p')) as Hput.
  { intros s g x _ Hm p s0 g0 p0 Hm0 Hg. rewrite lookup_insert. case_decide; [rewrite Hg by done|]; eauto. }
  inversion Hs; subst; try (split_and!; eauto; done).
  - destruct spawned as [m|]; cbn; [|split_and!; eauto].
    match goal with H : caller_step _ _ = _ |- _ => pose proof (caller_step_spawned _ _ _ _ _ _ _ _ Hi H) as [-> Hn];
      pose proof (caller_step_inbox w c) as [Hin _]; rewrite H in Hin; cbn in Hin end.
    assert (ms !! rt_fresh w = None) as Hnew by (destruct (ms !! rt_fresh w) eqn:Em; [|done]; apply H2 in Em; lia).
    split_and!.
    + intros s g p Hm. rewrite lookup_insert_ne by congruence. eauto.
    + intros s g Hm. by rewrite lookup_insert_ne by congruence.
    + intros s g. rewrite lookup_insert. case_decide; [|by left]. intros [= <-]. by right.
  - split_and!.
    + intros s' g' p Hm. eapply Hput; [done|exact Hm|done|]. intros <-. congruence.
    + intros s' g' Hm. rewrite lookup_insert_ne; [done|congruence].
    + intros s' g'. rewrite lookup_insert. case_decide; [done|by left].
  - split_and!.
    + intros s' g' p Hm. eapply Hput; [done|exact Hm|done|]. intros <-. congruence.
    + intros s' g' Hm. rewrite lookup_insert_ne; [done|congruence].
    + intros s' g'. rewrite lookup_insert. case_decide; [done|by left].
  - split_and!.
    + intros s' g' p Hm. eapply Hput; [done|exact Hm|done|]. intros <-. congruence.
    + intros s' g' Hm. rewrite lookup_insert_ne; [done|congruence].
    + intros s' g'. rewrite lookup_insert. case_decide; [done|by left].
Qed.

Lemma conc_step_inbox_inv w cs ms w' cs' ms' :
  conc_step (mkConc w cs ms) (mkConc w' cs' ms') → conc_inv (mkConc w cs ms) → inbox_inv w → inbox_inv w'.
Proof.
  intros Hs [H1 _ _ _ _] Hi. cbn in H1. inversion Hs; subst; try done.
  - match goal with H : caller_step _ ?c = _ |- _ => pose proof (caller_step_inbox w c) as [Hin Hf]; rewrite H in Hin, Hf; cbn in Hin, Hf end.
    intros s Hs'. rewrite Hin in Hs'. specialize (Hi s Hs'). lia.
  - intros s' Hs'. cbn in Hs'. destruct (decide (s = s')) as [<-|Hne]; [by apply (di_open _ H1)|].
    rewrite lookup_insert_ne in Hs' by done. by apply Hi.
  - destruct (activator_remove_inbox w g) as (Hin & Hfr & _). intros s'. rewrite Hin, Hfr. apply Hi.
Qed.

Lemma conc_step_inbox_grows w cs ms w' cs' ms' :
  conc_step (mkConc w cs ms) (mkConc w' cs' ms') → ∀ s, ∃ l, inbox w' s = inbox w s ++ l.
Proof.
  intros Hs s. assert (rt_inbox w' = rt_inbox w → ∃ l, inbox w' s = inbox w s ++ l) as Hsame.
  { intros Hi. exists []. unfold inbox. by rewrite Hi, app_nil_r. }
  inversion Hs; subst; try (by apply Hsame).
  - apply Hsame. match goal with H : caller_step _ ?c = _ |- _ => pose proof (caller_step_inbox w c) as [Hin _]; by rewrite H in Hin end.
  - unfold inbox at 1. cbn. rewrite lookup_insert. case_decide as E; [subst; cbn; by eauto|].
    exists []. unfold inbox. by rewrite app_nil_r.
  - apply Hsame. apply activator_remove_inbox.
Qed.

Lemma conc_inv_initial : conc_inv (mkConc Runtime_new [] ∅).
Proof.
  split; cbn; [apply directory_inv_new|by intros ??; rewrite lookup_empty|by intros ???; rewrite lookup_empty| |done].
  intros g m. unfold GrainDirectory_get_sender, holds. cbn. rewrite !lookup_empty. naive_solver.
Qed.

(** C3: single activation under concurrency: however the accesses of any number of concurrent callers
    interleave with each other, with messages, with limit changes and with mailboxes that stop, remove their
    entry and end, no grain is ever in the hands of two mailboxes; its mailbox, from the moment it is
    spawned until it has left [on_deactivate], is the one in the directory; and a
    caller that returned with an open channel has a mailbox of the grain it asked for. *)
Theorem concurrent_single_activation s :
  rtc conc_step (mkConc Runtime_new [] ∅) s →
  (∀ g m m', holds (c_mail s) g m → holds (c_mail s) g m' → m = m') ∧
  (∀ g m, holds (c_mail s) g m ↔ GrainDirectory_get_sender (c_rt s) g = Some m) ∧
  (∀ g m, CReturned g m ∈ c_callers s → m ∈ rt_open (c_rt s) → ∃ p, c_mail s !! m = Some (g, p)).
Proof.
  intros Hr. assert (conc_inv s) as [H1 H2 H3 H4 H5].
  { pose proof conc_inv_initial as Hi. revert Hi. induction Hr; eauto using conc_step_inv. }
  split_and!.
  - intros g m m' Hm%H4 Hm'%H4. congruence.
  - intros g m. by rewrite H4.
  - intros g m Hin Ho. rewrite Forall_forall in H5. destruct (H5 _ Hin) as [_ [?|?]]; done.
Qed.

(** Two callers race for the same grain; both pass the checks before either takes the entry. *)
Lemma concurrent_single_activation_witness :
  ∃ s, rtc conc_step (mkConc Runtime_new [] ∅) s ∧
    c_callers s = [CReturned test_id 0%nat; CReturned test_id 0%nat] ∧
    (∀ m, holds (c_mail s) test_id m → m = 0%nat).
Proof.
  assert (∃ s, rtc conc_step (mkConc Runtime_new [] ∅) s ∧
    c_callers s = [CReturned test_id 0%nat; CReturned test_id 0%nat] ∧
    holds (c_mail s) test_id 0%nat) as (s & Hr & Hc & Hh).
  { eexists. split; [|split].
    - eapply rtc_l; [apply (cs_call _ _ _ test_id)|]. eapply rtc_l; [apply (cs_call _ _ _ test_id)|].
      do 3 (eapply rtc_l; [eapply (cs_caller _ _ []); reflexivity|]; cbn).
      do 4 (eapply rtc_l; [eapply (cs_caller _ _ [CEntry test_id] _ _ []); reflexivity|]; cbn).
      eapply rtc_l; [eapply (cs_caller _ _ []); reflexivity|]. apply rtc_refl.
    - vm_compute. reflexivity.
    - left. vm_compute. reflexivity. }
  exists s. split; [exact Hr|]. split; [exact Hc|]. intros m Hm.
  exact (proj1 (concurrent_single_activation s Hr) test_id m 0%nat Hm Hh).
Defined.

(** ** The activation limit *)

(** A caller that has passed the limit check but not yet taken its entry, and one still inside the call. *)
Definition admitted (c : Caller) : bool := match c with CEntry _ => true | _ => false end.
Definition in_flight (c : Caller) : bool := match c with CReturned _ _ => false | _ => true end.
Definition count_callers (p : Caller → bool) (cs : list Caller) : nat := length (filter (λ c, p c = true) cs).
#[global] Arguments count_callers : simpl never.

(** A step after which at most [k] calls are in progress and the limit is [limit]. *)
Definition limited_step (limit : Z) (k : nat) (s s' : Conc) : Prop :=
  conc_step s s' ∧ (count_callers in_flight (c_callers s') ≤ k)%nat ∧
  max_activations (rt_dir (c_rt s')) = limit.

Record limit_inv (limit : Z) (k : nat) (s : Conc) : Prop := {
  li_max : max_activations (rt_dir (c_rt s)) = limit;
  li_loaded : Forall (λ c, match c with CLen _ mx => mx = limit | _ => True end) (c_callers s);
  li_count : Z.of_nat (GrainDirectory_activation_count (c_rt s) + count_callers admitted (c_callers s))
               ≤ limit - 1 + Z.of_nat k }.

Lemma count_callers_app p cs cs' : count_callers p (cs ++ cs') = (count_callers p cs + count_callers p cs')%nat.
Proof. unfold count_callers. by rewrite filter_app, length_app. Qed.
Lemma count_callers_cons p c cs : count_callers p (c :: cs) = ((if p c then 1 else 0) + count_callers p cs)%nat.
Proof. unfold count_callers. rewrite filter_cons. destruct (p c); by case_decide. Qed.

Lemma admitted_in_flight cs : (count_callers admitted cs ≤ count_callers in_flight cs)%nat.
Proof.
  induction cs as [|c cs IH]; [done|]. rewrite !count_callers_cons. destruct c; cbn; lia.
Qed.

Lemma directory_entry_count w g :
  let '(w', _, _) := directory_entry w g in
  (GrainDirectory_activation_count w' ≤ S (GrainDirectory_activation_count w))%nat ∧
  max_activations (rt_dir w') = max_activations (rt_dir w).
Proof.
  unfold directory_entry, GrainDirectory_activation_count.
  destruct (activations (rt_dir w) !! g) as [e|] eqn:E; [destruct (is_closed w (act_sender e))|]; cbn;
    (split; [|done]); rewrite ?map_size_insert, ?E; cbn; lia.
Qed.

Lemma limited_step_inv limit k s s' :
  0 < limit → limited_step limit k s s' → limit_inv limit k s → limit_inv limit k s'.
Proof.
  intros Hpos (Hs & Hk & Hmax) [H1 H2 H3].
  destruct Hs as [w cs ms g|w w' pre c c' post ms sp Hs|w cs ms m d Ho|w cs ms n|w cs ms m g Hm|w cs ms m g Hm|w cs ms m g Hm];
    cbn in *; try (by split; cbn).
  - split; cbn; [done|by constructor|]. by rewrite count_callers_cons.
  - apply Forall_app in H2 as [Hpre [Hc Hpost]%Forall_cons].
    split; cbn; [done|apply Forall_app; split; [done|constructor; [|done]]|].
    + destruct c as [g|g|g m|g|g mx|g|g m]; cbn in Hs; repeat case_match; simplify_eq/=; done.
    + rewrite count_callers_app, count_callers_cons. rewrite count_callers_app, count_callers_cons in Hk, H3. pose proof (admitted_in_flight pre).
      pose proof (admitted_in_flight post). pose proof (directory_entry_count w (caller_grain c)) as Hent.
      unfold GrainDirectory_activation_count in *.
      destruct c as [g|g|g m|g|g mx|g|g m]; cbn in Hs, Hent; repeat case_match; simplify_eq/=; try lia.
      match goal with Hb : _ && _ = false |- _ => apply andb_false_iff in Hb as [Hb%bool_decide_eq_false|Hb%bool_decide_eq_false] end;
        unfold GrainDirectory_activation_count in *; lia.
  - split; cbn; [done|done|]. unfold GrainDirectory_activation_count in *. rewrite activator_remove_activations.
    rewrite map_size_delete. destruct (activations (rt_dir w) !! g); cbn; lia.
Qed.

Lemma limited_conc limit k s s' : rtc (limited_step limit k) s s' → rtc conc_step s s'.
Proof. induction 1 as [|s s1 s' [Hs _] _ IH]; [done|]. by eapply rtc_l. Qed.

(** A step of one of at most [k] callers. *)
Lemma limited_caller limit k w w' pre c c' post ms sp :
  caller_step w c = (w', c', sp) → max_activations (rt_dir w') = limit →
  (count_callers in_flight (pre ++ c' :: post) ≤ k)%nat →
  limited_step limit k (mkConc w (pre ++ c :: post) ms) (mkConc w' (pre ++ c' :: post) (add_mail (caller_grain c) sp ms)).
Proof. intros Hs Hm Hk. split_and!; [by apply cs_caller|done|done]. Qed.

Lemma count_entries gs cs : count_callers in_flight ((CEntry <$> gs) ++ cs) = (length gs + count_callers in_flight cs)%nat.
Proof.
  induction gs as [|g gs IH]; [done|]. rewrite fmap_cons, <- app_comm_cons, count_callers_cons, IH. cbn. lia.
Qed.

(** Callers of grains that are not active all get past the check before any of them is counted. *)
Lemma callers_admitted limit k w cs ms gs :
  draining (rt_dir w) = false → ¬ at_limit w → max_activations (rt_dir w) = limit →
  (length gs + count_callers in_flight cs ≤ k)%nat →
  rtc (limited_step limit k) (mkConc w cs ms) (mkConc w ((CEntry <$> gs) ++ cs) ms).
Proof.
  intros Hd Hl Hm Hk. induction gs as [|g gs IH]; [apply rtc_refl|]. cbn in Hk. etrans; [apply IH; lia|].
  assert (∀ c, (count_callers in_flight ([] ++ c :: ((CEntry <$> gs) ++ cs)) ≤ k)%nat) as Hcount.
  { intros c. cbn [app]. rewrite count_callers_cons, count_entries. destruct (in_flight c); lia. }
  eapply rtc_l; [split; [apply (cs_call _ _ _ g)|split; [apply (Hcount (CStart g))|done]]|].
  eapply rtc_l; [apply (limited_caller limit k w w [] (CStart g) (CLoadMax g) _ ms None); [cbn; by rewrite Hd|done|apply Hcount]|].
  eapply rtc_l; [apply (limited_caller limit k w w [] (CLoadMax g) (CLen g (max_activations (rt_dir w))) _ ms None);
    [done|done|apply Hcount]|].
  apply rtc_once. apply (limited_caller limit k w w [] (CLen g _) (CEntry g) _ ms None); [|done|apply Hcount].
  cbn. by rewrite at_limit_test, bool_decide_false.
Qed.

Lemma directory_entry_vacant w g :
  activations (rt_dir w) !! g = None →
  ∃ w' m, directory_entry w g = (w', m, Some m) ∧
    activations (rt_dir w') = <[g := activation_of g m]> (activations (rt_dir w)) ∧
    max_activations (rt_dir w') = max_activations (rt_dir w) ∧ draining (rt_dir w') = draining (rt_dir w).
Proof. intros Hg. unfold directory_entry. rewrite Hg. by eexists _, _. Qed.

Lemma callers_enter limit k w cs ms gs :
  max_activations (rt_dir w) = limit → (length gs + count_callers in_flight cs ≤ k)%nat → NoDup gs → Forall (λ g, activations (rt_dir w) !! g = None) gs →
  ∃ w' cs' ms', rtc (limited_step limit k) (mkConc w ((CEntry <$> gs) ++ cs) ms) (mkConc w' cs' ms') ∧
    GrainDirectory_activation_count w' = (length gs + GrainDirectory_activation_count w)%nat ∧
    max_activations (rt_dir w') = max_activations (rt_dir w).
Proof.
  revert w cs ms. induction gs as [|g gs IH] using rev_ind; intros w cs ms Hlim Hk Hnd Hn.
  { exists w, cs, ms. split; [apply rtc_refl|done]. }
  rewrite length_app in Hk. cbn in Hk. apply NoDup_app in Hnd as (Hnd & Hdisj & _). apply Forall_app in Hn as [Hn Hg]. rewrite Forall_singleton in Hg.
  destruct (directory_entry_vacant w g Hg) as (w1 & m & He & Ha & Hmax & _).
  destruct (IH w1 (CReturned g m :: cs) (<[m := (g, MRunning)]> ms)) as (w' & cs' & ms' & Hr & Hc & Hm');
    [congruence|rewrite count_callers_cons; cbn; lia|exact Hnd|..].
  { rewrite Forall_forall in Hn |- *. intros g' Hg'. rewrite Ha, lookup_insert_ne; [auto|].
    intros <-. apply (Hdisj _ Hg'). by left. }
  exists w', cs', ms'. split_and!.
  - rewrite fmap_app, <- app_assoc. cbn. eapply rtc_l; [|exact Hr].
    apply (limited_caller limit k w w1 (CEntry <$> gs) (CEntry g) (CReturned g m) cs ms (Some m)); [cbn; by rewrite He|congruence|].
    rewrite count_entries, count_callers_cons. cbn. lia.
  - rewrite Hc, length_app. unfold GrainDirectory_activation_count. rewrite Ha, map_size_insert, Hg. cbn. lia.
  - by rewrite Hm'.
Qed.

(** C28: the activation limit is a soft one.  With at most [k] calls in progress at a time and a fixed
    limit [limit], a silo never has more than [limit - 1 + k] activations, in any interleaving; and the bound is attained: from a
    state with [limit - 1] activations and [k] grains that are not active, [k] calls in progress at once reach
    [limit - 1 + k] activations, the limit staying what it is: all pass the check before the first of them is
    counted. *)
Theorem activation_limit_overshoot limit k w :
  0 < limit → max_activations (rt_dir w) = limit →
  (∀ s, Z.of_nat (GrainDirectory_activation_count w) ≤ limit - 1 + Z.of_nat k →
     rtc (limited_step limit k) (mkConc w [] ∅) s →
     Z.of_nat (GrainDirectory_activation_count (c_rt s)) ≤ limit - 1 + Z.of_nat k) ∧
  (∀ gs, draining (rt_dir w) = false → Z.of_nat (GrainDirectory_activation_count w) = limit - 1 →
     length gs = k → NoDup gs → Forall (λ g, activations (rt_dir w) !! g = None) gs →
     ∃ s, rtc (limited_step limit k) (mkConc w [] ∅) s ∧
       Z.of_nat (GrainDirectory_activation_count (c_rt s)) = limit - 1 + Z.of_nat k).
Proof.
  intros Hpos Hmax. split.
  - intros s Hc Hr.
    assert (limit_inv limit k s) as [_ _ H].
    { assert (limit_inv limit k (mkConc w [] ∅)) as Hi by (split; [done|done|unfold count_callers; cbn; lia]).
      revert Hi. clear Hc Hmax. induction Hr; eauto using limited_step_inv. }
    lia.
  - intros gs Hd Hc Hk Hnd Hn.
    assert (¬ at_limit w) as Hl by (unfold at_limit; lia).
    assert (length gs + count_callers in_flight [] ≤ k)%nat as Hk' by (unfold count_callers; cbn; lia).
    destruct (callers_enter limit k w [] ∅ gs Hmax Hk' Hnd Hn) as (w' & cs' & ms' & Hr & Hcount & _).
    exists (mkConc w' cs' ms'). split; [|cbn; lia]. etrans; [|exact Hr]. by apply callers_admitted.
Qed.

(** A silo limited to one activation, with three callers at once. *)
Lemma activation_limit_overshoot_witness :
  let w := GrainDirectory_set_max_activations Runtime_new 1 in
  ∃ s, rtc (limited_step 1 3) (mkConc w [] ∅) s ∧ Z.of_nat (GrainDirectory_activation_count (c_rt s)) = 3.
Proof.
  intros w.
  destruct (proj2 (activation_limit_overshoot 1 3 w ltac:(lia) eq_refl)
              [mkGrainId "Cart" "1"; mkGrainId "Cart" "2"; mkGrainId "Cart" "3"]) as (s & Hr & Hc).
  - reflexivity.
  - vm_compute. reflexivity.
  - reflexivity.
  - apply (bool_decide_unpack _). vm_compute. exact I.
  - repeat constructor.
  - exists s. split; [exact Hr|exact Hc].
Defined.

(** ** Draining *)

(** Where [drain] is.  The first two loops iterate over the map while others change it: [start] is what
    the map held when the iteration began; an iterator yields entries that are present, none twice, and ends when
    it has yielded every entry that was there throughout. *)
Inductive DrainPhase :=
| DFlag
| DCancel (start : gset GrainId) (seen : list GrainId)
| DCollect (start : gset GrainId) (keys : list GrainId)
| DRemove (keys : list GrainId) (tasks : list JoinHandle)
| DWait (tasks : list JoinHandle)
| DPoolCollect (start : gset GrainId) (keys : list GrainId)
| DPoolRemove (keys : list GrainId)
| DDone.

Definition set_draining (w : Runtime) : Runtime :=
  with_dir w (mkDirectory (activations (rt_dir w)) (worker_pools (rt_dir w)) true (max_activations (rt_dir w))).
Definition cancel (w : Runtime) (token : nat) : Runtime :=
  mkRuntime (rt_dir w) (rt_open w) ({[token]} ∪ rt_cancelled w) (rt_aborted w) (rt_gauge w) (rt_inbox w) (rt_fresh w).

(** [activations.remove(key)] of the removal loop and what it does with the activation. *)
Definition drain_one (w : Runtime) (k : GrainId) (tasks : list JoinHandle) : Runtime * list JoinHandle :=
  match GrainDirectory_remove w k with
  | (w, Some a) => (cancel w (act_cancellation a), tasks ++ [act_task a])
  | (w, None) => (w, tasks)
  end.
(** [worker_pools.remove(&key)] and the aborts of its tasks. *)
Definition drain_pool (w : Runtime) (k : GrainId) : Runtime :=
  match worker_pools (rt_dir w) !! k with
  | Some p => foldl (end_task true) (with_pools w (delete k (worker_pools (rt_dir w)))) (pool_tasks p)
  | None => w
  end.

Definition seen_all {A} (start : gset GrainId) (m : gmap GrainId A) (keys : list GrainId) : Prop :=
  ∀ k, k ∈ start → is_Some (m !! k) → k ∈ keys.

Inductive drain_step : Runtime * DrainPhase → Runtime * DrainPhase → Prop :=
| d_flag w : drain_step (w, DFlag) (set_draining w, DCancel (dom (activations (rt_dir w))) [])
| d_cancel w start seen g a :
    activations (rt_dir w) !! g = Some a → g ∉ seen →
    drain_step (w, DCancel start seen) (cancel w (act_cancellation a), DCancel start (seen ++ [g]))
| d_cancelled w start seen :
    seen_all start (activations (rt_dir w)) seen →
    drain_step (w, DCancel start seen) (w, DCollect (dom (activations (rt_dir w))) [])
| d_collect w start keys g :
    is_Some (activations (rt_dir w) !! g) → g ∉ keys →
    drain_step (w, DCollect start keys) (w, DCollect start (keys ++ [g]))
| d_collected w start keys :
    seen_all start (activations (rt_dir w)) keys →
    drain_step (w, DCollect start keys) (w, DRemove keys [])
| d_remove w k keys tasks :
    drain_step (w, DRemove (k :: keys) tasks) ((drain_one w k tasks).1, DRemove keys (drain_one w k tasks).2)
| d_removed w tasks : drain_step (w, DRemove [] tasks) (w, DWait tasks)
| d_wait w t tasks abort : drain_step (w, DWait (t :: tasks)) (end_task abort w t, DWait tasks)
| d_waited w : drain_step (w, DWait []) (w, DPoolCollect (dom (worker_pools (rt_dir w))) [])
| d_pool_collect w start keys g :
    is_Some (worker_pools (rt_dir w) !! g) → g ∉ keys →
    drain_step (w, DPoolCollect start keys) (w, DPoolCollect start (keys ++ [g]))
| d_pool_collected w start keys :
    seen_all start (worker_pools (rt_dir w)) keys →
    drain_step (w, DPoolCollect start keys) (w, DPoolRemove keys)
| d_pool_remove w k keys : drain_step (w, DPoolRemove (k :: keys)) (drain_pool w k, DPoolRemove keys)
| d_done w : drain_step (w, DPoolRemove []) (w, DDone).

(** The rest of the silo while it drains: callers, mailboxes and the rebalancer removing entries, tasks ending,
    messages, limit changes, worker pools. *)
Inductive draining_step : Runtime * list Caller * DrainPhase → Runtime * list Caller * DrainPhase → Prop :=
| dr_drain w cs p w' p' : drain_step (w, p) (w', p') → draining_step (w, cs, p) (w', cs, p')
| dr_call w cs p g : draining_step (w, cs, p) (w, CStart g :: cs, p)
| dr_caller w w' pre c c' post p spawned :
    caller_step w c = (w', c', spawned) → draining_step (w, pre ++ c :: post, p) (w', pre ++ c' :: post, p)
| dr_mailbox_remove w cs p g : draining_step (w, cs, p) (GrainDirectory_activator_remove w g, cs, p)
| dr_remove w cs p g : draining_step (w, cs, p) ((GrainDirectory_remove w g).1, cs, p)
| dr_task_end w cs p b t : draining_step (w, cs, p) (end_task b w t, cs, p)
| dr_enqueue w cs p s d : draining_step (w, cs, p) (enqueue w s d, cs, p)
| dr_limit w cs p n : draining_step (w, cs, p) (GrainDirectory_set_max_activations w n, cs, p)
| dr_pool w cs p g n : draining_step (w, cs, p) ((GrainDirectory_get_or_insert_pool w g n).1, cs, p).

(** A caller that loaded the flag before it was set and has not taken its entry yet. *)
Definition past_flag (c : Caller) : bool :=
  match c with CLoadMax _ | CLen _ _ | CEntry _ => true | _ => false end.

(** What may still be in the directory, with [late] the grains of the callers past the flag: *)
Definition drain_inv (late : gset GrainId) (st : Runtime * list Caller * DrainPhase) : Prop :=
  let '(w, cs, p) := st in
  draining (rt_dir w) = true ∧
  (∀ c, c ∈ cs → past_flag c = true → caller_grain c ∈ late) ∧
  match p with
  | DFlag => False
  | DCancel _ _ => True
  | DCollect start keys => dom (activations (rt_dir w)) ⊆ start ∪ late
  | DRemove keys _ => dom (activations (rt_dir w)) ⊆ list_to_set keys ∪ late
  | _ => dom (activations (rt_dir w)) ⊆ late
  end.

Lemma drain_inv_frame late w w' cs cs' p :
  drain_inv late (w, cs, p) → draining (rt_dir w') = draining (rt_dir w) →
  dom (activations (rt_dir w')) ⊆ dom (activations (rt_dir w)) ∪ late →
  (∀ c, c ∈ cs' → past_flag c = true → caller_grain c ∈ late) → drain_inv late (w', cs', p).
Proof. intros (Hd & Hc & Hp) Hd' Hdom Hc'. split_and!; [congruence|done|].
  clear Hc Hc' Hd Hd'. destruct p; set_solver. Qed.

Lemma drain_one_frame w k tasks :
  draining (rt_dir (drain_one w k tasks).1) = draining (rt_dir w) ∧
  activations (rt_dir (drain_one w k tasks).1) = delete k (activations (rt_dir w)).
Proof.
  unfold drain_one. rewrite <- remove_activations. unfold GrainDirectory_remove.
  by destruct (activations (rt_dir w) !! k).
Qed.

Lemma drain_pool_frame w k :
  draining (rt_dir (drain_pool w k)) = draining (rt_dir w) ∧
  activations (rt_dir (drain_pool w k)) = activations (rt_dir w).
Proof.
  unfold drain_pool. destruct (worker_pools (rt_dir w) !! k) as [p|]; [|done].
  by rewrite (foldl_end_task_dir (λ _, true)).
Qed.

Lemma drain_step_inv late w cs p w' p' :
  drain_step (w, p) (w', p') → drain_inv late (w, cs, p) → drain_inv late (w', cs, p').
Proof.
  intros Hs (Hd & Hc & Hp). inversion Hs; subst; try done.
  - split_and!; [done|done|]. set_solver.
  - split_and!; [done|done|]. intros g Hg. apply Hp in Hg as Hsl. apply elem_of_dom in Hg.
    unfold seen_all in *. set_solver.
  - destruct (drain_one_frame w k tasks) as [Hd' Ha]. split_and!; [congruence|done|].
    rewrite Ha, dom_delete_L. clear -Hp. set_solver.
  - split_and!; [done|done|]. set_solver.
  - destruct (drain_pool_frame w k) as [Hd' Ha]. split_and!; [congruence|done|]. by rewrite Ha.
Qed.

Lemma draining_caller_inv late w pre c post p w' c' spawned :
  caller_step w c = (w', c', spawned) →
  drain_inv late (w, pre ++ c :: post, p) → drain_inv late (w', pre ++ c' :: post, p).
Proof.
  intros Hs Hi. pose proof Hi as (Hd & Hc & _).
  assert (past_flag c' = true → past_flag c = true ∧ caller_grain c' = caller_grain c) as Hpast.
  { destruct c; cbn in Hs; rewrite ?Hd in Hs; repeat case_match; simplify_eq/=; done. }
  assert (draining (rt_dir w') = draining (rt_dir w) ∧
    dom (activations (rt_dir w')) ⊆ dom (activations (rt_dir w)) ∪ late) as [Hd' Hdom].
  { assert (past_flag c = true → caller_grain c ∈ late) as Hlate by (apply Hc; set_solver).
    clear Hi Hc Hpast Hd.
    destruct c as [g|g|g m|g|g mx|g|g m]; cbn in Hs, Hlate; unfold directory_entry, create_channel, closed_channel in Hs;
      repeat case_match; simplify_eq/=; (split; [done|]); rewrite ?dom_insert_L; set_solver. }
  eapply drain_inv_frame; [exact Hi|done|done|].
  intros c1 Hin Hp. apply elem_of_app in Hin as [Hin|[->|Hin]%elem_of_cons].
  - apply Hc; [set_solver|done].
  - destruct (Hpast Hp) as [Hp' ->]. apply Hc; [set_solver|done].
  - apply Hc; [set_solver|done].
Qed.

Lemma pool_activations w g n :
  activations (rt_dir (GrainDirectory_get_or_insert_pool w g n).1) = activations (rt_dir w) ∧
  draining (rt_dir (GrainDirectory_get_or_insert_pool w g n).1) = draining (rt_dir w).
Proof.
  unfold GrainDirectory_get_or_insert_pool. pose proof (create_pool_spec w n) as Hp.
  destruct (create_pool w n) as [w' ss]. destruct Hp as (Hd & _).
  destruct (worker_pools (rt_dir w) !! g); [destruct (existsb _ _)|]; cbn; by rewrite ?Hd.
Qed.

Lemma draining_step_inv late st st' : draining_step st st' → drain_inv late st → drain_inv late st'.
Proof.
  destruct 1 as [w cs p w' p' Hs|w cs p g|w w' pre c c' post p sp Hs|w cs p g|w cs p g|w cs p b t|w cs p s d|w cs p n|w cs p g n];
    intros Hi; pose proof Hi as (Hd & Hc & _).
  - by eapply drain_step_inv.
  - eapply drain_inv_frame; [exact Hi|done|set_solver|]. intros c [->|Hin]%elem_of_cons; [done|auto].
  - by eapply draining_caller_inv.
  - eapply drain_inv_frame; [exact Hi| | |done]; [apply activator_remove_frame|].
    rewrite activator_remove_activations, dom_delete_L. set_solver.
  - eapply drain_inv_frame; [exact Hi| | |done].
    + unfold GrainDirectory_remove. by destruct (activations (rt_dir w) !! g).
    + rewrite remove_activations, dom_delete_L. set_solver.
  - eapply drain_inv_frame; [exact Hi|done|set_solver|done].
  - eapply drain_inv_frame; [exact Hi|done|set_solver|done].
  - eapply drain_inv_frame; [exact Hi|done|set_solver|done].
  - destruct (pool_activations w g n) as [Ha Hd']. eapply drain_inv_frame; [exact Hi|done|rewrite Ha; set_solver|done].
Qed.

(** C13: draining under concurrency, for the activations (worker pools do not look at the flag): take the moment
    [drain] sets the flag, with the calls then in progress. Whatever happens while its loops run (more callers,
    mailboxes and the rebalancer removing entries, tasks ending, new pools), when it returns the only grains still
    active are those of calls that had loaded the flag before it was set and had not yet taken their entry; with no
    such call no grain is active, and every later call of [get_or_insert] is refused. *)
Theorem drain_leaves_only_late_callers w0 w cs p w' cs' :
  drain_step (w0, DFlag) (w, p) → rtc draining_step (w, cs, p) (w', cs', DDone) →
  (∀ g, is_Some (activations (rt_dir w') !! g) → ∃ c, c ∈ cs ∧ past_flag c = true ∧ caller_grain c = g) ∧
  (Forall (λ c, past_flag c = false) cs →
     activations (rt_dir w') = ∅ ∧ ∀ g, GrainDirectory_get_or_insert w' g = closed_channel w').
Proof.
  intros Hf Hr. inversion Hf; subst.
  set (late := list_to_set (caller_grain <$> filter (λ c, past_flag c = true) cs) : gset GrainId).
  assert (∀ g, g ∈ late ↔ ∃ c, c ∈ cs ∧ past_flag c = true ∧ caller_grain c = g) as Hlate.
  { intros g. unfold late. rewrite elem_of_list_to_set, list_elem_of_fmap. setoid_rewrite list_elem_of_filter. naive_solver. }
  assert (drain_inv late (w', cs', DDone)) as (Hd & _ & Hdom).
  { assert (drain_inv late (set_draining w0, cs, DCancel (dom (activations (rt_dir w0))) [])) as Hi.
    { split_and!; [done| |done]. intros c Hc Hp. apply Hlate. eauto. }
    revert Hi Hr. generalize (set_draining w0, cs, DCancel (dom (activations (rt_dir w0))) []).
    intros st Hi Hr. induction Hr; eauto using draining_step_inv. }
  split.
  - intros g Hg%elem_of_dom. apply Hlate. set_solver.
  - intros Hnone.
    assert (activations (rt_dir w') = ∅) as He.
    { apply dom_empty_inv_L. assert (∀ g, g ∉ late); [|set_solver]. intros g (c & Hc & Hp & _)%Hlate.
      rewrite Forall_forall in Hnone. by rewrite (Hnone _ Hc) in Hp. }
    split; [done|]. intros g. apply get_or_insert_refused; [|by left].
    unfold live_sender, GrainDirectory_get_sender. by rewrite He, lookup_empty.
Qed.

(** *** Uninterrupted, the loops of [drain] are the drain of [Directory] *)
Lemma cancel_loop l : ∀ w start seen,
  NoDup (fst <$> l) → (∀ g a, (g, a) ∈ l → activations (rt_dir w) !! g = Some a ∧ g ∉ seen) →
  rtc drain_step (w, DCancel start seen)
    (mkRuntime (rt_dir w) (rt_open w) (list_to_set ((act_cancellation ∘ snd) <$> l) ∪ rt_cancelled w)
       (rt_aborted w) (rt_gauge w) (rt_inbox w) (rt_fresh w), DCancel start (seen ++ (fst <$> l))).
Proof.
  induction l as [|[g a] l IH]; intros w start seen Hnd Hin; cbn.
  - rewrite app_nil_r, (left_id_L ∅ (∪)). destruct w. apply rtc_refl.
  - cbn in Hnd. apply NoDup_cons in Hnd as [Hg Hnd]. destruct (Hin g a) as [Ha Hs]; [by left|].
    eapply rtc_l; [by eapply (d_cancel w start seen g a)|].
    assert (∀ g' a', (g', a') ∈ l → activations (rt_dir (cancel w (act_cancellation a))) !! g' = Some a' ∧
              g' ∉ seen ++ [g]) as Hin'.
    { intros g' a' Hl. destruct (Hin g' a') as [Ha' Hs']; [by right|]. split; [done|].
      rewrite elem_of_app, list_elem_of_singleton. intros [?| ->]; [done|]. apply Hg.
      apply list_elem_of_fmap. by exists (g, a'). }
    specialize (IH _ start _ Hnd Hin'). cbn in IH. rewrite <- app_assoc in IH. cbn in IH.
    by rewrite (assoc_L (∪)), (comm_L (∪) _ {[act_cancellation a]}) in IH.
Qed.

Lemma collect_loop w start ks keys :
  NoDup (keys ++ ks) → Forall (λ g, is_Some (activations (rt_dir w) !! g)) ks →
  rtc drain_step (w, DCollect start keys) (w, DCollect start (keys ++ ks)).
Proof.
  revert keys. induction ks as [|k ks IH]; intros keys Hnd Hk.
  - rewrite app_nil_r. apply rtc_refl.
  - apply Forall_cons in Hk as [Hk Hks]. rewrite cons_middle, app_assoc in *.
    eapply rtc_l; [apply (d_collect w start keys k)|by apply IH]; [done|].
    apply NoDup_app in Hnd as (Hnd & _). apply NoDup_app in Hnd as (_ & Hd & _). intros Hin. apply (Hd _ Hin). by left.
Qed.

Lemma pool_collect_loop w start ks keys :
  NoDup (keys ++ ks) → Forall (λ g, is_Some (worker_pools (rt_dir w) !! g)) ks →
  rtc drain_step (w, DPoolCollect start keys) (w, DPoolCollect start (keys ++ ks)).
Proof.
  revert keys. induction ks as [|k ks IH]; intros keys Hnd Hk.
  - rewrite app_nil_r. apply rtc_refl.
  - apply Forall_cons in Hk as [Hk Hks]. rewrite cons_middle, app_assoc in *.
    eapply rtc_l; [apply (d_pool_collect w start keys k)|by apply IH]; [done|].
    apply NoDup_app in Hnd as (Hnd & _). apply NoDup_app in Hnd as (_ & Hd & _). intros Hin. apply (Hd _ Hin). by left.
Qed.

Lemma remove_loop ks : ∀ w tasks,
  (∀ g a, activations (rt_dir w) !! g = Some a → act_cancellation a ∈ rt_cancelled w) →
  rtc drain_step (w, DRemove ks tasks)
    ((drain_remove w ks).1, DRemove [] (tasks ++ (drain_remove w ks).2)).
Proof.
  induction ks as [|k ks IH]; intros w tasks Hc; cbn; [rewrite app_nil_r; apply rtc_refl|].
  eapply rtc_l; [apply d_remove|]. unfold drain_one.
  pose proof (remove_activations w k) as Ha.
  assert (rt_cancelled (GrainDirectory_remove w k).1 = rt_cancelled w) as Hcw
    by (unfold GrainDirectory_remove; by destruct (activations (rt_dir w) !! k)).
  assert (∀ a, (GrainDirectory_remove w k).2 = Some a → act_cancellation a ∈ rt_cancelled w) as Hk.
  { unfold GrainDirectory_remove. destruct (activations (rt_dir w) !! k) eqn:E; [|done]. intros b [= <-]. eauto. }
  destruct (GrainDirectory_remove w k) as [w1 [a|]]; cbn in *.
  - assert (cancel w1 (act_cancellation a) = w1) as Hsame.
    { destruct w1 as [d o c ab ga ib fr]. unfold cancel. cbn in *. f_equal. specialize (Hk _ eq_refl). set_solver. }
    rewrite Hsame. specialize (IH w1 (tasks ++ [act_task a])).
    destruct (drain_remove w1 ks) as [w2 ts]. cbn in *. rewrite <- app_assoc in IH. apply IH.
    rewrite Ha, Hcw. intros g b [_ Hb]%lookup_delete_Some. eauto.
  - apply IH. rewrite Ha, Hcw. intros g b [_ Hb]%lookup_delete_Some. eauto.
Qed.

Lemma wait_loop f ts w :
  rtc drain_step (w, DWait ts) (foldl (λ w t, end_task (negb (f t)) w t) w ts, DWait []).
Proof.
  revert w. induction ts as [|t ts IH]; intros w; cbn; [apply rtc_refl|].
  eapply rtc_l; [apply (d_wait _ _ _ (negb (f t)))|apply IH].
Qed.

Lemma with_pools_end_tasks w p ts :
  with_pools (foldl (end_task true) w ts) p = foldl (end_task true) (with_pools w p) ts.
Proof. revert w. induction ts as [|t ts IH]; intros w; cbn; [done|]. by rewrite IH. Qed.

Lemma pool_loop l : ∀ w,
  NoDup (fst <$> l) → (∀ k p, (k, p) ∈ l → worker_pools (rt_dir w) !! k = Some p) →
  rtc drain_step (w, DPoolRemove (fst <$> l))
    (foldl (end_task true) (with_pools w (foldl (λ m k, delete k m) (worker_pools (rt_dir w)) (fst <$> l)))
       (l ≫= (pool_tasks ∘ snd)), DPoolRemove []).
Proof.
  induction l as [|[k p] l IH]; intros w Hnd Hin.
  - cbn. replace (with_pools w (worker_pools (rt_dir w))) with w by (by destruct w as [[] ? ? ? ? ? ?]). apply rtc_refl.
  - cbn in Hnd. apply NoDup_cons in Hnd as [Hk Hnd]. cbn [fmap list_fmap fst].
    eapply rtc_l; [apply d_pool_remove|]. unfold drain_pool. rewrite (Hin k p) by (by left).
    rewrite bind_cons, foldl_app. cbn [foldl compose snd].
    specialize (IH (foldl (end_task true) (with_pools w (delete k (worker_pools (rt_dir w)))) (pool_tasks p)) Hnd).
    rewrite (foldl_end_task_dir (λ _, true)), with_pools_end_tasks in IH. apply IH.
    intros k' p' Hl. cbn. rewrite lookup_delete_ne; [apply Hin; by right|].
    intros <-. apply Hk, list_elem_of_fmap. by exists (k, p').
Qed.

Lemma delete_all_empty {A} (m : gmap GrainId A) :
  foldl (λ m k, delete k m) m (fst <$> map_to_list m) = ∅.
Proof.
  assert (∀ ks (m : gmap GrainId A) i, foldl (λ m k, delete k m) m ks !! i = if decide (i ∈ ks) then None else m !! i) as Hd.
  { induction ks as [|k ks IH]; intros m' i; cbn; [by case_decide as Hi; [apply not_elem_of_nil in Hi|]|].
    rewrite IH, lookup_delete. repeat case_decide; set_solver. }
  apply map_empty. intros i. rewrite Hd. case_decide as Hi; [done|].
  destruct (m !! i) as [x|] eqn:E; [|done]. exfalso. apply Hi, list_elem_of_fmap. exists (i, x).
  split; [done|]. by apply elem_of_map_to_list.
Qed.

Lemma keys_seen {A} (m : gmap GrainId A) start : seen_all start m ([] ++ (fst <$> map_to_list m)).
Proof.
  intros k _ [x Hx]. cbn. apply list_elem_of_fmap. exists (k, x). split; [done|]. by apply elem_of_map_to_list.
Qed.
Lemma keys_present {A} (m : gmap GrainId A) : Forall (λ g, is_Some (m !! g)) (fst <$> map_to_list m).
Proof.
  apply Forall_forall. intros g ([g' x] & -> & Hx%elem_of_map_to_list)%list_elem_of_fmap. cbn. eauto.
Qed.

(** Without interruption the loops of [drain] are the operation [Directory] describes. *)
Theorem drain_run_agrees f w : rtc drain_step (w, DFlag) (GrainDirectory_drain f w, DDone).
Proof.
  unfold GrainDirectory_drain. eapply rtc_l; [apply d_flag|]. fold (set_draining w). set (w1 := set_draining w).
  change (activations (rt_dir w)) with (activations (rt_dir w1)).
  etrans; [apply (cancel_loop (map_to_list (activations (rt_dir w1))))|].
  { apply NoDup_fst_map_to_list. }
  { intros g a Hg%elem_of_map_to_list. split; [done|apply not_elem_of_nil]. }
  fold (cancel_all w1). eapply rtc_l; [apply d_cancelled, keys_seen|].
  etrans; [apply (collect_loop _ _ (fst <$> map_to_list (activations (rt_dir (cancel_all w1)))))|].
  { apply NoDup_fst_map_to_list. } { apply keys_present. }
  eapply rtc_l; [apply d_collected, keys_seen|]. cbn [app].
  etrans; [apply remove_loop|].
  { intros g a Hg%elem_of_map_to_list. cbn. apply elem_of_union_l, elem_of_list_to_set, list_elem_of_fmap. by exists (g, a). }
  destruct (drain_remove (cancel_all w1) _) as [w2 ts]. cbn [fst snd app].
  eapply rtc_l; [apply d_removed|]. etrans; [apply (wait_loop f)|]. set (w3 := foldl _ w2 ts).
  eapply rtc_l; [apply d_waited|].
  etrans; [apply (pool_collect_loop _ _ (fst <$> map_to_list (worker_pools (rt_dir w3))))|].
  { apply NoDup_fst_map_to_list. } { apply keys_present. }
  eapply rtc_l; [apply d_pool_collected, keys_seen|]. cbn [app].
  etrans; [apply (pool_loop (map_to_list (worker_pools (rt_dir w3))))|].
  { apply NoDup_fst_map_to_list. } { by intros k p Hp%elem_of_map_to_list. }
  rewrite delete_all_empty. apply rtc_once, d_done.
Qed.

Lemma drain_after_flag f w cs :
  rtc draining_step (set_draining w, cs, DCancel (dom (activations (rt_dir w))) []) (GrainDirectory_drain f w, cs, DDone).
Proof.
  pose proof (drain_run_agrees f w) as Hr. apply rtc_inv in Hr as [?|([w1 p1] & Hs & Hr)]; [done|].
  inversion Hs; subst.
  apply (rtc_congruence (λ st, (st.1, cs, st.2)) draining_step) in Hr; [exact Hr|].
  intros [] [] Hst. by apply dr_drain.
Qed.

(** The callers of the bound exist: a call that passed the check of the flag before it was set takes its entry
    after [drain] has emptied the directory, and its grain is active, with an open mailbox that
    nobody waits for or aborts, on a silo whose drain has completed. *)
Theorem late_caller_survives_drain w g :
  draining (rt_dir w) = false → ¬ at_limit w →
  ∃ w' m, rtc conc_step (mkConc w [] ∅) (mkConc w [CEntry g] ∅) ∧ drain_step (w, DFlag) (set_draining w, DCancel (dom (activations (rt_dir w))) []) ∧
    rtc draining_step (set_draining w, [CEntry g], DCancel (dom (activations (rt_dir w))) []) (w', [CReturned g m], DDone) ∧
    GrainDirectory_get_sender w' g = Some m ∧ m ∈ rt_open w'.
Proof.
  intros Hd Hl. pose proof (drain_stops_activation (λ _, true) w g) as (He & _).
  destruct (directory_entry_vacant (GrainDirectory_drain (λ _, true) w) g) as (w' & m & Hent & Ha & _); [by rewrite He, lookup_empty|].
  exists w', m. split_and!; [|apply d_flag| | |].
  { apply (limited_conc (max_activations (rt_dir w)) 1), (callers_admitted _ _ w [] ∅ [g]); done. }
  - etrans; [apply (drain_after_flag (λ _, true))|]. apply rtc_once.
    apply (dr_caller _ _ [] (CEntry g) (CReturned g m) [] DDone (Some m)). cbn. by rewrite Hent.
  - unfold GrainDirectory_get_sender. by rewrite Ha, lookup_insert_eq.
  - unfold directory_entry in Hent. rewrite He, lookup_empty in Hent. cbn in Hent. simplify_eq/=. set_solver.
Qed.

Lemma drain_leaves_only_late_callers_witness :
  let w := (GrainDirectory_get_or_insert Runtime_new test_id).1 in
  ∃ w', rtc draining_step (set_draining w, [CStart test_id], DCancel {[test_id]} []) (w', [CStart test_id], DDone) ∧
    activations (rt_dir w') = ∅ ∧ GrainDirectory_get_or_insert w' test_id = closed_channel w'.
Proof.
  intros w. pose proof (drain_after_flag (λ _, true) w [CStart test_id]) as Hr.
  exists (GrainDirectory_drain (λ _, true) w). split; [exact Hr|].
  destruct (drain_leaves_only_late_callers w _ [CStart test_id] _ _ _ (d_flag w) Hr) as [_ He].
  destruct He as [He Hc]; [by repeat constructor|]. split; [exact He|apply Hc].
Defined.
