(* ===== verification/Reminders.v ===== *)
(** * Timers and reminders

    orlando-timers: the reminder stores ([reminder_store.rs], [sqlite_reminder_store.rs])
    behind the interface [ReminderStore], the reminder service with one iteration of its poll
    loop and the delivery of a tick ([reminder_service.rs]), and volatile timers ([timer.rs]).
    Times are nanoseconds since the epoch, durations nanoseconds. *)
From S2P Require Import Prelude CoreTypes Sql Mailbox Directory.

Record ReminderRegistration := mkReg {
  reg_grain_id : GrainId; reg_name : string; reg_period : Z; reg_due_at : Z }.
#[global] Instance ReminderRegistration_eq_dec : EqDecision ReminderRegistration.
Proof. solve_decision. Defined.

Inductive ReminderError := ReminderStoreError (m : string).

Abbreviation ReminderKey := (GrainId * string)%type.
Definition reg_key (r : ReminderRegistration) : ReminderKey := (reg_grain_id r, reg_name r).

Definition with_due_at (due_at : Z) (r : ReminderRegistration) : ReminderRegistration :=
  mkReg (reg_grain_id r) (reg_name r) (reg_period r) due_at.

(** ** The interface *)
Class ReminderStore (S : Type) := {
  rs_save : S → ReminderRegistration → S * result ReminderError unit;
  rs_delete : S → GrainId → string → S * result ReminderError unit;
  rs_load_due : S → Z → result ReminderError (list ReminderRegistration);
  rs_update_due_at : S → GrainId → string → Z → S * result ReminderError unit }.

(** ** The in-memory store *)
Abbreviation InMemoryReminderStore := (gmap ReminderKey ReminderRegistration).
Definition InMemoryReminderStore_new : InMemoryReminderStore := ∅.

Definition InMemoryReminderStore_save (s : InMemoryReminderStore) (r : ReminderRegistration)
  : InMemoryReminderStore * result ReminderError unit := (<[reg_key r := r]> s, Ok tt).

Definition InMemoryReminderStore_delete (s : InMemoryReminderStore) (g : GrainId) (name : string)
  : InMemoryReminderStore * result ReminderError unit := (delete (g, name) s, Ok tt).

Definition InMemoryReminderStore_load_due (s : InMemoryReminderStore) (now : Z)
  : result ReminderError (list ReminderRegistration) :=
  Ok (filter (λ r, reg_due_at r ≤ now) (map_to_list s).*2).

Definition InMemoryReminderStore_update_due_at (s : InMemoryReminderStore) (g : GrainId)
  (name : string) (due_at : Z) : InMemoryReminderStore * result ReminderError unit :=
  (alter (with_due_at due_at) (g, name) s, Ok tt).

#[global] Instance InMemory_reminders : ReminderStore InMemoryReminderStore := {|
  rs_save := InMemoryReminderStore_save;
  rs_delete := InMemoryReminderStore_delete;
  rs_load_due := InMemoryReminderStore_load_due;
  rs_update_due_at := InMemoryReminderStore_update_due_at |}.

(** ** The SQLite store: rows keyed by [(type_name, grain_key, name)], milliseconds *)
Record ReminderRow := mkReminderRow { period_ms : Z; due_at_ms : Z }.
Abbreviation ReminderTable := (gmap ReminderKey ReminderRow).

Definition ns_per_ms : Z := 1000000.

Definition system_time_to_ms (t : Z) : Z :=
  if bool_decide (t < 0) then 0 else as_i64 (t / ns_per_ms).
Definition ms_to_system_time (ms : Z) : Z := as_u64 ms * ns_per_ms.

(** [intern_type_name]: the cache of names, whether the limit was logged, and the interned name. *)
Definition intern_limit : Z := 10000.
Definition intern_type_name (cache : gmap string string) (name : string) : gmap string string * bool * string :=
  match cache !! name with
  | Some cached => (cache, false, cached)
  | None => (<[name := name]> cache, bool_decide (intern_limit ≤ Z.of_nat (size cache)), name)
  end.

(** Interning is the identity on names as long as only it fills the cache; the limit is logged and not enforced. *)
Lemma intern_is_identity cache name :
  map_Forall (λ k v, v = k) cache →
  let '(cache', logged, name') := intern_type_name cache name in
  name' = name ∧ map_Forall (λ k v, v = k) cache' ∧ (logged = true → intern_limit < Z.of_nat (size cache')).
Proof.
  intros Hc. unfold intern_type_name. destruct (cache !! name) as [c|] eqn:E; [by rewrite (Hc _ _ E)|].
  split_and!; [done|by apply map_Forall_insert_2|]. rewrite bool_decide_eq_true, map_size_insert_None by done. lia.
Qed.

(** The row of a registration, and the registration of a row. *)
Definition reg_to_row (r : ReminderRegistration) : ReminderRow :=
  mkReminderRow (as_i64 (reg_period r / ns_per_ms)) (system_time_to_ms (reg_due_at r)).
Definition row_to_reg (k : ReminderKey) (row : ReminderRow) : ReminderRegistration :=
  mkReg k.1 k.2 (as_u64 (period_ms row) * ns_per_ms) (ms_to_system_time (due_at_ms row)).

Definition SqliteReminderStore_save (f : Faults) (t : ReminderTable) (r : ReminderRegistration)
  : ReminderTable * result ReminderError unit :=
  match f 0%nat with
  | Some e => (t, Err (ReminderStoreError e))
  | None => (<[reg_key r := reg_to_row r]> t, Ok tt)
  end.

Definition SqliteReminderStore_delete (f : Faults) (t : ReminderTable) (g : GrainId) (name : string)
  : ReminderTable * result ReminderError unit :=
  match f 0%nat with
  | Some e => (t, Err (ReminderStoreError e))
  | None => (delete (g, name) t, Ok tt)
  end.

Definition SqliteReminderStore_load_due (f : Faults) (t : ReminderTable) (now : Z)
  : result ReminderError (list ReminderRegistration) :=
  stmt ReminderStoreError f 0 (
    Ok ((λ p, row_to_reg p.1 p.2) <$>
          filter (λ p, due_at_ms p.2 ≤ system_time_to_ms now) (map_to_list t))).

Definition SqliteReminderStore_update_due_at (f : Faults) (t : ReminderTable) (g : GrainId)
  (name : string) (due_at : Z) : ReminderTable * result ReminderError unit :=
  match f 0%nat with
  | Some e => (t, Err (ReminderStoreError e))
  | None => (alter (λ row, mkReminderRow (period_ms row) (system_time_to_ms due_at)) (g, name) t, Ok tt)
  end.

#[global] Instance Sqlite_reminders : ReminderStore ReminderTable := {|
  rs_save := SqliteReminderStore_save no_faults;
  rs_delete := SqliteReminderStore_delete no_faults;
  rs_load_due := SqliteReminderStore_load_due no_faults;
  rs_update_due_at := SqliteReminderStore_update_due_at no_faults |}.

(** ** The reminder service

    The set of type names with a dispatcher stands for the map of dispatch functions, which
    all do the same with their grain type ([dispatch_tick]). *)
Record ReminderService (S : Type) := mkReminderService {
  svc_store : S; svc_dispatchers : gset string; svc_poll_interval : Z }.
Arguments mkReminderService {S}.
Arguments svc_store {S}.
Arguments svc_dispatchers {S}.
Arguments svc_poll_interval {S}.

Section service.
Context {S : Type} `{ReminderStore S}.
Implicit Types (svc : ReminderService S).

Definition ReminderService_new (store : S) : ReminderService S :=
  mkReminderService store ∅ (500 * ns_per_ms).
Definition ReminderService_with_poll_interval (store : S) (poll_interval : Z) : ReminderService S :=
  mkReminderService store ∅ poll_interval.

Definition with_store svc (s : S) : ReminderService S :=
  mkReminderService s (svc_dispatchers svc) (svc_poll_interval svc).

(** The dispatcher is keyed by [std::any::type_name::<G>()]. *)
Definition register_grain_type svc (rust_type_name : string) : ReminderService S :=
  mkReminderService (svc_store svc) ({[rust_type_name]} ∪ svc_dispatchers svc) (svc_poll_interval svc).

Definition register_reminder (now : Z) svc (g : GrainId) (name : string) (period : Z)
  : ReminderService S * result ReminderError unit :=
  let '(s, r) := rs_save (svc_store svc) (mkReg g name period (now + period)) in
  (with_store svc s, r).

Definition unregister_reminder svc (g : GrainId) (name : string)
  : ReminderService S * result ReminderError unit :=
  let '(s, r) := rs_delete (svc_store svc) g name in (with_store svc s, r).

(** The loop over the due registrations: a task is spawned for a registered type (the list of
    spawned ticks), and [due_at] advances in any case, whatever the update returns. *)
Fixpoint poll_due (now : Z) svc (due : list ReminderRegistration)
  : ReminderService S * list ReminderKey :=
  match due with
  | [] => (svc, [])
  | reg :: due' =>
      let spawned :=
        if bool_decide (type_name (reg_grain_id reg) ∈ svc_dispatchers svc) then [reg_key reg] else [] in
      let '(s, _) :=
        rs_update_due_at (svc_store svc) (reg_grain_id reg) (reg_name reg) (now + reg_period reg) in
      let '(svc', ticks) := poll_due now (with_store svc s) due' in
      (svc', spawned ++ ticks)
  end.

(** One iteration of [poll_loop] at the time [now]. *)
Definition poll (now : Z) svc : ReminderService S * list ReminderKey :=
  match rs_load_due (svc_store svc) now with
  | Err _ => (svc, [])
  | Ok due => poll_due now svc due
  end.

(** The loop over the times of its ticks. *)
Fixpoint poll_loop (times : list Z) svc : ReminderService S * list (Z * list ReminderKey) :=
  match times with
  | [] => (svc, [])
  | now :: times' =>
      let '(svc, ticks) := poll now svc in
      let '(svc, rest) := poll_loop times' svc in (svc, (now, ticks) :: rest)
  end.
End service.

(** The spawned task of one tick: activate the grain if needed, then send; [None] when the
    mailbox is closed and the tick is dropped. *)
Definition dispatch_tick (w : Runtime) (k : ReminderKey) : Runtime * option (Sender * string) :=
  let '(w, sender) := GrainDirectory_get_or_insert w k.1 in
  (w, if is_closed w sender then None else Some (sender, k.2)).

(** ** Timers

    What the [select!] of the timer task yields, one item per iteration: a tick of the
    interval with the outcome of the send, or the cancellation. *)
Inductive TimerEvent := TimerTicked (mailbox_open : bool) | TimerCancelled.

Inductive TimerEnd := TimerStopped | TimerRunning.

(** The task after the skipped first tick: the number of delivered ticks, and whether the
    task ended. *)
Fixpoint timer_loop (events : list TimerEvent) : nat * TimerEnd :=
  match events with
  | [] => (0%nat, TimerRunning)
  | TimerTicked true :: events' =>
      let '(n, e) := timer_loop events' in (S n, e)
  | TimerTicked false :: _ => (0%nat, TimerStopped)
  | TimerCancelled :: _ => (0%nat, TimerStopped)
  end.

(** The [i]-th tick of [tokio::time::interval] started at [t0]; the task skips tick 0. *)
Definition interval_tick (t0 period : Z) (i : nat) : Z := t0 + Z.of_nat i * period.
Definition timer_delivery (t0 period : Z) (k : nat) : Z := interval_tick t0 period (S k).

(** ** What a store promises

    A store behaves as a map of registrations, with times rounded by [rs_round]. *)
Definition rounded (round : Z → Z) (r : ReminderRegistration) : ReminderRegistration :=
  mkReg (reg_grain_id r) (reg_name r) (round (reg_period r)) (round (reg_due_at r)).

Class ReminderStoreLaws (S : Type) `{ReminderStore S} := {
  rs_inv : S → Prop;
  rs_state : S → gmap ReminderKey ReminderRegistration;
  rs_round : Z → Z;
  rs_time_ok : Z → Prop;
  rs_keys s : rs_inv s → map_Forall (λ k r, reg_key r = k) (rs_state s);
  rs_save_ok s r : rs_inv s → rs_time_ok (reg_period r) → rs_time_ok (reg_due_at r) →
    ∃ s', rs_save s r = (s', Ok tt) ∧ rs_inv s' ∧
          rs_state s' = <[reg_key r := rounded rs_round r]> (rs_state s);
  rs_delete_ok s g name : rs_inv s →
    ∃ s', rs_delete s g name = (s', Ok tt) ∧ rs_inv s' ∧ rs_state s' = delete (g, name) (rs_state s);
  rs_load_due_ok s now : rs_inv s → rs_time_ok now →
    ∃ due, rs_load_due s now = Ok due ∧
           due ≡ₚ filter (λ r, reg_due_at r ≤ rs_round now) (map_to_list (rs_state s)).*2;
  rs_update_ok s g name due : rs_inv s → rs_time_ok due →
    ∃ s', rs_update_due_at s g name due = (s', Ok tt) ∧ rs_inv s' ∧
          rs_state s' = alter (with_due_at (rs_round due)) (g, name) (rs_state s) }.

#[global] Instance InMemory_reminder_laws : ReminderStoreLaws InMemoryReminderStore.
Proof.
  refine {| rs_inv s := map_Forall (λ k r, reg_key r = k) s; rs_state s := s;
            rs_round t := t; rs_time_ok _ := True |}.
  - done.
  - intros s r Hs _ _. eexists. split; [done|]. split; [by apply map_Forall_insert_2|].
    by destruct r.
  - intros s g name Hs. eexists. split; [done|]. split; [by apply map_Forall_delete|done].
  - intros s now _ _. by eexists.
  - intros s g name due Hs _. eexists. split; [done|]. split; [|done].
    intros k r. rewrite lookup_alter. case_decide as E; [subst|apply Hs].
    intros (r0 & Hr0 & ->)%fmap_Some. exact (Hs _ _ Hr0).
Defined.

(** *** SQLite *)
Definition ms_round (t : Z) : Z := t / ns_per_ms * ns_per_ms.
Definition ms_ok (t : Z) : Prop := 0 ≤ t ∧ t / ns_per_ms < i64_half.

Definition table_state (t : ReminderTable) : gmap ReminderKey ReminderRegistration :=
  map_imap (λ k row, Some (row_to_reg k row)) t.
Definition table_inv (t : ReminderTable) : Prop :=
  map_Forall (λ _ row, 0 ≤ period_ms row < i64_half ∧ 0 ≤ due_at_ms row < i64_half) t.

Lemma table_lookup t k : table_state t !! k = row_to_reg k <$> t !! k.
Proof. unfold table_state. rewrite map_lookup_imap. by destruct (t !! k). Qed.

Lemma ms_div t : ms_ok t → 0 ≤ t / ns_per_ms < i64_half.
Proof. intros [? ?]. split; [|done]. by apply Z.div_pos. Qed.

Lemma to_ms_ok t : ms_ok t → system_time_to_ms t = t / ns_per_ms.
Proof.
  intros Ht. unfold system_time_to_ms. rewrite bool_decide_false by (destruct Ht; lia).
  by apply as_i64_small, ms_div.
Qed.

Lemma as_u64_i64 z : 0 ≤ z < i64_half → as_u64 z = z.
Proof. intros. apply as_u64_small. unfold i64_half, u64_mod in *. lia. Qed.

Lemma ms_roundtrip t : ms_ok t → ms_to_system_time (system_time_to_ms t) = ms_round t.
Proof. intros Ht. unfold ms_to_system_time. by rewrite to_ms_ok, as_u64_i64 by auto using ms_div. Qed.

Lemma due_rows t : 
  (λ p, row_to_reg p.1 p.2) <$> map_to_list t ≡ₚ (map_to_list (table_state t)).*2.
Proof.
  unfold table_state. induction t as [|k row t Hk IH] using map_ind; [done|].
  rewrite map_to_list_insert by done.
  assert (map_imap (λ k row, Some (row_to_reg k row)) (<[k := row]> t)
    = <[k := row_to_reg k row]> (map_imap (λ k row, Some (row_to_reg k row)) t)) as ->.
  { by apply map_imap_insert_Some. }
  rewrite map_to_list_insert by (rewrite map_lookup_imap; by rewrite Hk).
  cbn. by rewrite IH.
Qed.

Lemma load_due_sqlite t now :
  table_inv t → ms_ok now →
  (λ p, row_to_reg p.1 p.2) <$> filter (λ p, due_at_ms p.2 ≤ system_time_to_ms now) (map_to_list t)
  ≡ₚ filter (λ r, reg_due_at r ≤ ms_round now) (map_to_list (table_state t)).*2.
Proof.
  intros Ht Hnow. rewrite <- due_rows.
  assert (Forall (λ p, 0 ≤ due_at_ms p.2 < i64_half) (map_to_list t)) as Hf.
  { apply Forall_forall. intros [k row] Hp. apply elem_of_map_to_list in Hp. apply (Ht _ _ Hp). }
  apply reflexive_eq. induction Hf as [|p l Hp _ IH]; [done|].
  cbn [fmap list_fmap]. rewrite !filter_cons. cbn -[system_time_to_ms].
  unfold ms_to_system_time, ms_round. rewrite as_u64_i64, to_ms_ok by done.
  unfold ms_round in IH. rewrite to_ms_ok in IH by done.
  destruct (decide (due_at_ms p.2 ≤ now / ns_per_ms)) as [Hle|Hgt].
  - rewrite decide_True by (unfold ns_per_ms in *; lia). cbn. by rewrite IH.
  - rewrite decide_False by (unfold ns_per_ms in *; lia). done.
Qed.

#[global] Instance Sqlite_reminder_laws : ReminderStoreLaws ReminderTable.
Proof.
  refine {| rs_inv := table_inv; rs_state := table_state; rs_round := ms_round; rs_time_ok := ms_ok |}.
  - intros t _ k r. rewrite table_lookup. intros (row & _ & ->)%fmap_Some. by destruct k.
  - intros t r Ht Hp Hd. eexists. split; [done|]. split.
    + apply map_Forall_insert_2; [|done]. cbn. rewrite to_ms_ok by done.
      rewrite as_i64_small; auto using ms_div.
    + apply map_eq. intros k. rewrite lookup_insert, !table_lookup, lookup_insert.
      case_decide as E; [subst|done]. cbn. f_equal. unfold row_to_reg, rounded. cbn.
      rewrite ms_roundtrip, as_i64_small, as_u64_i64 by auto using ms_div. done.
  - intros t g name Ht. eexists. split; [done|]. split; [by apply map_Forall_delete|].
    apply map_eq. intros k. rewrite lookup_delete, !table_lookup, lookup_delete. by case_decide.
  - intros t now Ht Hnow. eexists. split; [done|]. by apply load_due_sqlite.
  - intros t g name due Ht Hd. eexists. split; [done|]. split.
    + intros k row. rewrite lookup_alter. case_decide as E; [subst|apply Ht].
      intros (row0 & Hr & ->)%fmap_Some. cbn. rewrite to_ms_ok by done.
      split; [apply (Ht _ _ Hr)|by apply ms_div].
    + apply map_eq. intros k. rewrite lookup_alter, !table_lookup, lookup_alter.
      case_decide as E; [subst|done]. destruct (t !! (g, name)) as [row|]; [|done]. cbn. f_equal.
      unfold row_to_reg, with_due_at. cbn. by rewrite ms_roundtrip.
Defined.

(** ** One iteration of the poll loop *)
Section polling.
Context {S : Type} `{ReminderStoreLaws S}.
Implicit Types (svc : ReminderService S) (k : ReminderKey) (r : ReminderRegistration).

Definition reminder svc k : option ReminderRegistration := rs_state (svc_store svc) !! k.

(** Every registration can be advanced from [now] within the range of the store's times. *)
Definition poll_ok (now : Z) svc : Prop :=
  rs_time_ok now ∧ ∀ k r, reminder svc k = Some r → rs_time_ok (now + reg_period r).

Definition advanced (now : Z) r : ReminderRegistration :=
  with_due_at (rs_round (now + reg_period r)) r.

Lemma poll_due_spec now svc due :
  rs_inv (svc_store svc) → NoDup (reg_key <$> due) →
  (∀ r, r ∈ due → reminder svc (reg_key r) = Some r ∧ rs_time_ok (now + reg_period r)) →
  let '(svc', ticks) := poll_due now svc due in
  rs_inv (svc_store svc') ∧ svc_dispatchers svc' = svc_dispatchers svc ∧
  ticks = reg_key <$> filter (λ r, type_name (reg_grain_id r) ∈ svc_dispatchers svc) due ∧
  ∀ k, reminder svc' k =
    (if decide (k ∈ reg_key <$> due) then advanced now else id) <$> reminder svc k.
Proof.
  revert svc. induction due as [|r due IH]; intros svc Hinv Hnd Hdue; cbn [poll_due].
  { split_and!; [done..|]. intros k. rewrite decide_False by apply not_elem_of_nil.
    by rewrite option_fmap_id. }
  destruct (Hdue r) as [Hr Hok]; [by left|].
  destruct (rs_update_ok (svc_store svc) (reg_grain_id r) (reg_name r) _ Hinv Hok) as (s & -> & Hs & Hst).
  apply NoDup_cons in Hnd as [Hnin Hnd].
  assert (∀ k, reminder (with_store svc s) k =
    (if decide (k = reg_key r) then advanced now else id) <$> reminder svc k) as Hupd.
  { intros k. unfold reminder. cbn. rewrite Hst, lookup_alter. fold (reg_key r).
    destruct (decide (reg_key r = k)) as [<-|Hne].
    - rewrite decide_True by done. unfold reminder in Hr. by rewrite Hr.
    - rewrite decide_False by congruence. by rewrite option_fmap_id. }
  specialize (IH (with_store svc s) Hs Hnd).
  destruct (poll_due now (with_store svc s) due) as [svc' ticks].
  destruct IH as (Hinv' & Hd & Ht & Hk).
  { intros r' Hr'. destruct (Hdue r') as [Hl Hok']; [by right|]. split; [|done].
    rewrite Hupd, decide_False; [by rewrite Hl|].
    intros E. apply Hnin. rewrite <- E. by apply list_elem_of_fmap_2. }
  split_and!; [done..| |].
  - rewrite filter_cons, Ht. cbn. case_bool_decide; case_decide; done.
  - intros k. rewrite Hk, Hupd. cbn.
    destruct (decide (k = reg_key r)) as [->|Hne].
    + rewrite decide_False by done. rewrite decide_True by (by left). by rewrite option_fmap_id.
    + rewrite option_fmap_id. destruct (decide (k ∈ reg_key <$> due)).
      * by rewrite decide_True by (by right).
      * rewrite decide_False; [done|]. by intros [?|?]%elem_of_cons.
Qed.

Lemma reg_keys_NoDup (m : gmap ReminderKey ReminderRegistration) :
  map_Forall (λ k r, reg_key r = k) m → NoDup (reg_key <$> (map_to_list m).*2).
Proof.
  intros Hm. rewrite <- list_fmap_compose.
  rewrite (Forall_fmap_ext_1 (reg_key ∘ snd) fst); [apply NoDup_fst_map_to_list|].
  apply Forall_forall. intros [k r] Hp. apply elem_of_map_to_list in Hp. exact (Hm _ _ Hp).
Qed.

Lemma NoDup_fmap_filter (P : ReminderRegistration → Prop) `{∀ r, Decision (P r)} l :
  NoDup (reg_key <$> l) → NoDup (reg_key <$> filter P l).
Proof.
  induction l as [|r l IH]; [done|]. rewrite fmap_cons, filter_cons. intros [Hr Hnd]%NoDup_cons.
  case_decide; [|by apply IH]. cbn. apply NoDup_cons. split; [|by apply IH].
  intros (r' & E & [_ Hin]%list_elem_of_filter)%list_elem_of_fmap. apply Hr. rewrite E.
  by apply list_elem_of_fmap_2.
Qed.

(** What one iteration does to every registration, and which ticks it spawns. *)
Lemma poll_spec now svc :
  rs_inv (svc_store svc) → poll_ok now svc →
  let '(svc', ticks) := poll now svc in
  rs_inv (svc_store svc') ∧ svc_dispatchers svc' = svc_dispatchers svc ∧ NoDup ticks ∧
  (∀ k, k ∈ ticks ↔ ∃ r, reminder svc k = Some r ∧ reg_due_at r ≤ rs_round now ∧
                         type_name k.1 ∈ svc_dispatchers svc) ∧
  (∀ k, reminder svc' k =
     (λ r, if decide (reg_due_at r ≤ rs_round now) then advanced now r else r) <$> reminder svc k).
Proof.
  intros Hinv [Hnow Hok]. unfold poll.
  destruct (rs_load_due_ok (svc_store svc) now Hinv Hnow) as (due & -> & Hdue).
  pose proof (rs_keys _ Hinv) as Hkeys.
  assert (∀ r, r ∈ due ↔ reminder svc (reg_key r) = Some r ∧ reg_due_at r ≤ rs_round now) as Hin.
  { intros r. rewrite Hdue, list_elem_of_filter, list_elem_of_fmap. split.
    - intros (Hle & [k r'] & E & Hp). cbn in E. subst r'. apply elem_of_map_to_list in Hp.
      unfold reminder. pose proof (Hkeys _ _ Hp) as Hk. cbn in Hk. by rewrite Hk.
    - intros [Hr Hle]. split; [done|]. exists (reg_key r, r). split; [done|].
      by apply elem_of_map_to_list. }
  assert (NoDup (reg_key <$> due)) as Hnd.
  { rewrite Hdue. by apply NoDup_fmap_filter, reg_keys_NoDup. }
  generalize (poll_due_spec now svc due Hinv Hnd).
  destruct (poll_due now svc due) as [svc' ticks]. intros Hspec.
  destruct Hspec as (Hinv' & Hd & -> & Hk).
  { intros r Hr. apply Hin in Hr as [Hr _]. split; [done|]. exact (Hok _ _ Hr). }
  assert (∀ k r, reminder svc k = Some r → reg_key r = k) as Hkey.
  { intros k r Hr. exact (Hkeys _ _ Hr). }
  split_and!; [done..| | |].
  - by apply NoDup_fmap_filter.
  - intros k. rewrite list_elem_of_fmap. split.
    + intros (r & -> & [Ht Hr]%list_elem_of_filter). apply Hin in Hr as [Hr Hle]. eauto.
    + intros (r & Hr & Hle & Ht). pose proof (Hkey _ _ Hr) as E. subst k. exists r. split; [done|].
      apply list_elem_of_filter. split; [done|]. by apply Hin.
  - intros k. rewrite Hk. destruct (reminder svc k) as [r|] eqn:E; [|done]. cbn. f_equal.
    destruct (decide (reg_due_at r ≤ rs_round now)) as [Hle|Hgt].
    + rewrite decide_True; [done|]. rewrite <- (Hkey _ _ E). apply list_elem_of_fmap_2, Hin.
      by rewrite (Hkey _ _ E).
    + rewrite decide_False; [done|]. intros (r' & -> & [Hr' Hle]%Hin)%list_elem_of_fmap.
      rewrite E in Hr'. by simplify_eq.
Qed.
End polling.

(** One poll is exact: it spawns one tick for each registration that is due and whose
    grain type has a dispatcher, none for any other, and advances exactly the due
    registrations to one period after the poll; a due registration whose type has no
    dispatcher is advanced too, so its tick is lost rather than delayed. *)
Theorem reminder_poll_exact {S} `{ReminderStoreLaws S} now (svc : ReminderService S) :
  rs_inv (svc_store svc) → poll_ok now svc →
  let '(svc', ticks) := poll now svc in
  NoDup ticks ∧
  (∀ k, k ∈ ticks ↔ ∃ r, reminder svc k = Some r ∧ reg_due_at r ≤ rs_round now ∧
                         type_name k.1 ∈ svc_dispatchers svc) ∧
  (∀ k r, reminder svc k = Some r →
     reminder svc' k = Some (if decide (reg_due_at r ≤ rs_round now) then advanced now r else r)) ∧
  (∀ k, reminder svc k = None → reminder svc' k = None).
Proof.
  intros Hinv Hok. generalize (poll_spec now svc Hinv Hok). destruct (poll now svc) as [svc' ticks].
  intros (_ & _ & Hnd & Hin & Hk). split_and!; [done..| |].
  - intros k r Hr. by rewrite Hk, Hr.
  - intros k Hr. by rewrite Hk, Hr.
Qed.

(** A service with two reminders on SQLite rows, one of a type without a dispatcher. *)
Definition reminder_a : ReminderKey := (mkGrainId "app::Mailer" "a", "digest").
Definition reminder_b : ReminderKey := (mkGrainId "Invoices" "b", "dunning").
Definition sqlite_service : ReminderService ReminderTable :=
  mkReminderService (<[reminder_a := mkReminderRow 1000 5000]> {[reminder_b := mkReminderRow 1000 5000]})
    {["app::Mailer"; "app::Invoices"]} (500 * ns_per_ms).

Lemma sqlite_service_ok now :
  0 ≤ now < 10 ^ 18 → rs_inv (svc_store sqlite_service) ∧ poll_ok now sqlite_service.
Proof.
  intros Hn. assert (∀ t, 0 ≤ t < 10 ^ 19 → ms_ok t) as Hms.
  { intros t Ht. split; [lia|]. apply Z.div_lt_upper_bound; unfold ns_per_ms, i64_half; lia. }
  split; [by repeat apply map_Forall_insert_2; try apply map_Forall_empty|].
  split; [apply Hms; lia|]. intros k r. unfold reminder. cbn. rewrite table_lookup.
  intros (row & Hr & ->)%fmap_Some. apply Hms.
  assert (period_ms row = 1000) as Hp.
  { rewrite lookup_insert in Hr. case_decide; [by simplify_eq|].
    by apply lookup_singleton_Some in Hr as [_ <-]. }
  unfold row_to_reg. cbn. rewrite Hp. change (as_u64 1000 * ns_per_ms) with (10 ^ 9). lia.
Qed.

Lemma reminder_poll_exact_witness :
  let '(svc', ticks) := poll (6000 * ns_per_ms) sqlite_service in
  (∀ k, k ∈ ticks ↔ ∃ r, reminder sqlite_service k = Some r ∧ reg_due_at r ≤ ms_round (6000 * ns_per_ms) ∧
                         type_name k.1 ∈ svc_dispatchers sqlite_service) ∧
  ticks = [reminder_a] ∧ (reg_due_at <$> reminder svc' reminder_b) = Some (7000 * ns_per_ms).
Proof.
  destruct (sqlite_service_ok (6000 * ns_per_ms) ltac:(done)) as [Hinv Hok].
  pose proof (reminder_poll_exact (6000 * ns_per_ms) sqlite_service Hinv Hok) as Ht.
  destruct (poll (6000 * ns_per_ms) sqlite_service) as [svc' ticks] eqn:E.
  destruct Ht as (_ & Hin & _ & _).
  assert (svc' = (poll (6000 * ns_per_ms) sqlite_service).1) as -> by (by rewrite E).
  assert (ticks = (poll (6000 * ns_per_ms) sqlite_service).2) as -> by (by rewrite E).
  split; [rewrite E; exact Hin|]. split; vm_compute; reflexivity.
Defined.

(** ** The schedule of a reminder over many polls *)
Section schedule.
Context {S : Type} `{ReminderStoreLaws S}.
Implicit Types (svc : ReminderService S) (k : ReminderKey) (r : ReminderRegistration).

(** The reference schedule: fire at the first poll at or after the due time, then wait one
    period from that poll. *)
Fixpoint schedule (period due : Z) (times : list Z) : list Z :=
  match times with
  | [] => []
  | t :: times' =>
      if bool_decide (due ≤ rs_round t) then t :: schedule period (rs_round (t + period)) times'
      else schedule period due times'
  end.

Definition fires k (log : list (Z * list ReminderKey)) : list Z := (filter (λ p, k ∈ p.2) log).*1.

Lemma reminder_after_poll now svc k r :
  rs_inv (svc_store svc) → poll_ok now svc → reminder svc k = Some r →
  ∃ r', reminder (poll now svc).1 k = Some r' ∧ reg_period r' = reg_period r ∧
    reg_due_at r' = if decide (reg_due_at r ≤ rs_round now) then rs_round (now + reg_period r)
                    else reg_due_at r.
Proof.
  intros Hinv Hok Hr. generalize (poll_spec now svc Hinv Hok).
  destruct (poll now svc) as [svc' ticks]. intros (_ & _ & _ & _ & Hk). cbn. rewrite Hk, Hr. cbn.
  eexists. split; [done|]. by case_decide.
Qed.

Lemma poll_ok_after now svc t :
  rs_inv (svc_store svc) → poll_ok now svc → poll_ok t svc → poll_ok t (poll now svc).1.
Proof.
  intros Hinv Hok [Ht Hper]. split; [done|]. intros k r. generalize (poll_spec now svc Hinv Hok).
  destruct (poll now svc) as [svc' ticks]. intros (_ & _ & _ & _ & Hk). cbn. rewrite Hk.
  intros (r0 & Hr0 & ->)%fmap_Some. pose proof (Hper _ _ Hr0). by case_decide.
Qed.

Lemma poll_loop_schedule times svc k r :
  rs_inv (svc_store svc) → Forall (λ t, poll_ok t svc) times →
  reminder svc k = Some r → type_name k.1 ∈ svc_dispatchers svc →
  fires k (poll_loop times svc).2 = schedule (reg_period r) (reg_due_at r) times.
Proof.
  revert svc r. induction times as [|t times IH]; intros svc r Hinv Hok Hr Hd; [done|].
  apply Forall_cons in Hok as [Hok Hoks]. cbn [poll_loop schedule].
  pose proof (reminder_after_poll t svc k r Hinv Hok Hr) as (r' & Hr' & Hp & Hdue).
  pose proof (poll_spec t svc Hinv Hok) as Hspec.
  assert (Forall (λ t', poll_ok t' (poll t svc).1) times) as Hoks'.
  { eapply Forall_impl; [exact Hoks|]. intros t' Ht'. by apply poll_ok_after. }
  destruct (poll t svc) as [svc' ticks]. cbn in Hr', Hoks'.
  destruct Hspec as (Hinv' & Hd' & _ & Hin & _).
  assert (k ∈ ticks ↔ reg_due_at r ≤ rs_round t) as Hk.
  { rewrite Hin, Hr. split; [intros (? & [= <-] & ? & _); done|eauto]. }
  specialize (IH svc' r' Hinv' Hoks' Hr' ltac:(by rewrite Hd')). rewrite Hp, Hdue in IH.
  destruct (poll_loop times svc') as [svc'' rest] eqn:E. cbn [snd] in *. unfold fires in *.
  rewrite filter_cons. cbn [snd]. case_bool_decide as Hle.
  - rewrite decide_True by by apply Hk. rewrite decide_True in IH by done. cbn. by rewrite IH.
  - rewrite decide_False by (by rewrite Hk). by rewrite decide_False in IH.
Qed.

Lemma schedule_spacing p due times :
  Sorted (λ a b, rs_round (a + p) ≤ rs_round b) (schedule p due times) ∧
  ∀ t, head (schedule p due times) = Some t → due ≤ rs_round t.
Proof.
  revert due. induction times as [|t times IH]; intros due; cbn; [by split; [constructor|]|].
  case_bool_decide as Hle; [|apply IH]. destruct (IH (rs_round (t + p))) as [Hs Hh].
  split; [|by intros ? [= <-]]. constructor; [done|].
  destruct (schedule p (rs_round (t + p)) times) as [|t' l]; constructor. by apply Hh.
Qed.

Lemma schedule_live p due pre t post :
  due ≤ rs_round t → ∃ t0, t0 ∈ pre ++ [t] ∧ t0 ∈ schedule p due (pre ++ t :: post).
Proof.
  intros Hle. revert due Hle. induction pre as [|x pre IH]; intros due Hle; cbn.
  - rewrite bool_decide_true by done. exists t. split; by left.
  - case_bool_decide as Hx; [exists x; split; by left|].
    destruct (IH due Hle) as (t0 & H1 & H2). exists t0. split; [by right|done].
Qed.
End schedule.

(** C23: the schedule of a reminder: over any sequence of successful polls, a registered reminder whose grain id
    carries the type name of a registered dispatcher fires exactly at the first poll at or after its due time and then
    at the first poll at least one period after the previous fire (to the precision of the store): no poll fires
    early, no due poll is skipped, and missed periods are not made up. *)
Theorem reminder_schedule {S} `{ReminderStoreLaws S} times (svc : ReminderService S) k r :
  rs_inv (svc_store svc) → Forall (λ t, poll_ok t svc) times →
  reminder svc k = Some r → type_name k.1 ∈ svc_dispatchers svc →
  let fired := fires k (poll_loop times svc).2 in
  fired = schedule (reg_period r) (reg_due_at r) times ∧
  Sorted (λ a b, rs_round (a + reg_period r) ≤ rs_round b) fired ∧
  (∀ pre t post, times = pre ++ t :: post → reg_due_at r ≤ rs_round t →
     ∃ t0, t0 ∈ pre ++ [t] ∧ t0 ∈ fired).
Proof.
  intros Hinv Hok Hr Hd. cbn zeta. rewrite (poll_loop_schedule times svc k r) by done.
  split; [done|]. split; [apply schedule_spacing|].
  intros pre t post -> Hle. by apply schedule_live.
Qed.

Lemma reminder_schedule_witness :
  let times := [4 * 10 ^ 9; 6 * 10 ^ 9; 65 * 10 ^ 8; 20 * 10 ^ 9; 205 * 10 ^ 8] in
  fires reminder_a (poll_loop times sqlite_service).2 = [6 * 10 ^ 9; 20 * 10 ^ 9] ∧
  fires reminder_a (poll_loop times sqlite_service).2 = schedule (10 ^ 9) (5 * 10 ^ 9) times.
Proof.
  intros times. split; [vm_compute; reflexivity|].
  assert (Forall (λ t, poll_ok t sqlite_service) times) as Hok.
  { subst times. repeat (apply Forall_cons_2; [apply sqlite_service_ok; lia|]). constructor. }
  apply (reminder_schedule times sqlite_service reminder_a
    (mkReg reminder_a.1 reminder_a.2 (10 ^ 9) (5 * 10 ^ 9))).
  - apply (sqlite_service_ok 0). lia.
  - exact Hok.
  - reflexivity.
  - apply (bool_decide_unpack _). vm_compute. exact I.
Defined.

(** ** Registering, unregistering, and names *)

(** A registration (re)schedules its reminder one period from now; a removal ends it. *)
Theorem register_unregister {S} `{ReminderStoreLaws S} now (svc : ReminderService S) g name period :
  rs_inv (svc_store svc) → rs_time_ok period → rs_time_ok (now + period) →
  (let '(svc', r) := register_reminder now svc g name period in
   r = Ok tt ∧ reminder svc' (g, name) = Some (mkReg g name (rs_round period) (rs_round (now + period))) ∧
   ∀ k, k ≠ (g, name) → reminder svc' k = reminder svc k) ∧
  (let '(svc', r) := unregister_reminder svc g name in
   r = Ok tt ∧ reminder svc' (g, name) = None ∧
   ∀ k, k ≠ (g, name) → reminder svc' k = reminder svc k).
Proof.
  intros Hinv Hp Hd. unfold register_reminder, unregister_reminder, reminder. split.
  - destruct (rs_save_ok (svc_store svc) (mkReg g name period (now + period)) Hinv Hp Hd)
      as (s' & -> & _ & Hs). cbn. rewrite Hs. cbn. split; [done|].
    split; [by rewrite lookup_insert_eq|]. intros k Hk. by rewrite lookup_insert_ne.
  - destruct (rs_delete_ok (svc_store svc) g name Hinv) as (s' & -> & _ & Hs). cbn. rewrite Hs.
    split; [done|]. split; [by rewrite lookup_delete_eq|]. intros k Hk. by rewrite lookup_delete_ne.
Qed.

Lemma poll_dispatchers {S} `{ReminderStoreLaws S} times (svc : ReminderService S) k :
  rs_inv (svc_store svc) → Forall (λ t, poll_ok t svc) times → type_name k.1 ∉ svc_dispatchers svc →
  fires k (poll_loop times svc).2 = [].
Proof.
  revert svc. induction times as [|t times IH]; intros svc Hinv Hok Hd; [done|].
  apply Forall_cons in Hok as [Hok Hoks]. cbn [poll_loop].
  pose proof (poll_spec t svc Hinv Hok) as Hspec.
  assert (Forall (λ t', poll_ok t' (poll t svc).1) times) as Hoks'.
  { eapply Forall_impl; [exact Hoks|]. intros t' Ht'. by apply poll_ok_after. }
  destruct (poll t svc) as [svc' ticks]. destruct Hspec as (Hinv' & Hd' & _ & Hin & _).
  specialize (IH svc' Hinv' Hoks' ltac:(by rewrite Hd')).
  destruct (poll_loop times svc') as [svc'' rest]. unfold fires in *. cbn [snd] in *.
  rewrite filter_cons. cbn [snd]. rewrite decide_False; [done|].
  intros (r & _ & _ & Hr)%Hin. done.
Qed.

(** Reminders of renamed grain types never fire: dispatchers are keyed by the Rust type
    name while a grain's id carries [grain_type_name], so when the two differ no
    poll ever delivers a tick to the grain, although its reminder is stored and advanced. *)
Theorem renamed_type_never_ticks {S} `{ReminderStoreLaws S} times (svc : ReminderService S)
  rust_name grain_type_name key name :
  rs_inv (svc_store svc) → Forall (λ t, poll_ok t (register_grain_type svc rust_name)) times →
  grain_type_name ≠ rust_name → grain_type_name ∉ svc_dispatchers svc →
  fires (mkGrainId grain_type_name key, name)
    (poll_loop times (register_grain_type svc rust_name)).2 = [].
Proof.
  intros Hinv Hok Hne Hd. apply poll_dispatchers; [done..|]. cbn. set_solver.
Qed.

Lemma renamed_type_never_ticks_witness :
  let svc := mkReminderService (svc_store sqlite_service) ∅ (500 * ns_per_ms) in
  fires reminder_b (poll_loop [6 * 10 ^ 9; 7 * 10 ^ 9] (register_grain_type svc "app::Invoices")).2 = [].
Proof.
  intros svc.
  apply (renamed_type_never_ticks [6 * 10 ^ 9; 7 * 10 ^ 9] svc "app::Invoices" "Invoices" "b" "dunning").
  - apply (sqlite_service_ok 0). lia.
  - repeat (apply Forall_cons_2; [apply sqlite_service_ok; lia|]). constructor.
  - discriminate.
  - apply (bool_decide_unpack _). vm_compute. exact I.
Defined.

(** ** Delivery of a tick, and timers *)

(** A tick goes to the open activation of its grain if there is one; otherwise the grain is
    activated for it, and only a draining or full directory drops it. *)
Theorem tick_delivery w k :
  directory_inv w →
  let '(w', d) := dispatch_tick w k in
  match live_sender w k.1 with
  | Some s => w' = w ∧ d = Some (s, k.2)
  | None =>
      if decide (draining (rt_dir w) = true ∨ at_limit w) then d = None
      else d = Some (rt_fresh w, k.2) ∧ GrainDirectory_get_sender w' k.1 = Some (rt_fresh w)
  end.
Proof.
  intros Hw. unfold dispatch_tick. destruct (live_sender w k.1) as [s|] eqn:L.
  - rewrite (get_or_insert_live _ _ _ L). apply live_sender_Some in L as [_ Ho].
    unfold is_closed. by rewrite bool_decide_false by auto.
  - destruct (decide _) as [Hr|Hn].
    + rewrite (get_or_insert_refused _ _ L Hr). cbn. unfold is_closed.
      rewrite bool_decide_true; [done|]. cbn. intros Ho%(di_open w Hw). lia.
    + assert (draining (rt_dir w) = false) as Hd by (destruct (draining (rt_dir w)); naive_solver).
      generalize (get_or_insert_created w k.1 L Hd ltac:(naive_solver)).
      destruct (GrainDirectory_get_or_insert w k.1) as [w' s]. intros (-> & Ho & _ & Ha).
      unfold is_closed. rewrite Ho, bool_decide_false by set_solver. split; [done|].
      unfold GrainDirectory_get_sender. by rewrite Ha, lookup_insert_eq.
Qed.

Lemma tick_delivery_witness :
  (dispatch_tick Runtime_new reminder_a).2 = Some (0%nat, "digest").
Proof.
  pose proof (tick_delivery Runtime_new reminder_a directory_inv_new) as H.
  destruct (dispatch_tick Runtime_new reminder_a) as [w' d] eqn:E.
  rewrite decide_False in H by (intros [|[]]; done). exact (proj1 H).
Defined.

(** A timer delivers the ticks before its cancellation or the end of its mailbox, and none
    after. *)
Lemma timer_delivers n e rest :
  e ≠ TimerTicked true → timer_loop (repeat (TimerTicked true) n ++ e :: rest) = (n, TimerStopped).
Proof.
  intros He. induction n as [|n IH]; cbn; [by destruct e as [[]|]|]. by rewrite IH.
Qed.

Lemma timer_running n : timer_loop (repeat (TimerTicked true) n) = (n, TimerRunning).
Proof. induction n as [|n IH]; cbn; [done|]. by rewrite IH. Qed.

(** The first delivery comes one period after the registration, never at once. *)
Lemma timer_first_delivery t0 period k : timer_delivery t0 period k = t0 + period + Z.of_nat k * period.
Proof. unfold timer_delivery, interval_tick. lia. Qed.
