(* ===== verification/Calls.v ===== *)
(** The call path of [orlando-core]: request contexts and the call chain
    ([request_context.rs]), envelopes and replies ([envelope.rs]), call filters
    ([filter.rs]), [GrainRef] ([grain_ref.rs]) and [WorkerGrainRef]
    ([worker_ref.rs]). *)
From Stdlib Require Import Ascii.
From S2P Require Import Prelude CoreTypes Mailbox.

(** * Request contexts *)
Record RequestContext := mkCtx { values : gmap string string }.

Definition RequestContext_new : RequestContext := mkCtx ∅.
Definition RequestContext_with_values (v : gmap string string) : RequestContext := mkCtx v.
Definition RequestContext_get (c : RequestContext) (k : string) : option string := values c !! k.
Definition RequestContext_with (c : RequestContext) (k v : string) : RequestContext :=
  mkCtx (<[k := v]> (values c)).
Definition RequestContext_is_empty (c : RequestContext) : bool := bool_decide (values c = ∅).
Definition RequestContext_to_map (c : RequestContext) : gmap string string := values c.

(** [RequestContext::current]: the task-local, or an empty context outside any scope. *)
Definition RequestContext_current (task_local : option RequestContext) : RequestContext :=
  default RequestContext_new task_local.

Definition CALL_CHAIN_KEY : string := "__orlando_call_chain".

Definition with_call_chain_entry (c : RequestContext) (g : GrainId) : RequestContext :=
  let chain := default "" (RequestContext_get c CALL_CHAIN_KEY) in
  let entry := GrainId_display g in
  let new_chain :=
    if bool_decide (chain = "") then entry else chain +:+ "," +:+ entry in
  RequestContext_with c CALL_CHAIN_KEY new_chain.

Definition is_in_call_chain (c : RequestContext) (g : GrainId) : bool :=
  let entry := GrainId_display g in
  match RequestContext_get c CALL_CHAIN_KEY with
  | Some chain => existsb (λ e, bool_decide (e = entry)) (str_split ","%char chain)
  | None => false
  end.

Definition call_chain (c : RequestContext) : option string := RequestContext_get c CALL_CHAIN_KEY.

(** * Envelopes and replies *)

(** What awaiting the oneshot receiver yields; [Replied None] is a reply whose
    downcast to the expected type fails. *)
Inductive Oneshot (R : Type) := Replied (r : option R) | SenderDropped | Elapsed.
Arguments Replied {R} r.
Arguments SenderDropped {R}.
Arguments Elapsed {R}.

Definition recv_ask_response {R} (o : Oneshot R) (timeout : Z) : result GrainError R :=
  match o with
  | Elapsed => Err (Timeout timeout)
  | SenderDropped => Err MailboxClosed
  | Replied None => Err ReplyTypeMismatch
  | Replied (Some r) => Ok r
  end.

Section envelope.
Context {State Msg R : Type}.

(** [GrainHandler::handle] run under a request context; [None] is a panic. *)
Abbreviation Handle := (RequestContext → State → Msg → State * option R).

(** The closure of [build_ask_envelope], run by the mailbox of [grain_id] on its
    type-erased state ([None]: the state has another type). *)
Definition build_ask_envelope (handle : Handle) (caller_ctx : RequestContext) (msg : Msg)
    (grain_id : GrainId) (state_any : option State) : option State * Oneshot R :=
  match state_any with
  | None => (None, SenderDropped)
  | Some state =>
      let req_ctx := with_call_chain_entry caller_ctx grain_id in
      let '(state', r) := handle req_ctx state msg in
      (Some state', match r with Some v => Replied (Some v) | None => SenderDropped end)
  end.
End envelope.

(** * Filters *)
Record GrainCallInfo := mkInfo { info_grain_id : GrainId; info_message_type : string }.

(** What the callers observe of a call, in order. *)
Inductive CallEvent :=
| EvBefore (filter : nat)
| EvEnqueued
| EvAfter (filter : nat) (result_ok : bool).
#[global] Instance CallEvent_eq_dec : EqDecision CallEvent.
Proof. solve_decision. Defined.

(** A chain is the list of its [on_before] hooks. *)
Abbreviation FilterChain := (list (GrainCallInfo → result string unit)).

(** [FilterChain::run_before], with the filters numbered from [i]. *)
Fixpoint run_before (filters : FilterChain) (info : GrainCallInfo) (i : nat)
    : result string unit * list CallEvent :=
  match filters with
  | [] => (Ok (), [])
  | f :: fs =>
      match f info with
      | Err e => (Err e, [EvBefore i])
      | Ok _ => let '(r, evs) := run_before fs info (S i) in (r, EvBefore i :: evs)
      end
  end.

(** [FilterChain::run_after] *)
Fixpoint run_after (filters : FilterChain) (result_ok : bool) (i : nat) : list CallEvent :=
  match filters with
  | [] => []
  | _ :: fs => EvAfter i result_ok :: run_after fs result_ok (S i)
  end.

(** * Grain references *)

(** The state of the target's mpsc channel at the time of the call. *)
Record Channel := mkChannel { ch_closed : bool; ch_len : nat; ch_capacity : nat }.

Record GrainRef := mkRef { ref_grain_id : GrainId; ref_filters : FilterChain }.

(** [GrainRef::new(sender)] *)
Definition GrainRef_new (grain_type_name : string) : GrainRef :=
  mkRef (mkGrainId grain_type_name "") [].
(** [GrainRef::with_id(sender, grain_id, filters)] *)
Definition GrainRef_with_id (g : GrainId) (filters : FilterChain) : GrainRef := mkRef g filters.

Inductive TrySendError := TrySendFull | TrySendClosed.

(** [Sender::try_send] *)
Definition try_send (ch : Channel) : result TrySendError unit :=
  if ch_closed ch then Err TrySendClosed
  else if bool_decide (ch_capacity ch ≤ ch_len ch)%nat then Err TrySendFull
  else Ok ().

(** [Sender::send(..).await]: waits for room, fails only when the receiver is gone. *)
Definition send_await (ch : Channel) : result unit unit :=
  if ch_closed ch then Err () else Ok ().

Section grain_ref.
Context {R : Type}.

(** Everything after the message is built: the common tail of [ask] and [try_ask]. *)
Definition finish_call (filters : FilterChain) (sent : result GrainError unit)
    (reply : Oneshot R) (timeout : Z) : result GrainError R * list CallEvent :=
  match sent with
  | Err e => (Err e, run_after filters false 0)
  | Ok _ =>
      let result := recv_ask_response reply timeout in
      (result, EvEnqueued :: run_after filters (is_ok result) 0)
  end.

(** [GrainRef::ask]; [reply] is what the oneshot yields if the message is enqueued. *)
Definition GrainRef_ask (self : GrainRef) (current_ctx : RequestContext) (message_type : string)
    (ch : Channel) (reply : Oneshot R) (timeout : Z) : result GrainError R * list CallEvent :=
  if is_in_call_chain current_ctx (ref_grain_id self) then
    let chain := default "unknown" (call_chain current_ctx) in
    (Err (DeadlockDetected (chain +:+ " -> " +:+ GrainId_display (ref_grain_id self))), [])
  else
    let info := mkInfo (ref_grain_id self) message_type in
    match run_before (ref_filters self) info 0 with
    | (Err e, evs) => (Err (HandlerFailed e), evs)
    | (Ok _, evs) =>
        let '(r, evs') := finish_call (ref_filters self)
                            (map_err (λ _, MailboxClosed) (send_await ch)) reply timeout in
        (r, evs ++ evs')
    end.

(** [GrainRef::try_ask] *)
Definition GrainRef_try_ask (self : GrainRef) (current_ctx : RequestContext)
    (message_type : string) (ch : Channel) (reply : Oneshot R) (timeout : Z)
    : result GrainError R * list CallEvent :=
  let info := mkInfo (ref_grain_id self) message_type in
  match run_before (ref_filters self) info 0 with
  | (Err e, evs) => (Err (HandlerFailed e), evs)
  | (Ok _, evs) =>
      let sent := map_err (λ e, match e with TrySendFull => MailboxFull
                                           | TrySendClosed => MailboxClosed end)
                    (try_send ch) in
      let '(r, evs') := finish_call (ref_filters self) sent reply timeout in
      (r, evs ++ evs')
  end.

(** [GrainRef::tell] *)
Definition GrainRef_tell (self : GrainRef) (message_type : string) (ch : Channel)
    : result GrainError unit * list CallEvent :=
  let info := mkInfo (ref_grain_id self) message_type in
  match run_before (ref_filters self) info 0 with
  | (Err e, evs) => (Err (HandlerFailed e), evs)
  | (Ok _, evs) =>
      match send_await ch with
      | Err _ => (Err MailboxClosed, evs)
      | Ok _ => (Ok (), evs ++ [EvEnqueued])
      end
  end.
End grain_ref.

(** * Worker references *)
Record WorkerGrainRef := mkWorkerRef { wr_senders : list Sender; wr_next : Z }.

(** What a call through the pool does: panic on the index computation, or reach a worker. *)
Inductive Dispatch (R : Type) :=
| DispatchPanic
| DispatchTo (s : Sender) (r : result GrainError R)
| DispatchNone (e : GrainError).
Arguments DispatchPanic {R}.
Arguments DispatchTo {R} s r.
Arguments DispatchNone {R} e.

(** [WorkerGrainRef::new] *)
Definition WorkerGrainRef_new (senders : list Sender) : WorkerGrainRef := mkWorkerRef senders 0.

(** [next.fetch_add(1) % senders.len()] and the indexing; a zero length panics. *)
Definition next_worker (w : WorkerGrainRef) : WorkerGrainRef * option Sender :=
  let n := Z.of_nat (length (wr_senders w)) in
  let w' := mkWorkerRef (wr_senders w) (u64_add (wr_next w) 1) in
  if bool_decide (n = 0) then (w', None)
  else (w', wr_senders w !! Z.to_nat (wr_next w mod n)).

Section worker_ref.
Context {R : Type} (chan : Sender → Channel) (reply : Sender → Oneshot R) (timeout : Z).

(** [WorkerGrainRef::ask] *)
Definition WorkerGrainRef_ask (w : WorkerGrainRef) : WorkerGrainRef * Dispatch R :=
  match next_worker w with
  | (w', None) => (w', DispatchPanic)
  | (w', Some s) =>
      (w', DispatchTo s
             match send_await (chan s) with
             | Err _ => Err MailboxClosed
             | Ok _ => recv_ask_response (reply s) timeout
             end)
  end.

(** [WorkerGrainRef::tell] *)
Definition WorkerGrainRef_tell (w : WorkerGrainRef) : WorkerGrainRef * Dispatch unit :=
  if bool_decide (length (wr_senders w) = 0)%nat then (w, DispatchNone MailboxClosed)
  else
    match next_worker w with
    | (w', None) => (w', DispatchPanic)
    | (w', Some s) => (w', DispatchTo s (map_err (λ _, MailboxClosed) (send_await (chan s))))
    end.

(** The workers reached by [n] consecutive [ask]s ([None] for a panic). *)
Fixpoint ask_n (w : WorkerGrainRef) (n : nat) : list (option Sender) :=
  match n with
  | O => []
  | S n' =>
      let '(w', d) := WorkerGrainRef_ask w in
      (match d with DispatchTo s _ => Some s | _ => None end) :: ask_n w' n'
  end.
End worker_ref.

(** * Deadlock detection *)

(** The context of a handler at the end of a path of nested asks. *)
Definition path_ctx (c0 : RequestContext) (path : list GrainId) : RequestContext :=
  foldl with_call_chain_entry c0 path.

(** Ids that the comma-separated, slash-printed chain represents exactly. *)
Definition chain_safe (g : GrainId) : Prop :=
  str_has "/"%char (type_name g) = false ∧ str_has ","%char (GrainId_display g) = false.
#[global] Instance chain_safe_dec g : Decision (chain_safe g).
Proof. unfold chain_safe. apply _. Defined.

Lemma GrainId_display_nonempty g : GrainId_display g ≠ "".
Proof. unfold GrainId_display, slash. destruct (type_name g); by rewrite ?str_app_nil_l, ?str_app_cons. Qed.

Lemma chain_get_after c g :
  RequestContext_get (with_call_chain_entry c g) CALL_CHAIN_KEY =
    Some (let chain := default "" (RequestContext_get c CALL_CHAIN_KEY) in
          if bool_decide (chain = "") then GrainId_display g
          else chain +:+ String ","%char (GrainId_display g)).
Proof.
  unfold with_call_chain_entry, RequestContext_get, RequestContext_with. cbn.
  rewrite lookup_insert_eq. by rewrite !str_app_cons, str_app_nil_l.
Qed.

(** The entries the chain of a context is read back as. *)
Definition chain_entries (c : RequestContext) : list string :=
  match RequestContext_get c CALL_CHAIN_KEY with
  | Some chain => str_split ","%char chain
  | None => []
  end.

Lemma is_in_call_chain_entries c g :
  is_in_call_chain c g = bool_decide (GrainId_display g ∈ chain_entries c).
Proof.
  unfold is_in_call_chain, chain_entries. destruct (RequestContext_get _ _) as [chain|].
  - apply eq_bool_prop_intro. rewrite bool_decide_spec, Is_true_true, existsb_exists.
    setoid_rewrite bool_decide_eq_true. setoid_rewrite <- list_elem_of_In. naive_solver.
  - by rewrite bool_decide_false by apply not_elem_of_nil.
Qed.

Lemma chain_entries_path c0 path :
  RequestContext_get c0 CALL_CHAIN_KEY = None → Forall chain_safe path →
  chain_entries (path_ctx c0 path) = GrainId_display <$> path ∧
  (path ≠ [] → default "" (RequestContext_get (path_ctx c0 path) CALL_CHAIN_KEY) ≠ "").
Proof.
  intros H0. unfold path_ctx, chain_entries.
  induction path as [|g path IH] using rev_ind; intros Hs; [by cbn [foldl]; rewrite H0|].
  apply Forall_app in Hs as [Hs [Hg _]%Forall_cons]. destruct (IH Hs) as [IH1 IH2].
  rewrite foldl_app. cbn [foldl]. rewrite chain_get_after. cbv zeta.
  set (d := RequestContext_get (foldl _ _ _) _) in *. destruct Hg as [_ Hg].
  destruct (decide (path = [])) as [->|Hp].
  - subst d. cbn [foldl]. rewrite H0. cbn. rewrite str_split_no_sep by done.
    split; [done|intros _; apply GrainId_display_nonempty].
  - specialize (IH2 Hp). clearbody d. destruct d as [chain|]; cbn in *; [|congruence].
    rewrite bool_decide_false by done. rewrite str_split_app, IH1, fmap_app by done.
    split; [done|]. intros _. destruct chain; by rewrite ?str_app_cons.
Qed.

Lemma is_in_call_chain_path c0 path g :
  RequestContext_get c0 CALL_CHAIN_KEY = None → Forall chain_safe path → chain_safe g →
  is_in_call_chain (path_ctx c0 path) g = bool_decide (g ∈ path).
Proof.
  intros H0 Hs [Hg _]. rewrite is_in_call_chain_entries.
  destruct (chain_entries_path c0 path H0 Hs) as [-> _].
  apply bool_decide_ext. rewrite list_elem_of_fmap. split; [|naive_solver].
  intros (g' & Hd & Hin). rewrite Forall_forall in Hs. destruct (Hs _ Hin) as [Hg' _].
  by rewrite (GrainId_display_inj g g').
Qed.

Lemma not_deadlock_finish {R} fs sent (o : Oneshot R) t m :
  (∀ e, sent = Err e → e ≠ DeadlockDetected m) →
  (finish_call fs sent o t).1 ≠ Err (DeadlockDetected m).
Proof. destruct sent as [[]|e]; cbn; [|naive_solver]. by destruct o as [[]| |]. Qed.

(** Call cycles are detected exactly: on a path of nested asks (each handler running in
    the context [build_ask_envelope] gives it), asking a grain already on the path
    fails with [DeadlockDetected] before any filter runs or any message is
    enqueued, and asking any other grain never fails that way.  The grain ids
    must print without a comma (and type names without a slash). *)
Theorem deadlock_detection {R State Msg} c0 path g fs mt ch (reply : Oneshot R) t :
  RequestContext_get c0 CALL_CHAIN_KEY = None → Forall chain_safe path → chain_safe g →
  (g ∈ path →
     ∃ cycle, GrainRef_ask (GrainRef_with_id g fs) (path_ctx c0 path) mt ch reply t =
              (Err (DeadlockDetected cycle), [])) ∧
  (g ∉ path → ∀ cycle,
     (GrainRef_ask (GrainRef_with_id g fs) (path_ctx c0 path) mt ch reply t).1 ≠
       Err (DeadlockDetected cycle)) ∧
  (∀ (handle : RequestContext → State → Msg → State * option R) msg st,
     build_ask_envelope handle (path_ctx c0 path) msg g (Some st) =
       let '(st', r) := handle (path_ctx c0 (path ++ [g])) st msg in
       (Some st', match r with Some v => Replied (Some v) | None => SenderDropped end)).
Proof.
  intros H0 Hs Hg. pose proof (is_in_call_chain_path c0 path g H0 Hs Hg) as Hc.
  unfold GrainRef_ask, GrainRef_with_id. cbn [ref_grain_id ref_filters]. rewrite Hc. split_and!.
  - intros Hin. rewrite bool_decide_true by done. by eexists.
  - intros Hin cycle. rewrite bool_decide_false by done.
    destruct (run_before _ _ _) as [[[]|e] evs]; [|done].
    destruct (finish_call _ _ _ _) as [r evs'] eqn:E. cbn.
    change r with (r, evs').1. rewrite <- E. apply not_deadlock_finish.
    unfold send_await. destruct (ch_closed ch); naive_solver.
  - intros handle msg st. unfold build_ask_envelope, path_ctx. by rewrite foldl_app.
Qed.

Definition order_id : GrainId := mkGrainId "shop::Order" "42".
Definition stock_id : GrainId := mkGrainId "shop::Stock" "7".

Lemma deadlock_detection_witness :
  ∃ cycle, GrainRef_ask (R := unit) (GrainRef_with_id order_id [])
             (path_ctx RequestContext_new [order_id; stock_id]) "m"
             (mkChannel false 0 8) (Replied (Some ())) 0 =
           (Err (DeadlockDetected cycle), []).
Proof.
  apply (deadlock_detection (State := unit) (Msg := unit)).
  - reflexivity.
  - apply (bool_decide_unpack _). vm_compute. exact I.
  - apply (bool_decide_unpack _). vm_compute. exact I.
  - apply (bool_decide_unpack _). vm_compute. exact I.
Defined.

(** What escapes the cycle check: an id printing with a comma is never found in a
    chain, whatever the context; a [GrainRef::new] handle carries an empty key, so
    it never finds the activation it addresses (key not empty) on a path it is on;
    and [try_ask], which awaits the reply as [ask] does, does no check at all: with
    the grain on the path it still enqueues. *)
Theorem deadlock_detection_gaps {R} :
  (∀ c g, str_has ","%char (GrainId_display g) = true → is_in_call_chain c g = false) ∧
  (∀ c0 tn path, RequestContext_get c0 CALL_CHAIN_KEY = None → Forall chain_safe path →
     chain_safe (mkGrainId tn "") → Forall (λ g, key g ≠ "") path →
     is_in_call_chain (path_ctx c0 path) (ref_grain_id (GrainRef_new tn)) = false) ∧
  (∀ g c mt ch (reply : Oneshot R) t, ch_closed ch = false → (ch_len ch < ch_capacity ch)%nat →
     (GrainRef_try_ask (GrainRef_with_id g []) c mt ch reply t).2 = [EvEnqueued]).
Proof.
  split_and!.
  - intros c g Hg. rewrite is_in_call_chain_entries. apply bool_decide_false. intros Hin.
    unfold chain_entries in Hin. destruct (RequestContext_get _ _); [|by apply not_elem_of_nil in Hin].
    apply str_split_pieces in Hin. congruence.
  - intros c0 tn path H0 Hs Ht Hk. cbn [ref_grain_id GrainRef_new].
    rewrite is_in_call_chain_path by done. apply bool_decide_false. intros Hin.
    rewrite Forall_forall in Hk. by apply (Hk _ Hin).
  - intros g c mt ch reply t Hc Hl. unfold GrainRef_try_ask. cbn.
    unfold try_send. rewrite Hc. rewrite bool_decide_false by lia. done.
Qed.

(** * The filter contract *)

Lemma run_before_accept fs info i :
  Forall (λ f, is_ok (f info) = true) fs →
  run_before fs info i = (Ok (), EvBefore <$> seq i (length fs)).
Proof.
  revert i. induction fs as [|f fs IH]; intros i; [done|]. intros [Hf Hfs]%Forall_cons.
  cbn. destruct (f info); [|done]. by rewrite IH.
Qed.

Lemma run_before_reject pre f post info i e :
  Forall (λ f, is_ok (f info) = true) pre → f info = Err e →
  run_before (pre ++ f :: post) info i = (Err e, EvBefore <$> seq i (S (length pre))).
Proof.
  intros Hpre Hf. revert i. induction Hpre as [|f' pre Hf' _ IH]; intros i; cbn.
  - by rewrite Hf.
  - destruct (f' info); [|done]. by rewrite IH.
Qed.

Lemma run_after_seq fs b i : run_after fs b i = (λ k, EvAfter k b) <$> seq i (length fs).
Proof. revert i. induction fs as [|f fs IH]; intros i; [done|]. cbn. by rewrite IH. Qed.

(** The outcome of a call that was admitted: the error of the send, or the reply. *)
Definition call_outcome {R} (sent : result GrainError unit) (reply : Oneshot R) (t : Z)
    : result GrainError R :=
  match sent with Ok _ => recv_ask_response reply t | Err e => Err e end.

Lemma finish_call_spec {R} fs sent (reply : Oneshot R) t :
  finish_call fs sent reply t =
    (call_outcome sent reply t,
     (if is_ok sent then [EvEnqueued] else []) ++
     ((λ k, EvAfter k (is_ok (call_outcome sent reply t))) <$> seq 0 (length fs))).
Proof. destruct sent as [[]|e]; cbn; by rewrite run_after_seq. Qed.

(** The error [ask] and [try_ask] report for the state of the channel. *)
Definition ask_sent (ch : Channel) : result GrainError unit :=
  if ch_closed ch then Err MailboxClosed else Ok ().
Definition try_ask_sent (ch : Channel) : result GrainError unit :=
  if ch_closed ch then Err MailboxClosed
  else if bool_decide (ch_capacity ch ≤ ch_len ch)%nat then Err MailboxFull else Ok ().

(** The filter contract of [ask] (outside a cycle), [try_ask] and [tell].  When every
    filter accepts, the hooks run in order before the message is enqueued, and after
    the outcome is known every [on_after] runs once, in order, told whether the
    call succeeded, also when the mailbox is closed or full; [tell] runs no [on_after].
    When one filter rejects, the later ones do not run, nothing is enqueued, no
    [on_after] runs, and the caller gets [HandlerFailed]. *)
Theorem filter_contract {R} g fs c mt ch (reply : Oneshot R) t :
  is_in_call_chain c g = false →
  let info := mkInfo g mt in
  let befores := EvBefore <$> seq 0 (length fs) in
  let admitted sent :=
    (call_outcome sent reply t,
     befores ++ (if is_ok sent then [EvEnqueued] else []) ++
     ((λ k, EvAfter k (is_ok (call_outcome sent reply t))) <$> seq 0 (length fs))) in
  (Forall (λ f, is_ok (f info) = true) fs →
     GrainRef_ask (GrainRef_with_id g fs) c mt ch reply t = admitted (ask_sent ch) ∧
     GrainRef_try_ask (GrainRef_with_id g fs) c mt ch reply t = admitted (try_ask_sent ch) ∧
     GrainRef_tell (GrainRef_with_id g fs) mt ch =
       (ask_sent ch, befores ++ if ch_closed ch then [] else [EvEnqueued])) ∧
  (∀ pre f post e, fs = pre ++ f :: post → Forall (λ f, is_ok (f info) = true) pre →
     f info = Err e →
     let rejected := EvBefore <$> seq 0 (S (length pre)) in
     GrainRef_ask (GrainRef_with_id g fs) c mt ch reply t = (Err (HandlerFailed e), rejected) ∧
     GrainRef_try_ask (GrainRef_with_id g fs) c mt ch reply t = (Err (HandlerFailed e), rejected) ∧
     GrainRef_tell (GrainRef_with_id g fs) mt ch = (Err (HandlerFailed e), rejected)).
Proof.
  intros Hc info befores admitted.
  unfold GrainRef_ask, GrainRef_try_ask, GrainRef_tell, GrainRef_with_id.
  cbn [ref_grain_id ref_filters]. rewrite Hc. fold info. split.
  - intros Hfs. rewrite run_before_accept by done. rewrite !finish_call_spec.
    unfold admitted, befores, send_await, try_send, ask_sent, try_ask_sent.
    split_and!; destruct (ch_closed ch); try done; [by case_bool_decide|by rewrite app_nil_r].
  - clear admitted befores. intros pre f post e -> Hpre Hf. by rewrite (run_before_reject pre f post info 0 e).
Qed.

Lemma filter_contract_witness :
  GrainRef_ask (R := Z) (GrainRef_with_id order_id [λ _, Ok (); λ _, Ok ()]) RequestContext_new "m"
    (mkChannel true 0 8) (Replied (Some 7)) 1 =
  (Err MailboxClosed, [EvBefore 0; EvBefore 1; EvAfter 0 false; EvAfter 1 false]).
Proof.
  apply (filter_contract order_id [λ _, Ok (); λ _, Ok ()] RequestContext_new "m"
           (mkChannel true 0 8) (Replied (Some 7)) 1); [reflexivity|].
  apply (bool_decide_unpack _). vm_compute. exact I.
Defined.

(** * Round robin over a worker pool *)

Section round_robin.
Context {R : Type} (chan : Sender → Channel) (reply : Sender → Oneshot R) (timeout : Z).

Lemma next_worker_lookup w :
  wr_senders w ≠ [] →
  next_worker w = (mkWorkerRef (wr_senders w) (u64_add (wr_next w) 1),
                   wr_senders w !! Z.to_nat (wr_next w mod Z.of_nat (length (wr_senders w)))).
Proof.
  intros Hne. unfold next_worker. rewrite bool_decide_false; [done|].
  destruct (wr_senders w); [done|cbn; lia].
Qed.

Lemma next_worker_some w :
  wr_senders w ≠ [] →
  ∃ s, wr_senders w !! Z.to_nat (wr_next w mod Z.of_nat (length (wr_senders w))) = Some s.
Proof.
  intros Hne. apply lookup_lt_is_Some_2.
  assert (0 < Z.of_nat (length (wr_senders w))) by (destruct (wr_senders w); [done|cbn; lia]).
  pose proof (Z.mod_pos_bound (wr_next w) (Z.of_nat (length (wr_senders w)))). lia.
Qed.

Lemma ask_n_lookup w n i :
  wr_senders w ≠ [] → 0 ≤ wr_next w → wr_next w + Z.of_nat n ≤ u64_mod → (i < n)%nat →
  ask_n chan reply timeout w n !! i =
    Some (wr_senders w !! Z.to_nat ((wr_next w + Z.of_nat i)
                                    mod Z.of_nat (length (wr_senders w)))).
Proof.
  revert w i. induction n as [|n IH]; intros w i Hne H0 Hb Hi; [lia|].
  cbn [ask_n]. unfold WorkerGrainRef_ask. rewrite next_worker_lookup by done.
  destruct (next_worker_some w Hne) as [s Hs]. rewrite Hs.
  destruct i as [|i]; cbn -[Z.of_nat]; [by rewrite Z.add_0_r, Hs|].
  destruct (decide (n = 0%nat)) as [->|]; [lia|].
  rewrite IH; cbn -[Z.of_nat]; try done; try lia.
  - rewrite u64_add_small by (unfold is_u64; lia). do 3 f_equal. f_equal. lia.
  - apply u64_add_bound.
  - rewrite u64_add_small by (unfold is_u64; lia). lia.
Qed.

Lemma length_ask_n w n : length (ask_n chan reply timeout w n) = n.
Proof.
  revert w. induction n as [|n IH]; intros w; [done|]. cbn.
  destruct (WorkerGrainRef_ask _ _ _ w). cbn. by rewrite IH.
Qed.

Lemma ask_n_rotate w :
  wr_senders w ≠ [] → 0 ≤ wr_next w →
  wr_next w + Z.of_nat (length (wr_senders w)) ≤ u64_mod →
  ask_n chan reply timeout w (length (wr_senders w)) =
    Some <$> rotate (Z.to_nat (wr_next w)) (wr_senders w).
Proof.
  intros Hne H0 Hb. apply list_eq. intros i. rewrite list_lookup_fmap.
  destruct (decide (i < length (wr_senders w))%nat) as [Hi|Hi].
  - rewrite ask_n_lookup, lookup_rotate_r by done.
    destruct (lookup_lt_is_Some_2 (rotate (Z.to_nat (wr_next w)) (wr_senders w)) i)
      as [s Hs]; [by rewrite length_rotate|].
    rewrite lookup_rotate_r in Hs by done. rewrite Hs. cbn. f_equal. rewrite <- Hs.
    unfold rotate_nat_add. do 3 f_equal. lia.
  - rewrite !lookup_ge_None_2; [done|rewrite length_rotate; lia|rewrite length_ask_n; lia].
Qed.
End round_robin.

(** Round robin: with a non-empty pool and a counter that does not wrap meanwhile, a
    window of as many asks as there are workers reaches every worker exactly once
    (in rotated pool order), and a call to any worker reports exactly that worker's
    send or reply outcome.  On an empty pool [tell] answers [MailboxClosed] while
    [ask] panics on the remainder by zero. *)
Theorem worker_round_robin {R} chan (reply : Sender → Oneshot R) t w :
  0 ≤ wr_next w → wr_next w + Z.of_nat (length (wr_senders w)) ≤ u64_mod →
  (wr_senders w ≠ [] →
     ask_n chan reply t w (length (wr_senders w)) =
       Some <$> rotate (Z.to_nat (wr_next w)) (wr_senders w) ∧
     ∃ s, s ∈ wr_senders w ∧
       (WorkerGrainRef_ask chan reply t w).2 =
         DispatchTo s (if ch_closed (chan s) then Err MailboxClosed
                       else recv_ask_response (reply s) t) ∧
       (WorkerGrainRef_tell chan w).2 =
         DispatchTo s (if ch_closed (chan s) then Err MailboxClosed else Ok ())) ∧
  (wr_senders w = [] →
     (WorkerGrainRef_ask chan reply t w).2 = DispatchPanic ∧
     WorkerGrainRef_tell chan w = (w, DispatchNone MailboxClosed)).
Proof.
  intros H0 Hb. split.
  - intros Hne. split.
    + by apply ask_n_rotate.
    + destruct (next_worker_some w Hne) as [s Hs]. exists s.
      split; [by eapply list_elem_of_lookup_2|].
      unfold WorkerGrainRef_ask, WorkerGrainRef_tell, send_await.
      rewrite next_worker_lookup, Hs by done. rewrite bool_decide_false by (by destruct (wr_senders w)).
      cbn. by destruct (ch_closed (chan s)).
  - intros He. unfold WorkerGrainRef_ask, WorkerGrainRef_tell, next_worker. by rewrite He.
Qed.

Lemma worker_round_robin_witness :
  ask_n (R := unit) (λ _, mkChannel false 0 8) (λ _, Elapsed) 1 (mkWorkerRef [4; 7; 9]%nat 5) 3 =
  [Some 9; Some 4; Some 7]%nat.
Proof.
  apply (worker_round_robin (R := unit) (λ _, mkChannel false 0 8) (λ _, Elapsed) 1
           (mkWorkerRef [4; 7; 9]%nat 5)); done.
Defined.
