(* ===== verification/CallGraph.v ===== *)
(** * Grains that call each other

    A grain handles one message at a time and is busy until its handler has finished, also while the handler
    awaits an answer of another grain.  A call that comes back to a busy grain would wait for its timeout; the
    call chain in the request context ([request_context.rs]) is there to refuse it at once.  Here handlers are arbitrary programs
    that call other grains, and one call from outside is followed through all the calls it causes.  The
    applications are [deadlock_detection.rs] and [request_context.rs]. *)
From Stdlib Require Import Ascii.
From S2P Require Import Prelude CoreTypes Mailbox Calls.

(** ** Handlers that call *)
Section prog.
Context {M R : Type}.

(** A handler: it answers with [x], or asks a grain and goes on with what the ask returned. *)
Inductive Prog (X : Type) : Type :=
| Return (x : X)
| Ask (g : GrainId) (m : M) (k : result GrainError R → Prog X).
Arguments Return {X}.
Arguments Ask {X}.

(** Running it, given what an ask does; [None] when an ask runs out of fuel. *)
Fixpoint exec {S X} (ask : S → GrainId → M → option (S * result GrainError R)) (p : Prog X) (s : S) : option (S * X) :=
  match p with
  | Return x => Some (s, x)
  | Ask g m k => '(s, r) ← ask s g m; exec ask (k r) s
  end.

(** It asks grains of [U] only. *)
Fixpoint asks_within {X} (U : list GrainId) (p : Prog X) : Prop :=
  match p with
  | Return _ => True
  | Ask g _ k => g ∈ U ∧ ∀ r, asks_within U (k r)
  end.

Context {St : Type} (handle : GrainId → RequestContext → St → M → Prog (St * option R)) (initial : GrainId → St).
Context (label : M → string) (timeout : Z).
(** The states of the grains, and the messages that were left in the mailbox of a busy grain. *)
Abbreviation Grains := (gmap GrainId St * list (GrainId * M))%type.
Definition open_mailbox : Channel := mkChannel false 0 256.

(** A mailbox takes the message, runs [build_ask_envelope]'s closure and replies; [busy] are the grains whose
    handlers are waiting.  A message to one of them stays in its mailbox, behind the handler that waits for it, until
    the ask times out ([recv_ask_response]); what becomes of it after that is not followed. *)
Definition turn (ask : list GrainId → RequestContext → Grains → GrainId → M → option (Grains * result GrainError R))
    (busy : list GrainId) (ctx : RequestContext) (gs : Grains) (g : GrainId) (m : M) : option (Grains * Oneshot R) :=
  if bool_decide (g ∈ busy) then Some ((gs.1, gs.2 ++ [(g, m)]), Elapsed)
  else
    let req_ctx := with_call_chain_entry ctx g in
    '(gs, out) ← exec (ask (g :: busy) req_ctx) (handle g req_ctx (default (initial g) (gs.1 !! g)) m) gs;
    let '(st, r) := out in
    Some ((<[g := st]> gs.1, gs.2), match r with Some v => Replied (Some v) | None => SenderDropped end).

(** [ctx.get_ref(g).ask(m)] under a request context; [fuel] bounds how deep calls are nested. *)
Fixpoint nested_ask (fuel : nat) (busy : list GrainId) (ctx : RequestContext) (gs : Grains) (g : GrainId) (m : M)
    : option (Grains * result GrainError R) :=
  match fuel with
  | O => None
  | S fuel' =>
      let ask o := (GrainRef_ask (GrainRef_with_id g []) ctx (label m) open_mailbox o timeout).1 in
      if is_in_call_chain ctx g then Some (gs, ask SenderDropped)
      else '(gs, o) ← turn (nested_ask fuel') busy ctx gs g m; Some (gs, ask o)
  end.

(** ** No call waits for a busy grain *)
Section closed.
Context (U : list GrainId) (c0 : RequestContext).
Context (Hsafe : Forall chain_safe U) (Hctx : RequestContext_get c0 CALL_CHAIN_KEY = None).
Context (Hcalls : ∀ g ctx st m, g ∈ U → asks_within U (handle g ctx st m)).

Lemma exec_total {X} (ask : Grains → GrainId → M → option (Grains * result GrainError R)) (p : Prog X) q :
  asks_within U p → (∀ gs g m, g ∈ U → ∃ gs' r, ask (gs, q) g m = Some ((gs', q), r)) →
  ∀ gs, ∃ gs' x, exec ask p (gs, q) = Some ((gs', q), x).
Proof.
  intros Hp Hask. induction p as [x|g m k IH]; intros s; cbn; [by do 2 eexists|].
  destruct Hp as [Hg Hk]. destruct (Hask s g m Hg) as (s' & r & ->). cbn. by apply IH.
Qed.

Lemma path_ctx_snoc c path g : with_call_chain_entry (path_ctx c path) g = path_ctx c (path ++ [g]).
Proof. unfold path_ctx. by rewrite foldl_app. Qed.

(** On a path of busy grains. *)
Lemma nested_ask_total fuel path gs q g m :
  NoDup path → path ⊆ U → g ∈ U → (length U < fuel + length path)%nat →
  ∃ gs' r, nested_ask fuel (reverse path) (path_ctx c0 path) (gs, q) g m = Some ((gs', q), r).
Proof.
  revert path gs g m. induction fuel as [|fuel IH]; intros path gs g m Hn Hsub Hg Hlen.
  { pose proof (submseteq_length _ _ (NoDup_submseteq _ _ Hn Hsub)). lia. }
  assert (Forall chain_safe path) as Hps
    by (apply Forall_forall; intros x Hx; apply (proj1 (Forall_forall _ _) Hsafe), Hsub, Hx).
  cbn [nested_ask]. rewrite is_in_call_chain_path; [|done|done|by apply (proj1 (Forall_forall _ _) Hsafe)].
  case_bool_decide as Hin; [by do 2 eexists|].
  unfold turn. rewrite bool_decide_false by (by rewrite elem_of_reverse).
  rewrite path_ctx_snoc.
  assert (g :: reverse path = reverse (path ++ [g])) as -> by (by rewrite reverse_app).
  cbn [fst]. set (st := default (initial g) (gs !! g)).
  destruct (exec_total (nested_ask fuel (reverse (path ++ [g])) (path_ctx c0 (path ++ [g])))
              (handle g (path_ctx c0 (path ++ [g])) st m) q) with (gs := gs) as (gs' & [st' r] & E).
  - by apply Hcalls.
  - intros gs' g' m' Hg'. apply IH; [| |done|].
    + apply NoDup_app. split_and!; [done| |apply NoDup_singleton]. intros x Hx ->%list_elem_of_singleton. done.
    + intros x [Hx| ->%list_elem_of_singleton]%elem_of_app; auto.
    + rewrite length_app. cbn. lia.
  - rewrite E. cbn. by do 2 eexists.
Qed.
End closed.

(** More fuel does not change the outcome. *)
Lemma exec_mono {S X} (ask ask' : S → GrainId → M → option (S * result GrainError R)) (p : Prog X) :
  (∀ s g m out, ask s g m = Some out → ask' s g m = Some out) →
  ∀ s out, exec ask p s = Some out → exec ask' p s = Some out.
Proof.
  intros Hask. induction p as [x|g m k IH]; intros s out; cbn; [done|].
  destruct (ask s g m) as [[s' r]|] eqn:E; [|done]. rewrite (Hask _ _ _ _ E). cbn. apply IH.
Qed.

Lemma nested_ask_mono n busy ctx gs g m out :
  nested_ask n busy ctx gs g m = Some out → nested_ask (S n) busy ctx gs g m = Some out.
Proof.
  revert busy ctx gs g m out. induction n as [|n IH]; intros busy ctx gs g m out; [done|].
  intros H. change (nested_ask (S (S n)) busy ctx gs g m) with
    (let ask o := (GrainRef_ask (GrainRef_with_id g []) ctx (label m) open_mailbox o timeout).1 in
     if is_in_call_chain ctx g then Some (gs, ask SenderDropped)
     else '(gs, o) ← turn (nested_ask (S n)) busy ctx gs g m; Some (gs, ask o)).
  cbn [nested_ask] in H. cbn zeta. destruct (is_in_call_chain ctx g); [done|].
  destruct (turn (nested_ask n) busy ctx gs g m) as [[gs1 o1]|] eqn:E; [|done].
  assert (turn (nested_ask (S n)) busy ctx gs g m = Some (gs1, o1)) as ->; [|done].
  unfold turn in E |- *. case_bool_decide; [done|].
  destruct (exec (nested_ask n (g :: busy) (with_call_chain_entry ctx g)) _ gs) as [out1|] eqn:E1; [|done].
  erewrite exec_mono; [exact E| |exact E1]. intros. by apply IH.
Qed.

Lemma nested_ask_mono_le n n' busy ctx gs g m out :
  (n ≤ n')%nat → nested_ask n busy ctx gs g m = Some out → nested_ask n' busy ctx gs g m = Some out.
Proof. intros Hle H. induction Hle as [|n' _ IH]; [done|]. by apply nested_ask_mono. Qed.

(** C17: a call cycle is refused instead of waiting.  One call from outside at a time, to a finite set of grains whose ids print
    without a comma and whose handlers pass the request context on and call grains of the set only, in any pattern, also in
    cycles: the call is answered, calls are nested at most as deep as there are grains, and one more for the ask that is
    refused, and no message is left in the mailbox of a busy grain, so no ask on the way waits for its timeout. *)
Theorem calls_never_hang U c0 gs g m :
  Forall chain_safe U → RequestContext_get c0 CALL_CHAIN_KEY = None →
  (∀ g ctx st m, g ∈ U → asks_within U (handle g ctx st m)) → g ∈ U →
  ∃ gs' r, ∀ fuel, (length U < fuel)%nat → nested_ask fuel [] c0 (gs, []) g m = Some ((gs', []), r).
Proof.
  intros Hs Hc Hcalls Hg.
  destruct (nested_ask_total U c0 Hs Hc Hcalls (S (length U)) [] gs [] g m) as (gs' & r & E);
    [constructor|by intros ? ?%elem_of_nil|done|cbn; lia|].
  exists gs', r. intros fuel Hf. by eapply nested_ask_mono_le.
Qed.

(** The context a handler runs under: what the caller set, and the chain. *)
Lemma path_ctx_get c path k :
  k ≠ CALL_CHAIN_KEY → RequestContext_get (path_ctx c path) k = RequestContext_get c k.
Proof.
  intros Hk. unfold path_ctx. revert c. induction path as [|g path IH]; intros c; [done|]. cbn. rewrite IH.
  unfold with_call_chain_entry, RequestContext_get, RequestContext_with. cbn. by rewrite lookup_insert_ne.
Qed.
End prog.
Arguments Prog M R X : clear implicits.
Arguments Return {M R X}.
Arguments Ask {M R X}.

(** ** [deadlock_detection.rs] *)

(** [{:?}] of a string without characters that need escapes, and of a result. *)
Definition debug_str (s : string) : string :=
  let quote := String (ascii_of_nat 34) EmptyString in quote +:+ s +:+ quote.
(** [#[error(...)]] of [GrainError]; how a [Duration] prints is a parameter. *)
Definition GrainError_display (dur : Z → string) (e : GrainError) : string :=
  match e with
  | MailboxClosed => "grain mailbox closed"
  | ReplyTypeMismatch => "reply type mismatch"
  | RemoteCallFailed m => "remote call failed: " +:+ m
  | HandlerFailed m => "handler failed: " +:+ m
  | Timeout d => "grain call timed out after " +:+ dur d
  | MailboxFull => "grain mailbox full — backpressure"
  | SiloOverloaded => "silo activation limit exceeded"
  | DeadlockDetected c => "deadlock detected: grain call cycle " +:+ c
  end.

Definition grain_a : GrainId := mkGrainId "deadlock_detection::A" "a".
Definition grain_b : GrainId := mkGrainId "deadlock_detection::B" "b".
Inductive CycleMsg := Start | CallBack.

Section cycle.
Context (dur : Z → string) (debug_error : GrainError → string).
Definition debug_result (r : result GrainError string) : string :=
  match r with
  | Ok s => "Ok(" +:+ debug_str s +:+ ")"
  | Err e => "Err(" +:+ debug_error e +:+ ")"
  end.

Definition a_start : Prog CycleMsg string (unit * option string) :=
  Ask grain_b CallBack (λ r, Return ((), Some ("A called B -> " +:+ debug_result r))).
Definition b_callback : Prog CycleMsg string (unit * option string) :=
  Ask grain_a Start (λ r, Return ((), Some
    match r with
    | Ok s => "B's call to A returned: " +:+ s
    | Err e => "B's call back to A was rejected: " +:+ GrainError_display dur e
    end)).
Definition cycle_handle (g : GrainId) (_ : RequestContext) (_ : unit) (m : CycleMsg)
    : Prog CycleMsg string (unit * option string) :=
  match m with Start => a_start | CallBack => b_callback end.
Definition cycle_ask (fuel : nat) : option (gmap GrainId unit * list (GrainId * CycleMsg) * result GrainError string) :=
  nested_ask cycle_handle (λ _, ()) (λ _, "") 30 fuel [] RequestContext_new (∅, []) grain_a Start.
End cycle.

(** The run of [main]: the cycle is found at the third ask. *)
Definition cycle_answer : string :=
  "A called B -> Ok(" +:+
  debug_str ("B's call back to A was rejected: deadlock detected: grain call cycle deadlock_detection::A/a," +:+
             "deadlock_detection::B/b -> deadlock_detection::A/a") +:+ ")".

Lemma calls_never_hang_witness :
  ∃ gs, ∀ fuel, (2 < fuel)%nat → cycle_ask (λ _, "") (λ _, "") fuel = Some ((gs, []), Ok cycle_answer).
Proof.
  destruct (calls_never_hang (cycle_handle (λ _, "") (λ _, "")) (λ _, ()) (λ _, "") 30 [grain_a; grain_b]
              RequestContext_new ∅ grain_a Start) as (gs & r & H).
  - apply (bool_decide_unpack _). vm_compute. exact I.
  - reflexivity.
  - intros g ctx st m _. destruct m; (split; [|intros r; exact I]).
    + apply list_elem_of_further, list_elem_of_here.
    + apply list_elem_of_here.
  - apply list_elem_of_here.
  - exists gs. intros fuel Hf. unfold cycle_ask. rewrite (H fuel Hf). f_equal. f_equal.
    assert (snd <$> cycle_ask (λ _, "") (λ _, "") 3 = Some (Ok cycle_answer)) as Hr by (vm_compute; reflexivity).
    unfold cycle_ask in Hr. rewrite (H 3%nat (le_n 3)) in Hr. cbn [fmap option_fmap option_map snd] in Hr. congruence.
Defined.

(** A grain whose key contains a comma is not found in the chain: calling itself, it waits for its timeout, and
    its message stays in its mailbox. *)
Definition comma_grain : GrainId := mkGrainId "app::Loop" "a,b".
Definition comma_handle (_ : GrainId) (_ : RequestContext) (_ : unit) (_ : unit) : Prog unit bool (unit * option bool) :=
  Ask comma_grain () (λ r, Return ((), Some match r with Err (Timeout _) => true | _ => false end)).
Theorem comma_key_times_out fuel :
  (1 < fuel)%nat →
  ∃ gs, nested_ask comma_handle (λ _, ()) (λ _, "") 30 fuel [] RequestContext_new (∅, []) comma_grain () =
    Some ((gs, [(comma_grain, ())]), Ok true).
Proof.
  intros Hf.
  assert ((λ out, (out.1.2, out.2)) <$> nested_ask comma_handle (λ _, ()) (λ _, "") 30 2 [] RequestContext_new (∅, []) comma_grain () =
    Some ([(comma_grain, ())], Ok true)) as H2 by (vm_compute; reflexivity).
  destruct (nested_ask _ _ _ _ 2 _ _ _ _ _) as [[[gs q] r]|] eqn:E; [|done]. cbn in H2. injection H2 as -> ->.
  exists gs. apply (nested_ask_mono_le _ _ _ _ 2); [lia|done].
Qed.

(** ** [request_context.rs] *)
Inductive OrderMsg := PlaceOrder | RecordAccess.
Definition front : GrainId := mkGrainId "request_context::FrontGrain" "front".
Definition audit : GrainId := mkGrainId "request_context::AuditGrain" "audit".
Definition handle_record (ctx : RequestContext) : Prog OrderMsg (option string) (unit * option (option string)) :=
  Return ((), Some (RequestContext_get ctx "trace-id")).
(** The answer is unwrapped; an error panics. *)
Definition handle_order : Prog OrderMsg (option string) (unit * option (option string)) :=
  Ask audit RecordAccess (λ r, Return ((), res_ok r)).
Definition order_handle (_ : GrainId) (ctx : RequestContext) (_ : unit) (m : OrderMsg)
    : Prog OrderMsg (option string) (unit * option (option string)) :=
  match m with PlaceOrder => handle_order | RecordAccess => handle_record ctx end.
Definition place_order (ctx : RequestContext) : option (result GrainError (option string)) :=
  snd <$> nested_ask order_handle (λ _, ()) (λ _, "") 30 3 [] ctx (∅, []) front PlaceOrder.

(** The trace id set at the edge is what the grain two calls down reads, and without one it reads none. *)
Theorem trace_id_propagates ctx :
  RequestContext_get ctx CALL_CHAIN_KEY = None → place_order ctx = Some (Ok (RequestContext_get ctx "trace-id")).
Proof.
  intros Hc. unfold place_order. cbn [nested_ask].
  assert (∀ g path, chain_safe g → Forall chain_safe path → g ∉ path → is_in_call_chain (path_ctx ctx path) g = false) as Hfree.
  { intros g path Hg Hp Hn. rewrite is_in_call_chain_path by done. by apply bool_decide_false. }
  change ctx with (path_ctx ctx []) at 1. rewrite Hfree by (done || by apply not_elem_of_nil).
  unfold turn at 1. rewrite bool_decide_false by apply not_elem_of_nil. cbn [exec order_handle handle_order nested_ask].
  change (with_call_chain_entry ctx front) with (path_ctx ctx [front]).
  rewrite Hfree; [|done|by repeat constructor|by rewrite list_elem_of_singleton].
  unfold turn at 1. rewrite bool_decide_false by (by rewrite list_elem_of_singleton). cbn [exec order_handle handle_record].
  change (with_call_chain_entry (path_ctx ctx [front]) audit) with (path_ctx ctx [front; audit]).
  rewrite path_ctx_get by done. cbn. unfold GrainRef_ask. cbn [ref_grain_id GrainRef_with_id].
  change (is_in_call_chain _ audit) with (is_in_call_chain (path_ctx ctx [front]) audit).
  rewrite Hfree; [|done|by repeat constructor|by rewrite list_elem_of_singleton]. cbn.
  change (is_in_call_chain ctx front) with (is_in_call_chain (path_ctx ctx []) front).
  by rewrite Hfree by (done || by apply not_elem_of_nil).
Qed.

Lemma trace_id_propagates_witness :
  place_order (RequestContext_with RequestContext_new "trace-id" "trace-xyz") = Some (Ok (Some "trace-xyz")) ∧
  place_order RequestContext_new = Some (Ok None).
Proof. split; apply trace_id_propagates; reflexivity. Defined.
