(* ===== verification/Auth.v ===== *)
(** Request authentication ([orlando-cluster/src/auth.rs]) and the connection pool that
    attaches the token to outgoing requests ([connection_pool.rs]). *)
From Stdlib Require Import Ascii.
From S2P Require Import Prelude CoreTypes HashRing.

(** * gRPC statuses (tonic's [Code], as far as the sources build them) *)
Inductive Status :=
| Unauthenticated (m : string)
| ResourceExhausted (m : string)
| InvalidArgument (m : string)
| NotFound (m : string)
| FailedPrecondition (m : string)
| Unavailable (m : string)
| PermissionDenied (m : string)
| Internal (m : string)
| StatusOther (m : string).
#[global] Instance Status_eq_dec : EqDecision Status.
Proof. solve_decision. Defined.

(** The [authorization] entry of a request's metadata; [Err] is a value that is not
    visible ASCII ([to_str] fails). *)
Abbreviation Metadata := (option (result unit string)).

(** * Shared-secret authentication *)

(** [constant_time_eq] on byte slices. *)
Definition constant_time_eq (a b : list Z) : bool :=
  if bool_decide (length a ≠ length b) then false
  else bool_decide (foldl (λ diff '(x, y), Z.lor diff (Z.lxor x y)) 0 (zip a b) = 0).

Record SharedSecretAuth := mkAuth { expected : string }.

Definition SharedSecretAuth_new (token : string) : SharedSecretAuth := mkAuth token.

(** [SharedSecretAuth::authenticate] *)
Definition authenticate (self : SharedSecretAuth) (metadata : Metadata) : result Status unit :=
  match metadata with
  | Some (Ok value_str) =>
      if constant_time_eq (as_bytes value_str) (as_bytes (expected self)) then Ok ()
      else Err (Unauthenticated "invalid authorization token")
  | Some (Err _) => Err (Unauthenticated "invalid authorization header encoding")
  | None => Err (Unauthenticated "missing authorization header")
  end.

(** The guard every handler starts with: [if let Some(ref auth) = self.auth]. *)
Definition check_auth (auth : option SharedSecretAuth) (metadata : Metadata)
    : result Status unit :=
  match auth with Some a => authenticate a metadata | None => Ok () end.

(** * The connection pool.  A cached client is the endpoint it is connected to. *)
Record ConnectionPool := mkConnPool {
  transports : gset string;
  memberships : gset string;
  gateways : gset string;
  tls_config : bool;
  auth_token : option string }.

Definition ConnectionPool_new : ConnectionPool := mkConnPool ∅ ∅ ∅ false None.
Definition ConnectionPool_with_auth (token : string) : ConnectionPool :=
  mkConnPool ∅ ∅ ∅ false (Some token).
Definition ConnectionPool_with_tls : ConnectionPool := mkConnPool ∅ ∅ ∅ true None.
Definition ConnectionPool_with_tls_and_auth (token : string) : ConnectionPool :=
  mkConnPool ∅ ∅ ∅ true (Some token).

(** [authorized_request]: the metadata of the request it builds; [parses] says which
    strings tonic accepts as a metadata value. *)
Definition authorized_request (parses : string → bool) (p : ConnectionPool) : Metadata :=
  match auth_token p with
  | Some token => if parses token then Some (Ok token) else None
  | None => None
  end.

(** The URI of [connect_channel]. *)
Definition channel_uri (p : ConnectionPool) (ep : string) : string :=
  if tls_config p then "https://" +:+ ep else "http://" +:+ ep.

(** [get_transport]; [connects uri] says whether dialling the URI succeeds.  The bool is
    whether a client is returned. *)
Definition ConnectionPool_get_transport (connects : string → bool) (p : ConnectionPool)
    (ep : string) : ConnectionPool * bool :=
  if bool_decide (ep ∈ transports p) then (p, true)
  else if connects (channel_uri p ep) then
    (mkConnPool ({[ep]} ∪ transports p) (memberships p) (gateways p) (tls_config p) (auth_token p),
     true)
  else (p, false).

(** [get_membership] *)
Definition ConnectionPool_get_membership (connects : string → bool) (p : ConnectionPool)
    (ep : string) : ConnectionPool * bool :=
  if bool_decide (ep ∈ memberships p) then (p, true)
  else if connects (channel_uri p ep) then
    (mkConnPool (transports p) ({[ep]} ∪ memberships p) (gateways p) (tls_config p) (auth_token p),
     true)
  else (p, false).

(** [get_gateway] *)
Definition ConnectionPool_get_gateway (connects : string → bool) (p : ConnectionPool)
    (ep : string) : ConnectionPool * bool :=
  if bool_decide (ep ∈ gateways p) then (p, true)
  else if connects (channel_uri p ep) then
    (mkConnPool (transports p) (memberships p) ({[ep]} ∪ gateways p) (tls_config p) (auth_token p),
     true)
  else (p, false).

(** [ConnectionPool::remove] *)
Definition ConnectionPool_remove (p : ConnectionPool) (ep : string) : ConnectionPool :=
  mkConnPool (transports p ∖ {[ep]}) (memberships p ∖ {[ep]}) (gateways p ∖ {[ep]})
    (tls_config p) (auth_token p).

(** * Properties *)

Lemma diff_fold_zero ps d :
  foldl (λ diff '(x, y), Z.lor diff (Z.lxor x y)) d ps = 0 ↔
  d = 0 ∧ Forall (λ p : Z * Z, p.1 = p.2) ps.
Proof.
  revert d. induction ps as [|[x y] ps IH]; intros d; cbn.
  - rewrite Forall_nil. tauto.
  - rewrite IH, Z.lor_eq_0_iff, Z.lxor_eq_0_iff, Forall_cons. cbn. tauto.
Qed.

Lemma constant_time_eq_spec a b : constant_time_eq a b = true ↔ a = b.
Proof.
  unfold constant_time_eq. case_bool_decide as Hl.
  - split; [done|]. by intros ->.
  - rewrite bool_decide_eq_true, diff_fold_zero.
    revert b Hl. induction a as [|x a IH]; intros [|y b] Hl; cbn in *; try done.
    rewrite Forall_cons. cbn. injection Hl as Hl. specialize (IH b Hl). naive_solver.
Qed.

Lemma as_bytes_inj s t : as_bytes s = as_bytes t → s = t.
Proof.
  revert t. induction s as [|c s IH]; intros [|c' t]; cbn; try done.
  intros [= Hc Hs]. f_equal; [|by apply IH].
  apply N2Z.inj in Hc. rewrite <- (ascii_N_embedding c), <- (ascii_N_embedding c'). by rewrite Hc.
Qed.

Lemma authenticate_ok a md : authenticate a md = Ok () ↔ md = Some (Ok (expected a)).
Proof.
  destruct md as [[v|[]]|]; cbn; [|split; done..].
  destruct (constant_time_eq _ _) eqn:E.
  - apply constant_time_eq_spec, as_bytes_inj in E. naive_solver.
  - split; [done|]. intros [= ->]. by rewrite (proj2 (constant_time_eq_spec _ _)) in E.
Qed.

(** Shared-secret authentication admits a request exactly when its authorization
    header is the expected token: the constant-time loop decides equality of the
    byte strings, a request built by a pool holding the same token is admitted,
    and a request without a header is always refused. *)
Theorem shared_secret_auth parses a p md :
  (authenticate a md = Ok () ↔ md = Some (Ok (expected a))) ∧
  (∀ s t, constant_time_eq (as_bytes s) (as_bytes t) = true ↔ s = t) ∧
  (authenticate a (authorized_request parses p) = Ok () ↔
     auth_token p = Some (expected a) ∧ parses (expected a) = true) ∧
  is_ok (authenticate a None) = false.
Proof.
  split_and!; [apply authenticate_ok| | |done].
  - intros s t. rewrite constant_time_eq_spec. split; [apply as_bytes_inj|by intros ->].
  - rewrite authenticate_ok. unfold authorized_request.
    destruct (auth_token p) as [t|]; [|naive_solver]. destruct (parses t) eqn:E; naive_solver congruence.
Qed.
