(* ===== verification/Swim.v ===== *)
(** The SWIM membership protocol of [orlando-cluster/src/swim.rs] with the failure
    detector's configuration ([failure_detector.rs]): member table, gossip queue,
    gossip application, suspicion, expiry, the wire conversions and one period of
    the protocol loop. *)
From S2P Require Import Prelude CoreTypes HashRing Auth.

Definition MAX_PENDING_GOSSIP : nat := 1024.

(** Instants are nanoseconds on the silo's monotonic clock. *)
Inductive MemberStatus := MAlive | MSuspect (since : Z) (reported_by : string).
#[global] Instance MemberStatus_eq_dec : EqDecision MemberStatus.
Proof. solve_decision. Defined.

Record SwimMember := mkMember {
  sm_addr : SiloAddress; sm_status : MemberStatus; sm_incarnation : Z }.

Inductive GossipUpdate :=
| GAlive (addr : SiloAddress) (incarnation : Z)
| GSuspect (addr : SiloAddress) (incarnation : Z) (reported_by : string)
| GDead (addr : SiloAddress) (incarnation : Z)
| GJoin (addr : SiloAddress).
#[global] Instance GossipUpdate_eq_dec : EqDecision GossipUpdate.
Proof. solve_decision. Defined.

Inductive MembershipChange := SiloJoined (s : SiloAddress) | SiloLeft (s : SiloAddress).

Record SwimState := mkSwim {
  members : gmap string SwimMember;
  local_incarnation : Z;
  local_addr : SiloAddress;
  pending_gossip : list GossipUpdate }.

Record FailureDetectorConfig := mkFdConfig {
  protocol_period : Z; ping_timeout : Z; ping_req_count : nat;
  suspect_timeout : Z; gossip_fanout : nat }.

Definition second : Z := 1000000000.
Definition FailureDetectorConfig_default : FailureDetectorConfig :=
  mkFdConfig (2 * second) second 3 (5 * second) 6.
Definition FailureDetectorConfig_from_legacy (ping_interval ping_timeout max_missed_pings : Z)
    : FailureDetectorConfig :=
  let d := FailureDetectorConfig_default in
  mkFdConfig ping_interval ping_timeout (ping_req_count d) (ping_interval * max_missed_pings)
    (gossip_fanout d).

(** * The state of a silo's membership: the SWIM state and what its operations share
    with the rest of the silo (ring, connection pool, broadcast channel). *)
Record Node := mkNode {
  nd_swim : SwimState;
  nd_ring : HashRing;
  nd_pool : ConnectionPool;
  nd_changes : list MembershipChange }.

Definition local_id (s : SwimState) : string := silo_id (local_addr s).
Definition member_ids (n : Node) : gset string := dom (members (nd_swim n)).

Definition SwimState_new (local_addr : SiloAddress) : SwimState := mkSwim ∅ 0 local_addr [].

Definition with_members (s : SwimState) (m : gmap string SwimMember) : SwimState :=
  mkSwim m (local_incarnation s) (local_addr s) (pending_gossip s).

Definition with_swim (n : Node) (s : SwimState) : Node :=
  mkNode s (nd_ring n) (nd_pool n) (nd_changes n).

(** [drain_gossip] *)
Definition drain_gossip (s : SwimState) (n : nat) : SwimState * list GossipUpdate :=
  let count := Nat.min n (length (pending_gossip s)) in
  (mkSwim (members s) (local_incarnation s) (local_addr s) (drop count (pending_gossip s)),
   take count (pending_gossip s)).

(** [enqueue_gossip] *)
Definition enqueue_gossip (s : SwimState) (update : GossipUpdate) : SwimState :=
  let q := if bool_decide (MAX_PENDING_GOSSIP ≤ length (pending_gossip s))%nat
           then tail (pending_gossip s) else pending_gossip s in
  mkSwim (members s) (local_incarnation s) (local_addr s) (q ++ [update]).

(** The mutable locals of [apply_gossip]. *)
Record GossipAcc := mkAcc {
  acc_node : Node; ring_adds : list SiloAddress; ring_removes : list SiloAddress }.

(** One iteration of the loop of [apply_gossip]; [now] is [Instant::now()]. *)
Definition apply_update (now : Z) (acc : GossipAcc) (update : GossipUpdate) : GossipAcc :=
  let n := acc_node acc in
  let s := nd_swim n in
  match update with
  | GAlive addr incarnation =>
      if bool_decide (silo_id addr = local_id s) then acc
      else
        match members s !! silo_id addr with
        | Some member =>
            if bool_decide (sm_incarnation member < incarnation) then
              mkAcc (with_swim n (with_members s
                       (<[silo_id addr := mkMember (sm_addr member) MAlive incarnation]>
                          (members s))))
                (ring_adds acc) (ring_removes acc)
            else acc
        | None => acc
        end
  | GSuspect addr incarnation reported_by =>
      if bool_decide (silo_id addr = local_id s)
         && bool_decide (local_incarnation s ≤ incarnation) then
        let s' := mkSwim (members s) (u64_add incarnation 1) (local_addr s) (pending_gossip s) in
        mkAcc (with_swim n (enqueue_gossip s' (GAlive (local_addr s') (local_incarnation s'))))
          (ring_adds acc) (ring_removes acc)
      else if bool_decide (silo_id addr = local_id s) then acc
      else
        match members s !! silo_id addr with
        | Some member =>
            if bool_decide (sm_incarnation member ≤ incarnation)
               && bool_decide (sm_status member = MAlive) then
              mkAcc (with_swim n (with_members s
                       (<[silo_id addr :=
                            mkMember (sm_addr member) (MSuspect now reported_by) incarnation]>
                          (members s))))
                (ring_adds acc) (ring_removes acc)
            else acc
        | None => acc
        end
  | GDead addr incarnation =>
      if bool_decide (silo_id addr = local_id s) then acc
      else
        match members s !! silo_id addr with
        | Some member =>
            if bool_decide (sm_incarnation member ≤ incarnation) then
              mkAcc (mkNode (with_members s (delete (silo_id addr) (members s))) (nd_ring n)
                       (ConnectionPool_remove (nd_pool n) (endpoint addr))
                       (nd_changes n ++ [SiloLeft addr]))
                (ring_adds acc) (ring_removes acc ++ [addr])
            else acc
        | None => acc
        end
  | GJoin addr =>
      if bool_decide (silo_id addr = local_id s) then acc
      else
        match members s !! silo_id addr with
        | Some _ => acc
        | None =>
            mkAcc (mkNode (with_members s
                             (<[silo_id addr := mkMember addr MAlive 0]> (members s)))
                     (nd_ring n) (nd_pool n) (nd_changes n ++ [SiloJoined addr]))
              (ring_adds acc ++ [addr]) (ring_removes acc)
        end
  end.

(** [SwimState::apply_gossip] *)
Definition apply_gossip (now : Z) (n : Node) (updates : list GossipUpdate) : Node :=
  let acc := foldl (apply_update now) (mkAcc n [] []) updates in
  let n' := acc_node acc in
  match ring_adds acc, ring_removes acc with
  | [], [] => n'
  | adds, removes =>
      let new_ring := foldl HashRing_remove (nd_ring n') removes in
      let new_ring := foldl HashRing_add new_ring adds in
      mkNode (nd_swim n') new_ring (nd_pool n') (nd_changes n')
  end.

(** [SwimState::suspect_member] *)
Definition suspect_member (now : Z) (s : SwimState) (id : string) : SwimState :=
  match members s !! id with
  | Some member =>
      if bool_decide (sm_status member = MAlive) then
        let reported_by := local_id s in
        enqueue_gossip
          (with_members s (<[id := mkMember (sm_addr member) (MSuspect now reported_by)
                                     (sm_incarnation member)]> (members s)))
          (GSuspect (sm_addr member) (sm_incarnation member) reported_by)
      else s
  | None => s
  end.

(** [SwimState::declare_dead] *)
Definition declare_dead (n : Node) (id : string) : Node :=
  let s := nd_swim n in
  match members s !! id with
  | Some member =>
      mkNode
        (enqueue_gossip (with_members s (delete id (members s)))
           (GDead (sm_addr member) (sm_incarnation member)))
        (HashRing_remove (nd_ring n) (sm_addr member))
        (ConnectionPool_remove (nd_pool n) (endpoint (sm_addr member)))
        (nd_changes n ++ [SiloLeft (sm_addr member)])
  | None => n
  end.

(** [live_member_ids] *)
Definition live_member_ids (s : SwimState) : list string := (map_to_list (members s)).*1.

(** [Instant::duration_since] saturates at zero. *)
Definition duration_since (now earlier : Z) : Z := Z.max 0 (now - earlier).

(** The filter of [expire_suspects]. *)
Definition is_expired (now : Z) (config : FailureDetectorConfig) (m : SwimMember) : bool :=
  match sm_status m with
  | MSuspect since _ => bool_decide (suspect_timeout config < duration_since now since)
  | MAlive => false
  end.

(** [expire_suspects] *)
Definition expire_suspects (now : Z) (config : FailureDetectorConfig) (n : Node) : Node :=
  let expired :=
    (filter (λ p : string * SwimMember, is_expired now config p.2)
       (map_to_list (members (nd_swim n)))).*1 in
  foldl declare_dead n expired.

(** * Wire conversions (proto messages [SiloAddress] and [GossipEntry]) *)
Record ProtoSiloAddress := mkProtoAddr { p_host : string; p_port : Z; p_silo_id : string }.
Record GossipEntry := mkEntry {
  update_type : Z; entry_silo : option ProtoSiloAddress; entry_incarnation : Z;
  entry_reported_by : string }.

Definition to_proto_addr (s : SiloAddress) : ProtoSiloAddress :=
  mkProtoAddr (host s) (as_u32 (port s)) (silo_id s).
Definition from_proto_addr (p : ProtoSiloAddress) : SiloAddress :=
  mkSilo (p_host p) (as_u16 (p_port p)) (p_silo_id p).

(** [gossip_to_proto], per entry; [UpdateType] is Alive = 0, Suspect = 1, Dead = 2, Join = 3. *)
Definition update_to_entry (u : GossipUpdate) : GossipEntry :=
  match u with
  | GAlive addr incarnation => mkEntry 0 (Some (to_proto_addr addr)) incarnation ""
  | GSuspect addr incarnation by_ => mkEntry 1 (Some (to_proto_addr addr)) incarnation by_
  | GDead addr incarnation => mkEntry 2 (Some (to_proto_addr addr)) incarnation ""
  | GJoin addr => mkEntry 3 (Some (to_proto_addr addr)) 0 ""
  end.
Definition gossip_to_proto (updates : list GossipUpdate) : list GossipEntry :=
  update_to_entry <$> updates.

Definition entry_to_update (e : GossipEntry) : option GossipUpdate :=
  p ← entry_silo e;
  let addr := from_proto_addr p in
  if bool_decide (update_type e = 0) then Some (GAlive addr (entry_incarnation e))
  else if bool_decide (update_type e = 1) then
    Some (GSuspect addr (entry_incarnation e) (entry_reported_by e))
  else if bool_decide (update_type e = 2) then Some (GDead addr (entry_incarnation e))
  else if bool_decide (update_type e = 3) then Some (GJoin addr)
  else None.
Definition proto_to_gossip (entries : list GossipEntry) : list GossipUpdate :=
  omap entry_to_update entries.

(** * One period of [run_swim_protocol] *)

(** What the environment decides during a period: clock, random choices, and what each
    remote call returns. *)
Record PeriodEnv := mkEnv {
  env_now : Z;                               (** instant of the period *)
  env_pick : nat → nat;                      (** [fastrand::usize(..n)] *)
  env_shuffle : list SiloAddress → list SiloAddress;
  env_connects : string → bool;
  env_ping : SiloAddress → option (list GossipEntry);  (** direct ping: the response gossip *)
  env_ping_req : SiloAddress → SiloAddress → bool }.   (** peer's [target_alive] *)

(** [direct_ping] *)
Definition direct_ping (env : PeriodEnv) (n : Node) (target : SiloAddress) : Node * bool :=
  match ConnectionPool_get_membership (env_connects env) (nd_pool n) (endpoint target) with
  | (pool, false) => (mkNode (nd_swim n) (nd_ring n) pool (nd_changes n), false)
  | (pool, true) =>
      let n := mkNode (nd_swim n) (nd_ring n) pool (nd_changes n) in
      match env_ping env target with
      | Some gossip =>
          match proto_to_gossip gossip with
          | [] => (n, true)
          | incoming => (apply_gossip (env_now env) n incoming, true)
          end
      | None => (n, false)
      end
  end.

(** [indirect_ping] *)
Definition indirect_ping (env : PeriodEnv) (n : Node) (peer target : SiloAddress) : Node * bool :=
  match ConnectionPool_get_membership (env_connects env) (nd_pool n) (endpoint peer) with
  | (pool, ok) =>
      (mkNode (nd_swim n) (nd_ring n) pool (nd_changes n), ok && env_ping_req env peer target)
  end.

(** The loop over the peers, stopping at the first that reports the target alive. *)
Fixpoint indirect_pings (env : PeriodEnv) (n : Node) (peers : list SiloAddress)
    (target : SiloAddress) : Node * bool :=
  match peers with
  | [] => (n, false)
  | peer :: peers' =>
      match indirect_ping env n peer target with
      | (n, true) => (n, true)
      | (n, false) => indirect_pings env n peers' target
      end
  end.

(** [member.status = Alive] for the target, if it is still a member. *)
Definition mark_alive (n : Node) (id : string) : Node :=
  let s := nd_swim n in
  match members s !! id with
  | Some m =>
      with_swim n (with_members s
        (<[id := mkMember (sm_addr m) MAlive (sm_incarnation m)]> (members s)))
  | None => n
  end.

(** The member a period probes. *)
Definition pick_target (env : PeriodEnv) (s : SwimState) : option SiloAddress :=
  match live_member_ids s with
  | [] => None
  | ids => id ← ids !! env_pick env (length ids); sm_addr <$> members s !! id
  end.

(** The body of the loop of [run_swim_protocol], as one step: its suspicions and expiries see one instant, and no request is
    served while it waits for its probes. *)
Definition swim_period (config : FailureDetectorConfig) (env : PeriodEnv) (n : Node) : Node :=
  match pick_target env (nd_swim n) with
  | None => n
  | Some target =>
      let '(s, _) := drain_gossip (nd_swim n) (gossip_fanout config) in
      let '(n, direct_ok) := direct_ping env (with_swim n s) target in
      let n :=
        if direct_ok then mark_alive n (silo_id target)
        else
          let candidates :=
            (sm_addr ∘ snd) <$>
              filter (λ p : string * SwimMember, silo_id (sm_addr p.2) ≠ silo_id target)
                (map_to_list (members (nd_swim n))) in
          let peers := take (ping_req_count config) (env_shuffle env candidates) in
          match indirect_pings env n peers target with
          | (n, true) => mark_alive n (silo_id target)
          | (n, false) => with_swim n (suspect_member (env_now env) (nd_swim n) (silo_id target))
          end in
      expire_suspects (env_now env) config n
  end.

(** * The ring follows the member table *)

(** The silo ids placed on a ring. *)
Definition ring_ids (r : HashRing) : gset string := list_to_set (silo_id <$> HashRing_members r).
Definition ids (l : list SiloAddress) : gset string := list_to_set (silo_id <$> l).
#[global] Arguments ids l : simpl never.

Lemma elem_of_ring_ids r id :
  id ∈ ring_ids r ↔ ∃ j s, ring r !! j = Some s ∧ silo_id s = id.
Proof. unfold ring_ids. rewrite elem_of_list_to_set. apply members_ids. Qed.

Lemma ids_app l l' : ids (l ++ l') = ids l ∪ ids l'.
Proof. unfold ids. by rewrite fmap_app, list_to_set_app_L. Qed.

Lemma ids_singleton s : ids [s] = {[silo_id s]}.
Proof. unfold ids. cbn. set_solver. Qed.

Lemma ids_cons s l : ids (s :: l) = {[silo_id s]} ∪ ids l.
Proof. done. Qed.

Definition update_addr (u : GossipUpdate) : SiloAddress :=
  match u with GAlive a _ | GSuspect a _ _ | GDead a _ | GJoin a => a end.

(** No [Dead] follows a [Join] of the same silo within the batch. *)
Fixpoint batch_ok (joined : gset string) (us : list GossipUpdate) : bool :=
  match us with
  | [] => true
  | GJoin a :: us' => batch_ok ({[silo_id a]} ∪ joined) us'
  | GDead a _ :: us' => bool_decide (silo_id a ∉ joined) && batch_ok joined us'
  | _ :: us' => batch_ok joined us'
  end.

(** The universe of silo ids in play, in which no two ids share a ring position. *)
Record universe_ok (vn : Z) (U : gset string) : Prop := {
  uni_vn : 0 < vn;
  uni_free : set_Forall (λ id, set_Forall (λ id', id = id' ∨ collision_free vn id id') U) U }.

#[global] Instance universe_ok_dec vn U : Decision (universe_ok vn U).
Proof.
  refine (cast_if_and (decide (0 < vn))
    (decide (set_Forall (λ id, set_Forall (λ id', id = id' ∨ collision_free vn id id') U) U)));
    [by split|by intros []..].
Defined.

Section agreement.
Context (vn : Z) (U : gset string) (HU : universe_ok vn U).

Record ring_ok (r : HashRing) : Prop := {
  ro_wf : ring_wf r; ro_vn : virtual_nodes r = vn; ro_ids : ring_ids r ⊆ U }.

Lemma vnodes_inhabited id : vnode_key id 0 ∈ vnodes vn id.
Proof.
  apply list_elem_of_fmap. exists 0. split; [done|]. apply elem_of_seqZ. destruct HU. lia.
Qed.

Lemma universe_free id id' j :
  id ∈ U → id' ∈ U → j ∈ vnodes vn id → j ∈ vnodes vn id' → id = id'.
Proof.
  intros Hi Hi' Hj Hj'. destruct (uni_free _ _ HU id Hi id' Hi') as [?|Hc]; [done|].
  rewrite collision_free_spec in Hc. by destruct (Hc j).
Qed.

Lemma ring_ids_add r s :
  ring_ok r → silo_id s ∈ U →
  ring_ok (HashRing_add r s) ∧ ring_ids (HashRing_add r s) = {[silo_id s]} ∪ ring_ids r.
Proof.
  intros [Hwf Hvn Hids] Hs.
  assert (ring_ids (HashRing_add r s) = {[silo_id s]} ∪ ring_ids r) as Heq.
  { apply set_eq. intros id. rewrite elem_of_union, elem_of_singleton, !elem_of_ring_ids.
    setoid_rewrite lookup_add. rewrite Hvn. split.
    - intros (j & t & Hj & <-). case_decide; [left; by simplify_eq|right; eauto].
    - intros [->|(j & t & Hj & <-)].
      + exists (vnode_key (silo_id s) 0), s. by rewrite decide_True by apply vnodes_inhabited.
      + exists j. case_decide as Hd; [exists s|by exists t]. split; [done|].
        apply (universe_free _ _ j Hs); [|done|by rewrite <- Hvn; apply Hwf].
        apply Hids, elem_of_ring_ids. eauto. }
  split; [|done]. split; [by apply ring_wf_add|done|]. rewrite Heq. set_solver.
Qed.

Lemma ring_ids_remove r s :
  ring_ok r → silo_id s ∈ U →
  ring_ok (HashRing_remove r s) ∧ ring_ids (HashRing_remove r s) = ring_ids r ∖ {[silo_id s]}.
Proof.
  intros [Hwf Hvn Hids] Hs.
  assert (ring_ids (HashRing_remove r s) = ring_ids r ∖ {[silo_id s]}) as Heq.
  { apply set_eq. intros id. rewrite elem_of_difference, elem_of_singleton, !elem_of_ring_ids.
    setoid_rewrite lookup_remove. rewrite Hvn. split.
    - intros (j & t & Hj & <-). case_decide as Hd; [done|]. split; [by eauto|].
      intros Heq. apply Hd. rewrite <- Heq, <- Hvn. by apply Hwf.
    - intros [(j & t & Hj & <-) Hne]. exists j, t. split; [|done]. rewrite decide_False; [done|].
      intros Hd. apply Hne. apply (universe_free _ _ j); [|done| |done].
      + apply Hids, elem_of_ring_ids. eauto.
      + rewrite <- Hvn. by apply Hwf. }
  split; [|done]. split; [by apply ring_wf_remove|done|]. rewrite Heq. set_solver.
Qed.

Lemma ring_ids_adds l r :
  ring_ok r → ids l ⊆ U →
  ring_ok (foldl HashRing_add r l) ∧ ring_ids (foldl HashRing_add r l) = ids l ∪ ring_ids r.
Proof.
  revert r. induction l as [|s l IH]; intros r Hr Hl; [split; [done|]; unfold ids; set_solver|].
  rewrite ids_cons in Hl. destruct (ring_ids_add r s Hr) as [Hr' Heq]; [set_solver|].
  destruct (IH _ Hr') as [H1 H2]; [set_solver|]. split; [done|].
  cbn [foldl]. rewrite H2, Heq, ids_cons. set_solver.
Qed.

Lemma ring_ids_removes l r :
  ring_ok r → ids l ⊆ U →
  ring_ok (foldl HashRing_remove r l) ∧ ring_ids (foldl HashRing_remove r l) = ring_ids r ∖ ids l.
Proof.
  revert r. induction l as [|s l IH]; intros r Hr Hl; [split; [done|]; unfold ids; set_solver|].
  rewrite ids_cons in Hl. destruct (ring_ids_remove r s Hr) as [Hr' Heq]; [set_solver|].
  destruct (IH _ Hr') as [H1 H2]; [set_solver|]. split; [done|].
  cbn [foldl]. rewrite H2, Heq, ids_cons. set_solver.
Qed.

(** The invariant of a silo's membership state. *)
Record node_ok (n : Node) : Prop := {
  no_ring : ring_ok (nd_ring n);
  no_agree : ring_ids (nd_ring n) = {[local_id (nd_swim n)]} ∪ member_ids n;
  no_local : local_id (nd_swim n) ∉ member_ids n;
  no_keyed : map_Forall (λ id m, silo_id (sm_addr m) = id) (members (nd_swim n));
  no_queue : (length (pending_gossip (nd_swim n)) ≤ MAX_PENDING_GOSSIP)%nat }.

Definition gossip_ok (us : list GossipUpdate) : Prop :=
  Forall (λ u, silo_id (update_addr u) ∈ U) us ∧ batch_ok ∅ us = true.
End agreement.

Lemma enqueue_queue s u :
  (length (pending_gossip s) ≤ MAX_PENDING_GOSSIP)%nat →
  (length (pending_gossip (enqueue_gossip s u)) ≤ MAX_PENDING_GOSSIP)%nat.
Proof.
  unfold enqueue_gossip. cbn [pending_gossip]. rewrite length_app. cbn [length].
  case_bool_decide; [|lia]. destruct (pending_gossip s); cbn in *; [|lia].
  unfold MAX_PENDING_GOSSIP in *. lia.
Qed.

#[export] Hint Resolve enqueue_queue : orlando.

(** ** Gossip application preserves the invariant *)
Section apply_gossip.
Context (vn : Z) (U : gset string) (HU : universe_ok vn U) (now : Z).

(** The loop invariant of [apply_gossip], started on node [n0]; [J] are the ids the batch
    has announced as joining so far. *)
Record acc_ok (n0 : Node) (J : gset string) (acc : GossipAcc) : Prop := {
  ao_local : local_addr (nd_swim (acc_node acc)) = local_addr (nd_swim n0);
  ao_ring : nd_ring (acc_node acc) = nd_ring n0;
  ao_members : member_ids (acc_node acc) =
               ids (ring_adds acc) ∪ (member_ids n0 ∖ ids (ring_removes acc));
  ao_joined : ids (ring_adds acc) ⊆ J;
  ao_uni : ids (ring_adds acc) ∪ ids (ring_removes acc) ⊆ U ∖ {[local_id (nd_swim n0)]};
  ao_keyed : map_Forall (λ id m, silo_id (sm_addr m) = id) (members (nd_swim (acc_node acc)));
  ao_queue : (length (pending_gossip (nd_swim (acc_node acc))) ≤ MAX_PENDING_GOSSIP)%nat }.

Lemma acc_ok_weaken n0 J J' acc : J ⊆ J' → acc_ok n0 J acc → acc_ok n0 J' acc.
Proof. intros HJ []. split; auto. set_solver. Qed.

(** A change to the status or incarnation of an existing member. *)
Lemma acc_ok_update n0 J acc id m m' :
  acc_ok n0 J acc → members (nd_swim (acc_node acc)) !! id = Some m →
  sm_addr m' = sm_addr m →
  acc_ok n0 J (mkAcc (with_swim (acc_node acc)
                        (with_members (nd_swim (acc_node acc))
                           (<[id := m']> (members (nd_swim (acc_node acc))))))
                 (ring_adds acc) (ring_removes acc)).
Proof.
  intros [] Hm Ha. split; auto; cbn.
  - unfold member_ids in *. cbn. rewrite dom_insert_lookup_L by done. done.
  - apply map_Forall_insert_2; [|done]. rewrite Ha. by apply (ao_keyed0 id).
Qed.

Lemma acc_ok_dead n0 J acc a m :
  acc_ok n0 J acc → members (nd_swim (acc_node acc)) !! silo_id a = Some m →
  silo_id a ∉ J → silo_id a ∈ U → silo_id a ≠ local_id (nd_swim n0) →
  let n := acc_node acc in
  acc_ok n0 J (mkAcc (mkNode (with_members (nd_swim n) (delete (silo_id a) (members (nd_swim n))))
                        (nd_ring n) (ConnectionPool_remove (nd_pool n) (endpoint a))
                        (nd_changes n ++ [SiloLeft a]))
                 (ring_adds acc) (ring_removes acc ++ [a])).
Proof.
  intros [] Hm HJ Ha Hl n. split; auto; cbn.
  - unfold member_ids in *. cbn. rewrite dom_delete_L, ids_app, ids_singleton. subst n.
    rewrite ao_members0. set_solver.
  - rewrite ids_app, ids_singleton. set_solver.
  - by apply map_Forall_delete.
Qed.

Lemma acc_ok_join n0 J acc a :
  acc_ok n0 J acc → members (nd_swim (acc_node acc)) !! silo_id a = None →
  silo_id a ∈ U → silo_id a ≠ local_id (nd_swim n0) →
  let n := acc_node acc in
  acc_ok n0 ({[silo_id a]} ∪ J)
    (mkAcc (mkNode (with_members (nd_swim n)
                      (<[silo_id a := mkMember a MAlive 0]> (members (nd_swim n))))
              (nd_ring n) (nd_pool n) (nd_changes n ++ [SiloJoined a]))
       (ring_adds acc ++ [a]) (ring_removes acc)).
Proof.
  intros [] Hm Ha Hl n. split; auto; cbn.
  - unfold member_ids in *. cbn. rewrite dom_insert_L, ids_app, ids_singleton. subst n.
    rewrite ao_members0. set_solver.
  - rewrite ids_app, ids_singleton. set_solver.
  - rewrite ids_app, ids_singleton. set_solver.
  - by apply map_Forall_insert_2.
Qed.

Lemma acc_ok_apply n0 us J acc :
  acc_ok n0 J acc → Forall (λ u, silo_id (update_addr u) ∈ U) us → batch_ok J us = true →
  ∃ J', acc_ok n0 J' (foldl (apply_update now) acc us).
Proof.
  revert J acc. induction us as [|u us IH]; intros J acc Hacc Hus Hb; [by exists J|].
  apply Forall_cons in Hus as [Hu Hus]. cbn [foldl].
  assert (local_id (nd_swim (acc_node acc)) = local_id (nd_swim n0)) as Hloc
    by (unfold local_id; by rewrite (ao_local _ _ _ Hacc)).
  destruct u as [a i|a i by_|a i|a]; cbn [batch_ok update_addr] in *; unfold apply_update.
  - apply (IH J); [|done..]. case_bool_decide; [done|].
    destruct (members _ !! _) as [m|] eqn:Hm; [|done].
    case_bool_decide; [|done]. by eapply acc_ok_update.
  - apply (IH J); [|done..]. case_bool_decide as Hl; cbn [andb].
    + case_bool_decide; [|done]. destruct Hacc. split; auto. by apply enqueue_queue.
    + destruct (members _ !! _) as [m|] eqn:Hm; [|done].
      case_bool_decide; [|done]. case_bool_decide; [|done]. by eapply acc_ok_update.
  - apply andb_true_iff in Hb as [HaJ%bool_decide_eq_true Hb].
    apply (IH J); [|done..]. case_bool_decide; [done|].
    destruct (members _ !! _) as [m|] eqn:Hm; [|done].
    case_bool_decide; [|done]. eapply acc_ok_dead; try done. congruence.
  - apply (IH ({[silo_id a]} ∪ J)); [|done..].
    case_bool_decide; [by eapply acc_ok_weaken; [|done]; set_solver|].
    destruct (members _ !! _) as [m|] eqn:Hm;
      [by eapply acc_ok_weaken; [|done]; set_solver|].
    eapply acc_ok_join; try done. congruence.
Qed.

Lemma acc_ok_start n : node_ok vn U n → acc_ok n ∅ (mkAcc n [] []).
Proof. intros []. split; cbn; auto; unfold ids; set_solver. Qed.

Lemma apply_gossip_ring n us :
  let acc := foldl (apply_update now) (mkAcc n [] []) us in
  apply_gossip now n us =
    mkNode (nd_swim (acc_node acc))
      (foldl HashRing_add (foldl HashRing_remove (nd_ring (acc_node acc)) (ring_removes acc))
         (ring_adds acc))
      (nd_pool (acc_node acc)) (nd_changes (acc_node acc)).
Proof.
  unfold apply_gossip. cbv zeta. generalize (foldl (apply_update now) (mkAcc n [] []) us).
  intros [[] [|] [|]]; done.
Qed.

Lemma apply_gossip_ok n us :
  node_ok vn U n → gossip_ok U us → node_ok vn U (apply_gossip now n us).
Proof.
  intros Hn [Hus Hb]. destruct (acc_ok_apply n us ∅ _ (acc_ok_start n Hn) Hus Hb) as [J Hacc].
  rewrite apply_gossip_ring. cbv zeta. revert Hacc. generalize (foldl (apply_update now) (mkAcc n [] []) us).
  intros acc []. destruct Hn.
  destruct (ring_ids_removes vn U HU (ring_removes acc) (nd_ring n)) as [Hr1 Hi1]; [done|set_solver|].
  destruct (ring_ids_adds vn U HU (ring_adds acc)
              (foldl HashRing_remove (nd_ring n) (ring_removes acc))) as [Hr2 Hi2]; [done|set_solver|].
  rewrite ao_ring0.
  assert (local_id (nd_swim (acc_node acc)) = local_id (nd_swim n)) as Hloc
    by (unfold local_id; by rewrite ao_local0).
  split; cbn [nd_swim nd_ring]; try done.
  - rewrite Hi2, Hi1, no_agree0, Hloc. change (member_ids (mkNode _ _ _ _)) with (member_ids (acc_node acc)).
    rewrite ao_members0. set_solver.
  - rewrite Hloc. change (member_ids (mkNode _ _ _ _)) with (member_ids (acc_node acc)).
    rewrite ao_members0. set_solver.
Qed.
End apply_gossip.

(** ** The other operations preserve the invariant *)
Lemma set_diff_keep (l id : string) (D : gset string) :
  l ≠ id → ({[l]} ∪ D) ∖ {[id]} = {[l]} ∪ (D ∖ {[id]}).
Proof. set_solver. Qed.

Section node_ops.
Context (vn : Z) (U : gset string) (HU : universe_ok vn U).

(** Operations that keep ring, local address and member ids. *)
Lemma node_ok_frame n n' :
  node_ok vn U n → nd_ring n' = nd_ring n → local_addr (nd_swim n') = local_addr (nd_swim n) →
  member_ids n' = member_ids n →
  map_Forall (λ id m, silo_id (sm_addr m) = id) (members (nd_swim n')) →
  (length (pending_gossip (nd_swim n')) ≤ MAX_PENDING_GOSSIP)%nat →
  node_ok vn U n'.
Proof.
  intros [] Hr Hl Hm Hk Hq.
  assert (local_id (nd_swim n') = local_id (nd_swim n)) as Hi by (unfold local_id; congruence).
  split; rewrite ?Hi, ?Hm, ?Hr; done.
Qed.

Lemma drain_gossip_ok n k :
  node_ok vn U n → node_ok vn U (with_swim n (drain_gossip (nd_swim n) k).1).
Proof.
  intros Hn. apply (node_ok_frame n); try done; cbn; [apply Hn|].
  rewrite length_drop. pose proof (no_queue _ _ _ Hn). lia.
Qed.

(** Replacing a member's record, keeping its address. *)
Lemma member_update_ok n id m m' :
  node_ok vn U n → members (nd_swim n) !! id = Some m → sm_addr m' = sm_addr m →
  node_ok vn U (with_swim n (with_members (nd_swim n) (<[id := m']> (members (nd_swim n))))).
Proof.
  intros Hn Hm Ha. apply (node_ok_frame n); try done; cbn.
  - unfold member_ids. cbn. by rewrite dom_insert_lookup_L.
  - apply map_Forall_insert_2; [|apply Hn]. rewrite Ha. by apply (no_keyed _ _ _ Hn id).
  - apply Hn.
Qed.

Lemma mark_alive_ok n id : node_ok vn U n → node_ok vn U (mark_alive n id).
Proof.
  intros Hn. unfold mark_alive. destruct (_ !! id) as [m|] eqn:Hm; [|done].
  by eapply member_update_ok.
Qed.

Lemma enqueue_ok n s u :
  node_ok vn U (with_swim n s) → node_ok vn U (with_swim n (enqueue_gossip s u)).
Proof.
  intros Hn. apply (node_ok_frame (with_swim n s)); try done; [apply Hn|].
  apply enqueue_queue, Hn.
Qed.

Lemma suspect_member_ok now n id :
  node_ok vn U n → node_ok vn U (with_swim n (suspect_member now (nd_swim n) id)).
Proof.
  intros Hn. unfold suspect_member. destruct (_ !! id) as [m|] eqn:Hm; [|by destruct n].
  case_bool_decide; [|by destruct n]. apply enqueue_ok. by eapply member_update_ok.
Qed.

Lemma declare_dead_ok n id : node_ok vn U n → node_ok vn U (declare_dead n id).
Proof.
  intros Hn. unfold declare_dead. destruct (_ !! id) as [m|] eqn:Hm; [|done].
  pose proof (no_keyed _ _ _ Hn id m Hm) as Hk. cbn in Hk.
  assert (id ∈ member_ids n) as Hid by (by eapply elem_of_dom_2).
  destruct Hn. destruct (ring_ids_remove vn U HU (nd_ring n) (sm_addr m)) as [Hr Hi]; [done| |].
  { rewrite Hk. apply (ro_ids _ _ _ no_ring0). set_solver. }
  split; cbn [nd_swim nd_ring]; try done.
  - rewrite Hi, no_agree0, Hk. unfold member_ids in *. cbn. rewrite dom_delete_L.
    apply set_diff_keep. intros Heq. apply no_local0. rewrite <- Heq in Hid. done.
  - unfold member_ids in *. cbn. rewrite dom_delete_L.
    by intros [??]%elem_of_difference.
  - by apply map_Forall_delete.
  - by apply enqueue_queue.
Qed.

Lemma declare_dead_list_ok l n : node_ok vn U n → node_ok vn U (foldl declare_dead n l).
Proof.
  revert n. induction l as [|id l IH]; intros n Hn; [done|]. apply IH. by apply declare_dead_ok.
Qed.

Lemma expire_suspects_ok now config n :
  node_ok vn U n → node_ok vn U (expire_suspects now config n).
Proof. apply declare_dead_list_ok. Qed.

Lemma pool_ok n p :
  node_ok vn U n → node_ok vn U (mkNode (nd_swim n) (nd_ring n) p (nd_changes n)).
Proof. intros Hn. apply (node_ok_frame n); try done; apply Hn. Qed.

(** The gossip a period receives is well-formed. *)
Definition env_ok (env : PeriodEnv) : Prop :=
  ∀ target g, env_ping env target = Some g → gossip_ok U (proto_to_gossip g).

Lemma direct_ping_ok env n target :
  env_ok env → node_ok vn U n → node_ok vn U (direct_ping env n target).1.
Proof.
  intros He Hn. unfold direct_ping.
  destruct (ConnectionPool_get_membership _ _ _) as [p []]; [|by apply pool_ok].
  destruct (env_ping env target) as [g|] eqn:Hg; [|by apply pool_ok].
  destruct (proto_to_gossip g) as [|u us] eqn:Hu; [by apply pool_ok|].
  cbn [fst]. apply apply_gossip_ok; [done|by apply pool_ok|].
  rewrite <- Hu. by eapply He.
Qed.

Lemma indirect_pings_frame env n peers target :
  ∃ p, (indirect_pings env n peers target).1 = mkNode (nd_swim n) (nd_ring n) p (nd_changes n).
Proof.
  revert n. induction peers as [|q peers IH]; intros n; cbn; [by exists (nd_pool n); destruct n|].
  unfold indirect_ping. destruct (ConnectionPool_get_membership _ _ _) as [p ok].
  destruct (ok && _); cbn; [by exists p|].
  destruct (IH (mkNode (nd_swim n) (nd_ring n) p (nd_changes n))) as [p' ->]. by exists p'.
Qed.

Lemma indirect_pings_ok env n peers target :
  node_ok vn U n → node_ok vn U (indirect_pings env n peers target).1.
Proof.
  intros Hn. destruct (indirect_pings_frame env n peers target) as [p ->]. by apply pool_ok.
Qed.

Lemma swim_period_ok config env n :
  env_ok env → node_ok vn U n → node_ok vn U (swim_period config env n).
Proof.
  intros He Hn. unfold swim_period. destruct (pick_target _ _) as [target|]; [|done].
  pose proof (drain_gossip_ok n (gossip_fanout config) Hn) as Hd.
  destruct (drain_gossip _ _) as [s out]. cbn [fst] in Hd.
  pose proof (direct_ping_ok env _ target He Hd) as Hp.
  destruct (direct_ping _ _ _) as [n1 []]; cbn [fst] in Hp; apply expire_suspects_ok.
  - by apply mark_alive_ok.
  - set (peers := take _ _). pose proof (indirect_pings_ok env n1 peers target Hp) as Hi.
    destruct (indirect_pings _ _ _ _) as [n2 []]; cbn [fst] in Hi.
    + by apply mark_alive_ok.
    + by apply suspect_member_ok.
Qed.
End node_ops.

(** * Incarnations and refutation *)

Lemma apply_update_incarnation now acc u id m m' :
  members (nd_swim (acc_node acc)) !! id = Some m →
  members (nd_swim (acc_node (apply_update now acc u))) !! id = Some m' →
  sm_incarnation m ≤ sm_incarnation m' ∧ sm_addr m' = sm_addr m.
Proof.
  intros Hm. unfold apply_update.
  assert (members (nd_swim (acc_node acc)) !! id = Some m' → m' = m) as Hsame by naive_solver.
  destruct u as [a i|a i by_|a i|a]; repeat case_bool_decide; cbn [andb];
    try (by intros ?%Hsame; subst m'; split; [lia|]);
    destruct (members _ !! silo_id a) as [ma|] eqn:Ha; repeat case_bool_decide; cbn;
    try (by intros ?%Hsame; subst m'; split; [lia|]).
  all: destruct (decide (silo_id a = id)) as [<-|Hne];
    rewrite ?lookup_insert_eq, ?lookup_delete_eq, ?lookup_insert_ne, ?lookup_delete_ne by done;
    try (by intros ?%Hsame; subst m'; split; [lia|]); intros ?; simplify_eq; cbn; (split; [lia|done]).
Qed.

(** The gossip with which a node answers a suspicion about itself. *)
Lemma apply_self_suspect now n a i by_ :
  silo_id a = local_id (nd_swim n) → local_incarnation (nd_swim n) ≤ i → is_u64 (i + 1) →
  let n' := apply_gossip now n [GSuspect a i by_] in
  local_incarnation (nd_swim n') = i + 1 ∧
  last (pending_gossip (nd_swim n')) = Some (GAlive (local_addr (nd_swim n)) (i + 1)) ∧
  nd_ring n' = nd_ring n ∧ members (nd_swim n') = members (nd_swim n).
Proof.
  intros Ha Hi Hu. unfold apply_gossip. cbn. rewrite !bool_decide_true by done. cbn.
  rewrite u64_add_small by done. split_and!; try done. by rewrite last_snoc.
Qed.

Lemma apply_alive now n a i m :
  silo_id a ≠ local_id (nd_swim n) → members (nd_swim n) !! silo_id a = Some m →
  sm_incarnation m < i →
  members (nd_swim (apply_gossip now n [GAlive a i])) !! silo_id a =
    Some (mkMember (sm_addr m) MAlive i).
Proof.
  intros Hl Hm Hi. unfold apply_gossip. cbn. rewrite bool_decide_false by done. rewrite Hm.
  rewrite bool_decide_true by done. cbn. by rewrite lookup_insert_eq.
Qed.

(** Incarnations: one gossip update never lowers the incarnation a node records for a
    member it keeps.  Refutation: when a peer [p] suspects a live silo [q] at the
    incarnation it records, [q] answers the suspicion with a strictly larger
    incarnation (below the 64-bit limit), and the answer clears the suspicion at
    [p]. *)
Theorem suspicion_is_refuted now p q m :
  sm_status m = MAlive → sm_addr m = local_addr (nd_swim q) →
  members (nd_swim p) !! local_id (nd_swim q) = Some m →
  local_id (nd_swim q) ≠ local_id (nd_swim p) →
  local_incarnation (nd_swim q) ≤ sm_incarnation m → is_u64 (sm_incarnation m + 1) →
  let p1 := with_swim p (suspect_member now (nd_swim p) (local_id (nd_swim q))) in
  let id := local_id (nd_swim q) in
  (∃ u, last (pending_gossip (nd_swim p1)) = Some u ∧
        members (nd_swim p1) !! id =
          Some (mkMember (sm_addr m) (MSuspect now (local_id (nd_swim p))) (sm_incarnation m)) ∧
        let q1 := apply_gossip now q [u] in
        local_incarnation (nd_swim q) < local_incarnation (nd_swim q1) ∧
        ∃ v, last (pending_gossip (nd_swim q1)) = Some v ∧
             members (nd_swim (apply_gossip now p1 [v])) !! id =
               Some (mkMember (sm_addr m) MAlive (sm_incarnation m + 1))) ∧
  (∀ acc u id m m',
     members (nd_swim (acc_node acc)) !! id = Some m →
     members (nd_swim (acc_node (apply_update now acc u))) !! id = Some m' →
     sm_incarnation m ≤ sm_incarnation m').
Proof.
  intros Hs Ha Hm Hne Hi Hu p1 id. split.
  - exists (GSuspect (sm_addr m) (sm_incarnation m) (local_id (nd_swim p))).
    unfold p1, suspect_member. rewrite Hm, bool_decide_true by done. cbn -[apply_gossip].
    rewrite last_snoc, lookup_insert_eq. do 2 (split; [done|]).
    destruct (apply_self_suspect now q (sm_addr m) (sm_incarnation m) (local_id (nd_swim p)))
      as (Hli & Hlast & _); [by rewrite Ha|done|done|].
    split; [rewrite Hli; lia|]. eexists. split; [exact Hlast|].
    erewrite (apply_alive now _ (local_addr (nd_swim q)));
      [|done|apply lookup_insert_eq|cbn; lia]. done.
  - intros. by eapply apply_update_incarnation.
Qed.

Definition node_of (local : SiloAddress) (ms : gmap string SwimMember) (inc : Z) : Node :=
  mkNode (mkSwim ms inc local []) (HashRing_add (HashRing_new 4) local) ConnectionPool_new [].
Definition node_a : Node := node_of silo_a {["silo-b" := mkMember silo_b MAlive 3]} 0.
Definition node_b : Node := node_of silo_b ∅ 2.

Lemma suspicion_is_refuted_witness :
  ∃ u, last (pending_gossip (suspect_member 5 (nd_swim node_a) "silo-b")) = Some u ∧
       local_incarnation (nd_swim node_b) <
         local_incarnation (nd_swim (apply_gossip 5 node_b [u])).
Proof.
  assert (local_incarnation (nd_swim node_b) ≤ 3) as H5 by (cbn; lia).
  assert (is_u64 (3 + 1)) as H6 by (split; [lia|reflexivity]).
  assert (local_id (nd_swim node_b) ≠ local_id (nd_swim node_a)) as H4 by (vm_compute; discriminate).
  destruct (suspicion_is_refuted 5 node_a node_b (mkMember silo_b MAlive 3) eq_refl eq_refl eq_refl
              H4 H5 H6) as [(u & H1 & _ & H2 & _) _].
  exists u. split; [exact H1|exact H2].
Defined.

(** The 64-bit edge: a suspicion about the local silo carrying the largest incarnation
    resets the local incarnation to zero, and the resulting announcement is ignored
    by every peer that already records a non-negative incarnation. *)
Theorem incarnation_overflow now n a by_ :
  silo_id a = local_id (nd_swim n) → local_incarnation (nd_swim n) ≤ u64_max →
  let n' := apply_gossip now n [GSuspect a u64_max by_] in
  local_incarnation (nd_swim n') = 0 ∧
  last (pending_gossip (nd_swim n')) = Some (GAlive (local_addr (nd_swim n)) 0) ∧
  ∀ p m, members (nd_swim p) !! local_id (nd_swim n) = Some m → 0 ≤ sm_incarnation m →
         members (nd_swim (apply_gossip now p [GAlive (local_addr (nd_swim n)) 0]))
           !! local_id (nd_swim n) = Some m.
Proof.
  intros Ha Hi. unfold apply_gossip. cbn -[u64_max]. rewrite !bool_decide_true by done.
  cbn -[u64_max u64_add]. change (u64_add u64_max 1) with 0. split_and!; [done|by rewrite last_snoc|].
  intros p m Hm Hp. case_bool_decide; [done|]. unfold local_id in *. rewrite Hm.
  by rewrite bool_decide_false by lia.
Qed.

Lemma incarnation_overflow_witness :
  local_incarnation (nd_swim (apply_gossip 5 node_b [GSuspect silo_b u64_max "silo-a"])) = 0.
Proof.
  apply (incarnation_overflow 5 node_b silo_b "silo-a"); [reflexivity|vm_compute; discriminate].
Defined.

Lemma addr_roundtrip a : silo_wf a → from_proto_addr (to_proto_addr a) = a.
Proof.
  intros Hp. destruct a as [h p i]. unfold from_proto_addr, to_proto_addr. cbn. f_equal.
  unfold silo_wf, is_u16 in Hp. cbn in Hp. unfold as_u32, as_u16, u32_mod, u16_mod in *.
  rewrite (Z.mod_small p (2 ^ 32)) by lia. by apply Z.mod_small.
Qed.

Lemma proto_roundtrip us :
  Forall (λ u, silo_wf (update_addr u)) us → proto_to_gossip (gossip_to_proto us) = us.
Proof.
  induction 1 as [|u us Hu _ IH]; [done|].
  unfold proto_to_gossip, gossip_to_proto in *. cbn [fmap list_fmap omap list_omap].
  assert (entry_to_update (update_to_entry u) = Some u) as ->; [|by rewrite IH].
  unfold entry_to_update. by destruct u; cbn in *; rewrite addr_roundtrip.
Qed.

(** Keeping the newest [MAX_PENDING_GOSSIP] entries. *)
Definition newest (q : list GossipUpdate) : list GossipUpdate :=
  drop (length q - MAX_PENDING_GOSSIP) q.

Lemma enqueue_newest s u :
  (length (pending_gossip s) ≤ MAX_PENDING_GOSSIP)%nat →
  pending_gossip (enqueue_gossip s u) = newest (pending_gossip s ++ [u]).
Proof.
  intros Hq. unfold enqueue_gossip, newest. cbn [pending_gossip]. rewrite length_app. cbn [length].
  case_bool_decide as Hb.
  - replace (length (pending_gossip s) + 1 - MAX_PENDING_GOSSIP)%nat with 1%nat by lia.
    destruct (pending_gossip s); [unfold MAX_PENDING_GOSSIP in *; cbn in *; lia|done].
  - by replace (length (pending_gossip s) + 1 - MAX_PENDING_GOSSIP)%nat with 0%nat by lia.
Qed.

Lemma newest_newest q r : newest (newest q ++ r) = newest (q ++ r).
Proof.
  unfold newest. rewrite <- (drop_app_le q r) by lia. rewrite drop_drop.
  f_equal. rewrite length_drop, !length_app. lia.
Qed.

Lemma enqueue_all us s :
  (length (pending_gossip s) ≤ MAX_PENDING_GOSSIP)%nat →
  pending_gossip (foldl enqueue_gossip s us) = newest (pending_gossip s ++ us).
Proof.
  revert s. induction us as [|u us IH]; intros s Hq; cbn [foldl].
  - rewrite app_nil_r. unfold newest.
    by replace (length (pending_gossip s) - MAX_PENDING_GOSSIP)%nat with 0%nat by lia.
  - rewrite IH by (by apply enqueue_queue). rewrite enqueue_newest by done.
    rewrite newest_newest. by rewrite <- app_assoc.
Qed.

(** Dissemination: every gossip update with 16-bit ports survives the conversion to wire
    entries and back, in order, and entries with an unknown type or no silo are
    dropped; the bounded queue always holds the newest updates, oldest first. *)
Theorem gossip_roundtrip us s :
  Forall (λ u, silo_wf (update_addr u)) us →
  (length (pending_gossip s) ≤ MAX_PENDING_GOSSIP)%nat →
  proto_to_gossip (gossip_to_proto us) = us ∧
  (∀ e, entry_silo e = None ∨ ~ (0 ≤ update_type e ≤ 3) → entry_to_update e = None) ∧
  pending_gossip (foldl enqueue_gossip s us) =
    drop (length (pending_gossip s ++ us) - MAX_PENDING_GOSSIP) (pending_gossip s ++ us).
Proof.
  intros Hw Hq. split_and!; [by apply proto_roundtrip| |by apply enqueue_all].
  intros e [He|He]; unfold entry_to_update; [by rewrite He|].
  destruct (entry_silo e); cbn; [|done].
  by rewrite !bool_decide_false by lia.
Qed.

Lemma gossip_roundtrip_witness :
  proto_to_gossip (gossip_to_proto [GJoin silo_a; GSuspect silo_b 4 "silo-a"]) =
    [GJoin silo_a; GSuspect silo_b 4 "silo-a"].
Proof.
  apply (gossip_roundtrip [GJoin silo_a; GSuspect silo_b 4 "silo-a"] (nd_swim node_a)).
  - repeat constructor; vm_compute; discriminate.
  - apply Nat.le_0_l.
Defined.

(** * Failure detection *)

Lemma declare_dead_members n id :
  members (nd_swim (declare_dead n id)) = delete id (members (nd_swim n)).
Proof.
  unfold declare_dead. destruct (_ !! id) eqn:E; [done|]. symmetry. by apply delete_id.
Qed.

Lemma declare_dead_list_lookup l n id :
  members (nd_swim (foldl declare_dead n l)) !! id =
    if decide (id ∈ l) then None else members (nd_swim n) !! id.
Proof.
  revert n. induction l as [|i l IH]; intros n; [done|]. cbn [foldl].
  rewrite IH, declare_dead_members. destruct (decide (id ∈ l)).
  - by rewrite decide_True by (by right).
  - destruct (decide (id = i)) as [->|].
    + by rewrite decide_True, lookup_delete_eq by left.
    + rewrite decide_False by (by intros [?|?]%elem_of_cons). by rewrite lookup_delete_ne.
Qed.

Lemma expire_suspects_lookup now config n id :
  members (nd_swim (expire_suspects now config n)) !! id =
    m ← members (nd_swim n) !! id; if is_expired now config m then None else Some m.
Proof.
  unfold expire_suspects. rewrite declare_dead_list_lookup.
  destruct (members (nd_swim n) !! id) as [m|] eqn:Hm; [|by case_decide].
  cbn. destruct (is_expired now config m) eqn:He; [rewrite decide_True|rewrite decide_False]; try done.
  - apply list_elem_of_fmap. exists (id, m). split; [done|]. apply list_elem_of_filter.
    cbn. rewrite He. by rewrite elem_of_map_to_list.
  - intros ([? m'] & [= <-] & [He' Hin]%list_elem_of_filter)%list_elem_of_fmap.
    apply elem_of_map_to_list in Hin. cbn in *. simplify_eq. by rewrite He in He'.
Qed.

(** A silo nobody reaches during a period. *)
Definition silent (env : PeriodEnv) (target : SiloAddress) : Prop :=
  env_ping env target = None ∧ ∀ peer, env_ping_req env peer target = false.

Lemma silent_direct env n target :
  silent env target →
  ∃ p, direct_ping env n target = (mkNode (nd_swim n) (nd_ring n) p (nd_changes n), false).
Proof.
  intros [Hp _]. unfold direct_ping. rewrite Hp.
  destruct (ConnectionPool_get_membership _ _ _) as [p []]; by exists p.
Qed.

Lemma silent_indirect env n peers target :
  silent env target →
  ∃ p, indirect_pings env n peers target =
       (mkNode (nd_swim n) (nd_ring n) p (nd_changes n), false).
Proof.
  intros [_ Hr]. revert n. induction peers as [|q peers IH]; intros n; cbn.
  - exists (nd_pool n). by destruct n.
  - unfold indirect_ping. rewrite Hr. destruct (ConnectionPool_get_membership _ _ _) as [p ok].
    rewrite andb_false_r. apply (IH (mkNode (nd_swim n) (nd_ring n) p (nd_changes n))).
Qed.

Lemma suspect_member_lookup now s id m :
  members s !! id = Some m → sm_status m = MAlive →
  members (suspect_member now s id) !! id =
    Some (mkMember (sm_addr m) (MSuspect now (local_id s)) (sm_incarnation m)).
Proof.
  intros Hm Hs. unfold suspect_member. rewrite Hm, bool_decide_true by done.
  cbn. by rewrite lookup_insert_eq.
Qed.

Lemma silent_period config env n target m :
  0 ≤ suspect_timeout config → pick_target env (nd_swim n) = Some target →
  silent env target → members (nd_swim n) !! silo_id target = Some m → sm_status m = MAlive →
  members (nd_swim (swim_period config env n)) !! silo_id target =
    Some (mkMember (sm_addr m) (MSuspect (env_now env) (local_id (nd_swim n))) (sm_incarnation m)).
Proof.
  intros Ht Hpick Hsil Hm Hs. unfold swim_period. rewrite Hpick.
  destruct (drain_gossip _ _) as [s out] eqn:Hd.
  assert (members s = members (nd_swim n) ∧ local_addr s = local_addr (nd_swim n)) as [Hms Hl]
    by (unfold drain_gossip in Hd; by simplify_eq).
  destruct (silent_direct env (with_swim n s) target Hsil) as [p1 ->].
  destruct (silent_indirect env (mkNode s (nd_ring n) p1 (nd_changes n))
              (take (ping_req_count config)
                 (env_shuffle env
                    ((sm_addr ∘ snd) <$>
                       filter (λ p : string * SwimMember, silo_id (sm_addr p.2) ≠ silo_id target)
                         (map_to_list (members s))))) target Hsil) as [p2 E2].
  cbn [nd_swim nd_ring nd_changes with_swim] in *. rewrite E2. cbn [nd_swim].
  rewrite expire_suspects_lookup. cbn [nd_swim with_swim].
  rewrite (suspect_member_lookup _ _ _ m) by (by rewrite ?Hms). cbn.
  unfold is_expired. cbn. unfold duration_since. rewrite Z.sub_diag.
  rewrite bool_decide_false by lia. unfold local_id. by rewrite Hl.
Qed.

(** C37: failure detection.  Completeness: a period that probes a silent live member marks it
    suspect at the period's instant; while the record stays so, the first expiry after
    the suspect timeout drops the member from the table and from the ring.
    Accuracy: expiry leaves every other member's record untouched, and only drops
    members that have been suspect for longer than the timeout. *)
Theorem silent_member_is_removed vn U config env n target m :
  universe_ok vn U → 0 ≤ suspect_timeout config →
  pick_target env (nd_swim n) = Some target → silent env target →
  members (nd_swim n) !! silo_id target = Some m → sm_status m = MAlive →
  let id := silo_id target in
  let suspect := mkMember (sm_addr m) (MSuspect (env_now env) (local_id (nd_swim n)))
                   (sm_incarnation m) in
  members (nd_swim (swim_period config env n)) !! id = Some suspect ∧
  (∀ n' now, node_ok vn U n' → members (nd_swim n') !! id = Some suspect →
     env_now env + suspect_timeout config < now →
     let n'' := expire_suspects now config n' in
     (id ∉ member_ids n'') ∧ (id ≠ local_id (nd_swim n'') → id ∉ ring_ids (nd_ring n''))) ∧
  (∀ n' now id' m', members (nd_swim n') !! id' = Some m' →
     members (nd_swim (expire_suspects now config n')) !! id' =
       if is_expired now config m' then None else Some m').
Proof.
  intros HU Ht Hpick Hsil Hm Hs id suspect. split_and!.
  - by apply silent_period.
  - intros n' now Hn Hsus Hnow n''.
    assert (id ∉ member_ids n'') as Hout.
    { unfold member_ids, n''. apply not_elem_of_dom. rewrite expire_suspects_lookup, Hsus. cbn.
      unfold is_expired. cbn. rewrite bool_decide_true; [done|]. unfold duration_since. lia. }
    split; [done|]. intros Hloc. pose proof (expire_suspects_ok vn U HU now config n' Hn) as Hok.
    fold n'' in Hok. rewrite (no_agree _ _ _ Hok), not_elem_of_union, not_elem_of_singleton. done.
  - intros n' now id' m' Hm'. by rewrite expire_suspects_lookup, Hm'.
Qed.

Definition silent_env (now : Z) : PeriodEnv :=
  mkEnv now (λ _, 0%nat) (λ l, l) (λ _, true) (λ _, None) (λ _ _, false).

Lemma silent_member_is_removed_witness :
  members (nd_swim (swim_period FailureDetectorConfig_default (silent_env 9) node_a)) !! "silo-b" =
    Some (mkMember silo_b (MSuspect 9 "silo-a") 3).
Proof.
  apply (silent_member_is_removed 4 {["silo-a"; "silo-b"]} FailureDetectorConfig_default
           (silent_env 9) node_a silo_b (mkMember silo_b MAlive 3)).
  - apply (bool_decide_unpack _). vm_compute. exact I.
  - vm_compute. discriminate.
  - reflexivity.
  - split; reflexivity.
  - reflexivity.
  - reflexivity.
Defined.

(** A batch that announces a join and then the death of the same unknown silo leaves the
    silo on the ring although it is no longer a member, because the ring removals of a
    batch are applied before its additions. *)
Theorem join_dead_batch_splits_ring now n a i :
  0 < virtual_nodes (nd_ring n) → 0 ≤ i → silo_id a ≠ local_id (nd_swim n) →
  silo_id a ∉ member_ids n →
  let n' := apply_gossip now n [GJoin a; GDead a i] in
  (silo_id a ∉ member_ids n') ∧ silo_id a ∈ ring_ids (nd_ring n').
Proof.
  intros Hvn Hi Hl Hm. unfold member_ids in Hm. apply not_elem_of_dom in Hm.
  rewrite apply_gossip_ring. cbv zeta. cbn [foldl].
  assert (apply_update now (mkAcc n [] []) (GJoin a) =
            mkAcc (mkNode (with_members (nd_swim n)
                             (<[silo_id a := mkMember a MAlive 0]> (members (nd_swim n))))
                     (nd_ring n) (nd_pool n) (nd_changes n ++ [SiloJoined a])) [a] []) as ->.
  { unfold apply_update. cbn [acc_node]. by rewrite bool_decide_false, Hm. }
  unfold apply_update. cbn [acc_node nd_swim with_members members].
  rewrite lookup_insert_eq, bool_decide_false, bool_decide_true by done.
  cbn [acc_node nd_swim nd_ring nd_pool nd_changes ring_adds ring_removes app foldl]. split.
  - unfold member_ids. cbn. rewrite dom_delete_L. set_solver.
  - apply elem_of_ring_ids. exists (vnode_key (silo_id a) 0), a. split; [|done].
    rewrite lookup_add, decide_True; [done|]. apply list_elem_of_fmap. exists 0.
    split; [done|]. apply elem_of_seqZ. cbn. lia.
Qed.

Lemma join_dead_batch_splits_ring_witness :
  "silo-b" ∉ member_ids (apply_gossip 0 (node_of silo_a ∅ 0) [GJoin silo_b; GDead silo_b 0]).
Proof.
  apply (join_dead_batch_splits_ring 0 (node_of silo_a ∅ 0) silo_b 0).
  - reflexivity.
  - reflexivity.
  - vm_compute. discriminate.
  - apply not_elem_of_empty.
Defined.
