(* ===== verification/Membership.v ===== *)
(** The membership gRPC service of [orlando-cluster/src/membership.rs]: its rate limiter, its
    handlers over the silo's membership state, and the invariant of that state over
    every interleaving of handlers and protocol periods. *)
From S2P Require Import Prelude CoreTypes HashRing Mailbox Directory Auth Swim.

(** * The rate limiter *)
Record RateLimiter := mkLimiter { window_start : Z; window_count : Z; max_per_second : Z }.

Definition RateLimiter_new (now max_per_second : Z) : RateLimiter := mkLimiter now 0 max_per_second.

Definition rate_error : Status := ResourceExhausted "membership rate limit exceeded".

(** [RateLimiter::check]; [as_secs] rounds down. *)
Definition RateLimiter_check (now : Z) (l : RateLimiter) : RateLimiter * result Status unit :=
  if bool_decide (1 ≤ duration_since now (window_start l) / second) then
    (mkLimiter now 1 (max_per_second l), Ok ())
  else if bool_decide (window_count l < max_per_second l) then
    (mkLimiter (window_start l) (window_count l + 1) (max_per_second l), Ok ())
  else (l, Err rate_error).

(** * The service *)
Record MembershipService := mkService {
  ms_node : Node;
  ms_gossip_fanout : nat;
  ms_auth : option SharedSecretAuth;
  ms_join_limiter : RateLimiter }.

Definition MembershipService_new (now : Z) (n : Node) (fanout : nat)
    (auth : option SharedSecretAuth) : MembershipService :=
  mkService n fanout auth (RateLimiter_new now 10).

Definition with_node (s : MembershipService) (n : Node) : MembershipService :=
  mkService n (ms_gossip_fanout s) (ms_auth s) (ms_join_limiter s).
Definition with_limiter (s : MembershipService) (l : RateLimiter) : MembershipService :=
  mkService (ms_node s) (ms_gossip_fanout s) (ms_auth s) l.

(** A silo with this id is on the ring. *)
Definition known_on_ring (r : HashRing) (id : string) : bool :=
  existsb (λ m, bool_decide (silo_id m = id)) (HashRing_members r).

Section handlers.
Context (now : Z).

(** [join]: the response is the list of ring members. *)
Definition join (s : MembershipService) (md : Metadata) (joiner : option ProtoSiloAddress)
    : MembershipService * result Status (list ProtoSiloAddress) :=
  match check_auth (ms_auth s) md with
  | Err e => (s, Err e)
  | Ok _ =>
      match RateLimiter_check now (ms_join_limiter s) with
      | (l, Err e) => (with_limiter s l, Err e)
      | (l, Ok _) =>
          let s := with_limiter s l in
          match joiner with
          | None => (s, Err (InvalidArgument "missing joiner"))
          | Some p =>
              let silo := from_proto_addr p in
              let n := ms_node s in
              let st := nd_swim n in
              let ring' := HashRing_add (nd_ring n) silo in
              let st' :=
                match members st !! silo_id silo with
                | Some _ => st
                | None =>
                    enqueue_gossip
                      (with_members st (<[silo_id silo := mkMember silo MAlive 0]> (members st)))
                      (GJoin silo)
                end in
              (with_node s (mkNode st' ring' (nd_pool n) (nd_changes n ++ [SiloJoined silo])),
               Ok (to_proto_addr <$> HashRing_members ring'))
          end
      end
  end.

(** [notify_join] *)
Definition notify_join (s : MembershipService) (md : Metadata) (silo : option ProtoSiloAddress)
    : MembershipService * result Status unit :=
  match check_auth (ms_auth s) md with
  | Err e => (s, Err e)
  | Ok _ =>
      match RateLimiter_check now (ms_join_limiter s) with
      | (l, Err e) => (with_limiter s l, Err e)
      | (l, Ok _) =>
          let s := with_limiter s l in
          match silo with
          | None => (s, Err (InvalidArgument "missing silo"))
          | Some p =>
              let silo := from_proto_addr p in
              let n := ms_node s in
              if known_on_ring (nd_ring n) (silo_id silo) then (s, Ok ())
              else
                let st := nd_swim n in
                (with_node s
                   (mkNode
                      (with_members st (<[silo_id silo := mkMember silo MAlive 0]> (members st)))
                      (HashRing_add (nd_ring n) silo) (nd_pool n)
                      (nd_changes n ++ [SiloJoined silo])), Ok ())
          end
      end
  end.

(** [notify_leave] *)
Definition notify_leave (s : MembershipService) (md : Metadata) (silo : option ProtoSiloAddress)
    : MembershipService * result Status unit :=
  match check_auth (ms_auth s) md with
  | Err e => (s, Err e)
  | Ok _ =>
      match silo with
      | None => (s, Err (InvalidArgument "missing silo"))
      | Some p =>
          let silo := from_proto_addr p in
          let n := ms_node s in
          if negb (known_on_ring (nd_ring n) (silo_id silo)) then (s, Ok ())
          else
            let st := nd_swim n in
            (with_node s
               (mkNode (with_members st (delete (silo_id silo) (members st)))
                  (HashRing_remove (nd_ring n) silo) (nd_pool n)
                  (nd_changes n ++ [SiloLeft silo])), Ok ())
      end
  end.

(** The gossip part shared by [ping] and [ping_req]. *)
Definition receive_gossip (s : MembershipService) (gossip : list GossipEntry) : MembershipService :=
  match proto_to_gossip gossip with
  | [] => s
  | incoming => with_node s (apply_gossip now (ms_node s) incoming)
  end.

Definition reply_gossip (s : MembershipService) : MembershipService * list GossipEntry :=
  let '(st, outgoing) := drain_gossip (nd_swim (ms_node s)) (ms_gossip_fanout s) in
  (with_node s (with_swim (ms_node s) st), gossip_to_proto outgoing).

(** [ping] *)
Definition ping (s : MembershipService) (md : Metadata) (gossip : list GossipEntry)
    : MembershipService * result Status (string * list GossipEntry) :=
  match check_auth (ms_auth s) md with
  | Err e => (s, Err e)
  | Ok _ =>
      let '(s, outgoing) := reply_gossip (receive_gossip s gossip) in
      (s, Ok (local_id (nd_swim (ms_node s)), outgoing))
  end.

(** [try_ping_target]; [remote md gossip] says whether the target's [ping] answers a request
    with this metadata. *)
Definition try_ping_target (connects : string → bool) (remote : Metadata → bool)
    (s : MembershipService) (target : SiloAddress) : MembershipService * bool :=
  let n := ms_node s in
  match ConnectionPool_get_membership connects (nd_pool n) (endpoint target) with
  | (p, false) => (with_node s (mkNode (nd_swim n) (nd_ring n) p (nd_changes n)), false)
  | (p, true) => (with_node s (mkNode (nd_swim n) (nd_ring n) p (nd_changes n)), remote None)
  end.

(** [ping_req] *)
Definition ping_req (connects : string → bool) (remote : SiloAddress → Metadata → bool)
    (s : MembershipService) (md : Metadata) (target : option ProtoSiloAddress)
    (gossip : list GossipEntry) : MembershipService * result Status (bool * list GossipEntry) :=
  match check_auth (ms_auth s) md with
  | Err e => (s, Err e)
  | Ok _ =>
      let s := receive_gossip s gossip in
      match target with
      | None => (s, Err (InvalidArgument "missing target"))
      | Some p =>
          let target := from_proto_addr p in
          let '(s, target_alive) := try_ping_target connects (remote target) s target in
          let '(s, outgoing) := reply_gossip s in
          (s, Ok (target_alive, outgoing))
      end
  end.

(** [get_members] *)
Definition get_members (s : MembershipService) (md : Metadata)
    : result Status (list ProtoSiloAddress) :=
  match check_auth (ms_auth s) md with
  | Err e => Err e
  | Ok _ => Ok (to_proto_addr <$> HashRing_members (nd_ring (ms_node s)))
  end.

(** [lookup_grain]: [(active, silo_id, endpoint)]; [grain_type_str] is the registry's. *)
Definition lookup_grain (grain_type_str : string → option string) (w : Runtime)
    (s : MembershipService) (md : Metadata) (grain_type grain_key : string)
    : result Status (bool * string * string) :=
  match check_auth (ms_auth s) md with
  | Err e => Err e
  | Ok _ =>
      let active :=
        match grain_type_str grain_type with
        | Some type_name =>
            match GrainDirectory_get_sender w (mkGrainId type_name grain_key) with
            | Some sd => negb (is_closed w sd)
            | None => false
            end
        | None => false
        end in
      let local := local_addr (nd_swim (ms_node s)) in
      Ok (active, if active then silo_id local else "", if active then endpoint local else "")
  end.
End handlers.

(** * Steps of a silo's membership *)
Section steps.
Context (vn : Z) (U : gset string) (HU : universe_ok vn U).

(** A silo address from the wire that is in play and is not the local silo. *)
Definition peer_ok (n : Node) (p : ProtoSiloAddress) : Prop :=
  p_silo_id p ∈ U ∧ p_silo_id p ≠ local_id (nd_swim n).

(** What can happen to a silo: a handler runs, or a protocol period. *)
Inductive membership_step : MembershipService → MembershipService → Prop :=
| ms_join now s md j :
    (∀ p, j = Some p → peer_ok (ms_node s) p) → membership_step s (join now s md j).1
| ms_notify_join now s md j :
    (∀ p, j = Some p → peer_ok (ms_node s) p) → membership_step s (notify_join now s md j).1
| ms_notify_leave s md j :
    (∀ p, j = Some p → peer_ok (ms_node s) p) → membership_step s (notify_leave s md j).1
| ms_ping now s md g :
    gossip_ok U (proto_to_gossip g) → membership_step s (ping now s md g).1
| ms_ping_req now connects remote s md t g :
    gossip_ok U (proto_to_gossip g) →
    membership_step s (ping_req now connects remote s md t g).1
| ms_period config env s :
    env_ok U env → membership_step s (with_node s (swim_period config env (ms_node s))).

Lemma known_on_ring_spec r id : known_on_ring r id = bool_decide (id ∈ ring_ids r).
Proof.
  unfold known_on_ring, ring_ids. apply eq_bool_prop_intro.
  rewrite bool_decide_spec, Is_true_true, existsb_exists, elem_of_list_to_set, list_elem_of_fmap.
  setoid_rewrite bool_decide_eq_true. setoid_rewrite <- list_elem_of_In. naive_solver.
Qed.

Abbreviation ok s := (node_ok vn U (ms_node s)).

(** Adding a silo that is not yet a member, to both the table and the ring. *)
Lemma add_member_ok n a :
  node_ok vn U n → silo_id a ∈ U → silo_id a ≠ local_id (nd_swim n) →
  members (nd_swim n) !! silo_id a = None →
  node_ok vn U
    (mkNode (with_members (nd_swim n)
               (<[silo_id a := mkMember a MAlive 0]> (members (nd_swim n))))
       (HashRing_add (nd_ring n) a) (nd_pool n) (nd_changes n ++ [SiloJoined a])).
Proof.
  intros [Hring Hagree Hloc Hkey Hq] Ha Hl Hm. destruct (ring_ids_add vn U HU (nd_ring n) a) as [Hr Hi]; [done..|].
  split; cbn [nd_swim nd_ring]; try done.
  - rewrite Hi, Hagree. unfold member_ids in *. cbn. rewrite dom_insert_L.
    change (local_id (with_members _ _)) with (local_id (nd_swim n)). set_solver.
  - unfold member_ids in *. cbn. rewrite dom_insert_L.
    change (local_id (with_members _ _)) with (local_id (nd_swim n)). set_solver.
  - by apply map_Forall_insert_2.
Qed.

(** Re-adding a known silo's vnodes keeps the invariant. *)
Lemma readd_ok n a c :
  node_ok vn U n → silo_id a ∈ member_ids n →
  node_ok vn U (mkNode (nd_swim n) (HashRing_add (nd_ring n) a) (nd_pool n) c).
Proof.
  intros [Hring Hagree Hloc Hkey Hq] Ha. destruct (ring_ids_add vn U HU (nd_ring n) a) as [Hr Hi]; [done| |].
  { apply (ro_ids _ _ _ Hring). set_solver. }
  split; cbn [nd_swim nd_ring]; try done. rewrite Hi, Hagree.
  change (member_ids (mkNode _ _ _ _)) with (member_ids n). set_solver.
Qed.

Lemma remove_member_ok n a :
  node_ok vn U n → silo_id a ∈ U → silo_id a ≠ local_id (nd_swim n) →
  node_ok vn U
    (mkNode (with_members (nd_swim n) (delete (silo_id a) (members (nd_swim n))))
       (HashRing_remove (nd_ring n) a) (nd_pool n) (nd_changes n ++ [SiloLeft a])).
Proof.
  intros [Hring Hagree Hloc Hkey Hq] Ha Hl. destruct (ring_ids_remove vn U HU (nd_ring n) a) as [Hr Hi]; [done..|].
  split; cbn [nd_swim nd_ring]; try done.
  - rewrite Hi, Hagree. unfold member_ids in *. cbn. rewrite dom_delete_L.
    apply set_diff_keep. done.
  - unfold member_ids in *. cbn. rewrite dom_delete_L. by intros [??]%elem_of_difference.
  - by apply map_Forall_delete.
Qed.

Lemma join_ok now s md j :
  (∀ p, j = Some p → peer_ok (ms_node s) p) → ok s → ok (join now s md j).1.
Proof.
  intros Hj Hs. unfold join. destruct (check_auth _ _); [|done].
  destruct (RateLimiter_check _ _) as [l []]; [|done]. destruct j as [p|]; [|done].
  destruct (Hj p eq_refl) as [Hu Hl]. cbn.
  destruct (members _ !! _) as [m|] eqn:Hm.
  - apply readd_ok; [done|]. by eapply elem_of_dom_2.
  - pose proof (add_member_ok (ms_node s) (from_proto_addr p) Hs Hu Hl Hm) as Hok.
    eapply node_ok_frame; [exact Hok|done..| |]; [apply Hok|]. apply enqueue_queue, Hok.
Qed.

Lemma notify_join_ok now s md j :
  (∀ p, j = Some p → peer_ok (ms_node s) p) → ok s → ok (notify_join now s md j).1.
Proof.
  intros Hj Hs. unfold notify_join. destruct (check_auth _ _); [|done].
  destruct (RateLimiter_check _ _) as [l []]; [|done]. destruct j as [p|]; [|done].
  destruct (Hj p eq_refl) as [Hu Hl]. cbn. rewrite known_on_ring_spec. case_bool_decide as Hk; [done|].
  apply add_member_ok; try done. apply not_elem_of_dom. intros Hin. apply Hk.
  rewrite (no_agree _ _ _ Hs). unfold member_ids. set_solver.
Qed.

Lemma notify_leave_ok s md j :
  (∀ p, j = Some p → peer_ok (ms_node s) p) → ok s → ok (notify_leave s md j).1.
Proof.
  intros Hj Hs. unfold notify_leave. destruct (check_auth _ _); [|done].
  destruct j as [p|]; [|done]. destruct (Hj p eq_refl) as [Hu Hl]. cbn.
  destruct (known_on_ring _ _); cbn; [|done]. by apply (remove_member_ok _ (from_proto_addr p)).
Qed.

Lemma receive_gossip_ok now s g :
  gossip_ok U (proto_to_gossip g) → ok s → ok (receive_gossip now s g).
Proof.
  intros Hg Hs. unfold receive_gossip. destruct (proto_to_gossip g) eqn:E; [done|].
  cbn. by apply apply_gossip_ok.
Qed.

Lemma reply_gossip_ok s : ok s → ok (reply_gossip s).1.
Proof.
  intros Hs. pose proof (drain_gossip_ok vn U _ (ms_gossip_fanout s) Hs) as H.
  unfold reply_gossip. by destruct (drain_gossip _ _).
Qed.

Lemma membership_step_ok s s' : membership_step s s' → ok s → ok s'.
Proof.
  intros [] Hs.
  - by apply join_ok.
  - by apply notify_join_ok.
  - by apply notify_leave_ok.
  - unfold ping. destruct (check_auth _ _); [|done].
    pose proof (reply_gossip_ok _ (receive_gossip_ok now s0 g H Hs)) as Hr.
    by destruct (reply_gossip _).
  - unfold ping_req. destruct (check_auth _ _); [|done].
    pose proof (receive_gossip_ok now s0 g H Hs) as Hg. destruct t as [p|]; [|done].
    unfold try_ping_target.
    destruct (ConnectionPool_get_membership _ _ _) as [p' []];
      (match goal with |- context [reply_gossip ?x] =>
         assert (ok x) as Hx by (by apply pool_ok); pose proof (reply_gossip_ok x Hx) as Hr;
         by destruct (reply_gossip x) end).
  - by apply swim_period_ok.
Qed.
End steps.

(** A silo that has just started: only itself on the ring, no members. *)
Definition Node_new (vn : Z) (local : SiloAddress) : Node :=
  mkNode (SwimState_new local) (HashRing_add (HashRing_new vn) local) ConnectionPool_new [].

Lemma Node_new_ok vn U local :
  universe_ok vn U → silo_id local ∈ U → node_ok vn U (Node_new vn local).
Proof.
  intros HU Hl.
  assert (ring_ids (HashRing_new vn) = ∅) as He.
  { apply set_eq. intros id. rewrite elem_of_ring_ids. cbn. setoid_rewrite lookup_empty. set_solver. }
  destruct (ring_ids_add vn U HU (HashRing_new vn) local) as [Hr Hi]; [|done|].
  { split; [apply ring_wf_new|done|]. rewrite He. set_solver. }
  assert (member_ids (Node_new vn local) = ∅) as Hm by apply dom_empty_L.
  split; rewrite ?Hm.
  - exact Hr.
  - etrans; [exact Hi|]. by rewrite He.
  - apply not_elem_of_empty.
  - apply map_Forall_empty.
  - apply Nat.le_0_l.
Qed.

(** C10: over every sequence of membership requests and protocol periods, each as one step, the silos placed on the
    ring are exactly the local silo and the silos of the member table, every member is filed under its own id, and the
    gossip queue stays within its bound. Requests name silos of a universe without hash collisions other than the
    local one, and no gossip batch announces a death after a join of the same silo ([join_dead_batch_splits_ring] is
    what such a batch does). *)
Theorem ring_agrees_with_members vn U now local fanout auth s :
  universe_ok vn U → silo_id local ∈ U →
  rtc (membership_step U) (MembershipService_new now (Node_new vn local) fanout auth) s →
  let n := ms_node s in
  (∀ id, id ∈ silo_id <$> HashRing_members (nd_ring n) ↔
         id = local_id (nd_swim n) ∨ is_Some (members (nd_swim n) !! id)) ∧
  (∀ id m, members (nd_swim n) !! id = Some m → silo_id (sm_addr m) = id) ∧
  (length (pending_gossip (nd_swim n)) ≤ MAX_PENDING_GOSSIP)%nat.
Proof.
  intros HU Hl Hrtc n. assert (node_ok vn U n) as Hok.
  { refine (rtc_ind_r (λ s, node_ok vn U (ms_node s)) _ _ _ _ Hrtc).
    - by apply Node_new_ok.
    - intros s1 s2 _ Hstep Hs1. by eapply membership_step_ok. }
  split_and!; [|apply Hok..]. intros id.
  rewrite <- elem_of_dom. change (dom (members (nd_swim n))) with (member_ids n).
  rewrite <- (elem_of_list_to_set (C := gset string)). change (list_to_set _) with (ring_ids (nd_ring n)).
  rewrite (no_agree _ _ _ Hok). by rewrite elem_of_union, elem_of_singleton.
Qed.

Lemma ring_agrees_with_members_witness :
  let s0 := MembershipService_new 0 (Node_new 4 silo_a) 6 None in
  let s1 := (join 0 s0 None (Some (to_proto_addr silo_b))).1 in
  "silo-b" ∈ silo_id <$> HashRing_members (nd_ring (ms_node s1)).
Proof.
  intros s0 s1.
  destruct (ring_agrees_with_members 4 {["silo-a"; "silo-b"]} 0 silo_a 6 None s1) as [H _].
  - apply (bool_decide_unpack _). vm_compute. exact I.
  - apply (bool_decide_unpack _). vm_compute. exact I.
  - apply rtc_once. apply ms_join. intros p [= <-]. split.
    + apply (bool_decide_unpack _). vm_compute. exact I.
    + vm_compute. discriminate.
  - apply H. right. vm_compute. eexists. reflexivity.
Defined.

(** * The rate limiter bounds bursts *)

(** The outcomes of calls at the given instants. *)
Fixpoint run_checks (l : RateLimiter) (times : list Z) : list bool :=
  match times with
  | [] => []
  | t :: ts => let '(l', r) := RateLimiter_check t l in is_ok r :: run_checks l' ts
  end.

Definition accepted (bs : list bool) : Z := Z.of_nat (length (filter Is_true bs)).

Lemma accepted_cons b bs : accepted (b :: bs) = (if b then 1 else 0) + accepted bs.
Proof.
  unfold accepted. destruct b; [rewrite filter_cons_True by done|rewrite filter_cons_False by auto];
    cbn [length]; lia.
Qed.

Lemma same_window t l : t - window_start l < second →
  bool_decide (1 ≤ duration_since t (window_start l) / second) = false.
Proof.
  intros Ht. apply bool_decide_false. unfold duration_since.
  assert (Z.max 0 (t - window_start l) / second < 1); [|lia].
  apply Z.div_lt_upper_bound; unfold second in *; lia.
Qed.

(** Inside one window only the remaining quota is granted. *)
Lemma window_quota ts l :
  Forall (λ t, t - window_start l < second) ts → window_count l ≤ max_per_second l →
  accepted (run_checks l ts) ≤ max_per_second l - window_count l.
Proof.
  revert l. induction ts as [|t ts IH]; intros l Hts Hc; [change (accepted (run_checks l [])) with 0; lia|].
  apply Forall_cons in Hts as [Ht Hts]. cbn [run_checks]. unfold RateLimiter_check.
  rewrite same_window by done. case_bool_decide; cbn [is_ok]; rewrite accepted_cons.
  - specialize (IH (mkLimiter (window_start l) (window_count l + 1) (max_per_second l))).
    cbn in IH. specialize (IH Hts ltac:(lia)). lia.
  - specialize (IH l Hts Hc). lia.
Qed.

(** The rate limiter: in any interval shorter than one second at most twice the configured
    number of calls is admitted (the tail of one window and the head of the next),
    and within one window at most the quota left. *)
Theorem rate_limit_burst l t0 ts :
  1 ≤ max_per_second l → 0 ≤ window_count l ≤ max_per_second l →
  Forall (λ t, t0 ≤ t < t0 + second) ts →
  accepted (run_checks l ts) ≤ 2 * max_per_second l ∧
  (Forall (λ t, t - window_start l < second) ts →
   accepted (run_checks l ts) ≤ max_per_second l - window_count l).
Proof.
  intros Hm Hc Hts. split; [|intros; apply window_quota; [done|lia]].
  enough (accepted (run_checks l ts) ≤ (max_per_second l - window_count l) + max_per_second l) by lia.
  revert l Hm Hc. induction ts as [|t ts IH]; intros l Hm Hc; [change (accepted (run_checks l [])) with 0; lia|].
  apply Forall_cons in Hts as [Ht Hts]. cbn [run_checks]. unfold RateLimiter_check.
  case_bool_decide; [|case_bool_decide]; cbn [is_ok]; rewrite accepted_cons.
  - pose proof (window_quota ts (mkLimiter t 1 (max_per_second l))) as Hq. cbn in Hq.
    assert (accepted (run_checks (mkLimiter t 1 (max_per_second l)) ts) ≤ max_per_second l - 1); [|lia].
    apply Hq; [|lia]. eapply Forall_impl; [exact Hts|]. cbn. intros; lia.
  - specialize (IH Hts (mkLimiter (window_start l) (window_count l + 1) (max_per_second l))).
    cbn in IH. specialize (IH Hm ltac:(lia)). lia.
  - specialize (IH Hts l Hm Hc). lia.
Qed.

Lemma rate_limit_burst_witness :
  accepted (run_checks (RateLimiter_new 0 2) [1; 2; 3; 4]) ≤ 2 * 2.
Proof.
  apply (rate_limit_burst (RateLimiter_new 0 2) 1 [1; 2; 3; 4]).
  - cbn. lia.
  - cbn. lia.
  - repeat constructor; unfold second; lia.
Defined.

(** * Handlers reject what they must *)

(** With authentication configured, a request without the expected token changes nothing
    and is answered with an authentication error by every handler; and an indirect
    ping, which [try_ping_target] sends without the token, never reports the target
    alive when the target authenticates, although the same target answers the
    authorized direct ping. *)
Theorem membership_requires_auth s a md now joiner g connects remote target w gts ty k :
  ms_auth s = Some a → md ≠ Some (Ok (expected a)) →
  (∃ e, join now s md joiner = (s, Err e) ∧ notify_join now s md joiner = (s, Err e) ∧
        notify_leave s md joiner = (s, Err e) ∧ ping now s md g = (s, Err e) ∧
        ping_req now connects remote s md target g = (s, Err e) ∧
        get_members s md = Err e ∧ lookup_grain gts w s md ty k = Err e) ∧
  (∀ peer b addr, ms_auth peer = Some b →
     (try_ping_target connects (λ md, is_ok (ping now peer md []).2) s addr).2 = false ∧
     (∀ parses p, auth_token p = Some (expected b) → parses (expected b) = true →
        is_ok (ping now peer (authorized_request parses p) []).2 = true)).
Proof.
  intros Ha Hmd. split.
  - unfold join, notify_join, notify_leave, ping, ping_req, get_members, lookup_grain, check_auth.
    rewrite Ha. destruct (authenticate a md) as [[]|e] eqn:E; [|by exists e].
    by apply authenticate_ok in E.
  - intros peer b addr Hb. split.
    + unfold try_ping_target, ping, check_auth. rewrite Hb.
      destruct (ConnectionPool_get_membership _ _ _) as [p []]; done.
    + intros parses p Hp Hv. unfold ping, check_auth. rewrite Hb.
      assert (authenticate b (authorized_request parses p) = Ok ()) as ->.
      { apply authenticate_ok. unfold authorized_request. by rewrite Hp, Hv. }
      by destruct (reply_gossip _).
Qed.

Lemma membership_requires_auth_witness :
  let s := MembershipService_new 0 (Node_new 4 silo_a) 6 (Some (SharedSecretAuth_new "t")) in
  ∃ e, join 0 s None (Some (to_proto_addr silo_b)) = (s, Err e).
Proof.
  intros s.
  destruct (membership_requires_auth s (SharedSecretAuth_new "t") None 0
              (Some (to_proto_addr silo_b)) [] (λ _, true) (λ _ _, true) None Runtime_new
              (λ _, None) "" "") as [(e & H & _) _].
  - reflexivity.
  - discriminate.
  - exists e. exact H.
Defined.
