(* ===== verification/Rebalancer.v ===== *)
(** Moving grains off a silo after a membership change ([orlando-cluster/src/rebalancer.rs]). *)
From S2P Require Import Prelude CoreTypes HashRing Mailbox Directory.

(** How waiting for a removed activation's task ends: it finished in time, the grace period
    was already over and the task was aborted, or it was still running when the rest of
    the grace period ran out. *)
Inductive WaitOutcome := TaskFinished | TaskAborted | TaskStillRunning.
#[global] Instance WaitOutcome_eq_dec : EqDecision WaitOutcome.
Proof. solve_decision. Defined.

Section rebalancer.
Context (outcome : JoinHandle → WaitOutcome) (local_silo_id : string).

(** The ring places the grain on another silo. *)
Definition rehashed (r : HashRing) (id : GrainId) : bool :=
  match HashRing_get r (slash (type_name id) (key id)) with
  | Some target => bool_decide (silo_id target ≠ local_silo_id)
  | None => false
  end.

(** Waiting for a task within the grace period. *)
Definition wait_task (w : Runtime) (t : JoinHandle) : Runtime :=
  match outcome t with
  | TaskFinished => end_task false w t
  | TaskAborted => end_task true w t
  | TaskStillRunning => w
  end.

(** The loop over [to_remove]. *)
Fixpoint rebalance_loop (w : Runtime) (to_remove : list GrainId) : Runtime :=
  match to_remove with
  | [] => w
  | id :: rest =>
      match GrainDirectory_remove w id with
      | (w, Some activation) =>
          rebalance_loop (wait_task w (act_task activation)) rest
      | (w, None) => rebalance_loop w rest
      end
  end.

(** [Rebalancer::rebalance] *)
Definition rebalance (r : HashRing) (w : Runtime) : Runtime :=
  match GrainDirectory_grain_ids w with
  | [] => w
  | grain_ids => rebalance_loop w (filter (λ id, rehashed r id = true) grain_ids)
  end.

Lemma wait_task_open w t s :
  s ∈ rt_open (wait_task w t) ↔ s ∈ rt_open w ∧ (t = s → outcome s = TaskStillRunning).
Proof.
  unfold wait_task. destruct (decide (t = s)) as [<-|Hne].
  - destruct (outcome t); cbn; rewrite ?elem_of_difference, ?elem_of_singleton; naive_solver.
  - destruct (outcome t); cbn; rewrite ?elem_of_difference, ?elem_of_singleton; naive_solver.
Qed.

(** What the loop does to the directory and the channels, one id at a time. *)
Lemma rebalance_loop_spec w ids :
  let w' := rebalance_loop w ids in
  (directory_inv w → directory_inv w') ∧
  (∀ g, activations (rt_dir w') !! g = if decide (g ∈ ids) then None else activations (rt_dir w) !! g) ∧
  worker_pools (rt_dir w') = worker_pools (rt_dir w) ∧
  (∀ s, s ∈ rt_open w' ↔ s ∈ rt_open w ∧
     ∀ g a, g ∈ ids → activations (rt_dir w) !! g = Some a → act_task a = s → outcome s = TaskStillRunning).
Proof.
  revert w. induction ids as [|id ids IH]; intros w; cbn zeta.
  - cbn [rebalance_loop]. split_and!; [done| |done|].
    + intros g. by rewrite decide_False by apply not_elem_of_nil.
    + intros s. split; [|by intros []]. intros Hs. split; [done|]. by intros g a ?%not_elem_of_nil.
  - cbn [rebalance_loop]. unfold GrainDirectory_remove.
    destruct (activations (rt_dir w) !! id) as [a|] eqn:E.
    + pose proof (remove_activations w id) as Hr. unfold GrainDirectory_remove in Hr. rewrite E in Hr.
      pose proof (directory_inv_remove w id) as Hi. unfold GrainDirectory_remove in Hi. rewrite E in Hi.
      cbn [fst] in Hr, Hi. set (w0 := gauge_add _ _ _) in *.
      set (w1 := wait_task w0 (act_task a)).
      assert (rt_dir w1 = rt_dir w0) as Hd by (unfold w1, wait_task; by destruct (outcome _)).
      destruct (IH w1) as (I1 & I2 & I3 & I4). split_and!.
      * intros Hw. apply I1. unfold w1, wait_task. specialize (Hi Hw).
        destruct (outcome _); auto using directory_inv_end_task.
      * intros g. rewrite I2, Hd, Hr. destruct (decide (g = id)) as [->|].
        -- rewrite (decide_True (P := id ∈ id :: ids)) by (by left). rewrite lookup_delete_eq. by case_decide.
        -- rewrite lookup_delete_ne by done. repeat case_decide; set_solver.
      * by rewrite I3, Hd.
      * intros s. rewrite I4, Hd, Hr. unfold w1. rewrite wait_task_open.
        change (rt_open w0) with (rt_open w).
        setoid_rewrite lookup_delete_Some. split.
        -- intros [[Hs Ha] Hrest]. split; [done|]. intros g a' [->|Hg]%elem_of_cons Hga Ht; [naive_solver|].
           destruct (decide (id = g)) as [<-|]; naive_solver.
        -- intros [Hs Hrest]. split_and!; [done|intros Ht; eapply Hrest; [by left|done|done]|].
           intros g a' Hg [_ Hga] Ht. eapply Hrest; [by right|done|done].
    + destruct (IH w) as (I1 & I2 & I3 & I4). split_and!; [done| |done|].
      * intros g. rewrite I2. destruct (decide (g = id)) as [->|]; repeat case_decide; set_solver.
      * intros s. rewrite I4. split; intros [Hs Hrest]; (split; [done|]); intros g a' Hg Hga Ht.
        -- apply elem_of_cons in Hg as [->|Hg]; [congruence|eauto].
        -- eapply Hrest; [by right|done|done].
Qed.

Lemma rebalance_spec r w :
  directory_inv w →
  let w' := rebalance r w in
  directory_inv w' ∧
  (∀ g, activations (rt_dir w') !! g = if rehashed r g then None else activations (rt_dir w) !! g) ∧
  worker_pools (rt_dir w') = worker_pools (rt_dir w) ∧
  (∀ s, s ∈ rt_open w' ↔ s ∈ rt_open w ∧
     ∀ g a, rehashed r g = true → activations (rt_dir w) !! g = Some a → act_task a = s →
       outcome s = TaskStillRunning).
Proof.
  intros Hw w'.
  assert (w' = rebalance_loop w (filter (λ id, rehashed r id = true) (GrainDirectory_grain_ids w))) as ->
    by (unfold w', rebalance; by destruct (GrainDirectory_grain_ids w)).
  assert (∀ g, g ∈ filter (λ id, rehashed r id = true) (GrainDirectory_grain_ids w) ↔
             rehashed r g = true ∧ (is_Some (activations (rt_dir w) !! g) ∨ is_Some (worker_pools (rt_dir w) !! g))) as Hin.
  { intros g. rewrite list_elem_of_filter. unfold GrainDirectory_grain_ids.
    by rewrite elem_of_elements, elem_of_union, !elem_of_dom. }
  destruct (rebalance_loop_spec w (filter (λ id, rehashed r id = true) (GrainDirectory_grain_ids w)))
    as (H1 & H2 & H3 & H4).
  split_and!; [by apply H1| |done|].
  - intros g. rewrite H2. case_decide as Hd; rewrite Hin in Hd.
    + by destruct Hd as [-> _].
    + destruct (rehashed r g); [|done]. apply eq_None_not_Some. naive_solver.
  - intros s. rewrite H4. setoid_rewrite Hin. naive_solver.
Qed.

(** Rebalancing after a membership change.  Exactly the activations that the ring places on
    another silo leave the directory; the others, and the worker pools, stay, and the directory
    invariant is kept.  A channel stays open exactly when its activation was not moved or its
    mailbox was still running when the grace period ran out: such a mailbox is neither cancelled nor
    aborted. *)
Theorem rebalance_moves_exactly r w :
  directory_inv w →
  let w' := rebalance r w in
  directory_inv w' ∧
  (∀ g, activations (rt_dir w') !! g = if rehashed r g then None else activations (rt_dir w) !! g) ∧
  worker_pools (rt_dir w') = worker_pools (rt_dir w) ∧
  (∀ s, s ∈ rt_open w' ↔ s ∈ rt_open w ∧
     ∀ g a, rehashed r g = true → activations (rt_dir w) !! g = Some a → act_task a = s →
       outcome s = TaskStillRunning).
Proof. apply rebalance_spec. Qed.
End rebalancer.

Lemma rebalance_moves_exactly_witness :
  let g := mkGrainId "Cart" "42" in
  let w := (GrainDirectory_get_or_insert Runtime_new g).1 in
  let r := HashRing_add (HashRing_new 1) (mkSilo "b" 7000 "B") in
  let w' := rebalance (λ _, TaskStillRunning) "A" r w in
  activations (rt_dir w') !! g = None ∧ (0%nat ∈ rt_open w').
Proof.
  intros g w r w'.
  destruct (rebalance_moves_exactly (λ _, TaskStillRunning) "A" r w) as (_ & H1 & _ & H2).
  - apply directory_inv_get_or_insert, directory_inv_new.
  - split.
    + unfold w'. rewrite H1. vm_compute. reflexivity.
    + apply H2. split; [|reflexivity]. apply (bool_decide_unpack (0%nat ∈ rt_open w)). vm_compute. exact I.
Defined.
