(* ===== verification/Store.v ===== *)
(** Grain state stores of [orlando-persistence]: the [StateStore] interface ([store.rs]), the
    in-memory store ([memory_store.rs]) and the file store ([file_store.rs]). *)
From Stdlib Require Import Ascii.
From S2P Require Import Prelude CoreTypes.

(** [ETag] *)
Record ETag := mkETag { etag_str : string }.
#[global] Instance ETag_eq_dec : EqDecision ETag.
Proof. solve_decision. Defined.

Inductive PersistenceError :=
| Serialization (m : string)
| Deserialization (m : string)
| Io (m : string)
| Sqlite (m : string)
| Postgres (m : string)
| Migration (m : string)
| EtagMismatch (expected actual : option ETag).
#[global] Instance PersistenceError_eq_dec : EqDecision PersistenceError.
Proof. solve_decision. Defined.

(** A [Duration] in nanoseconds. *)
Inductive PersistenceStrategy := WriteOnDeactivate | WriteThrough | WriteBack (interval : Z).
#[global] Instance PersistenceStrategy_eq_dec : EqDecision PersistenceStrategy.
Proof. solve_decision. Defined.
Definition PersistenceStrategy_default : PersistenceStrategy := WriteThrough.

(** * The interface: raw bytes keyed by grain id, with and without etags.  Every call may
    change the store's internals; [ss_view] is the content a client can observe. *)
Class StateStore (S : Type) := {
  ss_load : S → GrainId → S * result PersistenceError (option bytes);
  ss_save : S → GrainId → bytes → S * result PersistenceError unit;
  ss_delete : S → GrainId → S * result PersistenceError unit;
  ss_load_with_etag : S → GrainId → S * result PersistenceError (option (bytes * ETag));
  ss_save_with_etag : S → GrainId → bytes → option ETag → S * result PersistenceError ETag;
  ss_view : S → GrainId → option bytes }.

(** What the mailboxes rely on: a call that fails leaves the content alone. *)
Class StateStoreLaws (S : Type) `{StateStore S} : Prop := {
  ss_load_view : ∀ s g s' r, ss_load s g = (s', r) →
    (∀ g', ss_view s' g' = ss_view s g') ∧ ∀ o, r = Ok o → o = ss_view s g;
  ss_save_view : ∀ s g b s' r, ss_save s g b = (s', r) → ∀ g',
    ss_view s' g' = if is_ok r && bool_decide (g' = g) then Some b else ss_view s g';
  ss_delete_view : ∀ s g s' r, ss_delete s g = (s', r) → ∀ g',
    ss_view s' g' = if is_ok r && bool_decide (g' = g) then None else ss_view s g';
  ss_load_with_etag_view : ∀ s g s' r, ss_load_with_etag s g = (s', r) →
    (∀ g', ss_view s' g' = ss_view s g') ∧ ∀ o, r = Ok o → fst <$> o = ss_view s g;
  ss_save_with_etag_view : ∀ s g b o s' r, ss_save_with_etag s g b o = (s', r) → ∀ g',
    ss_view s' g' = if is_ok r && bool_decide (g' = g) then Some b else ss_view s g' }.

(** Stores whose saves and loads do not fail. *)
Class ReliableStore (S : Type) `{StateStore S} : Prop := {
  ss_load_ok : ∀ s g, is_ok (ss_load s g).2 = true;
  ss_save_ok : ∀ s g b, is_ok (ss_save s g b).2 = true }.

(** The comparison of the expected and the stored etag. *)
Definition check_etag (expected : option ETag) (current : option string)
    : result PersistenceError unit :=
  match expected, current with
  | None, None => Ok ()
  | None, Some actual => Err (EtagMismatch None (Some (mkETag actual)))
  | Some e, None => Err (EtagMismatch (Some e) None)
  | Some e, Some actual =>
      if bool_decide (etag_str e ≠ actual) then Err (EtagMismatch (Some e) (Some (mkETag actual)))
      else Ok ()
  end.

(** * The in-memory store *)
Record InMemoryStateStore := mkMem { mem_data : gmap GrainId (bytes * string); mem_version : Z }.

Definition InMemoryStateStore_new : InMemoryStateStore := mkMem ∅ 1.

(** [next_etag]: [fetch_add(1)], printed. *)
Definition mem_next_etag (s : InMemoryStateStore) : InMemoryStateStore * string :=
  (mkMem (mem_data s) (u64_add (mem_version s) 1), pretty (mem_version s)).

Definition InMemoryStateStore_load (s : InMemoryStateStore) (g : GrainId)
    : result PersistenceError (option bytes) := Ok (fst <$> mem_data s !! g).

Definition InMemoryStateStore_save (s : InMemoryStateStore) (g : GrainId) (b : bytes)
    : InMemoryStateStore * result PersistenceError unit :=
  let '(s, etag) := mem_next_etag s in
  (mkMem (<[g := (b, etag)]> (mem_data s)) (mem_version s), Ok ()).

Definition InMemoryStateStore_delete (s : InMemoryStateStore) (g : GrainId)
    : InMemoryStateStore * result PersistenceError unit :=
  (mkMem (delete g (mem_data s)) (mem_version s), Ok ()).

Definition InMemoryStateStore_load_with_etag (s : InMemoryStateStore) (g : GrainId)
    : result PersistenceError (option (bytes * ETag)) :=
  Ok ((λ p, (p.1, mkETag p.2)) <$> mem_data s !! g).

Definition InMemoryStateStore_save_with_etag (s : InMemoryStateStore) (g : GrainId) (b : bytes)
    (expected : option ETag) : InMemoryStateStore * result PersistenceError ETag :=
  let '(s, new_etag) := mem_next_etag s in
  match check_etag expected (snd <$> mem_data s !! g) with
  | Err e => (s, Err e)
  | Ok _ => (mkMem (<[g := (b, new_etag)]> (mem_data s)) (mem_version s), Ok (mkETag new_etag))
  end.

#[global] Instance InMemoryStateStore_store : StateStore InMemoryStateStore := {|
  ss_load s g := (s, InMemoryStateStore_load s g);
  ss_save := InMemoryStateStore_save;
  ss_delete := InMemoryStateStore_delete;
  ss_load_with_etag s g := (s, InMemoryStateStore_load_with_etag s g);
  ss_save_with_etag := InMemoryStateStore_save_with_etag;
  ss_view s g := fst <$> mem_data s !! g |}.

#[global] Instance InMemoryStateStore_laws : StateStoreLaws InMemoryStateStore.
Proof.
  split; cbn.
  - intros s g s' r [= <- <-]. split; [done|]. by intros o [= ->].
  - intros s g b s' r [= <- <-] g'. cbn. case_bool_decide as Hg.
    + subst. by rewrite lookup_insert_eq.
    + by rewrite lookup_insert_ne.
  - intros s g s' r [= <- <-] g'. cbn. case_bool_decide as Hg.
    + subst. by rewrite lookup_delete_eq.
    + by rewrite lookup_delete_ne.
  - intros s g s' r [= <- <-]. split; [done|]. intros o [= <-].
    by destruct (mem_data s !! g) as [[]|].
  - intros s g b o s' r. unfold InMemoryStateStore_save_with_etag. cbn.
    destruct (check_etag _ _) as [[]|]; intros [= <- <-] g'; cbn; [|done]. case_bool_decide as Hg.
    + subst. by rewrite lookup_insert_eq.
    + by rewrite lookup_insert_ne.
Qed.

#[global] Instance InMemoryStateStore_reliable : ReliableStore InMemoryStateStore.
Proof. split; done. Qed.

(** * The file store.  The file system maps paths to contents; a missing path is [NotFound].
    Other I/O errors are not modelled. *)
Inductive Content := Data (b : bytes) | Text (s : string).
Abbreviation FileSystem := (gmap string Content).

Record FileStateStore := mkFile { base_dir : string; file_version : Z }.

Definition FileStateStore_new (base : string) : FileStateStore := mkFile base 1.

(** [str::replace("::", "__")] *)
Fixpoint replace_colons (s : string) : string :=
  match s with
  | EmptyString => EmptyString
  | String c rest =>
      match rest with
      | String c' s' =>
          if bool_decide (c = ":"%char) && bool_decide (c' = ":"%char)
          then "__" +:+ replace_colons s'
          else String c (replace_colons rest)
      | EmptyString => String c EmptyString
      end
  end.

(** [Path::join]: an absolute right side replaces the left side; a separator is put between
    the two unless the left side is empty or already ends in one. *)
Fixpoint needs_separator (a : string) : bool :=
  match a with
  | EmptyString => false
  | String c EmptyString => bool_decide (c ≠ "/"%char)
  | String _ rest => needs_separator rest
  end.
Definition path_join (a b : string) : string :=
  let sep := if needs_separator a then a +:+ "/" else a in
  match b with
  | String c _ => if bool_decide (c = "/"%char) then b else sep +:+ b
  | EmptyString => sep
  end.

Definition path_for (s : FileStateStore) (g : GrainId) : string :=
  path_join (path_join (base_dir s) (replace_colons (type_name g))) (key g +:+ ".bin").
Definition etag_path_for (s : FileStateStore) (g : GrainId) : string :=
  path_join (path_join (base_dir s) (replace_colons (type_name g))) (key g +:+ ".etag").

Definition file_next_etag (s : FileStateStore) : FileStateStore * string :=
  (mkFile (base_dir s) (u64_add (file_version s) 1), pretty (file_version s)).

(** [tokio::fs::read]; text read as bytes is not needed by the store. *)
Definition fs_read (fs : FileSystem) (p : string) : option bytes :=
  match fs !! p with Some (Data b) => Some b | _ => None end.
Definition fs_read_to_string (fs : FileSystem) (p : string) : option string :=
  match fs !! p with Some (Text t) => Some t | _ => None end.

(** [read_etag], [write_etag] *)
Definition read_etag (fs : FileSystem) (s : FileStateStore) (g : GrainId) : option string :=
  fs_read_to_string fs (etag_path_for s g).
Definition write_etag (fs : FileSystem) (s : FileStateStore) (g : GrainId) (etag : string)
    : FileSystem := <[etag_path_for s g := Text etag]> fs.

Definition FileStateStore_load (fs : FileSystem) (s : FileStateStore) (g : GrainId)
    : option bytes := fs_read fs (path_for s g).

Definition FileStateStore_save (fs : FileSystem) (s : FileStateStore) (g : GrainId) (b : bytes)
    : FileSystem * FileStateStore :=
  let fs := <[path_for s g := Data b]> fs in
  let '(s, etag) := file_next_etag s in
  (write_etag fs s g etag, s).

Definition FileStateStore_delete (fs : FileSystem) (s : FileStateStore) (g : GrainId)
    : FileSystem := delete (etag_path_for s g) (delete (path_for s g) fs).

Definition FileStateStore_load_with_etag (fs : FileSystem) (s : FileStateStore) (g : GrainId)
    : FileSystem * FileStateStore * option (bytes * ETag) :=
  match fs_read fs (path_for s g) with
  | None => (fs, s, None)
  | Some b =>
      match read_etag fs s g with
      | Some e => (fs, s, Some (b, mkETag e))
      | None =>
          let '(s, e) := file_next_etag s in
          (write_etag fs s g e, s, Some (b, mkETag e))
      end
  end.

Definition FileStateStore_save_with_etag (fs : FileSystem) (s : FileStateStore) (g : GrainId)
    (b : bytes) (expected : option ETag)
    : FileSystem * FileStateStore * result PersistenceError ETag :=
  match check_etag expected (read_etag fs s g) with
  | Err e => (fs, s, Err e)
  | Ok _ =>
      let fs := <[path_for s g := Data b]> fs in
      let '(s, new_etag) := file_next_etag s in
      (write_etag fs s g new_etag, s, Ok (mkETag new_etag))
  end.

(** * Optimistic concurrency *)

Lemma check_etag_ok expected current :
  check_etag expected current = Ok () ↔ etag_str <$> expected = current.
Proof.
  destruct expected as [[e]|], current as [a|]; cbn; try done.
  case_bool_decide; split; try done; naive_solver.
Qed.

(** Every stored etag was produced by the counter. *)
Definition mem_inv (s : InMemoryStateStore) : Prop :=
  0 ≤ mem_version s < u64_mod ∧
  map_Forall (λ _ p, ∃ v, p.2 = pretty v ∧ 0 ≤ v < mem_version s) (mem_data s).

Lemma mem_inv_new : mem_inv InMemoryStateStore_new.
Proof. split; [done|apply map_Forall_empty]. Qed.

(** The operations a client can run on the in-memory store. *)
Inductive StoreOp :=
| OpSave (g : GrainId) (b : bytes)
| OpDelete (g : GrainId)
| OpCas (g : GrainId) (b : bytes) (expected : option ETag).

Definition mem_op (s : InMemoryStateStore) (o : StoreOp) : InMemoryStateStore :=
  match o with
  | OpSave g b => (InMemoryStateStore_save s g b).1
  | OpDelete g => (InMemoryStateStore_delete s g).1
  | OpCas g b e => (InMemoryStateStore_save_with_etag s g b e).1
  end.

(** The etags of the store lie below a counter value. *)
Definition etags_below (v : Z) (s : InMemoryStateStore) : Prop :=
  map_Forall (λ _ p, ∃ i, p.2 = pretty i ∧ 0 ≤ i < v) (mem_data s).

Lemma etags_below_weaken v v' s : v ≤ v' → etags_below v s → etags_below v' s.
Proof. intros Hv H g p Hp. destruct (H g p Hp) as (i & ? & ?). exists i. split; [done|lia]. Qed.

Lemma mem_op_inv s o :
  mem_inv s → mem_version s + 1 < u64_mod →
  mem_inv (mem_op s o) ∧ mem_version s ≤ mem_version (mem_op s o) ≤ mem_version s + 1.
Proof.
  intros [Hv He] Hlt.
  assert (u64_add (mem_version s) 1 = mem_version s + 1) as Hadd
    by (apply u64_add_small; unfold is_u64; lia).
  assert (∀ g b, mem_inv (mkMem (<[g := (b, pretty (mem_version s))]> (mem_data s))
                            (mem_version s + 1))) as Hins.
  { intros g b. split; cbn; [lia|]. apply map_Forall_insert_2.
    - exists (mem_version s). split; [done|lia].
    - apply (etags_below_weaken (mem_version s) _ s); [lia|exact He]. }
  assert (mem_inv (mkMem (mem_data s) (mem_version s + 1))) as Hskip.
  { split; cbn; [lia|]. apply (etags_below_weaken (mem_version s) _ s); [lia|exact He]. }
  destruct o as [g b|g|g b e]; cbn.
  - rewrite Hadd. split; [apply Hins|lia].
  - split; [|lia]. split; [done|]. by apply map_Forall_delete.
  - unfold InMemoryStateStore_save_with_etag. cbn. rewrite Hadd.
    destruct (check_etag _ _); cbn; [split; [apply Hins|lia]|split; [apply Hskip|lia]].
Qed.

Lemma mem_ops_inv os s :
  mem_inv s → mem_version s + Z.of_nat (length os) < u64_mod →
  mem_inv (foldl mem_op s os) ∧ mem_version s ≤ mem_version (foldl mem_op s os).
Proof.
  revert s. induction os as [|o os IH]; intros s Hs Hlt; [split; [done|cbn; lia]|].
  cbn [length] in Hlt. destruct (mem_op_inv s o) as [H1 H2]; [done|lia|].
  destruct (IH (mem_op s o)) as [H3 H4]; [done|lia|]. cbn. split; [done|lia].
Qed.

(** Once the counter is past an etag, no operation stores that etag again. *)
Lemma mem_etag_stale os s g b' v :
  mem_inv s → mem_version s + Z.of_nat (length os) < u64_mod →
  v < mem_version s → snd <$> mem_data s !! g ≠ Some (pretty v) →
  mem_data (foldl mem_op s os) !! g ≠ Some (b', pretty v).
Proof.
  revert s. induction os as [|o os IH]; intros s Hs Hlt Hv Hne; cbn.
  - intros Heq. by rewrite Heq in Hne.
  - cbn [length] in Hlt. destruct (mem_op_inv s o) as [H1 H2]; [done|lia|].
    apply IH; [done|lia|lia|].
    assert (pretty (mem_version s) ≠ pretty v) as Hfresh by (intros ?%(inj _); lia).
    destruct o as [g' x|g'|g' x e]; cbn.
    + destruct (decide (g' = g)) as [->|]; [rewrite lookup_insert_eq|by rewrite lookup_insert_ne].
      cbn. congruence.
    + destruct (decide (g' = g)) as [->|]; [by rewrite lookup_delete_eq|by rewrite lookup_delete_ne].
    + unfold InMemoryStateStore_save_with_etag. cbn. destruct (check_etag _ _); cbn; [|done].
      destruct (decide (g' = g)) as [->|]; [rewrite lookup_insert_eq|by rewrite lookup_insert_ne].
      cbn. congruence.
Qed.

(** Optimistic concurrency of the in-memory store.  A conditional save succeeds exactly
    when the expected etag is the stored one (or both are absent), it then installs
    the bytes under a new etag, and it otherwise reports the mismatch and leaves the
    data alone.  Etags are never reused (below the 64-bit limit): once the
    entry behind an etag has been overwritten or deleted, no later sequence of
    operations makes a save expecting that etag succeed, so no update is lost. *)
Theorem mem_store_optimistic s g b expected :
  mem_inv s → mem_version s + 1 < u64_mod →
  (etag_str <$> expected = (snd <$> mem_data s !! g) →
     ∃ e, InMemoryStateStore_save_with_etag s g b expected =
            (mkMem (<[g := (b, etag_str e)]> (mem_data s)) (mem_version s + 1), Ok e) ∧
          Some e ≠ expected) ∧
  (etag_str <$> expected ≠ (snd <$> mem_data s !! g) →
     ∃ err, InMemoryStateStore_save_with_etag s g b expected =
              (mkMem (mem_data s) (mem_version s + 1), Err (EtagMismatch expected err)) ∧
            etag_str <$> err = (snd <$> mem_data s !! g)) ∧
  (∀ os v b', snd <$> mem_data s !! g ≠ Some (pretty v) → v < mem_version s →
     mem_version s + Z.of_nat (length os) < u64_mod →
     is_ok (InMemoryStateStore_save_with_etag (foldl mem_op s os) g b'
              (Some (mkETag (pretty v)))).2 = false).
Proof.
  intros Hs Hlt. pose proof (u64_add_small (mem_version s) 1) as Hadd.
  destruct Hs as [Hv He]. split_and!.
  - intros Heq. exists (mkETag (pretty (mem_version s))).
    unfold InMemoryStateStore_save_with_etag. cbn. rewrite (proj2 (check_etag_ok _ _) Heq).
    cbn. rewrite Hadd by (unfold is_u64; lia). split; [done|]. intros <-. cbn in Heq.
    destruct (mem_data s !! g) as [p|] eqn:Hg; [|done]. destruct (He g p Hg) as (i & Hi & Hb).
    cbn in Heq. injection Heq as Heq. rewrite Hi in Heq. apply (inj _) in Heq. lia.
  - intros Hne. unfold InMemoryStateStore_save_with_etag. cbn.
    rewrite Hadd by (unfold is_u64; lia).
    destruct (check_etag expected (snd <$> mem_data s !! g)) as [[]|e] eqn:E;
      [by apply check_etag_ok in E|].
    unfold check_etag in E. destruct expected as [x|], (mem_data s !! g) as [[? a]|]; cbn in *;
      simplify_eq; try (by eexists).
    case_bool_decide; simplify_eq. by eexists.
  - intros os v b' Hne Hv' Hlen. unfold InMemoryStateStore_save_with_etag. cbn -[check_etag].
    destruct (check_etag (Some (mkETag (pretty v))) _) as [[]|] eqn:E; [|done].
    apply check_etag_ok in E. cbn in E. destruct (mem_data (foldl mem_op s os) !! g) as [[x y]|] eqn:Hg; [|done]. cbn in E.
    injection E as <-. exfalso. by eapply (mem_etag_stale os s g x v).
Qed.

Definition grain_x : GrainId := mkGrainId "app::Counter" "x".

Lemma mem_store_optimistic_witness :
  let s := (InMemoryStateStore_save InMemoryStateStore_new grain_x []).1 in
  ∃ e, InMemoryStateStore_save_with_etag s grain_x [] (Some (mkETag "1")) =
         (mkMem (<[grain_x := ([], etag_str e)]> (mem_data s)) (mem_version s + 1), Ok e).
Proof.
  intros s. assert (mem_inv s) as Hs by (apply (mem_op_inv _ (OpSave grain_x [])); [apply mem_inv_new|reflexivity]).
  destruct (mem_store_optimistic s grain_x [] (Some (mkETag "1")) Hs) as [(e & H & _) _].
  - reflexivity.
  - vm_compute. reflexivity.
  - exists e. exact H.
Defined.

Lemma str_app_inj_l a b c : a +:+ b = a +:+ c → b = c.
Proof.
  induction a as [|x a IH]; [by rewrite !str_app_nil_l|]. rewrite !str_app_cons.
  intros [= H]. by apply IH.
Qed.

Lemma str_length_app a b : String.length (a +:+ b) = (String.length a + String.length b)%nat.
Proof. induction a as [|x a IH]; [done|]. rewrite str_app_cons. cbn. by rewrite IH. Qed.

Lemma str_app_inj_r a b c : a +:+ c = b +:+ c → a = b.
Proof.
  revert b. induction a as [|x a IH]; intros [|y b] H;
    pose proof (f_equal String.length H) as Hl; rewrite !str_length_app in Hl; cbn in Hl;
    try lia; [done|].
  rewrite !str_app_cons in H. injection H as -> H. f_equal. by apply IH.
Qed.

Fixpoint str_last (s : string) : option ascii :=
  match s with
  | EmptyString => None
  | String c EmptyString => Some c
  | String _ rest => str_last rest
  end.

Lemma str_last_app a b : b ≠ "" → str_last (a +:+ b) = str_last b.
Proof.
  intros Hb. induction a as [|x a IH]; [done|]. rewrite str_app_cons. cbn [str_last].
  destruct (a +:+ b) eqn:E; [|by rewrite IH].
  apply (f_equal String.length) in E. rewrite str_length_app in E. destruct b; [done|]. cbn in E. lia.
Qed.

(** A file name with an extension is joined to its directory in the same way for every
    extension. *)
Lemma path_join_stem d k : ∃ stem, ∀ e, path_join d (k +:+ String "." e) = stem +:+ String "." e.
Proof.
  unfold path_join. set (sep := if needs_separator d then _ else d). destruct k as [|c k].
  - by exists sep.
  - exists (if bool_decide (c = "/"%char) then String c k else sep +:+ String c k). intros e.
    rewrite str_app_cons. case_bool_decide; [done|]. by rewrite <-str_app_assoc.
Qed.

Lemma path_stem s g : ∃ stem, path_for s g = stem +:+ ".bin" ∧ etag_path_for s g = stem +:+ ".etag".
Proof.
  destruct (path_join_stem (path_join (base_dir s) (replace_colons (type_name g))) (key g))
    as [stem H]. exists stem. split; apply H.
Qed.

(** Data files and etag files never share a path, and two grains share their etag file
    exactly when they share their data file. *)
Lemma data_path_not_etag s g g' : path_for s g ≠ etag_path_for s g'.
Proof.
  destruct (path_stem s g) as (p & -> & _), (path_stem s g') as (q & _ & ->).
  intros H. apply (f_equal str_last) in H. by rewrite !str_last_app in H.
Qed.

Lemma etag_path_eq s g g' : etag_path_for s g = etag_path_for s g' → path_for s g = path_for s g'.
Proof.
  destruct (path_stem s g) as (p & -> & ->), (path_stem s g') as (q & -> & ->).
  by intros ->%str_app_inj_r.
Qed.

(** Reading back through the two files of a grain. *)
Lemma file_load_after_save fs s g b etag :
  FileStateStore_load (write_etag (<[path_for s g := Data b]> fs) s g etag) s g = Some b.
Proof.
  unfold FileStateStore_load, write_etag, fs_read.
  rewrite lookup_insert_ne, lookup_insert_eq by (apply not_eq_sym, data_path_not_etag). done.
Qed.

Lemma read_write_etag fs s g e : read_etag (write_etag fs s g e) s g = Some e.
Proof. unfold read_etag, write_etag, fs_read_to_string. by rewrite lookup_insert_eq. Qed.

Lemma write_other fs s g g' b e :
  path_for s g' ≠ path_for s g →
  FileStateStore_load (write_etag (<[path_for s g := Data b]> fs) s g e) s g' =
    FileStateStore_load fs s g' ∧
  read_etag (write_etag (<[path_for s g := Data b]> fs) s g e) s g' = read_etag fs s g'.
Proof.
  intros Hp. assert (etag_path_for s g ≠ etag_path_for s g') as He
    by (intros H; apply Hp; symmetry; by apply etag_path_eq).
  unfold FileStateStore_load, read_etag, write_etag, fs_read, fs_read_to_string.
  pose proof (data_path_not_etag s g' g). pose proof (data_path_not_etag s g g').
  split; [by rewrite !lookup_insert_ne by congruence|by rewrite !lookup_insert_ne by congruence].
Qed.

(** The file store as one process sees it.  A conditional save succeeds exactly when the
    expected etag is the one in the companion file (or both are absent): it then
    issues the counter value as the new etag and a following [load_with_etag] returns
    exactly the saved bytes with that etag; otherwise files and counter stay as they
    are.  After [delete] neither file exists.  None of this touches a grain stored under
    another path. *)
Theorem file_store_conditional fs s g b expected :
  (etag_str <$> expected = read_etag fs s g →
     ∃ fs' s', FileStateStore_save_with_etag fs s g b expected =
                 (fs', s', Ok (mkETag (pretty (file_version s)))) ∧
       FileStateStore_load fs' s' g = Some b ∧
       FileStateStore_load_with_etag fs' s' g =
         (fs', s', Some (b, mkETag (pretty (file_version s)))) ∧
       ∀ g', path_for s g' ≠ path_for s g →
         FileStateStore_load fs' s' g' = FileStateStore_load fs s g' ∧
         read_etag fs' s' g' = read_etag fs s g') ∧
  (etag_str <$> expected ≠ read_etag fs s g →
     FileStateStore_save_with_etag fs s g b expected =
       (fs, s, Err (EtagMismatch expected (mkETag <$> read_etag fs s g)))) ∧
  (let fs' := FileStateStore_delete fs s g in
     FileStateStore_load fs' s g = None ∧ read_etag fs' s g = None ∧
     FileStateStore_load_with_etag fs' s g = (fs', s, None) ∧
     ∀ g', path_for s g' ≠ path_for s g →
       FileStateStore_load fs' s g' = FileStateStore_load fs s g').
Proof.
  split_and!.
  - intros Heq. unfold FileStateStore_save_with_etag. rewrite (proj2 (check_etag_ok _ _) Heq).
    cbn -[write_etag path_for]. eexists _, _. split; [done|].
    pose proof (file_load_after_save fs s g b (pretty (file_version s))) as Hl.
    split_and!.
    + exact Hl.
    + unfold FileStateStore_load_with_etag. unfold FileStateStore_load in Hl.
      replace (fs_read _ _) with (Some b) by exact (eq_sym Hl). by rewrite read_write_etag.
    + intros g' Hp. by apply (write_other fs (file_next_etag s).1).
  - intros Hne. unfold FileStateStore_save_with_etag.
    destruct (check_etag expected (read_etag fs s g)) as [[]|e] eqn:E;
      [by apply check_etag_ok in E|].
    unfold check_etag in E. destruct expected as [x|], (read_etag fs s g) as [a|]; cbn in *;
      simplify_eq; try done. by case_bool_decide; simplify_eq.
  - cbn. unfold FileStateStore_load, FileStateStore_load_with_etag, FileStateStore_delete,
      read_etag, fs_read, fs_read_to_string.
    pose proof (data_path_not_etag s g g).
    rewrite lookup_delete_ne, !lookup_delete_eq by congruence. split_and!; [done..|].
    intros g' Hp. pose proof (data_path_not_etag s g' g). by rewrite !lookup_delete_ne by congruence.
Qed.

Lemma file_store_conditional_witness :
  let s := FileStateStore_new "/data" in
  let fs := (FileStateStore_save ∅ s grain_x []).1 in
  ∃ fs' s', FileStateStore_save_with_etag fs s grain_x [] (Some (mkETag "1")) =
              (fs', s', Ok (mkETag "1")) ∧ FileStateStore_load fs' s' grain_x = Some [].
Proof.
  intros s fs.
  destruct (file_store_conditional fs s grain_x [] (Some (mkETag "1"))) as [H _].
  destruct H as (fs' & s' & H1 & H2 & _); [vm_compute; reflexivity|].
  exists fs', s'. split; [exact H1|exact H2].
Defined.

(** The file store keeps no such promise across a restart, because its etag counter starts
    at one again: a state stored under the etag that the restarted counter issues next
    accepts two conditional saves expecting that same etag, and the second silently
    overwrites the first.  Distinct grain types whose names differ only in [::] against
    [__] share one file. *)
Theorem file_store_restart_reuses_etags fs base g b1 b2 :
  let s := FileStateStore_new base in
  read_etag fs s g = Some "1" →
  (∃ fs1 s1, FileStateStore_save_with_etag fs s g b1 (Some (mkETag "1")) = (fs1, s1, Ok (mkETag "1")) ∧
   ∃ fs2 s2, FileStateStore_save_with_etag fs1 s1 g b2 (Some (mkETag "1")) = (fs2, s2, Ok (mkETag "2")) ∧
             FileStateStore_load fs2 s2 g = Some b2) ∧
  path_for s (mkGrainId "a::b" (key g)) = path_for s (mkGrainId "a__b" (key g)).
Proof.
  intros s He. split; [|done].
    eexists _, (mkFile base 2). split.
  { unfold FileStateStore_save_with_etag. rewrite He. cbn -[pretty write_etag path_for]. done. }
  eexists _, (mkFile base 3). split.
  { unfold FileStateStore_save_with_etag. rewrite (read_write_etag _ (mkFile base 2)). cbn -[pretty write_etag path_for]. done. }
  exact (file_load_after_save _ (mkFile base 3) g b2 "2").
Qed.

Lemma file_store_restart_reuses_etags_witness :
  let s := FileStateStore_new "/data" in
  let fs := (FileStateStore_save ∅ s grain_x []).1 in
  ∃ fs1 s1, FileStateStore_save_with_etag fs s grain_x [] (Some (mkETag "1")) =
              (fs1, s1, Ok (mkETag "1")).
Proof.
  intros s fs.
  destruct (file_store_restart_reuses_etags fs "/data" grain_x [] []) as [(fs1 & s1 & H & _) _].
  - vm_compute. reflexivity.
  - exists fs1, s1. exact H.
Defined.
