(* ===== verification/DbStores.v ===== *)
(** * Database-backed state stores

    The SQLite and Postgres stores ([sqlite_store.rs], [postgres_store.rs] of
    orlando-persistence) as statements on the table [grain_state], and the Redis store
    ([redis_store.rs]) as scripts on hashes.  The stores implement the interface
    [StateStore] that the mailboxes use, failing statements included. *)
From S2P Require Import Prelude CoreTypes Store Sql Parse.
From Stdlib Require Import Ascii.

(** ** The SQL stores

    A row of [grain_state]; the primary key [(type_name, key)] is the grain id. *)
Record StateRow := mkStateRow { sr_data : bytes; sr_version : Z }.
Abbreviation StateTable := (gmap GrainId StateRow).

Section sql.
(** [PersistenceError::Sqlite] or [PersistenceError::Postgres]. *)
Context (be : string → PersistenceError).
Implicit Types (f : Faults) (t : StateTable) (g : GrainId) (b : bytes).

Definition SqlStateStore_load f t g : result PersistenceError (option bytes) :=
  stmt be f 0 (Ok (sr_data <$> t !! g)).

(** [INSERT ... VALUES (.., 1) ON CONFLICT DO UPDATE SET data, version = version + 1]. *)
Definition SqlStateStore_save f t g b : StateTable * result PersistenceError unit :=
  match f 0%nat with
  | Some e => (t, Err (be e))
  | None =>
      let version := match t !! g with Some r => sr_version r + 1 | None => 1 end in
      (<[g := mkStateRow b version]> t, Ok tt)
  end.

Definition SqlStateStore_delete f t g : StateTable * result PersistenceError unit :=
  match f 0%nat with
  | Some e => (t, Err (be e))
  | None => (delete g t, Ok tt)
  end.

Definition row_etag (r : StateRow) : ETag := mkETag (pretty (sr_version r)).

Definition SqlStateStore_load_with_etag f t g : result PersistenceError (option (bytes * ETag)) :=
  stmt be f 0 (Ok ((λ r, (sr_data r, row_etag r)) <$> t !! g)).

(** The second statement of a refused save: the current etag, for the error. *)
Definition etag_conflict f t g (expected : option ETag) : result PersistenceError ETag :=
  match SqlStateStore_load_with_etag (λ i, f (1 + i)%nat) t g with
  | Err e => Err e
  | Ok current => Err (EtagMismatch expected (snd <$> current))
  end.

(** [expected_version + 1] on an [i64]. *)
Definition next_version (v : Z) : Z := as_i64 (v + 1).

(** [save_with_etag]: a plain [INSERT] when no etag is expected, otherwise the conditional
    [UPDATE]; [later] is what other callers commit before the second statement. *)
Definition SqlStateStore_save_with_etag f (later : StateTable → StateTable) t g b
  (expected : option ETag) : StateTable * result PersistenceError ETag :=
  match expected with
  | None =>
      match f 0%nat, t !! g with
      | Some e, _ => (t, Err (be e))
      | None, None => (<[g := mkStateRow b 1]> t, Ok (mkETag "1"))
      | None, Some _ => (t, etag_conflict f (later t) g None)
      end
  | Some etag =>
      match parse_i64 (etag_str etag) with
      | Err e => (t, Err (Serialization ("invalid etag: " +:+ ParseIntError_display e)))
      | Ok expected_version =>
          let new_version := next_version expected_version in
          match f 0%nat, t !! g with
          | Some e, _ => (t, Err (be e))
          | None, Some r =>
              if bool_decide (sr_version r = expected_version) then
                (<[g := mkStateRow b new_version]> t, Ok (mkETag (pretty new_version)))
              else (t, etag_conflict f (later t) g (Some etag))
          | None, None => (t, etag_conflict f (later t) g (Some etag))
          end
      end
  end.
End sql.

(** The Postgres store runs the same statements under its own error. *)
Definition PostgresStateStore_load := SqlStateStore_load Postgres.
Definition PostgresStateStore_save := SqlStateStore_save Postgres.
Definition PostgresStateStore_delete := SqlStateStore_delete Postgres.
Definition PostgresStateStore_load_with_etag := SqlStateStore_load_with_etag Postgres.
Definition PostgresStateStore_save_with_etag := SqlStateStore_save_with_etag Postgres.

(** ** The SQL stores implement the interface

    A store is its table with the failures of the calls to come, one [Faults] per call. *)
Record SqlStore (be : string → PersistenceError) :=
  mkSqlStore { sql_table : StateTable; sql_faults : list Faults }.
Arguments mkSqlStore {be}.
Arguments sql_table {be}.
Arguments sql_faults {be}.

Section sql_instance.
Context {be : string → PersistenceError}.
Implicit Types (s : SqlStore be).

Definition call_faults s : Faults := default no_faults (head (sql_faults s)).
Definition call_done s (t : StateTable) : SqlStore be := mkSqlStore t (tail (sql_faults s)).

#[global] Instance Sql_state_store : StateStore (SqlStore be) := {|
  ss_load s g := (call_done s (sql_table s), SqlStateStore_load be (call_faults s) (sql_table s) g);
  ss_save s g b :=
    let '(t, r) := SqlStateStore_save be (call_faults s) (sql_table s) g b in (call_done s t, r);
  ss_delete s g :=
    let '(t, r) := SqlStateStore_delete be (call_faults s) (sql_table s) g in (call_done s t, r);
  ss_load_with_etag s g :=
    (call_done s (sql_table s), SqlStateStore_load_with_etag be (call_faults s) (sql_table s) g);
  ss_save_with_etag s g b e :=
    let '(t, r) := SqlStateStore_save_with_etag be (call_faults s) id (sql_table s) g b e in
    (call_done s t, r);
  ss_view s g := sr_data <$> sql_table s !! g |}.

Lemma etag_conflict_err f t g e : is_ok (etag_conflict be f t g e) = false.
Proof. unfold etag_conflict. by destruct (SqlStateStore_load_with_etag _ _ _ _). Qed.

(** Writing one row: the content of that grain changes, no other. *)
Lemma view_insert (t : StateTable) g g' b v :
  sr_data <$> <[g := mkStateRow b v]> t !! g' =
  if bool_decide (g' = g) then Some b else sr_data <$> t !! g'.
Proof.
  case_bool_decide as E; [subst; by rewrite lookup_insert_eq|by rewrite lookup_insert_ne].
Qed.

(** Every branch of a conditional save: refused without a change, or one row
    written. *)
Lemma sql_save_with_etag_cases f later t g b e t' r :
  SqlStateStore_save_with_etag be f later t g b e = (t', r) →
  (t' = t ∧ is_ok r = false) ∨
  (∃ v, t' = <[g := mkStateRow b v]> t ∧ r = Ok (mkETag (pretty v))).
Proof.
  unfold SqlStateStore_save_with_etag. destruct e as [etag|].
  - destruct (parse_i64 (etag_str etag)) as [n|]; [|intros [= <- <-]; by left].
    destruct (f 0%nat); [intros [= <- <-]; by left|].
    destruct (t !! g) as [row|] eqn:Hg.
    + case_bool_decide; intros [= <- <-]; [right; eauto|]. left. by rewrite etag_conflict_err.
    + intros [= <- <-]. left. by rewrite etag_conflict_err.
  - destruct (f 0%nat); [intros [= <- <-]; by left|].
    destruct (t !! g) as [row|] eqn:Hg; intros [= <- <-].
    + left. by rewrite etag_conflict_err.
    + right. by exists 1.
Qed.

#[global] Instance Sql_state_store_laws : StateStoreLaws (SqlStore be).
Proof.
  split; cbn.
  - intros s g s' r [= <- <-]. split; [done|]. unfold SqlStateStore_load, stmt.
    destruct (call_faults s 0%nat); [done|]. by intros o [= <-].
  - intros s g b s' r. unfold SqlStateStore_save. destruct (call_faults s 0%nat);
      intros [= <- <-] g'; cbn; [done|]. apply view_insert.
  - intros s g s' r. unfold SqlStateStore_delete. destruct (call_faults s 0%nat);
      intros [= <- <-] g'; cbn; [done|]. case_bool_decide as E;
      [subst; by rewrite lookup_delete_eq|by rewrite lookup_delete_ne].
  - intros s g s' r [= <- <-]. split; [done|]. unfold SqlStateStore_load_with_etag, stmt.
    destruct (call_faults s 0%nat); [done|]. intros o [= <-]. by destruct (sql_table s !! g).
  - intros s g b e s' r. destruct (SqlStateStore_save_with_etag _ _ _ _ _ _ _) as [t r'] eqn:E.
    intros [= <- <-] g'. cbn.
    apply sql_save_with_etag_cases in E as [[-> ->]|(v & -> & ->)]; [done|]. apply view_insert.
Qed.
End sql_instance.

(** ** Optimistic concurrency of the SQL stores *)
Inductive SqlOp :=
| SqlSave (f : Faults) (g : GrainId) (b : bytes)
| SqlSaveWithEtag (f : Faults) (g : GrainId) (b : bytes) (e : option ETag)
| SqlDelete (f : Faults) (g : GrainId).

Section optimistic.
Context (be : string → PersistenceError).
Implicit Types (t : StateTable) (g : GrainId) (b : bytes) (r : StateRow).

Definition sql_op t (o : SqlOp) : StateTable :=
  match o with
  | SqlSave f g b => (SqlStateStore_save be f t g b).1
  | SqlSaveWithEtag f g b e => (SqlStateStore_save_with_etag be f id t g b e).1
  | SqlDelete f g => (SqlStateStore_delete be f t g).1
  end.

Definition not_delete g (o : SqlOp) : Prop :=
  match o with SqlDelete _ g' => g' ≠ g | _ => True end.

Lemma row_etag_parse r : is_i64 (sr_version r) → parse_i64 (etag_str (row_etag r)) = Ok (sr_version r).
Proof. intros [? ?]. apply parse_int_pretty; unfold i64_half in *; lia. Qed.

Lemma next_version_small v : 0 ≤ v → v + 1 < i64_half → next_version v = v + 1.
Proof. intros. apply as_i64_small. lia. Qed.

(** One operation that does not delete a row leaves it alone or raises its version
    by one. *)
Lemma sql_op_version t g r o :
  not_delete g o → t !! g = Some r → 0 ≤ sr_version r → sr_version r + 1 < i64_half →
  sql_op t o !! g = Some r ∨
  ∃ r', sql_op t o !! g = Some r' ∧ sr_version r' = sr_version r + 1.
Proof.
  intros Hnd Hg H0 Hlt. destruct o as [f g' b|f g' b e|f g']; cbn in *.
  - unfold SqlStateStore_save. destruct (f 0%nat); [by left|]. cbn.
    destruct (decide (g' = g)) as [->|Hne]; [|left; by rewrite lookup_insert_ne].
    right. rewrite lookup_insert_eq, Hg. eauto.
  - destruct (decide (g' = g)) as [->|Hne].
    + unfold SqlStateStore_save_with_etag. destruct e as [etag|].
      * destruct (parse_i64 _) as [n|]; [|by left]. destruct (f 0%nat); [by left|]. rewrite Hg.
        case_bool_decide as Hv; [|by left]. right. cbn. rewrite lookup_insert_eq.
        eexists. split; [done|]. cbn. subst. by apply next_version_small.
      * destruct (f 0%nat); [by left|]. rewrite Hg. by left.
    + left. destruct (SqlStateStore_save_with_etag _ _ _ _ _ _ _) as [t' res] eqn:E. cbn.
      apply sql_save_with_etag_cases in E as [[-> _]|(v & -> & _)]; [done|].
      by rewrite lookup_insert_ne.
  - unfold SqlStateStore_delete. destruct (f 0%nat); [by left|]. left. cbn.
    by rewrite lookup_delete_ne.
Qed.

Lemma sql_ops_version ops t g r :
  Forall (not_delete g) ops → t !! g = Some r → 0 ≤ sr_version r →
  sr_version r + Z.of_nat (length ops) < i64_half →
  ∃ r', foldl sql_op t ops !! g = Some r' ∧
    sr_version r ≤ sr_version r' ≤ sr_version r + Z.of_nat (length ops) ∧
    (sr_version r' = sr_version r → r' = r).
Proof.
  revert t r. induction ops as [|o ops IH]; intros t r Hops Hg H0 Hlt.
  { exists r. cbn. split_and!; [done|lia|lia|done]. }
  apply Forall_cons in Hops as [Ho Hops]. cbn [length] in *. cbn [foldl].
  destruct (sql_op_version t g r o Ho Hg H0 ltac:(lia)) as [Hg'|(r1 & Hg' & Hv)].
  - destruct (IH _ _ Hops Hg' H0 ltac:(lia)) as (r' & E & Hr & Heq).
    exists r'. split_and!; [done|lia|lia|done].
  - destruct (IH _ _ Hops Hg' ltac:(lia) ltac:(lia)) as (r' & E & Hr & Heq).
    exists r'. split_and!; [done|lia|lia|]. intros. lia.
Qed.
End optimistic.

(** Optimistic concurrency of the SQLite and Postgres stores: a save with the etag of a
    row read earlier is accepted, after any number of other saves (failing ones and
    conditional ones included) and deletions of other grains, exactly when the row is still
    the one that was read; otherwise it is refused with the current etag and changes nothing. *)
Theorem sql_store_optimistic be t ops g r b :
  t !! g = Some r → 0 ≤ sr_version r → sr_version r + Z.of_nat (length ops) + 1 < i64_half →
  Forall (not_delete g) ops →
  let t' := foldl (sql_op be) t ops in
  let '(t'', res) := SqlStateStore_save_with_etag be no_faults id t' g b (Some (row_etag r)) in
  (t' !! g = Some r ∧ t'' = <[g := mkStateRow b (sr_version r + 1)]> t' ∧
   res = Ok (mkETag (pretty (sr_version r + 1)))) ∨
  (∃ r', t' !! g = Some r' ∧ sr_version r < sr_version r' ∧ t'' = t' ∧
   res = Err (EtagMismatch (Some (row_etag r)) (Some (row_etag r')))).
Proof.
  intros Hg H0 Hlt Hops. cbn zeta.
  destruct (sql_ops_version be ops t g r Hops Hg H0 ltac:(lia)) as (r' & E & Hv & Heq).
  generalize dependent (foldl (sql_op be) t ops). intros t' E.
  unfold SqlStateStore_save_with_etag. rewrite row_etag_parse by (unfold is_i64, i64_half in *; lia).
  cbn [no_faults]. rewrite E. case_bool_decide as Hc.
  - left. rewrite (Heq Hc). by rewrite next_version_small by lia.
  - right. exists r'. split_and!; [done|lia|done|].
    unfold etag_conflict, SqlStateStore_load_with_etag, stmt, no_faults. cbn. by rewrite E.
Qed.

Definition blob (n : nat) : bytes := repeat Byte.x01 n.
Definition grain_y : GrainId := mkGrainId "app::Counter" "y".

Lemma sql_store_optimistic_witness :
  let t := {[grain_x := mkStateRow (blob 1) 4]} : StateTable in
  let ops := [SqlDelete no_faults grain_y; SqlSave (λ _, Some "disk full") grain_x (blob 2);
              SqlSaveWithEtag no_faults grain_x (blob 3) (Some (mkETag "4"))] in
  let t' := foldl (sql_op Sqlite) t ops in
  (SqlStateStore_save_with_etag Sqlite no_faults id t' grain_x (blob 9) (Some (mkETag "4"))).2
  = Err (EtagMismatch (Some (mkETag "4")) (Some (mkETag "5"))).
Proof.
  intros t ops t'.
  pose proof (sql_store_optimistic Sqlite t ops grain_x (mkStateRow (blob 1) 4) (blob 9)
    ltac:(apply lookup_singleton_eq) ltac:(done) ltac:(done)
    ltac:(repeat constructor; discriminate)) as H.
  cbn zeta in H. fold t' in H. destruct (SqlStateStore_save_with_etag _ _ _ _ _ _ _) as [t'' res].
  destruct H as [(Hg & _)|(r' & Hg & _ & _ & ->)]; [by vm_compute in Hg|].
  assert (t' !! grain_x = Some (mkStateRow (blob 3) 5)) as Hg' by by vm_compute.
  rewrite Hg' in Hg. by injection Hg as <-.
Defined.

(** Reused etags of the SQLite and Postgres stores: deleting a grain restarts its
    version at 1, so an etag [1] read before the deletion is accepted again after another
    caller has created the grain anew, and overwrites a state that was never read. *)
Theorem sql_etag_reused_after_delete be t g r b b' :
  t !! g = Some r → sr_version r = 1 →
  let t' := foldl (sql_op be) t [SqlDelete no_faults g; SqlSave no_faults g b] in
  t' !! g = Some (mkStateRow b 1) ∧
  SqlStateStore_save_with_etag be no_faults id t' g b' (Some (row_etag r))
  = (<[g := mkStateRow b' 2]> t', Ok (mkETag "2")).
Proof.
  intros Hg Hv. cbn zeta.
  assert (foldl (sql_op be) t [SqlDelete no_faults g; SqlSave no_faults g b]
          = <[g := mkStateRow b 1]> (delete g t)) as ->.
  { cbn. by rewrite lookup_delete_eq. }
  split; [by rewrite lookup_insert_eq|]. unfold SqlStateStore_save_with_etag, row_etag.
  rewrite Hv, lookup_insert_eq. done.
Qed.

Lemma sql_etag_reused_after_delete_witness :
  let t := {[grain_x := mkStateRow (blob 1) 1]} : StateTable in
  let t' := foldl (sql_op Postgres) t [SqlDelete no_faults grain_x; SqlSave no_faults grain_x (blob 2)] in
  (SqlStateStore_save_with_etag Postgres no_faults id t' grain_x (blob 3) (Some (mkETag "1"))).2
  = Ok (mkETag "2").
Proof.
  intros t t'.
  pose proof (sql_etag_reused_after_delete Postgres t grain_x (mkStateRow (blob 1) 1) (blob 2) (blob 3)
    ltac:(apply lookup_singleton_eq) ltac:(done)) as [_ H].
  exact (f_equal snd H).
Defined.

(** ** The Redis store

    One hash per grain with the fields [data] and [version]; the scripts run
    atomically. *)
Record Hash := mkHash { h_data : option bytes; h_version : option string }.
Abbreviation Redis := (gmap string Hash).

Definition key_for (g : GrainId) : string := "grain:" +:+ colon (type_name g) (key g).
Definition redis_err (m : string) : PersistenceError := Io m.

Definition RedisStateStore_load (f : Faults) (d : Redis) (g : GrainId)
  : result PersistenceError (option bytes) :=
  stmt redis_err f 0 (Ok (d !! key_for g ≫= h_data)).

(** [HINCRBY key version 1] on the field as text; [None] is the error of a field that is
    not an integer or would overflow. *)
Definition hincrby (v : option string) : option string :=
  match v with
  | None => Some "1"
  | Some s =>
      match parse_i64 s with
      | Ok n => if bool_decide (n + 1 < i64_half) then Some (pretty (n + 1)) else None
      | Err _ => None
      end
  end.

(** The script of [save]: [HSET data], then [HINCRBY version]. *)
Definition RedisStateStore_save (f : Faults) (d : Redis) (g : GrainId) (b : bytes)
  : Redis * result PersistenceError unit :=
  match f 0%nat with
  | Some e => (d, Err (redis_err e))
  | None =>
      let v := d !! key_for g ≫= h_version in
      match hincrby v with
      | Some v' => (<[key_for g := mkHash (Some b) (Some v')]> d, Ok tt)
      | None => (<[key_for g := mkHash (Some b) v]> d, Err (redis_err "hash value is not an integer"))
      end
  end.

Definition RedisStateStore_delete (f : Faults) (d : Redis) (g : GrainId)
  : Redis * result PersistenceError unit :=
  match f 0%nat with
  | Some e => (d, Err (redis_err e))
  | None => (delete (key_for g) d, Ok tt)
  end.

Definition RedisStateStore_load_with_etag (f : Faults) (d : Redis) (g : GrainId)
  : result PersistenceError (option (bytes * ETag)) :=
  stmt redis_err f 0 (
    match d !! key_for g ≫= h_data, d !! key_for g ≫= h_version with
    | Some data, Some version => Ok (Some (data, mkETag version))
    | _, _ => Ok None
    end).

(** The script for [expected_etag = None]: its reply is the stored version, or nil. *)
Definition script_create (d : Redis) (k : string) (b : bytes) : Redis * option string :=
  match d !! k with
  | Some h => (d, h_version h)
  | None => (<[k := mkHash (Some b) (Some "1")]> d, None)
  end.

(** The compare-and-swap script. *)
Definition script_cas (d : Redis) (k : string) (b : bytes) (expected new_version : string)
  : Redis * list string :=
  match d !! k ≫= h_version with
  | None => (d, ["MISSING"; ""])
  | Some current =>
      if bool_decide (current ≠ expected) then (d, ["MISMATCH"; current])
      else (<[k := mkHash (Some b) (Some new_version)]> d, ["OK"; new_version])
  end.

Definition RedisStateStore_save_with_etag (f : Faults) (d : Redis) (g : GrainId) (b : bytes)
  (expected : option ETag) : Redis * result PersistenceError ETag :=
  match expected with
  | None =>
      match f 0%nat with
      | Some e => (d, Err (redis_err e))
      | None =>
          match script_create d (key_for g) b with
          | (d', None) => (d', Ok (mkETag "1"))
          | (d', Some actual) => (d', Err (EtagMismatch None (Some (mkETag actual))))
          end
      end
  | Some e =>
      match parse_i64 (etag_str e) with
      | Err x => (d, Err (Serialization ("invalid etag: " +:+ ParseIntError_display x)))
      | Ok n =>
          let new_version_str := pretty (next_version n) in
          match f 0%nat with
          | Some x => (d, Err (redis_err x))
          | None =>
              let '(d', reply) := script_cas d (key_for g) b (etag_str e) new_version_str in
              (d', match reply with
                   | "OK" :: _ => Ok (mkETag new_version_str)
                   | "MISSING" :: _ => Err (EtagMismatch (Some e) None)
                   | "MISMATCH" :: v :: _ => Err (EtagMismatch (Some e) (Some (mkETag v)))
                   | "MISMATCH" :: [] => Err (EtagMismatch (Some e) None)
                   | _ => Err (Io "unexpected Lua script result")
                   end)
          end
      end
  end.

(** ** Redis keys *)
Definition colon_free (g : GrainId) : Prop := str_has ":" (key g) = false.

Lemma key_for_inj g g' : colon_free g → colon_free g' → key_for g = key_for g' → g = g'.
Proof.
  intros Hg Hg' E. unfold key_for in E. rewrite !str_app_cons, !str_app_nil_l in E.
  injection E as E. unfold colon in E. rewrite !str_app_cons, !str_app_nil_l in E.
  destruct g as [ty k], g' as [ty' k']. cbn in *.
  destruct (str_sep_inj ":" ty k ty' k' Hg Hg' E) as [-> ->]. done.
Qed.

(** Keys with colons collide: a nested type name reads as a shorter type with a longer key. *)
Example redis_keys_collide :
  key_for (mkGrainId "app::Cart" ":Item:7") = key_for (mkGrainId "app::Cart::Item" "7").
Proof. reflexivity. Qed.

(** ** The Redis store refines the SQL table *)
Definition row_hash (r : StateRow) : Hash := mkHash (Some (sr_data r)) (Some (pretty (sr_version r))).

Definition same_store (t : StateTable) (d : Redis) : Prop :=
  ∀ g, colon_free g → d !! key_for g = row_hash <$> t !! g.

Lemma same_store_insert t d g r :
  colon_free g → same_store t d → same_store (<[g := r]> t) (<[key_for g := row_hash r]> d).
Proof.
  intros Hg Hs g' Hg'. destruct (decide (g' = g)) as [->|Hne]; [by rewrite !lookup_insert_eq|].
  rewrite !lookup_insert_ne; [by apply Hs|done|]. intros E. apply Hne. symmetry. by apply key_for_inj.
Qed.

Lemma same_store_delete t d g :
  colon_free g → same_store t d → same_store (delete g t) (delete (key_for g) d).
Proof.
  intros Hg Hs g' Hg'. destruct (decide (g' = g)) as [->|Hne]; [by rewrite !lookup_delete_eq|].
  rewrite !lookup_delete_ne; [by apply Hs|done|]. intros E. apply Hne. symmetry. by apply key_for_inj.
Qed.

(** The stored versions leave room for the next one. *)
Definition versions_ok (t : StateTable) : Prop :=
  map_Forall (λ _ r, 0 ≤ sr_version r ∧ sr_version r + 1 < i64_half) t.

Lemma parse_i64_pretty v : is_i64 v → parse_i64 (pretty v) = Ok v.
Proof. intros [? ?]. apply parse_int_pretty; unfold i64_half in *; lia. Qed.

Lemma hincrby_pretty v : 0 ≤ v → v + 1 < i64_half → hincrby (Some (pretty v)) = Some (pretty (v + 1)).
Proof.
  intros. cbn. rewrite parse_i64_pretty by (unfold is_i64, i64_half in *; lia).
  by rewrite bool_decide_true.
Qed.

(** An etag as the stores print it. *)
Definition canonical (e : option ETag) : Prop :=
  match e with None => True | Some e => ∃ v, is_i64 v ∧ etag_str e = pretty v end.

Lemma redis_save_refines be t d g b :
  colon_free g → versions_ok t → same_store t d →
  let '(t', r) := SqlStateStore_save be no_faults t g b in
  let '(d', r') := RedisStateStore_save no_faults d g b in
  same_store t' d' ∧ r' = r.
Proof.
  intros Hg Hv Hs. unfold SqlStateStore_save, RedisStateStore_save. cbn [no_faults].
  rewrite (Hs g Hg). destruct (t !! g) as [row|] eqn:E; cbn [fmap option_fmap option_map mbind option_bind h_version row_hash].
  - destruct (Hv _ _ E) as [H0 Hlt]. rewrite hincrby_pretty by done. split; [|done].
    by apply (same_store_insert _ _ _ (mkStateRow b (sr_version row + 1))).
  - cbn. split; [|done]. by apply (same_store_insert _ _ _ (mkStateRow b 1)).
Qed.

Lemma redis_cas_refines be t d g b e :
  colon_free g → versions_ok t → same_store t d → canonical e →
  let '(t', r) := SqlStateStore_save_with_etag be no_faults id t g b e in
  let '(d', r') := RedisStateStore_save_with_etag no_faults d g b e in
  same_store t' d' ∧ r' = r.
Proof.
  intros Hg Hv Hs Hc.
  unfold SqlStateStore_save_with_etag, RedisStateStore_save_with_etag, etag_conflict,
    SqlStateStore_load_with_etag, stmt, script_create, script_cas.
  destruct e as [e|]; cbn [no_faults].
  - destruct Hc as (v & Hi & Ee). rewrite Ee, parse_i64_pretty by done. rewrite (Hs g Hg).
    destruct (t !! g) as [row|] eqn:E; cbn; [|by rewrite E].
    case_bool_decide as Hver.
    + subst v. rewrite bool_decide_false by (intros []; done). split; [|done].
      by apply (same_store_insert _ _ _ (mkStateRow b (next_version (sr_version row)))).
    + rewrite bool_decide_true by (intros ?%(inj _); done). cbn. by rewrite E.
  - rewrite (Hs g Hg). destruct (t !! g) as [row|] eqn:E; cbn; [by rewrite E|]. split; [|done].
    by apply (same_store_insert _ _ _ (mkStateRow b 1)).
Qed.

(** The Redis scripts refine the SQL statements: on grain keys without a colon and
    etags as the stores print them, every operation on a Redis store that holds
    the same states as a SQL table answers the same and leaves the two holding the same
    states. *)
Theorem redis_refines_sql be t d g b e :
  colon_free g → versions_ok t → same_store t d → canonical e →
  RedisStateStore_load no_faults d g = SqlStateStore_load be no_faults t g ∧
  RedisStateStore_load_with_etag no_faults d g = SqlStateStore_load_with_etag be no_faults t g ∧
  (let '(t', r) := SqlStateStore_save be no_faults t g b in
   let '(d', r') := RedisStateStore_save no_faults d g b in same_store t' d' ∧ r' = r) ∧
  (let '(t', r) := SqlStateStore_delete be no_faults t g in
   let '(d', r') := RedisStateStore_delete no_faults d g in same_store t' d' ∧ r' = r) ∧
  (let '(t', r) := SqlStateStore_save_with_etag be no_faults id t g b e in
   let '(d', r') := RedisStateStore_save_with_etag no_faults d g b e in same_store t' d' ∧ r' = r).
Proof.
  intros Hg Hv Hs Hc. split_and!.
  - unfold RedisStateStore_load, SqlStateStore_load, stmt. cbn. rewrite (Hs g Hg).
    by destruct (t !! g).
  - unfold RedisStateStore_load_with_etag, SqlStateStore_load_with_etag, stmt. cbn.
    rewrite (Hs g Hg). by destruct (t !! g).
  - by apply redis_save_refines.
  - cbn. split; [|done]. by apply same_store_delete.
  - by apply redis_cas_refines.
Qed.

Lemma redis_refines_sql_witness :
  let t := {[grain_x := mkStateRow (blob 1) 4]} : StateTable in
  let d := {[key_for grain_x := mkHash (Some (blob 1)) (Some "4")]} : Redis in
  (RedisStateStore_save_with_etag no_faults d grain_x (blob 2) (Some (mkETag "4"))).2
  = (SqlStateStore_save_with_etag Sqlite no_faults id t grain_x (blob 2) (Some (mkETag "4"))).2 ∧
  (RedisStateStore_save_with_etag no_faults d grain_x (blob 2) (Some (mkETag "4"))).2
  = Ok (mkETag "5").
Proof.
  intros t d. split; [|vm_compute; reflexivity].
  assert (same_store t d) as Hs.
  { intros g Hg. subst t d. destruct (decide (g = grain_x)) as [->|Hne].
    - by rewrite !lookup_singleton_eq.
    - rewrite !lookup_singleton_ne; [done|done|]. intros E. apply Hne. symmetry. by apply key_for_inj. }
  pose proof (redis_refines_sql Sqlite t d grain_x (blob 2) (Some (mkETag "4")) eq_refl
    ltac:(by apply map_Forall_singleton) Hs ltac:(by exists 4)) as (_ & _ & _ & _ & H).
  destruct (SqlStateStore_save_with_etag _ _ _ _ _ _ _) as [t' r].
  destruct (RedisStateStore_save_with_etag _ _ _ _ _) as [d' r']. exact (proj2 H).
Defined.

(** ** Connecting with retries

    [backoff.rs]: [retry] is that of the backoff crate, as documented: it calls the operation until it succeeds,
    fails permanently, or the policy gives up. *)
Record ExponentialBackoff := mkBackoff {
  initial_interval_ms : Z; max_interval_ms : Z; max_elapsed_ms : option Z; multiplier : Z }.
Definition store_init_backoff : ExponentialBackoff := mkBackoff 500 60000 (Some (15 * 60 * 1000)) 2.

Inductive BackoffError (E : Type) := BTransient (e : E) | BPermanent (e : E).
Arguments BTransient {E} e.
Arguments BPermanent {E} e.

Section backoff.
Context {T E : Type} (retry : ExponentialBackoff → (nat → result (BackoffError E) T) → result E T).
(** The policy gives up after the given number of attempts. *)
Context (gives_up : ExponentialBackoff → nat → Prop).

Definition retry_store_init (operation : nat → result E T) : result E T :=
  retry store_init_backoff (λ n, map_err BTransient (operation n)).

Definition retry_documented : Prop := ∀ cfg op,
  ∃ n, (∀ k, (k < n)%nat → ∃ e, op k = Err (BTransient e)) ∧
    match op n with
    | Ok v => retry cfg op = Ok v
    | Err (BPermanent e) => retry cfg op = Err e
    | Err (BTransient e) => retry cfg op = Err e ∧ gives_up cfg n
    end.

(** A store that becomes reachable before the policy gives up is opened, however often and for whatever
    reason it failed before. *)
Lemma retry_store_init_succeeds operation n v :
  retry_documented → (∀ k, (k < n)%nat → ∃ e, operation k = Err e) → operation n = Ok v →
  (∀ k, (k < n)%nat → ¬ gives_up store_init_backoff k) → retry_store_init operation = Ok v.
Proof.
  intros Hr Hfail Hok Hg. unfold retry_store_init.
  destruct (Hr store_init_backoff (λ n, map_err BTransient (operation n))) as (m & Hm & Hres).
  destruct (lt_eq_lt_dec m n) as [[Hlt| ->]|Hgt].
  - destruct (Hfail m Hlt) as [e He]. rewrite He in Hres. cbn in Hres. destruct Hres as [_ Hgu]. by apply Hg in Hgu.
  - by rewrite Hok in Hres.
  - destruct (Hm n Hgt) as [e He]. by rewrite Hok in He.
Qed.
End backoff.
