(* ===== verification/PersistentMailbox.v ===== *)
(** The persistent mailbox of [orlando-persistence/src/persistent_mailbox.rs]: loading with
    retries, the activation lifecycle with its persistence strategies, the reentrant
    variant, versioned state with migration ([versioned_grain.rs]). *)
From S2P Require Import Prelude CoreTypes Mailbox Store.

(** Hooks, handlers, store writes and replication sends, in order. *)
Inductive PEvent (State : Type) :=
| PBeforeLoad | PAfterLoad | PActivate | PDeactivate | PRemove
| PHandle (before after : State)      (** the handler, and with it the reply, is done *)
| PBeforeSave | PAfterSave
| PSaved (b : bytes) | PSaveFailed
| PSent (b : bytes).
Arguments PBeforeLoad {State}. Arguments PAfterLoad {State}. Arguments PActivate {State}.
Arguments PDeactivate {State}. Arguments PRemove {State}. Arguments PHandle {State} before after.
Arguments PBeforeSave {State}. Arguments PAfterSave {State}. Arguments PSaved {State} b.
Arguments PSaveFailed {State}. Arguments PSent {State} b.

(** [PersistPlan] *)
Inductive PersistPlan := PlanSkip | SerializeFailed | PlanWrite (b : bytes) (label : string).

Section persistent_mailbox.
Context {D : Type} `{GrainActivator D} {Sto : Type} `{StateStore Sto} {State : Type}.
(** The serializer of the grain's store (bincode or serde_json). *)
Context (serialize : State → option bytes) (deserialize : bytes → option State).
Context (G : Grain State) (grain_id : GrainId).

(** What an activation threads through its loop. *)
Record PEnv := mkPEnv {
  pe_store : Sto;
  pe_sink : bool;               (** a replication sink is present *)
  pe_last_save : Z;
  pe_trace : list (PEvent State) }.

Definition emit (e : PEnv) (evs : list (PEvent State)) : PEnv :=
  mkPEnv (pe_store e) (pe_sink e) (pe_last_save e) (pe_trace e ++ evs).
Definition with_store (e : PEnv) (s : Sto) : PEnv :=
  mkPEnv s (pe_sink e) (pe_last_save e) (pe_trace e).
Definition sink_send (e : PEnv) (b : bytes) : PEnv :=
  if pe_sink e then emit e [PSent b] else e.

(** [load_state] *)
Definition load_state (s : Sto) : Sto * result PersistenceError (option State) :=
  match ss_load s grain_id with
  | (s, Err e) => (s, Err e)
  | (s, Ok None) => (s, Ok None)
  | (s, Ok (Some b)) =>
      (s, match deserialize b with
          | Some st => Ok (Some st)
          | None => Err (Deserialization "")
          end)
  end.

(** The attempts left of [load_or_default]. *)
Fixpoint load_attempts (n : nat) (s : Sto) : Sto * State :=
  match n with
  | O => (s, grain_default G)
  | S n' =>
      match load_state s with
      | (s, Ok (Some st)) => (s, st)
      | (s, Ok None) => (s, grain_default G)
      | (s, Err _) => load_attempts n' s
      end
  end.

(** [load_or_default] *)
Definition load_or_default (s : Sto) : Sto * State := load_attempts 3 s.

(** [flush_bytes] *)
Definition flush_bytes (e : PEnv) (b : bytes) : PEnv * bool :=
  match ss_save (pe_store e) grain_id b with
  | (s, Ok _) => (emit (with_store e s) [PSaved b], true)
  | (s, Err _) => (emit (with_store e s) [PSaveFailed], false)
  end.

(** [save_with_retry], with [n] attempts left. *)
Fixpoint save_attempts (n : nat) (e : PEnv) (b : bytes) : PEnv * bool :=
  match n with
  | O => (e, false)
  | S n' =>
      match flush_bytes e b with
      | (e, true) => (e, true)
      | (e, false) => save_attempts n' e b
      end
  end.
Definition save_with_retry (e : PEnv) (b : bytes) : PEnv * bool := save_attempts 3 e b.

(** [prepare_persist]; [now] is the instant of the decision. *)
Definition prepare_persist (strategy : PersistenceStrategy) (now : Z) (st : State) (e : PEnv)
    : PEnv * PersistPlan :=
  match strategy with
  | WriteThrough =>
      (e, match serialize st with Some b => PlanWrite b "write-through" | None => SerializeFailed end)
  | WriteBack interval =>
      if bool_decide (now - pe_last_save e < interval) then (e, PlanSkip)
      else
        (mkPEnv (pe_store e) (pe_sink e) now (pe_trace e),
         match serialize st with Some b => PlanWrite b "write-back" | None => SerializeFailed end)
  | WriteOnDeactivate =>
      (if pe_sink e then
         match serialize st with Some b => sink_send e b | None => e end
       else e, PlanSkip)
  end.

(** Carrying out the plan: [None] when no durable write was due. *)
Definition execute_plan (plan : PersistPlan) (e : PEnv) : PEnv * option bool :=
  match plan with
  | PlanSkip => (e, None)
  | SerializeFailed => (e, Some false)
  | PlanWrite b _ =>
      match flush_bytes (emit e [PBeforeSave]) b with
      | (e, true) => (sink_send (emit e [PAfterSave]) b, Some true)
      | (e, false) => (e, Some false)
      end
  end.

(** [sequential_loop]; each receive outcome comes with the instant of its turn.  [None] when
    the script ends with the loop still waiting. *)
Fixpoint sequential_loop (strategy : PersistenceStrategy) (fsm : ActivationState) (st : State)
    (rx : list (RecvOutcome State * Z)) (e : PEnv) : option (State * bool * PEnv) :=
  if decide (fsm = Idle) then
    match rx with
    | [] => None
    | (RecvMessage envelope, now) :: rx' =>
        let fsm := ActivationState_next fsm MessageReceived in
        let '(st', res) := envelope st in
        let e := emit e [PHandle st st'] in
        match res with
        | FutPanicked =>
            sequential_loop strategy (ActivationState_next fsm HandlerPanicked) st' rx' e
        | FutOk =>
            let '(e, plan) := prepare_persist strategy now st' e in
            let '(e, persist_result) := execute_plan plan e in
            let fsm :=
              match persist_result with
              | None => ActivationState_next fsm HandlerCompleted
              | Some true =>
                  ActivationState_next (ActivationState_next fsm PersistStarted) PersistSucceeded
              | Some false =>
                  ActivationState_next (ActivationState_next fsm PersistStarted) PersistFailed
              end in
            sequential_loop strategy fsm st' rx' e
        end
    | (RecvClosed, _) :: rx' =>
        sequential_loop strategy (ActivationState_next fsm ChannelClosed) st rx' e
    | (RecvElapsed, _) :: rx' =>
        sequential_loop strategy (ActivationState_next fsm IdleTimeout) st rx' e
    end
  else Some (st, bool_decide (fsm = Faulted), e).

(** What happens inside the [JoinSet] of [reentrant_loop], in order: a task runs its handler
    and serializes under the lock; a task flushes what it serialized. *)
Inductive ReentrantEvent :=
| RHandle (envelope : State → State * FutResult)
| RFlush (task : nat).

Record RLoop := mkRLoop { rl_state : State; rl_pending : list bytes; rl_env : PEnv }.

(** Writing out one task's bytes. *)
Definition reentrant_flush (write_through : bool) (b : bytes) (e : PEnv) : PEnv :=
  let e := if write_through then (flush_bytes e b).1 else e in
  sink_send e b.

Definition reentrant_event (write_through : bool) (l : RLoop) (ev : ReentrantEvent) : RLoop :=
  match ev with
  | RHandle envelope =>
      let '(st', res) := envelope (rl_state l) in
      let e := emit (rl_env l) [PHandle (rl_state l) st'] in
      let pending :=
        match res with
        | FutOk =>
            if write_through || pe_sink e then
              match serialize st' with Some b => rl_pending l ++ [b] | None => rl_pending l end
            else rl_pending l
        | FutPanicked => rl_pending l
        end in
      mkRLoop st' pending e
  | RFlush i =>
      match rl_pending l !! i with
      | Some b =>
          mkRLoop (rl_state l) (take i (rl_pending l) ++ drop (1 + i) (rl_pending l))
            (reentrant_flush write_through b (rl_env l))
      | None => l
      end
  end.

(** [reentrant_loop]: the schedule, then the drain of the remaining tasks. *)
Definition reentrant_loop (strategy : PersistenceStrategy) (st : State)
    (sched : list ReentrantEvent) (e : PEnv) : State * PEnv :=
  let write_through := match strategy with WriteThrough => true | _ => false end in
  let l := foldl (reentrant_event write_through) (mkRLoop st [] e) sched in
  (rl_state l, foldl (λ e b, reentrant_flush write_through b e) (rl_env l) (rl_pending l)).

(** The inbox of an activation: receive outcomes for a sequential grain, a schedule for a
    reentrant one ([G::reentrant()]). *)
Inductive Inbox := InSeq (rx : list (RecvOutcome State * Z)) | InReentrant (sched : list ReentrantEvent).

(** [run_lifecycle] *)
Definition run_lifecycle (strategy : PersistenceStrategy) (start : Z) (st : State) (rx : Inbox)
    (e : PEnv) : option (State * bool * PEnv) :=
  let '(st, res) := on_activate G st in
  let e := emit e [PActivate] in
  match res with
  | FutPanicked => Some (st, true, e)
  | FutOk =>
      '(st, faulted, e) ←
        match rx with
        | InReentrant sched => let '(st, e) := reentrant_loop strategy st sched e in Some (st, false, e)
        | InSeq rx =>
            sequential_loop strategy Idle st rx (mkPEnv (pe_store e) (pe_sink e) start (pe_trace e))
        end;
      if (faulted : bool) then Some (st, true, e)
      else Some ((on_deactivate G st).1, false, emit e [PDeactivate])
  end.

Record RunEnd := mkRunEnd { re_state : State; re_faulted : bool; re_env : PEnv; re_dir : D }.

(** [run] *)
Definition run (strategy : PersistenceStrategy) (start : Z) (rx : Inbox) (store : Sto) (sink : bool)
    (dir : D) : option RunEnd :=
  let '(store, initial) := load_or_default store in
  let e := mkPEnv store sink start [PBeforeLoad; PAfterLoad] in
  '(final, faulted, e) ← run_lifecycle strategy start initial rx e;
  let e :=
    if (faulted : bool) then e
    else
      let e := emit e [PBeforeSave] in
      match serialize final with
      | Some b =>
          match save_with_retry e b with
          | (e, true) => sink_send (emit e [PAfterSave]) b
          | (e, false) => e
          end
      | None => e
      end in
  Some (mkRunEnd final faulted (emit e [PRemove]) (ga_remove dir grain_id)).

(** * Versioned state *)

(** The version metadata codec (bincode) and the grain's migration step. *)
Context (encode_version : Z → option bytes) (decode_version : bytes → option Z).
Context (state_version : Z) (migrate : Z → bytes → result PersistenceError bytes).

(** [version_grain_id] *)
Definition version_grain_id (g : GrainId) : GrainId :=
  mkGrainId (type_name g) (key g +:+ "/__v").

(** The migration loop [for v in stored_version..current_version]. *)
Fixpoint migrate_chain (v : Z) (steps : nat) (b : bytes) : result PersistenceError bytes :=
  match steps with
  | O => Ok b
  | S n => match migrate v b with Err e => Err e | Ok b' => migrate_chain (v + 1) n b' end
  end.

(** [load_versioned_state] *)
Definition load_versioned_state (s : Sto) : Sto * result PersistenceError (option State) :=
  match ss_load s (version_grain_id grain_id) with
  | (s, Err e) => (s, Err e)
  | (s, Ok vb) =>
      match (match vb with
             | Some b => match decode_version b with
                         | Some v => Ok v
                         | None => Err (Deserialization "")
                         end
             | None => Ok 0
             end) with
      | Err e => (s, Err e)
      | Ok stored_version =>
          match ss_load s grain_id with
          | (s, Err e) => (s, Err e)
          | (s, Ok None) => (s, Ok None)
          | (s, Ok (Some state_bytes)) =>
              if bool_decide (state_version < stored_version) then
                (s, Err (Deserialization "cannot downgrade"))
              else
                (s, match migrate_chain stored_version
                            (Z.to_nat (state_version - stored_version)) state_bytes with
                    | Err e => Err e
                    | Ok b => match deserialize b with
                              | Some st => Ok (Some st)
                              | None => Err (Deserialization "")
                              end
                    end)
          end
      end
  end.

(** [run_versioned] *)
Definition run_versioned (strategy : PersistenceStrategy) (start : Z) (rx : Inbox) (store : Sto)
    (dir : D) : option RunEnd :=
  let '(store, loaded) := load_versioned_state store in
  let initial := match loaded with Ok (Some st) => st | _ => grain_default G end in
  let e := mkPEnv store false start [PBeforeLoad; PAfterLoad] in
  '(final, faulted, e) ← run_lifecycle strategy start initial rx e;
  let '(e, state_saved) :=
    if (faulted : bool) then (e, false)
    else
      let e := emit e [PBeforeSave] in
      match serialize final with
      | Some b =>
          match save_with_retry e b with
          | (e, true) => (emit e [PAfterSave], true)
          | (e, false) => (e, false)
          end
      | None => (e, false)
      end in
  let e :=
    if (state_saved : bool) then
      match encode_version state_version with
      | Some vb => with_store e (ss_save (pe_store e) (version_grain_id grain_id) vb).1
      | None => e
      end
    else e in
  Some (mkRunEnd final faulted (emit e [PRemove]) (ga_remove dir grain_id)).
End persistent_mailbox.

(** * Proofs *)
Section durability.
Context {D : Type} `{GrainActivator D} `{!GrainActivatorLaws D}.
Context {Sto : Type} `{StateStore Sto} `{!StateStoreLaws Sto} {State : Type}.
Context (serialize : State → option bytes) (deserialize : bytes → option State).
Context (G : Grain State) (grain_id : GrainId).

Implicit Types (e : PEnv (Sto := Sto) (State := State)) (st : State) (s : Sto).

Abbreviation view e := (ss_view (pe_store e)).
Abbreviation loop := (sequential_loop serialize grain_id).

(** Running handlers one after the other. *)
Definition run_all st (msgs : list ((State → State * FutResult) * Z)) : State :=
  foldl (λ x m, (m.1 x).1) st msgs.

Fixpoint no_panics st (msgs : list ((State → State * FutResult) * Z)) : Prop :=
  match msgs with
  | [] => True
  | m :: msgs' => (m.1 st).2 = FutOk ∧ no_panics (m.1 st).1 msgs'
  end.

(** The receive outcomes of a list of messages. *)
Definition deliver (msgs : list ((State → State * FutResult) * Z))
    : list (RecvOutcome State * Z) := (λ m, (RecvMessage m.1, m.2)) <$> msgs.

(** The state an activation starts from, given the stored bytes. *)
Definition loaded (o : option bytes) : State :=
  match o with
  | Some b => default (grain_default G) (deserialize b)
  | None => grain_default G
  end.

Lemma flush_view e b e' ok :
  flush_bytes grain_id e b = (e', ok) →
  (∀ g, view e' g = if ok && bool_decide (g = grain_id) then Some b else view e g) ∧
  pe_sink e' = pe_sink e ∧
  pe_trace e' = pe_trace e ++ [if ok then PSaved b else PSaveFailed].
Proof.
  unfold flush_bytes. destruct (ss_save _ _ _) as [s' r] eqn:E.
  pose proof (ss_save_view _ _ _ _ _ E) as Hv.
  destruct r; intros [= <- <-]; (split; [exact Hv|done]).
Qed.

Lemma sink_send_view e b g : view (sink_send e b) g = view e g.
Proof. unfold sink_send. by destruct (pe_sink e). Qed.

(** ** One turn under [WriteThrough] *)
Lemma write_through_step st st' m now rx e b :
  m st = (st', FutOk) → serialize st' = Some b →
  ∃ e' (ok : bool),
    loop WriteThrough Idle st ((RecvMessage m, now) :: rx) e =
      (if ok then loop WriteThrough Idle st' rx e' else Some (st', true, e')) ∧
    ok = is_ok (ss_save (pe_store e) grain_id b).2 ∧
    (∀ g, view e' g = if ok && bool_decide (g = grain_id) then Some b else view e g) ∧
    pe_sink e' = pe_sink e ∧
    pe_trace e' = pe_trace e ++ [PHandle st st'; PBeforeSave] ++
                  (if ok then PSaved b :: PAfterSave :: (if pe_sink e then [PSent b] else [])
                   else [PSaveFailed]).
Proof.
  intros Hm Hb. cbn [sequential_loop]. rewrite decide_True by done. rewrite Hm.
  cbn [prepare_persist]. rewrite Hb. cbn [execute_plan].
  destruct (flush_bytes grain_id (emit (emit e [PHandle st st']) [PBeforeSave]) b) as [e1 ok] eqn:E.
  pose proof (flush_view _ _ _ _ E) as (Hv & Hs & Ht).
  assert (ok = is_ok (ss_save (pe_store e) grain_id b).2) as Hok.
  { revert E. unfold flush_bytes. cbn. destruct (ss_save _ _ _) as [s1 []]; by intros [= <- <-]. }
  destruct ok; cbn in *.
  - exists (sink_send (emit e1 [PAfterSave]) b), true. split; [done|]. split; [done|].
    split; [intros g; rewrite sink_send_view; apply Hv|].
    unfold sink_send. cbn. rewrite Hs.
    destruct (pe_sink e); cbn; rewrite Ht; by rewrite <- !app_assoc, ?Hs.
  - exists e1, false. rewrite Ht. rewrite <- !app_assoc. destruct rx; done.
Qed.

(** ** A run of turns *)
Context `{!ReliableStore Sto} (Hser : ∀ st, is_Some (serialize st)).

Lemma flush_reliable e b : ∃ e', flush_bytes grain_id e b = (e', true).
Proof.
  unfold flush_bytes. pose proof (ss_save_ok (pe_store e) grain_id b) as Hok.
  destruct (ss_save _ _ _) as [s' []]; [|done]. by eexists.
Qed.

Lemma turn_ok strategy st st' m now rx e :
  m st = (st', FutOk) →
  ∃ e', loop strategy Idle st ((RecvMessage m, now) :: rx) e = loop strategy Idle st' rx e' ∧
        (∀ g, g ≠ grain_id → view e' g = view e g) ∧
        (strategy = WriteThrough → view e' grain_id = serialize st') ∧
        (strategy = WriteOnDeactivate → view e' grain_id = view e grain_id).
Proof.
  intros Hm. destruct (Hser st') as [b Hb]. cbn [sequential_loop].
  rewrite decide_True by done. rewrite Hm.
  assert (∀ e0 label, ∃ e1, execute_plan grain_id (PlanWrite b label) e0 = (e1, Some true) ∧
            (∀ g, view e1 g = if bool_decide (g = grain_id) then Some b else view e0 g)) as Hexec.
  { intros e0 label. cbn. destruct (flush_reliable (emit e0 [PBeforeSave]) b) as [e1 E].
    rewrite E. destruct (flush_view _ _ _ _ E) as (Hv & _). eexists. split; [done|].
    intros g. rewrite sink_send_view. apply Hv. }
  destruct strategy as [| |interval]; cbn [prepare_persist]; rewrite ?Hb.
  - cbn. eexists. split; [done|]. split_and!; try done; cbn; intros; destruct (pe_sink e); try done.
    all: cbn; by rewrite sink_send_view.
  - destruct (Hexec (emit e [PHandle st st']) "write-through") as (e1 & -> & Hv).
    exists e1. split; [done|].
    split_and!; [|intros _; by rewrite Hv, bool_decide_true|done].
    intros g Hg. by rewrite Hv, bool_decide_false.
  - case_bool_decide; [by eexists|].
    match goal with |- context [execute_plan _ (PlanWrite b _) ?e0] =>
      destruct (Hexec e0 "write-back") as (e1 & -> & Hv) end.
    exists e1. split; [done|]. split_and!; [|done..]. intros g Hg. by rewrite Hv, bool_decide_false.
Qed.

Lemma turns_ok strategy msgs st rest e :
  no_panics st msgs →
  ∃ e', loop strategy Idle st (deliver msgs ++ rest) e =
          loop strategy Idle (run_all st msgs) rest e' ∧
        (∀ g, g ≠ grain_id → view e' g = view e g) ∧
        (strategy = WriteThrough → view e' grain_id =
           if bool_decide (msgs = []) then view e grain_id else serialize (run_all st msgs)) ∧
        (strategy = WriteOnDeactivate → view e' grain_id = view e grain_id).
Proof.
  revert st e. induction msgs as [|[m now] msgs IH]; intros st e; [by exists e|].
  cbn [no_panics fst]. intros [Hok Hn]. destruct (m st) as [st' r] eqn:Hm. cbn in Hok, Hn. subst r.
  destruct (turn_ok strategy st st' m now (deliver msgs ++ rest) e Hm) as (e1 & Hl & Ho & Hw & Hd).
  destruct (IH st' e1 Hn) as (e2 & Hl2 & Ho2 & Hw2 & Hd2).
  assert (run_all st ((m, now) :: msgs) = run_all st' msgs) as ->
    by (unfold run_all; cbn; by rewrite Hm).
  exists e2. split_and!; [exact (eq_trans Hl Hl2)| | |].
  - intros g Hg. by rewrite Ho2, Ho.
  - intros Hs. rewrite Hw2 by done. case_bool_decide; [subst msgs|done].
    by rewrite Hw.
  - intros Hs. by rewrite Hd2, Hd.
Qed.

Lemma loop_stop strategy st r now rest e :
  stops r = true → loop strategy Idle st ((r, now) :: rest) e = Some (st, false, e).
Proof. intros Hr. destruct r; [done|by destruct rest as [|[]]..]. Qed.

Lemma loop_panic strategy st st' m now rest e :
  m st = (st', FutPanicked) →
  loop strategy Idle st ((RecvMessage m, now) :: rest) e =
    Some (st', true, emit e [PHandle st st']).
Proof.
  intros Hm. cbn [sequential_loop]. rewrite decide_True by done. rewrite Hm. by destruct rest as [|[]].
Qed.

(** ** Loading *)
Lemma load_state_reliable s :
  ∃ s', load_state deserialize grain_id s =
          (s', match ss_view s grain_id with
               | Some b => match deserialize b with
                           | Some st => Ok (Some st)
                           | None => Err (Deserialization "")
                           end
               | None => Ok None
               end) ∧
        ∀ g, ss_view s' g = ss_view s g.
Proof.
  unfold load_state. pose proof (ss_load_ok s grain_id) as Hok.
  destruct (ss_load s grain_id) as [s' r] eqn:E. destruct (ss_load_view _ _ _ _ E) as [Hv Hr].
  destruct r as [o|]; [|done]. rewrite <- (Hr o) by done. destruct o; by exists s'.
Qed.

Lemma load_undecodable n s b :
  ss_view s grain_id = Some b → deserialize b = None →
  ∃ s', load_attempts deserialize G grain_id n s = (s', grain_default G) ∧
        ∀ g, ss_view s' g = ss_view s g.
Proof.
  intros Hb Hd. revert s Hb. induction n as [|n IH]; intros s Hb; cbn; [by exists s|].
  destruct (load_state_reliable s) as (s1 & -> & Hv). rewrite Hb, Hd.
  destruct (IH s1) as (s2 & -> & Hv2); [by rewrite Hv|]. exists s2. split; [done|].
  intros g. by rewrite Hv2, Hv.
Qed.

Lemma load_reliable s :
  ∃ s', load_or_default deserialize G grain_id s = (s', loaded (ss_view s grain_id)) ∧
        ∀ g, ss_view s' g = ss_view s g.
Proof.
  unfold load_or_default. destruct (load_state_reliable s) as (s1 & E & Hv).
  destruct (ss_view s grain_id) as [b|] eqn:Hb; cbn [loaded].
  - destruct (deserialize b) as [st|] eqn:Hd.
    + cbn [load_attempts]. rewrite E. by exists s1.
    + destruct (load_undecodable 3 s b Hb Hd) as (s' & -> & Hv'). by exists s'.
  - cbn [load_attempts]. rewrite E. by exists s1.
Qed.

Lemma save_retry_reliable e b :
  ∃ e', save_with_retry grain_id e b = (e', true) ∧
        ∀ g, view e' g = if bool_decide (g = grain_id) then Some b else view e g.
Proof.
  unfold save_with_retry. cbn. destruct (flush_reliable e b) as [e' E]. rewrite E.
  destruct (flush_view _ _ _ _ E) as (Hv & _). by exists e'.
Qed.
(** The lifecycle of an activation whose messages all succeed. *)
Lemma lifecycle_ok strategy start initial msgs r now rest e :
  stops r = true → (on_activate G initial).2 = FutOk →
  no_panics (on_activate G initial).1 msgs →
  ∃ e', run_lifecycle serialize G grain_id strategy start initial
          (InSeq (deliver msgs ++ (r, now) :: rest)) e =
        Some ((on_deactivate G (run_all (on_activate G initial).1 msgs)).1, false, e') ∧
        ∀ g, g ≠ grain_id → view e' g = view e g.
Proof.
  intros Hr Ha Hn. unfold run_lifecycle. destruct (on_activate G initial) as [st res]. cbn in *. subst res.
  match goal with |- context [loop strategy Idle st _ ?e0] =>
    destruct (turns_ok strategy msgs st ((r, now) :: rest) e0 Hn) as (e1 & -> & Ho & _) end.
  rewrite loop_stop by done. cbn. eexists. split; [done|]. intros g Hg. cbn. by rewrite Ho.
Qed.

(** The lifecycle of an activation whose messages succeed until one panics. *)
Lemma lifecycle_fault strategy start initial msgs m now rest e :
  let good := run_all (on_activate G initial).1 msgs in
  (on_activate G initial).2 = FutOk → no_panics (on_activate G initial).1 msgs →
  (m good).2 = FutPanicked →
  ∃ st' e', run_lifecycle serialize G grain_id strategy start initial
              (InSeq (deliver msgs ++ (RecvMessage m, now) :: rest)) e = Some (st', true, e') ∧
    (∀ g, g ≠ grain_id → view e' g = view e g) ∧
    (strategy = WriteThrough → view e' grain_id =
       if bool_decide (msgs = []) then view e grain_id else serialize good) ∧
    (strategy = WriteOnDeactivate → view e' grain_id = view e grain_id).
Proof.
  intros good Ha Hn Hm. unfold run_lifecycle.
  destruct (on_activate G initial) as [st0 res]. cbn in Ha, Hn, good. subst res.
  match goal with |- context [loop strategy Idle st0 _ ?e0] =>
    destruct (turns_ok strategy msgs st0 ((RecvMessage m, now) :: rest) e0 Hn)
      as (e1 & -> & Ho & Hw & Hd) end.
  fold good. destruct (m good) as [st' r'] eqn:Em. cbn in Hm. subst r'.
  rewrite (loop_panic strategy good st' m now rest e1 Em). cbn [mbind option_bind].
  by eexists _, _.
Qed.

(** A graceful run, on every strategy. *)
Lemma run_durable strategy start msgs r now rest (store : Sto) sink (dir : D) :
  (∀ st b, serialize st = Some b → deserialize b = Some st) → stops r = true →
  let initial := loaded (ss_view store grain_id) in
  (on_activate G initial).2 = FutOk → no_panics (on_activate G initial).1 msgs →
  ∃ out, run serialize deserialize G grain_id strategy start
           (InSeq (deliver msgs ++ (r, now) :: rest)) store sink dir = Some out ∧
    re_faulted out = false ∧
    re_state out = (on_deactivate G (run_all (on_activate G initial).1 msgs)).1 ∧
    ss_view (pe_store (re_env out)) grain_id = serialize (re_state out) ∧
    (load_or_default deserialize G grain_id (pe_store (re_env out))).2 = re_state out ∧
    (∀ g, g ≠ grain_id → ss_view (pe_store (re_env out)) g = ss_view store g) ∧
    ga_get_sender (re_dir out) grain_id = None.
Proof.
  intros Hround Hr initial Ha Hn. unfold run. destruct (load_reliable store) as (s1 & -> & Hv1).
  fold initial.
  destruct (lifecycle_ok strategy start initial msgs r now rest
              (mkPEnv s1 sink start [PBeforeLoad; PAfterLoad]) Hr Ha Hn) as (e1 & -> & Ho).
  cbn [mbind option_bind]. set (final := (on_deactivate G _).1). destruct (Hser final) as [b Hb].
  rewrite Hb. destruct (save_retry_reliable (emit e1 [PBeforeSave]) b) as (e2 & -> & Hv2).
  eexists. split; [done|]. cbn [re_faulted re_state re_env re_dir].
  set (out := pe_store _).
  assert (∀ g, ss_view out g = if bool_decide (g = grain_id) then Some b else view e1 g) as Hout.
  { intros g. unfold out. cbn. rewrite sink_send_view. apply Hv2. }
  split_and!; [done|done|by rewrite Hout, bool_decide_true| | |apply ga_remove_get].
  - destruct (load_reliable out) as (s3 & -> & _). cbn. rewrite Hout, bool_decide_true by done.
    cbn. by rewrite (Hround _ _ Hb).
  - intros g Hg. rewrite Hout, bool_decide_false by done. rewrite Ho by done. apply Hv1.
Qed.

(** C7: durability of a graceful activation, for every persistence strategy: starting from the
    stored state (or the default), running messages that do not panic and stopping on a
    closed channel or the idle timeout, the final state (after [on_deactivate]) is in
    the store, the next activation loads exactly it, other grains' data is
    untouched, and the directory entry is gone.  (A state that cannot be decoded counts
    as absent, so it is overwritten by this run.) *)
Theorem persistent_run_durable strategy start msgs r now rest (store : Sto) sink (dir : D) :
  (∀ st b, serialize st = Some b → deserialize b = Some st) → stops r = true →
  let initial := loaded (ss_view store grain_id) in
  (on_activate G initial).2 = FutOk → no_panics (on_activate G initial).1 msgs →
  ∃ out, run serialize deserialize G grain_id strategy start
           (InSeq (deliver msgs ++ (r, now) :: rest)) store sink dir = Some out ∧
    re_faulted out = false ∧
    re_state out = (on_deactivate G (run_all (on_activate G initial).1 msgs)).1 ∧
    ss_view (pe_store (re_env out)) grain_id = serialize (re_state out) ∧
    (load_or_default deserialize G grain_id (pe_store (re_env out))).2 = re_state out ∧
    (∀ g, g ≠ grain_id → ss_view (pe_store (re_env out)) g = ss_view store g) ∧
    ga_get_sender (re_dir out) grain_id = None.
Proof. apply run_durable. Qed.

(** C25: in a grain that is not reentrant, on a store that does not fail, a panicking handler loses at most its own
    turn under [WriteThrough] (and all turns under [WriteOnDeactivate]): the activation faults, the final save is
    skipped, the store keeps the state after the last completed message, which is what the next activation loads, and
    the directory entry is still removed. *)
Theorem fault_keeps_last_good_state strategy start msgs m now rest (store : Sto) sink (dir : D) :
  (∀ st b, serialize st = Some b → deserialize b = Some st) →
  let initial := loaded (ss_view store grain_id) in
  let good := run_all (on_activate G initial).1 msgs in
  (on_activate G initial).2 = FutOk → no_panics (on_activate G initial).1 msgs →
  (m good).2 = FutPanicked → strategy = WriteThrough ∨ strategy = WriteOnDeactivate →
  ∃ out, run serialize deserialize G grain_id strategy start
           (InSeq (deliver msgs ++ (RecvMessage m, now) :: rest)) store sink dir = Some out ∧
    re_faulted out = true ∧
    (load_or_default deserialize G grain_id (pe_store (re_env out))).2 =
      (if bool_decide (strategy = WriteThrough ∧ msgs ≠ []) then good else initial) ∧
    (∀ g, g ≠ grain_id → ss_view (pe_store (re_env out)) g = ss_view store g) ∧
    ga_get_sender (re_dir out) grain_id = None.
Proof.
  intros Hround initial good Ha Hn Hm Hs. unfold run.
  destruct (load_reliable store) as (s1 & -> & Hv1). fold initial.
  destruct (lifecycle_fault strategy start initial msgs m now rest
              (mkPEnv s1 sink start [PBeforeLoad; PAfterLoad]) Ha Hn Hm)
    as (st' & e1 & -> & Ho & Hw & Hd). fold good in Hw.
  cbn [mbind option_bind]. eexists. split; [done|].
  cbn [re_faulted re_state re_env re_dir pe_store emit].
  split_and!; [done| | |apply ga_remove_get].
  - destruct (load_reliable (pe_store e1)) as (s3 & -> & _). cbn.
    destruct Hs as [->| ->].
    + rewrite Hw by done. cbn. case_bool_decide as Hmsgs.
      * rewrite bool_decide_false by naive_solver. by rewrite Hv1.
      * rewrite bool_decide_true by done. destruct (Hser good) as [b Hb].
        rewrite Hb. cbn. by rewrite (Hround _ _ Hb).
    + rewrite Hd by done. rewrite bool_decide_false by naive_solver. cbn. by rewrite Hv1.
  - intros g Hg. rewrite Ho by done. apply Hv1.
Qed.
(** One turn under [WriteThrough], on every branch.  A panic or a state that does not
    serialize faults the activation without touching the store; a failed save faults
    it with the content unchanged; a successful one continues with the new state
    stored (and sent to the replication sink).  In each case the handler, and with
    it the reply to the caller, is complete before the write is attempted. *)
Theorem write_through_turn st m now rx e :
  let st' := (m st).1 in
  let turn := loop WriteThrough Idle st ((RecvMessage m, now) :: rx) e in
  ((m st).2 = FutPanicked → turn = Some (st', true, emit e [PHandle st st'])) ∧
  ((m st).2 = FutOk → serialize st' = None → turn = Some (st', true, emit e [PHandle st st'])) ∧
  (∀ b, (m st).2 = FutOk → serialize st' = Some b →
     let ok := is_ok (ss_save (pe_store e) grain_id b).2 in
     ∃ e', turn = (if ok then loop WriteThrough Idle st' rx e' else Some (st', true, e')) ∧
       (∀ g, view e' g = if ok && bool_decide (g = grain_id) then Some b else view e g) ∧
       pe_trace e' = pe_trace e ++ [PHandle st st'; PBeforeSave] ++
                     (if ok then PSaved b :: PAfterSave :: (if pe_sink e then [PSent b] else [])
                      else [PSaveFailed])).
Proof.
  intros st' turn. destruct (m st) as [s1 res] eqn:Hm. cbn in st'. subst st'. split_and!.
  - cbn [snd]. intros ->. by apply loop_panic.
  - cbn [snd fst]. intros -> Hs. unfold turn. cbn [sequential_loop]. rewrite decide_True by done.
    rewrite Hm. cbn [prepare_persist]. rewrite Hs. by destruct rx as [|[]].
  - cbn [snd fst]. intros b -> Hb.
    destruct (write_through_step st s1 m now rx e b Hm Hb) as (e' & ok & H1 & -> & H2 & _ & H3).
    by exists e'.
Qed.
End durability.

(** * Instances: a grain whose state is a byte log *)
Definition log_grain : Grain bytes := {|
  grain_default := [];
  on_activate := λ s, (s, FutOk);
  on_deactivate := λ s, (s, FutOk) |}.
Definition append_msg (b : Byte.byte) : bytes → bytes * FutResult := λ s, (s ++ [b], FutOk).
Definition crash_msg : bytes → bytes * FutResult := λ s, (s ++ [Byte.xff], FutPanicked).

Lemma log_serializable (st : bytes) : is_Some (Some st).
Proof. by eexists. Defined.
Lemma log_roundtrip (st b : bytes) : Some st = Some b → Some b = Some st.
Proof. done. Defined.

Lemma persistent_run_durable_witness :
  ∃ out, run Some Some log_grain grain_x WriteThrough 0
           (InSeq (deliver [(append_msg Byte.x01, 1); (append_msg Byte.x02, 2)]
                   ++ [(RecvElapsed, 3)])) InMemoryStateStore_new false (mkFake ∅) = Some out ∧
         ss_view (pe_store (re_env out)) grain_x = Some [Byte.x01; Byte.x02].
Proof.
  destruct (persistent_run_durable Some Some log_grain grain_x log_serializable WriteThrough 0
              [(append_msg Byte.x01, 1); (append_msg Byte.x02, 2)] RecvElapsed 3 []
              InMemoryStateStore_new false (mkFake ∅) log_roundtrip eq_refl eq_refl)
    as (out & H1 & _ & H2 & H3 & _).
  - repeat split.
  - exists out. split; [exact H1|]. rewrite H3, H2. reflexivity.
Defined.

Lemma fault_keeps_last_good_state_witness :
  ∃ out, run Some Some log_grain grain_x WriteThrough 0
           (InSeq (deliver [(append_msg Byte.x01, 1)] ++ [(RecvMessage crash_msg, 2)]))
           InMemoryStateStore_new false (mkFake ∅) = Some out ∧
         (load_or_default Some log_grain grain_x (pe_store (re_env out))).2 = [Byte.x01].
Proof.
  destruct (fault_keeps_last_good_state Some Some log_grain grain_x log_serializable WriteThrough 0
              [(append_msg Byte.x01, 1)] crash_msg 2 []
              InMemoryStateStore_new false (mkFake ∅) log_roundtrip eq_refl)
    as (out & H1 & _ & H2 & _).
  - repeat split.
  - reflexivity.
  - left. reflexivity.
  - exists out. split; [exact H1|]. rewrite H2. reflexivity.
Defined.

Lemma write_through_turn_witness :
  let e := mkPEnv InMemoryStateStore_new false 0 [] in
  sequential_loop Some grain_x WriteThrough Idle [] [(RecvMessage crash_msg, 1)] e =
    Some ([Byte.xff], true, emit e [PHandle [] [Byte.xff]]).
Proof.
  intros e. destruct (write_through_turn Some grain_x [] crash_msg 1 [] e) as [H1 _].
  apply H1. reflexivity.
Defined.

(** * Versioned state *)
Lemma str_app_ne k t : t ≠ "" → k +:+ t ≠ k.
Proof.
  intros Ht. induction k as [|c k IH]; [by rewrite str_app_nil_l|].
  rewrite str_app_cons. intros [= Heq]. done.
Qed.

(** [migrate_state], with the bincode codecs of the two schemas. *)
Definition migrate_state {Old New} (decode : bytes → option Old) (encode : New → option bytes)
    (transform : Old → New) (b : bytes) : result PersistenceError bytes :=
  old ← ok_or (Deserialization "") (decode b);
  ok_or (Serialization "") (encode (transform old)).

Section versioned.
Context {D : Type} `{GrainActivator D} `{!GrainActivatorLaws D}.
Context {Sto : Type} `{StateStore Sto} `{!StateStoreLaws Sto} `{!ReliableStore Sto} {State : Type}.
Context (serialize : State → option bytes) (deserialize : bytes → option State).
Context (G : Grain State) (grain_id : GrainId).
Context (encode_version : Z → option bytes) (decode_version : bytes → option Z).
Context (state_version : Z) (migrate : Z → bytes → result PersistenceError bytes).
Context (Hser : ∀ st, is_Some (serialize st)).

Implicit Types (s : Sto).

Abbreviation load_versioned :=
  (load_versioned_state deserialize grain_id decode_version state_version migrate).

(** The version recorded next to the state ([None]: undecodable). *)
Definition stored_version s : option Z :=
  match ss_view s (version_grain_id grain_id) with
  | Some b => decode_version b
  | None => Some 0
  end.

Lemma version_id_ne : version_grain_id grain_id ≠ grain_id.
Proof.
  intros Heq. apply (f_equal key) in Heq. cbn in Heq. by apply str_app_ne in Heq.
Qed.

(** Loading in terms of the store's content. *)
Lemma load_versioned_spec s v b :
  stored_version s = Some v → ss_view s grain_id = Some b →
  ∃ s', load_versioned s =
    (s', if bool_decide (state_version < v) then Err (Deserialization "cannot downgrade")
         else match migrate_chain migrate v (Z.to_nat (state_version - v)) b with
              | Err e => Err e
              | Ok b' => match deserialize b' with
                         | Some st => Ok (Some st)
                         | None => Err (Deserialization "")
                         end
              end) ∧ ∀ g, ss_view s' g = ss_view s g.
Proof.
  unfold stored_version, load_versioned_state. intros Hv Hb.
  pose proof (ss_load_ok s (version_grain_id grain_id)) as Hok.
  destruct (ss_load s (version_grain_id grain_id)) as [s1 r1] eqn:E1.
  destruct (ss_load_view _ _ _ _ E1) as [Hv1 Hr1]. destruct r1 as [o|]; [|done].
  rewrite (Hr1 o eq_refl).
  assert (match ss_view s (version_grain_id grain_id) with
          | Some b0 => match decode_version b0 with
                       | Some v0 => Ok v0
                       | None => Err (Deserialization "")
                       end
          | None => Ok 0
          end = Ok v) as ->.
  { destruct (ss_view s (version_grain_id grain_id)); [by rewrite Hv|by simplify_eq]. }
  pose proof (ss_load_ok s1 grain_id) as Hok2.
  destruct (ss_load s1 grain_id) as [s2 r2] eqn:E2.
  destruct (ss_load_view _ _ _ _ E2) as [Hv2 Hr2]. destruct r2 as [o2|]; [|done].
  rewrite (Hr2 o2 eq_refl), Hv1, Hb. exists s2.
  split; [by case_bool_decide|]. intros g. by rewrite Hv2, Hv1.
Qed.

(** [repr v b st]: the bytes [b] are the version-[v] encoding of [st]. *)
Context (repr : Z → bytes → State → Prop).

Lemma migrate_chain_repr n v b st :
  (∀ v b st, v < state_version → repr v b st → ∃ b', migrate v b = Ok b' ∧ repr (v + 1) b' st) →
  v + Z.of_nat n ≤ state_version → repr v b st →
  ∃ b', migrate_chain migrate v n b = Ok b' ∧ repr (v + Z.of_nat n) b' st.
Proof.
  intros Hm. revert v b. induction n as [|n IH]; intros v b Hle Hr; cbn.
  - exists b. split; [done|]. by rewrite Z.add_0_r.
  - destruct (Hm v b st) as (b1 & -> & Hr1); [lia|done|].
    destruct (IH (v + 1) b1) as (b2 & -> & Hr2); [lia|done|].
    exists b2. split; [done|]. by replace (v + Z.of_nat (S n)) with (v + 1 + Z.of_nat n) by lia.
Qed.

(** Schema migration on load: if each migration step maps the encoding of a state at one
    version to its encoding at the next, loading a state stored at any older or equal
    version yields exactly that state; a state stored by a newer version is refused. *)
Theorem versioned_load_migrates s v b st :
  (∀ v b st, v < state_version → repr v b st → ∃ b', migrate v b = Ok b' ∧ repr (v + 1) b' st) →
  (∀ b st, repr state_version b st → deserialize b = Some st) →
  stored_version s = Some v → ss_view s grain_id = Some b → repr v b st →
  (v ≤ state_version → (load_versioned s).2 = Ok (Some st)) ∧
  (state_version < v → is_ok (load_versioned s).2 = false).
Proof.
  intros Hm Hd Hv Hb Hr. destruct (load_versioned_spec s v b Hv Hb) as (s' & -> & _). cbn. split.
  - intros Hle. rewrite bool_decide_false by lia.
    destruct (migrate_chain_repr (Z.to_nat (state_version - v)) v b st Hm) as (b' & -> & Hr'); [lia|done|].
    replace (v + Z.of_nat (Z.to_nat (state_version - v))) with state_version in Hr' by lia.
    by rewrite (Hd _ _ Hr').
  - intros Hlt. by rewrite bool_decide_true.
Qed.

(** A faulted versioned activation under [WriteThrough] leaves the store inconsistent: its
    turns have stored the state in the current format, but the version record, which is only
    written by a graceful stop, still names the old version.  The next load runs the
    migrations again, over bytes already in the current format. *)
Theorem versioned_fault_remigrates start msgs m now rest (store : Sto) (dir : D) v st0 :
  stored_version store = Some v → (load_versioned store).2 = Ok (Some st0) → v < state_version →
  is_Some (ss_view store grain_id) →
  let good := run_all (on_activate G st0).1 msgs in
  (on_activate G st0).2 = FutOk → no_panics (on_activate G st0).1 msgs → msgs ≠ [] →
  (m good).2 = FutPanicked →
  ∃ out b, run_versioned serialize deserialize G grain_id encode_version decode_version
             state_version migrate WriteThrough start
             (InSeq (deliver msgs ++ (RecvMessage m, now) :: rest)) store dir = Some out ∧
    serialize good = Some b ∧ ss_view (pe_store (re_env out)) grain_id = Some b ∧
    stored_version (pe_store (re_env out)) = Some v ∧
    (load_versioned (pe_store (re_env out))).2 =
      match migrate_chain migrate v (Z.to_nat (state_version - v)) b with
      | Err e => Err e
      | Ok b' => match deserialize b' with
                 | Some st => Ok (Some st)
                 | None => Err (Deserialization "")
                 end
      end.
Proof.
  intros Hv Hl Hlt [b0 Hb0] good Ha Hn Hne Hm. unfold run_versioned.
  destruct (load_versioned_spec store v b0 Hv Hb0) as (s1 & E1 & Hv1).
  rewrite E1 in Hl |- *. cbn [snd] in Hl. rewrite Hl.
  destruct (lifecycle_fault serialize G grain_id Hser WriteThrough start st0 msgs m now rest
              (mkPEnv s1 false start [PBeforeLoad; PAfterLoad]) Ha Hn Hm)
    as (st' & e1 & -> & Ho & Hw & _). fold good in Hw.
  destruct (Hser good) as [b Hb]. cbn [mbind option_bind]. eexists _, b. split; [done|].
  cbn [re_env pe_store emit].
  assert (ss_view (pe_store e1) grain_id = Some b) as Hview
    by (rewrite Hw by done; by rewrite bool_decide_false).
  assert (stored_version (pe_store e1) = Some v) as Hver.
  { unfold stored_version. rewrite Ho by apply version_id_ne. cbn. rewrite Hv1. exact Hv. }
  split_and!; [done|done|done|].
  destruct (load_versioned_spec (pe_store e1) v b Hver Hview) as (s3 & -> & _).
  cbn. by rewrite bool_decide_false by lia.
Qed.
End versioned.

(** A schema whose second version adds a leading tag byte. *)
Definition tag_serialize (st : bytes) : option bytes := Some (Byte.x01 :: st).
Definition tag_deserialize (b : bytes) : option bytes :=
  match b with Byte.x01 :: st => Some st | _ => None end.
Definition tag_migrate (v : Z) (b : bytes) : result PersistenceError bytes :=
  if bool_decide (v = 1) then Ok (Byte.x01 :: b) else Err (Deserialization "unknown version").
Definition tag_repr (v : Z) (b st : bytes) : Prop :=
  (v = 1 ∧ b = st) ∨ (v = 2 ∧ b = Byte.x01 :: st).
Definition tag_encode_version (v : Z) : option bytes :=
  if bool_decide (v = 1) then Some [Byte.x01]
  else if bool_decide (v = 2) then Some [Byte.x02] else None.
Definition tag_decode_version (b : bytes) : option Z :=
  match b with [Byte.x01] => Some 1 | [Byte.x02] => Some 2 | _ => None end.

(** A store written by version 1. *)
Definition tag_store : InMemoryStateStore :=
  (ss_save (ss_save InMemoryStateStore_new grain_x [Byte.x0a]).1
     (version_grain_id grain_x) [Byte.x01]).1.

Lemma tag_migrate_repr v b st :
  v < 2 → tag_repr v b st → ∃ b', tag_migrate v b = Ok b' ∧ tag_repr (v + 1) b' st.
Proof.
  intros Hv [[-> ->]|[-> ->]]; [|lia]. exists (Byte.x01 :: st).
  split; [done|]. by right.
Qed.
Lemma tag_repr_deserialize b st : tag_repr 2 b st → tag_deserialize b = Some st.
Proof. intros [[? ?]|[_ ->]]; [lia|done]. Qed.
Lemma tag_serializable (st : bytes) : is_Some (tag_serialize st).
Proof. by eexists. Qed.

Lemma versioned_load_migrates_witness :
  (load_versioned_state tag_deserialize grain_x tag_decode_version 2 tag_migrate tag_store).2 =
    Ok (Some [Byte.x0a]).
Proof.
  apply (versioned_load_migrates tag_deserialize grain_x tag_decode_version 2 tag_migrate tag_repr
           tag_store 1 [Byte.x0a] [Byte.x0a]).
  - exact tag_migrate_repr.
  - exact tag_repr_deserialize.
  - vm_compute. reflexivity.
  - vm_compute. reflexivity.
  - left. split; reflexivity.
  - discriminate.
Defined.

Lemma versioned_fault_remigrates_witness :
  ∃ out, run_versioned tag_serialize tag_deserialize log_grain grain_x tag_encode_version
           tag_decode_version 2 tag_migrate WriteThrough 0
           (InSeq (deliver [(append_msg Byte.x0b, 1)] ++ [(RecvMessage crash_msg, 2)]))
           tag_store (mkFake ∅) = Some out ∧
         (load_versioned_state tag_deserialize grain_x tag_decode_version 2 tag_migrate
            (pe_store (re_env out))).2 = Ok (Some [Byte.x01; Byte.x0a; Byte.x0b]).
Proof.
  destruct (versioned_fault_remigrates tag_serialize tag_deserialize log_grain grain_x
              tag_encode_version tag_decode_version 2 tag_migrate tag_serializable 0
              [(append_msg Byte.x0b, 1)] crash_msg 2 [] tag_store (mkFake ∅) 1 [Byte.x0a])
    as (out & b & H1 & H2 & _ & _ & H3).
  - vm_compute. reflexivity.
  - vm_compute. reflexivity.
  - reflexivity.
  - vm_compute. eexists. reflexivity.
  - reflexivity.
  - repeat split.
  - discriminate.
  - reflexivity.
  - exists out. split; [exact H1|]. rewrite H3. injection H2 as <-. reflexivity.
Defined.

(** * Reentrant write-through *)

(** Reentrant grains: under [WriteThrough] the store can fall behind the memory state.  Two
    concurrent handlers serialize in lock order but may flush in the opposite order,
    after which the store holds the older state until the final save of a
    graceful stop. *)
Theorem reentrant_flush_can_regress {Sto} `{StateStoreLaws Sto} `{!ReliableStore Sto} {State}
    (serialize : State → option bytes) grain_id st m1 m2 st1 st2 b1 b2 (e : PEnv (Sto := Sto)) :
  m1 st = (st1, FutOk) → m2 st1 = (st2, FutOk) →
  serialize st1 = Some b1 → serialize st2 = Some b2 →
  let r := reentrant_loop serialize grain_id WriteThrough st
             [RHandle m1; RHandle m2; RFlush 1; RFlush 0] e in
  r.1 = st2 ∧ ss_view (pe_store r.2) grain_id = Some b1.
Proof.
  intros H1 H2 Hb1 Hb2. unfold reentrant_loop. cbn. rewrite H1. cbn. rewrite Hb1. cbn.
  rewrite H2. cbn. rewrite Hb2. cbn.
  set (e2 := emit (emit e _) _). unfold reentrant_flush. cbn.
  destruct (flush_reliable grain_id e2 b2) as [e3 E3]. rewrite E3. cbn.
  destruct (flush_reliable grain_id (sink_send e3 b2) b1) as [e4 E4]. rewrite E4. cbn.
  split; [done|]. rewrite sink_send_view. destruct (flush_view _ _ _ _ _ E4) as (Hv & _).
  by rewrite Hv, bool_decide_true.
Qed.

Lemma reentrant_flush_can_regress_witness :
  ss_view (pe_store (reentrant_loop Some grain_x WriteThrough []
                       [RHandle (append_msg Byte.x01); RHandle (append_msg Byte.x02); RFlush 1; RFlush 0]
                       (mkPEnv InMemoryStateStore_new false 0 [])).2) grain_x = Some [Byte.x01].
Proof.
  apply (reentrant_flush_can_regress Some grain_x [] (append_msg Byte.x01) (append_msg Byte.x02)
           [Byte.x01] [Byte.x01; Byte.x02] [Byte.x01] [Byte.x01; Byte.x02]); reflexivity.
Defined.
