(* ===== verification/Journal.v ===== *)
(** Event sourcing in [orlando-persistence]: the journal interface ([journal_store.rs]), the
    in-memory journal ([memory_journal_store.rs]), the journaled turn of
    [JournaledGrainRef::ask] ([persistent_silo.rs]) and the journaled mailbox
    ([journaled_mailbox.rs]). *)
From S2P Require Import Prelude CoreTypes Mailbox Calls Store.

Record JournalEntry := mkJEntry { je_sequence : Z; je_event_bytes : bytes }.

(** * The interface.  [js_events] and [js_snapshot] are the observable content. *)
Class JournalStore (J : Type) := {
  js_append : J → GrainId → list bytes → J * result PersistenceError Z;
  js_load_events : J → GrainId → result PersistenceError (list JournalEntry);
  js_load_events_after : J → GrainId → Z → result PersistenceError (list JournalEntry);
  js_save_snapshot : J → GrainId → Z → bytes → J * result PersistenceError unit;
  js_load_snapshot : J → GrainId → result PersistenceError (option (Z * bytes));
  js_events : J → GrainId → list JournalEntry;
  js_snapshot : J → GrainId → option (Z * bytes) }.

(** The entries an append of [bs] after sequence number [seq] adds. *)
Fixpoint number_events (seq : Z) (bs : list bytes) : list JournalEntry :=
  match bs with
  | [] => []
  | b :: bs' => mkJEntry (u64_add seq 1) b :: number_events (u64_add seq 1) bs'
  end.

(** The sequence number of the last entry, zero for an empty journal. *)
Definition last_sequence (es : list JournalEntry) : Z :=
  match last es with Some e => je_sequence e | None => 0 end.

(** What the journaled mailbox relies on. *)
Class JournalStoreLaws (J : Type) `{JournalStore J} : Prop := {
  js_append_content : ∀ j g bs j' r, js_append j g bs = (j', r) →
    (∀ g', js_snapshot j' g' = js_snapshot j g') ∧
    js_events j' g = (if is_ok r then js_events j g ++ number_events (last_sequence (js_events j g)) bs
                      else js_events j g) ∧
    (∀ seq, r = Ok seq → seq = last_sequence (js_events j' g));
  js_load_after_content : ∀ j g seq es, js_load_events_after j g seq = Ok es →
    es = filter (λ e, seq < je_sequence e) (js_events j g);
  js_save_snapshot_content : ∀ j g seq b j' r, js_save_snapshot j g seq b = (j', r) →
    js_events j' g = js_events j g ∧
    js_snapshot j' g = (if is_ok r then Some (seq, b) else js_snapshot j g);
  js_load_snapshot_content : ∀ j g o, js_load_snapshot j g = Ok o → o = js_snapshot j g }.

Class ReliableJournal (J : Type) `{JournalStore J} : Prop := {
  js_append_ok : ∀ j g bs, is_ok (js_append j g bs).2 = true;
  js_load_after_ok : ∀ j g seq, is_ok (js_load_events_after j g seq) = true;
  js_load_snapshot_ok : ∀ j g, is_ok (js_load_snapshot j g) = true }.

(** * The in-memory journal *)
Record GrainJournal := mkGJ { gj_events : list JournalEntry; gj_snapshot : option (Z * bytes) }.
Record InMemoryJournalStore := mkMemJ { memj_data : gmap GrainId GrainJournal }.

Definition InMemoryJournalStore_new : InMemoryJournalStore := mkMemJ ∅.
Definition empty_journal : GrainJournal := mkGJ [] None.

(** The push loop of [append]; returns the final sequence number. *)
Fixpoint append_loop (es : list JournalEntry) (seq : Z) (bs : list bytes)
    : list JournalEntry * Z :=
  match bs with
  | [] => (es, seq)
  | b :: bs' => append_loop (es ++ [mkJEntry (u64_add seq 1) b]) (u64_add seq 1) bs'
  end.

Definition InMemoryJournalStore_append (s : InMemoryJournalStore) (g : GrainId) (bs : list bytes)
    : InMemoryJournalStore * result PersistenceError Z :=
  let journal := default empty_journal (memj_data s !! g) in
  let '(es, seq) := append_loop (gj_events journal) (last_sequence (gj_events journal)) bs in
  (mkMemJ (<[g := mkGJ es (gj_snapshot journal)]> (memj_data s)), Ok seq).

Definition InMemoryJournalStore_load_events (s : InMemoryJournalStore) (g : GrainId)
    : result PersistenceError (list JournalEntry) :=
  Ok (default [] (gj_events <$> memj_data s !! g)).

Definition InMemoryJournalStore_load_events_after (s : InMemoryJournalStore) (g : GrainId)
    (after_sequence : Z) : result PersistenceError (list JournalEntry) :=
  Ok (default [] ((λ j, filter (λ e, after_sequence < je_sequence e) (gj_events j))
                    <$> memj_data s !! g)).

Definition InMemoryJournalStore_save_snapshot (s : InMemoryJournalStore) (g : GrainId)
    (sequence : Z) (b : bytes) : InMemoryJournalStore * result PersistenceError unit :=
  let journal := default empty_journal (memj_data s !! g) in
  (mkMemJ (<[g := mkGJ (gj_events journal) (Some (sequence, b))]> (memj_data s)), Ok ()).

Definition InMemoryJournalStore_load_snapshot (s : InMemoryJournalStore) (g : GrainId)
    : result PersistenceError (option (Z * bytes)) := Ok (memj_data s !! g ≫= gj_snapshot).

#[global] Instance InMemoryJournalStore_journal : JournalStore InMemoryJournalStore := {|
  js_append := InMemoryJournalStore_append;
  js_load_events := InMemoryJournalStore_load_events;
  js_load_events_after := InMemoryJournalStore_load_events_after;
  js_save_snapshot := InMemoryJournalStore_save_snapshot;
  js_load_snapshot := InMemoryJournalStore_load_snapshot;
  js_events s g := default [] (gj_events <$> memj_data s !! g);
  js_snapshot s g := memj_data s !! g ≫= gj_snapshot |}.

(** * The journaled turn and mailbox *)
Section journaled.
Context {D : Type} `{GrainActivator D} {J : Type} `{JournalStore J} {State Event : Type}.
(** bincode for events and for snapshots. *)
Context (encode_event : Event → option bytes) (decode_event : bytes → option Event).
Context (serialize : State → option bytes) (deserialize : bytes → option State).
(** [JournaledGrain::apply], lifecycle hooks, [snapshot_interval]. *)
Context (apply_event : State → Event → State) (G : Grain State) (snapshot_interval : Z).
Context (grain_id : GrainId).

(** [JournaledState] *)
Record JournaledState := mkJS {
  jst_state : State; jst_sequence : Z; jst_events_since_snapshot : Z }.

(** [load_state]: the snapshot, then the events after it. *)
Definition replay (st : State) (seq : Z) (es : list JournalEntry) : State * Z :=
  foldl (λ '(st, seq) e,
           match decode_event (je_event_bytes e) with
           | Some ev => (apply_event st ev, je_sequence e)
           | None => (st, seq)
           end) (st, seq) es.

Definition journal_load_state (j : J) : State * Z :=
  let '(st, seq) :=
    match js_load_snapshot j grain_id with
    | Ok (Some (seq, b)) =>
        match deserialize b with Some st => (st, seq) | None => (grain_default G, 0) end
    | Ok None => (grain_default G, 0)
    | Err _ => (grain_default G, 0)
    end in
  let es := match js_load_events_after j grain_id seq with Ok es => es | Err _ => [] end in
  replay st seq es.

(** The snapshot check at the end of a turn. *)
Definition snapshot_if_due (js : JournaledState) (j : J) : JournaledState * J :=
  if bool_decide (0 < snapshot_interval)
     && bool_decide (snapshot_interval ≤ jst_events_since_snapshot js) then
    match serialize (jst_state js) with
    | Some b =>
        match js_save_snapshot j grain_id (jst_sequence js) b with
        | (j, Ok _) => (mkJS (jst_state js) (jst_sequence js) 0, j)
        | (j, Err _) => (js, j)
        end
    | None => (js, j)
    end
  else (js, j).

(** The envelope of [JournaledGrainRef::ask] on the expected state type: [handle] is
    [JournaledHandler::handle] on this message. *)
Definition journaled_turn {R : Type} (handle : State → R * list Event) (js : JournaledState) (j : J)
    : JournaledState * J * R :=
  let '(result, events) := handle (jst_state js) in
  match events with
  | [] => (js, j, result)
  | _ =>
      let event_bytes_list := omap encode_event events in
      let '(js, j) :=
        match event_bytes_list with
        | [] => (js, j)
        | _ =>
            match js_append j grain_id event_bytes_list with
            | (j, Ok new_seq) =>
                (mkJS (jst_state js) new_seq
                   (u64_add (jst_events_since_snapshot js)
                      (Z.of_nat (length event_bytes_list))), j)
            | (j, Err _) => (js, j)
            end
        end in
      let js := mkJS (foldl apply_event (jst_state js) events) (jst_sequence js)
                  (jst_events_since_snapshot js) in
      let '(js, j) := snapshot_if_due js j in
      (js, j, result)
  end.

(** [JournaledGrainRef::ask] as the caller sees it. *)
Definition journaled_reply {R : Type} (o : Oneshot (result string R)) (timeout : Z)
    : result GrainError R :=
  match o with
  | Elapsed => Err (Timeout timeout)
  | SenderDropped => Err MailboxClosed
  | Replied None => Err ReplyTypeMismatch
  | Replied (Some (Ok r)) => Ok r
  | Replied (Some (Err e)) => Err (HandlerFailed e)
  end.

(** A message of the journaled mailbox acts on the journaled state and the journal. *)
Definition journaled_envelope {R : Type} (handle : State → option (R * list Event))
    : JournaledState * J → (JournaledState * J) * FutResult :=
  λ '(js, j),
    match handle (jst_state js) with
    | None => ((js, j), FutPanicked)
    | Some r => (fst (journaled_turn (λ _, r) js j), FutOk)
    end.

(** The envelope with its reply, as [JournaledGrainRef::ask] builds it; [state_any] is [None] when the
    state has another type, and a handler that panics drops the reply. *)
Definition journaled_ask_envelope {R : Type} (handle : State → option (R * list Event))
    (state_any : option JournaledState) (j : J) : option JournaledState * J * Oneshot (result string R) :=
  match state_any with
  | None => (None, j, Replied (Some (Err "journaled grain state type mismatch")))
  | Some js =>
      match handle (jst_state js) with
      | None => (Some js, j, SenderDropped)
      | Some r => let '(js, j, res) := journaled_turn (λ _, r) js j in (Some js, j, Replied (Some (Ok res)))
      end
  end.

(** [JournaledGrainRef::ask]; [late] says whether the reply misses the timeout. *)
Definition JournaledGrainRef_ask {R : Type} (handle : State → option (R * list Event)) (mailbox_open late : bool)
    (timeout : Z) (state_any : option JournaledState) (j : J) : option JournaledState * J * result GrainError R :=
  if mailbox_open then
    let '(st, j, reply) := journaled_ask_envelope handle state_any j in
    (st, j, journaled_reply (if late then Elapsed else reply) timeout)
  else (state_any, j, Err MailboxClosed).

(** [journaled_mailbox::run]; the loop is the mailbox loop on state and journal. *)
Definition journaled_run (rx : list (RecvOutcome (JournaledState * J))) (j : J) (dir : D)
    : option (ActivationState * JournaledState * J * D) :=
  let '(st, seq) := journal_load_state j in
  let '(st, res) := on_activate G st in
  let fsm := ActivationState_next Activating
    (match res with FutOk => ActivateSucceeded | FutPanicked => ActivateFailed end) in
  '(fsm, (js, j), _) ← mailbox_loop fsm (mkJS st seq 0, j) rx;
  let '(fsm, js, j) :=
    match fsm with
    | Draining =>
        let fsm := ActivationState_next fsm DrainComplete in
        let js := mkJS (on_deactivate G (jst_state js)).1 (jst_sequence js)
                    (jst_events_since_snapshot js) in
        let j :=
          match serialize (jst_state js) with
          | Some b => (js_save_snapshot j grain_id (jst_sequence js) b).1
          | None => j
          end in
        (ActivationState_next fsm DeactivateComplete, js, j)
    | Faulted => (ActivationState_next fsm DeactivateComplete, js, j)
    | other => (other, js, j)
    end in
  Some (fsm, js, j, ga_remove dir grain_id).
End journaled.

(** * The in-memory journal satisfies the interface *)

Lemma append_loop_spec bs es seq :
  append_loop es seq bs =
    (es ++ number_events seq bs,
     match last (number_events seq bs) with Some e => je_sequence e | None => seq end).
Proof.
  revert es seq. induction bs as [|b bs IH]; intros es seq; cbn; [by rewrite app_nil_r|].
  rewrite IH, <- app_assoc, last_cons. f_equal. by destruct (last _).
Qed.

Lemma last_sequence_app es es' :
  last_sequence (es ++ es') = match last es' with Some e => je_sequence e | None => last_sequence es end.
Proof. unfold last_sequence. rewrite last_app. by destruct (last es'). Qed.

#[global] Instance InMemoryJournalStore_laws : JournalStoreLaws InMemoryJournalStore.
Proof.
  split; cbn.
  - intros j g bs j' r. unfold InMemoryJournalStore_append. rewrite append_loop_spec.
    intros [= <- <-]. cbn. split_and!.
    + intros g'. destruct (decide (g = g')) as [<-|]; [rewrite lookup_insert_eq|by rewrite lookup_insert_ne].
      by destruct (memj_data j !! g).
    + rewrite lookup_insert_eq. cbn. by destruct (memj_data j !! g).
    + intros seq [= <-]. rewrite lookup_insert_eq. cbn. by rewrite last_sequence_app.
  - intros j g seq es [= <-]. by destruct (memj_data j !! g).
  - intros j g seq b j' r [= <- <-]. cbn. rewrite lookup_insert_eq. cbn.
    by destruct (memj_data j !! g).
  - by intros j g o [= <-].
Qed.

#[global] Instance InMemoryJournalStore_reliable : ReliableJournal InMemoryJournalStore.
Proof.
  split; try done. intros j g bs. cbn. unfold InMemoryJournalStore_append.
  by destruct (append_loop _ _ _).
Qed.

(** * Numbering *)
Lemma length_number seq bs : length (number_events seq bs) = length bs.
Proof. revert seq. induction bs as [|b bs IH]; intros seq; cbn; [done|]. by rewrite IH. Qed.

Lemma number_step seq (bs : list bytes) :
  0 ≤ seq → seq + Z.of_nat (length bs) < u64_mod → bs ≠ [] → u64_add seq 1 = seq + 1.
Proof. intros. apply u64_add_small. unfold is_u64. destruct bs; [done|cbn [length] in *; lia]. Qed.

Lemma number_app seq bs bs' :
  0 ≤ seq → seq + Z.of_nat (length (bs ++ bs')) < u64_mod →
  number_events seq (bs ++ bs') =
    number_events seq bs ++ number_events (seq + Z.of_nat (length bs)) bs'.
Proof.
  revert seq. induction bs as [|b bs IH]; intros seq H0 Hb; [by rewrite Z.add_0_r|].
  cbn [number_events app length] in *.
  rewrite (number_step seq (b :: bs ++ bs')) by (cbn [length]; lia || done).
  rewrite IH by lia. cbn. do 2 f_equal. f_equal. lia.
Qed.

Lemma drop_number n seq bs :
  0 ≤ seq → seq + Z.of_nat (length bs) < u64_mod → (n ≤ length bs)%nat →
  drop n (number_events seq bs) = number_events (seq + Z.of_nat n) (drop n bs).
Proof.
  revert seq bs. induction n as [|n IH]; intros seq bs H0 Hb Hn; [by rewrite !drop_0, Z.add_0_r|].
  destruct bs as [|b bs]; [done|]. cbn [number_events drop length] in *.
  rewrite (number_step seq (b :: bs)) by (cbn [length]; lia || done).
  rewrite IH by lia. f_equal. lia.
Qed.

Lemma filter_all {A} (P : A → Prop) `{∀ x, Decision (P x)} (l : list A) :
  Forall P l → filter P l = l.
Proof. induction 1 as [|x l Hx _ IH]; [done|]. rewrite filter_cons_True by done. by rewrite IH. Qed.

Lemma number_gt seq bs k :
  0 ≤ seq → seq + Z.of_nat (length bs) < u64_mod → k ≤ seq →
  Forall (λ e, k < je_sequence e) (number_events seq bs).
Proof.
  revert seq. induction bs as [|b bs IH]; intros seq H0 Hb Hk; cbn [number_events]; [done|].
  rewrite (number_step seq (b :: bs)) by done. cbn [length] in Hb.
  constructor; [cbn; lia|]. apply IH; lia.
Qed.

Lemma filter_number n seq bs :
  0 ≤ seq → seq + Z.of_nat (length bs) < u64_mod →
  filter (λ e, seq + Z.of_nat n < je_sequence e) (number_events seq bs) =
    drop n (number_events seq bs).
Proof.
  revert seq n. induction bs as [|b bs IH]; intros seq n H0 Hb; [by destruct n|].
  destruct n as [|n].
  - rewrite drop_0. apply filter_all, number_gt; [done|done|lia].
  - cbn [number_events]. rewrite (number_step seq (b :: bs)) by done. cbn [length] in Hb.
    rewrite filter_cons_False by (cbn; lia). cbn [drop]. rewrite <- IH by lia.
    apply list_filter_iff. intros e. lia.
Qed.

Lemma last_sequence_number seq bs :
  0 ≤ seq → seq + Z.of_nat (length bs) < u64_mod →
  match last (number_events seq bs) with Some e => je_sequence e | None => seq end =
    seq + Z.of_nat (length bs).
Proof.
  revert seq. induction bs as [|b bs IH]; intros seq H0 Hb; [cbn; lia|].
  cbn [number_events]. rewrite (number_step seq (b :: bs)) by done. cbn [length] in *.
  rewrite last_cons. specialize (IH (seq + 1) ltac:(lia) ltac:(lia)).
  destruct (last _); [lia|cbn; lia].
Qed.

(** Messages that do not panic are consumed by the mailbox loop one by one. *)
Lemma mailbox_loop_prefix {State} (msgs : list (State → State * FutResult)) st st' effs rest :
  turns st msgs = (st', false, effs) →
  mailbox_loop Idle st ((RecvMessage <$> msgs) ++ rest) =
    ('(f, s, es) ← mailbox_loop Idle st' rest; Some (f, s, effs ++ es)).
Proof.
  revert st effs. induction msgs as [|m msgs IH]; intros st effs; cbn [turns].
  - intros [= <- <-]. cbn [fmap list_fmap app]. by destruct (mailbox_loop Idle st rest) as [[[]]|].
  - destruct (m st) as [s1 []] eqn:Hm; [|done].
    destruct (turns s1 msgs) as [[s2 p] effs2] eqn:E. intros [= <- -> <-].
    cbn [fmap list_fmap app mailbox_loop]. rewrite decide_True by done. rewrite Hm.
    cbn [ActivationState_next]. rewrite (IH _ _ E).
    by destruct (mailbox_loop Idle s2 rest) as [[[]]|].
Qed.

(** * Replay reconstructs the state *)
Section replay.
Context {D : Type} `{GrainActivator D} {J : Type} `{JournalStore J} `{!JournalStoreLaws J}.
Context {State Event : Type}.
Context (encode_event : Event → option bytes) (decode_event : bytes → option Event).
Context (serialize : State → option bytes) (deserialize : bytes → option State).
Context (apply_event : State → Event → State) (G : Grain State) (snapshot_interval : Z).
Context (grain_id : GrainId).

Implicit Types (j : J) (evs : list Event) (st : State).

Abbreviation load := (journal_load_state decode_event deserialize apply_event G grain_id).
Abbreviation turn := (journaled_turn encode_event serialize apply_event snapshot_interval grain_id).
Abbreviation state_of evs := (foldl apply_event (grain_default G) evs).

(** [bs] is the encoding of [evs], and decodes back. *)
Definition encodes evs (bs : list bytes) : Prop :=
  Forall2 (λ ev b, encode_event ev = Some b ∧ decode_event b = Some ev) evs bs.

Lemma encodes_omap evs bs : encodes evs bs → omap encode_event evs = bs.
Proof. induction 1 as [|ev b evs bs [He _] _ IH]; [done|]. cbn. by rewrite He, IH. Qed.

Lemma encodes_length evs bs : encodes evs bs → length bs = length evs.
Proof. intros Hl%Forall2_length. by rewrite Hl. Qed.

Lemma replay_cons st seq e es :
  replay decode_event apply_event st seq (e :: es) =
    match decode_event (je_event_bytes e) with
    | Some ev => replay decode_event apply_event (apply_event st ev) (je_sequence e) es
    | None => replay decode_event apply_event st seq es
    end.
Proof. unfold replay. cbn [foldl]. by destruct (decode_event _). Qed.

Lemma replay_number evs bs st seq0 seq :
  encodes evs bs → 0 ≤ seq → seq + Z.of_nat (length bs) < u64_mod → seq0 = seq →
  replay decode_event apply_event st seq0 (number_events seq bs) =
    (foldl apply_event st evs, seq + Z.of_nat (length bs)).
Proof.
  intros He. revert st seq0 seq. induction He as [|ev b evs bs [_ Hd] _ IH]; intros st seq0 seq H1 H2 ->.
  - cbn. by rewrite Z.add_0_r.
  - cbn [number_events]. rewrite (number_step seq (b :: bs)) by done. cbn [length] in *.
    rewrite replay_cons. cbn [je_event_bytes je_sequence]. rewrite Hd.
    rewrite (IH _ (seq + 1) (seq + 1)) by (lia || done). cbn [foldl]. f_equal. lia.
Qed.

(** The journal holds the events [evs], and its snapshot is the state at some prefix. *)
Record journal_holds j evs : Prop := {
  jh_events : ∃ bs, encodes evs bs ∧ js_events j grain_id = number_events 0 bs;
  jh_bound : Z.of_nat (length evs) < u64_mod;
  jh_snapshot : match js_snapshot j grain_id with
                | None => True
                | Some (k, b) => ∃ n, k = Z.of_nat n ∧ (n ≤ length evs)%nat ∧
                                      deserialize b = Some (state_of (take n evs))
                end }.

Context `{!ReliableJournal J}.

Lemma load_after_reliable j seq :
  js_load_events_after j grain_id seq =
    Ok (filter (λ e, seq < je_sequence e) (js_events j grain_id)).
Proof.
  pose proof (js_load_after_ok j grain_id seq) as Hok.
  destruct (js_load_events_after j grain_id seq) as [es|] eqn:E; [|done].
  by rewrite (js_load_after_content _ _ _ _ E).
Qed.

Lemma load_snapshot_reliable j : js_load_snapshot j grain_id = Ok (js_snapshot j grain_id).
Proof.
  pose proof (js_load_snapshot_ok j grain_id) as Hok.
  destruct (js_load_snapshot j grain_id) as [o|] eqn:E; [|done].
  by rewrite (js_load_snapshot_content _ _ _ E).
Qed.

Lemma load_holds j evs :
  journal_holds j evs → load j = (state_of evs, Z.of_nat (length evs)).
Proof.
  intros [(bs & Henc & Hev) Hb Hs]. unfold journal_load_state. rewrite load_snapshot_reliable.
  pose proof (encodes_length _ _ Henc) as Hlen.
  assert (∃ n, (n ≤ length evs)%nat ∧
            match js_snapshot j grain_id with
            | Some (seq, b) =>
                match deserialize b with Some st => (st, seq) | None => (grain_default G, 0) end
            | None => (grain_default G, 0)
            end = (state_of (take n evs), Z.of_nat n)) as (n & Hn & Hstart).
  { destruct (js_snapshot j grain_id) as [[k b]|].
    - destruct Hs as (n & -> & Hn & ->). by exists n.
    - exists 0%nat. split; [lia|done]. }
  match goal with |- (let '(_, _) := ?x in _) = _ => assert (x = (state_of (take n evs), Z.of_nat n)) as ->
    by (destruct (js_snapshot j grain_id) as [[]|]; exact Hstart) end.
  rewrite load_after_reliable, Hev.
  rewrite (filter_number n 0) by lia. rewrite drop_number by lia. rewrite Z.add_0_l.
  rewrite (replay_number (drop n evs)); [|by apply Forall2_drop|lia|rewrite length_drop; lia|done].
  rewrite <- foldl_app, take_drop, length_drop. f_equal. lia.
Qed.
(** State and journal agree. *)
Definition in_sync (js : JournaledState) j evs : Prop :=
  journal_holds j evs ∧ jst_state js = state_of evs ∧ jst_sequence js = Z.of_nat (length evs).

Context (Hcodec : ∀ ev, ∃ b, encode_event ev = Some b ∧ decode_event b = Some ev).
Context (Hsnap : ∀ st b, serialize st = Some b → deserialize b = Some st).

Lemma encodes_total evs : ∃ bs, encodes evs bs.
Proof.
  induction evs as [|ev evs [bs IH]]; [by exists []; constructor|].
  destruct (Hcodec ev) as [b Hb]. exists (b :: bs). by constructor.
Qed.

Lemma append_holds j evs new bs :
  journal_holds j evs → encodes new bs → Z.of_nat (length evs + length new) < u64_mod →
  ∃ j', js_append j grain_id bs = (j', Ok (Z.of_nat (length evs + length new))) ∧
        journal_holds j' (evs ++ new).
Proof.
  intros [(bs0 & He0 & Hev) Hb Hs] Hn Hlt. pose proof (js_append_ok j grain_id bs) as Hok.
  destruct (js_append j grain_id bs) as [j' r] eqn:E. destruct r as [seq|]; [|done].
  destruct (js_append_content _ _ _ _ _ E) as (Hsn & Hes & Hseq). cbn in Hes.
  pose proof (encodes_length _ _ He0) as Hl0. pose proof (encodes_length _ _ Hn) as Hl1.
  assert (last_sequence (number_events 0 bs0) = Z.of_nat (length evs)) as Hlast.
  { unfold last_sequence. rewrite last_sequence_number by lia. lia. }
  assert (js_events j' grain_id = number_events 0 (bs0 ++ bs)) as Hev'.
  { rewrite Hes, Hev, Hlast, number_app by (rewrite ?length_app; lia). by rewrite Z.add_0_l, Hl0. }
  exists j'. split.
  - rewrite (Hseq seq eq_refl), Hev'. unfold last_sequence. rewrite last_sequence_number by
      (rewrite ?length_app; lia). rewrite length_app, Hl0, Hl1. done.
  - split.
    + exists (bs0 ++ bs). split; [by apply Forall2_app|done].
    + rewrite length_app. lia.
    + rewrite Hsn. destruct (js_snapshot j grain_id) as [[k b]|]; [|done].
      destruct Hs as (n & -> & Hn' & Hd). exists n. rewrite length_app, take_app_le by done.
      split_and!; [done|lia|done].
Qed.

Lemma save_snapshot_holds j evs seq b j' r :
  journal_holds j evs → js_save_snapshot j grain_id seq b = (j', r) →
  seq = Z.of_nat (length evs) → deserialize b = Some (state_of evs) → journal_holds j' evs.
Proof.
  intros [(bs & He & Hevs) Hbd Hs] E -> Hd.
  destruct (js_save_snapshot_content _ _ _ _ _ _ E) as [Hev Hsn].
  split; [exists bs; by rewrite Hev|done|]. rewrite Hsn. destruct (is_ok r); [|done].
  exists (length evs). split_and!; [done|done|]. by rewrite firstn_all.
Qed.

Lemma snapshot_sync js j evs :
  in_sync js j evs →
  let r := snapshot_if_due serialize snapshot_interval grain_id js j in in_sync r.1 r.2 evs.
Proof.
  intros (Hh & Hst & Hseq). unfold snapshot_if_due. destruct (_ && _); [|done].
  destruct (serialize (jst_state js)) as [b|] eqn:Hb; [|done].
  destruct (js_save_snapshot j grain_id (jst_sequence js) b) as [j' r] eqn:E.
  assert (journal_holds j' evs) as Hh'.
  { eapply save_snapshot_holds; [exact Hh|exact E|exact Hseq|]. rewrite <- Hst. by apply Hsnap. }
  by destruct r.
Qed.

Lemma turn_sync {R} (handle : State → R * list Event) js j evs :
  in_sync js j evs →
  Z.of_nat (length evs + length (handle (jst_state js)).2) < u64_mod →
  let r := turn handle js j in
  in_sync r.1.1 r.1.2 (evs ++ (handle (jst_state js)).2) ∧ r.2 = (handle (jst_state js)).1.
Proof.
  intros (Hh & Hst & Hseq) Hlt. unfold journaled_turn.
  destruct (handle (jst_state js)) as [res new]. cbn [fst snd] in *.
  destruct new as [|ev new]; [rewrite app_nil_r; split; [exact (conj Hh (conj Hst Hseq))|done]|].
  destruct (encodes_total (ev :: new)) as [bs Henc]. rewrite (encodes_omap _ _ Henc).
  destruct (append_holds j evs (ev :: new) bs Hh Henc Hlt) as (j' & E & Hh').
  pose proof (encodes_length _ _ Henc) as Hlen. destruct bs as [|b bs]; [done|]. rewrite E.
  set (js1 := mkJS _ _ _).
  assert (in_sync js1 j' (evs ++ ev :: new)) as Hsync.
  { split_and!; [done| |cbn; by rewrite length_app].
    cbn. by rewrite Hst, foldl_app. }
  pose proof (snapshot_sync js1 j' _ Hsync) as Hs. destruct (snapshot_if_due _ _ _ _ _). by split.
Qed.

(** Turns one after the other, and the events they produce. *)
Fixpoint run_turns {R} (js : JournaledState) j (hs : list (State → R * list Event))
    : JournaledState * J :=
  match hs with
  | [] => (js, j)
  | h :: hs' => let '(js, j, _) := turn h js j in run_turns js j hs'
  end.

Fixpoint all_events {R} st (hs : list (State → R * list Event)) : list Event :=
  match hs with
  | [] => []
  | h :: hs' => (h st).2 ++ all_events (foldl apply_event st (h st).2) hs'
  end.

Lemma run_turns_sync {R} (hs : list (State → R * list Event)) js j evs :
  in_sync js j evs → Z.of_nat (length evs + length (all_events (jst_state js) hs)) < u64_mod →
  let r := run_turns js j hs in in_sync r.1 r.2 (evs ++ all_events (jst_state js) hs).
Proof.
  revert js j evs. induction hs as [|h hs IH]; intros js j evs Hs Hlt; [by rewrite app_nil_r|].
  cbn [run_turns all_events] in *. rewrite length_app in Hlt.
  destruct (turn_sync h js j evs Hs) as [Hs' _]; [lia|].
  destruct (turn h js j) as [[js1 j1] r1]. cbn [fst snd] in Hs'.
  assert (jst_state js1 = foldl apply_event (jst_state js) (h (jst_state js)).2) as Hst1.
  { destruct Hs as (_ & Hst & _), Hs' as (_ & Hst' & _). by rewrite Hst', foldl_app, <- Hst. }
  rewrite app_assoc, <- Hst1. apply IH; [done|]. rewrite length_app, Hst1. lia.
Qed.

(** Event sourcing: starting from an empty journal, after any sequence of turns (with
    snapshots at any interval) the in-memory state is the left fold of all events
    produced so far, and loading from the journal, from its last snapshot and the
    events after it, reconstructs exactly that state and sequence number.  So an
    activation that faults or crashes between turns loses nothing. *)
Theorem journal_replay_roundtrip {R} (hs : list (State → R * list Event)) j :
  js_events j grain_id = [] → js_snapshot j grain_id = None →
  Z.of_nat (length (all_events (grain_default G) hs)) < u64_mod →
  let r := run_turns (mkJS (grain_default G) 0 0) j hs in
  jst_state r.1 = state_of (all_events (grain_default G) hs) ∧
  jst_sequence r.1 = Z.of_nat (length (all_events (grain_default G) hs)) ∧
  load r.2 = (jst_state r.1, jst_sequence r.1).
Proof.
  intros He Hs Hlt.
  destruct (run_turns_sync hs (mkJS (grain_default G) 0 0) j []) as (Hh & Hst & Hseq); [|done|].
  - split_and!; [|done|done]. split; [exists []; split; [constructor|done]|done|]. by rewrite Hs.
  - split_and!; [done|done|]. rewrite Hst, Hseq. by apply load_holds.
Qed.
(** The messages of the mailbox for a list of handlers that do not panic. *)
Definition journaled_msgs {R} (hs : list (State → R * list Event))
    : list ((JournaledState * J) → (JournaledState * J) * FutResult) :=
  (λ h, journaled_envelope encode_event serialize apply_event snapshot_interval grain_id
          (λ st, Some (h st))) <$> hs.

Lemma turns_journaled {R} (hs : list (State → R * list Event)) js j :
  ∃ effs, turns (js, j) (journaled_msgs hs) = (run_turns js j hs, false, effs).
Proof.
  revert js j. induction hs as [|h hs IH]; intros js j; [by exists []|].
  assert (∀ (r : R * list Event), h (jst_state js) = r →
            turn h js j = turn (λ _, r) js j) as Heq
    by (intros r Hr; unfold journaled_turn; by rewrite Hr).
  cbn [journaled_msgs fmap list_fmap turns run_turns].
  unfold journaled_envelope at 1. rewrite <- (Heq _ eq_refl).
  destruct (turn h js j) as [[js1 j1] r1]. cbn [fst].
  destruct (IH js1 j1) as [effs E]. unfold journaled_msgs in E. rewrite E. by eexists.
Qed.

Lemma journaled_run_holds {R} (hs : list (State → R * list Event)) evs j r rest
    `{!GrainActivatorLaws D} (dir : D) :
  journal_holds j evs → (∀ st, on_activate G st = (st, FutOk)) →
  (∀ st, (on_deactivate G st).1 = st) →
  Z.of_nat (length evs + length (all_events (state_of evs) hs)) < u64_mod →
  r = RecvClosed ∨ r = RecvElapsed ∨
    r = RecvMessage (journaled_envelope (R := R) encode_event serialize apply_event
                       snapshot_interval grain_id (λ _, None)) →
  ∃ js' j' dir',
    journaled_run decode_event serialize deserialize apply_event G grain_id
      ((RecvMessage <$> journaled_msgs hs) ++ r :: rest) j dir = Some (Closed, js', j', dir') ∧
    jst_state js' = state_of (evs ++ all_events (state_of evs) hs) ∧
    load j' = (jst_state js', jst_sequence js') ∧
    journal_holds j' (evs ++ all_events (state_of evs) hs) ∧
    ga_get_sender dir' grain_id = None.
Proof.
  intros Hh Ha Hd Hlt Hr. unfold journaled_run. rewrite (load_holds _ _ Hh), Ha.
  cbn [ActivationState_next].
  destruct (run_turns_sync hs (mkJS (state_of evs) (Z.of_nat (length evs)) 0) j evs)
    as (Hh' & Hst & Hseq); [split_and!; done|done|].
  set (js0 := mkJS _ _ _) in *. cbn [jst_state] in Hh', Hst, Hseq.
  destruct (turns_journaled hs js0 j) as [effs E].
  destruct (run_turns js0 j hs) as [js1 j1] eqn:Erun. cbn [fst snd] in *.
  assert (∃ b effs', mailbox_loop Idle (js0, j) ((RecvMessage <$> journaled_msgs hs) ++ r :: rest) =
            Some (if (b : bool) then Faulted else Draining, (js1, j1), effs')) as (b & effs' & ->).
  { destruct Hr as [->|[->| ->]].
    - rewrite mailbox_loop_turns by done. rewrite E. by exists false, effs.
    - rewrite mailbox_loop_turns by done. rewrite E. by exists false, effs.
    - rewrite (mailbox_loop_prefix _ _ _ _ _ E). exists true. by destruct rest; eexists. }
  cbn [mbind option_bind].
  destruct b.
  - eexists _, _, _. split; [done|]. split_and!; [done| |done|apply ga_remove_get].
    rewrite Hst, Hseq. by apply load_holds.
  - set (js2 := mkJS (on_deactivate G (jst_state js1)).1 (jst_sequence js1) (jst_events_since_snapshot js1)).
    assert (in_sync js2 (match serialize (jst_state js2) with
                         | Some b => (js_save_snapshot j1 grain_id (jst_sequence js2) b).1
                         | None => j1
                         end) (evs ++ all_events (state_of evs) hs)) as (Hh2 & Hst2 & Hseq2).
    { assert (jst_state js2 = state_of (evs ++ all_events (state_of evs) hs)) as Hst2
        by (cbn; by rewrite Hd).
      split_and!; [|done|done]. destruct (serialize (jst_state js2)) as [b|] eqn:Hb; [|done].
      destruct (js_save_snapshot j1 grain_id (jst_sequence js2) b) as [j2 rr] eqn:Es.
      eapply (save_snapshot_holds _ _ _ _ _ _ Hh' Es); [exact Hseq|].
      apply Hsnap in Hb. etrans; [exact Hb|]. by f_equal. }
    eexists _, _, _. split; [done|]. split_and!; [exact Hst2| |exact Hh2|apply ga_remove_get].
    etrans; [apply (load_holds _ _ Hh2)|]. by rewrite Hst2, Hseq2.
Qed.

(** C11: the journaled mailbox: with hooks that leave the state alone, an activation on a journal
    that holds events [evs] replays them, runs its messages and, whether it then stops
    gracefully (saving a snapshot) or faults on a panicking handler (saving
    nothing), ends [Closed] with its directory entry removed, and the next activation
    reconstructs exactly the state after the last completed message. *)
Theorem journaled_run_recovers {R} (hs : list (State → R * list Event)) evs j r rest
    `{!GrainActivatorLaws D} (dir : D) :
  journal_holds j evs → (∀ st, on_activate G st = (st, FutOk)) →
  (∀ st, (on_deactivate G st).1 = st) →
  Z.of_nat (length evs + length (all_events (state_of evs) hs)) < u64_mod →
  r = RecvClosed ∨ r = RecvElapsed ∨
    r = RecvMessage (journaled_envelope (R := R) encode_event serialize apply_event
                       snapshot_interval grain_id (λ _, None)) →
  ∃ js' j' dir',
    journaled_run decode_event serialize deserialize apply_event G grain_id
      ((RecvMessage <$> journaled_msgs hs) ++ r :: rest) j dir = Some (Closed, js', j', dir') ∧
    jst_state js' = state_of (evs ++ all_events (state_of evs) hs) ∧
    load j' = (jst_state js', jst_sequence js') ∧
    ga_get_sender dir' grain_id = None.
Proof.
  intros Hh Ha Hd Hlt Hr.
  destruct (journaled_run_holds hs evs j r rest dir Hh Ha Hd Hlt Hr) as (js' & j' & dir' & H1 & H2 & H3 & _ & H4).
  by exists js', j', dir'.
Qed.
End replay.


(** A journaled byte log. *)
Definition jlog_grain : Grain bytes := {|
  grain_default := [];
  on_activate := λ s, (s, FutOk);
  on_deactivate := λ s, (s, FutOk) |}.
Definition jlog_encode (b : Byte.byte) : option bytes := Some [b].
Definition jlog_decode (bs : bytes) : option Byte.byte := match bs with [b] => Some b | _ => None end.
Definition jlog_apply (s : bytes) (b : Byte.byte) : bytes := s ++ [b].
Definition jlog_append (b : Byte.byte) : bytes → unit * list Byte.byte := λ _, ((), [b]).

Lemma jlog_codec b : ∃ bs, jlog_encode b = Some bs ∧ jlog_decode bs = Some b.
Proof. by eexists. Qed.
Lemma jlog_snapshot (st b : bytes) : Some st = Some b → Some b = Some st.
Proof. done. Qed.

Lemma journal_replay_roundtrip_witness :
  let r := run_turns jlog_encode Some jlog_apply 2 grain_x (mkJS [] 0 0) InMemoryJournalStore_new
             [jlog_append Byte.x01; jlog_append Byte.x02; jlog_append Byte.x03] in
  journal_load_state jlog_decode Some jlog_apply jlog_grain grain_x r.2 =
    ([Byte.x01; Byte.x02; Byte.x03], 3).
Proof.
  destruct (journal_replay_roundtrip jlog_encode jlog_decode Some Some jlog_apply jlog_grain 2 grain_x
              jlog_codec jlog_snapshot
              [jlog_append Byte.x01; jlog_append Byte.x02; jlog_append Byte.x03]
              InMemoryJournalStore_new) as (H1 & H2 & H3).
  - reflexivity.
  - reflexivity.
  - vm_compute. reflexivity.
  - etrans; [exact H3|]. rewrite H1, H2. reflexivity.
Defined.

(** * Failed appends *)
Section append_failure.
Context {J : Type} `{JournalStoreLaws J} {State Event R : Type}.
Context (encode_event : Event → option bytes) (serialize : State → option bytes).
Context (apply_event : State → Event → State) (snapshot_interval : Z) (grain_id : GrainId).

(** When the journal refuses an append, the turn still applies the events to the state and
    still answers the caller with the handler's result, while the journal content (and
    the sequence number) stays as it was: the acknowledged events exist in memory
    only. *)
Theorem append_failure_keeps_events_in_memory handle (js : JournaledState) (j j' : J) e b bs :
  let events := (handle (jst_state js)).2 in
  omap encode_event events = b :: bs →
  js_append j grain_id (b :: bs) = (j', Err e) →
  jst_events_since_snapshot js < snapshot_interval →
  ∃ js', journaled_turn (R := R) encode_event serialize apply_event snapshot_interval grain_id
           handle js j = (js', j', (handle (jst_state js)).1) ∧
    jst_state js' = foldl apply_event (jst_state js) events ∧
    jst_sequence js' = jst_sequence js ∧
    js_events j' grain_id = js_events j grain_id ∧
    js_snapshot j' grain_id = js_snapshot j grain_id.
Proof.
  intros events Hb Ha Hi. unfold journaled_turn. subst events.
  destruct (handle (jst_state js)) as [res events]. cbn [fst snd] in *.
  destruct (js_append_content _ _ _ _ _ Ha) as (Hsn & Hev & _). cbn in Hev.
  destruct events as [|ev events]; [done|]. rewrite Hb, Ha. unfold snapshot_if_due. cbn [jst_events_since_snapshot].
  rewrite (bool_decide_false (snapshot_interval ≤ _)) by lia. rewrite andb_false_r.
  eexists. split; [done|]. split_and!; try done.
Qed.
End append_failure.

(** A journal that refuses every append. *)
Record RefusingJournal := mkRefusing { rj_inner : InMemoryJournalStore }.
#[global] Instance RefusingJournal_journal : JournalStore RefusingJournal := {|
  js_append j g bs := (j, Err (Io "disk full"));
  js_load_events j g := InMemoryJournalStore_load_events (rj_inner j) g;
  js_load_events_after j g seq := InMemoryJournalStore_load_events_after (rj_inner j) g seq;
  js_save_snapshot j g seq b :=
    let '(i, r) := InMemoryJournalStore_save_snapshot (rj_inner j) g seq b in (mkRefusing i, r);
  js_load_snapshot j g := InMemoryJournalStore_load_snapshot (rj_inner j) g;
  js_events j g := js_events (rj_inner j) g;
  js_snapshot j g := js_snapshot (rj_inner j) g |}.
#[global] Instance RefusingJournal_laws : JournalStoreLaws RefusingJournal.
Proof.
  split.
  - by intros j g bs j' r [= <- <-].
  - intros j g seq es H. exact (js_load_after_content (rj_inner j) g seq es H).
  - intros j g seq b j' r [= <- <-].
    exact (js_save_snapshot_content (rj_inner j) g seq b _ _ eq_refl).
  - intros j g o H. exact (js_load_snapshot_content (rj_inner j) g o H).
Qed.

Lemma append_failure_keeps_events_in_memory_witness :
  ∃ js', journaled_turn jlog_encode Some jlog_apply 100 grain_x (jlog_append Byte.x05) (mkJS [] 0 0)
           (mkRefusing InMemoryJournalStore_new) = (js', mkRefusing InMemoryJournalStore_new, ()) ∧
         jst_state js' = [Byte.x05].
Proof.
  destruct (append_failure_keeps_events_in_memory (R := unit) jlog_encode Some jlog_apply 100 grain_x
              (jlog_append Byte.x05) (mkJS [] 0 0) (mkRefusing InMemoryJournalStore_new)
              (mkRefusing InMemoryJournalStore_new) (Io "disk full") [Byte.x05] []) as (js' & H1 & H2 & _).
  - reflexivity.
  - reflexivity.
  - reflexivity.
  - exists js'. split; [exact H1|exact H2].
Defined.

Lemma jlog_empty_holds :
  journal_holds jlog_encode jlog_decode Some jlog_apply jlog_grain grain_x InMemoryJournalStore_new [].
Proof. split; [exists []; split; [constructor|done]|done|done]. Qed.

Lemma journaled_run_recovers_witness :
  ∃ js' j' dir',
    journaled_run jlog_decode Some Some jlog_apply jlog_grain grain_x
      ((RecvMessage <$> journaled_msgs jlog_encode Some jlog_apply 100 grain_x
                          [jlog_append Byte.x01; jlog_append Byte.x02]) ++ [RecvElapsed])
      InMemoryJournalStore_new (mkFake ∅) = Some (Closed, js', j', dir') ∧
    jst_state js' = [Byte.x01; Byte.x02].
Proof.
  destruct (journaled_run_recovers (D := FakeActivator) jlog_encode jlog_decode Some Some jlog_apply
              jlog_grain 100 grain_x jlog_codec jlog_snapshot
              [jlog_append Byte.x01; jlog_append Byte.x02] [] InMemoryJournalStore_new RecvElapsed []
              (mkFake ∅) jlog_empty_holds) as (js' & j' & dir' & H1 & H2 & _).
  - reflexivity.
  - reflexivity.
  - vm_compute. reflexivity.
  - right. left. reflexivity.
  - exists js', j', dir'. split; [exact H1|]. rewrite H2. reflexivity.
Defined.
