(* ===== verification/Transaction.v ===== *)
(** Transactional grains and state facets of [orlando-persistence]: the context a transactional
    handler gets ([transaction.rs]), the rollback in [TransactionalGrainRef::ask]
    ([persistent_silo.rs]), the coordinator ([multi_transaction.rs]) and named facets
    ([facet.rs]).

    A handler is a program over the operations of its context, so that what it can do to the store is
    exactly what those operations do. *)
From S2P Require Import Prelude CoreTypes Mailbox Calls Store.

(** * The transaction context *)
Section transaction.
Context {Sto : Type} `{StateStore Sto} {State R : Type}.
(** bincode, which the context uses whatever the serializer of the store. *)
Context (encode : State → option bytes) (decode : bytes → option State).
Context (grain_id : GrainId).

(** [save_state] *)
Definition save_state (s : Sto) (st : State) : Sto * result PersistenceError unit :=
  match encode st with
  | None => (s, Err (Serialization ""))
  | Some b => ss_save s grain_id b
  end.

(** [read_state] *)
Definition read_state (s : Sto) : Sto * result PersistenceError (option State) :=
  match ss_load s grain_id with
  | (s, Err e) => (s, Err e)
  | (s, Ok None) => (s, Ok None)
  | (s, Ok (Some b)) =>
      (s, match decode b with Some st => Ok (Some st) | None => Err (Deserialization "") end)
  end.

(** [clear_state] *)
Definition clear_state (s : Sto) : Sto * result PersistenceError unit := ss_delete s grain_id.

(** [save_with_etag] *)
Definition tx_save_with_etag (s : Sto) (st : State) (expected : option ETag)
    : Sto * result PersistenceError ETag :=
  match encode st with
  | None => (s, Err (Serialization ""))
  | Some b => ss_save_with_etag s grain_id b expected
  end.

(** [load_etag] *)
Definition load_etag (s : Sto) : Sto * result PersistenceError (option ETag) :=
  match ss_load_with_etag s grain_id with
  | (s, Ok o) => (s, Ok (snd <$> o))
  | (s, Err e) => (s, Err e)
  end.

(** A handler: its uses of the context, then the state it leaves and its result, or a panic. *)
Inductive TxProg :=
| TxReturn (st : State) (r : result PersistenceError R)
| TxPanic (st : State)
| TxSaveState (st : State) (k : result PersistenceError unit → TxProg)
| TxReadState (k : result PersistenceError (option State) → TxProg)
| TxClearState (k : result PersistenceError unit → TxProg)
| TxSaveWithEtag (st : State) (e : option ETag) (k : result PersistenceError ETag → TxProg)
| TxLoadEtag (k : result PersistenceError (option ETag) → TxProg).

(** Running a handler; also lists its successful writes to the store ([None] for a
    deletion), in order.  The outcome [None] is a panic. *)
Fixpoint run_tx (p : TxProg) (s : Sto) (writes : list (option bytes))
    : Sto * list (option bytes) * State * option (result PersistenceError R) :=
  match p with
  | TxReturn st r => (s, writes, st, Some r)
  | TxPanic st => (s, writes, st, None)
  | TxSaveState st k =>
      let '(s, r) := save_state s st in
      run_tx (k r) s (if is_ok r then writes ++ [encode st] else writes)
  | TxReadState k => let '(s, r) := read_state s in run_tx (k r) s writes
  | TxClearState k =>
      let '(s, r) := clear_state s in run_tx (k r) s (if is_ok r then writes ++ [None] else writes)
  | TxSaveWithEtag st e k =>
      let '(s, r) := tx_save_with_etag s st e in
      run_tx (k r) s (if is_ok r then writes ++ [encode st] else writes)
  | TxLoadEtag k => let '(s, r) := load_etag s in run_tx (k r) s writes
  end.

Context (error_display : PersistenceError → string).

(** The envelope of [TransactionalGrainRef::ask]: the state is cloned before the handler runs and put
    back when it returns an error.  [state_any] is [None] when the state has another type. *)
Definition transactional_envelope (handle : State → TxProg) (state_any : option State) (s : Sto)
    : option State * Sto * Oneshot (result string R) :=
  match state_any with
  | None => (None, s, Replied (Some (Err "grain state type mismatch")))
  | Some state =>
      let snapshot := state in
      let '(s, _, state, outcome) := run_tx (handle state) s [] in
      match outcome with
      | Some (Ok result) => (Some state, s, Replied (Some (Ok result)))
      | Some (Err e) => (Some snapshot, s, Replied (Some (Err (error_display e))))
      | None => (Some state, s, SenderDropped)
      end
  end.

(** [TransactionalGrainRef::ask]; [late] says whether the reply misses the timeout. *)
Definition TransactionalGrainRef_ask (handle : State → TxProg) (mailbox_open late : bool)
    (timeout : Z) (state_any : option State) (s : Sto) : option State * Sto * result GrainError R :=
  if mailbox_open then
    let '(st, s, reply) := transactional_envelope handle state_any s in
    (st, s,
     match (if late then Elapsed else reply) with
     | Elapsed => Err (Timeout timeout)
     | SenderDropped => Err MailboxClosed
     | Replied None => Err ReplyTypeMismatch
     | Replied (Some (Ok r)) => Ok r
     | Replied (Some (Err e)) => Err (HandlerFailed e)
     end)
  else (state_any, s, Err MailboxClosed).

(** * What a handler can do to the store *)
Context `{!StateStoreLaws Sto}.

(** The content after a list of writes. *)
Definition after_writes (writes : list (option bytes)) (before : option bytes) : option bytes :=
  default before (last writes).

Lemma after_writes_snoc ws x before : after_writes (ws ++ [x]) before = x.
Proof. unfold after_writes. by rewrite last_snoc. Qed.

Lemma read_state_view s g : ss_view (read_state s).1 g = ss_view s g.
Proof.
  unfold read_state. destruct (ss_load s grain_id) as [s' [[b|]|e]] eqn:E;
    by apply (ss_load_view _ _ _ _ E).
Qed.

Lemma load_etag_view s g : ss_view (load_etag s).1 g = ss_view s g.
Proof.
  unfold load_etag. destruct (ss_load_with_etag s grain_id) as [s' [o|e]] eqn:E;
    by apply (ss_load_with_etag_view _ _ _ _ E).
Qed.

(** A write of [encode st] or a deletion, as recorded by [run_tx]. *)
Lemma write_step (s s' : Sto) (ok : bool) (x : option bytes) (g : GrainId) :
  ss_view s' g = (if ok && bool_decide (g = grain_id) then x else ss_view s g) →
  ∀ ws before,
    ss_view s g = (if bool_decide (g = grain_id) then after_writes ws before else before) →
    ss_view s' g = (if bool_decide (g = grain_id)
                    then after_writes (if ok then ws ++ [x] else ws) before else before).
Proof.
  intros Hv ws before Hs. rewrite Hv. destruct ok; cbn; [|by rewrite Hs].
  case_bool_decide; [by rewrite after_writes_snoc|done].
Qed.

Lemma run_tx_view p s ws before g :
  ss_view s g = (if bool_decide (g = grain_id) then after_writes ws before else before) →
  ss_view (run_tx p s ws).1.1.1 g =
    (if bool_decide (g = grain_id) then after_writes (run_tx p s ws).1.1.2 before else before).
Proof.
  revert s ws. induction p as [st r|st|st k IH|k IH|k IH|st e k IH|k IH]; intros s ws Hs;
    cbn [run_tx]; try done.
  - unfold save_state. destruct (encode st) as [b|] eqn:Eb; [|by apply IH].
    destruct (ss_save s grain_id b) as [s' r] eqn:E. apply IH.
    eapply write_step; [|done]. exact (ss_save_view _ _ _ _ _ E g).
  - pose proof (read_state_view s g) as Hv. destruct (read_state s) as [s' r]. cbn in Hv. apply IH. by rewrite Hv.
  - unfold clear_state. destruct (ss_delete s grain_id) as [s' r] eqn:E. apply IH.
    eapply write_step; [|done]. exact (ss_delete_view _ _ _ _ E g).
  - unfold tx_save_with_etag. destruct (encode st) as [b|] eqn:Eb; [|by apply IH].
    destruct (ss_save_with_etag s grain_id b e) as [s' r] eqn:E. apply IH.
    eapply write_step; [|done]. exact (ss_save_with_etag_view _ _ _ _ _ _ E g).
  - pose proof (load_etag_view s g) as Hv. destruct (load_etag s) as [s' r]. cbn in Hv. apply IH. by rewrite Hv.
Qed.

(** One transactional call.  If the handler returns an error, the state in memory is the one from
    before the call and the caller gets the error; if it returns a value, its state is kept and the
    caller gets the value; a panic keeps what the handler had done to the state.  Whatever the
    handler does with its context, it changes the stored state of no other grain, and the stored
    state of its own grain afterwards is its last successful checkpoint (none: unchanged).
    Rollback is in memory only: the checkpoints of a failed handler stay. *)
Theorem transactional_call handle st s timeout :
  let '(s1, writes, st1, outcome) := run_tx (handle st) s [] in
  let '(st', s', r) := TransactionalGrainRef_ask handle true false timeout (Some st) s in
  s' = s1 ∧
  match outcome with
  | Some (Ok v) => st' = Some st1 ∧ r = Ok v
  | Some (Err e) => st' = Some st ∧ r = Err (HandlerFailed (error_display e))
  | None => st' = Some st1 ∧ r = Err MailboxClosed
  end ∧
  (∀ g, g ≠ grain_id → ss_view s' g = ss_view s g) ∧
  ss_view s' grain_id = after_writes writes (ss_view s grain_id).
Proof.
  pose proof (λ g, run_tx_view (handle st) s [] (ss_view s g) g) as Hv.
  unfold TransactionalGrainRef_ask, transactional_envelope.
  destruct (run_tx (handle st) s []) as [[[s1 ws] st1] outcome]. cbn [fst snd] in Hv.
  assert ((∀ g, g ≠ grain_id → ss_view s1 g = ss_view s g) ∧
          ss_view s1 grain_id = after_writes ws (ss_view s grain_id)) as [H1 H2].
  { split; [intros g Hg|]; rewrite Hv; try (by case_bool_decide).
    all: by rewrite bool_decide_true. }
  destruct outcome as [[v|e]|]; done.
Qed.
End transaction.

(** A handler that checkpoints a new state and then fails. *)
Definition checkpoint_then_fail : bytes → TxProg (State := bytes) (R := unit) :=
  λ st, TxSaveState (st ++ [Byte.x01]) (λ _, TxReturn (st ++ [Byte.x01; Byte.x02]) (Err (Io "boom"))).

Lemma transactional_call_witness :
  let s := (ss_save InMemoryStateStore_new grain_x []).1 in
  let '(st', s', r) :=
    TransactionalGrainRef_ask Some Some grain_x (λ _, "boom") checkpoint_then_fail true false 30
      (Some []) s in
  st' = Some [] ∧ r = Err (HandlerFailed "boom") ∧ ss_view s' grain_x = Some [Byte.x01].
Proof.
  intros s. pose proof (transactional_call Some Some grain_x (λ _, "boom") checkpoint_then_fail [] s 30) as H.
  destruct (TransactionalGrainRef_ask _ _ _ _ _ _ _ _ _ _) as [[st' s'] r].
  destruct (run_tx _ _ _ _ _ _) as [[[s1 ws] st1] outcome] eqn:E. vm_compute in E.
  injection E as <- <- <- <-. destruct H as (_ & (-> & ->) & _ & Hv). split_and!; [reflexivity..|].
  rewrite Hv. reflexivity.
Defined.

(** * The coordinator *)
Inductive TransactionError :=
| TxAborted (tx_id : string) (source : GrainError)
| TxTimeout (tx_id : string) (timeout : Z)
| TxPersistence (tx_id : string) (source : PersistenceError).

Record TransactionCoordinator := mkCoordinator { tc_tx_id : string; tc_timeout : Z }.

(** [TransactionCoordinator::new]; [uuid] is the fresh identifier. *)
Definition TransactionCoordinator_new (uuid : string) : TransactionCoordinator :=
  mkCoordinator uuid (30 * 1000000000).
Definition with_timeout (c : TransactionCoordinator) (t : Z) : TransactionCoordinator :=
  mkCoordinator (tc_tx_id c) t.

(** [TransactionCoordinator::execute]: [f] runs the steps on the participants' world and yields [None]
    when the timeout cut it off. *)
Definition execute {W T} (c : TransactionCoordinator) (f : string → W → W * option (result GrainError T))
    (w : W) : W * result TransactionError T :=
  match f (tc_tx_id c) w with
  | (w, Some (Ok v)) => (w, Ok v)
  | (w, Some (Err e)) => (w, Err (TxAborted (tc_tx_id c) e))
  | (w, None) => (w, Err (TxTimeout (tc_tx_id c) (tc_timeout c)))
  end.

(** * Facets *)
Record FacetDescriptor := mkFacet { fd_name : string; fd_storage : string }.

(** The facets of a grain with the name of the store each is kept in. *)
Record FacetContext := mkFacets { fc_grain_id : GrainId; fc_facets : gmap string string }.

(** Resolving the descriptors in [faceted_get_ref]; [None] is the panic when neither the named nor
    the default store exists. *)
Fixpoint resolve_facets {Sto} (stores : gmap string Sto) (resolved : gmap string string)
    (descs : list FacetDescriptor) : option (gmap string string) :=
  match descs with
  | [] => Some resolved
  | d :: ds =>
      match stores !! fd_storage d with
      | Some _ => resolve_facets stores (<[fd_name d := fd_storage d]> resolved) ds
      | None =>
          match stores !! "default" with
          | Some _ => resolve_facets stores (<[fd_name d := "default"]> resolved) ds
          | None => None
          end
      end
  end.

Section facets.
Context {Sto : Type} `{StateStore Sto} {State : Type}.
(** The serializer of each store. *)
Context (serialize : string → State → option bytes) (deserialize : string → bytes → option State).

Definition facet_grain_id (c : FacetContext) (name : string) : GrainId :=
  mkGrainId (type_name (fc_grain_id c)) (key (fc_grain_id c) +:+ "/__facet/" +:+ name).

(** [resolve]: the store of a facet. *)
Definition facet_store (c : FacetContext) (stores : gmap string Sto) (name : string)
    : result PersistenceError (string * Sto) :=
  match fc_facets c !! name with
  | Some storage =>
      match stores !! storage with
      | Some s => Ok (storage, s)
      | None => Err (Deserialization ("unknown facet: " +:+ name))
      end
  | None => Err (Deserialization ("unknown facet: " +:+ name))
  end.

(** [FacetContext::load] *)
Definition facet_load (c : FacetContext) (stores : gmap string Sto) (name : string)
    : gmap string Sto * result PersistenceError (option State) :=
  match facet_store c stores name with
  | Err e => (stores, Err e)
  | Ok (storage, s) =>
      let '(s, r) := ss_load s (facet_grain_id c name) in
      (<[storage := s]> stores,
       match r with
       | Err e => Err e
       | Ok None => Ok None
       | Ok (Some b) =>
           match deserialize storage b with
           | Some st => Ok (Some st)
           | None => Err (Deserialization "")
           end
       end)
  end.

(** [FacetContext::save] *)
Definition facet_save (c : FacetContext) (stores : gmap string Sto) (name : string) (st : State)
    : gmap string Sto * result PersistenceError unit :=
  match facet_store c stores name with
  | Err e => (stores, Err e)
  | Ok (storage, s) =>
      match serialize storage st with
      | None => (stores, Err (Serialization ""))
      | Some b =>
          let '(s, r) := ss_save s (facet_grain_id c name) b in (<[storage := s]> stores, r)
      end
  end.

(** [FacetContext::clear] *)
Definition facet_clear (c : FacetContext) (stores : gmap string Sto) (name : string)
    : gmap string Sto * result PersistenceError unit :=
  match facet_store c stores name with
  | Err e => (stores, Err e)
  | Ok (storage, s) =>
      let '(s, r) := ss_delete s (facet_grain_id c name) in (<[storage := s]> stores, r)
  end.

(** The stored content under an id of a named store. *)
Definition content (stores : gmap string Sto) (storage : string) (g : GrainId) : option bytes :=
  stores !! storage ≫= λ s, ss_view s g.

Context `{!StateStoreLaws Sto} `{!ReliableStore Sto}.

Lemma facet_ids_differ c n n' : facet_grain_id c n = facet_grain_id c n' → n = n'.
Proof. unfold facet_grain_id. intros [= H1]. by do 2 apply str_app_inj_l in H1. Qed.

Lemma facet_id_not_grain c n : facet_grain_id c n ≠ fc_grain_id c.
Proof.
  unfold facet_grain_id. destruct (fc_grain_id c) as [t k]. cbn. intros [= H1].
  apply (f_equal String.length) in H1. rewrite !str_length_app in H1. cbn in H1. lia.
Qed.

(** Facets of a grain are independent of each other and of its primary state: saving one that is
    configured succeeds, is read back exactly, and leaves the content of every other id in every
    store alone, in particular the other facets and the grain's own state. *)
Theorem facet_save_load c stores name st storage s b :
  fc_facets c !! name = Some storage → stores !! storage = Some s →
  serialize storage st = Some b → deserialize storage b = Some st →
  ∃ stores', facet_save c stores name st = (stores', Ok ()) ∧
    (facet_load c stores' name).2 = Ok (Some st) ∧
    (∀ storage' g, (storage', g) ≠ (storage, facet_grain_id c name) →
       content stores' storage' g = content stores storage' g) ∧
    (∀ name' storage', name' ≠ name →
       content stores' storage' (facet_grain_id c name') = content stores storage' (facet_grain_id c name')) ∧
    (∀ storage', content stores' storage' (fc_grain_id c) = content stores storage' (fc_grain_id c)).
Proof.
  intros Hf Hs Hser Hde. unfold facet_save, facet_store. rewrite Hf, Hs, Hser.
  pose proof (ss_save_ok s (facet_grain_id c name) b) as Hok.
  destruct (ss_save s (facet_grain_id c name) b) as [s' r] eqn:E. destruct r as [[]|]; [|done].
  pose proof (ss_save_view _ _ _ _ _ E) as Hv. cbn in Hv.
  assert (∀ storage' g, (storage', g) ≠ (storage, facet_grain_id c name) →
            content (<[storage := s']> stores) storage' g = content stores storage' g) as Hother.
  { intros storage' g Hne. unfold content. destruct (decide (storage = storage')) as [<-|].
    - rewrite lookup_insert_eq, Hs. cbn. rewrite Hv. case_bool_decide; [by subst|done].
    - by rewrite lookup_insert_ne. }
  eexists. split_and!; [done| |done| |].
  - unfold facet_load, facet_store. rewrite Hf, lookup_insert_eq.
    pose proof (ss_load_ok s' (facet_grain_id c name)) as Hl.
    destruct (ss_load s' (facet_grain_id c name)) as [s2 [o|]] eqn:E2; [|done].
    destruct (ss_load_view _ _ _ _ E2) as [_ Ho]. specialize (Ho o eq_refl).
    rewrite Hv, bool_decide_true in Ho by done. subst o. cbn. by rewrite Hde.
  - intros name' storage' Hne. apply Hother. intros Hid%(f_equal snd). by apply facet_ids_differ in Hid.
  - intros storage'. apply Hother. intros Hid%(f_equal snd). by eapply facet_id_not_grain.
Qed.
End facets.
