(* ===== verification/Silos.v ===== *)
(** * Silos and the references they hand out

    orlando-core [grain_context.rs] (contexts and the references made from them), orlando-runtime
    [silo.rs] and [metrics_filter.rs], and the reference factories of orlando-persistence
    [persistent_silo.rs] with [serializer.rs]: which mailbox an activation runs, with which
    store, and which filters a reference carries. *)
From S2P Require Import Prelude CoreTypes Mailbox Directory Calls Store PersistentMailbox Transaction.

(** What the [Grain] trait declares of a grain type. *)
Record GrainDecl := mkDecl {
  gd_grain_type_name : string;
  gd_rust_type_name : string; (** [std::any::type_name::<G>()] *)
  gd_reentrant : bool;
  gd_storage_provider : string;
  gd_max_activations : nat }.

(** ** Serializers *)
Inductive SerializerFormat := FormatBincode | FormatJson.
#[global] Instance SerializerFormat_eq_dec : EqDecision SerializerFormat.
Proof. solve_decision. Defined.
Definition SerializerFormat_default : SerializerFormat := FormatBincode.

Section serializer.
Context {S : Type} (bincode_encode json_encode : S → result string bytes).
Context (bincode_decode json_decode : bytes → result string S).

Definition SerializerFormat_serialize (f : SerializerFormat) (state : S) : result PersistenceError bytes :=
  match f with
  | FormatBincode => map_err Serialization (bincode_encode state)
  | FormatJson => map_err Serialization (json_encode state)
  end.

Definition SerializerFormat_deserialize (f : SerializerFormat) (b : bytes) : result PersistenceError S :=
  match f with
  | FormatBincode => map_err Deserialization (bincode_decode b)
  | FormatJson => map_err Deserialization (json_decode b)
  end.
End serializer.

(** ** Activations and the mailbox each runs

    The loop a factory spawns for an activation; stores and journals by name. *)
Inductive MailboxKind :=
| RunMailbox
| RunReentrant
| RunPersistent (strategy : PersistenceStrategy) (store : string) (serializer : SerializerFormat)
| RunVersioned (strategy : PersistenceStrategy) (store : string) (serializer : SerializerFormat)
| RunJournaled (journal : string).
#[global] Instance MailboxKind_eq_dec : EqDecision MailboxKind.
Proof. solve_decision. Defined.

(** A directory with, for every sender it created, the loop that the task behind it was spawned with. *)
Record Host := mkHost { h_runtime : Runtime; h_kinds : gmap Sender MailboxKind }.
Definition Host_new (w : Runtime) : Host := mkHost w ∅.

(** Whether [get_or_insert] runs the factory it is given. *)
Definition creates (w : Runtime) (g : GrainId) : bool :=
  let '(w', s) := GrainDirectory_get_or_insert w g in
  bool_decide (live_sender w g = None) && negb (is_closed w' s).

(** [activator.get_or_insert(grain_id, factory)], the factory spawning [kind]. *)
Definition activate (h : Host) (g : GrainId) (kind : MailboxKind) : Host * Sender :=
  let '(w, s) := GrainDirectory_get_or_insert (h_runtime h) g in
  (mkHost w (if creates (h_runtime h) g then <[s := kind]> (h_kinds h) else h_kinds h), s).

(** The calls of a pool's factory. *)
Definition spawn_workers (kinds : gmap Sender MailboxKind) (ss : list Sender) : gmap Sender MailboxKind :=
  foldl (λ kinds s, <[s := RunMailbox]> kinds) kinds ss.

(** ** Grain contexts *)
Record GrainContext := mkContext {
  gc_grain_id : GrainId;
  gc_filters : FilterChain;
  gc_request_context : RequestContext;
  gc_cancellation : nat }.

(** A fresh cancellation token. *)
Definition fresh_token (w : Runtime) : Runtime * nat :=
  (mkRuntime (rt_dir w) (rt_open w) (rt_cancelled w) (rt_aborted w) (rt_gauge w) (rt_inbox w) (S (rt_fresh w)), rt_fresh w).

Definition GrainContext_with_filters (w : Runtime) (g : GrainId) (filters : FilterChain)
  : Runtime * GrainContext :=
  let '(w, token) := fresh_token w in (w, mkContext g filters RequestContext_new token).
Definition GrainContext_new (w : Runtime) (g : GrainId) : Runtime * GrainContext :=
  GrainContext_with_filters w g [].
Definition with_cancellation (c : GrainContext) (token : nat) : GrainContext :=
  mkContext (gc_grain_id c) (gc_filters c) (gc_request_context c) token.
Definition with_request_context (c : GrainContext) (ctx : RequestContext) : GrainContext :=
  mkContext (gc_grain_id c) (gc_filters c) ctx (gc_cancellation c).
Definition is_cancelled (w : Runtime) (c : GrainContext) : bool :=
  bool_decide (gc_cancellation c ∈ rt_cancelled w).
Definition request_context (task_local : option RequestContext) (c : GrainContext) : RequestContext :=
  let current := RequestContext_current task_local in
  if RequestContext_is_empty current then gc_request_context c else current.
Definition self_sender (w : Runtime) (c : GrainContext) : option Sender :=
  GrainDirectory_get_sender w (gc_grain_id c).

(** [GrainContext::get_ref] *)
Definition GrainContext_get_ref (h : Host) (c : GrainContext) (d : GrainDecl) (key : string)
  : Host * (Sender * GrainRef) :=
  let g := mkGrainId (gd_grain_type_name d) key in
  let '(h, s) := activate h g (if gd_reentrant d then RunReentrant else RunMailbox) in
  (h, (s, GrainRef_with_id g (gc_filters c))).

(** [GrainContext::get_worker_ref] *)
Definition GrainContext_get_worker_ref (h : Host) (d : GrainDecl) (key : string) : Host * WorkerGrainRef :=
  let g := mkGrainId (gd_grain_type_name d) key in
  let '(w, ss) := GrainDirectory_get_or_insert_pool (h_runtime h) g (gd_max_activations d) in
  let created := bool_decide (rt_fresh w ≠ rt_fresh (h_runtime h)) in
  (mkHost w (if created then spawn_workers (h_kinds h) ss else h_kinds h), WorkerGrainRef_new ss).

(** ** The single-node silo; hooks and services are numbered *)
Record SiloBuilder := mkBuilder {
  sb_filters : FilterChain; sb_max_activations : option Z; sb_on_startup : list nat;
  sb_on_shutdown : list nat; sb_services : list nat }.

Record RuntimeSilo := mkRuntimeSilo {
  rs_host : Host;
  rs_filters : FilterChain;
  rs_shutdown_hooks : list nat;
  rs_service_cancel : nat;
  rs_service_handles : list nat }.

Definition SiloBuilder_new : SiloBuilder := mkBuilder [] None [] [] [].
Definition add_service (b : SiloBuilder) (s : nat) : SiloBuilder :=
  mkBuilder (sb_filters b) (sb_max_activations b) (sb_on_startup b) (sb_on_shutdown b) (sb_services b ++ [s]).
Definition builder_filter (b : SiloBuilder) (f : GrainCallInfo → result string unit) : SiloBuilder :=
  mkBuilder (sb_filters b ++ [f]) (sb_max_activations b) (sb_on_startup b) (sb_on_shutdown b) (sb_services b).
Definition builder_max_activations (b : SiloBuilder) (limit : Z) : SiloBuilder :=
  mkBuilder (sb_filters b) (Some limit) (sb_on_startup b) (sb_on_shutdown b) (sb_services b).
Definition on_startup (b : SiloBuilder) (hook : nat) : SiloBuilder :=
  mkBuilder (sb_filters b) (sb_max_activations b) (sb_on_startup b ++ [hook]) (sb_on_shutdown b) (sb_services b).
Definition on_shutdown (b : SiloBuilder) (hook : nat) : SiloBuilder :=
  mkBuilder (sb_filters b) (sb_max_activations b) (sb_on_startup b) (sb_on_shutdown b ++ [hook]) (sb_services b).

(** What building and shutting down do, in order. *)
Inductive SiloEvent := RanHook (hook : nat) | SpawnedService (service : nat) | AwaitedService (service : nat).

(** [SiloBuilder::build]: a service's handle is its number. *)
Definition SiloBuilder_build (b : SiloBuilder) : RuntimeSilo * list SiloEvent :=
  let w := match sb_max_activations b with
           | Some limit => GrainDirectory_set_max_activations Runtime_new limit
           | None => Runtime_new
           end in
  let '(w, token) := fresh_token w in
  (mkRuntimeSilo (Host_new w) (sb_filters b) (sb_on_shutdown b) token (sb_services b),
   (RanHook <$> sb_on_startup b) ++ (SpawnedService <$> sb_services b)).

Definition silo_with_host (s : RuntimeSilo) (h : Host) : RuntimeSilo :=
  mkRuntimeSilo h (rs_filters s) (rs_shutdown_hooks s) (rs_service_cancel s) (rs_service_handles s).

(** [make_context] *)
Definition silo_context (h : Host) (filters : FilterChain) : Host * GrainContext :=
  let '(w, c) := GrainContext_with_filters (h_runtime h) (mkGrainId "silo" "") filters in
  (mkHost w (h_kinds h), c).

Definition Silo_get_ref (s : RuntimeSilo) (d : GrainDecl) (key : string) : RuntimeSilo * (Sender * GrainRef) :=
  let '(h, c) := silo_context (rs_host s) (rs_filters s) in
  let '(h, r) := GrainContext_get_ref h c d key in (silo_with_host s h, r).

Definition Silo_get_worker_ref (s : RuntimeSilo) (d : GrainDecl) (key : string) : RuntimeSilo * WorkerGrainRef :=
  let '(h, c) := silo_context (rs_host s) (rs_filters s) in
  let '(h, r) := GrainContext_get_worker_ref h d key in (silo_with_host s h, r).

Definition cancel_token (w : Runtime) (token : nat) : Runtime :=
  mkRuntime (rt_dir w) (rt_open w) ({[token]} ∪ rt_cancelled w) (rt_aborted w) (rt_gauge w) (rt_inbox w) (rt_fresh w).

(** [shutdown_services]: [None] when a service never ends, which the await then waits for. *)
Definition shutdown_services (ends : nat → bool) (s : RuntimeSilo)
  : option (RuntimeSilo * list SiloEvent) :=
  let h := rs_host s in
  let s' := mkRuntimeSilo (mkHost (cancel_token (h_runtime h) (rs_service_cancel s)) (h_kinds h))
              (rs_filters s) (rs_shutdown_hooks s) (rs_service_cancel s) [] in
  if forallb ends (rs_service_handles s) then Some (s', AwaitedService <$> rs_service_handles s) else None.

Definition run_shutdown_hooks (s : RuntimeSilo) : RuntimeSilo * list SiloEvent :=
  (mkRuntimeSilo (rs_host s) (rs_filters s) [] (rs_service_cancel s) (rs_service_handles s),
   RanHook <$> rs_shutdown_hooks s).

Definition Silo_drop (s : RuntimeSilo) : RuntimeSilo :=
  let h := rs_host s in
  silo_with_host s (mkHost (cancel_token (h_runtime h) (rs_service_cancel s)) (h_kinds h)).

(** ** Metrics *)
Record Metrics := mkMetrics {
  calls_total : gmap (string * string) Z;
  call_durations : gmap string nat; (** recorded values *)
  errors_total : gmap (string * string) Z }.
Definition metrics_label (i : GrainCallInfo) : string * string :=
  (type_name (info_grain_id i), info_message_type i).
Definition increment {K} `{Countable K} (m : gmap K Z) (k : K) : gmap K Z := <[k := default 0 (m !! k) + 1]> m.

Definition MetricsFilter_on_before (m : Metrics) (i : GrainCallInfo) : Metrics * result string unit :=
  (mkMetrics (increment (calls_total m) (metrics_label i)) (call_durations m) (errors_total m), Ok ()).

Definition MetricsFilter_on_after (m : Metrics) (i : GrainCallInfo) (result_ok : bool) : Metrics :=
  let t := type_name (info_grain_id i) in
  mkMetrics (calls_total m) (<[t := S (default 0%nat (call_durations m !! t))]> (call_durations m))
    (if result_ok then errors_total m else increment (errors_total m) (metrics_label i)).

(** ** The persistent silo *)
Record StoreEntry (Sto : Type) := mkStoreEntry { se_store : Sto; se_serializer : SerializerFormat }.
Arguments mkStoreEntry {Sto} _ _.
Arguments se_store {Sto} _.
Arguments se_serializer {Sto} _.

Section persistent_silo.
Context {Sto : Type}.
Abbreviation Stores := (gmap string (StoreEntry Sto)).

Record PersistentSilo := mkPSilo { ps_host : Host; ps_stores : Stores; ps_filters : FilterChain }.
Record PersistentSiloBuilder := mkPBuilder { pb_stores : Stores; pb_filters : FilterChain }.

Definition PersistentSilo_builder : PersistentSiloBuilder := mkPBuilder ∅ [].
Definition named_store_with_serializer (b : PersistentSiloBuilder) (name : string) (s : Sto)
  (f : SerializerFormat) : PersistentSiloBuilder :=
  mkPBuilder (<[name := mkStoreEntry s f]> (pb_stores b)) (pb_filters b).
Definition named_store (b : PersistentSiloBuilder) (name : string) (s : Sto) : PersistentSiloBuilder :=
  named_store_with_serializer b name s SerializerFormat_default.
Definition default_store (b : PersistentSiloBuilder) (s : Sto) : PersistentSiloBuilder :=
  named_store b "default" s.
(** The variants that take a shared store. *)
Definition named_store_arc_with_serializer (b : PersistentSiloBuilder) (name : string) (s : Sto)
  (f : SerializerFormat) : PersistentSiloBuilder :=
  mkPBuilder (<[name := mkStoreEntry s f]> (pb_stores b)) (pb_filters b).
Definition named_store_arc (b : PersistentSiloBuilder) (name : string) (s : Sto) : PersistentSiloBuilder :=
  mkPBuilder (<[name := mkStoreEntry s SerializerFormat_default]> (pb_stores b)) (pb_filters b).
Definition store_arc (b : PersistentSiloBuilder) (s : Sto) : PersistentSiloBuilder :=
  named_store_arc b "default" s.
Definition persistent_filter (b : PersistentSiloBuilder) (f : GrainCallInfo → result string unit)
  : PersistentSiloBuilder := mkPBuilder (pb_stores b) (pb_filters b ++ [f]).

(** [build]; [None] is the failed assertion. *)
Definition PersistentSilo_build (b : PersistentSiloBuilder) : option PersistentSilo :=
  if bool_decide (pb_stores b = ∅) then None
  else Some (mkPSilo (Host_new Runtime_new) (pb_stores b) (pb_filters b)).

Implicit Types (s : PersistentSilo) (d : GrainDecl).

(** The accessors [store] ([None] is the panic) and [named_store]. *)
Definition PersistentSilo_named_store s (name : string) : option Sto := se_store <$> ps_stores s !! name.
Definition PersistentSilo_store s : option Sto := PersistentSilo_named_store s "default".

(** [entry_for]: the name under which the entry is found; [None] is the panic. *)
Definition entry_for s d : option (string * StoreEntry Sto) :=
  match ps_stores s !! gd_storage_provider d with
  | Some e => Some (gd_storage_provider d, e)
  | None => e ← ps_stores s !! "default"; Some ("default", e)
  end.

Definition ps_with_host s (h : Host) : PersistentSilo := mkPSilo h (ps_stores s) (ps_filters s).

Definition PersistentSilo_get_ref s d (key : string) : PersistentSilo * (Sender * GrainRef) :=
  let '(h, c) := silo_context (ps_host s) (ps_filters s) in
  let '(h, r) := GrainContext_get_ref h c d key in (ps_with_host s h, r).

(** The id every reference to a stored grain uses. *)
Definition stored_id d (key : string) : GrainId := mkGrainId (gd_rust_type_name d) key.

(** [persistent_get_ref_with_strategy] *)
Definition persistent_get_ref_with_strategy s d (key : string) (strategy : PersistenceStrategy)
  : option (PersistentSilo * (Sender * GrainRef)) :=
  '(name, e) ← entry_for s d;
  let '(h, sd) := activate (ps_host s) (stored_id d key) (RunPersistent strategy name (se_serializer e)) in
  Some (ps_with_host s h, (sd, GrainRef_new (gd_grain_type_name d))).

Definition persistent_get_ref s d (key : string) : option (PersistentSilo * (Sender * GrainRef)) :=
  persistent_get_ref_with_strategy s d key PersistenceStrategy_default.

(** [transactional_get_ref]: the reference keeps the id and the store. *)
Definition transactional_get_ref s d (key : string) : option (PersistentSilo * (Sender * string * GrainId)) :=
  '(name, e) ← entry_for s d;
  let '(h, sd) := activate (ps_host s) (stored_id d key)
                    (RunPersistent WriteOnDeactivate name (se_serializer e)) in
  Some (ps_with_host s h, (sd, name, stored_id d key)).

(** [versioned_get_ref_with_strategy] *)
Definition versioned_get_ref_with_strategy s d (key : string) (strategy : PersistenceStrategy)
  : option (PersistentSilo * (Sender * GrainRef)) :=
  '(name, e) ← entry_for s d;
  let '(h, sd) := activate (ps_host s) (stored_id d key) (RunVersioned strategy name (se_serializer e)) in
  Some (ps_with_host s h, (sd, GrainRef_new (gd_grain_type_name d))).

Definition versioned_get_ref s d (key : string) : option (PersistentSilo * (Sender * GrainRef)) :=
  versioned_get_ref_with_strategy s d key PersistenceStrategy_default.

(** [journaled_get_ref]: no store is involved. *)
Definition journaled_get_ref s d (key journal : string) : PersistentSilo * (Sender * string * GrainId) :=
  let '(h, sd) := activate (ps_host s) (stored_id d key) (RunJournaled journal) in
  (ps_with_host s h, (sd, journal, stored_id d key)).

(** [faceted_get_ref] *)
Definition faceted_get_ref s d (key : string) (descs : list FacetDescriptor)
  : option (PersistentSilo * (Sender * FacetContext)) :=
  resolved ← resolve_facets (ps_stores s) ∅ descs;
  '(name, e) ← entry_for s d;
  let '(h, sd) := activate (ps_host s) (stored_id d key)
                    (RunPersistent PersistenceStrategy_default name (se_serializer e)) in
  Some (ps_with_host s h, (sd, mkFacets (stored_id d key) resolved)).

(** [FacetedGrainRef::ask]: the handler works on the state and, through the facet context, on the stores;
    its panic drops the reply. *)
Definition FacetedGrainRef_ask {State R} (handle : State → gmap string Sto → State * gmap string Sto * option R)
  (mailbox_open late : bool) (timeout : Z) (state_any : option State) (stores : gmap string Sto)
  : option State * gmap string Sto * result GrainError R :=
  if mailbox_open then
    match state_any with
    | None =>
        (None, stores,
         if late then Err (Timeout timeout) else Err (HandlerFailed "grain state type mismatch"))
    | Some st =>
        let '(st, stores, r) := handle st stores in
        (Some st, stores,
         if late then Err (Timeout timeout)
         else match r with Some v => Ok v | None => Err MailboxClosed end)
    end
  else (state_any, stores, Err MailboxClosed).
End persistent_silo.
Arguments PersistentSilo : clear implicits.
Arguments PersistentSiloBuilder : clear implicits.

(** ** Every mailbox keeps the loop it was created with *)
Record host_inv (h : Host) : Prop := {
  hi_dir : directory_inv (h_runtime h);
  hi_open : ∀ s, s ∈ rt_open (h_runtime h) → is_Some (h_kinds h !! s);
  hi_fresh : ∀ s k, h_kinds h !! s = Some k → (s < rt_fresh (h_runtime h))%nat }.

(** One operation on the directory of a silo. *)
Inductive host_step : Host → Host → Prop :=
| hs_activate h g k : host_step h (activate h g k).1
| hs_workers h d key : host_step h (GrainContext_get_worker_ref h d key).1
| hs_context h fs : host_step h (silo_context h fs).1
| hs_teardown h g : host_step h (mkHost (GrainDirectory_activator_remove (h_runtime h) g) (h_kinds h))
| hs_task_end h b t : host_step h (mkHost (end_task b (h_runtime h) t) (h_kinds h))
| hs_drain h f : host_step h (mkHost (GrainDirectory_drain f (h_runtime h)) (h_kinds h))
| hs_limit h n : host_step h (mkHost (GrainDirectory_set_max_activations (h_runtime h) n) (h_kinds h)).

(** The three outcomes of an activation. *)
Lemma activate_cases h g k :
  directory_inv (h_runtime h) →
  (∃ s, live_sender (h_runtime h) g = Some s ∧ activate h g k = (h, s)) ∨
  (live_sender (h_runtime h) g = None ∧
   activate h g k = (mkHost (closed_channel (h_runtime h)).1 (h_kinds h), rt_fresh (h_runtime h))) ∨
  (∃ w, live_sender (h_runtime h) g = None ∧
   activate h g k = (mkHost w (<[rt_fresh (h_runtime h) := k]> (h_kinds h)), rt_fresh (h_runtime h)) ∧
   w = (GrainDirectory_get_or_insert (h_runtime h) g).1 ∧
   rt_open w = {[rt_fresh (h_runtime h)]} ∪ rt_open (h_runtime h) ∧
   rt_fresh w = S (rt_fresh (h_runtime h)) ∧
   activations (rt_dir w) = <[g := activation_of g (rt_fresh (h_runtime h))]> (activations (rt_dir (h_runtime h)))).
Proof.
  intros Hw. unfold activate, creates. destruct h as [w kinds]. cbn [h_runtime h_kinds] in *.
  destruct (live_sender w g) as [s|] eqn:L.
  { left. exists s. by rewrite (get_or_insert_live w g s L). }
  right. destruct (decide (draining (rt_dir w) = true ∨ at_limit w)) as [Hr|Hr].
  - left. split; [done|]. rewrite (get_or_insert_refused w g L Hr). cbn [closed_channel].
    assert (is_closed (closed_channel w).1 (rt_fresh w) = true) as Hc.
    { unfold is_closed. cbn. apply bool_decide_eq_true. intros Hin. pose proof (di_open _ Hw _ Hin). lia. }
    unfold closed_channel in Hc. cbn [fst] in Hc. by rewrite Hc, andb_false_r.
  - right. assert (draining (rt_dir w) = false ∧ ¬ at_limit w) as [Hd Hl].
    { destruct (draining (rt_dir w)); naive_solver. }
    pose proof (get_or_insert_created w g L Hd Hl) as Hc.
    destruct (GrainDirectory_get_or_insert w g) as [w' s] eqn:E. destruct Hc as (-> & Ho & Hf & Ha).
    exists w'. split; [done|]. rewrite bool_decide_true by done. cbn [andb].
    assert (is_closed w' (rt_fresh w) = false) as ->.
    { unfold is_closed. rewrite Ho. apply bool_decide_eq_false. set_solver. }
    done.
Qed.

Lemma activate_inv h g k : host_inv h → host_inv (activate h g k).1.
Proof.
  intros [Hd Ho Hf]. destruct (activate_cases h g k Hd) as [(s & _ & ->)|[[_ ->]|(w & _ & -> & -> & Hop & Hfr & _)]].
  - done.
  - split; cbn [fst h_runtime h_kinds]; [by apply directory_inv_closed_channel|exact Ho|].
    intros s k' Hs. specialize (Hf s k' Hs). cbn. lia.
  - split; cbn [fst h_runtime h_kinds]; [by apply directory_inv_get_or_insert| |].
    + intros s. rewrite Hop. intros [->%elem_of_singleton|Hs]%elem_of_union; [by rewrite lookup_insert_eq|].
      destruct (decide (rt_fresh (h_runtime h) = s)) as [->|]; [by rewrite lookup_insert_eq|].
      rewrite lookup_insert_ne by done. by apply Ho.
    + intros s k' [[<- _]|[_ Hs]]%lookup_insert_Some; rewrite Hfr; [lia|]. specialize (Hf s k' Hs). lia.
Qed.

Lemma lookup_spawn kinds ss s :
  spawn_workers kinds ss !! s = if decide (s ∈ ss) then Some RunMailbox else kinds !! s.
Proof.
  unfold spawn_workers. revert kinds. induction ss as [|x ss IH]; intros kinds; cbn [foldl]; [done|].
  rewrite IH. destruct (decide (s ∈ ss)); [by rewrite decide_True by (by right)|].
  destruct (decide (s = x)) as [->|]; [by rewrite lookup_insert_eq, decide_True by (by left)|].
  rewrite lookup_insert_ne, decide_False by (set_solver || done). done.
Qed.

(** A pool reference either reuses the pool or creates fresh workers. *)
Lemma worker_ref_cases h d key :
  (GrainContext_get_worker_ref h d key).1 = h ∨
  (∃ ss, h_kinds (GrainContext_get_worker_ref h d key).1 = spawn_workers (h_kinds h) ss ∧
     ss = seq (rt_fresh (h_runtime h)) (gd_max_activations d) ∧
     rt_fresh (h_runtime (GrainContext_get_worker_ref h d key).1) = (rt_fresh (h_runtime h) + gd_max_activations d)%nat ∧
     rt_open (h_runtime (GrainContext_get_worker_ref h d key).1) = list_to_set ss ∪ rt_open (h_runtime h)).
Proof.
  unfold GrainContext_get_worker_ref, GrainDirectory_get_or_insert_pool. destruct h as [w kinds]. cbn [h_runtime h_kinds].
  pose proof (create_pool_spec w (gd_max_activations d)) as Hc.
  destruct (create_pool w (gd_max_activations d)) as [w' ss]. destruct Hc as (_ & _ & _ & -> & Hf & Ho).
  assert (∀ x, h_kinds (mkHost (with_pools w' x)
     (if bool_decide (rt_fresh (with_pools w' x) ≠ rt_fresh w)
      then spawn_workers kinds (seq (rt_fresh w) (gd_max_activations d)) else kinds)) =
    spawn_workers kinds (seq (rt_fresh w) (gd_max_activations d))) as Hk.
  { intros x. cbn. rewrite Hf. case_bool_decide as Hb; [done|].
    assert (gd_max_activations d = 0%nat) as -> by lia. done. }
  destruct (worker_pools (rt_dir w) !! _) as [pool|]; [destruct (existsb _ _)|].
  - left. cbn. by rewrite bool_decide_false by (intros H; by apply H).
  - right. eexists. split_and!; [apply Hk|done|done|done].
  - right. eexists. split_and!; [apply Hk|done|done|done].
Qed.

Lemma workers_inv h d key : host_inv h → host_inv (GrainContext_get_worker_ref h d key).1.
Proof.
  intros [Hd Ho Hf].
  pose proof (directory_inv_pool (h_runtime h) (mkGrainId (gd_grain_type_name d) key) (gd_max_activations d) Hd) as Hi.
  assert (h_runtime (GrainContext_get_worker_ref h d key).1 =
    (GrainDirectory_get_or_insert_pool (h_runtime h) (mkGrainId (gd_grain_type_name d) key) (gd_max_activations d)).1) as Hr
    by (unfold GrainContext_get_worker_ref; by destruct (GrainDirectory_get_or_insert_pool _ _ _)).
  rewrite <-Hr in Hi. destruct (worker_ref_cases h d key) as [E|(ss & Hk & -> & Hfr & Hop)]; [by rewrite E|].
  split; [done| |].
  - intros s. rewrite Hop, Hk, lookup_spawn. case_decide; [done|].
    rewrite elem_of_union, elem_of_list_to_set. intros [?|?]; [done|by apply Ho].
  - intros s k. rewrite Hk, lookup_spawn, Hfr. case_decide as Hs.
    + intros _. apply elem_of_seq in Hs. lia.
    + intros Hs'. specialize (Hf s k Hs'). lia.
Qed.

(** Steps that only close mailboxes. *)
Lemma frame_inv h w :
  host_inv h → directory_inv w → rt_open w ⊆ rt_open (h_runtime h) → (rt_fresh (h_runtime h) ≤ rt_fresh w)%nat →
  host_inv (mkHost w (h_kinds h)).
Proof.
  intros [Hd Ho Hf] Hw Hop Hfr. split; [done| |].
  - intros s Hs. apply Ho, Hop, Hs.
  - intros s k Hs. specialize (Hf s k Hs). cbn. lia.
Qed.

Lemma end_tasks_frame f ts w :
  rt_open (foldl (λ w t, end_task (f t) w t) w ts) ⊆ rt_open w ∧
  rt_fresh (foldl (λ w t, end_task (f t) w t) w ts) = rt_fresh w.
Proof.
  revert w. induction ts as [|t ts IH]; intros w; [done|]. cbn [foldl].
  destruct (IH (end_task (f t) w t)) as [H1 H2]. rewrite H2. split; [|done].
  etrans; [exact H1|]. cbn. set_solver.
Qed.

Lemma drain_remove_fresh w ks : rt_fresh (drain_remove w ks).1 = rt_fresh w.
Proof.
  revert w. induction ks as [|k ks IH]; intros w; [done|]. cbn.
  unfold GrainDirectory_remove. destruct (activations (rt_dir w) !! k); [|apply IH].
  set (w1 := gauge_add _ _ _). specialize (IH w1). by destruct (drain_remove w1 ks).
Qed.

Lemma drain_frame f w :
  rt_open (GrainDirectory_drain f w) ⊆ rt_open w ∧ rt_fresh (GrainDirectory_drain f w) = rt_fresh w.
Proof.
  unfold GrainDirectory_drain. set (w1 := cancel_all _). set (ks := fst <$> _).
  pose proof (drain_remove_frame w1 ks) as (_ & _ & _ & Ho). pose proof (drain_remove_fresh w1 ks) as Hf.
  destruct (drain_remove w1 ks) as [w2 ts]. cbn [fst] in *.
  pose proof (end_tasks_frame (λ t, negb (f t)) ts w2) as [H1 H2]. set (w3 := foldl _ w2 ts) in *.
  pose proof (end_tasks_frame (λ _, true) (map_to_list (worker_pools (rt_dir w3)) ≫= (pool_tasks ∘ snd))
    (with_pools w3 ∅)) as [H3 H4]. cbn in H3, H4.
  split; [etrans; [exact H3|]; etrans; [exact H1|]; by rewrite Ho|]. etrans; [exact H4|]. by rewrite H2, Hf.
Qed.

Lemma host_step_inv h h' : host_step h h' → host_inv h → host_inv h'.
Proof.
  intros Hs Hh. pose proof (hi_dir _ Hh) as Hd. destruct Hs.
  - by apply activate_inv.
  - by apply workers_inv.
  - apply frame_inv; [done| |done|cbn; lia].
    eapply directory_inv_frame; [..|exact Hd]; cbn; try done; [lia|]. intros s Hs%(di_open _ Hd). lia.
  - destruct (activator_remove_frame (h_runtime h) g) as (Ho & _ & _ & Hf).
    apply frame_inv; [done|by apply directory_inv_activator_remove|by rewrite Ho|by rewrite Hf].
  - apply frame_inv; [done|by apply directory_inv_end_task|cbn; set_solver|done].
  - destruct (drain_frame f (h_runtime h)) as [Ho Hf].
    apply frame_inv; [done|by apply directory_inv_drain|done|by rewrite Hf].
  - apply frame_inv; [done| |done|done]. by apply (directory_step_inv (h_runtime h)); [constructor|].
Qed.

Lemma host_step_kinds h h' s k :
  host_step h h' → host_inv h → h_kinds h !! s = Some k → h_kinds h' !! s = Some k.
Proof.
  intros Hs Hh Hk. pose proof (hi_fresh _ Hh s k Hk) as Hf. destruct Hs; try done.
  - destruct (activate_cases h g k0 (hi_dir _ Hh)) as [(? & _ & ->)|[[_ ->]|(w & _ & -> & _)]]; [done..|].
    cbn. rewrite lookup_insert_ne; [done|lia].
  - destruct (worker_ref_cases h d key) as [->|(ss & -> & -> & _)]; [done|].
    rewrite lookup_spawn, decide_False; [done|]. intros Hin%elem_of_seq. lia.
Qed.

Lemma host_inv_new : host_inv (Host_new Runtime_new).
Proof.
  split; [apply directory_inv_new| |]; cbn; [intros s Hs; set_solver|intros s k; by rewrite lookup_empty].
Qed.

Lemma host_reach_inv h h' : rtc host_step h h' → host_inv h → host_inv h'.
Proof. induction 1; eauto using host_step_inv. Qed.

Lemma host_reach_kinds h h' s k :
  rtc host_step h h' → host_inv h → h_kinds h !! s = Some k → h_kinds h' !! s = Some k.
Proof. induction 1; eauto using host_step_inv, host_step_kinds. Qed.

(** ** References of a persistent silo *)
Section references.
Context {Sto : Type}.
Implicit Types (s : PersistentSilo Sto) (d : GrainDecl).

(** The entry of a grain type is the one its provider names, and the default one only otherwise. *)
Lemma entry_for_spec s d :
  entry_for s d =
    match ps_stores s !! gd_storage_provider d, ps_stores s !! "default" with
    | Some e, _ => Some (gd_storage_provider d, e)
    | None, Some e => Some ("default", e)
    | None, None => None
    end.
Proof. unfold entry_for. destruct (ps_stores s !! gd_storage_provider d); [done|]. by destruct (ps_stores s !! "default"). Qed.

(** References to stored grains carry no filters and no key: none of the silo's filters sees their
    calls. *)
Lemma persistent_ref_unfiltered {R} s d key strategy s' sd ref ctx mt ch (reply : Oneshot R) t :
  persistent_get_ref_with_strategy s d key strategy = Some (s', (sd, ref)) →
  Forall (λ e, e = EvEnqueued) (GrainRef_ask ref ctx mt ch reply t).2.
Proof.
  unfold persistent_get_ref_with_strategy. destruct (entry_for s d) as [[name e]|]; [|done]. cbn.
  destruct (activate _ _ _) as [h sd']. intros [= <- <- <-]. unfold GrainRef_ask. cbn.
  destruct (is_in_call_chain _ _); [constructor|]. unfold send_await. destruct (ch_closed ch); cbn; [constructor|].
  by apply Forall_singleton.
Qed.

Lemma silo_context_host (h : Host) fs :
  let '(h', c) := silo_context h fs in
  h_kinds h' = h_kinds h ∧ rt_dir (h_runtime h') = rt_dir (h_runtime h) ∧
  rt_open (h_runtime h') = rt_open (h_runtime h) ∧ gc_filters c = fs.
Proof. done. Qed.

Lemma live_sender_ext w w' g :
  rt_dir w' = rt_dir w → rt_open w' = rt_open w → live_sender w' g = live_sender w g.
Proof. unfold live_sender, GrainDirectory_get_sender, is_closed. by intros -> ->. Qed.

Lemma unlimited w : max_activations (rt_dir w) = 0 → ¬ at_limit w.
Proof. unfold at_limit. lia. Qed.

(** An activation on a host without limit. *)
Lemma activate_fresh h g k :
  host_inv h → live_sender (h_runtime h) g = None → draining (rt_dir (h_runtime h)) = false →
  max_activations (rt_dir (h_runtime h)) = 0 →
  let '(h', sd) := activate h g k in
  sd = rt_fresh (h_runtime h) ∧ host_inv h' ∧ live_sender (h_runtime h') g = Some sd ∧
  h_kinds h' = <[sd := k]> (h_kinds h) ∧
  draining (rt_dir (h_runtime h')) = false ∧ max_activations (rt_dir (h_runtime h')) = 0 ∧
  (∀ g', g' ≠ g → live_sender (h_runtime h') g' = live_sender (h_runtime h) g').
Proof.
  intros Hh Hl Hd Hm. pose proof (activate_inv h g k Hh) as Hi.
  pose proof (get_or_insert_created (h_runtime h) g Hl Hd (unlimited _ Hm)) as Hc.
  assert (draining (rt_dir (GrainDirectory_get_or_insert (h_runtime h) g).1) = false ∧
    max_activations (rt_dir (GrainDirectory_get_or_insert (h_runtime h) g).1) = 0) as [Hd' Hm'].
  { unfold GrainDirectory_get_or_insert. repeat (case_match; simplify_eq/=); done. }
  destruct (activate_cases h g k (hi_dir _ Hh)) as [(s' & Hl' & _)|[[_ E]|(w & _ & E & -> & Ho & Hf & Ha)]].
  - congruence.
  - exfalso. unfold activate in E. destruct (GrainDirectory_get_or_insert (h_runtime h) g) as [w s'].
    destruct Hc as (-> & Ho & _). injection E as Ew _. rewrite Ew in Ho. cbn in Ho.
    assert (rt_fresh (h_runtime h) ∈ rt_open (h_runtime h)) as Hin by set_solver.
    pose proof (di_open _ (hi_dir _ Hh) _ Hin). lia.
  - rewrite E in *. cbn [fst h_runtime h_kinds] in *. clear Hc E.
    set (w := (GrainDirectory_get_or_insert (h_runtime h) g).1) in *.
    split_and!; try done.
    + unfold live_sender, GrainDirectory_get_sender, is_closed. rewrite Ha, lookup_insert_eq. cbn.
      rewrite bool_decide_false; [done|]. rewrite Ho. set_solver.
    + intros g' Hne. unfold live_sender, GrainDirectory_get_sender, is_closed. rewrite Ha, lookup_insert_ne by done.
      destruct (activations (rt_dir (h_runtime h)) !! g') as [a|] eqn:E; [|done]. cbn. rewrite Ho.
      pose proof (di_fresh _ (hi_dir _ Hh) _ _ E) as Hlt.
      erewrite bool_decide_ext; [done|]. set_solver by lia.
Qed.

Lemma context_step h fs : host_step h (silo_context h fs).1.
Proof. constructor. Qed.

(** Refused and carried out. *)
Lemma activate_refused h g k :
  host_inv h → live_sender (h_runtime h) g = None → draining (rt_dir (h_runtime h)) = true ∨ at_limit (h_runtime h) →
  activate h g k = (mkHost (closed_channel (h_runtime h)).1 (h_kinds h), rt_fresh (h_runtime h)).
Proof.
  intros Hh Hl Hr. destruct (activate_cases h g k (hi_dir _ Hh)) as [(s' & ? & _)|[[_ E]|(w & _ & _ & -> & Ho & _)]]; [congruence|done|].
  exfalso. rewrite (get_or_insert_refused _ _ Hl Hr) in Ho. cbn in Ho.
  assert (rt_fresh (h_runtime h) ∈ rt_open (h_runtime h)) as Hin by (rewrite Ho; set_solver).
  pose proof (di_open _ (hi_dir _ Hh) _ Hin). lia.
Qed.
Lemma activate_spawned h g k :
  host_inv h → live_sender (h_runtime h) g = None → ¬ (draining (rt_dir (h_runtime h)) = true ∨ at_limit (h_runtime h)) →
  let '(h', sd) := activate h g k in
  live_sender (h_runtime h') g = Some sd ∧ h_kinds h !! sd = None ∧ h_kinds h' = <[sd := k]> (h_kinds h).
Proof.
  intros Hh Hl [Hd%not_true_is_false Hlim]%Decidable.not_or. pose proof (get_or_insert_created (h_runtime h) g Hl Hd Hlim) as Hc.
  destruct (activate_cases h g k (hi_dir _ Hh)) as [(s' & ? & _)|[[_ E]|(w & _ & E & _ & Ho & _ & Ha)]]; [congruence| |].
  - exfalso. unfold activate in E. destruct (GrainDirectory_get_or_insert (h_runtime h) g) as [w s'].
    destruct Hc as (-> & Ho & _). injection E as Ew _. rewrite Ew in Ho. cbn in Ho.
    assert (rt_fresh (h_runtime h) ∈ rt_open (h_runtime h)) as Hin by set_solver.
    pose proof (di_open _ (hi_dir _ Hh) _ Hin). lia.
  - rewrite E. cbn [h_runtime h_kinds]. split_and!; [| |done].
    + unfold live_sender, GrainDirectory_get_sender, is_closed. rewrite Ha, lookup_insert_eq. cbn.
      rewrite bool_decide_false; [done|]. rewrite Ho. set_solver.
    + apply eq_None_not_Some. intros [k' Hk']. pose proof (hi_fresh _ Hh _ _ Hk'). lia.
Qed.

(** *** Which loop a reference starts *)

(** The references a persistent silo hands out. *)
Inductive Reference :=
| PlainRef
| PersistentRef (strategy : PersistenceStrategy)
| TransactionalRef
| VersionedRef (strategy : PersistenceStrategy)
| JournaledRef (journal : string)
| FacetedRef (descs : list FacetDescriptor).

(** The silo and the sender of the reference; [None] is the panic for want of a store. *)
Definition request_ref s d (key : string) (r : Reference) : option (PersistentSilo Sto * Sender) :=
  match r with
  | PlainRef => let '(s, (sd, _)) := PersistentSilo_get_ref s d key in Some (s, sd)
  | PersistentRef strategy => '(s, (sd, _)) ← persistent_get_ref_with_strategy s d key strategy; Some (s, sd)
  | TransactionalRef => '(s, (sd, _, _)) ← transactional_get_ref s d key; Some (s, sd)
  | VersionedRef strategy => '(s, (sd, _)) ← versioned_get_ref_with_strategy s d key strategy; Some (s, sd)
  | JournaledRef journal => let '(s, (sd, _, _)) := journaled_get_ref s d key journal in Some (s, sd)
  | FacetedRef descs => '(s, (sd, _)) ← faceted_get_ref s d key descs; Some (s, sd)
  end.

(** The documented loop of each. *)
Definition ref_id d (key : string) (r : Reference) : GrainId :=
  match r with PlainRef => mkGrainId (gd_grain_type_name d) key | _ => mkGrainId (gd_rust_type_name d) key end.
Definition ref_kind s d (r : Reference) : option MailboxKind :=
  match r with
  | PlainRef => Some (if gd_reentrant d then RunReentrant else RunMailbox)
  | PersistentRef strategy => '(name, e) ← entry_for s d; Some (RunPersistent strategy name (se_serializer e))
  | TransactionalRef => '(name, e) ← entry_for s d; Some (RunPersistent WriteOnDeactivate name (se_serializer e))
  | VersionedRef strategy => '(name, e) ← entry_for s d; Some (RunVersioned strategy name (se_serializer e))
  | JournaledRef journal => Some (RunJournaled journal)
  | FacetedRef _ => '(name, e) ← entry_for s d; Some (RunPersistent WriteThrough name (se_serializer e))
  end.

(** What is left when the silo's context has been made: the operation on the directory. *)
Lemma request_ref_activates s d key r s1 sd :
  request_ref s d key r = Some (s1, sd) →
  ∃ h kind, ref_kind s d r = Some kind ∧ activate h (ref_id d key r) kind = (ps_host s1, sd) ∧
    (h = ps_host s ∨ h = (silo_context (ps_host s) (ps_filters s)).1).
Proof.
  intros Hr. destruct r as [|strategy| |strategy|journal|descs]; cbn [request_ref ref_kind ref_id] in Hr |- *.
  - unfold PersistentSilo_get_ref, GrainContext_get_ref in Hr.
    destruct (silo_context (ps_host s) (ps_filters s)) as [h c] eqn:Ec. destruct (activate h _ _) as [h1 sd1] eqn:E.
    injection Hr as <- <-. exists h. eexists. split; [done|]. split; [exact E|by right].
  - unfold persistent_get_ref_with_strategy in Hr. destruct (entry_for s d) as [[name e]|]; [|done]. cbn [mbind option_bind] in Hr |- *.
    destruct (activate _ _ _) as [h1 sd1] eqn:E. cbn [mbind option_bind] in Hr. injection Hr as <- <-. exists (ps_host s). eexists. by eauto.
  - unfold transactional_get_ref in Hr. destruct (entry_for s d) as [[name e]|]; [|done]. cbn [mbind option_bind] in Hr |- *.
    destruct (activate _ _ _) as [h1 sd1] eqn:E. cbn [mbind option_bind] in Hr. injection Hr as <- <-. exists (ps_host s). eexists. by eauto.
  - unfold versioned_get_ref_with_strategy in Hr. destruct (entry_for s d) as [[name e]|]; [|done]. cbn [mbind option_bind] in Hr |- *.
    destruct (activate _ _ _) as [h1 sd1] eqn:E. cbn [mbind option_bind] in Hr. injection Hr as <- <-. exists (ps_host s). eexists. by eauto.
  - unfold journaled_get_ref in Hr. destruct (activate _ _ _) as [h1 sd1] eqn:E. injection Hr as <- <-.
    exists (ps_host s). eexists. by eauto.
  - unfold faceted_get_ref in Hr. destruct (resolve_facets _ _ _); [|done]. cbn [mbind option_bind] in Hr.
    destruct (entry_for s d) as [[name e]|]; [|done]. cbn [mbind option_bind] in Hr |- *.
    destruct (activate _ _ _) as [h1 sd1] eqn:E. cbn [mbind option_bind] in Hr. injection Hr as <- <-. exists (ps_host s). eexists. by eauto.
Qed.

(** C22: the first reference decides how a grain runs.  In every state a silo reaches, a reference of any kind to a live grain returns
    the mailbox that is there, whatever loop it runs, and spawns nothing; to a grain that is not live it spawns the loop
    documented for its kind (plain or reentrant; persistent with the given strategy or [WriteOnDeactivate] for transactional
    and [WriteThrough] for faceted grains; versioned; journaled) with the store of the grain type, or, when the silo
    drains or is at its limit, spawns nothing and returns a closed sender.  And a mailbox runs the loop it was spawned with
    for as long as the silo exists. *)
Theorem first_reference_decides s d key r s1 sd :
  rtc host_step (Host_new Runtime_new) (ps_host s) → request_ref s d key r = Some (s1, sd) →
  let w := h_runtime (ps_host s) in
  match live_sender w (ref_id d key r) with
  | Some live =>
      sd = live ∧ h_kinds (ps_host s1) = h_kinds (ps_host s) ∧ rt_open (h_runtime (ps_host s1)) = rt_open w
  | None =>
      if decide (draining (rt_dir w) = true ∨ at_limit w) then
        is_closed (h_runtime (ps_host s1)) sd = true ∧ h_kinds (ps_host s1) = h_kinds (ps_host s)
      else ∃ kind, ref_kind s d r = Some kind ∧ live_sender (h_runtime (ps_host s1)) (ref_id d key r) = Some sd ∧
        h_kinds (ps_host s) !! sd = None ∧ h_kinds (ps_host s1) = <[sd := kind]> (h_kinds (ps_host s))
  end ∧
  ∀ h' m k, rtc host_step (ps_host s1) h' → h_kinds (ps_host s1) !! m = Some k → h_kinds h' !! m = Some k.
Proof.
  intros Hr Hreq w. pose proof (host_reach_inv _ _ Hr host_inv_new) as Hh.
  destruct (request_ref_activates _ _ _ _ _ _ Hreq) as (h & kind & Hkind & Hact & Hhs).
  assert (host_inv h ∧ h_kinds h = h_kinds (ps_host s) ∧ rt_dir (h_runtime h) = rt_dir w ∧ rt_open (h_runtime h) = rt_open w)
    as (Hh0 & Hk0 & Hd0 & Ho0).
  { destruct Hhs as [->| ->]; [done|]. split; [|done]. by eapply host_step_inv; [apply context_step|]. }
  pose proof (activate_inv h (ref_id d key r) kind Hh0) as Hh1. rewrite Hact in Hh1. cbn [fst] in Hh1.
  split; [|intros h' m k Hr' Hk; by eapply host_reach_kinds].
  rewrite <- (live_sender_ext _ _ _ Hd0 Ho0), <- Hk0, <- Ho0.
  destruct (live_sender (h_runtime h) (ref_id d key r)) as [live|] eqn:Hl.
  - destruct (activate_cases h (ref_id d key r) kind (hi_dir _ Hh0)) as [(s' & Hl' & E)|[[? _]|(? & ? & _)]]; [|congruence..].
    rewrite Hact in E. injection E as -> ->. by rewrite Hl in Hl'; injection Hl' as ->.
  - assert ((draining (rt_dir w) = true ∨ at_limit w) ↔ (draining (rt_dir (h_runtime h)) = true ∨ at_limit (h_runtime h))) as Hiff.
    { unfold at_limit, GrainDirectory_activation_count. by rewrite Hd0. }
    case_decide as Hlim; rewrite Hiff in Hlim.
    + rewrite (activate_refused _ _ _ Hh0 Hl Hlim) in Hact. injection Hact as <- <-. split; [|done].
      apply bool_decide_eq_true. cbn. intros Hin. pose proof (di_open _ (hi_dir _ Hh0) _ Hin). lia.
    + pose proof (activate_spawned h (ref_id d key r) kind Hh0 Hl Hlim) as Hs. rewrite Hact in Hs. eauto.
Qed.

(** A plain reference defeats persistence.  After [get_ref] has activated a persistent grain that was
    not active, [persistent_get_ref] to the same grain returns that activation when the type has
    no name of its own: its state is neither loaded nor saved.  When the grain type has a custom name,
    the two references address two activations that live side by side. *)
Theorem plain_reference_defeats_persistence s d key :
  rtc host_step (Host_new Runtime_new) (ps_host s) → is_Some (entry_for s d) →
  let w := h_runtime (ps_host s) in
  live_sender w (mkGrainId (gd_grain_type_name d) key) = None → live_sender w (stored_id d key) = None →
  draining (rt_dir w) = false → max_activations (rt_dir w) = 0 →
  let '(s1, (sd, _)) := PersistentSilo_get_ref s d key in
  ∃ s2 sd2 ref, persistent_get_ref s1 d key = Some (s2, (sd2, ref)) ∧
    h_kinds (ps_host s2) !! sd = Some (if gd_reentrant d then RunReentrant else RunMailbox) ∧
    (if bool_decide (gd_grain_type_name d = gd_rust_type_name d) then sd2 = sd
     else sd2 ≠ sd ∧ live_sender (h_runtime (ps_host s2)) (mkGrainId (gd_grain_type_name d) key) = Some sd ∧
          live_sender (h_runtime (ps_host s2)) (stored_id d key) = Some sd2).
Proof.
  intros Hr [[name e] He] w Hl1 Hl2 Hd Hm. pose proof (host_reach_inv _ _ Hr host_inv_new) as Hh.
  unfold PersistentSilo_get_ref, GrainContext_get_ref.
  pose proof (silo_context_host (ps_host s) (ps_filters s)) as Hc.
  pose proof (host_step_inv _ _ (context_step (ps_host s) (ps_filters s)) Hh) as Hh0.
  destruct (silo_context (ps_host s) (ps_filters s)) as [h0 c]. cbn [fst] in Hh0.
  destruct Hc as (_ & Hdir & Hop & _).
  set (k := if gd_reentrant d then RunReentrant else RunMailbox).
  pose proof (activate_fresh h0 (mkGrainId (gd_grain_type_name d) key) k Hh0) as Ha.
  rewrite (live_sender_ext _ _ _ Hdir Hop), Hdir in Ha. specialize (Ha Hl1 Hd Hm).
  destruct (activate h0 _ k) as [h1 sd]. destruct Ha as (_ & Hh1 & Hlive & Hk & Hd1 & Hm1 & Hoth).
  unfold persistent_get_ref, persistent_get_ref_with_strategy.
  change (entry_for (ps_with_host s h1) d) with (entry_for s d). rewrite He. cbn [mbind option_bind].
  cbn [ps_host ps_with_host]. case_bool_decide as Hn.
  - unfold stored_id. rewrite <-Hn.
    set (k2 := RunPersistent _ _ _).
    destruct (activate_cases h1 (mkGrainId (gd_grain_type_name d) key) k2 (hi_dir _ Hh1))
      as [(s' & Hl' & ->)|[[? _]|(? & ? & _)]]; [|congruence..].
    eexists _, _, _. split; [done|]. cbn [ps_host ps_with_host].
    split; [by rewrite Hk, lookup_insert_eq|congruence].
  - assert (stored_id d key ≠ mkGrainId (gd_grain_type_name d) key) as Hne by (unfold stored_id; congruence).
    set (k2 := RunPersistent _ _ _).
    pose proof (activate_fresh h1 (stored_id d key) k2 Hh1) as Ha.
    rewrite Hoth, (live_sender_ext _ _ _ Hdir Hop) in Ha by done. specialize (Ha Hl2 Hd1 Hm1).
    destruct (activate h1 (stored_id d key) k2) as [h2 sd2]. destruct Ha as (Hsd2 & Hh2 & Hlive2 & Hk2 & _ & _ & Hoth2).
    assert (sd2 ≠ sd) as Hsd.
    { intros Heq. assert (h_kinds h1 !! sd = Some k) as Hx by (by rewrite Hk, lookup_insert_eq).
      pose proof (hi_fresh _ Hh1 _ _ Hx). lia. }
    eexists _, _, _. split; [done|]. cbn [ps_host ps_with_host]. split_and!; [|done| |done].
    + by rewrite Hk2, lookup_insert_ne, Hk, lookup_insert_eq by done.
    + by rewrite Hoth2.
Qed.
End references.

(** A journaled reference first, then a plain one to the same grain. *)
Definition book_decl : GrainDecl := mkDecl "app::Book" "app::Book" false "default" 4.
Definition book_silo : PersistentSilo () :=
  mkPSilo (Host_new Runtime_new) {["default" := mkStoreEntry () FormatBincode]} [].
Definition book_silo_1 : PersistentSilo () := default book_silo (fst <$> request_ref book_silo book_decl "x" (JournaledRef "j")).

Lemma first_reference_decides_witness :
  h_kinds (ps_host book_silo_1) = {[0%nat := RunJournaled "j"]} ∧
  ∃ s2, request_ref book_silo_1 book_decl "x" PlainRef = Some (s2, 0%nat) ∧
    h_kinds (ps_host s2) = h_kinds (ps_host book_silo_1).
Proof.
  destruct (first_reference_decides book_silo book_decl "x" (JournaledRef "j") book_silo_1 0%nat) as [H1 _];
    [apply rtc_refl|reflexivity|].
  split; [destruct H1 as (kind & [= <-] & _ & _ & Hk); exact Hk|].
  destruct (request_ref book_silo_1 book_decl "x" PlainRef) as [[s2 sd]|] eqn:E; [|vm_compute in E; discriminate].
  destruct (first_reference_decides book_silo_1 book_decl "x" PlainRef s2 sd) as [H2 _]; [|exact E|].
  - apply rtc_once. exact (hs_activate (ps_host book_silo) (stored_id book_decl "x") (RunJournaled "j")).
  - destruct H2 as (-> & Hk & _). exists s2. split; [reflexivity|exact Hk].
Defined.

(** ** A persistent grain across activations *)
Section reactivation.
Context {Sto : Type} `{StateStore Sto} `{!StateStoreLaws Sto} `{!ReliableStore Sto} {State : Type}.
Context (serialize : State → option bytes) (deserialize : bytes → option State).
Context (Hser : ∀ st, is_Some (serialize st)).
Context (Hround : ∀ st b, serialize st = Some b → deserialize b = Some st).
Context (G : Grain State) (d : GrainDecl) (key : string).
Abbreviation run' := (run (D := Runtime) serialize deserialize G (stored_id d key)).

(** The silo after the mailbox of [sd], which ended with directory [w], is gone. *)
Definition after_mailbox (s : PersistentSilo Sto) (sd : Sender) (w : Runtime) : PersistentSilo Sto :=
  ps_with_host s (mkHost (end_task false w sd) (h_kinds (ps_host s))).

Lemma persistent_ref_activates s s' strategy name (e : StoreEntry Sto) h' sd :
  entry_for s d = Some (name, e) → ps_stores s' = ps_stores s →
  activate (ps_host s') (stored_id d key) (RunPersistent strategy name (se_serializer e)) = (h', sd) →
  persistent_get_ref_with_strategy s' d key strategy =
    Some (ps_with_host s' h', (sd, GrainRef_new (gd_grain_type_name d))).
Proof.
  intros He Hst Hact. unfold persistent_get_ref_with_strategy.
  assert (entry_for s' d = Some (name, e)) as -> by (unfold entry_for in *; by rewrite Hst).
  cbn [mbind option_bind]. by rewrite Hact.
Qed.

(** A mailbox, however it ends, unregisters its grain last. *)
Lemma run_unregisters strategy start msgs sto sink w out :
  run' strategy start msgs sto sink w = Some out →
  re_dir out = GrainDirectory_activator_remove w (stored_id d key).
Proof.
  unfold run. destruct (load_or_default _ _ _ _) as [sto' ini].
  destruct (run_lifecycle _ _ _ _ _ _ _ _) as [[[f fl] en]|]; [|done]. cbn. by intros [= <-].
Qed.

(** What is left of a mailbox that has ended lets the grain be activated again. *)
Lemma ended_reactivates h sd kind :
  let g := stored_id d key in
  let h' := mkHost (end_task false (GrainDirectory_activator_remove (h_runtime h) g) sd) (h_kinds h) in
  host_inv h → draining (rt_dir (h_runtime h)) = false → max_activations (rt_dir (h_runtime h)) = 0 →
  is_Some (h_kinds h !! sd) →
  (activate h' g kind).2 ≠ sd ∧ h_kinds (activate h' g kind).1 !! (activate h' g kind).2 = Some kind.
Proof.
  intros g h' Hh Hd Hm [k Hk].
  assert (host_inv h') as Hh'.
  { pose proof (host_step_inv _ _ (hs_teardown h g) Hh) as Ht.
    exact (host_step_inv _ _ (hs_task_end _ false sd) Ht). }
  destruct (activator_remove_frame (h_runtime h) g) as (_ & Hdr & Hmx & Hfr).
  pose proof (activate_fresh h' g kind Hh') as Hact.
  destruct (activate h' g kind) as [h2 sd2].
  destruct Hact as (Hsd2 & _ & _ & Hk2 & _).
  { unfold h'. cbn [h_runtime]. unfold live_sender, GrainDirectory_get_sender. cbn.
    by rewrite activator_remove_activations, lookup_delete_eq. }
  { unfold h'. cbn. congruence. }
  { unfold h'. cbn. congruence. }
  cbn [fst snd]. split; [|by rewrite Hk2, lookup_insert_eq].
  rewrite Hsd2. unfold h'. cbn. rewrite Hfr. pose proof (hi_fresh _ Hh _ _ Hk). lia.
Qed.

(** C21: a persistent grain survives its activation.  On a silo where the grain is not active,
    [persistent_get_ref_with_strategy] starts a mailbox with the strategy and the store of the grain type; once
    that mailbox has handled its messages and stopped, the next reference starts another
    mailbox of the same kind, which continues from the state the first one ended with, whatever the
    strategy. *)
Theorem persistent_grain_survives s strategy name (e : StoreEntry Sto) start msgs r now rest sink
    start2 msgs2 r2 now2 rest2 :
  rtc host_step (Host_new Runtime_new) (ps_host s) → entry_for s d = Some (name, e) →
  live_sender (h_runtime (ps_host s)) (stored_id d key) = None →
  draining (rt_dir (h_runtime (ps_host s))) = false → max_activations (rt_dir (h_runtime (ps_host s))) = 0 →
  stops r = true → stops r2 = true →
  let g := stored_id d key in
  let initial := loaded deserialize G (ss_view (se_store e) g) in
  let final := (on_deactivate G (run_all (on_activate G initial).1 msgs)).1 in
  (on_activate G initial).2 = FutOk → no_panics (on_activate G initial).1 msgs →
  (on_activate G final).2 = FutOk → no_panics (on_activate G final).1 msgs2 →
  ∃ s1 sd1 ref1 out1 s2 sd2 ref2 out2,
    persistent_get_ref_with_strategy s d key strategy = Some (s1, (sd1, ref1)) ∧
    h_kinds (ps_host s1) !! sd1 = Some (RunPersistent strategy name (se_serializer e)) ∧
    run' strategy start (InSeq (deliver msgs ++ (r, now) :: rest)) (se_store e) sink (h_runtime (ps_host s1))
      = Some out1 ∧ re_state out1 = final ∧
    persistent_get_ref_with_strategy (after_mailbox s1 sd1 (re_dir out1)) d key strategy = Some (s2, (sd2, ref2)) ∧
    sd2 ≠ sd1 ∧ h_kinds (ps_host s2) !! sd2 = Some (RunPersistent strategy name (se_serializer e)) ∧
    run' strategy start2 (InSeq (deliver msgs2 ++ (r2, now2) :: rest2)) (pe_store (re_env out1)) sink
      (h_runtime (ps_host s2)) = Some out2 ∧
    re_state out2 = (on_deactivate G (run_all (on_activate G final).1 msgs2)).1.
Proof.
  intros Hreach He Hl Hd Hm Hr Hr2 g initial final Ha Hn Ha2 Hn2.
  pose proof (host_reach_inv _ _ Hreach host_inv_new) as Hh.
  set (kind := RunPersistent strategy name (se_serializer e)).
  pose proof (activate_fresh (ps_host s) g kind Hh Hl Hd Hm) as Hact.
  destruct (activate (ps_host s) g kind) as [h1 sd1] eqn:E1.
  destruct Hact as (_ & Hh1 & _ & Hk1 & Hd1 & Hm1 & _).
  assert (h_kinds h1 !! sd1 = Some kind) as Hkind by (by rewrite Hk1, lookup_insert_eq).
  destruct (run_durable serialize deserialize G g Hser strategy start msgs r now rest (se_store e) sink
              (h_runtime h1) Hround Hr Ha Hn) as (out1 & Hrun1 & _ & Hst1 & Hv1 & _).
  fold initial final in Hst1.
  pose proof (run_unregisters _ _ _ _ _ _ _ Hrun1) as Hdir1.
  set (h1' := mkHost (end_task false (re_dir out1) sd1) (h_kinds h1)).
  destruct (ended_reactivates h1 sd1 kind Hh1 Hd1 Hm1 ltac:(by eexists)) as [Hne Hk2].
  rewrite <-Hdir1 in Hne, Hk2. fold h1' g in Hne, Hk2.
  destruct (activate h1' g kind) as [h2 sd2] eqn:E2. cbn [fst snd] in Hne, Hk2.
  assert (loaded deserialize G (ss_view (pe_store (re_env out1)) g) = final) as Hload.
  { rewrite Hv1, Hst1. destruct (Hser final) as [b Hb]. rewrite Hb. cbn. by rewrite (Hround _ _ Hb). }
  destruct (run_durable serialize deserialize G g Hser strategy start2 msgs2 r2 now2 rest2 (pe_store (re_env out1))
              sink (h_runtime h2) Hround Hr2) as (out2 & Hrun2 & _ & Hst2 & _); [by rewrite Hload..|].
  rewrite Hload in Hst2.
  pose proof (persistent_ref_activates s s strategy name e h1 sd1 He eq_refl E1) as Href1.
  pose proof (persistent_ref_activates s (after_mailbox (ps_with_host s h1) sd1 (re_dir out1))
    strategy name e h2 sd2 He eq_refl E2) as Href2.
  eexists _, sd1, _, out1, _, sd2, _, out2. by split_and!; [exact Href1| | | |exact Href2|..].
Qed.
End reactivation.

Definition log_decl : GrainDecl := mkDecl "app::Counter" "app::Counter" false "default" 4.
Definition log_silo : PersistentSilo InMemoryStateStore :=
  mkPSilo (Host_new Runtime_new) {["default" := mkStoreEntry InMemoryStateStore_new FormatBincode]} [].

Lemma persistent_grain_survives_witness :
  ∃ s1 sd1 ref1 out1 s2 sd2 ref2 out2,
    persistent_get_ref_with_strategy log_silo log_decl "x" WriteOnDeactivate = Some (s1, (sd1, ref1)) ∧
    run (D := Runtime) Some Some log_grain grain_x WriteOnDeactivate 0
      (InSeq (deliver [(append_msg Byte.x01, 1)] ++ [(RecvElapsed, 2)])) InMemoryStateStore_new false
      (h_runtime (ps_host s1)) = Some out1 ∧
    persistent_get_ref_with_strategy (after_mailbox s1 sd1 (re_dir out1)) log_decl "x" WriteOnDeactivate
      = Some (s2, (sd2, ref2)) ∧
    run (D := Runtime) Some Some log_grain grain_x WriteOnDeactivate 5
      (InSeq (deliver [(append_msg Byte.x02, 6)] ++ [(RecvElapsed, 7)])) (pe_store (re_env out1)) false
      (h_runtime (ps_host s2)) = Some out2 ∧ re_state out2 = [Byte.x01; Byte.x02].
Proof.
  destruct (persistent_grain_survives Some Some log_serializable log_roundtrip log_grain log_decl "x" log_silo
    WriteOnDeactivate "default" (mkStoreEntry InMemoryStateStore_new FormatBincode) 0 [(append_msg Byte.x01, 1)]
    RecvElapsed 2 [] false 5 [(append_msg Byte.x02, 6)] RecvElapsed 7 [])
    as (s1 & sd1 & ref1 & out1 & s2 & sd2 & ref2 & out2 & H1 & _ & H2 & _ & H3 & _ & _ & H4 & H5).
  - apply rtc_refl.
  - reflexivity.
  - reflexivity.
  - reflexivity.
  - reflexivity.
  - reflexivity.
  - reflexivity.
  - reflexivity.
  - repeat split.
  - reflexivity.
  - repeat split.
  - exists s1, sd1, ref1, out1, s2, sd2, ref2, out2. split; [exact H1|]. split; [exact H2|].
    split; [exact H3|]. split; [exact H4|]. rewrite H5. reflexivity.
Defined.

Lemma plain_reference_defeats_persistence_witness :
  let '(s1, (sd, _)) := PersistentSilo_get_ref log_silo log_decl "x" in
  ∃ s2 sd2 ref, persistent_get_ref s1 log_decl "x" = Some (s2, (sd2, ref)) ∧
    h_kinds (ps_host s2) !! sd = Some RunMailbox ∧ sd2 = sd.
Proof.
  apply (plain_reference_defeats_persistence log_silo log_decl "x").
  - apply rtc_refl.
  - eexists. reflexivity.
  - reflexivity.
  - reflexivity.
  - reflexivity.
  - reflexivity.
Defined.

(** ** Shutting a silo down *)

(** Startup hooks run before any service is spawned, in the order they were registered; shutdown hooks run
    exactly once; [shutdown_services] returns exactly when all services end, cancels their
    token first and awaits each of them once; dropping the silo cancels the same token. *)
Theorem silo_lifecycle b ends :
  let '(s, evs) := SiloBuilder_build b in
  let '(s1, hooks) := run_shutdown_hooks s in
  evs = (RanHook <$> sb_on_startup b) ++ (SpawnedService <$> sb_services b) ∧
  hooks = RanHook <$> sb_on_shutdown b ∧ (run_shutdown_hooks s1).2 = [] ∧
  rs_service_cancel s ∈ rt_cancelled (h_runtime (rs_host (Silo_drop s))) ∧
  (if forallb ends (sb_services b) then
     ∃ s2, shutdown_services ends s = Some (s2, AwaitedService <$> sb_services b) ∧
       rs_service_cancel s ∈ rt_cancelled (h_runtime (rs_host s2)) ∧
       ∃ s3, shutdown_services ends s2 = Some (s3, [])
   else shutdown_services ends s = None).
Proof.
  cbn. split_and!; [done..|set_solver|]. unfold shutdown_services. cbn.
  destruct (forallb ends (sb_services b)); [|done].
  eexists. split; [done|]. split; [cbn; set_solver|]. eexists. done.
Qed.

(** ** Metrics of a call *)

(** What the [MetricsFilter] at position [i] of a chain records of the events of one call. *)
Definition record_event (i : nat) (info : GrainCallInfo) (m : Metrics) (e : CallEvent) : Metrics :=
  match e with
  | EvBefore j => if bool_decide (j = i) then (MetricsFilter_on_before m info).1 else m
  | EvAfter j ok => if bool_decide (j = i) then MetricsFilter_on_after m info ok else m
  | EvEnqueued => m
  end.
Definition record_call (i : nat) (info : GrainCallInfo) (m : Metrics) (evs : list CallEvent) : Metrics :=
  foldl (record_event i info) m evs.

Lemma record_app i info m evs evs' :
  record_call i info m (evs ++ evs') = record_call i info (record_call i info m evs) evs'.
Proof. apply foldl_app. Qed.

Lemma record_enqueued i info m evs : record_call i info m (EvEnqueued :: evs) = record_call i info m evs.
Proof. done. Qed.

Lemma record_after i info fs ok j m :
  record_call i info m (run_after fs ok j) =
    if bool_decide (j ≤ i < j + length fs)%nat then MetricsFilter_on_after m info ok else m.
Proof.
  unfold record_call. revert j m. induction fs as [|f fs IH]; intros j m; cbn [run_after foldl length].
  - by rewrite bool_decide_false by lia.
  - cbn [record_event]. rewrite IH. repeat case_bool_decide; lia || done.
Qed.

Definition accepts (info : GrainCallInfo) (f : GrainCallInfo → result string unit) : bool := is_ok (f info).

Lemma record_before_skip i info fs j m :
  (i < j)%nat → record_call i info m (run_before fs info j).2 = m.
Proof.
  unfold record_call. revert j m. induction fs as [|f fs IH]; intros j m Hi; cbn [run_before]; [done|].
  destruct (f info) as [[]|e].
  - specialize (IH (S j) m ltac:(lia)). destruct (run_before fs info (S j)) as [r evs].
    cbn [snd foldl record_event] in *. by rewrite bool_decide_false by lia.
  - cbn [snd foldl record_event]. by rewrite bool_decide_false by lia.
Qed.

Lemma record_before i info fs j m :
  record_call (j + i) info m (run_before fs info j).2 =
    if bool_decide (i < length fs)%nat && forallb (accepts info) (take i fs)
    then (MetricsFilter_on_before m info).1 else m.
Proof.
  revert i j m. induction fs as [|f fs IH]; intros i j m; cbn [run_before length]; [by rewrite bool_decide_false by lia|].
  assert (∀ evs, record_call (j + i) info m (EvBefore j :: evs) =
    record_call (j + i) info (if bool_decide (i = 0%nat) then (MetricsFilter_on_before m info).1 else m) evs) as Hc.
  { intros evs. unfold record_call. cbn [foldl record_event]. repeat case_bool_decide; lia || done. }
  destruct i as [|i]; rewrite ?Nat.add_0_r in *.
  - rewrite (bool_decide_true (0 < S (length fs))%nat) by lia. cbn [take forallb andb].
    destruct (f info) as [[]|e]; [|cbn [snd]; by rewrite Hc].
    pose proof (record_before_skip j info fs (S j) (MetricsFilter_on_before m info).1 ltac:(lia)) as Hs.
    destruct (run_before fs info (S j)) as [r evs]. cbn [snd] in *. by rewrite Hc.
  - cbn [take forallb]. unfold accepts at 1. destruct (f info) as [[]|e]; cbn [is_ok andb].
    + specialize (IH i (S j) m). destruct (run_before fs info (S j)) as [r evs]. cbn [snd] in *. rewrite Hc.
      replace (j + S i)%nat with (S j + i)%nat by lia. rewrite bool_decide_false by lia. rewrite IH.
      repeat case_bool_decide; lia || done.
    + cbn [snd]. rewrite Hc, andb_false_r. done.
Qed.

Lemma run_before_ok fs info j : is_ok (run_before fs info j).1 = forallb (accepts info) fs.
Proof.
  revert j. induction fs as [|f fs IH]; intros j; cbn [run_before forallb]; [done|]. unfold accepts at 1.
  destruct (f info) as [[]|e]; cbn [is_ok andb]; [|done]. specialize (IH (S j)).
  by destruct (run_before fs info (S j)) as [r evs].
Qed.

(** What a metrics filter at position [i] counts of an [ask]: nothing when a call cycle or a filter before it
    refuses the call; the call alone, without duration or error, when a filter after it does;
    the call, its duration and its failure otherwise. *)
Theorem metrics_count_asks {R} (r : GrainRef) ctx mt ch (reply : Oneshot R) t i m :
  (i < length (ref_filters r))%nat →
  let info := mkInfo (ref_grain_id r) mt in
  let '(res, evs) := GrainRef_ask r ctx mt ch reply t in
  record_call i info m evs =
    if is_in_call_chain ctx (ref_grain_id r) then m
    else if forallb (accepts info) (take i (ref_filters r)) then
      let m1 := (MetricsFilter_on_before m info).1 in
      if forallb (accepts info) (ref_filters r) then MetricsFilter_on_after m1 info (is_ok res) else m1
    else m.
Proof.
  intros Hi info. unfold GrainRef_ask. destruct (is_in_call_chain _ _); [done|]. fold info.
  pose proof (run_before_ok (ref_filters r) info 0) as Hok.
  pose proof (record_before i info (ref_filters r) 0 m) as Hb. cbn [Nat.add] in Hb.
  rewrite bool_decide_true in Hb by done. cbn [andb] in Hb.
  assert (forallb (accepts info) (ref_filters r) = true → forallb (accepts info) (take i (ref_filters r)) = true) as Hall.
  { intros Ha. rewrite <-(take_drop i (ref_filters r)), forallb_app in Ha. by apply andb_true_iff in Ha as [? _]. }
  destruct (run_before (ref_filters r) info 0) as [[[]|e] evs]; cbn [fst snd is_ok] in *.
  - rewrite <-Hok in *. rewrite (Hall eq_refl) in *.
    unfold finish_call. destruct (map_err _ (send_await ch)) as [[]|e]; rewrite record_app, Hb, ?record_enqueued;
      by rewrite record_after, bool_decide_true by lia.
  - rewrite <-Hok. done.
Qed.
