(* ===== verification/Replication.v ===== *)
(** Cross-cluster replication: entries ([orlando-core/src/replication.rs]), the in-memory log
    ([orlando-persistence/src/replication_log.rs]), the sink the mailbox writes to
    ([replication_sink.rs]), and on the cluster side the pump
    ([replication_producer.rs]), the replica store ([store_wrapper.rs]) and the consumer
    ([replication_consumer.rs]). *)
From S2P Require Import Prelude CoreTypes.
From Stdlib Require Import Sorting.Sorted.

Inductive ReplicationEntryType := FullState | Delta.
#[global] Instance ReplicationEntryType_eq_dec : EqDecision ReplicationEntryType.
Proof. solve_decision. Defined.

Record ReplicationEntry := mkREntry {
  re_grain_type : string; re_grain_key : string; re_sequence : Z; re_timestamp : Z;
  re_source : ClusterId; re_type : ReplicationEntryType; re_payload : bytes }.

Inductive ReplicationError :=
| SequenceConflict (expected actual : Z)
| ReplicationBackend (m : string)
| ReplicationDeserialization (m : string).

(** * The log *)
Record InMemoryReplicationLog := mkLog { log_entries : gmap string (list ReplicationEntry) }.

Definition InMemoryReplicationLog_new : InMemoryReplicationLog := mkLog ∅.

Definition entries_for (l : InMemoryReplicationLog) (gt gk : string) : list ReplicationEntry :=
  default [] (log_entries l !! slash gt gk).

(** [append]; the map entry is created even when the append is refused. *)
Definition log_append (l : InMemoryReplicationLog) (e : ReplicationEntry)
    : InMemoryReplicationLog * result ReplicationError Z :=
  let k := slash (re_grain_type e) (re_grain_key e) in
  let log := default [] (log_entries l !! k) in
  match last log with
  | Some lst =>
      if bool_decide (re_sequence e ≤ re_sequence lst) then
        (mkLog (<[k := log]> (log_entries l)),
         Err (SequenceConflict (u64_add (re_sequence lst) 1) (re_sequence e)))
      else (mkLog (<[k := log ++ [e]]> (log_entries l)), Ok (re_sequence e))
  | None => (mkLog (<[k := log ++ [e]]> (log_entries l)), Ok (re_sequence e))
  end.

(** [read_from] *)
Definition log_read_from (l : InMemoryReplicationLog) (gt gk : string) (after : Z) (limit : nat)
    : list ReplicationEntry :=
  take limit (filter (λ e, after < re_sequence e) (entries_for l gt gk)).

(** [latest_sequence] *)
Definition log_latest_sequence (l : InMemoryReplicationLog) (gt gk : string) : Z :=
  match last (entries_for l gt gk) with Some e => re_sequence e | None => 0 end.

(** [truncate]; returns the number of entries deleted. *)
Definition log_truncate (l : InMemoryReplicationLog) (gt gk : string) (before : Z)
    : InMemoryReplicationLog * nat :=
  match log_entries l !! slash gt gk with
  | None => (l, 0%nat)
  | Some log =>
      let kept := filter (λ e, before ≤ re_sequence e) log in
      (mkLog (<[slash gt gk := kept]> (log_entries l)), length log - length kept)%nat
  end.

(** * The sink: a bounded channel and a sequence counter *)
Record ReplicationSink := mkSink {
  sink_type : string; sink_key : string; sink_cluster : ClusterId; sink_next : Z;
  sink_capacity : nat; sink_queue : list ReplicationEntry }.

(** [ReplicationSink::new] *)
Definition ReplicationSink_new (capacity : nat) (gt gk : string) (c : ClusterId) (start : Z)
    : ReplicationSink := mkSink gt gk c start capacity [].

(** [ReplicationSink::send]: the sequence number is consumed also when the entry is dropped. *)
Definition ReplicationSink_send (now : Z) (s : ReplicationSink) (payload : bytes) : ReplicationSink :=
  let entry := mkREntry (sink_type s) (sink_key s) (sink_next s) now (sink_cluster s) FullState payload in
  let q := if bool_decide (sink_capacity s ≤ length (sink_queue s))%nat then sink_queue s
           else sink_queue s ++ [entry] in
  mkSink (sink_type s) (sink_key s) (sink_cluster s) (u64_add (sink_next s) 1) (sink_capacity s) q.

(** The pump: append every entry of the channel, ignoring refusals. *)
Definition replication_pump (l : InMemoryReplicationLog) (queue : list ReplicationEntry)
    : InMemoryReplicationLog := foldl (λ l e, (log_append l e).1) l queue.

(** * The replica store *)
Record ReplicaEntry := mkReplica { rp_payload : bytes; rp_sequence : Z; rp_timestamp : Z }.
Abbreviation ReplicaStore := (gmap string ReplicaEntry).

Definition ReplicaStore_update (s : ReplicaStore) (gt gk : string) (payload : bytes) (seq ts : Z)
    : ReplicaStore := <[slash gt gk := mkReplica payload seq ts]> s.
Definition ReplicaStore_get (s : ReplicaStore) (gt gk : string) : option ReplicaEntry :=
  s !! slash gt gk.
Definition ReplicaStore_is_fresh (now : Z) (s : ReplicaStore) (gt gk : string) (max_staleness : Z)
    : bool :=
  match s !! slash gt gk with
  | Some e => bool_decide (now - rp_timestamp e ≤ max_staleness)
  | None => false
  end.
Definition ReplicaStore_remove (s : ReplicaStore) (gt gk : string) : ReplicaStore :=
  delete (slash gt gk) s.

(** * The consumer *)
Record Consumer := mkConsumer { cs_last_sequence : Z; cs_store : ReplicaStore }.

(** One poll of [ReplicationConsumer::run]. *)
Definition consumer_poll (l : InMemoryReplicationLog) (gt gk : string) (c : Consumer) : Consumer :=
  let entries := log_read_from l gt gk (cs_last_sequence c) 100 in
  match last entries with
  | None => c
  | Some latest =>
      if existsb (λ e, bool_decide (re_type e = Delta)) entries then
        mkConsumer (re_sequence latest) (cs_store c)
      else
        mkConsumer (re_sequence latest)
          (ReplicaStore_update (cs_store c) gt gk (re_payload latest) (re_sequence latest)
             (re_timestamp latest))
  end.

(** [k] polls of an unchanged log. *)
Definition consumer_polls (l : InMemoryReplicationLog) (gt gk : string) (k : nat) (c : Consumer)
    : Consumer := Nat.iter k (consumer_poll l gt gk) c.

(** * The log is strictly ordered *)
Definition sorted_log (es : list ReplicationEntry) : Prop :=
  StronglySorted (λ e e', re_sequence e < re_sequence e') es.

Definition log_wf (l : InMemoryReplicationLog) : Prop :=
  map_Forall (λ _ es, sorted_log es) (log_entries l).

Lemma sorted_app es es' :
  sorted_log es → sorted_log es' →
  (∀ e e', e ∈ es → e' ∈ es' → re_sequence e < re_sequence e') → sorted_log (es ++ es').
Proof.
  intros Hs Hs' Hlt. induction Hs as [|e es Hs IH Hf]; [done|]. cbn. constructor.
  - apply IH. intros; apply Hlt; [by right|done].
  - apply Forall_app. split; [done|]. apply Forall_forall. intros e' He'. apply Hlt; [by left|done].
Qed.

Lemma sorted_app_inv es es' :
  sorted_log (es ++ es') →
  sorted_log es ∧ sorted_log es' ∧
  ∀ e e', e ∈ es → e' ∈ es' → re_sequence e < re_sequence e'.
Proof.
  induction es as [|x es IH]; cbn; intros Hs.
  - split_and!; [constructor|done|]. intros e e' He. by apply not_elem_of_nil in He.
  - apply StronglySorted_inv in Hs as [Hs Hf]. apply Forall_app in Hf as [Hf1 Hf2].
    destruct (IH Hs) as (H1 & H2 & H3). split_and!; [by constructor|done|].
    intros e e' [->|He]%elem_of_cons He'; [|by apply H3].
    rewrite Forall_forall in Hf2. by apply Hf2.
Qed.

Lemma sorted_last es lst e : sorted_log es → last es = Some lst → e ∈ es → re_sequence e ≤ re_sequence lst.
Proof.
  intros Hs (es' & ->)%last_Some He. apply sorted_app_inv in Hs as (_ & _ & Hlt).
  apply elem_of_app in He as [He|He]; [|by apply list_elem_of_singleton in He as ->].
  specialize (Hlt e lst He ltac:(by left)). lia.
Qed.

Lemma append_wf l e : log_wf l → log_wf (log_append l e).1.
Proof.
  intros Hl. unfold log_append. set (k := slash _ _).
  assert (sorted_log (default [] (log_entries l !! k))) as Hk.
  { destruct (log_entries l !! k) eqn:E; [by apply (Hl k)|constructor]. }
  destruct (last _) as [lst|] eqn:Hlast; [case_bool_decide|]; cbn; apply map_Forall_insert_2; try done.
  - apply sorted_app; [done|repeat constructor|]. intros x y Hx Hy.
    apply list_elem_of_singleton in Hy as ->. pose proof (sorted_last _ _ _ Hk Hlast Hx). lia.
  - apply last_None in Hlast. rewrite Hlast. repeat constructor.
Qed.

Lemma seq_sorted_filter (P : ReplicationEntry → Prop) `{∀ e, Decision (P e)} es :
  sorted_log es → sorted_log (filter P es).
Proof.
  induction 1 as [|e es Hs IH Hf]; [constructor|].
  destruct (decide (P e)); [rewrite filter_cons_True by done|by rewrite filter_cons_False].
  constructor; [done|]. apply Forall_forall. intros x [_ Hx]%list_elem_of_filter.
  rewrite Forall_forall in Hf. by apply Hf.
Qed.

Lemma truncate_wf l gt gk before : log_wf l → log_wf (log_truncate l gt gk before).1.
Proof.
  intros Hl. unfold log_truncate. destruct (log_entries l !! slash gt gk) as [es|] eqn:E; [|done].
  cbn. apply map_Forall_insert_2; [|done]. apply seq_sorted_filter. by apply (Hl (slash gt gk)).
Qed.

Lemma entries_sorted l gt gk : log_wf l → sorted_log (entries_for l gt gk).
Proof.
  intros Hl. unfold entries_for. destruct (_ !! _) eqn:E; [by eapply Hl|constructor].
Qed.

(** * The consumer converges *)

(** The consumer has read [a] and not yet [b]. *)
Definition read_up_to (a b : list ReplicationEntry) (L : Z) : Prop :=
  Forall (λ e, re_sequence e ≤ L) a ∧ Forall (λ e, L < re_sequence e) b.

Lemma filter_unread a b L : read_up_to a b L → filter (λ e, L < re_sequence e) (a ++ b) = b.
Proof.
  intros [Ha Hb]. rewrite filter_app.
  assert (filter (λ e, L < re_sequence e) a = []) as ->.
  { induction Ha as [|e a He _ IH]; [done|]. rewrite filter_cons_False by lia. done. }
  cbn. induction Hb as [|e b He _ IH]; [done|]. rewrite filter_cons_True by done. by rewrite IH.
Qed.

Lemma read_advance a b1 b2 e L :
  sorted_log (a ++ b1 ++ b2) → read_up_to a (b1 ++ b2) L → last b1 = Some e →
  read_up_to (a ++ b1) b2 (re_sequence e).
Proof.
  intros Hs [Ha Hb] Hlast. rewrite app_assoc in Hs. apply sorted_app_inv in Hs as (Hs1 & _ & Hlt).
  apply sorted_app_inv in Hs1 as (_ & Hs1 & _). apply last_Some in Hlast as Hl'. destruct Hl' as [b1' Hb1].
  assert (e ∈ b1) as Hin by (rewrite Hb1; apply elem_of_app; right; by left). split.
  - apply Forall_app. split.
    + apply Forall_app in Hb as [Hb _]. rewrite Forall_forall in Hb. specialize (Hb e Hin).
      eapply Forall_impl; [exact Ha|]. intros; cbn in *; lia.
    + apply Forall_forall. intros x Hx. by eapply sorted_last.
  - apply Forall_forall. intros x Hx. apply Hlt; [|done]. apply elem_of_app. by right.
Qed.

Lemma no_delta es :
  Forall (λ e, re_type e = FullState) es → existsb (λ e, bool_decide (re_type e = Delta)) es = false.
Proof.
  induction 1 as [|e es He _ IH]; [done|]. cbn. rewrite IH, orb_false_r, He. done.
Qed.

Lemma poll_unread l gt gk a b c :
  sorted_log (a ++ b) → entries_for l gt gk = a ++ b → read_up_to a b (cs_last_sequence c) →
  Forall (λ e, re_type e = FullState) b →
  consumer_poll l gt gk c =
    match last (take 100 b) with
    | None => c
    | Some e => mkConsumer (re_sequence e)
                  (ReplicaStore_update (cs_store c) gt gk (re_payload e) (re_sequence e) (re_timestamp e))
    end.
Proof.
  intros Hs He Hr Hf. unfold consumer_poll, log_read_from. rewrite He, filter_unread by done.
  destruct (last (take 100 b)); [|done]. rewrite no_delta; [done|]. by apply Forall_take.
Qed.

Lemma polls_converge l gt gk k a b c :
  sorted_log (a ++ b) → entries_for l gt gk = a ++ b → read_up_to a b (cs_last_sequence c) →
  Forall (λ e, re_type e = FullState) b → (length b ≤ 100 * k)%nat →
  consumer_polls l gt gk k c =
    match last b with
    | None => c
    | Some e => mkConsumer (re_sequence e)
                  (ReplicaStore_update (cs_store c) gt gk (re_payload e) (re_sequence e) (re_timestamp e))
    end.
Proof.
  unfold consumer_polls. revert a b c. induction k as [|k IH]; intros a b c Hs He Hr Hf Hl.
  - destruct b; [done|cbn in Hl; lia].
  - rewrite Nat.iter_succ_r. rewrite (poll_unread l gt gk a b c) by done.
    destruct (last (take 100 b)) as [e|] eqn:Hlast.
    + rewrite <- (take_drop 100 b) in Hs, Hr. pose proof (read_advance _ _ _ _ _ Hs Hr Hlast) as Hr'.
      rewrite app_assoc in Hs.
      rewrite (IH (a ++ take 100 b) (drop 100 b)); cycle 1.
      * done.
      * rewrite <- app_assoc, take_drop. done.
      * done.
      * by apply Forall_drop.
      * rewrite length_drop. lia.
      * assert (last b = match last (drop 100 b) with Some x => Some x | None => last (take 100 b) end) as ->
          by (rewrite <- (take_drop 100 b) at 1; apply last_app).
        destruct (last (drop 100 b)) as [e'|]; [|by rewrite Hlast].
        cbn. unfold ReplicaStore_update. by rewrite insert_insert_eq.
    + apply last_None in Hlast. assert (b = []) as -> by (by destruct b).
      rewrite (IH a [] c); try done. cbn; lia.
Qed.

(** * From the sink to the replica *)
Definition sends (s : ReplicationSink) (nps : list (Z * bytes)) : ReplicationSink :=
  foldl (λ s np, ReplicationSink_send np.1 s np.2) s nps.

(** The entries a sink produces for payloads sent at given instants. *)
Fixpoint sent_entries (gt gk : string) (c : ClusterId) (seq : Z) (nps : list (Z * bytes))
    : list ReplicationEntry :=
  match nps with
  | [] => []
  | (now, p) :: nps' => mkREntry gt gk seq now c FullState p :: sent_entries gt gk c (seq + 1) nps'
  end.

Lemma sends_queue nps s :
  0 ≤ sink_next s → sink_next s + Z.of_nat (length nps) < u64_mod →
  (length (sink_queue s) + length nps ≤ sink_capacity s)%nat →
  sink_queue (sends s nps) =
    sink_queue s ++ sent_entries (sink_type s) (sink_key s) (sink_cluster s) (sink_next s) nps.
Proof.
  revert s. induction nps as [|[now p] nps IH]; intros s H0 Hb Hc; [by rewrite app_nil_r|].
  cbn [length] in Hb, Hc. unfold sends in *. cbn [foldl fst snd].
  assert (u64_add (sink_next s) 1 = sink_next s + 1) as Hadd
    by (apply u64_add_small; unfold is_u64; lia).
  assert (ReplicationSink_send now s p =
            mkSink (sink_type s) (sink_key s) (sink_cluster s) (sink_next s + 1) (sink_capacity s)
              (sink_queue s ++ [mkREntry (sink_type s) (sink_key s) (sink_next s) now (sink_cluster s)
                                  FullState p])) as ->.
  { unfold ReplicationSink_send. by rewrite Hadd, bool_decide_false by lia. }
  rewrite IH; cbn; [by rewrite <- app_assoc|lia|lia|rewrite length_app; cbn; lia].
Qed.

Lemma sent_entries_sorted gt gk c seq nps :
  sorted_log (sent_entries gt gk c seq nps) ∧
  Forall (λ e, seq ≤ re_sequence e ∧ re_grain_type e = gt ∧ re_grain_key e = gk ∧
               re_type e = FullState) (sent_entries gt gk c seq nps).
Proof.
  revert seq. induction nps as [|[now p] nps IH]; intros seq; cbn; [split; constructor|].
  destruct (IH (seq + 1)) as [Hs Hf]. split.
  - constructor; [done|]. eapply Forall_impl; [exact Hf|]. cbn. intros e [? _]. lia.
  - constructor; [by split_and!|]. eapply Forall_impl; [exact Hf|]. cbn. intros e (? & ? & ? & ?).
    split_and!; [lia|done..].
Qed.

Lemma pump_accepts q l gt gk :
  log_wf l → sorted_log q → Forall (λ e, re_grain_type e = gt ∧ re_grain_key e = gk) q →
  (∀ lst e, last (entries_for l gt gk) = Some lst → e ∈ q → re_sequence lst < re_sequence e) →
  log_wf (replication_pump l q) ∧
  entries_for (replication_pump l q) gt gk = entries_for l gt gk ++ q.
Proof.
  unfold replication_pump. revert l. induction q as [|e q IH]; intros l Hl Hs Hk Hlt; cbn [foldl];
    [by rewrite app_nil_r|].
  apply Forall_cons in Hk as [[<- <-] Hk]. apply StronglySorted_inv in Hs as [Hs Hf].
  set (gt := re_grain_type e) in *. set (gk := re_grain_key e) in *.
  assert (entries_for (log_append l e).1 gt gk = entries_for l gt gk ++ [e]) as Happ.
  { unfold log_append, entries_for in *. fold gt gk.
    destruct (last (default [] (log_entries l !! slash gt gk))) as [lst|] eqn:El.
    - specialize (Hlt lst e eq_refl ltac:(by left)). rewrite bool_decide_false by lia.
      cbn. by rewrite lookup_insert_eq.
    - cbn. by rewrite lookup_insert_eq. }
  destruct (IH (log_append l e).1) as [Hw He]; [by apply append_wf|done|done| |].
  - rewrite Happ, last_snoc. intros lst x [= <-] Hx. rewrite Forall_forall in Hf. by apply Hf.
  - split; [done|]. rewrite He, Happ, <- app_assoc. done.
Qed.

Lemma sent_entries_last gt gk c seq nps now p :
  last nps = Some (now, p) →
  last (sent_entries gt gk c seq nps) =
    Some (mkREntry gt gk (seq + Z.of_nat (length nps) - 1) now c FullState p).
Proof.
  revert seq. induction nps as [|[t x] nps IH]; intros seq; [done|].
  cbn [sent_entries]. rewrite !last_cons. destruct (last nps) as [np|] eqn:El.
  - intros [= ->]. rewrite (IH (seq + 1)) by done. cbn [length]. do 2 f_equal. lia.
  - apply last_None in El as ->. cbn. intros [= -> ->]. do 2 f_equal. lia.
Qed.

(** C24: replication end to end: states a primary's mailbox sends to its sink (whose channel has
    room), pumped into an ordered log that ends below the sink's start sequence, are all
    accepted and keep the log strictly ordered; and after enough polls (one per hundred
    entries) the replica of a secondary holds exactly the last state sent, with its
    sequence number and timestamp. *)
Theorem replication_end_to_end l gt gk c cap start nps now p store k :
  log_wf l → Forall (λ e, re_type e = FullState ∧ 0 < re_sequence e) (entries_for l gt gk) →
  log_latest_sequence l gt gk < start → 0 < start →
  start + Z.of_nat (length nps) < u64_mod → (length nps ≤ cap)%nat → last nps = Some (now, p) →
  let l' := replication_pump l (sink_queue (sends (ReplicationSink_new cap gt gk c start) nps)) in
  (length (entries_for l' gt gk) ≤ 100 * k)%nat →
  log_wf l' ∧
  log_latest_sequence l' gt gk = start + Z.of_nat (length nps) - 1 ∧
  let c' := consumer_polls l' gt gk k (mkConsumer 0 store) in
  ReplicaStore_get (cs_store c') gt gk =
    Some (mkReplica p (start + Z.of_nat (length nps) - 1) now) ∧
  (∀ gt' gk', slash gt' gk' ≠ slash gt gk →
     ReplicaStore_get (cs_store c') gt' gk' = ReplicaStore_get store gt' gk').
Proof.
  intros Hl Hf Hlat Hst Hb Hcap Hlast l'. unfold l'.
  rewrite sends_queue by (cbn; lia). cbn [ReplicationSink_new sink_queue sink_type sink_key sink_cluster sink_next app].
  set (q := sent_entries gt gk c start nps). destruct (sent_entries_sorted gt gk c start nps) as [Hqs Hqf].
  fold q in Hqs, Hqf.
  destruct (pump_accepts q l gt gk Hl Hqs) as [Hw He].
  { eapply Forall_impl; [exact Hqf|]. cbn. tauto. }
  { intros lst e El Hin. rewrite Forall_forall in Hqf. destruct (Hqf e Hin) as [Hge _].
    unfold log_latest_sequence in Hlat. rewrite El in Hlat. lia. }
  pose proof (sent_entries_last gt gk c start nps now p Hlast) as Hql. fold q in Hql.
  intros Hk. split; [done|].
  assert (last (entries_for (replication_pump l q) gt gk) =
            Some (mkREntry gt gk (start + Z.of_nat (length nps) - 1) now c FullState p)) as Hlst.
  { by rewrite He, last_app, Hql. }
  split; [unfold log_latest_sequence; by rewrite Hlst|].
  rewrite (polls_converge _ gt gk k [] (entries_for (replication_pump l q) gt gk)); try done.
  - rewrite Hlst. cbn. unfold ReplicaStore_get, ReplicaStore_update.
    split; [by rewrite lookup_insert_eq|]. intros. by rewrite lookup_insert_ne.
  - by apply entries_sorted.
  - split; [done|]. rewrite He. apply Forall_app. split.
    + eapply Forall_impl; [exact Hf|]. cbn. intros; lia.
    + eapply Forall_impl; [exact Hqf|]. cbn. intros; lia.
  - rewrite He. apply Forall_app. split; (eapply Forall_impl; [done|]); cbn; tauto.
Qed.

Definition cluster_eu : ClusterId := mkClusterId "eu".

Lemma replication_end_to_end_witness :
  let nps := [(10, [Byte.x01]); (11, [Byte.x02])] in
  let l' := replication_pump InMemoryReplicationLog_new
              (sink_queue (sends (ReplicationSink_new 8 "Cart" "7" cluster_eu 1) nps)) in
  ReplicaStore_get (cs_store (consumer_polls l' "Cart" "7" 1 (mkConsumer 0 ∅))) "Cart" "7" =
    Some (mkReplica [Byte.x02] 2 11).
Proof.
  apply (replication_end_to_end InMemoryReplicationLog_new "Cart" "7" cluster_eu 8 1
           [(10, [Byte.x01]); (11, [Byte.x02])] 11 [Byte.x02] ∅ 1).
  - apply map_Forall_empty.
  - constructor.
  - reflexivity.
  - reflexivity.
  - vm_compute. reflexivity.
  - vm_compute. repeat constructor.
  - reflexivity.
  - apply (bool_decide_unpack _). vm_compute. exact I.
Defined.
