(* ===== verification/DbLog.v ===== *)
(** * SQL replication logs

    [sqlite_replication_log.rs] and [postgres_replication_log.rs] of orlando-persistence:
    the statements on the table [replication_log] and that they refine the in-memory log of
    [Replication], on which the pump and the consumers are proved. *)
From S2P Require Import Prelude CoreTypes Replication Sql.
From Stdlib Require Import Ascii.

Record LogRow := mkLogRow {
  lr_timestamp : Z; lr_source : string; lr_entry_type : Z; lr_payload : bytes }.

(** The table with primary key [(grain_type, grain_key, sequence)]: the rows of every grain by sequence. *)
Abbreviation LogTable := (gmap (string * string) (gmap Z LogRow)).

Definition log_rows (t : LogTable) (gt gk : string) : gmap Z LogRow := default ∅ (t !! (gt, gk)).

Definition entry_type_to_i64 (t : ReplicationEntryType) : Z :=
  match t with FullState => 0 | Delta => 1 end.

Definition entry_type_from_i64 (v : Z) : result ReplicationError ReplicationEntryType :=
  if bool_decide (v = 0) then Ok FullState
  else if bool_decide (v = 1) then Ok Delta
  else Err (ReplicationDeserialization ("unknown entry_type discriminant: " +:+ pretty v)).

(** The Postgres log stores the discriminant as a [SMALLINT]. *)
Definition entry_type_to_i16 (t : ReplicationEntryType) : Z :=
  match t with FullState => 0 | Delta => 1 end.

Definition entry_type_from_i16 (v : Z) : result ReplicationError ReplicationEntryType :=
  if bool_decide (v = 0) then Ok FullState
  else if bool_decide (v = 1) then Ok Delta
  else Err (ReplicationDeserialization ("unknown entry_type discriminant: " +:+ pretty v)).

(** [SELECT MAX(sequence)]: [NULL] without rows. *)
Definition max_sequence (rows : gmap Z LogRow) : option Z := fst <$> last (btree_iter rows).

Section sql_log.
(** The two columns encodings of the entry type. *)
Context (enc : ReplicationEntryType → Z) (dec : Z → result ReplicationError ReplicationEntryType).
Implicit Types (f : Faults) (t : LogTable) (e : ReplicationEntry).

Definition entry_to_row e : LogRow :=
  mkLogRow (re_timestamp e) (as_str (re_source e)) (enc (re_type e)) (re_payload e).

(** One row of a read, with its entry type decoded. *)
Definition log_row_to_entry (gt gk : string) (p : Z * LogRow) : result ReplicationError ReplicationEntry :=
  match dec (lr_entry_type p.2) with
  | Err x => Err x
  | Ok ty => Ok (mkREntry gt gk (as_u64 p.1) (lr_timestamp p.2) (mkClusterId (lr_source p.2)) ty
                   (lr_payload p.2))
  end.

(** The check of [append] against the latest sequence. *)
Definition append_check t e : result ReplicationError unit :=
  match max_sequence (log_rows t (re_grain_type e) (re_grain_key e)) with
  | Some lst =>
      if bool_decide (as_i64 (re_sequence e) ≤ lst) then
        Err (SequenceConflict (u64_add (as_u64 lst) 1) (re_sequence e))
      else Ok tt
  | None => Ok tt
  end.

(** The [INSERT] of [append]; a second row with the same key is refused. *)
Definition append_insert t e : result ReplicationError LogTable :=
  let rows := log_rows t (re_grain_type e) (re_grain_key e) in
  match rows !! as_i64 (re_sequence e) with
  | Some _ => Err (ReplicationBackend "unique violation")
  | None =>
      Ok (<[(re_grain_type e, re_grain_key e) :=
             <[as_i64 (re_sequence e) := entry_to_row e]> rows]> t)
  end.

(** [append]: the check reads the committed table [t0], the insert and the commit apply
    to [t]; without another transaction in between they are the same. *)
Definition SqlReplicationLog_append f t0 t e : LogTable * result ReplicationError Z :=
  match
    stmt ReplicationBackend f 0 (stmt ReplicationBackend f 1 (
      match append_check t0 e with
      | Err x => Err x
      | Ok _ => stmt ReplicationBackend f 2 (
          match append_insert t e with
          | Err x => Err x
          | Ok t' => stmt ReplicationBackend f 3 (Ok t')
          end)
      end))
  with
  | Ok t' => (t', Ok (re_sequence e))
  | Err x => (t, Err x)
  end.

(** [sequence > ? ORDER BY sequence ASC LIMIT ?], and the loop over the rows. *)
Definition SqlReplicationLog_read_from f t (gt gk : string) (after : Z) (limit : nat)
  : result ReplicationError (list ReplicationEntry) :=
  stmt ReplicationBackend f 0 (
    mapM (log_row_to_entry gt gk)
      (take limit (filter (λ p, as_i64 after < p.1) (btree_iter (log_rows t gt gk))))).

Definition SqlReplicationLog_latest_sequence f t (gt gk : string) : result ReplicationError Z :=
  stmt ReplicationBackend f 0 (
    Ok (match max_sequence (log_rows t gt gk) with Some v => as_u64 v | None => 0 end)).

(** [DELETE ... sequence < ?], with the number of rows deleted. *)
Definition SqlReplicationLog_truncate f t (gt gk : string) (before : Z)
  : LogTable * result ReplicationError Z :=
  match f 0%nat with
  | Some m => (t, Err (ReplicationBackend m))
  | None =>
      let rows := log_rows t gt gk in
      let kept := filter (λ p, as_i64 before ≤ p.1) rows in
      (<[(gt, gk) := kept]> t, Ok (Z.of_nat (size rows - size kept)))
  end.
End sql_log.

Definition SqliteReplicationLog_append := SqlReplicationLog_append entry_type_to_i64.
Definition SqliteReplicationLog_read_from := SqlReplicationLog_read_from entry_type_from_i64.
Definition PostgresReplicationLog_append := SqlReplicationLog_append entry_type_to_i16.
Definition PostgresReplicationLog_read_from := SqlReplicationLog_read_from entry_type_from_i16.
Definition PostgresReplicationLog_latest_sequence := SqlReplicationLog_latest_sequence.
Definition PostgresReplicationLog_truncate := SqlReplicationLog_truncate.

(** ** Reading rows in order *)
Section iter.
Context {A : Type}.
Implicit Types (m : gmap Z A) (l : list (Z * A)).

Definition strict l : Prop := StronglySorted (λ p q, p.1 < q.1) l.

Lemma strict_NoDup l : strict l → NoDup l.
Proof.
  induction 1 as [|p l _ IH Hall]; constructor; [|done].
  intros Hin. rewrite Forall_forall in Hall. specialize (Hall p Hin). lia.
Qed.

Lemma strict_key_le l : strict l → StronglySorted key_le l.
Proof.
  induction 1 as [|p l _ IH Hall]; constructor; [done|]. eapply Forall_impl; [exact Hall|].
  intros q. unfold key_le. lia.
Qed.

Lemma btree_iter_perm m : btree_iter m ≡ₚ map_to_list m.
Proof. apply merge_sort_Permutation. Qed.

Lemma btree_iter_strict m : strict (btree_iter m).
Proof.
  assert (NoDup (btree_iter m).*1) as Hnd by (rewrite btree_iter_perm; apply NoDup_fst_map_to_list).
  pose proof (btree_iter_sorted m) as Hs. unfold strict. revert Hnd.
  induction Hs as [|p l _ IH Hall]; intros Hnd; constructor.
  - apply IH. by apply NoDup_cons in Hnd as [_ ?].
  - apply NoDup_cons in Hnd as [Hp _]. rewrite Forall_forall in Hall |- *. intros q Hq.
    pose proof (Hall q Hq) as Hle. unfold key_le in Hle.
    assert (p.1 ≠ q.1); [|lia]. intros E. apply Hp. rewrite E. by apply list_elem_of_fmap_2.
Qed.

(** A strictly sorted list of the map's rows is its iteration. *)
Lemma btree_iter_unique m l :
  strict l → (∀ j v, (j, v) ∈ l ↔ m !! j = Some v) → btree_iter m = l.
Proof.
  intros Hs Hin. apply (StronglySorted_unique_strong key_le).
  - intros p q Hp Hq H1 H2. destruct p as [j v], q as [j' v'].
    apply elem_of_btree_iter in Hp. apply Hin in Hq.
    unfold key_le in H1, H2. cbn [fst] in H1, H2. assert (j = j') as -> by lia. congruence.
  - apply btree_iter_sorted.
  - by apply strict_key_le.
  - apply NoDup_Permutation.
    + apply strict_NoDup, btree_iter_strict.
    + by apply strict_NoDup.
    + intros [j v]. by rewrite elem_of_btree_iter, Hin.
Qed.

Lemma btree_iter_filter (P : Z → Prop) `{∀ j, Decision (P j)} m :
  btree_iter (filter (λ p, P p.1) m) = filter (λ p, P p.1) (btree_iter m).
Proof.
  apply btree_iter_unique.
  - generalize (btree_iter_strict m). unfold strict. induction 1 as [|p l _ IH Hall]; [constructor|].
    rewrite filter_cons. case_decide; [|done]. constructor; [done|].
    rewrite Forall_forall in *. intros q Hq. apply list_elem_of_filter in Hq as [_ Hq]. by apply Hall.
  - intros j v. rewrite list_elem_of_filter, elem_of_btree_iter, map_lookup_filter_Some. cbn. tauto.
Qed.

Lemma strict_snoc l p : strict l → (∀ q, last l = Some q → q.1 < p.1) → strict (l ++ [p]).
Proof.
  unfold strict. induction 1 as [|q l Hs IH Hall]; intros Hlast; [repeat constructor|].
  cbn. constructor.
  - apply IH. intros q' Hq'. apply Hlast. rewrite last_cons. by rewrite Hq'.
  - apply Forall_app. split; [done|]. apply Forall_singleton. rewrite last_cons in Hlast.
    destruct (last l) as [q'|] eqn:E; [|by apply Hlast].
    apply last_Some in E as (l' & ->). specialize (Hlast q' eq_refl).
    apply Forall_app in Hall as [_ Hall]. rewrite Forall_singleton in Hall. cbn in *. lia.
Qed.

Lemma btree_iter_snoc m j v :
  (∀ q, last (btree_iter m) = Some q → q.1 < j) → m !! j = None →
  btree_iter (<[j := v]> m) = btree_iter m ++ [(j, v)].
Proof.
  intros Hlt Hj. apply btree_iter_unique.
  - apply strict_snoc; [apply btree_iter_strict|done].
  - intros k w. rewrite elem_of_app, elem_of_btree_iter, list_elem_of_singleton, lookup_insert.
    case_decide as E; [subst|]; naive_solver.
Qed.

Lemma last_is_max m q j v : last (btree_iter m) = Some q → m !! j = Some v → j ≤ q.1.
Proof.
  intros Hl Hj. apply elem_of_btree_iter in Hj. pose proof (btree_iter_strict m) as Hs.
  apply last_Some in Hl as (l & E). rewrite E in *. clear E m.
  apply elem_of_app in Hj as [Hj|Hj%list_elem_of_singleton]; [|by subst q].
  induction l as [|p l IH]; [by apply not_elem_of_nil in Hj|]. cbn in Hs.
  apply StronglySorted_inv in Hs as [Hs Hall]. apply elem_of_cons in Hj as [<-|Hj]; [|by apply IH].
  apply Forall_app in Hall as [_ Hall]. rewrite Forall_singleton in Hall. cbn in *. lia.
Qed.

Lemma size_btree_iter m : size m = length (btree_iter m).
Proof. rewrite btree_iter_perm. by rewrite <- length_map_to_list. Qed.
End iter.

(** ** The SQL logs refine the in-memory log *)
Section refines.
Context (enc : ReplicationEntryType → Z) (dec : Z → result ReplicationError ReplicationEntryType).
Implicit Types (t : LogTable) (l : InMemoryReplicationLog) (e : ReplicationEntry).

Definition slash_free (s : string) : Prop := str_has "/" s = false.

(** An entry of a grain's log whose sequence fits the column. *)
Definition entry_of (gt gk : string) e : Prop :=
  re_grain_type e = gt ∧ re_grain_key e = gk ∧ 0 ≤ re_sequence e < i64_half.

Definition row_pair e : Z * LogRow := (re_sequence e, entry_to_row enc e).

Definition same_log t l : Prop :=
  ∀ gt gk, slash_free gt →
    btree_iter (log_rows t gt gk) = row_pair <$> entries_for l gt gk ∧
    Forall (entry_of gt gk) (entries_for l gt gk).

Lemma max_same t l gt gk :
  slash_free gt → same_log t l →
  max_sequence (log_rows t gt gk) = re_sequence <$> last (entries_for l gt gk).
Proof.
  intros Hgt Hs. destruct (Hs gt gk Hgt) as [E _]. unfold max_sequence. rewrite E, fmap_last.
  by destruct (last _).
Qed.

(** Replacing one grain's rows and entries keeps the others related. *)
Lemma same_log_update t l gt gk rows es :
  slash_free gt → same_log t l →
  btree_iter rows = row_pair <$> es → Forall (entry_of gt gk) es →
  same_log (<[(gt, gk) := rows]> t) (mkLog (<[slash gt gk := es]> (log_entries l))).
Proof.
  intros Hgt Hs Hit Hes gt' gk' Hgt'. unfold log_rows, entries_for. cbn.
  destruct (decide ((gt', gk') = (gt, gk))) as [[= -> ->]|Hne].
  - by rewrite !lookup_insert_eq.
  - rewrite (lookup_insert_ne t) by done. rewrite lookup_insert_ne; [by apply Hs|].
    intros E. apply Hne. unfold slash in E. rewrite !str_app_cons, !str_app_nil_l in E.
    destruct (str_sep_inj_l "/" gt gk gt' gk' Hgt Hgt' E) as [-> ->]. done.
Qed.

(** A sequence above the last one is not in the table, and its row comes last. *)
Lemma append_fresh t l gt gk e :
  slash_free gt → same_log t l →
  (∀ lst, last (entries_for l gt gk) = Some lst → re_sequence lst < re_sequence e) →
  log_rows t gt gk !! re_sequence e = None ∧
  btree_iter (<[re_sequence e := entry_to_row enc e]> (log_rows t gt gk))
  = row_pair <$> (entries_for l gt gk ++ [e]).
Proof.
  intros Hgt Hs Hlt. destruct (Hs gt gk Hgt) as [Hit _].
  assert (∀ q, last (btree_iter (log_rows t gt gk)) = Some q → q.1 < re_sequence e) as Hlast.
  { intros q. rewrite Hit, fmap_last. intros (x & Hx & ->)%fmap_Some. by apply Hlt. }
  assert (log_rows t gt gk !! re_sequence e = None) as Hnone.
  { destruct (log_rows t gt gk !! re_sequence e) as [r|] eqn:E; [|done].
    destruct (last (btree_iter (log_rows t gt gk))) as [q|] eqn:El.
    - specialize (Hlast q eq_refl). pose proof (last_is_max _ _ _ _ El E). lia.
    - apply last_None in El. apply elem_of_btree_iter in E. rewrite El in E.
      by apply not_elem_of_nil in E. }
  split; [done|]. rewrite btree_iter_snoc by done. by rewrite Hit, fmap_app.
Qed.

Lemma append_refines t l e :
  same_log t l → slash_free (re_grain_type e) → 0 ≤ re_sequence e < i64_half →
  let '(t', r) := SqlReplicationLog_append enc no_faults t t e in
  let '(l', r') := log_append l e in
  same_log t' l' ∧ r = r'.
Proof.
  intros Hs Hgt Hseq. set (gt := re_grain_type e) in *. set (gk := re_grain_key e) in *.
  destruct (Hs gt gk Hgt) as [Hit Hes]. pose proof (append_fresh t l gt gk e Hgt Hs) as Hnew.
  unfold SqlReplicationLog_append, stmt, no_faults, append_check, append_insert, log_append.
  fold gt gk. rewrite (max_same t l gt gk Hgt Hs), as_i64_small by done.
  change (default [] (log_entries l !! slash gt gk)) with (entries_for l gt gk).
  assert (Forall (entry_of gt gk) (entries_for l gt gk ++ [e])) as Hes'.
  { apply Forall_app. split; [done|]. by apply Forall_singleton. }
  destruct (last (entries_for l gt gk)) as [lst|] eqn:El; cbn [fmap option_fmap option_map].
  - case_bool_decide as Hle.
    + split.
      * intros gt' gk' Hgt'. specialize (Hs gt' gk' Hgt'). unfold entries_for in *. cbn.
        rewrite lookup_insert. case_decide as E; [|done]. by rewrite E.
      * rewrite as_u64_small; [done|]. apply last_Some in El as (es & El). rewrite El in Hes.
        apply Forall_app in Hes as [_ Hes]. rewrite Forall_singleton in Hes.
        destruct Hes as (_ & _ & ?). unfold i64_half, u64_mod in *. lia.
    + destruct Hnew as [-> Hn]; [intros ? [= <-]; lia|]. split; [|done]. by apply same_log_update.
  - destruct Hnew as [-> Hn]; [done|]. split; [|done]. by apply same_log_update.
Qed.

Context (Hdec : ∀ ty, dec (enc ty) = Ok ty).

Lemma read_rows gt gk es :
  Forall (entry_of gt gk) es → mapM (log_row_to_entry dec gt gk) (row_pair <$> es) = Ok es.
Proof.
  induction 1 as [|e es (<- & <- & Hseq) _ IH]; [done|]. cbn.
  assert (log_row_to_entry dec (re_grain_type e) (re_grain_key e) (row_pair e) = Ok e) as ->.
  { unfold log_row_to_entry. cbn. rewrite Hdec, as_u64_small.
    - by destruct e as [? ? ? ? [] ? ?].
    - unfold i64_half, u64_mod in *. lia. }
  cbn. by rewrite IH.
Qed.

Lemma filter_pairs (P : Z → Prop) `{∀ j, Decision (P j)} (es : list ReplicationEntry) :
  filter (λ p, P p.1) (row_pair <$> es) = row_pair <$> filter (λ e, P (re_sequence e)) es.
Proof.
  induction es as [|e es IH]; [done|]. rewrite fmap_cons, !filter_cons. cbn.
  case_decide; cbn; by rewrite IH.
Qed.

Lemma entries_filter gt gk (P : ReplicationEntry → Prop) `{∀ e, Decision (P e)} es :
  Forall (entry_of gt gk) es → Forall (entry_of gt gk) (filter P es).
Proof.
  rewrite !Forall_forall. intros He e [_ Hin]%list_elem_of_filter. by apply He.
Qed.

Lemma read_from_refines t l gt gk after limit :
  slash_free gt → same_log t l → 0 ≤ after < i64_half →
  SqlReplicationLog_read_from dec no_faults t gt gk after limit = Ok (log_read_from l gt gk after limit).
Proof.
  intros Hgt Hs Ha. destruct (Hs gt gk Hgt) as [Hit Hes].
  unfold SqlReplicationLog_read_from, stmt, log_read_from. cbn [no_faults].
  rewrite as_i64_small, Hit, (filter_pairs (λ j, after < j)), <- fmap_take by done.
  apply read_rows. by apply Forall_take, entries_filter.
Qed.

Lemma truncate_refines t l gt gk before :
  slash_free gt → same_log t l → 0 ≤ before < i64_half →
  let '(t', r) := SqlReplicationLog_truncate no_faults t gt gk before in
  let '(l', n) := log_truncate l gt gk before in
  same_log t' l' ∧ r = Ok (Z.of_nat n).
Proof.
  intros Hgt Hs Hb. destruct (Hs gt gk Hgt) as [Hit Hes].
  unfold SqlReplicationLog_truncate, log_truncate. cbn [no_faults]. rewrite as_i64_small by done.
  pose proof (btree_iter_filter (λ j, before ≤ j) (log_rows t gt gk)) as Hk.
  rewrite Hit, (filter_pairs (λ j, before ≤ j)) in Hk.
  rewrite !size_btree_iter, Hk, Hit, !length_fmap.
  assert (entries_for l gt gk = default [] (log_entries l !! slash gt gk)) as Hd by done.
  destruct (log_entries l !! slash gt gk) as [log|] eqn:E; cbn in Hd; rewrite Hd in *.
  - split; [|done]. apply same_log_update; [done..|]. by apply entries_filter.
  - split; [|done]. intros gt' gk' Hgt'. destruct (Hs gt' gk' Hgt') as [Hit' Hes'].
    split; [|done]. unfold log_rows at 1. rewrite lookup_insert. case_decide as Hp; [|done].
    injection Hp as <- <-. cbn. rewrite Hd. exact Hk.
Qed.
End refines.

Lemma i64_decodes ty : entry_type_from_i64 (entry_type_to_i64 ty) = Ok ty.
Proof. by destruct ty. Qed.
Lemma i16_decodes ty : entry_type_from_i16 (entry_type_to_i16 ty) = Ok ty.
Proof. by destruct ty. Qed.

(** C35: one operation at a time, without another transaction and without faults, the SQLite and Postgres replication
    logs refine the in-memory log: for grain types without a slash and sequences that fit a signed column, appends are
    accepted or refused alike and keep the logs equal, reads return the same entries in the same order, and latest
    sequence and truncation agree. *)
Theorem sql_log_refines_memory enc dec t l e gt gk after before limit :
  (∀ ty, dec (enc ty) = Ok ty) →
  same_log enc t l → slash_free (re_grain_type e) → 0 ≤ re_sequence e < i64_half →
  slash_free gt → 0 ≤ after < i64_half → 0 ≤ before < i64_half →
  (let '(t', r) := SqlReplicationLog_append enc no_faults t t e in
   let '(l', r') := log_append l e in same_log enc t' l' ∧ r = r') ∧
  SqlReplicationLog_read_from dec no_faults t gt gk after limit
    = Ok (log_read_from l gt gk after limit) ∧
  SqlReplicationLog_latest_sequence no_faults t gt gk = Ok (log_latest_sequence l gt gk) ∧
  (let '(t', r) := SqlReplicationLog_truncate no_faults t gt gk before in
   let '(l', n) := log_truncate l gt gk before in same_log enc t' l' ∧ r = Ok (Z.of_nat n)).
Proof.
  intros Hdec Hs He Hseq Hgt Ha Hb. split_and!.
  - by apply append_refines.
  - by apply (read_from_refines enc).
  - unfold SqlReplicationLog_latest_sequence, stmt, log_latest_sequence. cbn [no_faults].
    rewrite (max_same enc t l gt gk Hgt Hs). destruct (last _) as [x|] eqn:El; [|done]. cbn.
    destruct (Hs gt gk Hgt) as [_ Hes]. apply last_Some in El as (es & El). rewrite El in Hes.
    apply Forall_app in Hes as [_ Hes]. rewrite Forall_singleton in Hes.
    destruct Hes as (_ & _ & ?). rewrite as_u64_small; [done|]. unfold i64_half, u64_mod in *. lia.
  - by apply truncate_refines.
Qed.

Definition rlog_entry (n : Z) : ReplicationEntry :=
  mkREntry "app::Counter" "x" n 1700 (mkClusterId "eu") FullState [Byte.x01].

Lemma sql_log_refines_memory_witness :
  let '(t, r) := SqliteReplicationLog_append no_faults ∅ ∅ (rlog_entry 5) in
  let '(l, r') := log_append InMemoryReplicationLog_new (rlog_entry 5) in
  r = r' ∧
  SqliteReplicationLog_read_from no_faults t "app::Counter" "x" 0 10 = Ok [rlog_entry 5] ∧
  same_log entry_type_to_i64 t l.
Proof.
  assert (same_log entry_type_to_i64 ∅ InMemoryReplicationLog_new) as Hs by done.
  pose proof (sql_log_refines_memory entry_type_to_i64 entry_type_from_i64 ∅ InMemoryReplicationLog_new
    (rlog_entry 5) "app::Counter" "x" 0 0 10 i64_decodes Hs ltac:(done) ltac:(done) ltac:(done)
    ltac:(done) ltac:(done)) as (H & _).
  unfold SqliteReplicationLog_append.
  destruct (SqlReplicationLog_append _ _ _ _ _) as [t r] eqn:E.
  destruct (log_append _ _) as [l r'] eqn:E'. destruct H as [Hl ->].
  split_and!; [reflexivity| |exact Hl].
  assert (t = (SqlReplicationLog_append entry_type_to_i64 no_faults ∅ ∅ (rlog_entry 5)).1) as ->
    by (by rewrite E). vm_compute. reflexivity.
Defined.

Lemma log_rows_insert (t : LogTable) gt gk m : log_rows (<[(gt, gk) := m]> t) gt gk = m.
Proof. unfold log_rows. by rewrite lookup_insert_eq. Qed.

(** Racing appends: when two transactions both check the latest sequence before either
    inserts, as Postgres' default isolation allows, both are accepted although the second
    carries a smaller sequence; a consumer that polled in between never sees that entry,
    since it reads only above the sequence it has. *)
Theorem racing_appends_lose_entry enc t e1 e2 :
  re_grain_type e1 = re_grain_type e2 → re_grain_key e1 = re_grain_key e2 →
  0 ≤ re_sequence e2 < re_sequence e1 → re_sequence e1 < i64_half →
  log_rows t (re_grain_type e1) (re_grain_key e1) = ∅ →
  ∃ t1 t2,
    SqlReplicationLog_append enc no_faults t t e1 = (t1, Ok (re_sequence e1)) ∧
    SqlReplicationLog_append enc no_faults t t1 e2 = (t2, Ok (re_sequence e2)) ∧
    log_rows t2 (re_grain_type e1) (re_grain_key e1) !! re_sequence e2 = Some (entry_to_row enc e2) ∧
    (∀ limit dec, SqlReplicationLog_read_from dec no_faults t2 (re_grain_type e1) (re_grain_key e1)
       (re_sequence e1) limit = Ok []).
Proof.
  intros Hgt Hgk H0 Hi Hempty.
  assert (∀ e, re_grain_type e = re_grain_type e1 → re_grain_key e = re_grain_key e1 →
            append_check t e = Ok tt) as Hcheck.
  { intros e E1 E2. unfold append_check. by rewrite E1, E2, Hempty. }
  eexists _, _. split; [|split].
  - unfold SqlReplicationLog_append, stmt, no_faults, append_insert.
    rewrite Hcheck by done. rewrite Hempty, lookup_empty. reflexivity.
  - unfold SqlReplicationLog_append, stmt, no_faults, append_insert. rewrite Hcheck by done.
    rewrite <- Hgt, <- Hgk, log_rows_insert.
    rewrite (as_i64_small (re_sequence e1)), (as_i64_small (re_sequence e2)) by lia.
    rewrite lookup_insert_ne, lookup_empty by lia. reflexivity.
  - rewrite log_rows_insert. split; [by rewrite lookup_insert_eq|].
    intros limit dec. unfold SqlReplicationLog_read_from, stmt. cbn [no_faults].
    rewrite log_rows_insert, (as_i64_small (re_sequence e1)) by lia.
    rewrite <- (btree_iter_filter (λ j, re_sequence e1 < j)).
    assert (∀ m : gmap Z LogRow, m = ∅ → mapM (log_row_to_entry dec (re_grain_type e1) (re_grain_key e1))
              (take limit (btree_iter m)) = Ok []) as Hnil.
    { intros m ->. by destruct limit. }
    apply Hnil. apply map_empty. intros j. rewrite map_lookup_filter_None. right.
    intros x Hx. cbn. rewrite !lookup_insert in Hx. repeat case_decide; try lia. by rewrite lookup_empty in Hx.
Qed.

Lemma racing_appends_lose_entry_witness :
  ∃ t1 t2,
    PostgresReplicationLog_append no_faults ∅ ∅ (rlog_entry 6) = (t1, Ok 6) ∧
    PostgresReplicationLog_append no_faults ∅ t1 (rlog_entry 5) = (t2, Ok 5).
Proof.
  destruct (racing_appends_lose_entry entry_type_to_i16 ∅ (rlog_entry 6) (rlog_entry 5)
    eq_refl eq_refl ltac:(done) ltac:(done) eq_refl) as (t1 & t2 & H1 & H2 & _).
  exists t1, t2. split; [exact H1|exact H2].
Defined.
