(* ===== verification/CrossCluster.v ===== *)
(** Cross-cluster ownership: the directory ([orlando-cluster/src/cross_cluster_directory.rs]),
    peer health ([multi_cluster.rs]) and failover ([failover.rs]). *)
From Stdlib Require Import Ascii.
From S2P Require Import Prelude CoreTypes HashRing Auth.

(** * The directory *)
Record GrainOwnership := mkOwn { own_cluster : ClusterId; own_epoch : Z; registered_at : Z }.

Inductive DirectoryError := DirUnavailable (m : string) | StaleEpoch (current requested : Z)
| DirBackend (m : string).

(** [InMemoryCrossClusterDirectory]: keyed by the printed grain id. *)
Abbreviation InMemoryCrossClusterDirectory := (gmap string (GrainId * GrainOwnership)).

Definition ccd_lookup (d : InMemoryCrossClusterDirectory) (g : GrainId) : option GrainOwnership :=
  snd <$> d !! GrainId_display g.

(** [register]; [now] is the registration time. *)
Definition ccd_register (now : Z) (d : InMemoryCrossClusterDirectory) (g : GrainId) (c : ClusterId)
    (epoch : Z) : InMemoryCrossClusterDirectory * GrainOwnership :=
  let insert_new :=
    let ownership := mkOwn c epoch now in
    (<[GrainId_display g := (g, ownership)]> d, ownership) in
  match d !! GrainId_display g with
  | Some (_, existing) =>
      if bool_decide (own_cluster existing ≠ c) && bool_decide (epoch ≤ own_epoch existing) then
        (d, existing)
      else if bool_decide (own_cluster existing = c) && bool_decide (epoch ≤ own_epoch existing) then
        (d, existing)
      else insert_new
  | None => insert_new
  end.

(** [deregister] *)
Definition ccd_deregister (d : InMemoryCrossClusterDirectory) (g : GrainId) (c : ClusterId)
    : InMemoryCrossClusterDirectory :=
  match d !! GrainId_display g with
  | Some (_, existing) =>
      if bool_decide (own_cluster existing = c) then delete (GrainId_display g) d else d
  | None => d
  end.

(** [list_owned_by] *)
Definition ccd_list_owned_by (d : InMemoryCrossClusterDirectory) (c : ClusterId)
    : list (GrainId * GrainOwnership) :=
  filter (λ p : GrainId * GrainOwnership, own_cluster p.2 = c) (map_to_list d).*2.

(** [CrossClusterDirectory]: every call can fail.  [renew] and [list_owned_by] have default bodies. *)
Class CrossClusterDirectory (D : Type) := {
  dir_lookup : GrainId → D → D * result DirectoryError (option GrainOwnership);
  dir_register : Z → GrainId → ClusterId → Z → D → D * result DirectoryError GrainOwnership;
  dir_deregister : GrainId → ClusterId → D → D * result DirectoryError unit;
  dir_renew : GrainId → ClusterId → D → D * result DirectoryError unit;
  dir_list_owned_by : ClusterId → D → D * result DirectoryError (list (GrainId * GrainOwnership)) }.

Definition renew_default {D} (_ : GrainId) (_ : ClusterId) (d : D) : D * result DirectoryError unit := (d, Ok ()).
Definition list_owned_by_default {D} (_ : ClusterId) (d : D)
    : D * result DirectoryError (list (GrainId * GrainOwnership)) := (d, Ok []).

#[global] Instance in_memory_directory : CrossClusterDirectory InMemoryCrossClusterDirectory := {|
  dir_lookup g d := (d, Ok (ccd_lookup d g));
  dir_register now g c epoch d := let '(d, o) := ccd_register now d g c epoch in (d, Ok o);
  dir_deregister g c d := (ccd_deregister d g c, Ok ());
  dir_renew := renew_default;
  dir_list_owned_by c d := (d, Ok (ccd_list_owned_by d c)) |}.

(** A directory that is not always reachable: whether each of the next calls fails. *)
Record DirectoryService := mkDirService { ds_entries : InMemoryCrossClusterDirectory; ds_outages : list bool }.
#[global] Instance ds_empty : Empty DirectoryService := mkDirService ∅ [].

Definition ds_call {A} (f : InMemoryCrossClusterDirectory → InMemoryCrossClusterDirectory * result DirectoryError A)
    (s : DirectoryService) : DirectoryService * result DirectoryError A :=
  match ds_outages s with
  | true :: rest => (mkDirService (ds_entries s) rest, Err (DirUnavailable "unreachable"))
  | outages => let '(d, r) := f (ds_entries s) in (mkDirService d (tail outages), r)
  end.
#[global] Instance service_directory : CrossClusterDirectory DirectoryService := {|
  dir_lookup g := ds_call (dir_lookup g);
  dir_register now g c epoch := ds_call (dir_register now g c epoch);
  dir_deregister g c := ds_call (dir_deregister g c);
  dir_renew g c := ds_call (dir_renew g c);
  dir_list_owned_by c := ds_call (dir_list_owned_by c) |}.

(** A directory that several clusters write: before each of the next calls others register grains, and the call may fail. *)
Record Claim := mkClaim { cm_now : Z; cm_grain : GrainId; cm_cluster : ClusterId; cm_epoch : Z }.
Record ContestedDirectory := mkContested { cd_entries : InMemoryCrossClusterDirectory; cd_calls : list (list Claim * bool) }.
Definition apply_claim (d : InMemoryCrossClusterDirectory) (c : Claim) : InMemoryCrossClusterDirectory :=
  (ccd_register (cm_now c) d (cm_grain c) (cm_cluster c) (cm_epoch c)).1.
Definition contested_call {A} (f : InMemoryCrossClusterDirectory → InMemoryCrossClusterDirectory * result DirectoryError A)
    (s : ContestedDirectory) : ContestedDirectory * result DirectoryError A :=
  let '(claims, fails) := default ([], false) (head (cd_calls s)) in
  let d := foldl apply_claim (cd_entries s) claims in
  if fails : bool then (mkContested d (tail (cd_calls s)), Err (DirUnavailable "unreachable"))
  else let '(d, r) := f d in (mkContested d (tail (cd_calls s)), r).
#[global] Instance contested_directory : CrossClusterDirectory ContestedDirectory := {|
  dir_lookup g := contested_call (dir_lookup g);
  dir_register now g c epoch := contested_call (dir_register now g c epoch);
  dir_deregister g c := contested_call (dir_deregister g c);
  dir_renew g c := contested_call (dir_renew g c);
  dir_list_owned_by c := contested_call (dir_list_owned_by c) |}.

(** * Peer health *)
Inductive PeerStatus := Healthy | Unreachable | Unknown.
#[global] Instance PeerStatus_eq_dec : EqDecision PeerStatus.
Proof. solve_decision. Defined.

Record MultiClusterConfig := mkMCC {
  mcc_cluster_id : ClusterId; mcc_peers : gmap ClusterId string; mcc_interval : Z }.

Definition MultiClusterConfig_new (c : ClusterId) : MultiClusterConfig := mkMCC c ∅ (10 * 1000000000).
Definition MultiClusterConfig_peer (m : MultiClusterConfig) (c : ClusterId) (ep : string)
    : MultiClusterConfig := mkMCC (mcc_cluster_id m) (<[c := ep]> (mcc_peers m)) (mcc_interval m).

(** The initial statuses of [ClusterHealth::new]. *)
Definition ClusterHealth_new (config : MultiClusterConfig) : gmap ClusterId PeerStatus :=
  (λ _, Unknown) <$> mcc_peers config.
Definition ClusterHealth_status (st : gmap ClusterId PeerStatus) (c : ClusterId) : PeerStatus :=
  default Unknown (st !! c).

(** One round of [ClusterHealth::run]: [connects] dials an endpoint, [answers ep md] says
    whether its [get_members] answers a request with this metadata in time. *)
Definition health_round (connects : string → bool) (answers : string → Metadata → bool)
    (config : MultiClusterConfig) (pool : ConnectionPool) : gmap ClusterId PeerStatus :=
  (λ ep, if (ConnectionPool_get_membership connects pool ep).2 then
           if answers ep None then Healthy else Unreachable
         else Unreachable) <$> mcc_peers config.

(** * Failover *)
Inductive FailoverPhase :=
| Monitoring
| PrimaryUnreachable (since : Z)
| Promoting
| Promoted (epoch : Z).
#[global] Instance FailoverPhase_eq_dec : EqDecision FailoverPhase.
Proof. solve_decision. Defined.

Record FailoverConfig := mkFailover { grace_period : Z; check_interval : Z }.
Definition FailoverConfig_default : FailoverConfig := mkFailover (30 * 1000000000) (5 * 1000000000).

(** What a promotion sweep counts. *)
Record Sweep := mkSweep { sw_max_epoch : Z; sw_promoted : nat; sw_lost : nat; sw_failed : nat }.
Definition Sweep_new : Sweep := mkSweep 0 0 0 0.

Section failover.
Context {D : Type} `{CrossClusterDirectory D} (config : FailoverConfig) (local : ClusterId).

(** [promote_grain] *)
Definition promote_grain (now : Z) (d : D) (g : GrainId) (o : GrainOwnership) : D * result DirectoryError GrainOwnership :=
  dir_register now g local (u64_add (own_epoch o) 1) d.

(** The outcome of one promotion. *)
Definition count_promotion (r : result DirectoryError GrainOwnership) (s : Sweep) : Sweep :=
  match r with
  | Ok new_owner =>
      if bool_decide (own_cluster new_owner = local)
      then mkSweep (Z.max (sw_max_epoch s) (own_epoch new_owner)) (S (sw_promoted s)) (sw_lost s) (sw_failed s)
      else mkSweep (sw_max_epoch s) (sw_promoted s) (S (sw_lost s)) (sw_failed s)
  | Err _ => mkSweep (sw_max_epoch s) (sw_promoted s) (sw_lost s) (S (sw_failed s))
  end.

(** The promotion sweep. *)
Fixpoint promote_all (now : Z) (d : D) (grains : list (GrainId * GrainOwnership)) (s : Sweep) : D * Sweep :=
  match grains with
  | [] => (d, s)
  | (g, o) :: rest =>
      let '(d, r) := promote_grain now d g o in
      promote_all now d rest (count_promotion r s)
  end.

(** The body of the loop of [FailoverManager::run] for one peer. *)
Definition failover_step (now : Z) (peer : ClusterId) (status : PeerStatus) (phase : FailoverPhase)
    (d : D) : D * FailoverPhase :=
  match status, phase with
  | Healthy, _ => (d, Monitoring)
  | Unreachable, Monitoring => (d, PrimaryUnreachable now)
  | Unreachable, PrimaryUnreachable since =>
      if bool_decide (grace_period config ≤ now - since) then (d, Promoting) else (d, phase)
  | Unreachable, Promoting =>
      match dir_list_owned_by peer d with
      | (d, Ok grains) =>
          let '(d, s) := promote_all now d grains Sweep_new in (d, Promoted (sw_max_epoch s))
      | (d, Err _) => (d, phase)
      end
  | _, _ => (d, phase)
  end.

(** Successive checks of one peer, each with its instant and the status seen. *)
Definition failover_run (peer : ClusterId) (obs : list (Z * PeerStatus)) (s : D * FailoverPhase) : D * FailoverPhase :=
  foldl (λ s o, failover_step o.1 peer o.2 s.2 s.1) s obs.
End failover.

(** * Fencing *)

Lemma register_lookup now d g c epoch :
  ccd_lookup (ccd_register now d g c epoch).1 g = Some (ccd_register now d g c epoch).2.
Proof.
  unfold ccd_register, ccd_lookup. destruct (d !! GrainId_display g) as [[g' o]|] eqn:E.
  - destruct (_ && _); [cbn; by rewrite E|]. destruct (_ && _); [cbn; by rewrite E|]. cbn. by rewrite lookup_insert_eq.
  - cbn. by rewrite lookup_insert_eq.
Qed.

(** What [register] decides, in terms of the current owner. *)
Lemma register_spec now d g c epoch :
  (ccd_register now d g c epoch).2 =
    match ccd_lookup d g with
    | Some o => if bool_decide (epoch ≤ own_epoch o) then o else mkOwn c epoch now
    | None => mkOwn c epoch now
    end.
Proof.
  unfold ccd_register, ccd_lookup. destruct (d !! GrainId_display g) as [[g' o]|]; cbn; [|done].
  destruct (decide (own_cluster o = c)); case_bool_decide as Hc; try done; cbn;
    repeat case_bool_decide; done.
Qed.

Lemma register_other now d g c epoch g' :
  GrainId_display g' ≠ GrainId_display g →
  ccd_lookup (ccd_register now d g c epoch).1 g' = ccd_lookup d g'.
Proof.
  intros Hne. unfold ccd_register, ccd_lookup.
  destruct (d !! GrainId_display g) as [[g0 o]|]; [destruct (_ && _); [done|destruct (_ && _); [done|]]|];
    cbn; by rewrite lookup_insert_ne.
Qed.

(** C15: ownership is fenced by epochs: [register] returns the owner the directory then holds;
    a claim at an epoch not above the recorded one changes nothing and learns the
    current owner, a claim at a higher epoch always wins, so the recorded epoch never
    decreases; of two clusters racing with the same epoch, exactly the first becomes
    owner and both learn the same answer; only the owner can deregister. *)
Theorem ownership_fencing now now' d g c c' epoch :
  let '(d1, o1) := ccd_register now d g c epoch in
  ccd_lookup d1 g = Some o1 ∧ epoch ≤ own_epoch o1 ∧
  (∀ o, ccd_lookup d g = Some o → own_epoch o ≤ own_epoch o1 ∧
        (epoch ≤ own_epoch o → o1 = o) ∧ (own_epoch o < epoch → own_cluster o1 = c)) ∧
  (ccd_register now' d1 g c' epoch).2 = o1 ∧ (ccd_register now' d1 g c' epoch).1 = d1 ∧
  (own_cluster o1 ≠ c' → ccd_deregister d1 g c' = d1).
Proof.
  pose proof (register_lookup now d g c epoch) as Hl. pose proof (register_spec now d g c epoch) as Hs.
  destruct (ccd_register now d g c epoch) as [d1 o1]. cbn [fst snd] in *.
  assert (epoch ≤ own_epoch o1) as Hge.
  { rewrite Hs. destruct (ccd_lookup d g); [|done]. case_bool_decide; cbn; lia. }
  unfold ccd_lookup in Hl. destruct (d1 !! GrainId_display g) as [[g1 o2]|] eqn:E1; [|done].
  cbn in Hl. injection Hl as ->. split_and!.
  - unfold ccd_lookup. by rewrite E1.
  - done.
  - intros o Ho. rewrite Ho in Hs. subst o1. case_bool_decide; cbn in *; split_and!; try done; lia.
  - rewrite register_spec. unfold ccd_lookup. rewrite E1. cbn. by rewrite bool_decide_true.
  - unfold ccd_register. rewrite E1. destruct (decide (own_cluster o1 = c')).
    + rewrite bool_decide_false by tauto. cbn. by rewrite !bool_decide_true.
    + rewrite !bool_decide_true by done. done.
  - intros Hc. unfold ccd_deregister. by rewrite E1, bool_decide_false.
Qed.

(** The fence is dropped with the entry: after the owner deregisters, a registration at any
    lower epoch is accepted again, so the epoch of a grain can go down over its life. *)
Theorem deregister_drops_the_fence now d g o c epoch :
  ccd_lookup d g = Some o → epoch < own_epoch o →
  let d1 := ccd_deregister d g (own_cluster o) in
  ccd_register now d1 g c epoch = (<[GrainId_display g := (g, mkOwn c epoch now)]> d1, mkOwn c epoch now).
Proof.
  unfold ccd_lookup, ccd_deregister. intros Ho Hlt.
  destruct (d !! GrainId_display g) as [[g0 o0]|] eqn:E; [|done]. cbn in Ho. injection Ho as ->.
  rewrite bool_decide_true by done. unfold ccd_register. by rewrite lookup_delete_eq.
Qed.

Definition eu : ClusterId := mkClusterId "eu".
Definition us : ClusterId := mkClusterId "us".
Definition cart : GrainId := mkGrainId "Cart" "7".
Definition dir_us : InMemoryCrossClusterDirectory := {[ GrainId_display cart := (cart, mkOwn us 3 0) ]}.

Lemma deregister_drops_the_fence_witness :
  (ccd_register 9 (ccd_deregister dir_us cart us) cart eu 1).2 = mkOwn eu 1 9.
Proof.
  change us with (own_cluster (mkOwn us 3 0)).
  rewrite (deregister_drops_the_fence 9 dir_us cart (mkOwn us 3 0) eu 1);
    [reflexivity|vm_compute; reflexivity|reflexivity].
Defined.

(** * Failover *)

(** Entries are filed under the printed id of their grain. *)
Definition dir_wf (d : InMemoryCrossClusterDirectory) : Prop :=
  map_Forall (λ k p, k = GrainId_display p.1 ∧ 0 ≤ own_epoch p.2 ∧ own_epoch p.2 + 1 < u64_mod) d.

Lemma list_owned_spec d c g o :
  dir_wf d → (g, o) ∈ ccd_list_owned_by d c ↔ d !! GrainId_display g = Some (g, o) ∧ own_cluster o = c.
Proof.
  intros Hd. unfold ccd_list_owned_by. rewrite list_elem_of_filter, list_elem_of_fmap. cbn. split.
  - intros [Hc ([k p] & Hp & Hin)]. cbn in Hp. subst p. apply elem_of_map_to_list in Hin.
    destruct (Hd k _ Hin) as [Hk _]. cbn in Hk. by subst k.
  - intros [Hl Hc]. split; [done|]. exists (GrainId_display g, (g, o)). split; [done|].
    by apply elem_of_map_to_list.
Qed.

Lemma list_owned_nodup d c :
  dir_wf d → NoDup ((GrainId_display ∘ fst) <$> ccd_list_owned_by d c).
Proof.
  intros Hd. unfold ccd_list_owned_by.
  assert (∀ l : list (string * (GrainId * GrainOwnership)),
            NoDup (l.*1) → Forall (λ kp, kp.1 = GrainId_display kp.2.1) l →
            NoDup ((GrainId_display ∘ fst) <$>
                   filter (λ p : GrainId * GrainOwnership, own_cluster p.2 = c) (l.*2))) as Hgen.
  { induction l as [|[k [g o]] l IH]; intros Hn Hf; [constructor|].
    apply NoDup_cons in Hn as [Hk Hn]. apply Forall_cons in Hf as [Hkg Hf]. cbn in Hk, Hkg. subst k.
    cbn [fmap list_fmap snd fst]. destruct (decide (own_cluster o = c)).
    - rewrite filter_cons_True by done. cbn. constructor; [|by apply IH].
      intros ([g' o'] & Heq & [_ Hin]%list_elem_of_filter)%list_elem_of_fmap. cbn in Heq.
      apply list_elem_of_fmap in Hin as ([k' p'] & Hp' & Hin). cbn in Hp'. subst p'. apply Hk.
      rewrite Forall_forall in Hf. specialize (Hf _ Hin). cbn in Hf.
      apply list_elem_of_fmap. exists (k', (g', o')). split; [cbn; by rewrite Heq, Hf|done].
    - rewrite filter_cons_False by done. by apply IH. }
  apply Hgen; [apply NoDup_fst_map_to_list|].
  apply Forall_forall. intros [k p] Hin%elem_of_map_to_list. by destruct (Hd k p Hin).
Qed.

Section promotion.
Context (config : FailoverConfig) (local peer : ClusterId).

(** ** When the manager promotes *)

(** The peer was unreachable at two checks at least the grace period apart and at a third one, and never seen healthy in
    between. *)
Definition outage_window (obs : list (Z * PeerStatus)) : Prop :=
  ∃ pre t1 mid t2 mid' t3 post,
    obs = pre ++ (t1, Unreachable) :: mid ++ (t2, Unreachable) :: mid' ++ (t3, Unreachable) :: post ∧
    Forall (λ o, o.2 ≠ Healthy) (mid ++ mid') ∧ grace_period config ≤ t2 - t1.

(** What a phase says about the checks before it. *)
Definition phase_since (obs : list (Z * PeerStatus)) (ph : FailoverPhase) : Prop :=
  match ph with
  | Monitoring => True
  | PrimaryUnreachable since =>
      ∃ pre mid, obs = pre ++ (since, Unreachable) :: mid ∧ Forall (λ o, o.2 ≠ Healthy) mid
  | Promoting =>
      ∃ pre t1 mid t2 mid', obs = pre ++ (t1, Unreachable) :: mid ++ (t2, Unreachable) :: mid' ∧
        Forall (λ o, o.2 ≠ Healthy) (mid ++ mid') ∧ grace_period config ≤ t2 - t1
  | Promoted _ => outage_window obs
  end.

Lemma outage_window_snoc obs o : outage_window obs → outage_window (obs ++ [o]).
Proof.
  intros (pre & t1 & mid & t2 & mid' & t3 & post & -> & Hm & Hg).
  exists pre, t1, mid, t2, mid', t3, (post ++ [o]). split_and!; [|done|done].
  by repeat rewrite <- ?(assoc_L (++)), <- ?app_comm_cons.
Qed.

Lemma failover_step_since `{CrossClusterDirectory D} obs t st ph (d : D) :
  phase_since obs ph →
  let '(d', ph') := failover_step config local t peer st ph d in
  phase_since (obs ++ [(t, st)]) ph' ∧ (d' = d ∨ outage_window (obs ++ [(t, st)])).
Proof.
  intros Hph. destruct st; cbn [failover_step]; [by split; [|left]| |].
  - destruct ph as [|since| |e]; cbn [phase_since] in Hph.
    + split; [|by left]. exists obs, []. by split.
    + destruct Hph as (pre & mid & -> & Hm). case_bool_decide; (split; [|by left]).
      * exists pre, since, mid, t, []. rewrite app_nil_r. split_and!; [|done|done]. by rewrite <- (assoc_L (++)).
      * exists pre, (mid ++ [(t, Unreachable)]). split; [by rewrite <- (assoc_L (++))|].
        apply Forall_app. split; [done|]. by repeat constructor.
    + destruct Hph as (pre & t1 & mid & t2 & mid' & -> & Hm & Hg).
      assert (outage_window ((pre ++ (t1, Unreachable) :: mid ++ (t2, Unreachable) :: mid') ++ [(t, Unreachable)])) as Hw.
      { exists pre, t1, mid, t2, mid', t, []. split_and!; [|done|done].
        by repeat rewrite <- ?(assoc_L (++)), <- ?app_comm_cons. }
      destruct (dir_list_owned_by peer d) as [d1 [grains|e]].
      * destruct (promote_all local t d1 grains Sweep_new) as [d2 sw]. by split; [|right].
      * split; [|by right]. exists pre, t1, mid, t2, (mid' ++ [(t, Unreachable)]). split_and!; [| |done].
        -- by repeat rewrite <- ?(assoc_L (++)), <- ?app_comm_cons.
        -- rewrite (assoc_L (++)). apply Forall_app. split; [done|]. by repeat constructor.
    + split; [by apply outage_window_snoc|by left].
  - split; [|by left]. destruct ph as [|since| |e]; cbn [phase_since] in *; [done|..|by apply outage_window_snoc].
    + destruct Hph as (pre & mid & -> & Hm). exists pre, (mid ++ [(t, Unknown)]). split; [by rewrite <- (assoc_L (++))|].
      apply Forall_app. split; [done|]. by repeat constructor.
    + destruct Hph as (pre & t1 & mid & t2 & mid' & -> & Hm & Hg). exists pre, t1, mid, t2, (mid' ++ [(t, Unknown)]).
      split_and!; [by repeat rewrite <- ?(assoc_L (++)), <- ?app_comm_cons| |done].
      rewrite (assoc_L (++)). apply Forall_app. split; [done|]. by repeat constructor.
Qed.

(** However the checks went, the directory is only touched after such an outage. *)
Lemma failover_run_since `{CrossClusterDirectory D} obs (d : D) :
  let '(d', ph) := failover_run config local peer obs (d, Monitoring) in
  phase_since obs ph ∧ (d' = d ∨ outage_window obs).
Proof.
  induction obs as [|[t st] obs IH] using rev_ind; [by split; [|left]|].
  unfold failover_run in *. rewrite foldl_app. destruct (foldl _ _ obs) as [d1 ph]. destruct IH as [Hph Hd]. cbn [foldl fst snd].
  pose proof (failover_step_since obs t st ph d1 Hph) as Hs. destruct (failover_step _ _ _ _ _ _ _) as [d2 ph2].
  destruct Hs as [Hph2 [->|Hw]]; (split; [done|]); [|by right].
  destruct Hd as [->|Hw]; [by left|right; by apply outage_window_snoc].
Qed.

(** ** The sweep *)
Definition claims_on (g : GrainId) (calls : list (list Claim * bool)) : list Claim :=
  filter (λ c, GrainId_display (cm_grain c) = GrainId_display g) (concat calls.*1).
(** No other cluster claims the grain in the meantime. *)
Definition uncontested (g : GrainId) (calls : list (list Claim * bool)) : Prop := claims_on g calls = [].
Definition call_fails (calls : list (list Claim * bool)) (i : nat) : bool := default false (snd <$> calls !! i).

(** A claim at an epoch that is not higher is refused. *)
Lemma register_refused t d g c e o : ccd_lookup d g = Some o → e ≤ own_epoch o → ccd_register t d g c e = (d, o).
Proof.
  unfold ccd_lookup, ccd_register. intros Ho He. destruct (d !! GrainId_display g) as [[g' o1]|]; [|done]. injection Ho as ->.
  destruct (decide (own_cluster o = c)).
  - rewrite bool_decide_false by tauto. cbn. by rewrite !bool_decide_true.
  - by rewrite !bool_decide_true by done.
Qed.

(** A registration never lowers the epoch of an entry, and touches one only. *)
Lemma register_epoch now d g c e g0 o :
  ccd_lookup d g0 = Some o → ∃ o', ccd_lookup (ccd_register now d g c e).1 g0 = Some o' ∧ own_epoch o ≤ own_epoch o'.
Proof.
  intros Ho. destruct (decide (GrainId_display g0 = GrainId_display g)) as [Heq|Hne].
  - pose proof (register_lookup now d g c e) as Hl. pose proof (register_spec now d g c e) as Hs.
    assert (∀ d', ccd_lookup d' g0 = ccd_lookup d' g) as Hk by (intros d'; unfold ccd_lookup; by rewrite Heq).
    rewrite Hk in Ho |- *. rewrite Hl, Hs, Ho. case_bool_decide; eexists; (split; [done|cbn; lia]).
  - exists o. split; [|done]. rewrite <- Ho. apply register_other. congruence.
Qed.

Lemma claims_epoch cs d g o :
  ccd_lookup d g = Some o → ∃ o', ccd_lookup (foldl apply_claim d cs) g = Some o' ∧ own_epoch o ≤ own_epoch o'.
Proof.
  revert d o. induction cs as [|c cs IH]; intros d o Ho; [by exists o|].
  destruct (register_epoch (cm_now c) d (cm_grain c) (cm_cluster c) (cm_epoch c) g o Ho) as (o1 & H1 & Hle).
  destruct (IH _ _ H1) as (o2 & H2 & Hle'). exists o2. split; [done|lia].
Qed.

Lemma claims_elsewhere cs d g :
  Forall (λ c, GrainId_display (cm_grain c) ≠ GrainId_display g) cs → ccd_lookup (foldl apply_claim d cs) g = ccd_lookup d g.
Proof.
  revert d. induction cs as [|c cs IH]; intros d Hf; [done|]. apply Forall_cons in Hf as [Hc Hf].
  cbn [foldl]. rewrite IH by done. apply register_other. congruence.
Qed.

Lemma uncontested_cons g cl calls :
  uncontested g (cl :: calls) ↔ Forall (λ c, GrainId_display (cm_grain c) ≠ GrainId_display g) cl.1 ∧ uncontested g calls.
Proof.
  unfold uncontested, claims_on. cbn [fmap list_fmap concat]. rewrite filter_app. split.
  - intros [H1 H2]%app_nil. split; [|done]. apply Forall_forall. intros c Hc Heq.
    assert (c ∈ filter (λ c, GrainId_display (cm_grain c) = GrainId_display g) cl.1) as Hin by (by apply list_elem_of_filter).
    rewrite H1 in Hin. by apply not_elem_of_nil in Hin.
  - intros [Hf ->]. rewrite app_nil_r. induction Hf as [|c cs Hc _ IH]; [done|]. by rewrite filter_cons_False.
Qed.

(** The entries after one promotion. *)
Definition interrupted (s : ContestedDirectory) : InMemoryCrossClusterDirectory :=
  foldl apply_claim (cd_entries s) (default ([], false) (head (cd_calls s))).1.
Lemma promote_contested now s g o :
  (promote_grain local now s g o).1 =
    mkContested (if call_fails (cd_calls s) 0 then interrupted s
                 else (ccd_register now (interrupted s) g local (u64_add (own_epoch o) 1)).1) (tail (cd_calls s)).
Proof.
  destruct s as [d calls]. unfold promote_grain, call_fails, interrupted. cbn. unfold contested_call. cbn [cd_calls cd_entries].
  destruct calls as [|[claims []] calls]; cbn; try reflexivity; destruct (ccd_register _ _ _ _ _); reflexivity.
Qed.

Lemma promote_all_cons now (s : ContestedDirectory) g o grains sw :
  ∃ sw', promote_all local now s ((g, o) :: grains) sw = promote_all local now (promote_grain local now s g o).1 grains sw'.
Proof. cbn [promote_all]. destruct (promote_grain local now s g o) as [s' r]. eexists. reflexivity. Qed.

Lemma call_fails_tail calls i : call_fails (tail calls) i = call_fails calls (S i).
Proof. by destruct calls. Qed.
Lemma uncontested_tail g calls :
  uncontested g calls →
  Forall (λ c, GrainId_display (cm_grain c) ≠ GrainId_display g) (default ([], false) (head calls)).1 ∧ uncontested g (tail calls).
Proof. destruct calls as [|cl calls]; [done|]. apply uncontested_cons. Qed.

Lemma promote_epoch now s g o g0 o0 :
  ccd_lookup (cd_entries s) g0 = Some o0 →
  ∃ o', ccd_lookup (cd_entries (promote_grain local now s g o).1) g0 = Some o' ∧ own_epoch o0 ≤ own_epoch o'.
Proof.
  intros H0. rewrite promote_contested. cbn [cd_entries]. destruct (claims_epoch (default ([], false) (head (cd_calls s))).1 _ _ _ H0) as (o1 & H1 & Hle).
  fold (interrupted s) in H1. destruct (call_fails (cd_calls s) 0); [by exists o1|].
  destruct (register_epoch now _ g local (u64_add (own_epoch o) 1) _ _ H1) as (o2 & H2 & Hle'). exists o2. split; [done|lia].
Qed.

Lemma sweep_epoch now s grains sw g0 o0 :
  ccd_lookup (cd_entries s) g0 = Some o0 →
  ∃ o', ccd_lookup (cd_entries (promote_all local now s grains sw).1) g0 = Some o' ∧ own_epoch o0 ≤ own_epoch o'.
Proof.
  revert s sw o0. induction grains as [|[g o] grains IH]; intros s sw o0 H0; [by exists o0|].
  destruct (promote_all_cons now s g o grains sw) as [sw' ->]. destruct (promote_epoch now s g o g0 o0 H0) as (o1 & H1 & Hle).
  destruct (IH _ sw' _ H1) as (o2 & H2 & Hle'). exists o2. split; [done|lia].
Qed.

Lemma promote_elsewhere now s g o g0 :
  uncontested g0 (cd_calls s) → GrainId_display g0 ≠ GrainId_display g →
  ccd_lookup (cd_entries (promote_grain local now s g o).1) g0 = ccd_lookup (cd_entries s) g0.
Proof.
  intros [Hu _]%uncontested_tail Hne. rewrite promote_contested. cbn [cd_entries].
  destruct (call_fails (cd_calls s) 0); [by apply claims_elsewhere|]. rewrite register_other by done. by apply claims_elsewhere.
Qed.

Lemma sweep_elsewhere now s grains sw g0 :
  uncontested g0 (cd_calls s) → GrainId_display g0 ∉ (GrainId_display ∘ fst) <$> grains →
  ccd_lookup (cd_entries (promote_all local now s grains sw).1) g0 = ccd_lookup (cd_entries s) g0.
Proof.
  revert s sw. induction grains as [|[g o] grains IH]; intros s sw Hu Hn; [done|].
  cbn [fmap list_fmap] in Hn. rewrite not_elem_of_cons in Hn. destruct Hn as [Hne Hn].
  destruct (promote_all_cons now s g o grains sw) as [sw' ->]. rewrite IH; [by apply promote_elsewhere| |done].
  rewrite promote_contested. by apply uncontested_tail.
Qed.

(** A promotion that reaches the directory fences the old epoch, whoever wins; without a rival the local cluster wins. *)
Lemma sweep_at now s grains sw i g o :
  grains !! i = Some (g, o) → 0 ≤ own_epoch o → own_epoch o + 1 < u64_mod → call_fails (cd_calls s) i = false →
  ∃ o', ccd_lookup (cd_entries (promote_all local now s grains sw).1) g = Some o' ∧ own_epoch o < own_epoch o'.
Proof.
  revert s sw i. induction grains as [|[g1 o1] grains IH]; intros s sw i Hi He0 He Hf; [done|].
  destruct (promote_all_cons now s g1 o1 grains sw) as [sw' ->]. destruct i as [|i].
  - injection Hi as -> ->.
    assert (∃ o', ccd_lookup (cd_entries (promote_grain local now s g o).1) g = Some o' ∧ own_epoch o < own_epoch o') as (o' & H' & Hlt).
    { rewrite promote_contested, Hf. cbn [cd_entries]. rewrite register_lookup, register_spec.
      rewrite u64_add_small by (unfold is_u64; lia). eexists. split; [done|].
      destruct (ccd_lookup (interrupted s) g); [case_bool_decide|]; cbn; lia. }
    destruct (sweep_epoch now _ grains sw' _ _ H') as (o2 & H2 & Hle). exists o2. split; [done|lia].
  - apply (IH _ sw' i); [done|done|done|]. rewrite promote_contested. cbn [cd_calls]. by rewrite call_fails_tail.
Qed.

Lemma sweep_uncontested now s grains sw i g o :
  NoDup ((GrainId_display ∘ fst) <$> grains) → grains !! i = Some (g, o) → 0 ≤ own_epoch o → own_epoch o + 1 < u64_mod →
  uncontested g (cd_calls s) → ccd_lookup (cd_entries s) g = Some o →
  ccd_lookup (cd_entries (promote_all local now s grains sw).1) g =
    Some (if call_fails (cd_calls s) i then o else mkOwn local (own_epoch o + 1) now).
Proof.
  revert s sw i. induction grains as [|[g1 o1] grains IH]; intros s sw i Hn Hi He0 He Hu Hl; [done|].
  apply NoDup_cons in Hn as [Hg Hn]. destruct (promote_all_cons now s g1 o1 grains sw) as [sw' ->]. destruct i as [|i].
  - injection Hi as -> ->. rewrite sweep_elsewhere; [|rewrite promote_contested; by apply uncontested_tail|exact Hg].
    rewrite promote_contested. cbn [cd_entries]. apply uncontested_tail in Hu as [Hu _].
    assert (ccd_lookup (interrupted s) g = Some o) as Hint by (rewrite <- Hl; by apply claims_elsewhere).
    destruct (call_fails (cd_calls s) 0); [done|]. rewrite register_lookup, register_spec, Hint.
    rewrite u64_add_small by (unfold is_u64; lia). by rewrite bool_decide_false by lia.
  - cbn in Hi. rewrite (IH _ sw' i); [|done|done|done|done|rewrite promote_contested; by apply uncontested_tail|].
    + rewrite promote_contested. cbn [cd_calls]. by rewrite call_fails_tail.
    + rewrite promote_elsewhere; [done|done|]. intros Heq. apply Hg. apply list_elem_of_fmap. exists (g, o). cbn. split; [done|].
      by eapply list_elem_of_lookup_2.
Qed.

(** C26: failover.  Safety: over any run of checks of a peer, the directory is touched only if the peer was unreachable at two
    checks at least the grace period apart and at a later one, without having been seen healthy in between.  Promotion: the
    check that sweeps lists the peer's grains while other clusters register grains and calls fail; a check that cannot list them
    changes nothing and is repeated.  Every listed grain whose promotion reaches the directory ends with an owner at a higher
    epoch, so the old owner's claim at its old epoch is refused; and unless another cluster has claimed it in the meantime,
    the local cluster owns it at the next epoch.  A grain whose call fails, and every grain of another cluster, stays
    as it was unless somebody else claims it. *)
Theorem failover_promotes_after_grace now obs s0 s :
  dir_wf (interrupted s) →
  ((failover_run config local peer obs (s0, Monitoring)).1 = s0 ∨ outage_window obs) ∧
  let '(s', phase) := failover_step config local now peer Unreachable Promoting s in
  let calls := tail (cd_calls s) in
  if call_fails (cd_calls s) 0 then cd_entries s' = interrupted s ∧ phase = Promoting
  else
    (∃ e, phase = Promoted e) ∧
    (∀ i g o, ccd_list_owned_by (interrupted s) peer !! i = Some (g, o) →
       (call_fails calls i = false →
          ∃ o', ccd_lookup (cd_entries s') g = Some o' ∧ own_epoch o < own_epoch o' ∧
            ∀ t, ccd_register t (cd_entries s') g peer (own_epoch o) = (cd_entries s', o')) ∧
       (uncontested g calls →
          ccd_lookup (cd_entries s') g = Some (if call_fails calls i then o else mkOwn local (own_epoch o + 1) now))) ∧
    (∀ g, uncontested g calls → (∀ o, ccd_lookup (interrupted s) g = Some o → own_cluster o ≠ peer) →
       ccd_lookup (cd_entries s') g = ccd_lookup (interrupted s) g).
Proof.
  intros Hd. split.
  { pose proof (failover_run_since obs s0) as Hs. destruct (failover_run config local peer obs (s0, Monitoring)). apply Hs. }
  cbn [failover_step dir_list_owned_by contested_directory].
  assert (contested_call (dir_list_owned_by peer) s =
    (mkContested (interrupted s) (tail (cd_calls s)),
     if call_fails (cd_calls s) 0 then Err (DirUnavailable "unreachable") else Ok (ccd_list_owned_by (interrupted s) peer))) as ->.
  { destruct s as [d [|[claims []] calls]]; done. }
  destruct (call_fails (cd_calls s) 0); [done|].
  set (s1 := mkContested (interrupted s) (tail (cd_calls s))). set (grains := ccd_list_owned_by (interrupted s) peer).
  pose proof (sweep_at now s1 grains Sweep_new) as Hat. pose proof (sweep_uncontested now s1 grains Sweep_new) as Hun.
  pose proof (sweep_elsewhere now s1 grains Sweep_new) as Hels.
  destruct (promote_all local now s1 grains Sweep_new) as [s' sw]. cbn [fst cd_entries cd_calls s1] in *.
  split_and!; [by eexists|..].
  - intros i g o Hi. pose proof Hi as Hin. apply list_elem_of_lookup_2, list_owned_spec in Hin as [Hl Hc]; [|done].
    destruct (Hd _ _ Hl) as (_ & He0 & He). cbn in He0, He. split.
    + intros Hf. destruct (Hat i g o Hi He0 He Hf) as (o' & Ho' & Hlt). exists o'. split_and!; [done|done|].
      intros t. by apply register_refused; [|lia].
    + intros Hu. apply Hun; try done; [by apply list_owned_nodup|]. unfold ccd_lookup. by rewrite Hl.
  - intros g Hu Hg. apply Hels; [done|]. intros ([g1 o1] & Heq & Hin)%list_elem_of_fmap. cbn in Heq.
    apply list_owned_spec in Hin as [Hl Hc]; [|done]. apply (Hg o1); [|done]. unfold ccd_lookup. by rewrite Heq, Hl.
Qed.

(** After the sweep the manager is done with the peer until it recovers: in the [Promoted]
    phase, any number of checks that do not see the peer healthy leaves the directory and
    the phase as they are, also when grains are still (or again) registered to the
    unreachable peer. *)
Theorem promoted_phase_never_retries `{CrossClusterDirectory D} obs (d : D) e :
  Forall (λ o, o.2 ≠ Healthy) obs →
  failover_run config local peer obs (d, Promoted e) = (d, Promoted e).
Proof.
  unfold failover_run. induction 1 as [|[t st] obs Hst _ IH]; [done|]. cbn [foldl fst snd].
  by destruct st.
Qed.
End promotion.

(** Three grains of the failed cluster: one promotion gets through, one fails, and another cluster has taken the third in the
    meantime. *)
Definition asia : ClusterId := mkClusterId "asia".
Definition dir_us3 : InMemoryCrossClusterDirectory :=
  <["Cart/9" := (mkGrainId "Cart" "9", mkOwn us 1 0)]> (<["Cart/8" := (mkGrainId "Cart" "8", mkOwn us 1 0)]> dir_us).
Definition third_of (i : nat) : GrainId := default (mkGrainId "" "") (fst <$> ccd_list_owned_by dir_us3 us !! i).
Definition contested_us : ContestedDirectory :=
  mkContested dir_us3 [([], false); ([], false); ([], true); ([mkClaim 40 (third_of 2) asia 7], false)].

Lemma failover_promotes_after_grace_witness :
  let s' := (failover_step FailoverConfig_default eu 50 us Unreachable Promoting contested_us).1 in
  (∃ o, ccd_list_owned_by dir_us3 us !! 0%nat = Some (third_of 0, o) ∧
     ccd_lookup (cd_entries s') (third_of 0) = Some (mkOwn eu (own_epoch o + 1) 50)) ∧
  (∃ o, ccd_list_owned_by dir_us3 us !! 1%nat = Some (third_of 1, o) ∧ ccd_lookup (cd_entries s') (third_of 1) = Some o) ∧
  ccd_lookup (cd_entries s') (third_of 2) = Some (mkOwn asia 7 40) ∧
  (∃ o o', ccd_list_owned_by dir_us3 us !! 2%nat = Some (third_of 2, o) ∧
     ∀ t, ccd_register t (cd_entries s') (third_of 2) us (own_epoch o) = (cd_entries s', o')).
Proof.
  cbn zeta. destruct (failover_promotes_after_grace FailoverConfig_default eu us 50 [] contested_us contested_us) as [_ H].
  - apply map_Forall_insert_2; [|apply map_Forall_insert_2; [|apply map_Forall_singleton]]; vm_compute; repeat split; discriminate.
  - assert (cd_entries (failover_step FailoverConfig_default eu 50 us Unreachable Promoting contested_us).1 !! GrainId_display (third_of 2) =
      Some (third_of 2, mkOwn asia 7 40)) as H3 by (vm_compute; reflexivity).
    destruct (failover_step FailoverConfig_default eu 50 us Unreachable Promoting contested_us) as [s' ph]. cbn [fst] in *.
    cbn beta zeta in H. replace (call_fails (cd_calls contested_us) 0) with false in H by reflexivity. destruct H as (_ & H & _).
    split; [|split; [|split]].
    + destruct (ccd_list_owned_by dir_us3 us !! 0%nat) as [[g o]|] eqn:E; [|vm_compute in E; discriminate].
      assert (g = third_of 0) as -> by (unfold third_of; rewrite E; reflexivity).
      exists o. split; [reflexivity|]. apply (proj2 (H 0%nat _ o E)). vm_compute. reflexivity.
    + destruct (ccd_list_owned_by dir_us3 us !! 1%nat) as [[g o]|] eqn:E; [|vm_compute in E; discriminate].
      assert (g = third_of 1) as -> by (unfold third_of; rewrite E; reflexivity).
      exists o. split; [reflexivity|]. apply (proj2 (H 1%nat _ o E)). vm_compute. reflexivity.
    + unfold ccd_lookup. rewrite H3. reflexivity.
    + destruct (ccd_list_owned_by dir_us3 us !! 2%nat) as [[g o]|] eqn:E; [|vm_compute in E; discriminate].
      assert (g = third_of 2) as -> by (unfold third_of; rewrite E; reflexivity).
      destruct (proj1 (H 2%nat _ o E) eq_refl) as (o' & _ & _ & Hr). exists o, o'. split; [reflexivity|exact Hr].
Defined.

Lemma promoted_phase_never_retries_witness :
  failover_run FailoverConfig_default eu us [(1, Unreachable); (2, Unknown)] (dir_us, Promoted 4) =
    (dir_us, Promoted 4).
Proof.
  apply (promoted_phase_never_retries FailoverConfig_default eu us [(1, Unreachable); (2, Unknown)]).
  repeat constructor; discriminate.
Defined.

(** The health probe carries no token, so a cluster whose membership service authenticates is
    seen as unreachable by every peer however it is configured, and after the grace period its
    grains are promoted away although it is alive. *)
Theorem health_probe_fails_authentication `{CrossClusterDirectory D} connects a config pool fc local peer ep (d : D) t1 t2 t3 :
  mcc_peers config !! peer = Some ep → grace_period fc ≤ t2 - t1 →
  let answers (_ : string) md := is_ok (authenticate a md) in
  let st := ClusterHealth_status (health_round connects answers config pool) peer in
  st = Unreachable ∧
  failover_run fc local peer [(t1, st); (t2, st); (t3, st)] (d, Monitoring) =
    failover_step fc local t3 peer Unreachable Promoting d.
Proof.
  intros Hp Hg answers st. assert (st = Unreachable) as ->.
  { unfold st, ClusterHealth_status, health_round. rewrite lookup_fmap, Hp. cbn.
    by destruct (ConnectionPool_get_membership _ _ _) as [p []]. }
  split; [done|]. unfold failover_run. cbn [foldl fst snd failover_step].
  rewrite bool_decide_true by done. done.
Qed.

Lemma health_probe_fails_authentication_witness :
  ClusterHealth_status
    (health_round (λ _, true) (λ _ md, is_ok (authenticate (SharedSecretAuth_new "t") md))
       (MultiClusterConfig_peer (MultiClusterConfig_new eu) us "us:7000")
       (ConnectionPool_with_auth "t")) us = Unreachable.
Proof.
  apply (health_probe_fails_authentication (λ _, true) (SharedSecretAuth_new "t")
           (MultiClusterConfig_peer (MultiClusterConfig_new eu) us "us:7000")
           (ConnectionPool_with_auth "t") (mkFailover 0 1) eu us "us:7000" dir_us 1 2 3).
  - vm_compute. reflexivity.
  - vm_compute. discriminate.
Defined.

(** * The multi-cluster tasks of a silo *)

(** What [ClusterSilo::serve] sets up: a [ClusterHealth] for the failover manager and a second one,
    with its own statuses, that runs the health loop. *)
Record MultiClusterTasks := mkTasks {
  mt_manager_health : gmap ClusterId PeerStatus;
  mt_runner_health : gmap ClusterId PeerStatus;
  mt_directory : InMemoryCrossClusterDirectory;
  mt_phases : gmap ClusterId FailoverPhase }.

Definition serve_multi_cluster (config : MultiClusterConfig) (d : InMemoryCrossClusterDirectory)
    : MultiClusterTasks := mkTasks (ClusterHealth_new config) (ClusterHealth_new config) d ∅.

(** One iteration of one of the two loops. *)
Inductive TaskStep :=
| HealthRound (connects : string → bool) (answers : string → Metadata → bool) (pool : ConnectionPool)
| FailoverCheck (now : Z).

(** The manager's pass over the statuses it sees. *)
Definition failover_pass `{CrossClusterDirectory D} (fc : FailoverConfig) (local : ClusterId) (now : Z)
    (peers : list (ClusterId * PeerStatus)) (d : D)
    (phases : gmap ClusterId FailoverPhase) : D * gmap ClusterId FailoverPhase :=
  foldl (λ '(d, phases) p,
           let phase := default Monitoring (phases !! p.1) in
           let '(d, phase) := failover_step fc local now p.1 p.2 phase d in
           (d, <[p.1 := phase]> phases)) (d, phases) peers.

Definition task_step (config : MultiClusterConfig) (fc : FailoverConfig) (t : MultiClusterTasks)
    (step : TaskStep) : MultiClusterTasks :=
  match step with
  | HealthRound connects answers pool =>
      mkTasks (mt_manager_health t) (health_round connects answers config pool) (mt_directory t)
        (mt_phases t)
  | FailoverCheck now =>
      let '(d, phases) :=
        failover_pass fc (mcc_cluster_id config) now (map_to_list (mt_manager_health t))
          (mt_directory t) (mt_phases t) in
      mkTasks (mt_manager_health t) (mt_runner_health t) d phases
  end.

Lemma failover_pass_unknown `{CrossClusterDirectory D} fc local now peers (d : D) phases :
  Forall (λ p, p.2 = Unknown) peers → map_Forall (λ _ ph, ph = Monitoring) phases →
  ∃ phases', failover_pass fc local now peers d phases = (d, phases') ∧
    map_Forall (λ _ ph, ph = Monitoring) phases'.
Proof.
  intros Hp. revert phases. induction Hp as [|[c st] peers Hst _ IH]; intros phases Hph; [by eexists|].
  cbn in Hst. subst st. unfold failover_pass. cbn [foldl fst snd].
  assert (default Monitoring (phases !! c) = Monitoring) as ->.
  { destruct (phases !! c) as [ph|] eqn:E; [|done]. exact (Hph _ _ E). }
  cbn [failover_step]. apply IH. by apply map_Forall_insert_2.
Qed.

(** Failover as a silo wires it never acts.  The manager reads the statuses of a [ClusterHealth] whose
    loop is never started, so that every peer stays [Unknown] to it: whatever the health checks
    of the other instance find and for however long, no ownership entry changes and every peer
    stays in the [Monitoring] phase. *)
Theorem wired_failover_never_promotes config fc d steps :
  let t := foldl (task_step config fc) (serve_multi_cluster config d) steps in
  mt_directory t = d ∧ map_Forall (λ _ ph, ph = Monitoring) (mt_phases t) ∧
  ∀ peer, ClusterHealth_status (mt_manager_health t) peer = Unknown.
Proof.
  cbn zeta. assert (∀ t, mt_manager_health t = ClusterHealth_new config → mt_directory t = d →
    map_Forall (λ _ ph, ph = Monitoring) (mt_phases t) →
    let t' := foldl (task_step config fc) t steps in
    mt_directory t' = d ∧ map_Forall (λ _ ph, ph = Monitoring) (mt_phases t') ∧
    mt_manager_health t' = ClusterHealth_new config) as H.
  { induction steps as [|step steps IH]; intros t Hm Hd Hp; [done|]. cbn [foldl].
    apply IH; destruct step as [c a p|now]; cbn [task_step]; try done;
      destruct (failover_pass_unknown fc (mcc_cluster_id config) now
                  (map_to_list (mt_manager_health t)) (mt_directory t) (mt_phases t))
        as (phases' & -> & Hph); try done.
    all: rewrite Hm; apply Forall_forall; intros [c st] Hin%elem_of_map_to_list;
      unfold ClusterHealth_new in Hin; apply lookup_fmap_Some in Hin as (? & <- & _); done. }
  destruct (H (serve_multi_cluster config d)) as (H1 & H2 & H3); [done|done|apply map_Forall_empty|].
  split_and!; try done. intros peer. rewrite H3. unfold ClusterHealth_status, ClusterHealth_new.
  rewrite lookup_fmap. by destruct (mcc_peers config !! peer).
Qed.
