(* ===== verification/Registry.v ===== *)
(** Remote dispatch on the receiving silo ([orlando-cluster/src/message_registry.rs]): wire
    encodings ([network_message.rs]), cluster errors with their printed form ([error.rs]),
    registration of grain/message pairs and the dispatch of an incoming call to the grain's
    mailbox through the directory. *)
From Stdlib Require Import Ascii.
From S2P Require Import Prelude CoreTypes Mailbox Directory Calls.

(** * Encodings *)
Inductive Encoding := Bincode | Protobuf.
#[global] Instance Encoding_eq_dec : EqDecision Encoding.
Proof. solve_decision. Defined.

Definition Encoding_from_proto (val : Z) : Encoding :=
  if bool_decide (val = 1) then Protobuf else Bincode.
Definition Encoding_to_proto (e : Encoding) : Z :=
  match e with Bincode => 0 | Protobuf => 1 end.

(** * Errors *)
Inductive ClusterError :=
| NoSiloAvailable
| ETransport (m : string)
| ESerialization (m : string)
| EDeserialization (m : string)
| UnknownGrainType (m : string)
| UnknownMessageType (m : string)
| HandlerError (m : string)
| UnsupportedEncoding (m why : string)
| UnsupportedMessageVersion (m : string) (got supported : Z).
#[global] Instance ClusterError_eq_dec : EqDecision ClusterError.
Proof. solve_decision. Defined.

(** [impl Display for ClusterError] (the [#[error]] attributes). *)
Definition ClusterError_display (e : ClusterError) : string :=
  match e with
  | NoSiloAvailable => "no silo available for grain"
  | ETransport m => "transport error: " +:+ m
  | ESerialization m => "serialization error: " +:+ m
  | EDeserialization m => "deserialization error: " +:+ m
  | UnknownGrainType m => "unknown grain type: " +:+ m
  | UnknownMessageType m => "unknown message type: " +:+ m
  | HandlerError m => "handler error: " +:+ m
  | UnsupportedEncoding m why => "unsupported encoding for message " +:+ m +:+ ": " +:+ why
  | UnsupportedMessageVersion m got supported =>
      "unsupported message version for " +:+ m +:+ ": got v" +:+ pretty got +:+
      ", supported v" +:+ pretty supported
  end.

(** * The registry.  A handler acts on the silo's runtime. *)
Abbreviation DispatchFn :=
  (string → bytes → Encoding → gmap string string → Runtime →
     Runtime * result ClusterError (bytes * Encoding)).

Record MessageRegistry := mkRegistry {
  handlers : gmap (string * string) DispatchFn;
  grain_types : gmap string string;
  message_types : gmap string string;
  grain_rust_types : gmap string string;
  message_versions : gmap string Z;
  allowed_clusters : gmap string (list string) }.

Definition MessageRegistry_new : MessageRegistry := mkRegistry ∅ ∅ ∅ ∅ ∅ ∅.

Definition grain_type_str (r : MessageRegistry) (t : string) : option string := grain_types r !! t.
Definition resolve_grain_type (r : MessageRegistry) (t : string) : option string :=
  grain_types r !! t.
Definition registry_allowed_clusters (r : MessageRegistry) (t : string) : option (list string) :=
  allowed_clusters r !! t.

(** What a grain type contributes to its registration. *)
Record GrainType := mkGrainType {
  gt_grain_type_name : string;
  gt_rust_type : string;
  gt_allowed_clusters : option (list string);
  gt_ask_timeout : Z }.

(** [trait NetworkMessage] with the serde codecs of message and result. *)
Record NetworkMessage (M R : Type) := mkMessage {
  message_type_name : string;
  message_version : Z;
  bincode_encode : M → result string bytes;
  bincode_decode : bytes → result string M;
  decode_proto : bytes → option M;
  bincode_encode_result : R → result string bytes;
  bincode_decode_result : bytes → result string R;
  encode_result_proto : R → option bytes }.
Arguments message_type_name {M R} _.
Arguments message_version {M R} _.
Arguments bincode_encode {M R} _ _.
Arguments bincode_decode {M R} _ _.
Arguments decode_proto {M R} _ _.
Arguments bincode_encode_result {M R} _ _.
Arguments bincode_decode_result {M R} _ _.
Arguments encode_result_proto {M R} _ _.

Section dispatch.
Context {M R : Type} `{Countable M}.
(** [impl Display for GrainError]. *)
Context (grain_error_display : GrainError → string).
Context (gt : GrainType) (nm : NetworkMessage M R).
(** What a mailbox that has accepted the given messages answers the next one with. *)
Context (reply : list Delivery → RequestContext → M → Oneshot R).

(** Decoding the payload. *)
Definition decode_message (encoding : Encoding) (payload : bytes) : result ClusterError M :=
  match encoding with
  | Bincode => map_err EDeserialization (bincode_decode nm payload)
  | Protobuf =>
      ok_or (UnsupportedEncoding (message_type_name nm)
               "protobuf not supported for this message type") (decode_proto nm payload)
  end.

(** Encoding the result. *)
Definition encode_result (encoding : Encoding) (r : R) : result ClusterError bytes :=
  match encoding with
  | Bincode => map_err ESerialization (bincode_encode_result nm r)
  | Protobuf =>
      ok_or (UnsupportedEncoding (message_type_name nm)
               "protobuf not supported for result type") (encode_result_proto nm r)
  end.

(** The mailbox channel behind a sender; [ask] waits for room, so only its being closed
    matters. *)
Definition sender_channel (w : Runtime) (s : Sender) : Channel := mkChannel (is_closed w s) 0 256.

(** [GrainRef::new(sender).ask(msg)]: the message is in the mailbox once it has been enqueued. *)
Definition ask_sender (w : Runtime) (sender : Sender) (req_ctx : RequestContext) (msg : M)
    : Runtime * result GrainError R :=
  let '(r, evs) := GrainRef_ask (GrainRef_new (gt_grain_type_name gt)) req_ctx (message_type_name nm)
                     (sender_channel w sender) (reply (inbox w sender) req_ctx msg) (gt_ask_timeout gt) in
  (if bool_decide (EvEnqueued ∈ evs)
   then enqueue w sender (mkDelivery (message_type_name nm) (values req_ctx) (encode msg)) else w, r).

(** The dispatch closure built by [MessageRegistry::register]. *)
Definition dispatch_fn : DispatchFn := λ key payload encoding request_context w,
  match decode_message encoding payload with
  | Err e => (w, Err e)
  | Ok msg =>
      let grain_id := mkGrainId (gt_grain_type_name gt) key in
      let '(w, sender) := GrainDirectory_get_or_insert w grain_id in
      let req_ctx := RequestContext_with_values request_context in
      match ask_sender w sender req_ctx msg with
      | (w, Err e) => (w, Err (HandlerError (grain_error_display e)))
      | (w, Ok r) =>
          (w, match encode_result encoding r with
              | Err e => Err e
              | Ok b => Ok (b, encoding)
              end)
      end
  end.

(** [MessageRegistry::register]; [None] is the panic on a grain type name collision. *)
Definition MessageRegistry_register (r : MessageRegistry) : option MessageRegistry :=
  let grain_type := gt_grain_type_name gt in
  let message_type := message_type_name nm in
  let collision :=
    match grain_rust_types r !! grain_type with
    | Some existing => bool_decide (existing ≠ gt_rust_type gt)
    | None => false
    end in
  if collision then None
  else Some
    (mkRegistry (<[(grain_type, message_type) := dispatch_fn]> (handlers r))
       (<[grain_type := grain_type]> (grain_types r))
       (<[message_type := message_type]> (message_types r))
       (<[grain_type := gt_rust_type gt]> (grain_rust_types r))
       (<[message_type := message_version nm]> (message_versions r))
       (match gt_allowed_clusters gt with
        | Some clusters => <[grain_type := clusters]> (allowed_clusters r)
        | None => allowed_clusters r
        end)).
End dispatch.

(** [MessageRegistry::dispatch] *)
Definition MessageRegistry_dispatch (r : MessageRegistry) (grain_type grain_key message_type : string)
    (version : Z) (payload : bytes) (encoding : Encoding) (request_context : gmap string string)
    (w : Runtime) : Runtime * result ClusterError (bytes * Encoding) :=
  match grain_types r !! grain_type with
  | None => (w, Err (UnknownGrainType grain_type))
  | Some type_name =>
      match message_types r !! message_type with
      | None => (w, Err (UnknownMessageType message_type))
      | Some msg_name =>
          let newer :=
            match message_versions r !! message_type with
            | Some supported => if bool_decide (supported < version) then Some supported else None
            | None => None
            end in
          match newer with
          | Some supported =>
              (w, Err (UnsupportedMessageVersion message_type version supported))
          | None =>
              match handlers r !! (type_name, msg_name) with
              | None =>
                  (w, Err (UnknownMessageType (grain_type +:+ "::" +:+ message_type)))
              | Some handler => handler grain_key payload encoding request_context w
              end
          end
      end
  end.

(** * Properties *)

(** A printed error is never empty, so a response can carry it in its [error] field. *)
Lemma ClusterError_display_nonempty e : ClusterError_display e ≠ "".
Proof. destruct e; cbn; try done; by rewrite str_app_cons. Qed.

(** Names resolve to themselves: the maps from names to static names are identities. *)
Definition registry_wf (r : MessageRegistry) : Prop :=
  (∀ t t', grain_types r !! t = Some t' → t' = t) ∧
  (∀ t t', message_types r !! t = Some t' → t' = t) ∧
  (∀ k, is_Some (handlers r !! k) → is_Some (grain_types r !! k.1) ∧ is_Some (message_types r !! k.2)).

Lemma registry_wf_new : registry_wf MessageRegistry_new.
Proof. split_and!; [done|done|]. intros k [? H]. done. Qed.

Lemma insert_self_lookup (m : gmap string string) (x t t' : string) :
  (∀ t t', m !! t = Some t' → t' = t) → <[x := x]> m !! t = Some t' → t' = t.
Proof.
  intros Hm. destruct (decide (x = t)) as [->|]; [rewrite lookup_insert_eq; congruence|].
  rewrite lookup_insert_ne by done. apply Hm.
Qed.

Lemma insert_lookup_is_Some {A} (m : gmap string A) (x t : string) (a : A) :
  is_Some (m !! t) → is_Some (<[x := a]> m !! t).
Proof.
  intros Hm. destruct (decide (x = t)) as [->|]; [by rewrite lookup_insert_eq|].
  by rewrite lookup_insert_ne.
Qed.

Lemma registry_wf_register {M R} `{Countable M} gd gt (nm : NetworkMessage M R) reply r r' :
  registry_wf r → MessageRegistry_register gd gt nm reply r = Some r' → registry_wf r'.
Proof.
  intros (Hg & Hm & Hh). unfold MessageRegistry_register. case_match; [done|].
  intros [= <-]. split_and!; cbn.
  - intros t t'. by apply insert_self_lookup.
  - intros t t'. by apply insert_self_lookup.
  - intros [t m] Hk. destruct (decide ((gt_grain_type_name gt, message_type_name nm) = (t, m)))
      as [[= <- <-]|Hne]; [by rewrite !lookup_insert_eq|].
    rewrite lookup_insert_ne in Hk by done. apply Hh in Hk as [H1 H2]. cbn in *.
    split; by apply insert_lookup_is_Some.
Qed.

(** A call that reaches its handler is decoded, activates the grain through the directory,
    asks its mailbox, and encodes the result in the encoding of the request. *)
Lemma ask_sender_ok {M R} `{Countable M} gt (nm : NetworkMessage M R) reply w s c msg r :
  is_in_call_chain c (mkGrainId (gt_grain_type_name gt) "") = false → is_closed w s = false →
  reply (inbox w s) c msg = Replied (Some r) →
  ask_sender gt nm reply w s c msg =
    (enqueue w s (mkDelivery (message_type_name nm) (values c) (encode msg)), Ok r).
Proof.
  intros Hc Hopen Hr. unfold ask_sender, GrainRef_ask. cbn [ref_grain_id GrainRef_new ref_filters].
  rewrite Hc. unfold sender_channel, send_await. cbn. rewrite Hopen, Hr. cbn. done.
Qed.

Lemma dispatch_fn_ok {M R} `{Countable M} gd gt (nm : NetworkMessage M R) reply key payload msg ctx w r b :
  decode_message nm Bincode payload = Ok msg →
  let g := mkGrainId (gt_grain_type_name gt) key in
  let w' := (GrainDirectory_get_or_insert w g).1 in
  let s := (GrainDirectory_get_or_insert w g).2 in
  let c := RequestContext_with_values ctx in
  is_in_call_chain c (mkGrainId (gt_grain_type_name gt) "") = false →
  is_closed w' s = false → reply (inbox w' s) c msg = Replied (Some r) →
  bincode_encode_result nm r = Ok b →
  dispatch_fn gd gt nm reply key payload Bincode ctx w =
    (enqueue w' s (mkDelivery (message_type_name nm) ctx (encode msg)), Ok (b, Bincode)).
Proof.
  intros Hd. cbn zeta. unfold dispatch_fn. rewrite Hd.
  destruct (GrainDirectory_get_or_insert w _) as [w' s]. cbn [fst snd].
  intros Hc Hopen Hr Hb. rewrite (ask_sender_ok gt nm reply w' s _ msg r) by done. cbn. by rewrite Hb.
Qed.

(** The registry dispatches calls of this grain and message type to this handler. *)
Definition registered {M R} `{Countable M} gd gt (nm : NetworkMessage M R) reply (r : MessageRegistry) : Prop :=
  is_Some (grain_types r !! gt_grain_type_name gt) ∧
  ∀ key version payload enc ctx w,
    MessageRegistry_dispatch r (gt_grain_type_name gt) key (message_type_name nm) version payload enc ctx w =
    if bool_decide (message_version nm < version)
    then (w, Err (UnsupportedMessageVersion (message_type_name nm) version (message_version nm)))
    else dispatch_fn gd gt nm reply key payload enc ctx w.

Section registered.
Context {M R : Type} `{Countable M} (gd : GrainError → string) (gt : GrainType) (nm : NetworkMessage M R).
Context (reply : list Delivery → RequestContext → M → Oneshot R) (r r' : MessageRegistry).
Context (Hreg : MessageRegistry_register gd gt nm reply r = Some r').

Lemma dispatch_registered_handler key version payload enc ctx w :
  MessageRegistry_dispatch r' (gt_grain_type_name gt) key (message_type_name nm) version payload
    enc ctx w =
  if bool_decide (message_version nm < version)
  then (w, Err (UnsupportedMessageVersion (message_type_name nm) version (message_version nm)))
  else dispatch_fn gd gt nm reply key payload enc ctx w.
Proof.
  unfold MessageRegistry_register in Hreg. case_match; [done|]. injection Hreg as <-.
  unfold MessageRegistry_dispatch. cbn. rewrite !lookup_insert_eq. by case_bool_decide.
Qed.

(** Registering another message leaves this one in place. *)
Lemma dispatch_other_message t m key version payload enc ctx w :
  registry_wf r → m ≠ message_type_name nm → is_Some (grain_types r !! t) →
  MessageRegistry_dispatch r' t key m version payload enc ctx w =
  MessageRegistry_dispatch r t key m version payload enc ctx w.
Proof.
  unfold MessageRegistry_register in Hreg. case_match; [done|]. injection Hreg as <-.
  intros (Hg & Hm & _) Hne [t' Ht].
  pose proof (Hg _ _ Ht) as ->. unfold MessageRegistry_dispatch. cbn. rewrite Ht.
  rewrite !(lookup_insert_ne _ (message_type_name nm) m) by done.
  replace (<[gt_grain_type_name gt := gt_grain_type_name gt]> (grain_types r) !! t) with (Some t)
    by (destruct (decide (gt_grain_type_name gt = t)) as [<-|];
        [by rewrite lookup_insert_eq|by rewrite lookup_insert_ne, Ht]).
  destruct (message_types r !! m) as [m'|] eqn:Em; [|done]. pose proof (Hm _ _ Em) as ->.
  by rewrite lookup_insert_ne by congruence.
Qed.

(** Dispatch after a registration.  A call naming the registered grain and message types with a
    version up to the registered one runs exactly the registered handler, and a newer
    version is refused without touching the runtime; handlers of other pairs are the ones registered
    before; and a grain type name that no registration used is refused, so that network
    input never names a grain type of its own.  A second Rust type under the
    same grain type name panics at registration. *)
Theorem dispatch_registered :
  (∀ key version payload enc ctx w,
     MessageRegistry_dispatch r' (gt_grain_type_name gt) key (message_type_name nm) version payload
       enc ctx w =
     if bool_decide (message_version nm < version)
     then (w, Err (UnsupportedMessageVersion (message_type_name nm) version (message_version nm)))
     else dispatch_fn gd gt nm reply key payload enc ctx w) ∧
  (∀ t m key version payload enc ctx w, registry_wf r →
     m ≠ message_type_name nm → is_Some (grain_types r !! t) →
     MessageRegistry_dispatch r' t key m version payload enc ctx w =
     MessageRegistry_dispatch r t key m version payload enc ctx w) ∧
  (∀ t key m version payload enc ctx w, t ≠ gt_grain_type_name gt → grain_types r !! t = None →
     MessageRegistry_dispatch r' t key m version payload enc ctx w = (w, Err (UnknownGrainType t)) ∧
     resolve_grain_type r' t = None) ∧
  (∀ gt' M' R' `{Countable M'} (nm' : NetworkMessage M' R') reply',
     gt_grain_type_name gt' = gt_grain_type_name gt → gt_rust_type gt' ≠ gt_rust_type gt →
     MessageRegistry_register gd gt' nm' reply' r' = None).
Proof.
  split; [exact dispatch_registered_handler|]. split; [exact dispatch_other_message|].
  unfold MessageRegistry_register in Hreg. case_match; [done|]. injection Hreg as <-. split_and!.
  - intros. unfold MessageRegistry_dispatch, resolve_grain_type. cbn.
    rewrite lookup_insert_ne by done. by simplify_option_eq.
  - intros gt' M' R' ?? nm' reply' Hn Ht. unfold MessageRegistry_register. cbn.
    rewrite Hn, lookup_insert_eq. by rewrite bool_decide_true by congruence.
Qed.
End registered.

Lemma registered_self {M R} `{Countable M} gd gt (nm : NetworkMessage M R) reply r r' :
  MessageRegistry_register gd gt nm reply r = Some r' → registered gd gt nm reply r'.
Proof.
  intros Hr. split; [|by apply (dispatch_registered_handler gd gt nm reply r)].
  unfold MessageRegistry_register in Hr. case_match; [done|]. injection Hr as <-. cbn.
  by rewrite lookup_insert_eq.
Qed.

Lemma registered_other {M R M' R'} `{Countable M, Countable M'} gd gt (nm : NetworkMessage M R) reply
    gd' gt' (nm' : NetworkMessage M' R') reply' r r' :
  registry_wf r → registered gd gt nm reply r → message_type_name nm ≠ message_type_name nm' →
  MessageRegistry_register gd' gt' nm' reply' r = Some r' → registered gd gt nm reply r'.
Proof.
  intros Hwf [Ht Hd] Hne Hr. split.
  - unfold MessageRegistry_register in Hr. case_match; [done|]. injection Hr as <-. cbn.
    by apply insert_lookup_is_Some.
  - intros *. by rewrite (dispatch_other_message gd' gt' nm' reply' r r' Hr), Hd by done.
Qed.

(** An echo message on byte strings, for the witnesses. *)
Definition echo_type : GrainType := mkGrainType "Echo" "app::Echo" None 30.
Definition echo : NetworkMessage bytes bytes :=
  mkMessage bytes bytes "Say" 1 Ok Ok (λ _, None) Ok Ok (λ _, None).
Definition echo_reply : list Delivery → RequestContext → bytes → Oneshot bytes :=
  λ _ _ msg, Replied (Some msg).
Definition no_display : GrainError → string := λ _, "grain error".
Definition echo_registry : MessageRegistry :=
  default MessageRegistry_new
    (MessageRegistry_register no_display echo_type echo echo_reply MessageRegistry_new).

Lemma echo_registered :
  MessageRegistry_register no_display echo_type echo echo_reply MessageRegistry_new =
    Some echo_registry.
Proof. reflexivity. Qed.

Lemma dispatch_registered_witness :
  (MessageRegistry_dispatch echo_registry "Echo" "k" "Say" 1 [Byte.x2a] Bincode ∅ Runtime_new).2 =
    Ok ([Byte.x2a], Bincode) ∧
  (MessageRegistry_dispatch echo_registry "Echo" "k" "Say" 2 [Byte.x2a] Bincode ∅ Runtime_new).2 =
    Err (UnsupportedMessageVersion "Say" 2 1).
Proof.
  destruct (dispatch_registered no_display echo_type echo echo_reply MessageRegistry_new
              echo_registry eq_refl) as [H _].
  change "Echo" with (gt_grain_type_name echo_type). change "Say" with (message_type_name echo).
  rewrite !H. vm_compute. split; reflexivity.
Defined.
