(* ===== verification/Transport.v ===== *)
(** Grain calls between silos: the transport service ([orlando-cluster/src/transport.rs]) with its
    forwarding rules and hop limit, and the gateway of a peer cluster
    ([cluster_gateway.rs]).

    A [World] holds every silo by its endpoint; a remote call runs the target's handler in
    it.  Ring, pool, authentication and local address of a silo are the ones its membership
    service holds (the silo shares them between its services). *)
From Stdlib Require Import Ascii.
From S2P Require Import Prelude CoreTypes HashRing Mailbox Directory Calls Auth Swim Membership.
From S2P Require Import CrossCluster Registry.

(** * Wire messages *)
Record InvokeRequest := mkInvoke {
  iv_grain_type : string;
  iv_grain_key : string;
  iv_message_type : string;
  iv_payload : bytes;
  iv_encoding : Z;
  iv_request_context : gmap string string;
  iv_message_version : Z }.

Record InvokeResponse := mkResponse { rs_payload : bytes; rs_error : string; rs_encoding : Z }.

Definition MAX_HOPS : Z := 3.
Definition HOP_COUNT_KEY : string := "__orlando_hop_count".
Definition MAX_PAYLOAD_SIZE : Z := 64 * 1024 * 1024.

(** [str::parse::<u32>]: an optional plus sign and at least one decimal digit, in range. *)
Fixpoint parse_digits (acc : Z) (s : string) : option Z :=
  match s with
  | EmptyString => Some acc
  | String c s' =>
      let d := Z.of_N (N_of_ascii c) - 48 in
      if bool_decide (0 ≤ d ≤ 9) && bool_decide (10 * acc + d < u32_mod)
      then parse_digits (10 * acc + d) s' else None
  end.
Definition parse_u32 (s : string) : option Z :=
  match s with
  | EmptyString => None
  | String c s' =>
      if bool_decide (c = "+"%char) && bool_decide (s' ≠ "") then parse_digits 0 s'
      else parse_digits 0 s
  end.

(** The hop count carried by a request. *)
Definition hop_count (req : InvokeRequest) : Z :=
  default 0 (iv_request_context req !! HOP_COUNT_KEY ≫= parse_u32).

(** The request that is forwarded: the same one with the hop count incremented. *)
Definition forwarded (req : InvokeRequest) : InvokeRequest :=
  mkInvoke (iv_grain_type req) (iv_grain_key req) (iv_message_type req) (iv_payload req)
    (iv_encoding req)
    (<[HOP_COUNT_KEY := pretty (hop_count req + 1)]> (iv_request_context req))
    (iv_message_version req).

(** * Silos *)
Record Silo := mkSiloState {
  sl_registry : MessageRegistry;
  sl_runtime : Runtime;
  sl_service : MembershipService;
  (** [local_cluster_id] and [peer_endpoints] when multi-cluster is configured. *)
  sl_cross : option (ClusterId * gmap ClusterId string) }.

Record World := mkWorld { w_silos : gmap string Silo; w_ccd : DirectoryService }.

Definition sl_ring (s : Silo) : HashRing := nd_ring (ms_node (sl_service s)).
Definition sl_pool (s : Silo) : ConnectionPool := nd_pool (ms_node (sl_service s)).
Definition sl_local_silo_id (s : Silo) : string := local_id (nd_swim (ms_node (sl_service s))).
Definition sl_auth (s : Silo) : option SharedSecretAuth := ms_auth (sl_service s).

Definition with_pool (s : Silo) (p : ConnectionPool) : Silo :=
  let n := ms_node (sl_service s) in
  mkSiloState (sl_registry s) (sl_runtime s)
    (with_node (sl_service s) (mkNode (nd_swim n) (nd_ring n) p (nd_changes n))) (sl_cross s).
Definition with_runtime (s : Silo) (rt : Runtime) : Silo :=
  mkSiloState (sl_registry s) rt (sl_service s) (sl_cross s).
Definition set_silo (w : World) (ep : string) (s : Silo) : World :=
  mkWorld (<[ep := s]> (w_silos w)) (w_ccd w).

(** Every lookup is answered in time, in the order of the members. *)
Definition all_answer (members : list SiloAddress) : list (SiloAddress * bool) := (λ m, (m, true)) <$> members.

(** * Handlers *)
Section transport.
(** Dialling, which strings are valid metadata values, the order in which parallel lookups
    complete and which of them are answered within the timeout of two seconds, the printed form of a status, and the status of a call nobody answers. *)
Context (connects : string → bool) (parses : string → bool).
Context (arrival : list SiloAddress → list (SiloAddress * bool)).
Context (status_display : Status → string) (rpc_failure : Status).
Context (now : Z).

(** [find_owner]: [None] when the local silo owns the grain or the ring is empty. *)
Definition find_owner (s : Silo) (grain_type grain_key : string) : option string :=
  match HashRing_get (sl_ring s) (slash grain_type grain_key) with
  | Some target =>
      if bool_decide (silo_id target ≠ sl_local_silo_id s) then Some (endpoint target) else None
  | None => None
  end.

(** The task of one member in [lookup_grain_cluster_wide], with whether its answer comes in time; the request
    carries no token. *)
Definition lookup_at (w : World) (grain_type grain_key : string) (pool : ConnectionPool)
    (task : SiloAddress * bool) : ConnectionPool * option string :=
  let '(member, in_time) := task in
  match ConnectionPool_get_membership connects pool (endpoint member) with
  | (pool, false) => (pool, None)
  | (pool, true) =>
      (pool,
       match w_silos w !! endpoint member with
       | Some peer =>
           match lookup_grain (grain_type_str (sl_registry peer)) (sl_runtime peer)
                   (sl_service peer) None grain_type grain_key with
           | Ok (true, _, ep) => if in_time then Some ep else None
           | _ => None
           end
       | None => None
       end)
  end.

(** The completion loop: the first hit wins. *)
Fixpoint lookup_tasks (w : World) (grain_type grain_key : string) (pool : ConnectionPool)
    (tasks : list (SiloAddress * bool)) : ConnectionPool * option string :=
  match tasks with
  | [] => (pool, None)
  | m :: ms =>
      match lookup_at w grain_type grain_key pool m with
      | (pool, Some ep) => (pool, Some ep)
      | (pool, None) => lookup_tasks w grain_type grain_key pool ms
      end
  end.

(** [lookup_grain_cluster_wide] *)
Definition lookup_grain_cluster_wide (w : World) (s : Silo) (grain_type grain_key : string)
    : Silo * option string :=
  let members := filter (λ m, silo_id m ≠ sl_local_silo_id s) (HashRing_members (sl_ring s)) in
  let '(pool, r) := lookup_tasks w grain_type grain_key (sl_pool s) (arrival members) in
  (with_pool s pool, r).

(** The response to a dispatched call. *)
Definition dispatch_response (encoding : Encoding) (r : result ClusterError (bytes * Encoding))
    : InvokeResponse :=
  match r with
  | Ok (payload, enc) => mkResponse payload "" (Encoding_to_proto enc)
  | Err e => mkResponse [] (ClusterError_display e) (Encoding_to_proto encoding)
  end.

(** Local dispatch of a request at a silo. *)
Definition local_dispatch (s : Silo) (req : InvokeRequest) : Silo * InvokeResponse :=
  let encoding := Encoding_from_proto (iv_encoding req) in
  let '(rt, r) :=
    MessageRegistry_dispatch (sl_registry s) (iv_grain_type req) (iv_grain_key req)
      (iv_message_type req) (iv_message_version req) (iv_payload req) encoding
      (iv_request_context req) (sl_runtime s) in
  (with_runtime s rt, dispatch_response encoding r).

Definition oversized (req : InvokeRequest) : bool :=
  bool_decide (MAX_PAYLOAD_SIZE < Z.of_nat (length (iv_payload req))).
Definition oversized_status (req : InvokeRequest) : Status :=
  InvalidArgument ("payload size " +:+ pretty (Z.of_nat (length (iv_payload req))) +:+
                   " exceeds maximum of " +:+ pretty MAX_PAYLOAD_SIZE +:+ " bytes").

(** [ClusterGatewayService::forward_invoke] at a silo. *)
Definition forward_invoke (s : Silo) (req : InvokeRequest) : Silo * result Status InvokeResponse :=
  if oversized req then (s, Err (oversized_status req))
  else let '(s, r) := local_dispatch s req in (s, Ok r).

(** [ClusterGatewayService::cluster_ping] and [notify_drain]. *)
Record ClusterPingResponse := mkPing {
  cp_cluster_id : string; cp_silo_count : Z; cp_active_grains : Z; cp_healthy : bool }.
Definition cluster_ping (local_cluster_id : string) : ClusterPingResponse :=
  mkPing local_cluster_id 1 0 true.
Definition notify_drain (s : Silo) (cluster_id : string) (grains : list GrainId) : Silo * result Status unit :=
  (s, Ok ()).

(** [forward_to_cluster], from the silo at [ep]. *)
Definition forward_to_cluster (w : World) (ep : string) (s : Silo) (target : string)
    (req : InvokeRequest) : World * result Status InvokeResponse :=
  match ConnectionPool_get_gateway connects (sl_pool s) target with
  | (p, false) =>
      (set_silo w ep (with_pool s p), Err (Unavailable "cross-cluster connection failed: "))
  | (p, true) =>
      let w := set_silo w ep (with_pool s p) in
      match w_silos w !! target with
      | Some peer =>
          match sl_cross peer with
          | Some _ =>
              match forward_invoke peer req with
              | (peer, Ok r) => (set_silo w target peer, Ok r)
              | (peer, Err e) =>
                  (set_silo w target peer,
                   Err (Internal ("cross-cluster forward failed: " +:+ status_display e)))
              end
          | None =>
              (w, Err (Internal ("cross-cluster forward failed: " +:+ status_display rpc_failure)))
          end
      | None => (w, Err (Internal ("cross-cluster forward failed: " +:+ status_display rpc_failure)))
      end
  end.

(** The first allowed cluster with a known endpoint. *)
Fixpoint first_allowed (peers : gmap ClusterId string) (allowed : list string) : option string :=
  match allowed with
  | [] => None
  | c :: cs =>
      match peers !! mkClusterId c with Some ep => Some ep | None => first_allowed peers cs end
  end.

(** A list of names as [{:?}] prints it (names that need no escapes). *)
Definition debug_strs (l : list string) : string :=
  let quote := String (ascii_of_nat 34) EmptyString in
  "[" +:+ String.concat ", " ((λ s, quote +:+ s +:+ quote) <$> l) +:+ "]".

(** What the cross-cluster check decides. *)
Inductive CrossVerdict :=
| CrossLocal
| CrossClaim (g : GrainId) (c : ClusterId)
| CrossAnswered (r : InvokeResponse)
| CrossRefused (e : Status).

(** [check_cross_cluster] up to the claim of an unowned grain. *)
Definition cross_verdict (w : World) (ep : string) (s : Silo) (req : InvokeRequest) : World * CrossVerdict :=
  match sl_cross s with
  | None => (w, CrossLocal)
  | Some (local_cid, peers) =>
      match resolve_grain_type (sl_registry s) (iv_grain_type req) with
      | None => (w, CrossLocal)
      | Some type_name =>
          let grain_id := mkGrainId type_name (iv_grain_key req) in
          let '(dir, found) := dir_lookup grain_id (w_ccd w) in
          let w := mkWorld (w_silos w) dir in
          let forward target :=
            match forward_to_cluster w ep s target req with
            | (w, Ok r) => (w, CrossAnswered r)
            | (w, Err e) => (w, CrossRefused e)
            end in
          match found with
          | Ok (Some ownership) =>
              if bool_decide (own_cluster ownership = local_cid) then (w, CrossLocal)
              else
                match peers !! own_cluster ownership with
                | Some target => forward target
                | None => (w, CrossLocal)
                end
          | Ok None =>
              match registry_allowed_clusters (sl_registry s) (iv_grain_type req) with
              | Some allowed =>
                  if bool_decide (as_str local_cid ∈ allowed) then (w, CrossClaim grain_id local_cid)
                  else
                    match first_allowed peers allowed with
                    | Some target => forward target
                    | None =>
                        (w, CrossRefused (FailedPrecondition
                                   ("grain type " +:+ iv_grain_type req +:+ " is restricted to clusters " +:+
                                    debug_strs allowed +:+ " but none are reachable")))
                    end
              | None => (w, CrossClaim grain_id local_cid)
              end
          | Err _ => (w, CrossLocal)
          end
      end
  end.

(** The claim; what [register] answers is ignored. *)
Definition cross_claim (w : World) (g : GrainId) (c : ClusterId) : World :=
  mkWorld (w_silos w) (dir_register now g c 1 (w_ccd w)).1.

(** [check_cross_cluster]: [Ok None] when the call is handled here. *)
Definition check_cross_cluster (w : World) (ep : string) (s : Silo) (req : InvokeRequest)
    : World * result Status (option InvokeResponse) :=
  match cross_verdict w ep s req with
  | (w, CrossLocal) => (w, Ok None)
  | (w, CrossClaim g c) => (cross_claim w g c, Ok None)
  | (w, CrossAnswered r) => (w, Ok (Some r))
  | (w, CrossRefused e) => (w, Err e)
  end.

(** The grain is active at this silo. *)
Definition already_local (s : Silo) (req : InvokeRequest) : bool :=
  match grain_type_str (sl_registry s) (iv_grain_type req) with
  | Some type_name =>
      match GrainDirectory_get_sender (sl_runtime s) (mkGrainId type_name (iv_grain_key req)) with
      | Some sd => negb (is_closed (sl_runtime s) sd)
      | None => false
      end
  | None => false
  end.

(** What both forwarding paths do: check the hop count, get a client, call the target with the
    token and the incremented count. *)
Definition forward (remote : World → string → Metadata → InvokeRequest →
                             option (World * result Status InvokeResponse))
    (limit_message : string) (w : World) (ep : string) (s : Silo) (target : string)
    (req : InvokeRequest) : option (World * result Status InvokeResponse) :=
  if bool_decide (MAX_HOPS ≤ hop_count req) then
    Some (set_silo w ep s, Err (Internal limit_message))
  else
    match ConnectionPool_get_transport connects (sl_pool s) target with
    | (p, false) => Some (set_silo w ep (with_pool s p), Err (Unavailable "connection failed"))
    | (p, true) =>
        '(w, r) ← remote (set_silo w ep (with_pool s p)) target (authorized_request parses p)
                    (forwarded req);
        Some (w, map_err (λ e, Internal (status_display e)) r)
    end.

Definition hops_exceeded : string :=
  "maximum forwarding hops (3) exceeded — possible routing loop".
Definition hops_exceeded_lookup : string :=
  "maximum forwarding hops (3) exceeded during directory lookup".

(** [GrainTransportService::invoke] at the silo listening on [ep]; [fuel] bounds the number
    of silos the call visits. *)
Fixpoint invoke (fuel : nat) (w : World) (ep : string) (md : Metadata) (req : InvokeRequest)
    : option (World * result Status InvokeResponse) :=
  match fuel with
  | O => None
  | S fuel' =>
      match w_silos w !! ep with
      | None => Some (w, Err rpc_failure)
      | Some s =>
          match check_auth (sl_auth s) md with
          | Err e => Some (w, Err e)
          | Ok _ =>
              if oversized req then Some (w, Err (oversized_status req))
              else
                match find_owner s (iv_grain_type req) (iv_grain_key req) with
                | Some target => forward (invoke fuel') hops_exceeded w ep s target req
                | None =>
                    match check_cross_cluster w ep s req with
                    | (w, Err e) => Some (w, Err e)
                    | (w, Ok (Some r)) => Some (w, Ok r)
                    | (w, Ok None) =>
                        let dispatch s :=
                          let '(s, r) := local_dispatch s req in Some (set_silo w ep s, Ok r) in
                        if already_local s req then dispatch s
                        else
                          match lookup_grain_cluster_wide w s (iv_grain_type req)
                                  (iv_grain_key req) with
                          | (s, Some target) =>
                              forward (invoke fuel') hops_exceeded_lookup w ep s target req
                          | (s, None) => dispatch s
                          end
                    end
                end
          end
      end
  end.
End transport.

(** * The hop limit *)

Lemma parse_digits_range acc s n : 0 ≤ acc < u32_mod → parse_digits acc s = Some n → 0 ≤ n < u32_mod.
Proof.
  revert acc. induction s as [|c s IH]; intros acc Ha; cbn [parse_digits]; [by intros [= <-]|].
  case_bool_decide; cbn [andb]; [|done]. case_bool_decide; [|done]. apply IH. lia.
Qed.

Lemma hop_count_nonneg req : 0 ≤ hop_count req.
Proof.
  unfold hop_count. destruct (iv_request_context req !! HOP_COUNT_KEY) as [s|]; cbn; [|done].
  destruct (parse_u32 s) as [n|] eqn:E; cbn; [|done]. unfold parse_u32 in E.
  destruct s as [|c s']; [done|].
  destruct (_ && _); eapply (parse_digits_range 0) in E; try done; lia.
Qed.

Lemma hop_count_forwarded req :
  hop_count req < MAX_HOPS → hop_count (forwarded req) = hop_count req + 1.
Proof.
  intros Hlt. pose proof (hop_count_nonneg req) as H0. unfold hop_count at 1.
  change (iv_request_context (forwarded req))
    with (<[HOP_COUNT_KEY := pretty (hop_count req + 1)]> (iv_request_context req)).
  rewrite lookup_insert_eq. cbn [mbind option_bind]. unfold MAX_HOPS in Hlt.
  destruct (decide (hop_count req = 0)) as [->|]; [done|].
  destruct (decide (hop_count req = 1)) as [->|]; [done|].
  assert (hop_count req = 2) as -> by lia. done.
Qed.

Section hops.
Context (connects parses : string → bool) (arrival : list SiloAddress → list (SiloAddress * bool)).
Context (status_display : Status → string) (rpc_failure : Status) (now : Z).
Abbreviation invoke' := (invoke connects parses arrival status_display rpc_failure now).

(** The visits a request may still cause. *)
Definition hops_left (req : InvokeRequest) : nat := Z.to_nat (MAX_HOPS - hop_count req).

Lemma forward_fuel n m w ep s target req :
  (hops_left req ≤ n)%nat →
  (∀ w ep md req, (hops_left req < n)%nat → is_Some (invoke' n w ep md req)) →
  is_Some (forward connects parses status_display (invoke' n) m w ep s target req).
Proof.
  intros Hn IH. unfold forward. case_bool_decide as Hh; [by eexists|].
  destruct (ConnectionPool_get_transport _ _ _) as [p []]; [|by eexists].
  destruct (IH (set_silo w ep (with_pool s p)) target (authorized_request parses p) (forwarded req))
    as [[w' r] ->].
  - unfold hops_left in *. rewrite hop_count_forwarded by lia. lia.
  - by eexists.
Qed.

Lemma invoke_fuel n w ep md req :
  (hops_left req < n)%nat → is_Some (invoke' n w ep md req).
Proof.
  revert w ep md req. induction n as [|n IH]; intros w ep md req Hn; [lia|]. cbn [invoke].
  assert (hops_left req ≤ n)%nat as Hl by lia.
  repeat case_match; try (by eexists); by apply forward_fuel.
Qed.

(** More fuel does not change the outcome. *)
Lemma invoke_mono n w ep md req r :
  invoke' n w ep md req = Some r → invoke' (S n) w ep md req = Some r.
Proof.
  revert w ep md req r. induction n as [|n IH]; intros w ep md req r; [done|].
  assert (∀ m w ep s t req r, forward connects parses status_display (invoke' n) m w ep s t req = Some r →
            forward connects parses status_display (invoke' (S n)) m w ep s t req = Some r) as Hf.
  { intros m w0 ep0 s t req0 r0. unfold forward. case_bool_decide; [done|].
    destruct (ConnectionPool_get_transport _ _ _) as [p []]; [|done].
    destruct (invoke' n _ _ _ _) as [[w1 r1]|] eqn:E; [|done]. by rewrite (IH _ _ _ _ _ E). }
  intros H. cbn [invoke] in H. remember (S n) as k. cbn [invoke]. subst k.
  repeat case_match; simplify_eq/=; try done; by apply Hf.
Qed.

Lemma invoke_mono_le n m w ep md req r :
  (n ≤ m)%nat → invoke' n w ep md req = Some r → invoke' m w ep md req = Some r.
Proof. intros Hle H. induction Hle as [|m _ IH]; [done|]. by apply invoke_mono. Qed.

(** Forwarding always ends.  Whatever the rings, directories and caches of the silos
    say, and however they disagree, a call visits at most four silos (the first and
    [MAX_HOPS] = 3 more): four units of fuel always give an outcome, and more fuel gives the same
    one.  A request that already carries the maximum is never forwarded again. *)
Theorem forwarding_terminates w ep md req :
  (∃ out, ∀ n, (4 ≤ n)%nat → invoke' n w ep md req = Some out) ∧
  (MAX_HOPS ≤ hop_count req → is_Some (invoke' 1 w ep md req)).
Proof.
  pose proof (hop_count_nonneg req) as H0. split.
  - destruct (invoke_fuel 4 w ep md req) as [out Ho]; [unfold hops_left, MAX_HOPS; lia|].
    exists out. intros n Hn. by eapply invoke_mono_le.
  - intros Hm. apply invoke_fuel. unfold hops_left. lia.
Qed.
End hops.

(** * Routing when the rings agree *)

(** A live activation of the grain at a silo. *)
Definition active_at (s : Silo) (gt gk : string) : bool :=
  match grain_type_str (sl_registry s) gt with
  | Some t =>
      match GrainDirectory_get_sender (sl_runtime s) (mkGrainId t gk) with
      | Some sd => negb (is_closed (sl_runtime s) sd)
      | None => false
      end
  | None => false
  end.

Lemma already_local_active s req : already_local s req = active_at s (iv_grain_type req) (iv_grain_key req).
Proof. done. Qed.

Lemma lookup_at_inactive connects w gt gk pool m :
  (∀ s, w_silos w !! endpoint m.1 = Some s → active_at s gt gk = false) →
  (lookup_at connects w gt gk pool m).2 = None ∧
  auth_token (lookup_at connects w gt gk pool m).1 = auth_token pool.
Proof.
  destruct m as [m b]. cbn [fst]. intros Hs. unfold lookup_at, ConnectionPool_get_membership.
  assert ((match w_silos w !! endpoint m with
           | Some peer =>
               match lookup_grain (grain_type_str (sl_registry peer)) (sl_runtime peer)
                       (sl_service peer) None gt gk with
               | Ok (true, _, ep) => if b then Some ep else None
               | _ => None
               end
           | None => None
           end) = None) as Hn.
  { destruct (w_silos w !! endpoint m) as [peer|]; [|done]. specialize (Hs peer eq_refl).
    unfold lookup_grain. destruct (check_auth _ _); [|done]. unfold active_at in Hs. by rewrite Hs. }
  repeat case_match; simplify_eq/=; rewrite ?Hn; done.
Qed.

Lemma lookup_tasks_inactive connects w gt gk ms pool :
  (∀ ep s, w_silos w !! ep = Some s → active_at s gt gk = false) →
  (lookup_tasks connects w gt gk pool ms).2 = None ∧
  auth_token (lookup_tasks connects w gt gk pool ms).1 = auth_token pool.
Proof.
  intros Hs. revert pool. induction ms as [|m ms IH]; intros pool; [done|]. cbn [lookup_tasks].
  destruct (lookup_at_inactive connects w gt gk pool m) as [H1 H2]; [by intros s ?; eapply Hs|].
  destruct (lookup_at _ _ _ _ _ _) as [p r]. cbn [fst snd] in *. subst r.
  destruct (IH p) as [H3 H4]. split; [done|]. by rewrite H4, H2.
Qed.

Lemma get_transport_connected connects p ep :
  (∀ uri, connects uri = true) →
  ∃ p', ConnectionPool_get_transport connects p ep = (p', true) ∧ auth_token p' = auth_token p.
Proof.
  intros Hc. unfold ConnectionPool_get_transport. rewrite Hc. case_bool_decide; eexists; done.
Qed.

Lemma with_pool_self s : with_pool s (sl_pool s) = s.
Proof. by destruct s as [? ? [[]] ?]. Qed.

Lemma local_dispatch_with_pool s p req :
  local_dispatch (with_pool s p) req =
    (with_pool (local_dispatch s req).1 p, (local_dispatch s req).2).
Proof.
  unfold local_dispatch. cbn [sl_registry sl_runtime with_pool].
  by destruct (MessageRegistry_dispatch _ _ _ _ _ _ _ _ _).
Qed.

Section converged.
Context (connects parses : string → bool) (arrival : list SiloAddress → list (SiloAddress * bool)).
Context (status_display : Status → string) (rpc_failure : Status) (now : Z).
Abbreviation invoke' := (invoke connects parses arrival status_display rpc_failure now).
Context (Hconn : ∀ uri, connects uri = true).
(** The ring all silos hold, the cluster's authentication, the grain and its owner. *)
Context (r : HashRing) (auth : option SharedSecretAuth) (gt gk : string) (o : SiloAddress).
Context (Howner : HashRing_get r (slash gt gk) = Some o).

(** One cluster that has converged on [r]: every silo holds that ring and the same
    authentication with an accepted token, silo ids and endpoints agree on who is [o], and
    only [o] may have the grain active. *)
Definition silo_converged (ep : string) (s : Silo) : Prop :=
  sl_ring s = r ∧ (sl_local_silo_id s = silo_id o ↔ ep = endpoint o) ∧ sl_auth s = auth ∧
  check_auth auth (authorized_request parses (sl_pool s)) = Ok () ∧ sl_cross s = None ∧
  (ep ≠ endpoint o → active_at s gt gk = false).

Definition converged (w : World) : Prop :=
  map_Forall silo_converged (w_silos w) ∧ is_Some (w_silos w !! endpoint o).

Lemma silo_converged_pool ep s p :
  silo_converged ep s → auth_token p = auth_token (sl_pool s) → silo_converged ep (with_pool s p).
Proof.
  intros (H1 & H2 & H3 & H4 & H5 & H6) Hp. unfold silo_converged, authorized_request in *. cbn.
  rewrite Hp. split_and!; try done.
Qed.

Lemma silo_converged_dispatch s req :
  silo_converged (endpoint o) s → silo_converged (endpoint o) (local_dispatch s req).1.
Proof.
  intros (H1 & H2 & H3 & H4 & H5 & H6). unfold local_dispatch.
  destruct (MessageRegistry_dispatch _ _ _ _ _ _ _ _ _) as [rt res]. split_and!; try done.
Qed.

Lemma converged_set w ep s : converged w → silo_converged ep s → converged (set_silo w ep s).
Proof.
  intros [Hw Ho] Hs. split; cbn; [by apply map_Forall_insert_2|].
  destruct (decide (ep = endpoint o)) as [->|]; [by rewrite lookup_insert_eq|].
  by rewrite lookup_insert_ne.
Qed.

(** A call that arrives at the owner is dispatched there. *)
Lemma invoke_at_owner n w so md req :
  converged w → w_silos w !! endpoint o = Some so → check_auth auth md = Ok () →
  oversized req = false → iv_grain_type req = gt → iv_grain_key req = gk →
  ∃ p, invoke' (S n) w (endpoint o) md req =
         Some (set_silo w (endpoint o) (with_pool (local_dispatch so req).1 p),
               Ok (local_dispatch so req).2) ∧
       auth_token p = auth_token (sl_pool so).
Proof.
  intros [Hw _] Hso Hmd Hsz Hgt Hgk.
  destruct (Hw _ _ Hso) as (Hr & Hid & Ha & _ & Hx & _). cbn [invoke].
  rewrite Hso, Ha, Hmd, Hsz. unfold find_owner. rewrite Hr, Hgt, Hgk, Howner.
  rewrite bool_decide_false by (intros Hne; apply Hne; symmetry; by apply Hid).
  unfold check_cross_cluster, cross_verdict. rewrite Hx, already_local_active, Hgt, Hgk.
  destruct (active_at so gt gk) eqn:Hact.
  - exists (sl_pool so). split; [|done].
    pose proof (local_dispatch_with_pool so (sl_pool so) req) as Hd.
    rewrite with_pool_self in Hd. by rewrite Hd at 1.
  - unfold lookup_grain_cluster_wide.
    destruct (lookup_tasks_inactive connects w gt gk
                (arrival (filter (λ m, silo_id m ≠ sl_local_silo_id so) (HashRing_members (sl_ring so))))
                (sl_pool so)) as [H1 H2].
    { intros ep s Hs. destruct (decide (ep = endpoint o)) as [->|Hne]; [congruence|].
      by apply (Hw _ _ Hs). }
    destruct (lookup_tasks _ _ _ _ _ _) as [p res]. cbn [fst snd] in *. subst res.
    rewrite local_dispatch_with_pool. by exists p.
Qed.

(** The routing lemma behind the theorem below. *)
Lemma invoke_routes w ep md req s so :
  converged w → w_silos w !! ep = Some s → w_silos w !! endpoint o = Some so →
  check_auth auth md = Ok () → oversized req = false → hop_count req < MAX_HOPS →
  iv_grain_type req = gt → iv_grain_key req = gk →
  let req' := if bool_decide (ep = endpoint o) then req else forwarded req in
  ∃ w', invoke' 4 w ep md req = Some (w', Ok (local_dispatch so req').2) ∧ converged w' ∧
    (∀ ep', sl_runtime <$> w_silos w' !! ep' =
       if bool_decide (ep' = endpoint o) then Some (sl_runtime (local_dispatch so req').1)
       else sl_runtime <$> w_silos w !! ep').
Proof.
  intros Hw Hs Hso Hmd Hsz Hh Hgt Hgk req'. unfold req'.
  case_bool_decide as Hep.
  - subst ep. destruct (invoke_at_owner 3 w so md req) as (p & Hi & Hp); try done.
    eexists. split; [exact Hi|]. split.
    + apply converged_set; [done|]. apply silo_converged_pool.
      * apply silo_converged_dispatch. by apply (proj1 Hw).
      * rewrite Hp. unfold local_dispatch. by destruct (MessageRegistry_dispatch _ _ _ _ _ _ _ _ _).
    + intros ep'. cbn. case_bool_decide as He; [subst; by rewrite lookup_insert_eq|].
      by rewrite lookup_insert_ne by congruence.
  - destruct (proj1 Hw _ _ Hs) as (Hr & Hid & Ha & Htok & Hx & _).
    destruct (get_transport_connected connects (sl_pool s) (endpoint o) Hconn) as (p & Hp & Hpt).
    set (w1 := set_silo w ep (with_pool s p)).
    assert (converged w1) as Hw1.
    { apply converged_set; [done|]. apply silo_converged_pool; [by apply (proj1 Hw)|done]. }
    destruct (invoke_at_owner 2 w1 so (authorized_request parses p) (forwarded req))
      as (q & Hi & Hq); try done.
    { unfold w1. cbn. by rewrite lookup_insert_ne. }
    { unfold authorized_request in *. by rewrite Hpt. }
    eexists. split; [|split].
    + remember 3%nat as k. cbn [invoke]. subst k. rewrite Hs, Ha, Hmd, Hsz. unfold find_owner.
      rewrite Hr, Hgt, Hgk, Howner.
      rewrite bool_decide_true by (intros Heq; apply Hep, Hid; by symmetry).
      unfold forward. rewrite bool_decide_false by lia. rewrite Hp. fold w1. rewrite Hi. done.
    + apply converged_set; [done|]. apply silo_converged_pool.
      * apply silo_converged_dispatch. by apply (proj1 Hw).
      * rewrite Hq. unfold local_dispatch. by destruct (MessageRegistry_dispatch _ _ _ _ _ _ _ _ _).
    + intros ep'. cbn. case_bool_decide as He; [subst; by rewrite lookup_insert_eq|].
      rewrite lookup_insert_ne by congruence.
      destruct (decide (ep = ep')) as [<-|]; [rewrite lookup_insert_eq, Hs; done|].
      by rewrite lookup_insert_ne.
Qed.
(** C6: routing in a converged cluster.  When every silo holds the same ring, a call for a grain
    sent to any silo of the cluster is dispatched at the silo the ring assigns the
    grain to (directly, or after one forwarded hop) and answered with that silo's response;
    only the owner's runtime changes; and the cluster is still converged afterwards, so that every later
    call ends at the same owner: the grain is active on at most one silo. *)
Theorem routes_to_owner w ep md req s so :
  converged w → w_silos w !! ep = Some s → w_silos w !! endpoint o = Some so →
  check_auth auth md = Ok () → oversized req = false → hop_count req < MAX_HOPS →
  iv_grain_type req = gt → iv_grain_key req = gk →
  let req' := if bool_decide (ep = endpoint o) then req else forwarded req in
  ∃ w', invoke' 4 w ep md req = Some (w', Ok (local_dispatch so req').2) ∧ converged w' ∧
    (∀ ep', sl_runtime <$> w_silos w' !! ep' =
       if bool_decide (ep' = endpoint o) then Some (sl_runtime (local_dispatch so req').1)
       else sl_runtime <$> w_silos w !! ep').
Proof. apply invoke_routes. Qed.
End converged.

(** * An activation left on a silo that no longer owns the grain *)
Section stranded.
Context (connects parses : string → bool) (arrival : list SiloAddress → list (SiloAddress * bool)).
Context (status_display : Status → string) (rpc_failure : Status) (now : Z).
Abbreviation invoke' := (invoke connects parses arrival status_display rpc_failure now).
Context (Hconn : ∀ uri, connects uri = true) (Harr : ∀ l, arrival l ≡ₚ all_answer l).
(** All silos agree that [o] owns the grain, but its live activation is at [h]. *)
Context (r : HashRing) (gt gk : string) (o h : SiloAddress).
Context (Howner : HashRing_get r (slash gt gk) = Some o) (Hmem : h ∈ HashRing_members r).
Context (Hne : silo_id h ≠ silo_id o).

Definition silo_stranded (ep : string) (s : Silo) : Prop :=
  sl_ring s = r ∧ endpoint (local_addr (nd_swim (ms_node (sl_service s)))) = ep ∧
  sl_auth s = None ∧ sl_cross s = None ∧
  (ep = endpoint o → sl_local_silo_id s = silo_id o) ∧
  (ep = endpoint h → sl_local_silo_id s = silo_id h) ∧
  (active_at s gt gk = true ↔ ep = endpoint h).

Definition stranded (w : World) : Prop :=
  map_Forall silo_stranded (w_silos w) ∧
  is_Some (w_silos w !! endpoint o) ∧ is_Some (w_silos w !! endpoint h).

Lemma stranded_pool w ep s p :
  stranded w → w_silos w !! ep = Some s →
  stranded (set_silo w ep (with_pool s p)) ∧
  ∀ ep', sl_runtime <$> w_silos (set_silo w ep (with_pool s p)) !! ep' =
         sl_runtime <$> w_silos w !! ep'.
Proof.
  intros (Hw & Ho & Hh) Hs. split.
  - split_and!; cbn.
    + apply map_Forall_insert_2; [|done]. exact (Hw _ _ Hs).
    + destruct (decide (ep = endpoint o)) as [->|]; [by rewrite lookup_insert_eq|by rewrite lookup_insert_ne].
    + destruct (decide (ep = endpoint h)) as [->|]; [by rewrite lookup_insert_eq|by rewrite lookup_insert_ne].
  - intros ep'. cbn. destruct (decide (ep = ep')) as [<-|]; [by rewrite lookup_insert_eq, Hs|].
    by rewrite lookup_insert_ne.
Qed.

(** The cluster-wide lookup finds the holder. *)
Lemma lookup_tasks_stranded w ms pool :
  stranded w → (h, true) ∈ ms → ∃ p, lookup_tasks connects w gt gk pool ms = (p, Some (endpoint h)).
Proof.
  intros (Hw & _ & Hh) Hin. revert pool. induction ms as [|[m b] ms IH]; intros pool; [by apply not_elem_of_nil in Hin|].
  cbn [lookup_tasks].
  assert (∃ p, lookup_at connects w gt gk pool (m, b) =
            (p, match w_silos w !! endpoint m with
                | Some s => if active_at s gt gk && b then Some (endpoint h) else None
                | None => None
                end)) as [p ->].
  { unfold lookup_at, ConnectionPool_get_membership. rewrite Hconn.
    destruct (w_silos w !! endpoint m) as [s|] eqn:Em; [|case_bool_decide; by eexists].
    destruct (Hw _ _ Em) as (_ & He & Ha & _ & _ & _ & Hact).
    assert (lookup_grain (grain_type_str (sl_registry s)) (sl_runtime s) (sl_service s) None gt gk =
              Ok (active_at s gt gk, if active_at s gt gk then sl_local_silo_id s else "",
                  if active_at s gt gk then endpoint m else "")) as ->.
    { unfold lookup_grain. fold (sl_auth s). rewrite Ha, He. done. }
    destruct (active_at s gt gk); [|case_bool_decide; by eexists].
    rewrite (proj1 Hact eq_refl). destruct b; case_bool_decide; by eexists. }
  destruct Hh as [sh Hsh]. apply elem_of_cons in Hin as [[= <- <-]|Hin].
  - rewrite Hsh. destruct (Hw _ _ Hsh) as (_ & _ & _ & _ & _ & _ & Hact).
    rewrite (proj2 Hact eq_refl). by exists p.
  - destruct (w_silos w !! endpoint m) as [s|]; [|by apply IH].
    destruct (active_at s gt gk && b); [by exists p|by apply IH].
Qed.

(** A live activation on a silo that is not the ring's owner cannot be reached.  When every
    ring agrees that [o] owns the grain while its activation is at [h] (as after a silo has joined
    and before the old activation has ended), the holder sends every call on to the
    owner and the owner, finding the activation, back to the holder: whichever of the
    two is called first, the call ends with an internal error once its hops are used up, and it is
    never dispatched. *)
Theorem stranded_activation_unreachable w ep md req :
  stranded w → ep = endpoint o ∨ ep = endpoint h → oversized req = false →
  iv_grain_type req = gt → iv_grain_key req = gk →
  ∃ w' m, invoke' 4 w ep md req = Some (w', Err (Internal m)) ∧
    ∀ ep', sl_runtime <$> w_silos w' !! ep' = sl_runtime <$> w_silos w !! ep'.
Proof.
  assert (∀ n w ep md req, (hops_left req < n)%nat →
            stranded w → ep = endpoint o ∨ ep = endpoint h → oversized req = false →
            iv_grain_type req = gt → iv_grain_key req = gk →
            ∃ w' m, invoke' n w ep md req = Some (w', Err (Internal m)) ∧
              ∀ ep', sl_runtime <$> w_silos w' !! ep' = sl_runtime <$> w_silos w !! ep') as Hall.
  { induction n as [|n IH]; intros w0 ep0 md0 req0 Hn Hw Hep Hsz Hgt Hgk; [lia|].
    assert (∃ s, w_silos w0 !! ep0 = Some s) as [s Hs].
    { destruct Hw as (_ & [so ?] & [sh ?]). destruct Hep as [->| ->]; eauto. }
    destruct (proj1 Hw _ _ Hs) as (Hr & He & Ha & Hx & Hido & Hidh & Hact).
    assert (∀ m p target, target = endpoint o ∨ target = endpoint h →
              ∃ w' e, forward connects parses status_display (invoke' n) m w0 ep0 (with_pool s p) target req0 =
                        Some (w', Err (Internal e)) ∧
                ∀ ep', sl_runtime <$> w_silos w' !! ep' = sl_runtime <$> w_silos w0 !! ep') as Hf.
    { intros m p target Ht. unfold forward. case_bool_decide as Hh.
      { eexists _, _. split; [done|]. by apply stranded_pool. }
      destruct (get_transport_connected connects (sl_pool (with_pool s p)) target Hconn)
        as (q & -> & _).
      change (with_pool (with_pool s p) q) with (with_pool s q).
      destruct (stranded_pool w0 ep0 s q Hw Hs) as [Hw1 Hrt].
      destruct (IH (set_silo w0 ep0 (with_pool s q)) target (authorized_request parses q) (forwarded req0))
        as (w' & e & -> & Hsame); try done.
      { unfold hops_left in *. rewrite hop_count_forwarded by lia. lia. }
      eexists _, _. split; [done|]. intros ep'. by rewrite Hsame. }
    cbn [invoke]. rewrite Hs, Ha. cbn [check_auth]. rewrite Hsz. unfold find_owner.
    rewrite Hr, Hgt, Hgk, Howner. case_bool_decide as Hid.
    - specialize (Hf hops_exceeded (sl_pool s) (endpoint o) (or_introl eq_refl)).
      by rewrite with_pool_self in Hf.
    - assert (ep0 = endpoint o) as ->.
      { destruct Hep as [?| ->]; [done|]. pose proof (Hidh eq_refl). congruence. }
      unfold check_cross_cluster, cross_verdict. rewrite Hx, already_local_active, Hgt, Hgk.
      destruct (active_at s gt gk) eqn:Hac.
      { pose proof (Hidh (proj1 Hact eq_refl)). congruence. }
      unfold lookup_grain_cluster_wide.
      destruct (lookup_tasks_stranded w0
                  (arrival (filter (λ m, silo_id m ≠ sl_local_silo_id s) (HashRing_members (sl_ring s))))
                  (sl_pool s) Hw) as [p ->]; [|apply Hf; auto].
      rewrite Harr, Hr. apply (list_elem_of_fmap_2 (λ m, (m, true))), list_elem_of_filter. split; [|done]. by rewrite Hido. }
  intros. apply Hall; try done. pose proof (hop_count_nonneg req). unfold hops_left, MAX_HOPS. lia.
Qed.
End stranded.

(** * Witnesses: two silos that share a ring on which the first owns [Echo/k] *)
Definition silo_a : SiloAddress := mkSilo "10.0.0.1" 7000 "A".
Definition silo_b : SiloAddress := mkSilo "10.0.0.2" 7000 "B".
Definition ring_ab : HashRing := HashRing_add (HashRing_add (HashRing_new 2) silo_a) silo_b.

Definition demo_silo (addr : SiloAddress) (rt : Runtime) : Silo :=
  mkSiloState echo_registry rt
    (MembershipService_new 0 (mkNode (SwimState_new addr) ring_ab ConnectionPool_new []) 3 None) None.
Definition demo_world (rt_a rt_b : Runtime) : World :=
  mkWorld (<[endpoint silo_a := demo_silo silo_a rt_a]>
             {[endpoint silo_b := demo_silo silo_b rt_b]}) ∅.
Definition demo_request : InvokeRequest := mkInvoke "Echo" "k" "Say" [Byte.x2a] 0 ∅ 1.
Definition demo_active : Runtime :=
  (GrainDirectory_get_or_insert Runtime_new (mkGrainId "Echo" "k")).1.
Abbreviation demo_invoke :=
  (invoke (λ _, true) (λ _, true) all_answer (λ _, "remote status") (StatusOther "no answer") 0).

Lemma demo_converged :
  converged (λ _, true) ring_ab None "Echo" "k" silo_a (demo_world Runtime_new Runtime_new).
Proof.
  split; [|by eexists]. apply map_Forall_insert_2; [|apply map_Forall_singleton];
    vm_compute; split_and!; try done; intros; discriminate.
Qed.

Lemma demo_stranded :
  stranded ring_ab "Echo" "k" silo_a silo_b (demo_world Runtime_new demo_active).
Proof.
  split_and!; [|by eexists|by eexists].
  apply map_Forall_insert_2; [|apply map_Forall_singleton]; vm_compute; split_and!;
    try done; intros; discriminate.
Qed.

Lemma routes_to_owner_witness :
  ∃ w', demo_invoke 4 (demo_world Runtime_new Runtime_new) (endpoint silo_b) None demo_request =
          Some (w', Ok (mkResponse [Byte.x2a] "" 0)).
Proof.
  destruct (routes_to_owner (λ _, true) (λ _, true) all_answer (λ _, "remote status")
              (StatusOther "no answer") 0 (λ _, eq_refl) ring_ab None "Echo" "k" silo_a eq_refl
              (demo_world Runtime_new Runtime_new) (endpoint silo_b) None demo_request
              (demo_silo silo_b Runtime_new) (demo_silo silo_a Runtime_new) demo_converged
              eq_refl eq_refl eq_refl eq_refl eq_refl eq_refl eq_refl) as (w' & H & _).
  exists w'. rewrite H. vm_compute. reflexivity.
Defined.

Lemma stranded_activation_unreachable_witness :
  ∃ w' m, demo_invoke 4 (demo_world Runtime_new demo_active) (endpoint silo_a) None demo_request =
            Some (w', Err (Internal m)).
Proof.
  destruct (stranded_activation_unreachable (λ _, true) (λ _, true) all_answer
              (λ _, "remote status") (StatusOther "no answer") 0 (λ _, eq_refl)
              (λ l, Permutation_refl (all_answer l)) ring_ab "Echo" "k" silo_a silo_b eq_refl)
    with (w := demo_world Runtime_new demo_active) (ep := endpoint silo_a) (md := None : Metadata)
         (req := demo_request) as (w' & m & H & _).
  - vm_compute. left.
  - discriminate.
  - exact demo_stranded.
  - left. reflexivity.
  - reflexivity.
  - reflexivity.
  - reflexivity.
  - exists w', m. exact H.
Defined.
