(* ===== verification/CallsInFlight.v ===== *)
(** * Calls in flight

    [invoke] of [Transport] runs a call to its end.  Here the handler of [transport.rs] is cut at
    its accesses to shared state (the ring, the connection pool, the directory, each answer of the cluster-wide
    lookup, the dispatch), so that calls at several silos interleave; between two accesses of
    a call the world may change in any way. *)
From S2P Require Import Prelude CoreTypes HashRing Mailbox Directory Auth Swim Membership.
From S2P Require Import CrossCluster Registry Transport.

(** Where a call is.  [ep] is the silo whose handler runs. *)
Inductive Phase :=
| Arrived (ep : string) (md : Metadata) (req : InvokeRequest)
| Forwarding (limit_message : string) (ep target : string) (req : InvokeRequest)
| CrossCheck (ep : string) (req : InvokeRequest)
| Claiming (ep : string) (req : InvokeRequest) (g : GrainId) (c : ClusterId)
| LocalCheck (ep : string) (req : InvokeRequest)
| LookupStart (ep : string) (req : InvokeRequest)
| LookingUp (ep : string) (req : InvokeRequest) (tasks : list (SiloAddress * bool))
| Dispatching (ep : string) (req : InvokeRequest)
| Answered (r : result Status InvokeResponse).

(** A call in flight: the phase of the handler that runs, and how many forwarding silos wait
    for its answer. *)
Record Flight := mkFlight { fl_phase : Phase; fl_waiting : nat }.

Definition completed (f : Flight) : Prop := fl_waiting f = 0%nat ∧ ∃ r, fl_phase f = Answered r.
#[global] Instance completed_dec f : Decision (completed f).
Proof.
  destruct f as [[] []]; solve [left; split; eauto | right; intros [? [? ?]]; discriminate].
Defined.

Section flights.
Context (connects parses : string → bool) (arrival : list SiloAddress → list (SiloAddress * bool)).
Context (status_display : Status → string) (rpc_failure : Status) (now : Z).

(** The handler at [ep] goes on, on the silo as it is now; it goes down with its silo. *)
Definition at_silo (w : World) (ep : string) (k : Silo → World * Phase) : World * Phase :=
  match w_silos w !! ep with
  | Some s => k s
  | None => (w, Answered (Err rpc_failure))
  end.

Definition arrive_step (w : World) (ep : string) (md : Metadata) (req : InvokeRequest) : World * Phase :=
  at_silo w ep (λ s, (w,
    match check_auth (sl_auth s) md with
    | Err e => Answered (Err e)
    | Ok _ =>
        if oversized req then Answered (Err (oversized_status req))
        else
          match find_owner s (iv_grain_type req) (iv_grain_key req) with
          | Some target => Forwarding hops_exceeded ep target req
          | None => CrossCheck ep req
          end
    end)).

(** The hop check and the client; [true] when the request is now on its way to the target. *)
Definition forward_step (w : World) (limit_message ep target : string) (req : InvokeRequest) : World * Phase * bool :=
  match w_silos w !! ep with
  | None => (w, Answered (Err rpc_failure), false)
  | Some s =>
      if bool_decide (MAX_HOPS ≤ hop_count req) then (w, Answered (Err (Internal limit_message)), false)
      else
        match ConnectionPool_get_transport connects (sl_pool s) target with
        | (p, false) => (set_silo w ep (with_pool s p), Answered (Err (Unavailable "connection failed")), false)
        | (p, true) =>
            (set_silo w ep (with_pool s p), Arrived target (authorized_request parses p) (forwarded req), true)
        end
  end.

Definition cross_step (w : World) (ep : string) (req : InvokeRequest) : World * Phase :=
  at_silo w ep (λ s,
    match cross_verdict connects status_display rpc_failure w ep s req with
    | (w, CrossLocal) => (w, LocalCheck ep req)
    | (w, CrossClaim g c) => (w, Claiming ep req g c)
    | (w, CrossAnswered r) => (w, Answered (Ok r))
    | (w, CrossRefused e) => (w, Answered (Err e))
    end).

Definition claim_step (w : World) (ep : string) (req : InvokeRequest) (g : GrainId) (c : ClusterId) : World * Phase :=
  at_silo w ep (λ _, (cross_claim now w g c, LocalCheck ep req)).

Definition local_step (w : World) (ep : string) (req : InvokeRequest) : World * Phase :=
  at_silo w ep (λ s, (w, if already_local s req then Dispatching ep req else LookupStart ep req)).

(** The members are those of the ring when the lookup starts. *)
Definition lookup_start_step (w : World) (ep : string) (req : InvokeRequest) : World * Phase :=
  at_silo w ep (λ s,
    (w, LookingUp ep req (arrival (filter (λ m, silo_id m ≠ sl_local_silo_id s) (HashRing_members (sl_ring s)))))).

(** One lookup task completes. *)
Definition lookup_step (w : World) (ep : string) (req : InvokeRequest) (tasks : list (SiloAddress * bool)) : World * Phase :=
  at_silo w ep (λ s,
    match tasks with
    | [] => (w, Dispatching ep req)
    | m :: ms =>
        let '(pool, hit) := lookup_at connects w (iv_grain_type req) (iv_grain_key req) (sl_pool s) m in
        (set_silo w ep (with_pool s pool),
         match hit with
         | Some target => Forwarding hops_exceeded_lookup ep target req
         | None => LookingUp ep req ms
         end)
    end).

(** The dispatch, as one access here; [Asks] and [Linearizable] cut it at its own accesses to shared state. *)
Definition dispatch_step (w : World) (ep : string) (req : InvokeRequest) : World * Phase :=
  at_silo w ep (λ s, let '(s, r) := local_dispatch s req in (set_silo w ep s, Answered (Ok r))).

(** One access of a call; a completed call stays. *)
Definition flight_step (w : World) (f : Flight) : World * Flight :=
  let stay '(w, p) := (w, mkFlight p (fl_waiting f)) in
  match fl_phase f with
  | Arrived ep md req => stay (arrive_step w ep md req)
  | Forwarding m ep target req =>
      let '(w, p, sent) := forward_step w m ep target req in
      (w, mkFlight p (if sent then S (fl_waiting f) else fl_waiting f))
  | CrossCheck ep req => stay (cross_step w ep req)
  | Claiming ep req g c => stay (claim_step w ep req g c)
  | LocalCheck ep req => stay (local_step w ep req)
  | LookupStart ep req => stay (lookup_start_step w ep req)
  | LookingUp ep req ms => stay (lookup_step w ep req ms)
  | Dispatching ep req => stay (dispatch_step w ep req)
  | Answered r =>
      match fl_waiting f with
      | O => (w, f)
      | S n => (w, mkFlight (Answered (map_err (λ e, Internal (status_display e)) r)) n)
      end
  end.
End flights.

(** ** Every call ends

    However the world changes between the accesses of a call. *)
Section termination.
Context (connects parses : string → bool) (arrival : list SiloAddress → list (SiloAddress * bool)).
Context (status_display : Status → string) (rpc_failure : Status) (now : Z).
Abbreviation step' := (flight_step connects parses arrival status_display rpc_failure now).

(** [f'] is what [f] may be after its next access, in some world. *)
Definition flight_next (f f' : Flight) : Prop := ¬ completed f ∧ ∃ w, (step' w f).2 = f'.

(** What is left of a call apart from the answers to its current lookup. *)
Definition phase_weight (p : Phase) : nat :=
  match p with
  | Arrived _ _ req => 7 + 10 * hops_left req
  | CrossCheck _ req => 6 + 10 * hops_left req
  | Claiming _ req _ _ => 5 + 10 * hops_left req
  | LocalCheck _ req => 4 + 10 * hops_left req
  | LookupStart _ req => 3 + 10 * hops_left req
  | LookingUp _ req _ => 2 + 10 * hops_left req
  | Forwarding _ _ _ req => 1 + 10 * hops_left req
  | Dispatching _ req => 1 + 10 * hops_left req
  | Answered _ => 0
  end.
Definition flight_weight (f : Flight) : nat := phase_weight (fl_phase f) + fl_waiting f.
Definition answers_left (f : Flight) : nat :=
  match fl_phase f with LookingUp _ _ ms => length ms | _ => 0 end.

Lemma flight_next_decreases f f' :
  flight_next f f' →
  (flight_weight f' < flight_weight f)%nat ∨
  (flight_weight f' = flight_weight f ∧ answers_left f' < answers_left f)%nat.
Proof.
  intros [Hc [w <-]]. destruct f as [p n]. unfold flight_weight, answers_left, flight_step, at_silo,
    arrive_step, forward_step, cross_step, claim_step, local_step, lookup_start_step, lookup_step, dispatch_step, at_silo.
  destruct p as [ep md req|m ep target req|ep req|ep req g c|ep req|ep req|ep req ms|ep req|r]; cbn [fl_phase fl_waiting].
  - repeat case_match; simplify_eq/=; left; lia.
  - destruct (w_silos w !! ep) as [s|]; [|left; cbn; lia]. case_bool_decide as Hh; [left; cbn; lia|].
    destruct (ConnectionPool_get_transport _ _ _) as [q []]; left; cbn; [|lia].
    unfold hops_left. rewrite hop_count_forwarded by lia. unfold MAX_HOPS in *. lia.
  - repeat case_match; simplify_eq/=; left; lia.
  - repeat case_match; simplify_eq/=; left; lia.
  - repeat case_match; simplify_eq/=; left; lia.
  - repeat case_match; simplify_eq/=; left; lia.
  - destruct (w_silos w !! ep) as [s|]; [|left; cbn; lia]. destruct ms as [|m ms]; [left; cbn; lia|].
    destruct (lookup_at _ _ _ _ _ _) as [q [t|]]; cbn; [left|right]; lia.
  - repeat case_match; simplify_eq/=; left; lia.
  - destruct n as [|n]; cbn; [|left; lia]. exfalso. apply Hc. split; [done|]. by eexists.
Qed.

End termination.

(** ** A call that is not interrupted *)
Section uninterrupted.
Context (connects parses : string → bool) (arrival : list SiloAddress → list (SiloAddress * bool)).
Context (status_display : Status → string) (rpc_failure : Status) (now : Z).
Abbreviation step' := (flight_step connects parses arrival status_display rpc_failure now).
Abbreviation invoke' := (invoke connects parses arrival status_display rpc_failure now).

(** [n] accesses of one call in a row. *)
Fixpoint drive (n : nat) (w : World) (f : Flight) : World * Flight :=
  match n with
  | O => (w, f)
  | S n' => let '(w, f) := step' w f in drive n' w f
  end.

(** The call gets from one point to the other by its own accesses. *)
Definition drives (w : World) (f : Flight) (w' : World) (f' : Flight) : Prop := ∃ n, drive n w f = (w', f').

Lemma drives_refl w f : drives w f w f.
Proof. by exists 0%nat. Qed.

Lemma drives_step w f w1 f1 w' f' : step' w f = (w1, f1) → drives w1 f1 w' f' → drives w f w' f'.
Proof. intros Hs [n Hn]. exists (S n). cbn. by rewrite Hs. Qed.

Lemma drives_trans w f w1 f1 w' f' : drives w f w1 f1 → drives w1 f1 w' f' → drives w f w' f'.
Proof.
  intros [n Hn] H. revert w f Hn. induction n as [|n IH]; intros w f; cbn; [by intros [= -> ->]|].
  destruct (step' w f) as [w2 f2] eqn:E. intros Hn. eapply drives_step; eauto.
Qed.

Lemma set_silo_id w ep s : w_silos w !! ep = Some s → set_silo w ep s = w.
Proof. intros Hs. destruct w as [m c]. unfold set_silo. cbn in *. by rewrite insert_id. Qed.

Lemma set_silo_set w ep s s' : set_silo (set_silo w ep s) ep s' = set_silo w ep s'.
Proof. unfold set_silo. cbn. by rewrite insert_insert_eq. Qed.

Lemma set_silo_lookup w ep s : w_silos (set_silo w ep s) !! ep = Some s.
Proof. apply lookup_insert_eq. Qed.

(** What a lookup task answers does not depend on pools. *)
Lemma lookup_at_pool w ep s q gt gk pool m :
  w_silos w !! ep = Some s →
  lookup_at connects (set_silo w ep (with_pool s q)) gt gk pool m = lookup_at connects w gt gk pool m.
Proof.
  intros Hs. destruct m as [m b]. unfold lookup_at. destruct (ConnectionPool_get_membership _ _ _) as [p []]; [|done]. f_equal. cbn.
  rewrite lookup_insert. case_decide as He; [|done]. subst ep. by rewrite Hs.
Qed.

(** The lookup, task by task. *)
Lemma drives_lookup w ep s req ms n :
  w_silos w !! ep = Some s →
  drives w (mkFlight (LookingUp ep req ms) n)
    (set_silo w ep (with_pool s (lookup_tasks connects w (iv_grain_type req) (iv_grain_key req) (sl_pool s) ms).1))
    (mkFlight match (lookup_tasks connects w (iv_grain_type req) (iv_grain_key req) (sl_pool s) ms).2 with
              | Some target => Forwarding hops_exceeded_lookup ep target req
              | None => Dispatching ep req
              end n).
Proof.
  revert w s. induction ms as [|m ms IH]; intros w s Hs; cbn [lookup_tasks].
  - exists 1%nat. cbn. unfold lookup_step, at_silo. rewrite Hs. cbn. by rewrite with_pool_self, set_silo_id.
  - destruct (lookup_at connects w (iv_grain_type req) (iv_grain_key req) (sl_pool s) m) as [q hit] eqn:E.
    eapply drives_step.
    { cbn. unfold lookup_step, at_silo. rewrite Hs, E. done. }
    destruct hit as [t|]; cbn [fst snd]; [apply drives_refl|].
    specialize (IH (set_silo w ep (with_pool s q)) (with_pool s q) (set_silo_lookup _ _ _)).
    change (sl_pool (with_pool s q)) with q in IH.
    assert (∀ pool, lookup_tasks connects (set_silo w ep (with_pool s q)) (iv_grain_type req) (iv_grain_key req) pool ms =
                    lookup_tasks connects w (iv_grain_type req) (iv_grain_key req) pool ms) as Heq.
    { clear IH E. induction ms as [|m' ms IH']; intros pool; [done|]. cbn [lookup_tasks].
      rewrite (lookup_at_pool w ep s q) by done. destruct (lookup_at _ _ _ _ _ _) as [? []]; [done|]. apply IH'. }
    rewrite Heq, set_silo_set in IH. exact IH.
Qed.

Lemma drives_dispatch w ep s req n :
  w_silos w !! ep = Some s →
  drives w (mkFlight (Dispatching ep req) n)
    (set_silo w ep (local_dispatch s req).1) (mkFlight (Answered (Ok (local_dispatch s req).2)) n).
Proof.
  intros Hs. exists 1%nat. cbn. unfold dispatch_step, at_silo. rewrite Hs. by destruct (local_dispatch s req).
Qed.

(** Forwarding, given what the target's handler does. *)
Lemma drives_forward (remote : World → string → Metadata → InvokeRequest → option (World * result Status InvokeResponse))
    m w ep s target req n w' r :
  (∀ w ep md req n w' r, remote w ep md req = Some (w', r) →
     drives w (mkFlight (Arrived ep md req) n) w' (mkFlight (Answered r) n)) →
  w_silos w !! ep = Some s →
  forward connects parses status_display remote m w ep s target req = Some (w', r) →
  drives w (mkFlight (Forwarding m ep target req) n) w' (mkFlight (Answered r) n).
Proof.
  intros IH Hs. unfold forward. case_bool_decide as Hh.
  { intros [= <- <-]. exists 1%nat. cbn. unfold forward_step. by rewrite Hs, bool_decide_true, set_silo_id. }
  destruct (ConnectionPool_get_transport connects (sl_pool s) target) as [p []] eqn:E.
  - destruct (remote _ target _ (forwarded req)) as [[w1 r1]|] eqn:Er; [|done]. intros [= <- <-].
    eapply drives_step.
    { cbn. unfold forward_step. rewrite Hs, bool_decide_false, E by done. done. }
    eapply drives_trans; [by apply IH|]. by exists 1%nat.
  - intros [= <- <-]. exists 1%nat. cbn. unfold forward_step. by rewrite Hs, bool_decide_false, E.
Qed.

Lemma cross_verdict_silo w ep s req w' v :
  w_silos w !! ep = Some s → cross_verdict connects status_display rpc_failure w ep s req = (w', v) →
  match v with CrossLocal | CrossClaim _ _ => w_silos w' !! ep = Some s | _ => True end.
Proof.
  intros Hs. unfold cross_verdict. repeat case_match; intros; simplify_eq/=; done.
Qed.

(** The cross-cluster check, with its claim. *)
Lemma drives_cross w ep s req n :
  w_silos w !! ep = Some s →
  match check_cross_cluster connects status_display rpc_failure now w ep s req with
  | (w', Err e) => drives w (mkFlight (CrossCheck ep req) n) w' (mkFlight (Answered (Err e)) n)
  | (w', Ok (Some r)) => drives w (mkFlight (CrossCheck ep req) n) w' (mkFlight (Answered (Ok r)) n)
  | (w', Ok None) =>
      w_silos w' !! ep = Some s ∧ drives w (mkFlight (CrossCheck ep req) n) w' (mkFlight (LocalCheck ep req) n)
  end.
Proof.
  intros Hs. unfold check_cross_cluster.
  destruct (cross_verdict _ _ _ w ep s req) as [w' v] eqn:E. pose proof (cross_verdict_silo _ _ _ _ _ _ Hs E) as Hs'.
  destruct v as [|g c|r|e]; [split; [done|]|split; [done|]|..]; try (exists 1%nat; cbn; unfold cross_step, at_silo; by rewrite Hs, E).
  exists 2%nat. cbn. unfold cross_step, at_silo. rewrite Hs, E. cbn. unfold claim_step, at_silo. by rewrite Hs'.
Qed.

Lemma drives_invoke k w ep md req n w' r :
  invoke' k w ep md req = Some (w', r) →
  drives w (mkFlight (Arrived ep md req) n) w' (mkFlight (Answered r) n).
Proof.
  revert w ep md req n w' r. induction k as [|k IH]; intros w ep md req n w' r; [done|]. cbn [invoke].
  destruct (w_silos w !! ep) as [s|] eqn:Hs.
  2:{ intros [= <- <-]. exists 1%nat. cbn. unfold arrive_step, at_silo. by rewrite Hs. }
  assert (∀ p, arrive_step rpc_failure w ep md req = (w, p) → ∀ w1 f1,
     drives w (mkFlight p n) w1 f1 → drives w (mkFlight (Arrived ep md req) n) w1 f1) as Harr.
  { intros p Hp w1 f1. apply drives_step. cbn. by rewrite Hp. }
  unfold arrive_step, at_silo in Harr. rewrite Hs in Harr.
  destruct (check_auth (sl_auth s) md); [|intros [= <- <-]; eapply Harr; [done|apply drives_refl]].
  destruct (oversized req); [intros [= <- <-]; eapply Harr; [done|apply drives_refl]|].
  destruct (find_owner s _ _) as [target|].
  { intros Hf. eapply Harr; [done|]. by eapply drives_forward. }
  pose proof (drives_cross w ep s req n Hs) as Hcross.
  destruct (check_cross_cluster _ _ _ _ _ _ _ _) as [w1 [[resp|]|e]].
  1,3: intros [= <- <-]; by eapply Harr.
  destruct Hcross as [Hs1 Hcross]. intros Hk. eapply Harr; [done|]. eapply drives_trans; [exact Hcross|].
  eapply drives_step; [cbn; unfold local_step, at_silo; rewrite Hs1; done|].
  destruct (already_local s req).
  { destruct (local_dispatch s req) as [s2 r2] eqn:Ed. injection Hk as <- <-.
    pose proof (drives_dispatch w1 ep s req n Hs1) as Hd. by rewrite Ed in Hd. }
  eapply drives_step; [cbn; unfold lookup_start_step, at_silo; rewrite Hs1; done|].
  eapply drives_trans; [by apply drives_lookup|]. unfold lookup_grain_cluster_wide in Hk.
  destruct (lookup_tasks connects w1 _ _ _ _) as [pool [target|]]; cbn [fst snd].
  - eapply drives_forward; [exact IH|apply set_silo_lookup|].
    revert Hk. unfold forward. rewrite !set_silo_set.
    destruct (ConnectionPool_get_transport _ _ _) as [q []]; by rewrite ?set_silo_set.
  - destruct (local_dispatch (with_pool s pool) req) as [s2 r2] eqn:Ed. injection Hk as <- <-.
    pose proof (drives_dispatch (set_silo w1 ep (with_pool s pool)) ep (with_pool s pool) req n (set_silo_lookup _ _ _)) as Hd.
    by rewrite Ed, set_silo_set in Hd.
Qed.

(** A call that nothing interrupts is the call of [invoke]: its accesses, one after the
    other, reach the outcome of [invoke] and leave the same world, on every path of the handler
    (refused, forwarded by the ring or by the lookup, answered by another cluster, dispatched). *)
Theorem uninterrupted_call w ep md req :
  ∃ w' r n, invoke' 4 w ep md req = Some (w', r) ∧
    drive n w (mkFlight (Arrived ep md req) 0) = (w', mkFlight (Answered r) 0).
Proof.
  destruct (invoke_fuel connects parses arrival status_display rpc_failure now 4 w ep md req) as [[w' r] Hi].
  { pose proof (hop_count_nonneg req). unfold hops_left, MAX_HOPS. lia. }
  destruct (drives_invoke 4 w ep md req 0 w' r Hi) as [n Hn]. eauto.
Qed.
End uninterrupted.
