(* ===== verification/MultiCluster.v ===== *)
(** * One cluster per grain

    Several clusters that share a cross-cluster directory ([transport.rs] with its cross-cluster check,
    [cluster_gateway.rs], [cross_cluster_directory.rs]): the first cluster in which a grain is
    called claims it, and the others forward their calls there. *)
From S2P Require Import Prelude CoreTypes HashRing Mailbox Directory Auth Swim Membership.
From S2P Require Import CrossCluster Registry Transport CallsInFlight.

Section clusters.
Context (connects parses : string → bool) (arrival : list SiloAddress → list (SiloAddress * bool)).
Context (status_display : Status → string) (rpc_failure : Status) (now : Z).
Abbreviation invoke' := (invoke connects parses arrival status_display rpc_failure now).
Context (Harr : ∀ l, arrival l ≡ₚ all_answer l).
(** The cluster of each endpoint, and the grain. *)
Context (cl : string → ClusterId) (gt gk : string).
Abbreviation g := (mkGrainId gt gk).

(** The silo at [ep] is a cluster of its own, without authentication: its ring has nobody else on it, it
    knows the grain type, which may live anywhere, and its peers are filed under their cluster ids. *)
Record lone_silo (ep : string) (s : Silo) : Prop := {
  ls_auth : sl_auth s = None;
  ls_ring : filter (λ m, silo_id m ≠ sl_local_silo_id s) (HashRing_members (sl_ring s)) = [];
  ls_owner : find_owner s gt gk = None;
  ls_type : grain_types (sl_registry s) !! gt = Some gt;
  ls_residency : registry_allowed_clusters (sl_registry s) gt = None;
  ls_cross : ∃ peers, sl_cross s = Some (cl ep, peers) ∧ ∀ c target, peers !! c = Some target → cl target = c }.

(** All clusters know each other. *)
Definition acquainted (w : World) : Prop :=
  ∀ ep s peers ep', w_silos w !! ep = Some s → sl_cross s = Some (cl ep, peers) → is_Some (w_silos w !! ep') →
    cl ep' = cl ep ∨ is_Some (peers !! cl ep').

(** Who may have the grain: only the cluster that the directory names, and every cluster knows
    where that one is. *)
Record clusters_ok (w : World) : Prop := {
  co_silos : map_Forall lone_silo (w_silos w);
  co_acquainted : acquainted w;
  co_reachable : ds_outages (w_ccd w) = [];
  co_active : ∀ ep s, w_silos w !! ep = Some s → active_at s gt gk = true →
    ∃ o, ccd_lookup (ds_entries (w_ccd w)) g = Some o ∧ own_cluster o = cl ep;
  co_known : ∀ ep s o peers, w_silos w !! ep = Some s → ccd_lookup (ds_entries (w_ccd w)) g = Some o →
    sl_cross s = Some (cl ep, peers) → own_cluster o = cl ep ∨ is_Some (peers !! own_cluster o) }.

(** A silo changed in what it runs, or in its pool. *)
Definition same_silo (s s' : Silo) : Prop := ∃ rt p, s' = with_pool (with_runtime s rt) p.

Lemma lone_silo_same ep s s' : same_silo s s' → lone_silo ep s → lone_silo ep s'.
Proof. intros (rt & p & ->) [H1 H2 H3 H4 H5 H6]. by split. Qed.

Lemma same_silo_pool s p : same_silo s (with_pool s p).
Proof. exists (sl_runtime s), p. by destruct s. Qed.

Lemma same_silo_dispatch s req : same_silo s (local_dispatch s req).1.
Proof.
  unfold local_dispatch. destruct (MessageRegistry_dispatch _ _ _ _ _ _ _ _ _) as [rt res].
  exists rt, (sl_pool s). by rewrite <- (with_pool_self (with_runtime s rt)) at 1.
Qed.

(** A step at one silo keeps the clusters in order, if the grain becomes active there only when the
    directory says so. *)
Lemma clusters_ok_set w ep s s' :
  clusters_ok w → w_silos w !! ep = Some s → same_silo s s' →
  (active_at s' gt gk = true → active_at s gt gk = true ∨
     ∃ o, ccd_lookup (ds_entries (w_ccd w)) g = Some o ∧ own_cluster o = cl ep) →
  clusters_ok (set_silo w ep s').
Proof.
  intros [H1 Haq H2 H3 H4] Hs Hss Hact. split; [| |done|..]; cbn.
  - apply map_Forall_insert_2; [|done]. eapply lone_silo_same; [exact Hss|by apply H1].
  - destruct Hss as (rt & p & ->). intros ep1 s1 peers ep2 Hs1 Hx Hs2. cbn in Hs1, Hs2.
    assert (is_Some (w_silos w !! ep2)) as Hs2'.
    { destruct (decide (ep = ep2)) as [<-|]; [by rewrite Hs|by rewrite lookup_insert_ne in Hs2]. }
    rewrite lookup_insert in Hs1. case_decide as He; [|by eapply Haq]. subst ep1. injection Hs1 as <-.
    exact (Haq ep s peers ep2 Hs Hx Hs2').
  - intros ep' s0. rewrite lookup_insert. case_decide as He; [|by apply H3].
    subst ep'. intros [= <-] Ha. destruct (Hact Ha) as [Ha'|?]; [exact (H3 _ _ Hs Ha')|done].
  - intros ep' s0 o peers. rewrite lookup_insert. case_decide as He; [|by apply H4].
    subst ep'. intros [= <-] Ho Hx. destruct Hss as (rt & p & ->). exact (H4 ep s o peers Hs Ho Hx).
Qed.

Lemma clusters_ok_pool w ep s p :
  clusters_ok w → w_silos w !! ep = Some s → clusters_ok (set_silo w ep (with_pool s p)).
Proof. intros Hw Hs. eapply clusters_ok_set; eauto using same_silo_pool. Qed.

(** The first claim. *)
Lemma clusters_ok_claim w ep s :
  clusters_ok w → w_silos w !! ep = Some s → ccd_lookup (ds_entries (w_ccd w)) g = None →
  let w' := mkWorld (w_silos w) (dir_register now g (cl ep) 1 (w_ccd w)).1 in
  clusters_ok w' ∧ ccd_lookup (ds_entries (w_ccd w')) g = Some (mkOwn (cl ep) 1 now).
Proof.
  intros [H1 Haq H2 H3 H4] Hs Hnone.
  assert (ccd_lookup (ds_entries (dir_register now g (cl ep) 1 (w_ccd w)).1) g = Some (mkOwn (cl ep) 1 now) ∧
          ds_outages (dir_register now g (cl ep) 1 (w_ccd w)).1 = []) as [Hl Ho].
  { destruct (w_ccd w) as [d outs]. cbn in H2, Hnone |- *. subst outs. unfold ds_call. cbn.
    pose proof (register_lookup now d g (cl ep) 1) as Hl. rewrite register_spec, Hnone in Hl.
    destruct (ccd_register now d g (cl ep) 1) as [d' o]. done. }
  cbn zeta. split; [|exact Hl]. split; [done|done|exact Ho|..]; cbn [w_silos w_ccd].
  - intros ep' s' Hs' Ha. destruct (H3 _ _ Hs' Ha) as (o & Ho' & _). congruence.
  - intros ep' s' o peers Hs' Ho' Hx. rewrite Hl in Ho'. injection Ho' as <-. cbn.
    destruct (Haq ep' s' peers ep Hs' Hx) as [Heq|?]; [by rewrite Hs|left|right]; done.
Qed.

(** A call forwarded to the cluster that owns the grain. *)
Lemma forward_to_cluster_ok w ep s target req o w' r :
  clusters_ok w → w_silos w !! ep = Some s → iv_grain_type req = gt → iv_grain_key req = gk →
  ccd_lookup (ds_entries (w_ccd w)) g = Some o → own_cluster o = cl target →
  forward_to_cluster connects status_display rpc_failure w ep s target req = (w', r) →
  clusters_ok w' ∧ w_ccd w' = w_ccd w.
Proof.
  intros Hw Hs Hgt Hgk Ho Hc. unfold forward_to_cluster.
  destruct (ConnectionPool_get_gateway connects (sl_pool s) target) as [p []].
  2:{ intros [= <- <-]. split; [by apply clusters_ok_pool|done]. }
  pose proof (clusters_ok_pool w ep s p Hw Hs) as Hw1.
  destruct (w_silos (set_silo w ep (with_pool s p)) !! target) as [peer|] eqn:Hp; [|by intros [= <- <-]].
  destruct (sl_cross peer) as [x|]; [|by intros [= <- <-]]. unfold forward_invoke.
  destruct (oversized req).
  { intros [= <- <-]. rewrite set_silo_id by done. done. }
  pose proof (same_silo_dispatch peer req) as Hss. destruct (local_dispatch peer req) as [peer' r']. cbn in Hss.
  intros [= <- <-]. split; [|done]. eapply clusters_ok_set; [done|exact Hp|done|]. intros _. right. by exists o.
Qed.

(** The cross-cluster check: afterwards the call is answered, or the directory names this cluster. *)
Lemma check_cross_ok w ep s req w' r :
  clusters_ok w → w_silos w !! ep = Some s → iv_grain_type req = gt → iv_grain_key req = gk →
  check_cross_cluster connects status_display rpc_failure now w ep s req = (w', r) →
  clusters_ok w' ∧
  (r = Ok None → w_silos w' !! ep = Some s ∧
     ∃ o, ccd_lookup (ds_entries (w_ccd w')) g = Some o ∧ own_cluster o = cl ep).
Proof.
  intros Hw Hs Hgt Hgk. destruct (co_silos _ Hw _ _ Hs) as [_ _ _ Hty Hresd (peers & Hx & Hpeers)].
  unfold check_cross_cluster, cross_verdict. rewrite Hx. unfold resolve_grain_type. rewrite Hgt, Hgk, Hty, Hresd.
  assert (dir_lookup g (w_ccd w) = (w_ccd w, Ok (ccd_lookup (ds_entries (w_ccd w)) g))) as ->.
  { pose proof (co_reachable _ Hw) as Hr. destruct (w_ccd w) as [d outs]. cbn in Hr |- *. subst outs. done. }
  assert (mkWorld (w_silos w) (w_ccd w) = w) as -> by (by destruct w).
  destruct (ccd_lookup (ds_entries (w_ccd w)) g) as [o|] eqn:Ho.
  - case_bool_decide as Hc; [intros [= <- <-]; split; [done|intros _]; split; [done|by exists o]|].
    destruct (co_known _ Hw _ _ _ _ Hs Ho Hx) as [?|[target Ht]]; [done|]. rewrite Ht.
    destruct (forward_to_cluster _ _ _ w ep s target req) as [w1 r1] eqn:Ef.
    destruct (forward_to_cluster_ok w ep s target req o w1 r1) as [Hok _]; try done; [by rewrite (Hpeers _ _ Ht)|].
    destruct r1 as [resp|e]; intros [= <- <-]; split; done.
  - intros [= <- <-]. destruct (clusters_ok_claim w ep s Hw Hs Ho) as [H1 H2].
    split; [done|]. intros _. split; [done|]. by eexists.
Qed.

Lemma invoke_clusters_ok n w ep md req w' r :
  clusters_ok w → iv_grain_type req = gt → iv_grain_key req = gk →
  invoke' n w ep md req = Some (w', r) → clusters_ok w'.
Proof.
  intros Hw Hgt Hgk. destruct n as [|n]; [done|]. cbn [invoke].
  destruct (w_silos w !! ep) as [s|] eqn:Hs; [|by intros [= <- _]].
  destruct (co_silos _ Hw _ _ Hs) as [Ha Hring Hown _ _ _]. rewrite Ha. cbn [check_auth].
  destruct (oversized req); [by intros [= <- _]|]. rewrite Hgt, Hgk, Hown.
  destruct (check_cross_cluster _ _ _ _ _ _ _ _) as [w1 c] eqn:Ec.
  destruct (check_cross_ok w ep s req w1 c Hw Hs Hgt Hgk Ec) as [Hw1 Hhere].
  destruct c as [[resp|]|e]; [by intros [= <- _]| |by intros [= <- _]].
  destruct (Hhere eq_refl) as [Hs1 Hmine]. unfold lookup_grain_cluster_wide. rewrite Hring.
  rewrite (proj1 (Permutation_nil_r _) (Harr [])). cbn [lookup_tasks]. rewrite with_pool_self.
  pose proof (same_silo_dispatch s req) as Hss. destruct (local_dispatch s req) as [s1 r1]. cbn in Hss.
  assert (clusters_ok (set_silo w1 ep s1)) as Hfin by (eapply clusters_ok_set; eauto).
  destruct (already_local s req); by intros [= <- _].
Qed.

(** Steps of the clusters: a call of the grain anywhere, and anything else a silo does short of
    activating the grain. *)
Inductive clusters_step : World → World → Prop :=
| cl_call n w ep md req w' r :
    iv_grain_type req = gt → iv_grain_key req = gk → invoke' n w ep md req = Some (w', r) → clusters_step w w'
| cl_silo w ep s s' :
    w_silos w !! ep = Some s → same_silo s s' → (active_at s' gt gk = true → active_at s gt gk = true) →
    clusters_step w (set_silo w ep s').

Lemma clusters_step_ok w w' : clusters_step w w' → clusters_ok w → clusters_ok w'.
Proof.
  intros [n w0 ep md req w1 r Hgt Hgk Hi|w0 ep s s' Hs Hss Hact] Hw; [by eapply invoke_clusters_ok|].
  eapply clusters_ok_set; eauto.
Qed.

End clusters.

(** ** Two clusters of one silo each *)
Definition cluster_of (ep : string) : ClusterId := if bool_decide (ep = endpoint silo_a) then eu else us.
Definition cluster_silo (addr : SiloAddress) (peers : gmap ClusterId string) : Silo :=
  mkSiloState echo_registry Runtime_new
    (MembershipService_new 0 (mkNode (SwimState_new addr) (HashRing_add (HashRing_new 2) addr) ConnectionPool_new []) 3 None)
    (Some (cluster_of (endpoint addr), peers)).
Definition two_clusters (outages : list bool) : World :=
  mkWorld (<[endpoint silo_a := cluster_silo silo_a {[us := endpoint silo_b]}]>
             {[endpoint silo_b := cluster_silo silo_b {[eu := endpoint silo_a]}]}) (mkDirService ∅ outages).

Lemma two_clusters_cases (P : string → Silo → Prop) outages :
  P (endpoint silo_a) (cluster_silo silo_a {[us := endpoint silo_b]}) →
  P (endpoint silo_b) (cluster_silo silo_b {[eu := endpoint silo_a]}) →
  map_Forall P (w_silos (two_clusters outages)).
Proof. intros Ha Hb. apply map_Forall_insert_2; [done|]. by apply map_Forall_singleton. Qed.

Lemma two_clusters_ok : clusters_ok cluster_of "Echo" "k" (two_clusters []).
Proof.
  split.
  - apply two_clusters_cases; (split; [vm_compute; reflexivity..|]);
      (eexists; split; [reflexivity|]); intros c t [<- <-]%lookup_singleton_Some; vm_compute; reflexivity.
  - assert (∀ ep', is_Some (w_silos (two_clusters []) !! ep') → ep' = endpoint silo_a ∨ ep' = endpoint silo_b) as Hdom.
    { intros ep' [s Hs].
      exact (two_clusters_cases (λ ep _, ep = endpoint silo_a ∨ ep = endpoint silo_b) [] (or_introl eq_refl)
               (or_intror eq_refl) ep' s Hs). }
    intros ep s peers ep' Hs Hx Hep'%Hdom. revert peers Hx. pattern ep, s.
    eapply (two_clusters_cases _ []); [..|exact Hs]; cbv beta; intros peers [= <-];
      destruct Hep' as [->| ->]; first [by left|right; by vm_compute; eauto].
  - reflexivity.
  - refine (two_clusters_cases (λ ep s, active_at s "Echo" "k" = true → _) [] _ _); intros H; vm_compute in H; discriminate.
  - intros ep s o peers _ Ho. vm_compute in Ho. discriminate.
Qed.

(** Whether the grain is active at both silos after two calls, one in each cluster. *)
Definition echo_active (w : World) (ep : string) : bool :=
  match w_silos w !! ep with Some s => active_at s "Echo" "k" | None => false end.
Definition call_both (outages : list bool) : option World :=
  '(w, _) ← demo_invoke 4 (two_clusters outages) (endpoint silo_b) None demo_request;
  '(w, _) ← demo_invoke 4 w (endpoint silo_a) None demo_request;
  Some w.
Definition both_active (o : option World) : option (bool * bool) :=
  (λ w, (echo_active w (endpoint silo_a), echo_active w (endpoint silo_b))) <$> o.

Lemma both_active_Some o p : both_active o = Some p → ∃ w, o = Some w ∧
  (echo_active w (endpoint silo_a), echo_active w (endpoint silo_b)) = p.
Proof. destruct o as [w|]; [|done]. cbn. intros [= <-]. by exists w. Qed.


(** The directory must be reachable: when the lookup of the second call fails, it is handled where it arrived, and
    the grain is active in both clusters. *)
Example directory_outage_duplicates : both_active (call_both [false; false; true]) = Some (true, true).
Proof. vm_compute. reflexivity. Qed.

(** The answer of the claim matters: two first calls at the same time, one in each cluster.  Both find the grain
    unowned; the claim of the second loses, its caller does not look at the answer and activates the grain as well. *)
Abbreviation flight_drive :=
  (drive (λ _, true) (λ _, true) all_answer (λ _, "remote status") (StatusOther "no answer") 0).
Definition first_call (addr : SiloAddress) : Flight := mkFlight (Arrived (endpoint addr) None demo_request) 0.
Definition claim_race : World * Flight * Flight :=
  let '(w, fa) := flight_drive 2 (two_clusters []) (first_call silo_a) in
  let '(w, fb) := flight_drive 7 w (first_call silo_b) in
  let '(w, fa) := flight_drive 5 w fa in (w, fa, fb).

Example claim_race_duplicates :
  completed claim_race.1.2 ∧ completed claim_race.2 ∧
  both_active (Some claim_race.1.1) = Some (true, true) ∧
  own_cluster <$> ccd_lookup (ds_entries (w_ccd claim_race.1.1)) (mkGrainId "Echo" "k") = Some us.
Proof.
  split_and!; [| |vm_compute; reflexivity|vm_compute; reflexivity];
    (split; [vm_compute; reflexivity|eexists; vm_compute; reflexivity]).
Qed.
