(* ===== verification/ClusterRef.v ===== *)
(** Cluster-wide grain references ([orlando-cluster/src/cluster_grain_ref.rs]) and their retry policy
    ([retry.rs]): a call through a reference to a remote grain is encoded, sent through the
    transport of the owning silo, retried on transient errors, and decoded. *)
From Stdlib Require Import Ascii.
From S2P Require Import Prelude CoreTypes HashRing Mailbox Directory Calls Auth Swim Membership.
From S2P Require Import CrossCluster Replication Registry Transport.

(** * The retry policy.  A [Duration] is its number of nanoseconds. *)
Record RetryPolicy := mkRetry { max_retries : nat; base_delay : Z; max_delay : Z }.

Definition duration_max : Z := (u64_mod - 1) * 1000000000 + 999999999.
Definition saturating_mul (d k : Z) : Z := Z.min (d * k) duration_max.

Definition RetryPolicy_default : RetryPolicy := mkRetry 2 (100 * 1000000) (2 * 1000000000).
Definition RetryPolicy_none : RetryPolicy :=
  mkRetry 0 (base_delay RetryPolicy_default) (max_delay RetryPolicy_default).
Definition RetryPolicy_with_retries (n : nat) : RetryPolicy :=
  mkRetry n (base_delay RetryPolicy_default) (max_delay RetryPolicy_default).

Definition is_retryable (e : GrainError) : bool :=
  match e with RemoteCallFailed _ | Timeout _ | MailboxClosed => true | _ => false end.

Definition delay_for_attempt (p : RetryPolicy) (attempt : nat) : Z :=
  Z.min (saturating_mul (base_delay p) (Z.shiftl 1 (Z.min (Z.of_nat attempt) 10))) (max_delay p).

(** * References *)
Inductive RefInner :=
| RefLocal (sender : Sender)
| RefRemote (ep grain_type grain_key : string).

Record ClusterGrainRef := mkClusterRef {
  cr_inner : RefInner;
  cr_retry : RetryPolicy;
  cr_replicas : option ReplicaStore;
  cr_max_staleness : Z (** nanoseconds *) }.

Definition ClusterGrainRef_local (sender : Sender) : ClusterGrainRef :=
  mkClusterRef (RefLocal sender) RetryPolicy_default None 0.
Definition ClusterGrainRef_remote (ep grain_type grain_key : string) : ClusterGrainRef :=
  mkClusterRef (RefRemote ep grain_type grain_key) RetryPolicy_default None 0.
Definition with_retry_policy (c : ClusterGrainRef) (p : RetryPolicy) : ClusterGrainRef :=
  mkClusterRef (cr_inner c) p (cr_replicas c) (cr_max_staleness c).
Definition with_replica_store (c : ClusterGrainRef) (s : ReplicaStore) (staleness : Z)
    : ClusterGrainRef := mkClusterRef (cr_inner c) (cr_retry c) (Some s) staleness.

(** The retry loop of [ask] over a world [W]: [once] is one attempt, [elapse d] what the rest of the
    system does while the caller sleeps for [d].  Also returns the delays slept. *)
Section retry.
Context {W R : Type} (once : W → W * result GrainError R) (elapse : Z → W → W).
Context (policy : RetryPolicy).

Fixpoint ask_attempts (left : nat) (attempt : nat) (w : W)
    : W * result GrainError R * list Z :=
  match once w with
  | (w, Ok value) => (w, Ok value, [])
  | (w, Err e) =>
      match left with
      | S left' =>
          if is_retryable e then
            let delay := delay_for_attempt policy attempt in
            let '(w, r, delays) := ask_attempts left' (S attempt) (elapse delay w) in
            (w, r, delay :: delays)
          else (w, Err e, [])
      | O => (w, Err e, [])
      end
  end.
End retry.

(** * Remote calls *)
Section remote.
Context (connects parses : string → bool) (arrival : list SiloAddress → list (SiloAddress * bool)).
Context (status_display : Status → string) (rpc_failure : Status) (now : Z).
Abbreviation invoke' := (invoke connects parses arrival status_display rpc_failure now).
Context {M R : Type} `{Countable M} (gt : GrainType) (nm : NetworkMessage M R).

(** The request of [remote_invoke] and [remote_invoke_oneway]. *)
Definition remote_request (grain_type grain_key : string) (payload : bytes)
    (ctx : gmap string string) : InvokeRequest :=
  mkInvoke grain_type grain_key (message_type_name nm) payload 0 ctx (message_version nm).

(** Calling the silo at [target] from the silo at [from], up to the received response. *)
Definition call_transport (w : World) (from target : string) (req : InvokeRequest)
    : World * result GrainError InvokeResponse :=
  match w_silos w !! from with
  | None => (w, Err (RemoteCallFailed "caller is gone"))
  | Some s =>
      match ConnectionPool_get_transport connects (sl_pool s) target with
      | (p, false) =>
          (set_silo w from (with_pool s p), Err (RemoteCallFailed "connection failed"))
      | (p, true) =>
          match invoke' 4 (set_silo w from (with_pool s p)) target (authorized_request parses p) req with
          | Some (w, Ok r) =>
              (w, if bool_decide (rs_error r ≠ "") then Err (RemoteCallFailed (rs_error r)) else Ok r)
          | Some (w, Err e) => (w, Err (RemoteCallFailed (status_display e)))
          | None => (w, Err (RemoteCallFailed ""))
          end
      end
  end.

(** [remote_invoke] *)
Definition remote_invoke (from target grain_type grain_key : string) (payload : bytes)
    (ctx : RequestContext) (w : World) : World * result GrainError R :=
  match call_transport w from target
          (remote_request grain_type grain_key payload (RequestContext_to_map ctx)) with
  | (w, Err e) => (w, Err e)
  | (w, Ok r) => (w, map_err RemoteCallFailed (bincode_decode_result nm (rs_payload r)))
  end.

(** [remote_invoke_oneway] *)
Definition remote_invoke_oneway (from target grain_type grain_key : string) (payload : bytes)
    (ctx : gmap string string) (w : World) : World * result GrainError unit :=
  match call_transport w from target (remote_request grain_type grain_key payload ctx) with
  | (w, Err e) => (w, Err e)
  | (w, Ok _) => (w, Ok ())
  end.

(** What a mailbox that has accepted the given messages answers the next one with, and what
    happens during a sleep. *)
Context (reply : list Delivery → RequestContext → M → Oneshot R) (elapse : Z → World → World).

(** A call to a grain of the silo at [from]: [GrainRef::new(sender).ask(msg)]. *)
Definition local_ask (from : string) (sender : Sender) (ctx : RequestContext) (msg : M) (w : World)
    : World * result GrainError R :=
  match w_silos w !! from with
  | None => (w, Err MailboxClosed)
  | Some s =>
      let '(rt, r) := ask_sender gt nm reply (sl_runtime s) sender ctx msg in
      (set_silo w from (with_runtime s rt), r)
  end.

(** [ClusterGrainRef::ask], with the delays slept between attempts. *)
Definition ClusterGrainRef_ask (c : ClusterGrainRef) (from : string) (ctx : RequestContext) (msg : M)
    (w : World) : World * result GrainError R * list Z :=
  match cr_inner c with
  | RefLocal sender => let '(w, r) := local_ask from sender ctx msg w in (w, r, [])
  | RefRemote ep grain_type grain_key =>
      match bincode_encode nm msg with
      | Err e => (w, Err (RemoteCallFailed e), [])
      | Ok payload =>
          ask_attempts (remote_invoke from ep grain_type grain_key payload ctx) elapse (cr_retry c)
            (max_retries (cr_retry c)) 0 w
      end
  end.

(** [ClusterGrainRef::tell]: the result the caller sees, and the world once the spawned task of a
    remote target has run. *)
Definition ClusterGrainRef_tell (c : ClusterGrainRef) (from : string) (ctx : RequestContext) (msg : M)
    (w : World) : World * result GrainError unit :=
  match cr_inner c with
  | RefLocal sender =>
      match w_silos w !! from with
      | None => (w, Err MailboxClosed)
      | Some s =>
          let rt := sl_runtime s in
          let '(r, evs) := GrainRef_tell (GrainRef_new (gt_grain_type_name gt)) (message_type_name nm)
                             (sender_channel rt sender) in
          (if bool_decide (EvEnqueued ∈ evs)
           then set_silo w from (with_runtime s
                  (enqueue rt sender (mkDelivery (message_type_name nm) (values ctx) (encode msg))))
           else w, r)
      end
  | RefRemote ep grain_type grain_key =>
      match bincode_encode nm msg with
      | Err e => (w, Err (RemoteCallFailed e))
      | Ok payload =>
          ((remote_invoke_oneway from ep grain_type grain_key payload (RequestContext_to_map ctx) w).1,
           Ok ())
      end
  end.

(** The answer of a fresh replica, if there is one that decodes to the result type; [now_ms] is
    the wall clock in milliseconds. *)
Definition replica_answer (c : ClusterGrainRef) (now_ms : Z) : option R :=
  match cr_replicas c, cr_inner c with
  | Some store, RefRemote _ grain_type grain_key =>
      let staleness_millis := as_i64 (cr_max_staleness c / 1000000) in
      if bool_decide (0 < staleness_millis)
         && ReplicaStore_is_fresh now_ms store grain_type grain_key staleness_millis then
        match ReplicaStore_get store grain_type grain_key with
        | Some entry => res_ok (bincode_decode_result nm (rp_payload entry))
        | None => None
        end
      else None
  | _, _ => None
  end.

(** [ClusterGrainRef::read_only_ask] *)
Definition ClusterGrainRef_read_only_ask (c : ClusterGrainRef) (from : string) (ctx : RequestContext)
    (now_ms : Z) (msg : M) (w : World) : World * result GrainError R * list Z :=
  match replica_answer c now_ms with
  | Some r => (w, Ok r, [])
  | None => ClusterGrainRef_ask c from ctx msg w
  end.
End remote.

(** * Retries *)
Section retry_spec.
Context {W R : Type} (once : W → W * result GrainError R) (elapse : Z → W → W).
Context (policy : RetryPolicy).

(** The world in which attempt [a + k] runs, when attempt [a] runs in [w]. *)
Fixpoint world_at (a k : nat) (w : W) : W :=
  match k with
  | O => w
  | S k' => elapse (delay_for_attempt policy (a + k')) (once (world_at a k' w)).1
  end.

Lemma world_at_S a k w :
  world_at a (S k) w = world_at (S a) k (elapse (delay_for_attempt policy a) (once w).1).
Proof.
  revert w. induction k as [|k IH]; intros w; cbn [world_at]; [by rewrite Nat.add_0_r|].
  rewrite <- IH. cbn [world_at]. by rewrite Nat.add_succ_comm.
Qed.

(** An outcome after which the loop goes on if attempts are left. *)
Definition transient (r : result GrainError R) : bool :=
  match r with Err e => is_retryable e | Ok _ => false end.

Lemma ask_attempts_spec left a w :
  ∃ k, (k ≤ left)%nat ∧
    ask_attempts once elapse policy left a w =
      ((once (world_at a k w)).1, (once (world_at a k w)).2, delay_for_attempt policy <$> seq a k) ∧
    (∀ j, (j < k)%nat → transient (once (world_at a j w)).2 = true) ∧
    (k = left ∨ transient (once (world_at a k w)).2 = false).
Proof.
  revert a w. induction left as [|left IH]; intros a w; cbn [ask_attempts].
  - exists 0%nat. cbn. destruct (once w) as [w' [v|e]]; (split_and!; [lia|done|lia|by left]).
  - destruct (once w) as [w' [v|e]] eqn:E.
    { exists 0%nat. cbn. rewrite E. split_and!; [lia|done|lia|by right]. }
    destruct (is_retryable e) eqn:He.
    + destruct (IH (S a) (elapse (delay_for_attempt policy a) w')) as (k & Hk & -> & Hj & Hend).
      assert (∀ i, world_at a (S i) w = world_at (S a) i (elapse (delay_for_attempt policy a) w')) as Hw
        by (intros i; by rewrite world_at_S, E).
      exists (S k). rewrite Hw. split_and!; [lia|done| |].
      * intros [|j] Hlt; [cbn; by rewrite E|]. rewrite Hw. apply Hj. lia.
      * destruct Hend as [->|]; auto.
    + exists 0%nat. cbn. rewrite E. split_and!; [lia|done|lia|by right].
Qed.

Lemma delay_bounds a :
  0 ≤ base_delay policy → 0 ≤ max_delay policy → 0 ≤ delay_for_attempt policy a ≤ max_delay policy.
Proof.
  intros Hb Hm. unfold delay_for_attempt, saturating_mul, duration_max, u64_mod.
  assert (0 ≤ Z.shiftl 1 (Z.min (Z.of_nat a) 10)) by (by apply Z.shiftl_nonneg). nia.
Qed.

(** The retry loop.  [ask] makes at most [max_retries + 1] attempts; it returns the outcome of
    the first one that is not a transient error, or of the last one; every attempt before it failed with
    a transient error; and it slept exactly the backoff delays of those attempts, each
    between zero and [max_delay], doubling from [base_delay] up to the tenth retry. *)
Theorem retry_loop w :
  0 ≤ base_delay policy ≤ max_delay policy → max_delay policy ≤ duration_max →
  ∃ k, (k ≤ max_retries policy)%nat ∧
    ask_attempts once elapse policy (max_retries policy) 0 w =
      ((once (world_at 0 k w)).1, (once (world_at 0 k w)).2, delay_for_attempt policy <$> seq 0 k) ∧
    (∀ j, (j < k)%nat → transient (once (world_at 0 j w)).2 = true) ∧
    (k = max_retries policy ∨ transient (once (world_at 0 k w)).2 = false) ∧
    Forall (λ d, 0 ≤ d ≤ max_delay policy) (delay_for_attempt policy <$> seq 0 k) ∧
    (∀ j, (j ≤ 10)%nat → base_delay policy * 2 ^ Z.of_nat j ≤ max_delay policy →
       delay_for_attempt policy j = base_delay policy * 2 ^ Z.of_nat j).
Proof.
  intros Hb Hm. destruct (ask_attempts_spec (max_retries policy) 0 w) as (k & Hk & Heq & Hj & Hend).
  exists k. split_and!; try done.
  - apply Forall_fmap, Forall_forall. intros j _. apply delay_bounds; lia.
  - intros j Hj10 Hle. unfold delay_for_attempt, saturating_mul.
    rewrite (Z.min_l (Z.of_nat j) 10) by lia. rewrite Z.shiftl_mul_pow2, Z.mul_1_l by lia. lia.
Qed.
End retry_spec.

Lemma retry_loop_witness :
  let once (n : nat) : nat * result GrainError nat :=
    if decide (n < 2)%nat then (S n, Err (Timeout 5)) else (S n, Ok n) in
  ask_attempts once (λ _ n, n) RetryPolicy_default 2 0 0%nat = (3%nat, Ok 2%nat, [100000000; 200000000]).
Proof.
  intros once.
  destruct (retry_loop once (λ _ n, n) RetryPolicy_default 0%nat) as (k & Hk & H & Hj & Hend & _).
  - vm_compute. split; discriminate.
  - vm_compute. discriminate.
  - change (max_retries RetryPolicy_default) with 2%nat in *. rewrite H.
    destruct k as [|[|[|k]]].
    + destruct Hend as [?|Hf]; [discriminate|vm_compute in Hf; discriminate].
    + destruct Hend as [?|Hf]; [discriminate|vm_compute in Hf; discriminate].
    + vm_compute. reflexivity.
    + lia.
Defined.

(** * Location transparency *)
Section transparency.
Context (connects parses : string → bool) (arrival : list SiloAddress → list (SiloAddress * bool)).
Context (status_display : Status → string) (rpc_failure : Status) (now : Z).
Context (Hconn : ∀ uri, connects uri = true).
Context {M R : Type} `{Countable M} (gd : GrainError → string) (gt : GrainType) (nm : NetworkMessage M R).
Context (reply : list Delivery → RequestContext → M → Oneshot R) (elapse : Z → World → World).
Abbreviation ask' := (ClusterGrainRef_ask connects parses arrival status_display rpc_failure now
                        gt nm reply elapse).
Abbreviation remote_invoke' := (remote_invoke connects parses arrival status_display rpc_failure now
                                  nm).

(** Every failure of a remote attempt is a [RemoteCallFailed], whatever went wrong, hence
    transient: if no attempt succeeds, all [max_retries + 1] are made. *)
Lemma remote_failure_transient from target t k payload ctx w :
  transient (remote_invoke' from target t k payload ctx w).2 =
    negb (is_ok (remote_invoke' from target t k payload ctx w).2).
Proof.
  unfold remote_invoke. destruct (call_transport _ _ _ _ _ _ _ _ _ _) as [w' [resp|e]] eqn:E; cbn.
  - by destruct (bincode_decode_result _ _).
  - unfold call_transport in E. repeat case_match; simplify_eq/=; done.
Qed.

Lemma failing_remote_call_is_repeated c from target t k payload ctx msg w :
  cr_inner c = RefRemote target t k → bincode_encode nm msg = Ok payload →
  (∀ w, is_ok (remote_invoke' from target t k payload ctx w).2 = false) →
  (ask' c from ctx msg w).2 = delay_for_attempt (cr_retry c) <$> seq 0 (max_retries (cr_retry c)).
Proof.
  intros Hc He Hf. unfold ClusterGrainRef_ask. rewrite Hc, He.
  destruct (ask_attempts_spec (remote_invoke' from target t k payload ctx) elapse (cr_retry c)
              (max_retries (cr_retry c)) 0 w) as (i & _ & -> & _ & Hend). cbn [snd].
  destruct Hend as [->|Hend]; [done|]. by rewrite remote_failure_transient, Hf in Hend.
Qed.

Context (r : HashRing) (auth : option SharedSecretAuth) (gk : string) (o : SiloAddress).
Context (Howner : HashRing_get r (slash (gt_grain_type_name gt) gk) = Some o).
Abbreviation converged' := (converged parses r auth (gt_grain_type_name gt) gk o).

(** The message as the mailbox holds it. *)
Definition delivery {M' R'} `{Countable M'} (nm' : NetworkMessage M' R') (ctx : RequestContext) (msg : M')
    : Delivery := mkDelivery (message_type_name nm') (values ctx) (encode msg).

(** The owner's side: a registered message that its mailbox answers. *)
Lemma local_dispatch_registered so ctx msg payload res b :
  registered gd gt nm reply (sl_registry so) →
  bincode_decode nm payload = Ok msg →
  is_in_call_chain ctx (mkGrainId (gt_grain_type_name gt) "") = false →
  let a := GrainDirectory_get_or_insert (sl_runtime so) (mkGrainId (gt_grain_type_name gt) gk) in
  is_closed a.1 a.2 = false → reply (inbox a.1 a.2) ctx msg = Replied (Some res) →
  bincode_encode_result nm res = Ok b →
  local_dispatch so (remote_request nm (gt_grain_type_name gt) gk payload (RequestContext_to_map ctx)) =
    (with_runtime so (enqueue a.1 a.2 (delivery nm ctx msg)), mkResponse b "" 0).
Proof.
  intros Hreg Hdec Hchain a Hopen Hrep Hb. unfold local_dispatch.
  cbn [remote_request iv_grain_type iv_grain_key iv_message_type
    iv_message_version iv_payload iv_encoding iv_request_context].
  rewrite (proj2 Hreg).
  rewrite bool_decide_false by lia. change (Encoding_from_proto 0) with Bincode.
  rewrite (dispatch_fn_ok gd gt nm reply gk payload msg (RequestContext_to_map ctx)
             (sl_runtime so) res b); try done.
  - unfold decode_message. by rewrite Hdec.
  - by destruct ctx.
Qed.

(** A call through a remote reference, in full. *)
Lemma remote_ask_owner w from s so policy ctx msg payload res b :
  converged' w → from ≠ endpoint o → w_silos w !! from = Some s → w_silos w !! endpoint o = Some so →
  registered gd gt nm reply (sl_registry so) →
  bincode_encode nm msg = Ok payload → bincode_decode nm payload = Ok msg →
  Z.of_nat (length payload) ≤ MAX_PAYLOAD_SIZE →
  is_in_call_chain ctx (mkGrainId (gt_grain_type_name gt) "") = false →
  let a := GrainDirectory_get_or_insert (sl_runtime so) (mkGrainId (gt_grain_type_name gt) gk) in
  is_closed a.1 a.2 = false → reply (inbox a.1 a.2) ctx msg = Replied (Some res) →
  bincode_encode_result nm res = Ok b → bincode_decode_result nm b = Ok res →
  let ref := with_retry_policy (ClusterGrainRef_remote (endpoint o) (gt_grain_type_name gt) gk) policy in
  ∃ w', ask' ref from ctx msg w = (w', Ok res, []) ∧ converged' w' ∧
    (∀ ep, sl_runtime <$> w_silos w' !! ep =
          if bool_decide (ep = endpoint o) then Some (enqueue a.1 a.2 (delivery nm ctx msg))
          else sl_runtime <$> w_silos w !! ep) ∧
    (∀ ep, sl_registry <$> w_silos w' !! ep = sl_registry <$> w_silos w !! ep).
Proof.
  intros Hw Hne Hs Hso Hreg Henc Hdec Hlen Hchain a Hopen Hrep Hb Hbd ref.
  destruct (get_transport_connected connects (sl_pool s) (endpoint o) Hconn) as (p & Hp & Hpt).
  destruct (proj1 Hw _ _ Hs) as (_ & _ & _ & Htok & _).
  set (w1 := set_silo w from (with_pool s p)).
  assert (converged' w1) as Hw1.
  { apply converged_set; [done|]. apply silo_converged_pool; [by apply (proj1 Hw)|done]. }
  set (req := remote_request nm (gt_grain_type_name gt) gk payload (RequestContext_to_map ctx)).
  destruct (invoke_at_owner connects parses arrival status_display rpc_failure now r auth
              (gt_grain_type_name gt) gk o Howner 3 w1 so (authorized_request parses p) req)
    as (q & Hi & Hq); try done.
  { unfold w1. cbn. by rewrite lookup_insert_ne. }
  { unfold authorized_request in *. by rewrite Hpt. }
  { unfold oversized. apply bool_decide_false. cbn. lia. }
  pose proof (local_dispatch_registered so ctx msg payload res b Hreg Hdec Hchain Hopen Hrep Hb)
    as Hld. fold req a in Hld.
  rewrite Hld in Hi. cbn [fst snd] in Hi.
  assert (remote_invoke' from (endpoint o) (gt_grain_type_name gt) gk payload ctx w =
            (set_silo w1 (endpoint o) (with_pool (with_runtime so (enqueue a.1 a.2 (delivery nm ctx msg))) q), Ok res)) as Hri.
  { unfold remote_invoke, call_transport. rewrite Hs, Hp. fold w1 req. rewrite Hi. cbn [rs_error].
    rewrite bool_decide_false by (intros Hx; by apply Hx). cbn [rs_payload]. by rewrite Hbd. }
  eexists. split_and!.
  - unfold ClusterGrainRef_ask, ref. cbn [with_retry_policy cr_inner cr_retry ClusterGrainRef_remote].
    rewrite Henc. destruct (max_retries policy); cbn [ask_attempts]; rewrite Hri; done.
  - apply converged_set; [done|]. apply silo_converged_pool; [|done].
    pose proof (silo_converged_dispatch parses r auth (gt_grain_type_name gt) gk o so req
                  (proj1 Hw _ _ Hso)) as Hd. by rewrite Hld in Hd.
  - intros ep. cbn. case_bool_decide as He; [subst; by rewrite lookup_insert_eq|].
    rewrite lookup_insert_ne by congruence.
    destruct (decide (from = ep)) as [<-|]; [by rewrite lookup_insert_eq, Hs|].
    by rewrite lookup_insert_ne.
  - intros ep. cbn. destruct (decide (ep = endpoint o)) as [->|]; [by rewrite lookup_insert_eq, Hso|].
    rewrite lookup_insert_ne by congruence.
    destruct (decide (from = ep)) as [<-|]; [by rewrite lookup_insert_eq, Hs|].
    by rewrite lookup_insert_ne.
Qed.

(** C5: location transparency.  In a converged cluster, asking a grain through a remote reference to its
    owner gives the caller exactly the reply that the grain's mailbox on the owning silo
    gives (message and result codecs being inverse on the values involved): the first
    attempt succeeds, the owner activates the grain through its directory, its mailbox receives the
    message exactly once and no mailbox of another silo receives anything, and the
    cluster stays converged. *)
Theorem remote_ask_transparent w from s so policy ctx msg payload res b :
  converged' w → from ≠ endpoint o → w_silos w !! from = Some s → w_silos w !! endpoint o = Some so →
  registered gd gt nm reply (sl_registry so) →
  bincode_encode nm msg = Ok payload → bincode_decode nm payload = Ok msg →
  Z.of_nat (length payload) ≤ MAX_PAYLOAD_SIZE →
  is_in_call_chain ctx (mkGrainId (gt_grain_type_name gt) "") = false →
  let a := GrainDirectory_get_or_insert (sl_runtime so) (mkGrainId (gt_grain_type_name gt) gk) in
  is_closed a.1 a.2 = false → reply (inbox a.1 a.2) ctx msg = Replied (Some res) →
  bincode_encode_result nm res = Ok b → bincode_decode_result nm b = Ok res →
  let ref := with_retry_policy (ClusterGrainRef_remote (endpoint o) (gt_grain_type_name gt) gk) policy in
  ∃ w', ask' ref from ctx msg w = (w', Ok res, []) ∧ converged' w' ∧
    (∀ ep, sl_runtime <$> w_silos w' !! ep =
          if bool_decide (ep = endpoint o) then Some (enqueue a.1 a.2 (delivery nm ctx msg))
          else sl_runtime <$> w_silos w !! ep) ∧
    (∀ ep, sl_registry <$> w_silos w' !! ep = sl_registry <$> w_silos w !! ep).
Proof. apply remote_ask_owner. Qed.
End transparency.

Lemma remote_ask_transparent_witness :
  ∃ w', ClusterGrainRef_ask (λ _, true) (λ _, true) all_answer (λ _, "remote status")
          (StatusOther "no answer") 0 echo_type echo echo_reply (λ _ w, w)
          (ClusterGrainRef_remote (endpoint silo_a) "Echo" "k") (endpoint silo_b) RequestContext_new
          [Byte.x2a] (demo_world Runtime_new Runtime_new) = (w', Ok [Byte.x2a], []).
Proof.
  destruct (remote_ask_transparent (λ _, true) (λ _, true) all_answer (λ _, "remote status")
              (StatusOther "no answer") 0 (λ _, eq_refl) no_display echo_type echo echo_reply
              (λ _ w, w) ring_ab None "k" silo_a eq_refl (demo_world Runtime_new Runtime_new)
              (endpoint silo_b) (demo_silo silo_b Runtime_new) (demo_silo silo_a Runtime_new)
              RetryPolicy_default RequestContext_new [Byte.x2a] [Byte.x2a]
              [Byte.x2a] [Byte.x2a] demo_converged) as (w' & H & _).
  - vm_compute. discriminate.
  - reflexivity.
  - reflexivity.
  - exact (registered_self _ _ _ _ _ _ echo_registered).
  - reflexivity.
  - reflexivity.
  - vm_compute. discriminate.
  - reflexivity.
  - vm_compute. reflexivity.
  - reflexivity.
  - reflexivity.
  - reflexivity.
  - exists w'. exact H.
Defined.
