(* ===== verification/TcpTransport.v ===== *)
(** * The TCP transport

    orlando-cluster [tcp_transport.rs]: grain calls between silos as length-delimited frames on a TCP
    connection.  The frame codec and bincode are libraries: a frame is one item of the stream, refused
    beyond the maximum length that [build_codec] sets, and the codecs are parameters. *)
From S2P Require Import Prelude CoreTypes HashRing Mailbox Directory Calls Auth Swim Membership.
From S2P Require Import CrossCluster Registry Transport.

(** ** Wire types *)
Record TcpInvokeRequest := mkTcpRequest {
  tq_request_id : Z;
  tq_grain_type : string;
  tq_grain_key : string;
  tq_message_type : string;
  tq_payload : bytes;
  tq_context : gmap string string }.

Record TcpInvokeResponse := mkTcpResponse {
  tr_request_id : Z;
  tr_success : bool;
  tr_payload : bytes;
  tr_error : option string }.

Definition max_frame_length : Z := 16 * 1024 * 1024.
Definition frame_fits (b : bytes) : bool := bool_decide (Z.of_nat (length b) ≤ max_frame_length).

(** The server: registry, activator and connection pool are those of the silo at [ts_silo]; the ring
    is the server's own. *)
Record TcpTransportServer := mkTcpServer {
  ts_silo : string; ts_ring : HashRing; ts_local_silo_id : string }.

(** A client's connection: whether it still works, and the response frames not yet read. *)
Record TcpTransportConnection := mkTcpConn { tcn_alive : bool; tcn_unread : list bytes }.

Record TcpTransportClient := mkTcpClient {
  tc_endpoint : string; tc_conn : option TcpTransportConnection; tc_next_request_id : Z }.

Definition TcpTransportClient_new (ep : string) : TcpTransportClient := mkTcpClient ep None 1.

(** ** The pool *)
Abbreviation TcpConnectionPool := (gmap string TcpTransportClient).
Definition TcpConnectionPool_new : TcpConnectionPool := ∅.
Definition TcpConnectionPool_get_client (p : TcpConnectionPool) (ep : string)
  : TcpConnectionPool * TcpTransportClient :=
  match p !! ep with
  | Some c => (p, c)
  | None => let c := TcpTransportClient_new ep in (<[ep := c]> p, c)
  end.
Definition TcpConnectionPool_remove (p : TcpConnectionPool) (ep : string) : TcpConnectionPool :=
  delete ep p.

(** What the network does to one exchange: it goes through, the request cannot be sent, the connection
    breaks after the request was delivered, or the caller gives up waiting (the future is
    dropped) after the request was sent. *)
Inductive NetFate := Through | SendFails | ReadFails | Cancelled.

Section tcp.
Context (connects parses : string → bool) (arrival : list SiloAddress → list (SiloAddress * bool)).
Context (status_display : Status → string) (rpc_failure : Status) (now : Z).
(** The bincode codecs of the wire types. *)
Context (encode_request : TcpInvokeRequest → result string bytes).
Context (decode_request : bytes → result string TcpInvokeRequest).
Context (encode_response : TcpInvokeResponse → result string bytes).
Context (decode_response : bytes → result string TcpInvokeResponse).

Definition tcp_failure (id : Z) (e : string) : TcpInvokeResponse := mkTcpResponse id false [] (Some e).

(** [forward_endpoint] *)
Definition tcp_forward_endpoint (srv : TcpTransportServer) (q : TcpInvokeRequest) : option string :=
  match HashRing_get (ts_ring srv) (slash (tq_grain_type q) (tq_grain_key q)) with
  | Some target =>
      if bool_decide (silo_id target ≠ ts_local_silo_id srv) then Some (endpoint target) else None
  | None => None
  end.

(** The request that a forwarded call becomes. *)
Definition grpc_request (q : TcpInvokeRequest) : InvokeRequest :=
  mkInvoke (tq_grain_type q) (tq_grain_key q) (tq_message_type q) (tq_payload q) 0 (tq_context q) 0.

(** [dispatch]: forwarded through gRPC, without a token, or handled by the registry. *)
Definition tcp_dispatch (srv : TcpTransportServer) (w : World) (q : TcpInvokeRequest)
  : World * TcpInvokeResponse :=
  let id := tq_request_id q in
  match w_silos w !! ts_silo srv with
  | None => (w, tcp_failure id "gone") (* the server runs in that silo *)
  | Some s =>
      match tcp_forward_endpoint srv q with
      | Some ep =>
          match ConnectionPool_get_transport connects (sl_pool s) ep with
          | (p, true) =>
              let w := set_silo w (ts_silo srv) (with_pool s p) in
              match invoke connects parses arrival status_display rpc_failure now 4 w ep None (grpc_request q) with
              | Some (w, Ok r) =>
                  let success := bool_decide (rs_error r = "") in
                  (w, mkTcpResponse id success (rs_payload r)
                        (if success then None else Some (rs_error r)))
              | Some (w, Err e) => (w, tcp_failure id (status_display e))
              | None => (w, tcp_failure id "")
              end
          | (p, false) =>
              (set_silo w (ts_silo srv) (with_pool s p),
               tcp_failure id (ClusterError_display (ETransport "connection failed")))
          end
      | None =>
          let '(rt, r) :=
            MessageRegistry_dispatch (sl_registry s) (tq_grain_type q) (tq_grain_key q)
              (tq_message_type q) 0 (tq_payload q) Bincode (tq_context q) (sl_runtime s) in
          (set_silo w (ts_silo srv) (with_runtime s rt),
           match r with
           | Ok (payload, _) => mkTcpResponse id true payload None
           | Err e => tcp_failure id (ClusterError_display e)
           end)
      end
  end.

(** [handle_connection] on the frames that arrive: the frames it sends, and why it stopped. *)
Fixpoint handle_connection (srv : TcpTransportServer) (w : World) (frames : list bytes)
  : World * list bytes * result ClusterError unit :=
  match frames with
  | [] => (w, [], Ok ())
  | frame :: frames' =>
      if negb (frame_fits frame) then (w, [], Err (ETransport "frame size too big"))
      else
        match decode_request frame with
        | Err e => (w, [], Err (EDeserialization e))
        | Ok request =>
            let '(w, response) := tcp_dispatch srv w request in
            match encode_response response with
            | Err e => (w, [], Err (ESerialization e))
            | Ok encoded =>
                if negb (frame_fits encoded) then (w, [], Err (ETransport "frame size too big"))
                else
                  let '(w, sent, r) := handle_connection srv w frames' in
                  (w, encoded :: sent, r)
            end
        end
  end.

(** [TcpTransportConnection::invoke]; [None] is a caller that gave up. *)
Definition conn_invoke (srv : TcpTransportServer) (f : NetFate) (w : World) (cn : TcpTransportConnection)
  (q : TcpInvokeRequest)
  : World * TcpTransportConnection * option (result ClusterError TcpInvokeResponse) :=
  match encode_request q with
  | Err e => (w, cn, Some (Err (ESerialization e)))
  | Ok encoded =>
      if negb (frame_fits encoded) then (w, cn, Some (Err (ETransport "frame size too big")))
      else if negb (tcn_alive cn) then (w, cn, Some (Err (ETransport "broken pipe")))
      else
        match f with
        | SendFails => (w, mkTcpConn false (tcn_unread cn), Some (Err (ETransport "broken pipe")))
        | _ =>
            let '(w, sent, r) := handle_connection srv w [encoded] in
            let unread := tcn_unread cn ++ sent in
            match f, unread with
            | Cancelled, _ => (w, mkTcpConn (is_ok r) unread, None)
            | ReadFails, _ => (w, mkTcpConn false [], Some (Err (ETransport "connection reset")))
            | _, [] => (w, mkTcpConn (is_ok r) [], Some (Err (ETransport "tcp connection closed")))
            | _, frame :: unread' =>
                (w, mkTcpConn (is_ok r) unread', Some (map_err EDeserialization (decode_response frame)))
            end
        end
  end.

Definition fresh_conn : TcpTransportConnection := mkTcpConn true [].

Definition dial_error (ep : string) : option (result ClusterError TcpInvokeResponse) :=
  Some (Err (ETransport ("tcp connect to " +:+ ep))).

(** The exchange on connection [cn] and, if it fails, on a new connection, which replaces the old one
    only when it gives a response. *)
Definition exchange_or_reconnect (srv : TcpTransportServer) (redial : bool) (f g : NetFate) (ep : string)
  (cn : TcpTransportConnection) (w : World) (q : TcpInvokeRequest)
  : TcpTransportConnection * World * option (result ClusterError TcpInvokeResponse) :=
  match conn_invoke srv f w cn q with
  | (w, cn, Some (Err _)) =>
      if negb redial then (cn, w, dial_error ep)
      else
        match conn_invoke srv g w fresh_conn q with
        | (w, new_conn, Some (Ok resp)) => (new_conn, w, Some (Ok resp))
        | (w, _, r) => (cn, w, r)
        end
  | (w, cn, r) => (cn, w, r)
  end.

(** [TcpTransportClient::invoke]: [reachable] says whether dialling the peer succeeds the first and the
    second time, [f] and [g] what the network does to the two exchanges. *)
Definition client_tcp_invoke (srv : TcpTransportServer) (reachable : bool * bool) (f g : NetFate)
  (c : TcpTransportClient) (w : World) (grain_type grain_key message_type : string) (payload : bytes)
  (context : gmap string string)
  : TcpTransportClient * World * option (result ClusterError TcpInvokeResponse) :=
  let q := mkTcpRequest (tc_next_request_id c) grain_type grain_key message_type payload context in
  let next := u64_add (tc_next_request_id c) 1 in
  let conn :=
    match tc_conn c with
    | Some cn => Some cn
    | None => if reachable.1 then Some fresh_conn else None
    end in
  match conn with
  | None => (mkTcpClient (tc_endpoint c) None next, w, dial_error (tc_endpoint c))
  | Some cn =>
      let '(cn, w, r) := exchange_or_reconnect srv (reachable.2) f g (tc_endpoint c) cn w q in
      (mkTcpClient (tc_endpoint c) (Some cn) next, w, r)
  end.
End tcp.

(** ** The server answers like the gRPC service *)
Section server.
Context (connects parses : string → bool) (arrival : list SiloAddress → list (SiloAddress * bool)).
Context (status_display : Status → string) (rpc_failure : Status) (now : Z).
Abbreviation tcp_dispatch' := (tcp_dispatch connects parses arrival status_display rpc_failure now).
Abbreviation invoke' := (invoke connects parses arrival status_display rpc_failure now).

Lemma tcp_dispatch_id srv w q : tr_request_id (tcp_dispatch' srv w q).2 = tq_request_id q.
Proof. unfold tcp_dispatch. by repeat case_match; simplify_eq/=. Qed.

(** A gRPC response on the TCP wire. *)
Definition tcp_of_grpc (id : Z) (r : InvokeResponse) : TcpInvokeResponse :=
  mkTcpResponse id (bool_decide (rs_error r = "")) (rs_payload r)
    (if bool_decide (rs_error r = "") then None else Some (rs_error r)).

(** The TCP server and the gRPC service answer alike: a grain of this silo (by the server's
    ring) is dispatched as the gRPC service dispatches the same request in bincode, with the same effect on
    the runtime and the same payload or error text; any other call becomes the gRPC call to the owner,
    without a token, and its response or failure is passed on. *)
Theorem tcp_agrees_with_grpc srv w s q :
  w_silos w !! ts_silo srv = Some s →
  match tcp_forward_endpoint srv q with
  | None =>
      tcp_dispatch' srv w q =
        (set_silo w (ts_silo srv) (local_dispatch s (grpc_request q)).1,
         tcp_of_grpc (tq_request_id q) (local_dispatch s (grpc_request q)).2)
  | Some ep =>
      let '(p, ok) := ConnectionPool_get_transport connects (sl_pool s) ep in
      let w1 := set_silo w (ts_silo srv) (with_pool s p) in
      if ok then
        ∃ w2 res, invoke' 4 w1 ep None (grpc_request q) = Some (w2, res) ∧
          tcp_dispatch' srv w q =
            (w2, match res with
                 | Ok r => tcp_of_grpc (tq_request_id q) r
                 | Err e => tcp_failure (tq_request_id q) (status_display e)
                 end)
      else (tcp_dispatch' srv w q).1 = w1 ∧ tr_success (tcp_dispatch' srv w q).2 = false
  end.
Proof.
  intros Hs. unfold tcp_dispatch. rewrite Hs. destruct (tcp_forward_endpoint srv q) as [ep|].
  - destruct (ConnectionPool_get_transport _ _ _) as [p []]; [|done].
    destruct (invoke_fuel connects parses arrival status_display rpc_failure now 4
      (set_silo w (ts_silo srv) (with_pool s p)) ep None (grpc_request q)) as [[w2 res] Hi].
    { pose proof (hop_count_nonneg (grpc_request q)). unfold hops_left, MAX_HOPS. lia. }
    exists w2, res. rewrite Hi. by destruct res.
  - unfold local_dispatch. cbn [grpc_request iv_grain_type iv_grain_key iv_message_type iv_message_version
      iv_payload iv_encoding iv_request_context]. change (Encoding_from_proto 0) with Bincode.
    destruct (MessageRegistry_dispatch _ _ _ _ _ _ _ _ _) as [rt [[b e]|e]]; [done|].
    unfold tcp_of_grpc. cbn. rewrite bool_decide_false by apply ClusterError_display_nonempty. done.
Qed.

(** A call that has to be forwarded to a silo that authenticates fails. *)
Lemma tcp_forward_refused srv w s q ep t :
  (∀ uri, connects uri = true) → w_silos w !! ts_silo srv = Some s → tcp_forward_endpoint srv q = Some ep →
  ep ≠ ts_silo srv → w_silos w !! ep = Some t → is_Some (sl_auth t) →
  tr_success (tcp_dispatch' srv w q).2 = false.
Proof.
  intros Hc Hs Hf Hne Ht [a Ha]. unfold tcp_dispatch. rewrite Hs, Hf.
  destruct (get_transport_connected connects (sl_pool s) ep Hc) as (p & -> & _).
  remember 3%nat as n. cbn [invoke]. cbn [w_silos set_silo].
  rewrite lookup_insert_ne, Ht, Ha by done. done.
Qed.
End server.

(** ** Matching responses to requests *)
Section matching.
Context (connects parses : string → bool) (arrival : list SiloAddress → list (SiloAddress * bool)).
Context (status_display : Status → string) (rpc_failure : Status) (now : Z).
Context (encode_request : TcpInvokeRequest → result string bytes).
Context (decode_request : bytes → result string TcpInvokeRequest).
Context (encode_response : TcpInvokeResponse → result string bytes).
Context (decode_response : bytes → result string TcpInvokeResponse).
Context (Hreq : ∀ q b, encode_request q = Ok b → decode_request b = Ok q).
Context (Hresp : ∀ r b, encode_response r = Ok b → decode_response b = Ok r).
Context (srv : TcpTransportServer).
Abbreviation tcp_dispatch' := (tcp_dispatch connects parses arrival status_display rpc_failure now srv).
Abbreviation handle' := (handle_connection connects parses arrival status_display rpc_failure now
                           decode_request encode_response srv).
Abbreviation conn_invoke' := (conn_invoke connects parses arrival status_display rpc_failure now
                                encode_request decode_request encode_response decode_response srv).
Abbreviation client_tcp_invoke' := (client_tcp_invoke connects parses arrival status_display rpc_failure now
                                encode_request decode_request encode_response decode_response srv).

(** What the server does with the one frame of a request. *)
Lemma handle_one w q b :
  encode_request q = Ok b → frame_fits b = true →
  (∃ e, handle' w [b] = ((tcp_dispatch' w q).1, [], Err e)) ∨
  (∃ rb, handle' w [b] = ((tcp_dispatch' w q).1, [rb], Ok ()) ∧ decode_response rb = Ok (tcp_dispatch' w q).2).
Proof.
  intros Hq Hf. cbn [handle_connection]. rewrite Hf, (Hreq _ _ Hq). cbn [negb].
  destruct (tcp_dispatch' w q) as [w' r] eqn:E. cbn [fst snd].
  destruct (encode_response r) as [rb|e] eqn:Er; [|left; eauto].
  destruct (frame_fits rb); cbn [negb]; [right|left; eauto].
  exists rb. split; [done|]. by apply Hresp.
Qed.

(** A request whose encoding is within the frame limit. *)
Definition sendable (q : TcpInvokeRequest) : Prop :=
  ∃ b, encode_request q = Ok b ∧ frame_fits b = true.

(** An exchange that was not given up leaves nothing unread and returns its own response. *)
Lemma conn_invoke_own f w cn q :
  f ≠ Cancelled → tcn_unread cn = [] →
  let '(w', cn', res) := conn_invoke' f w cn q in
  tcn_unread cn' = [] ∧ is_Some res ∧
  (∀ r, res = Some (Ok r) → w' = (tcp_dispatch' w q).1 ∧ r = (tcp_dispatch' w q).2) ∧
  (w' = w ∨ w' = (tcp_dispatch' w q).1).
Proof.
  intros Hf Hu. unfold conn_invoke. destruct (encode_request q) as [b|] eqn:Eq; [|by split_and!; eauto].
  destruct (frame_fits b) eqn:Ef; cbn [negb]; [|by split_and!; eauto].
  destruct (tcn_alive cn); cbn [negb]; [|by split_and!; eauto].
  assert (∀ w', (w' = (tcp_dispatch' w q).1 → w' = w ∨ w' = (tcp_dispatch' w q).1)) as Hor by auto.
  destruct (handle_one w q b Eq Ef) as [[e ->]|(rb & -> & Hd)]; rewrite Hu; cbn [app];
    destruct f; try done; split_and!; eauto; try done.
  intros r. rewrite Hd. by intros [= <-].
Qed.

(** One call of the client: what the network does to it and what is asked. *)
Record TcpCall := mkTcpCall {
  tk_reachable : bool * bool; tk_first : NetFate; tk_second : NetFate; tk_type : string;
  tk_key : string; tk_message : string; tk_payload : bytes; tk_context : gmap string string }.

Definition run_call (c : TcpTransportClient) (w : World) (k : TcpCall) :=
  client_tcp_invoke' (tk_reachable k) (tk_first k) (tk_second k) c w (tk_type k) (tk_key k)
    (tk_message k) (tk_payload k) (tk_context k).

(** The requests and results of a sequence of calls. *)
Fixpoint run_calls (c : TcpTransportClient) (w : World) (ks : list TcpCall)
  : list (TcpInvokeRequest * option (result ClusterError TcpInvokeResponse)) :=
  match ks with
  | [] => []
  | k :: ks' =>
      let '(c', w', res) := run_call c w k in
      (mkTcpRequest (tc_next_request_id c) (tk_type k) (tk_key k) (tk_message k) (tk_payload k) (tk_context k),
       res) :: run_calls c' w' ks'
  end.

Definition nothing_unread (c : TcpTransportClient) : Prop :=
  ∀ cn, tc_conn c = Some cn → tcn_unread cn = [].

Definition not_cancelled (k : TcpCall) : Prop := tk_first k ≠ Cancelled ∧ tk_second k ≠ Cancelled.

Lemma exchange_own redial f g ep cn w q :
  f ≠ Cancelled → g ≠ Cancelled → tcn_unread cn = [] →
  let '(cn', w', res) := exchange_or_reconnect connects parses arrival status_display rpc_failure now
    encode_request decode_request encode_response decode_response srv redial f g ep cn w q in
  tcn_unread cn' = [] ∧ ∀ r, res = Some (Ok r) → ∃ w0, r = (tcp_dispatch' w0 q).2.
Proof.
  intros H1 H2 Hu. unfold exchange_or_reconnect. pose proof (conn_invoke_own f w cn q H1 Hu) as Hc.
  destruct (conn_invoke' f w cn q) as [[w1 cn1] res1]. destruct Hc as (Hu1 & [r1 ->] & Hok & _).
  destruct r1 as [r1|e1].
  { split; [done|]. intros r Hr. exists w. by apply Hok. }
  destruct (negb redial); [done|]. pose proof (conn_invoke_own g w1 fresh_conn q H2 eq_refl) as Hc.
  destruct (conn_invoke' g w1 fresh_conn q) as [[w2 cn2] res2]. destruct Hc as (Hu2 & [r2 ->] & Hok2 & _).
  destruct r2 as [r2|e2]; [|done]. split; [done|]. intros r Hr. exists w1. by apply Hok2.
Qed.

Lemma run_call_own c w k :
  nothing_unread c → not_cancelled k →
  let '(c', w', res) := run_call c w k in
  nothing_unread c' ∧
  ∀ r, res = Some (Ok r) → ∃ w0,
    r = (tcp_dispatch' w0 (mkTcpRequest (tc_next_request_id c) (tk_type k) (tk_key k) (tk_message k)
                             (tk_payload k) (tk_context k))).2.
Proof.
  intros Hn [H1 H2]. unfold run_call, client_tcp_invoke. set (q := mkTcpRequest _ _ _ _ _ _).
  assert (∀ cn, (tc_conn c = Some cn ∨ cn = fresh_conn) → tcn_unread cn = []) as Hu
    by (intros cn [Hcn| ->]; [by apply Hn|done]).
  assert (∀ cn, tcn_unread cn = [] → let '(c', _, res) :=
      let '(cn, w, r) := exchange_or_reconnect connects parses arrival status_display rpc_failure now
        encode_request decode_request encode_response decode_response srv (tk_reachable k).2 (tk_first k)
        (tk_second k) (tc_endpoint c) cn w q in
      (mkTcpClient (tc_endpoint c) (Some cn) (u64_add (tc_next_request_id c) 1), w, r) in
    nothing_unread c' ∧ ∀ r, res = Some (Ok r) → ∃ w0, r = (tcp_dispatch' w0 q).2) as He.
  { intros cn Hcn. pose proof (exchange_own (tk_reachable k).2 (tk_first k) (tk_second k) (tc_endpoint c) cn w q
      H1 H2 Hcn) as He.
    destruct (exchange_or_reconnect _ _ _ _ _ _ _ _ _ _ _ _ _ _ _ _ _ _) as [[cn' w'] res].
    destruct He as [Hcn' He]. split; [|done]. by intros ? [= <-]. }
  destruct (tc_conn c) as [cn|]; [by apply He, Hu; left|].
  destruct (tk_reachable k).1; [by apply He|done].
Qed.

(** As long as no caller gives up, the TCP client matches responses to requests although it never
    compares request ids: in any sequence of calls of a new client, whatever the network does to
    them, a response that is returned carries the id of its own request and is what the
    server's [dispatch] answered to that request. *)
Theorem tcp_responses_match ep w ks :
  Forall not_cancelled ks →
  Forall (λ '(q, res), ∀ r, res = Some (Ok r) →
            tr_request_id r = tq_request_id q ∧ ∃ w0, r = (tcp_dispatch' w0 q).2)
    (run_calls (TcpTransportClient_new ep) w ks).
Proof.
  assert (∀ c, nothing_unread c → Forall not_cancelled ks → Forall (λ '(q, res), ∀ r, res = Some (Ok r) →
            tr_request_id r = tq_request_id q ∧ ∃ w0, r = (tcp_dispatch' w0 q).2) (run_calls c w ks)) as H.
  { revert w. induction ks as [|k ks IH]; intros w c Hc Hks; cbn [run_calls]; [constructor|].
    apply Forall_cons in Hks as [Hk Hks]. pose proof (run_call_own c w k Hc Hk) as Hr.
    destruct (run_call c w k) as [[c' w'] res]. destruct Hr as [Hc' Hr].
    apply Forall_cons. split; [|by apply IH]. intros r Hres.
    destruct (Hr r Hres) as [w0 ->]. split; [apply tcp_dispatch_id|eauto]. }
  apply H. by intros cn.
Qed.

(** The response to a request in world [w] fits into a frame. *)
Definition answerable (w : World) (q : TcpInvokeRequest) : Prop :=
  ∃ rb, encode_response (tcp_dispatch' w q).2 = Ok rb ∧ frame_fits rb = true.

Definition call_request (c : TcpTransportClient) (k : TcpCall) : TcpInvokeRequest :=
  mkTcpRequest (tc_next_request_id c) (tk_type k) (tk_key k) (tk_message k) (tk_payload k) (tk_context k).

Lemma handle_answerable w q b :
  encode_request q = Ok b → frame_fits b = true → answerable w q →
  ∃ rb, handle' w [b] = ((tcp_dispatch' w q).1, [rb], Ok ()) ∧ decode_response rb = Ok (tcp_dispatch' w q).2.
Proof.
  intros Hq Hf (rb & Hr & Hrf). exists rb. cbn [handle_connection]. rewrite Hf, (Hreq _ _ Hq). cbn [negb].
  destruct (tcp_dispatch' w q) as [w' r]. cbn [fst snd] in *. rewrite Hr, Hrf. cbn [negb].
  split; [done|by apply Hresp].
Qed.

(** A call that its caller gave up shifts every later response by one.  When the caller of the first
    call stops waiting after the request was sent, the connection is kept with the answer unread, and the
    next call on it succeeds with the answer to the first request, which carries the first request's id;
    its own request is carried out as well, and its answer is left for the call after it. *)
Theorem tcp_cancelled_call_shifts c w k1 k2 :
  tc_conn c = Some fresh_conn → tk_first k1 = Cancelled → tk_first k2 = Through →
  let q1 := call_request c k1 in
  let w1 := (tcp_dispatch' w q1).1 in
  ∀ c1, c1 = mkTcpClient (tc_endpoint c) (tc_conn (run_call c w k1).1.1) (u64_add (tc_next_request_id c) 1) →
  let q2 := call_request c1 k2 in
  sendable q1 → sendable q2 → answerable w q1 → answerable w1 q2 →
  run_call c w k1 = (c1, w1, None) ∧
  ∃ c2 rb, run_call c1 w1 k2 = (c2, (tcp_dispatch' w1 q2).1, Some (Ok (tcp_dispatch' w q1).2)) ∧
    tr_request_id (tcp_dispatch' w q1).2 = tq_request_id q1 ∧ tq_request_id q1 ≠ tq_request_id q2 ∧
    tc_conn c2 = Some (mkTcpConn true [rb]) ∧ decode_response rb = Ok (tcp_dispatch' w1 q2).2.
Proof.
  intros Hc H1 H2 q1 w1 c1 Hc1 q2 (b1 & E1 & F1) (b2 & E2 & F2) A1 A2.
  destruct (handle_answerable w q1 b1 E1 F1 A1) as (rb1 & Hh1 & D1).
  destruct (handle_answerable w1 q2 b2 E2 F2 A2) as (rb2 & Hh2 & D2).
  assert (run_call c w k1 = (mkTcpClient (tc_endpoint c) (Some (mkTcpConn true [rb1]))
    (u64_add (tc_next_request_id c) 1), w1, None)) as Hr1.
  { unfold run_call, client_tcp_invoke. rewrite Hc. fold (call_request c k1). fold q1.
    unfold exchange_or_reconnect, conn_invoke. rewrite E1, F1, H1. cbn [negb tcn_alive fresh_conn].
    rewrite Hh1. done. }
  rewrite Hr1 in Hc1. cbn [fst tc_conn] in Hc1. split; [by rewrite Hr1, Hc1|].
  eexists _, rb2. split_and!.
  - unfold run_call, client_tcp_invoke. fold (call_request c1 k2). fold q2. rewrite Hc1. cbn [tc_conn].
    unfold exchange_or_reconnect, conn_invoke. rewrite E2, F2, H2. cbn [negb tcn_alive tcn_unread].
    rewrite Hh2. cbn [app]. rewrite D1. cbn [map_err is_ok]. reflexivity.
  - apply tcp_dispatch_id.
  - unfold q1, q2. rewrite Hc1. cbn [call_request tq_request_id tc_next_request_id].
    unfold u64_add, u64_mod. intros He.
    pose proof (Z.div_mod (tc_next_request_id c + 1) (2 ^ 64)). lia.
  - done.
  - done.
Qed.
End matching.

(** ** Witnesses *)
#[global] Instance TcpInvokeRequest_eq_dec : EqDecision TcpInvokeRequest.
Proof. solve_decision. Defined.
#[global] Instance TcpInvokeResponse_eq_dec : EqDecision TcpInvokeResponse.
Proof. solve_decision. Defined.

(** A codec for the values of a table: a value is written as its position. *)
Definition table_encode {A} `{EqDecision A} (l : list A) (a : A) : result string bytes :=
  match list_find (λ x, x = a) l with
  | Some (i, _) => Ok (repeat Byte.x00 i)
  | None => Err "unknown"
  end.
Definition table_decode {A} (l : list A) (b : bytes) : result string A :=
  match l !! length b with Some a => Ok a | None => Err "unknown" end.

Lemma table_roundtrip {A} `{EqDecision A} (l : list A) a b :
  table_encode l a = Ok b → table_decode l b = Ok a.
Proof.
  unfold table_encode, table_decode. destruct (list_find _ l) as [[i x]|] eqn:E; [|done].
  apply list_find_Some in E as (Hi & -> & _). intros [= <-]. by rewrite repeat_length, Hi.
Qed.

Definition tcp_server_a : TcpTransportServer := mkTcpServer (endpoint silo_a) ring_ab "A".
Definition tcp_say (id : Z) (b : Byte.byte) : TcpInvokeRequest := mkTcpRequest id "Echo" "k" "Say" [b] ∅.
Definition tcp_requests : list TcpInvokeRequest := [tcp_say 1 Byte.x2a; tcp_say 2 Byte.x2b].
Definition tcp_answers : list TcpInvokeResponse :=
  [mkTcpResponse 1 true [Byte.x2a] None; mkTcpResponse 2 true [Byte.x2b] None].
Definition tcp_call (f : NetFate) (b : Byte.byte) : TcpCall :=
  mkTcpCall (true, true) f Through "Echo" "k" "Say" [b] ∅.
Definition demo_run_call :=
  run_call (λ _, true) (λ _, true) all_answer (λ _, "") (StatusOther "no answer") 0
    (table_encode tcp_requests) (table_decode tcp_requests) (table_encode tcp_answers) (table_decode tcp_answers)
    tcp_server_a.

Lemma tcp_responses_match_witness :
  Forall (λ '(q, res), ∀ r, res = Some (Ok r) → tr_request_id r = tq_request_id q)
    (run_calls (λ _, true) (λ _, true) all_answer (λ _, "") (StatusOther "no answer") 0
       (table_encode tcp_requests) (table_decode tcp_requests) (table_encode tcp_answers)
       (table_decode tcp_answers) tcp_server_a (TcpTransportClient_new (endpoint silo_a))
       (demo_world Runtime_new Runtime_new) [tcp_call ReadFails Byte.x2a; tcp_call Through Byte.x2b]).
Proof.
  eapply Forall_impl.
  - apply (tcp_responses_match (λ _, true) (λ _, true) all_answer (λ _, "") (StatusOther "no answer") 0
      (table_encode tcp_requests) (table_decode tcp_requests) (table_encode tcp_answers)
      (table_decode tcp_answers) (table_roundtrip _) (table_roundtrip _)).
    repeat apply Forall_cons_2; [split; discriminate..|apply Forall_nil_2].
  - intros [q res] H r Hr. exact (proj1 (H r Hr)).
Defined.

Lemma tcp_cancelled_call_shifts_witness :
  let c := mkTcpClient (endpoint silo_a) (Some fresh_conn) 1 in
  let w := demo_world Runtime_new Runtime_new in
  ∃ c1 w1 c2 w2, demo_run_call c w (tcp_call Cancelled Byte.x2a) = (c1, w1, None) ∧
    demo_run_call c1 w1 (tcp_call Through Byte.x2b) = (c2, w2, Some (Ok (mkTcpResponse 1 true [Byte.x2a] None))).
Proof.
  intros c w.
  destruct (tcp_cancelled_call_shifts (λ _, true) (λ _, true) all_answer (λ _, "") (StatusOther "no answer") 0
    (table_encode tcp_requests) (table_decode tcp_requests) (table_encode tcp_answers)
    (table_decode tcp_answers) (table_roundtrip _) (table_roundtrip _) tcp_server_a c w
    (tcp_call Cancelled Byte.x2a) (tcp_call Through Byte.x2b) eq_refl eq_refl eq_refl _ eq_refl)
    as (H1 & c2 & rb & H2 & _).
  - exists []. vm_compute. split; reflexivity.
  - exists [Byte.x00]. vm_compute. split; reflexivity.
  - exists []. vm_compute. split; reflexivity.
  - exists [Byte.x00]. vm_compute. split; reflexivity.
  - assert ((tcp_dispatch (λ _, true) (λ _, true) all_answer (λ _, "") (StatusOther "no answer") 0 tcp_server_a
      w (call_request c (tcp_call Cancelled Byte.x2a))).2 = mkTcpResponse 1 true [Byte.x2a] None) as E
      by (vm_compute; reflexivity).
    rewrite E in H2. eexists _, _, c2, _. split; [exact H1|exact H2].
Defined.

Lemma tcp_agrees_with_grpc_witness :
  (tcp_dispatch (λ _, true) (λ _, true) all_answer (λ _, "") (StatusOther "no answer") 0 tcp_server_a
     (demo_world Runtime_new Runtime_new) (tcp_say 1 Byte.x2a)).2 = mkTcpResponse 1 true [Byte.x2a] None.
Proof.
  pose proof (tcp_agrees_with_grpc (λ _, true) (λ _, true) all_answer (λ _, "") (StatusOther "no answer") 0
    tcp_server_a (demo_world Runtime_new Runtime_new) (demo_silo silo_a Runtime_new) (tcp_say 1 Byte.x2a)
    eq_refl) as H.
  change (tcp_forward_endpoint tcp_server_a (tcp_say 1 Byte.x2a)) with (@None string) in H.
  cbv beta iota in H. rewrite H. vm_compute. reflexivity.
Defined.
