(* ===== verification/ClusterSilo.v ===== *)
(** * Cluster silos

    orlando-cluster [cluster_silo.rs]: the builder and what it builds, cluster-wide grain references
    with placement hints, joining through a seed or a provider, the wiring of [serve],
    shutdown; and the readiness endpoint of [health_server.rs]. *)
From S2P Require Import Prelude CoreTypes HashRing Mailbox Directory Calls Auth Swim Membership.
From S2P Require Import CrossCluster Replication Registry Transport ClusterRef Discovery.

(** ** The silo and its builder

    TLS material is only known to be present or absent; the store probe is the answer it gives. *)
Record ClusterSilo := mkClusterSilo {
  cs_local_addr : SiloAddress;
  cs_directory : Runtime;
  cs_registry : MessageRegistry;
  cs_node : Node; (** ring, pool, SWIM state and the sent membership changes *)
  cs_fd_config : FailureDetectorConfig;
  cs_shutdown : bool;
  cs_placement : PlacementStrategy;
  cs_tls_identity : bool;
  cs_tls_ca : bool;
  cs_auth : option SharedSecretAuth;
  cs_retry_policy : RetryPolicy;
  cs_multi_cluster : option MultiClusterConfig;
  cs_cross_cluster_dir : bool;
  cs_local_cluster_id : option ClusterId;
  cs_peer_endpoints : option (gmap ClusterId string);
  cs_failover_config : FailoverConfig;
  cs_health_port : option Z;
  cs_store_probe : option (result string unit) }.

Record ClusterSiloBuilder := mkSiloBuilder {
  b_host : string;
  b_port : Z;
  b_silo_id : option string;
  b_registry : MessageRegistry;
  b_virtual_nodes : Z;
  b_fd_config : FailureDetectorConfig;
  b_placement : option PlacementStrategy;
  b_tls_identity : bool;
  b_tls_ca : bool;
  b_auth : option SharedSecretAuth;
  b_auth_token : option string;
  b_retry_policy : RetryPolicy;
  b_multi_cluster : option MultiClusterConfig;
  b_cross_cluster_dir : bool;
  b_local_cluster_id : option ClusterId;
  b_peer_endpoints : option (gmap ClusterId string);
  b_failover_config : FailoverConfig;
  b_health_port : option Z;
  b_store_probe : option (result string unit) }.

(** [ClusterSiloBuilder::new]: the defaults. *)
Definition ClusterSiloBuilder_new : ClusterSiloBuilder :=
  mkSiloBuilder "127.0.0.1" 0 None MessageRegistry_new 150 FailureDetectorConfig_default None
    false false None None RetryPolicy_default None false None None FailoverConfig_default None None.

(** What [build] warns about: no authentication, no TLS. *)
Inductive BuildWarning := WarnNoAuth | WarnNoTls.
Definition build_warnings (b : ClusterSiloBuilder) : list BuildWarning :=
  (if bool_decide (b_auth b = None) && bool_decide (b_auth_token b = None) then [WarnNoAuth] else []) ++
  (if negb (b_tls_identity b) && negb (b_tls_ca b) then [WarnNoTls] else []).

(** [ClusterSilo::cluster_id] *)
Definition ClusterSilo_cluster_id (cs : ClusterSilo) : option ClusterId := mcc_cluster_id <$> cs_multi_cluster cs.

(** The builder's setters, one constructor each. *)
Inductive BuilderSetting :=
| SetHealthPort (port : Z) | SetStoreProbe (probe : result string unit) | SetHost (host : string)
| SetPort (port : Z) | SetSiloId (id : string) | SetVirtualNodes (n : Z)
| SetFailureDetectorConfig (config : FailureDetectorConfig) | SetPlacement (strategy : PlacementStrategy)
| SetTls | SetTlsCa | SetAuth (auth : SharedSecretAuth) | SetAuthToken (token : string)
| SetRetryPolicy (policy : RetryPolicy) | SetMultiCluster (config : MultiClusterConfig)
| SetCrossClusterDirectory | SetClusterId (id : ClusterId) | SetPeerCluster (cluster : ClusterId) (ep : string)
| SetFailoverConfig (config : FailoverConfig).

(** [peer_cluster]: [get_or_insert_with(HashMap::new).insert(..)]. *)
Definition add_peer_cluster (peers : option (gmap ClusterId string)) (c : ClusterId) (ep : string)
  : option (gmap ClusterId string) := Some (<[c := ep]> (default ∅ peers)).

Definition ClusterSiloBuilder_set (b : ClusterSiloBuilder) (s : BuilderSetting) : ClusterSiloBuilder :=
  mkSiloBuilder
    (match s with SetHost h => h | _ => b_host b end)
    (match s with SetPort p => p | _ => b_port b end)
    (match s with SetSiloId id => Some id | _ => b_silo_id b end)
    (b_registry b)
    (match s with SetVirtualNodes n => n | _ => b_virtual_nodes b end)
    (match s with SetFailureDetectorConfig c => c | _ => b_fd_config b end)
    (match s with SetPlacement p => Some p | _ => b_placement b end)
    (match s with SetTls => true | _ => b_tls_identity b end)
    (match s with SetTlsCa => true | _ => b_tls_ca b end)
    (match s with SetAuth a => Some a | _ => b_auth b end)
    (match s with SetAuthToken t => Some t | _ => b_auth_token b end)
    (match s with SetRetryPolicy p => p | _ => b_retry_policy b end)
    (match s with SetMultiCluster c => Some c | _ => b_multi_cluster b end)
    (match s with SetCrossClusterDirectory => true | _ => b_cross_cluster_dir b end)
    (match s with SetClusterId c => Some c | _ => b_local_cluster_id b end)
    (match s with SetPeerCluster c ep => add_peer_cluster (b_peer_endpoints b) c ep | _ => b_peer_endpoints b end)
    (match s with SetFailoverConfig c => c | _ => b_failover_config b end)
    (match s with SetHealthPort p => Some p | _ => b_health_port b end)
    (match s with SetStoreProbe p => Some p | _ => b_store_probe b end).

(** [register::<G, M>]; [None] is the panic of the registry. *)
Definition ClusterSiloBuilder_register {M R} `{Countable M} (gd : GrainError → string) (gt : GrainType)
  (nm : NetworkMessage M R) (reply : list Delivery → RequestContext → M → Oneshot R) (b : ClusterSiloBuilder)
  : option ClusterSiloBuilder :=
  reg ← MessageRegistry_register gd gt nm reply (b_registry b);
  Some (mkSiloBuilder (b_host b) (b_port b) (b_silo_id b) reg (b_virtual_nodes b) (b_fd_config b)
    (b_placement b) (b_tls_identity b) (b_tls_ca b) (b_auth b) (b_auth_token b) (b_retry_policy b)
    (b_multi_cluster b) (b_cross_cluster_dir b) (b_local_cluster_id b) (b_peer_endpoints b)
    (b_failover_config b) (b_health_port b) (b_store_probe b)).

(** The pool [build] chooses from the CA certificate and the token. *)
Definition build_pool (tls_ca : bool) (auth_token : option string) : ConnectionPool :=
  match tls_ca, auth_token with
  | true, Some token => ConnectionPool_with_tls_and_auth token
  | true, None => ConnectionPool_with_tls
  | false, Some token => ConnectionPool_with_auth token
  | false, None => ConnectionPool_new
  end.

(** [build]; [uuid] is the generated id. *)
Definition ClusterSiloBuilder_build (uuid : string) (b : ClusterSiloBuilder) : ClusterSilo :=
  let local_addr := mkSilo (b_host b) (b_port b) (default uuid (b_silo_id b)) in
  let ring := HashRing_add (HashRing_new (b_virtual_nodes b)) local_addr in
  mkClusterSilo local_addr Runtime_new (b_registry b)
    (mkNode (SwimState_new local_addr) ring (build_pool (b_tls_ca b) (b_auth_token b)) [])
    (b_fd_config b) false (default HashBasedPlacement (b_placement b))
    (b_tls_identity b) (b_tls_ca b) (b_auth b) (b_retry_policy b) (b_multi_cluster b)
    (b_cross_cluster_dir b) (b_local_cluster_id b) (b_peer_endpoints b) (b_failover_config b)
    (b_health_port b) (b_store_probe b).

Definition with_directory (cs : ClusterSilo) (w : Runtime) : ClusterSilo :=
  mkClusterSilo (cs_local_addr cs) w (cs_registry cs) (cs_node cs) (cs_fd_config cs)
    (cs_shutdown cs) (cs_placement cs) (cs_tls_identity cs) (cs_tls_ca cs)
    (cs_auth cs) (cs_retry_policy cs) (cs_multi_cluster cs) (cs_cross_cluster_dir cs)
    (cs_local_cluster_id cs) (cs_peer_endpoints cs) (cs_failover_config cs) (cs_health_port cs)
    (cs_store_probe cs).

Definition with_cs_node (cs : ClusterSilo) (n : Node) : ClusterSilo :=
  mkClusterSilo (cs_local_addr cs) (cs_directory cs) (cs_registry cs) n (cs_fd_config cs)
    (cs_shutdown cs) (cs_placement cs) (cs_tls_identity cs) (cs_tls_ca cs)
    (cs_auth cs) (cs_retry_policy cs) (cs_multi_cluster cs) (cs_cross_cluster_dir cs)
    (cs_local_cluster_id cs) (cs_peer_endpoints cs) (cs_failover_config cs) (cs_health_port cs)
    (cs_store_probe cs).

Definition with_shutdown (cs : ClusterSilo) : ClusterSilo :=
  mkClusterSilo (cs_local_addr cs) (cs_directory cs) (cs_registry cs) (cs_node cs) (cs_fd_config cs)
    true (cs_placement cs) (cs_tls_identity cs) (cs_tls_ca cs)
    (cs_auth cs) (cs_retry_policy cs) (cs_multi_cluster cs) (cs_cross_cluster_dir cs)
    (cs_local_cluster_id cs) (cs_peer_endpoints cs) (cs_failover_config cs) (cs_health_port cs)
    (cs_store_probe cs).

Definition cs_ring (cs : ClusterSilo) : HashRing := nd_ring (cs_node cs).

(** ** References *)

(** The strategy for a grain type: its placement hint, otherwise the silo's. *)
Definition hinted_placement (cs : ClusterSilo) (hint : option string) : PlacementStrategy :=
  match hint with
  | Some h =>
      if bool_decide (h = "prefer_local") then PreferLocalPlacement
      else if bool_decide (h = "random") then RandomPlacement
      else cs_placement cs (* "hash", or an unknown hint *)
  | None => cs_placement cs
  end.

Definition local_activate (cs : ClusterSilo) (grain_type key : string) : ClusterSilo * Sender :=
  let '(w, sender) := GrainDirectory_get_or_insert (cs_directory cs) (mkGrainId grain_type key) in
  (with_directory cs w, sender).

(** [get_ref]; [rnd] is the random choice of [RandomPlacement]. *)
Definition get_ref (rnd : nat → nat) (cs : ClusterSilo) (grain_type : string) (hint : option string)
  (key : string) : ClusterSilo * ClusterGrainRef :=
  let local :=
    let '(cs, sender) := local_activate cs grain_type key in
    (cs, ClusterGrainRef_local sender) in
  let '(cs, r) :=
    match place rnd (hinted_placement cs hint) grain_type key (silo_id (cs_local_addr cs)) (cs_ring cs) with
    | Some t =>
        if bool_decide (silo_id t = silo_id (cs_local_addr cs)) then local
        else (cs, ClusterGrainRef_remote (endpoint t) grain_type key)
    | None => local
    end in
  (cs, with_retry_policy r (cs_retry_policy cs)).

(** ** Joining

    The membership services of the other silos, by endpoint. *)
Abbreviation Peers := (gmap string MembershipService).

Section joining.
Context (connects : string → bool) (status_display : Status → string) (now : Z).

(** Dialling uses the silo's pool. *)
Definition cs_dial (cs : ClusterSilo) (ep : string) : ClusterSilo * bool :=
  let n := cs_node cs in
  let '(p, ok) := ConnectionPool_get_membership connects (nd_pool n) ep in
  (with_cs_node cs (mkNode (nd_swim n) (nd_ring n) p (nd_changes n)), ok).

(** The state transition on the seed's answer: add every member to the ring, announce it to
    the local subscribers, and insert every other member into the table. *)
Definition adopt_members (cs : ClusterSilo) (members : list SiloAddress) : ClusterSilo :=
  let n := cs_node cs in
  let st := nd_swim n in
  let local_id := silo_id (cs_local_addr cs) in
  let table := foldl (λ m silo, if bool_decide (silo_id silo ≠ local_id)
                                then <[silo_id silo := mkMember silo MAlive 0]> m else m)
                 (Swim.members st) members in
  with_cs_node cs
    (mkNode (with_members st table) (foldl HashRing_add (nd_ring n) members) (nd_pool n)
       (nd_changes n ++ (SiloJoined <$> members))).

(** The announcements; requests carry no token, and their outcome is ignored. *)
Fixpoint announce (cs : ClusterSilo) (peers : Peers) (seed : string) (members : list SiloAddress)
  : ClusterSilo * Peers :=
  match members with
  | [] => (cs, peers)
  | member :: members' =>
      if bool_decide (silo_id member = silo_id (cs_local_addr cs)) then announce cs peers seed members'
      else if bool_decide (endpoint member = seed) then announce cs peers seed members'
      else
        match cs_dial cs (endpoint member) with
        | (cs, false) => announce cs peers seed members'
        | (cs, true) =>
            let peers :=
              match peers !! endpoint member with
              | Some s =>
                  <[endpoint member :=
                     (notify_join now s None (Some (to_proto_addr (cs_local_addr cs)))).1]> peers
              | None => peers
              end in
            announce cs peers seed members'
        end
  end.

(** [join_cluster]; a seed that nobody serves does not answer the call. *)
Definition join_cluster (cs : ClusterSilo) (peers : Peers) (seed : string)
  : ClusterSilo * Peers * result ClusterError unit :=
  match cs_dial cs seed with
  | (cs, false) => (cs, peers, Err (ETransport "connection failed"))
  | (cs, true) =>
      match peers !! seed with
      | None => (cs, peers, Err (ETransport (status_display (Unavailable "no answer"))))
      | Some s =>
          match join now s None (Some (to_proto_addr (cs_local_addr cs))) with
          | (s', Err e) => (cs, <[seed := s']> peers, Err (ETransport (status_display e)))
          | (s', Ok answer) =>
              let members := from_proto_addr <$> answer in
              let cs := adopt_members cs members in
              let '(cs, peers) := announce cs (<[seed := s']> peers) seed members in
              (cs, peers, Ok tt)
          end
      end
  end.

(** The loop of [discover_and_join]: the first seed that lets the silo in. *)
Fixpoint try_seeds (cs : ClusterSilo) (peers : Peers) (seeds : list SiloAddress)
  : ClusterSilo * Peers * result ClusterError unit :=
  match seeds with
  | [] => (cs, peers, Err (ETransport "no reachable seeds found via membership provider"))
  | s :: seeds' =>
      if bool_decide (endpoint s = endpoint (cs_local_addr cs)) then try_seeds cs peers seeds'
      else
        match join_cluster cs peers (endpoint s) with
        | (cs, peers, Ok _) => (cs, peers, Ok tt)
        | (cs, peers, Err _) => try_seeds cs peers seeds'
        end
  end.

Definition discover_and_join (cs : ClusterSilo) (peers : Peers)
  (members : result DiscoveryError (list SiloAddress)) : ClusterSilo * Peers * result ClusterError unit :=
  match members with
  | Err (DiscoveryTransport m) => (cs, peers, Err (ETransport m))
  | Ok seeds => try_seeds cs peers seeds
  end.
End joining.

(** ** Shutdown *)
Definition shutdown (cs : ClusterSilo) : ClusterSilo := with_shutdown cs.

Definition shutdown_and_drain (finishes : JoinHandle → bool) (cs : ClusterSilo) : ClusterSilo :=
  with_shutdown (with_directory cs (GrainDirectory_drain finishes (cs_directory cs))).

(** ** Serving *)
Inductive BackgroundTask :=
| TaskFailureDetector | TaskRebalancer | TaskHealthServer (port : Z)
| TaskClusterHealth | TaskFailover.
Inductive GrpcService := SvcTransport | SvcMembership | SvcGateway.

(** [serve] up to the server's loop: the tasks it spawns in order, the services it registers, and the
    state the transport and membership services run on; [parses_addr] is
    [str::parse::<SocketAddr>]. *)
Definition serve (parses_addr : string → bool) (now : Z) (cs : ClusterSilo)
  : list BackgroundTask * option (list GrpcService * Silo) :=
  if negb (parses_addr (endpoint (cs_local_addr cs))) then ([], None)
  else
    let cross :=
      match cs_cross_cluster_dir cs, cs_local_cluster_id cs, cs_peer_endpoints cs with
      | true, Some cid, Some peers => Some (cid, peers)
      | _, _, _ => None
      end in
    let silo := mkSiloState (cs_registry cs) (cs_directory cs)
                  (MembershipService_new now (cs_node cs) (gossip_fanout (cs_fd_config cs)) (cs_auth cs)) cross in
    let tasks := [TaskFailureDetector; TaskRebalancer] in
    let multi :=
      match cs_multi_cluster cs with
      | None => []
      | Some _ =>
          TaskClusterHealth ::
          match cs_cross_cluster_dir cs, cs_local_cluster_id cs with
          | true, Some _ => [TaskFailover]
          | _, _ => []
          end
      end in
    let services :=
      match cs_local_cluster_id cs with
      | Some _ => [SvcTransport; SvcMembership; SvcGateway]
      | None => [SvcTransport; SvcMembership]
      end in
    match cs_health_port cs with
    | Some port =>
        if negb (parses_addr (colon (host (cs_local_addr cs)) (pretty port))) then (tasks, None)
        else (tasks ++ [TaskHealthServer port] ++ multi, Some (services, silo))
    | None => (tasks ++ multi, Some (services, silo))
    end.

(** ** The health endpoints *)
Definition healthz : Z * string := (200, "ok").

Definition readyz (r : HashRing) (store_probe : option (result string unit)) : Z * string :=
  if bool_decide (HashRing_members r = []) then (503, "ring empty")
  else
    match store_probe with
    | Some (Err _) => (503, "store probe failed")
    | _ => (200, "ready")
    end.

(** ** A silo that was just built *)

(** A built silo is alone on its ring and its member table is empty. *)
Lemma build_node_ok vn U uuid b :
  universe_ok vn U → b_virtual_nodes b = vn → default uuid (b_silo_id b) ∈ U →
  node_ok vn U (cs_node (ClusterSiloBuilder_build uuid b)).
Proof.
  intros HU Hvn Hid. pose (local := mkSilo (b_host b) (b_port b) (default uuid (b_silo_id b))).
  pose proof (Node_new_ok vn U local HU Hid) as Hok. subst vn.
  apply (node_ok_frame _ _ (Node_new (b_virtual_nodes b) local)); done || apply Hok.
Qed.

Lemma ring_add_members_ne r s : 0 < virtual_nodes r → HashRing_members (HashRing_add r s) ≠ [].
Proof.
  intros Hvn E. pose proof (members_ids (HashRing_add r s) (silo_id s)) as Hm. rewrite E in Hm.
  cbn [fmap list_fmap] in Hm. apply (not_elem_of_nil (silo_id s)), Hm. exists (vnode_key (silo_id s) 0), s.
  split; [|done]. rewrite lookup_add, decide_True; [done|].
  apply list_elem_of_fmap. exists 0. split; [done|]. apply elem_of_seqZ. lia.
Qed.

(** Readiness does not wait for a join: a silo that was just built, without having
    contacted any other silo, is already reported as ready (the ring it starts with contains
    itself), unless its store probe fails. *)
Theorem ready_before_joining uuid b :
  0 < b_virtual_nodes b →
  let cs := ClusterSiloBuilder_build uuid b in
  Swim.members (nd_swim (cs_node cs)) = ∅ ∧
  readyz (cs_ring cs) (cs_store_probe cs) =
    match b_store_probe b with Some (Err _) => (503, "store probe failed") | _ => (200, "ready") end.
Proof.
  intros Hvn cs. split; [done|]. unfold readyz. rewrite bool_decide_false; [done|].
  by apply ring_add_members_ne.
Qed.

Lemma ready_before_joining_witness :
  let cs := ClusterSiloBuilder_build "silo-1" ClusterSiloBuilder_new in
  readyz (cs_ring cs) (cs_store_probe cs) = (200, "ready").
Proof. exact (proj2 (ready_before_joining "silo-1" ClusterSiloBuilder_new eq_refl)). Defined.

(** A token alone does not protect a silo: [auth_token] only makes it send the token, its own services
    authenticate nothing, although [build] then does not warn and its message names either setter. *)
Lemma token_alone_does_not_authenticate uuid b token parses_addr now tasks services silo :
  b_auth b = None →
  serve parses_addr now (ClusterSiloBuilder_build uuid (ClusterSiloBuilder_set b (SetAuthToken token)))
    = (tasks, Some (services, silo)) →
  auth_token (sl_pool silo) = Some token ∧ ∀ md, check_auth (sl_auth silo) md = Ok ().
Proof.
  intros Ha Hs. unfold serve in Hs. repeat case_match; simplify_eq/=; rewrite Ha;
    (split; [by destruct (b_tls_ca b)|done]).
Qed.

(** ** References follow the placement *)

(** [get_ref] on every branch: with the silo's own strategy, a hint, or an unknown hint, the
    reference is local exactly when the placement names this silo or nobody, and the grain is then activated
    here and nowhere else; otherwise it addresses the endpoint of the placed silo and the
    local directory is untouched.  The ring, the pool and the membership state never change. *)
Theorem get_ref_follows_placement rnd cs grain_type hint key :
  let '(cs', r) := get_ref rnd cs grain_type hint key in
  let target := place rnd (hinted_placement cs hint) grain_type key
                  (silo_id (cs_local_addr cs)) (cs_ring cs) in
  let here := match target with
              | Some t => bool_decide (silo_id t = silo_id (cs_local_addr cs))
              | None => true end in
  cs_node cs' = cs_node cs ∧ cr_retry r = cs_retry_policy cs ∧
  (if here then
     cr_inner r = RefLocal (GrainDirectory_get_or_insert (cs_directory cs) (mkGrainId grain_type key)).2 ∧
     cs_directory cs' = (GrainDirectory_get_or_insert (cs_directory cs) (mkGrainId grain_type key)).1
   else
     ∃ t, target = Some t ∧ cr_inner r = RefRemote (endpoint t) grain_type key ∧ cs' = cs) ∧
  (hint ≠ Some "prefer_local" → hint ≠ Some "random" → cs_placement cs = HashBasedPlacement →
   target = HashRing_get (cs_ring cs) (slash grain_type key)).
Proof.
  assert (hint ≠ Some "prefer_local" → hint ≠ Some "random" → hinted_placement cs hint = cs_placement cs) as Hh.
  { intros H1 H2. destruct hint as [h|]; [|done]. cbn. by rewrite !bool_decide_false by congruence. }
  unfold get_ref, local_activate.
  destruct (GrainDirectory_get_or_insert (cs_directory cs) (mkGrainId grain_type key)) as [w sd].
  destruct (place rnd _ grain_type key _ _) as [t|] eqn:P.
  - case_bool_decide as E; cbn; (split_and!; [done..| |]).
    + done.
    + intros H1 H2 Hc. by rewrite Hh, Hc in P by done.
    + by exists t.
    + intros H1 H2 Hc. by rewrite Hh, Hc in P by done.
  - cbn. split_and!; [done..|]. intros H1 H2 Hc. by rewrite Hh, Hc in P by done.
Qed.

(** A silo on its own ring places a preferring-local grain on itself. *)
Lemma prefer_local_here rnd cs grain_type key :
  silo_id (cs_local_addr cs) ∈ ring_ids (cs_ring cs) →
  ∃ t, place rnd PreferLocalPlacement grain_type key (silo_id (cs_local_addr cs)) (cs_ring cs) = Some t ∧
       silo_id t = silo_id (cs_local_addr cs).
Proof.
  intros Hin. cbn. unfold ring_ids in Hin. apply elem_of_list_to_set, list_elem_of_fmap in Hin as (s & Hs & Hin).
  destruct (list_find (λ x, silo_id x = silo_id (cs_local_addr cs)) (HashRing_members (cs_ring cs)))
    as [[i t]|] eqn:F.
  - apply list_find_Some in F as (_ & Ht & _). by exists t.
  - apply list_find_None in F. rewrite Forall_forall in F. exfalso. by apply (F s Hin).
Qed.

(** Placement hints break the cluster-wide single activation: two silos that agree on the
    ring each activate a grain that prefers the local silo, so the same grain id is active
    twice, whichever silo the first call reached. *)
Theorem prefer_local_duplicates rnd cs1 cs2 grain_type key :
  cs_ring cs1 = cs_ring cs2 →
  silo_id (cs_local_addr cs1) ≠ silo_id (cs_local_addr cs2) →
  silo_id (cs_local_addr cs1) ∈ ring_ids (cs_ring cs1) →
  silo_id (cs_local_addr cs2) ∈ ring_ids (cs_ring cs2) →
  let g := mkGrainId grain_type key in
  live_sender (cs_directory cs1) g = None → draining (rt_dir (cs_directory cs1)) = false →
  ¬ at_limit (cs_directory cs1) →
  live_sender (cs_directory cs2) g = None → draining (rt_dir (cs_directory cs2)) = false →
  ¬ at_limit (cs_directory cs2) →
  let '(cs1', r1) := get_ref rnd cs1 grain_type (Some "prefer_local") key in
  let '(cs2', r2) := get_ref rnd cs2 grain_type (Some "prefer_local") key in
  (∃ s1, cr_inner r1 = RefLocal s1 ∧ live_sender (cs_directory cs1') g = Some s1) ∧
  (∃ s2, cr_inner r2 = RefLocal s2 ∧ live_sender (cs_directory cs2') g = Some s2).
Proof.
  intros Hr Hne H1 H2 g L1 D1 M1 L2 D2 M2.
  assert (∀ cs, silo_id (cs_local_addr cs) ∈ ring_ids (cs_ring cs) →
    live_sender (cs_directory cs) g = None → draining (rt_dir (cs_directory cs)) = false →
    ¬ at_limit (cs_directory cs) →
    ∃ cs' r s, get_ref rnd cs grain_type (Some "prefer_local") key = (cs', r) ∧
      cr_inner r = RefLocal s ∧ live_sender (cs_directory cs') g = Some s) as Hone.
  { intros cs Hin L D M. destruct (prefer_local_here rnd cs grain_type key Hin) as (t & P & Ht).
    unfold get_ref, local_activate. change (hinted_placement cs (Some "prefer_local")) with PreferLocalPlacement.
    rewrite P, bool_decide_true by done.
    generalize (get_or_insert_created (cs_directory cs) g L D M). unfold g.
    destruct (GrainDirectory_get_or_insert _ _) as [w s]. intros (-> & Ho & _ & Ha).
    eexists _, _, _. split; [done|]. split; [done|]. apply live_sender_Some. cbn.
    unfold GrainDirectory_get_sender. rewrite Ha, Ho, lookup_insert_eq. split; [done|set_solver]. }
  destruct (Hone cs1 H1 L1 D1 M1) as (cs1' & r1 & s1 & -> & ? & ?).
  destruct (Hone cs2 H2 L2 D2 M2) as (cs2' & r2 & s2 & -> & ? & ?). split; eauto.
Qed.

(** Two built silos that have joined each other's ring. *)
Definition fresh_silo (a : SiloAddress) (token : option string) : ClusterSilo :=
  ClusterSiloBuilder_build (silo_id a)
    (foldl ClusterSiloBuilder_set ClusterSiloBuilder_new
       ([SetHost (host a); SetPort (port a); SetSiloId (silo_id a); SetVirtualNodes 4] ++
        match token with
        | Some tk => [SetAuth (SharedSecretAuth_new tk); SetAuthToken tk]
        | None => []
        end)).

Definition joined_silo (a : SiloAddress) : ClusterSilo :=
  let cs := fresh_silo a None in
  with_cs_node cs (mkNode (nd_swim (cs_node cs)) (ring_of 4 [silo_a; silo_b]) ConnectionPool_new []).

Lemma prefer_local_duplicates_witness :
  let cs1 := joined_silo silo_a in
  let cs2 := joined_silo silo_b in
  let '(cs1', r1) := get_ref (λ _, 0%nat) cs1 "Cache" (Some "prefer_local") "k" in
  let '(cs2', r2) := get_ref (λ _, 0%nat) cs2 "Cache" (Some "prefer_local") "k" in
  (∃ s1, cr_inner r1 = RefLocal s1 ∧ live_sender (cs_directory cs1') (mkGrainId "Cache" "k") = Some s1) ∧
  (∃ s2, cr_inner r2 = RefLocal s2 ∧ live_sender (cs_directory cs2') (mkGrainId "Cache" "k") = Some s2).
Proof.
  intros cs1 cs2.
  apply (prefer_local_duplicates (λ _, 0%nat) cs1 cs2 "Cache" "k").
  - reflexivity.
  - discriminate.
  - apply (bool_decide_unpack _). vm_compute. exact I.
  - apply (bool_decide_unpack _). vm_compute. exact I.
  - reflexivity.
  - reflexivity.
  - intros [H _]. cbn in H. lia.
  - reflexivity.
  - reflexivity.
  - intros [H _]. cbn in H. lia.
Defined.

(** ** Joining a cluster *)
Section join_proofs.
Context (connects : string → bool) (status_display : Status → string) (now : Z).
Implicit Types (cs : ClusterSilo) (peers : Peers) (s : MembershipService).

(** Two silos with the same membership state, up to the connection pool. *)
Definition same_membership cs cs' : Prop :=
  cs_ring cs' = cs_ring cs ∧ nd_swim (cs_node cs') = nd_swim (cs_node cs) ∧
  cs_local_addr cs' = cs_local_addr cs.

Lemma same_node_ok vn U cs cs' :
  same_membership cs cs' → node_ok vn U (cs_node cs) → node_ok vn U (cs_node cs').
Proof.
  intros (Hr & Hs & _) Hn. apply (node_ok_frame vn U (cs_node cs)); [done|exact Hr|..];
    unfold member_ids; rewrite Hs; done || apply Hn.
Qed.

Lemma dial_same cs ep : same_membership cs (cs_dial connects cs ep).1.
Proof.
  unfold cs_dial. by destruct (ConnectionPool_get_membership connects (nd_pool (cs_node cs)) ep).
Qed.

Lemma join_needs_token s j :
  is_Some (ms_auth s) → ∃ e, join now s None j = (s, Err e).
Proof. intros [a Ha]. unfold join. rewrite Ha. cbn. eauto. Qed.

Lemma join_refused cs peers seed :
  map_Forall (λ _ s, is_Some (ms_auth s)) peers →
  let '(cs', peers', r) := join_cluster connects status_display now cs peers seed in
  same_membership cs cs' ∧ peers' = peers ∧ is_ok r = false.
Proof.
  intros Ha. unfold join_cluster. pose proof (dial_same cs seed) as Hd.
  destruct (cs_dial connects cs seed) as [cs1 []]; [|done].
  destruct (peers !! seed) as [s|] eqn:E; [|done].
  destruct (join_needs_token s (Some (to_proto_addr (cs_local_addr cs1))) (Ha _ _ E)) as (e & ->).
  split_and!; [done| |done]. by apply insert_id.
Qed.

Lemma try_seeds_refused seeds cs peers :
  map_Forall (λ _ s, is_Some (ms_auth s)) peers →
  let '(cs', peers', r) := try_seeds connects status_display now cs peers seeds in
  same_membership cs cs' ∧ peers' = peers ∧ is_ok r = false.
Proof.
  intros Ha. revert cs. induction seeds as [|s seeds IH]; intros cs; cbn [try_seeds]; [done|].
  case_bool_decide; [apply IH|]. pose proof (join_refused cs peers (endpoint s) Ha) as Hj.
  destruct (join_cluster _ _ _ cs peers (endpoint s)) as [[cs1 peers1] [|]]; destruct Hj as (Hs & -> & Hr);
    [done|].
  specialize (IH cs1). destruct (try_seeds _ _ _ cs1 peers seeds) as [[cs2 peers2] r].
  destruct IH as ((H1 & H2 & H3) & -> & ?), Hs as (H4 & H5 & H6).
  split_and!; [|done..]. unfold same_membership. by rewrite H1, H2, H3.
Qed.

End join_proofs.

(** *** Adopting the seed's members *)
Definition table_of (local_id : string) (l : list SiloAddress) (m : gmap string SwimMember) :=
  foldl (λ m silo, if bool_decide (silo_id silo ≠ local_id)
                   then <[silo_id silo := mkMember silo MAlive 0]> m else m) m l.

Lemma table_of_dom local l m : dom (table_of local l m) = dom m ∪ (ids l ∖ {[local]}).
Proof.
  unfold table_of. revert m. induction l as [|s l IH]; intros m; cbn [foldl].
  - unfold ids. cbn. set_solver.
  - rewrite IH, ids_cons. case_bool_decide as Hs.
    + rewrite dom_insert_L. set_solver.
    + destruct (decide (silo_id s = local)) as [->|]; [set_solver|done].
Qed.

Lemma table_of_keyed local l m :
  map_Forall (λ id x, silo_id (sm_addr x) = id) m →
  map_Forall (λ id x, silo_id (sm_addr x) = id) (table_of local l m).
Proof.
  revert m. induction l as [|s l IH]; intros m Hm; [done|]. cbn. apply IH.
  case_bool_decide; [by apply map_Forall_insert_2|done].
Qed.

Lemma adopt_ok vn U cs l :
  universe_ok vn U → node_ok vn U (cs_node cs) →
  local_id (nd_swim (cs_node cs)) = silo_id (cs_local_addr cs) →
  ids l ⊆ U →
  node_ok vn U (cs_node (adopt_members cs l)) ∧
  ring_ids (cs_ring (adopt_members cs l)) = ids l ∪ ring_ids (cs_ring cs).
Proof.
  intros HU [Hring Hagree Hloc Hkey Hq] Hl Hids.
  destruct (ring_ids_adds vn U HU l (nd_ring (cs_node cs)) Hring Hids) as [Hr Hi].
  assert (member_ids (cs_node (adopt_members cs l))
    = member_ids (cs_node cs) ∪ (ids l ∖ {[silo_id (cs_local_addr cs)]})) as Hm by apply table_of_dom.
  assert (local_id (nd_swim (cs_node (adopt_members cs l))) = silo_id (cs_local_addr cs)) as Hl' by exact Hl.
  rewrite Hl in Hagree, Hloc. split; [|exact Hi]. split.
  - exact Hr.
  - rewrite Hm, Hl'. change (nd_ring (cs_node (adopt_members cs l))) with (foldl HashRing_add (nd_ring (cs_node cs)) l).
    rewrite Hi, Hagree. apply set_eq. intros x. destruct (decide (x = silo_id (cs_local_addr cs))); set_solver.
  - rewrite Hm, Hl'. set_solver.
  - by apply table_of_keyed.
  - exact Hq.
Qed.

(** *** Announcing the new silo *)
Section announce_proofs.
Context (connects : string → bool) (now : Z).
Implicit Types (cs : ClusterSilo) (peers : Peers) (s : MembershipService).

Definition knows (id : string) s : Prop := id ∈ ring_ids (nd_ring (ms_node s)).
Definition admits s : Prop :=
  ms_auth s = None ∧ is_ok (RateLimiter_check now (ms_join_limiter s)).2 = true ∧
  0 < virtual_nodes (nd_ring (ms_node s)).

Lemma knows_after_add r a : 0 < virtual_nodes r → silo_id a ∈ ring_ids (HashRing_add r a).
Proof.
  intros Hvn. apply elem_of_ring_ids. exists (vnode_key (silo_id a) 0), a. split; [|done].
  rewrite lookup_add, decide_True; [done|].
  apply list_elem_of_fmap. exists 0. split; [done|]. apply elem_of_seqZ. lia.
Qed.

Lemma notify_join_knows s a :
  knows (silo_id a) s ∨ admits s → knows (silo_id a) (notify_join now s None (Some (to_proto_addr a))).1.
Proof.
  unfold notify_join. intros Hs. destruct (ms_auth s) eqn:Ha.
  { destruct Hs as [Hk|[Hn _]]; [done|congruence]. }
  cbn [check_auth]. destruct (RateLimiter_check now (ms_join_limiter s)) as [l []] eqn:Hl.
  - rewrite known_on_ring_spec. cbn [ms_node with_limiter].
    change (silo_id (from_proto_addr (to_proto_addr a))) with (silo_id a).
    case_bool_decide as Hk; [done|].
    destruct Hs as [?|(_ & _ & Hvn)]; [done|]. unfold knows. cbn [ms_node with_node nd_ring].
    change (silo_id a) with (silo_id (from_proto_addr (to_proto_addr a))). by apply knows_after_add.
  - destruct Hs as [Hk|(_ & Hok & _)]; [done|]. by rewrite Hl in Hok.
Qed.

Context (Hconn : ∀ uri, connects uri = true).

Lemma dial_connects cs ep : (cs_dial connects cs ep).2 = true.
Proof.
  unfold cs_dial, ConnectionPool_get_membership. case_bool_decide; [done|]. by rewrite Hconn.
Qed.

Lemma announce_spec members cs peers seed :
  let id := silo_id (cs_local_addr cs) in
  let '(cs', peers') := announce connects now cs peers seed members in
  same_membership cs cs' ∧
  (∀ ep s, peers !! ep = Some s → ∃ s', peers' !! ep = Some s' ∧ (knows id s → knows id s')) ∧
  (∀ m s, m ∈ members → silo_id m ≠ id → endpoint m ≠ seed → peers !! endpoint m = Some s →
     knows id s ∨ admits s → ∃ s', peers' !! endpoint m = Some s' ∧ knows id s').
Proof.
  cbn zeta. revert cs peers. induction members as [|m ms IH]; intros cs peers; cbn [announce].
  { split_and!; [done|eauto|]. intros m s Hm. by apply not_elem_of_nil in Hm. }
  case_bool_decide as Hid; [|case_bool_decide as Hseed].
  1,2: specialize (IH cs peers); destruct (announce _ _ cs peers seed ms) as [cs' peers'];
    destruct IH as (Hs & Hf & Hk); split_and!; [done..|];
    intros m' s [->|Hm]%elem_of_cons; [done|by apply Hk].
  pose proof (dial_same connects cs (endpoint m)) as Hd. pose proof (dial_connects cs (endpoint m)) as Hc.
  destruct (cs_dial connects cs (endpoint m)) as [cs1 b]. cbn in Hc. subst b.
  destruct Hd as (Hd1 & Hd2 & Hd3). cbn [fst] in *. rewrite Hd3 in *.
  set (peers1 := match peers !! endpoint m with Some s => _ | None => _ end).
  assert (∀ ep s, peers !! ep = Some s → ∃ s1, peers1 !! ep = Some s1 ∧
    (knows (silo_id (cs_local_addr cs)) s → knows (silo_id (cs_local_addr cs)) s1) ∧
    (ep ≠ endpoint m → s1 = s) ∧
    (ep = endpoint m → knows (silo_id (cs_local_addr cs)) s ∨ admits s →
       knows (silo_id (cs_local_addr cs)) s1)) as Hstep.
  { intros ep s Hs. unfold peers1. destruct (decide (ep = endpoint m)) as [->|Hne].
    - rewrite Hs, lookup_insert_eq. eexists. split; [done|].
      split_and!; [|done|]; intros; apply notify_join_knows; auto.
    - exists s. split; [|naive_solver].
      destruct (peers !! endpoint m); [by rewrite lookup_insert_ne|done]. }
  specialize (IH cs1 peers1). rewrite Hd3 in IH.
  destruct (announce _ _ cs1 peers1 seed ms) as [cs' peers']. destruct IH as ((Hs1 & Hs2 & Hs3) & Hf & Hk).
  split_and!.
  - unfold same_membership. by rewrite Hs1, Hs2, Hs3.
  - intros ep s Hs. destruct (Hstep ep s Hs) as (s1 & E1 & Hk1 & _).
    destruct (Hf ep s1 E1) as (s' & E' & Hk'). eauto.
  - intros m' s Hm Hne Hns Hs Hready. destruct (Hstep _ s Hs) as (s1 & E1 & Hk1 & Hsame & Hnew).
    destruct (decide (endpoint m' = endpoint m)) as [Heq|Hdiff].
    + destruct (Hf _ s1 E1) as (s' & E' & Hk'). exists s'. eauto.
    + apply elem_of_cons in Hm as [->|Hm]; [done|]. rewrite (Hsame Hdiff) in E1.
      by apply (Hk m' s).
Qed.

(** What an admitting seed answers: its members and the joiner, which it then knows. *)
Lemma seed_answers vn U s a :
  universe_ok vn U → ring_ok vn U (nd_ring (ms_node s)) → silo_id a ∈ U → admits s →
  ∃ s1 answer, join now s None (Some (to_proto_addr a)) = (s1, Ok answer) ∧ knows (silo_id a) s1 ∧
    ids (from_proto_addr <$> answer) = {[silo_id a]} ∪ ring_ids (nd_ring (ms_node s)).
Proof.
  intros HU Hr Ha (Hauth & Hlim & Hvn). unfold join. rewrite Hauth. cbn [check_auth].
  destruct (RateLimiter_check now (ms_join_limiter s)) as [l [|]]; [|done].
  eexists _, _. split; [done|]. split.
  - unfold knows. change (silo_id a) with (silo_id (from_proto_addr (to_proto_addr a))).
    by apply knows_after_add.
  - destruct (ring_ids_add vn U HU (nd_ring (ms_node s)) (from_proto_addr (to_proto_addr a)) Hr Ha) as [_ Hi].
    cbn [ms_node with_limiter]. unfold ids. rewrite <-!list_fmap_compose.
    etransitivity; [|etransitivity; [exact Hi|set_solver]]. done.
Qed.
End announce_proofs.

(** C27: joining spreads the new silo: when the seed admits it and members can be dialled,
    [join_cluster] succeeds, the joiner keeps its ring in agreement with its
    member table and has exactly its own silos and the seed's on it, the seed has the joiner on its
    ring, and so has every announced member that lets it in. *)
Theorem join_cluster_spreads connects status_display now vn U cs (peers : Peers) seed s :
  (∀ uri, connects uri = true) → universe_ok vn U →
  node_ok vn U (cs_node cs) → local_id (nd_swim (cs_node cs)) = silo_id (cs_local_addr cs) →
  node_ok vn U (ms_node s) → peers !! seed = Some s → admits now s →
  let id := silo_id (cs_local_addr cs) in
  ∃ cs' peers' members,
    join_cluster connects status_display now cs peers seed = (cs', peers', Ok tt) ∧
    node_ok vn U (cs_node cs') ∧
    ids members = {[id]} ∪ ring_ids (nd_ring (ms_node s)) ∧
    ring_ids (cs_ring cs') = ring_ids (cs_ring cs) ∪ ids members ∧
    (∃ s', peers' !! seed = Some s' ∧ knows id s') ∧
    (∀ m p, m ∈ members → silo_id m ≠ id → endpoint m ≠ seed → peers !! endpoint m = Some p →
       admits now p → ∃ p', peers' !! endpoint m = Some p' ∧ knows id p').
Proof.
  intros Hconn HU Hn Hl Hs Hseed Hadm id.
  assert (id ∈ U) as Hid.
  { apply (ro_ids _ _ _ (no_ring _ _ _ Hn)). rewrite (no_agree _ _ _ Hn), Hl. set_solver. }
  unfold join_cluster. pose proof (dial_same connects cs seed) as (Hd1 & Hd2 & Hd3).
  pose proof (dial_connects connects Hconn cs seed) as Hc.
  assert (node_ok vn U (cs_node (cs_dial connects cs seed).1)) as Hn1.
  { by apply (same_node_ok vn U cs). }
  destruct (cs_dial connects cs seed) as [cs1 ok]. cbn [fst snd] in *. subst ok. rewrite Hseed, Hd3.
  destruct (seed_answers now vn U s (cs_local_addr cs) HU (no_ring _ _ _ Hs) Hid Hadm)
    as (s1 & answer & -> & Hk & Hids). fold id in Hk, Hids.
  destruct (adopt_ok vn U cs1 (from_proto_addr <$> answer) HU Hn1) as [Hok Hring].
  { by rewrite Hd2, Hd3. }
  { rewrite Hids. pose proof (ro_ids _ _ _ (no_ring _ _ _ Hs)). set_solver. }
  pose proof (announce_spec connects now Hconn (from_proto_addr <$> answer)
    (adopt_members cs1 (from_proto_addr <$> answer)) (<[seed := s1]> peers) seed) as Ha.
  destruct (announce _ _ _ _ _ _) as [cs' peers'].
  change (cs_local_addr (adopt_members cs1 (from_proto_addr <$> answer))) with (cs_local_addr cs1) in Ha.
  rewrite Hd3 in Ha. fold id in Ha. destruct Ha as (Hsame & Hf & Hall).
  eexists cs', peers', (from_proto_addr <$> answer). split_and!; [done| |done| | |].
  - by apply (same_node_ok vn U (adopt_members cs1 (from_proto_addr <$> answer))).
  - rewrite (proj1 Hsame), Hring, Hd1. set_solver.
  - destruct (Hf seed s1) as (s' & E & Hk'); [by rewrite lookup_insert_eq|]. eauto.
  - intros m p Hm Hne Hns Hp Hpa. destruct (Hall m p Hm Hne Hns) as (p' & ? & ?); [|auto|eauto].
    by rewrite lookup_insert_ne.
Qed.

Lemma join_cluster_spreads_witness :
  let peers : Peers := {[endpoint silo_a := MembershipService_new 0 (Node_new 4 silo_a) 6 None]} in
  ∃ cs' peers' members,
    join_cluster (λ _, true) (λ _, "") 0 (fresh_silo silo_b None) peers (endpoint silo_a)
      = (cs', peers', Ok tt) ∧
    ids members = {["A"; "B"]} ∧ ring_ids (cs_ring cs') = {["A"; "B"]}.
Proof.
  intros peers. pose (U := {["A"; "B"]} : gset string).
  assert (universe_ok 4 U) as HU by (apply (bool_decide_unpack _); vm_compute; exact I).
  destruct (join_cluster_spreads (λ _, true) (λ _, "") 0 4 U (fresh_silo silo_b None) peers
    (endpoint silo_a) (MembershipService_new 0 (Node_new 4 silo_a) 6 None))
    as (cs' & peers' & ms & Hj & _ & Hm & Hr & _).
  - done.
  - exact HU.
  - apply build_node_ok; [exact HU|done|]. apply (bool_decide_unpack _). vm_compute. exact I.
  - done.
  - apply Node_new_ok; [exact HU|]. apply (bool_decide_unpack _). vm_compute. exact I.
  - apply lookup_singleton_eq.
  - split_and!; [done|vm_compute; reflexivity|done].
  - exists cs', peers', ms. split_and!; [exact Hj|rewrite Hm|rewrite Hr, Hm];
      apply (bool_decide_unpack _); vm_compute; exact I.
Defined.

(** ** Authentication and joining *)

(** A cluster that authenticates cannot be joined: the join and announcement requests carry no
    token, so when every silo asks for one [discover_and_join] fails through
    whichever seeds the provider names and whatever token the joining silo is configured with; no membership
    state changes on either side. *)
Theorem authenticated_cluster_cannot_be_joined connects status_display now cs (peers : Peers) answer :
  map_Forall (λ _ s, is_Some (ms_auth s)) peers →
  let '(cs', peers', r) := discover_and_join connects status_display now cs peers answer in
  same_membership cs cs' ∧ peers' = peers ∧ is_ok r = false.
Proof.
  intros Ha. unfold discover_and_join. destruct answer as [seeds|[m]]; [|done].
  by apply try_seeds_refused.
Qed.

Lemma authenticated_cluster_cannot_be_joined_witness :
  let seed := MembershipService_new 0 (Node_new 4 silo_a) 6 (Some (SharedSecretAuth_new "secret")) in
  let peers : Peers := {[endpoint silo_a := seed]} in
  let '(cs', peers', r) := discover_and_join (λ _, true) (λ _, "") 0 (fresh_silo silo_b (Some "secret"))
                             peers (Ok [silo_a]) in
  same_membership (fresh_silo silo_b (Some "secret")) cs' ∧ peers' = peers ∧ is_ok r = false.
Proof.
  intros seed peers.
  apply (authenticated_cluster_cannot_be_joined (λ _, true) (λ _, "") 0 _ peers (Ok [silo_a])).
  apply map_Forall_singleton. eexists. reflexivity.
Defined.
