(* ===== verification/Client.v ===== *)
(** * The external client

    orlando-client [lib.rs] and [error.rs]: a process outside the cluster that learns the members from
    any silo, routes calls with a ring of its own, refreshes it and retries once. *)
From S2P Require Import Prelude CoreTypes HashRing Mailbox Directory Calls Auth Swim Membership.
From S2P Require Import CrossCluster Replication Registry Transport ClusterRef.

Inductive ClientError :=
| CConnection (m : string)
| CTransport (m : string)
| CNoSiloAvailable
| CGrainError (m : string)
| CSerialization (m : string)
| CDeserialization (m : string).
#[global] Instance ClientError_eq_dec : EqDecision ClientError.
Proof. solve_decision. Defined.

(** [impl Display for ClientError] *)
Definition ClientError_display (e : ClientError) : string :=
  match e with
  | CConnection m => "connection failed: " +:+ m
  | CTransport m => "transport error: " +:+ m
  | CNoSiloAvailable => "no silo available for grain"
  | CGrainError m => "grain error: " +:+ m
  | CSerialization m => "serialization failed: " +:+ m
  | CDeserialization m => "deserialization failed: " +:+ m
  end.

(** Durations in milliseconds. *)
Record OrlandoClient := mkClient {
  cl_pool : ConnectionPool; cl_ring : HashRing; request_timeout : Z }.

Definition with_request_timeout (c : OrlandoClient) (timeout : Z) : OrlandoClient :=
  mkClient (cl_pool c) (cl_ring c) timeout.
Definition cl_with_pool (c : OrlandoClient) (p : ConnectionPool) : OrlandoClient :=
  mkClient p (cl_ring c) (request_timeout c).
Definition cl_with_ring (c : OrlandoClient) (r : HashRing) : OrlandoClient :=
  mkClient (cl_pool c) r (request_timeout c).

(** What becomes of a sent request: it is answered in time, it is lost, or the silo carries it out but
    the deadline elapses before the answer arrives. *)
Inductive Fate := Answered | Lost | Late.

Section client.
Context (connects parses : string → bool) (arrival : list SiloAddress → list (SiloAddress * bool)).
Context (status_display : Status → string) (rpc_failure : Status) (now : Z).
Abbreviation invoke' := (invoke connects parses arrival status_display rpc_failure now).

(** Asking the silo at [ep] for its members; the request carries no token. *)
Definition ask_members (p : ConnectionPool) (w : World) (ep : string)
  : ConnectionPool * result ClientError (list SiloAddress) :=
  match ConnectionPool_get_membership connects p ep with
  | (p, false) => (p, Err (CConnection "transport error: "))
  | (p, true) =>
      (p, match w_silos w !! ep with
          | None => Err (CConnection (status_display rpc_failure))
          | Some s =>
              match get_members (sl_service s) None with
              | Err e => Err (CConnection (status_display e))
              | Ok ms => Ok (from_proto_addr <$> ms)
              end
          end)
  end.

Definition connect_through (pool : ConnectionPool) (w : World) (ep : string)
  : result ClientError OrlandoClient :=
  match ask_members pool w ep with
  | (_, Err e) => Err e
  | (p, Ok members) =>
      if bool_decide (members = []) then Err (CConnection "cluster returned no members")
      else Ok (mkClient p (foldl HashRing_add (HashRing_new 150) members) 30000)
  end.

Definition OrlandoClient_connect : World → string → result ClientError OrlandoClient :=
  connect_through ConnectionPool_new.
Definition OrlandoClient_connect_tls : World → string → result ClientError OrlandoClient :=
  connect_through ConnectionPool_with_tls.

(** [refresh_membership]: the first member that answers gives the new ring. *)
Fixpoint refresh_from (c : OrlandoClient) (w : World) (members : list SiloAddress)
  : OrlandoClient * result ClientError unit :=
  match members with
  | [] => (c, Err (CConnection "no reachable silos for membership refresh"))
  | m :: members' =>
      match ask_members (cl_pool c) w (endpoint m) with
      | (p, Ok new_members) =>
          (cl_with_ring (cl_with_pool c p) (foldl HashRing_add (HashRing_new 150) new_members), Ok ())
      | (p, Err _) => refresh_from (cl_with_pool c p) w members'
      end
  end.

Definition refresh_membership (c : OrlandoClient) (w : World) : OrlandoClient * result ClientError unit :=
  refresh_from c w (HashRing_members (cl_ring c)).

(** The request that [invoke] sends. *)
Definition client_request (grain_type grain_key message_type : string) (payload : bytes) (encoding : Z)
  : InvokeRequest := mkInvoke grain_type grain_key message_type payload encoding ∅ 0.

Definition deadline_status : Status := StatusOther "client-side request timeout".

(** Sending the request under the deadline. *)
Definition timed_invoke (f : Fate) (w : World) (ep : string) (req : InvokeRequest)
  : World * result Status InvokeResponse :=
  match f with
  | Lost => (w, Err deadline_status)
  | Answered =>
      match invoke' 4 w ep None req with Some out => out | None => (w, Err rpc_failure) end
  | Late =>
      match invoke' 4 w ep None req with
      | Some (w, _) => (w, Err deadline_status)
      | None => (w, Err deadline_status)
      end
  end.

Definition client_answer (r : InvokeResponse) : result ClientError bytes :=
  if bool_decide (rs_error r ≠ "") then Err (CGrainError (rs_error r)) else Ok (rs_payload r).

(** The loop of [invoke], with the fates of the requests it sends; [attempts] counts the passes
    left and [attempt] is the loop variable. *)
Fixpoint invoke_loop (attempts attempt : nat) (fates : nat → Fate) (c : OrlandoClient) (w : World)
  (req : InvokeRequest) : OrlandoClient * World * result ClientError bytes :=
  match attempts with
  | O => (c, w, Err CNoSiloAvailable)
  | S attempts' =>
      match HashRing_get (cl_ring c) (slash (iv_grain_type req) (iv_grain_key req)) with
      | None => (c, w, Err CNoSiloAvailable)
      | Some target =>
          match ConnectionPool_get_transport connects (cl_pool c) (endpoint target) with
          | (p, false) =>
              let c := cl_with_pool c p in
              if bool_decide (attempt = 0%nat) then
                invoke_loop attempts' (S attempt) fates (refresh_membership c w).1 w req
              else (c, w, Err (CConnection "transport error: "))
          | (p, true) =>
              let c := cl_with_pool c p in
              match timed_invoke (fates attempt) w (endpoint target) req with
              | (w, Ok r) => (c, w, client_answer r)
              | (w, Err e) =>
                  if bool_decide (attempt = 0%nat) then
                    let c := cl_with_pool c (ConnectionPool_remove p (endpoint target)) in
                    invoke_loop attempts' (S attempt) fates (refresh_membership c w).1 w req
                  else (c, w, Err (CTransport (status_display e)))
              end
          end
      end
  end.

Definition client_invoke (fates : nat → Fate) (c : OrlandoClient) (w : World)
  (grain_type grain_key message_type : string) (payload : bytes) (encoding : Z)
  : OrlandoClient * World * result ClientError bytes :=
  invoke_loop 2 0 fates c w (client_request grain_type grain_key message_type payload encoding).

(** ** Handles *)
Record GrainHandle := mkHandle { gh_grain_type : string; gh_grain_key : string }.
Definition OrlandoClient_grain (grain_type grain_key : string) : GrainHandle :=
  mkHandle grain_type grain_key.

Definition GrainHandle_ask {M R} (nm : NetworkMessage M R) (fates : nat → Fate) (h : GrainHandle)
  (c : OrlandoClient) (w : World) (msg : M) : OrlandoClient * World * result ClientError R :=
  match bincode_encode nm msg with
  | Err e => (c, w, Err (CSerialization e))
  | Ok payload =>
      match client_invoke fates c w (gh_grain_type h) (gh_grain_key h) (message_type_name nm) payload
              (Encoding_to_proto Bincode) with
      | (c, w, Err e) => (c, w, Err e)
      | (c, w, Ok b) => (c, w, map_err CDeserialization (bincode_decode_result nm b))
      end
  end.

Definition GrainHandle_ask_proto (fates : nat → Fate) (h : GrainHandle) (c : OrlandoClient) (w : World)
  (message_type : string) (payload : bytes) : OrlandoClient * World * result ClientError bytes :=
  client_invoke fates c w (gh_grain_type h) (gh_grain_key h) message_type payload
    (Encoding_to_proto Protobuf).
End client.

(** ** A ring rebuilt from its member list *)
Lemma ring_of_lookup_sound vn l j s : ring (ring_of vn l) !! j = Some s → s ∈ l.
Proof.
  unfold ring_of. assert (∀ r, ring (foldl HashRing_add r l) !! j = Some s → s ∈ l ∨ ring r !! j = Some s) as H.
  { induction l as [|t l IH]; intros r; cbn [foldl]; [by right|]. intros [?|Hr]%IH; [left; by right|].
    rewrite lookup_add in Hr. case_decide; [simplify_eq; left; by left|by right]. }
  intros Hj. destruct (H _ Hj) as [?|He]; [done|]. cbn in He. by rewrite lookup_empty in He.
Qed.

Lemma foldl_add_vn r l : virtual_nodes (foldl HashRing_add r l) = virtual_nodes r.
Proof. revert r. induction l as [|s l IH]; intros r; [done|]. cbn. by rewrite IH. Qed.

Lemma ring_of_lookup_complete vn l s :
  0 < vn → collisions_free vn l → s ∈ l → ∃ j, ring (ring_of vn l) !! j = Some s.
Proof.
  intros Hvn Hc Hs. exists (vnode_key (silo_id s) 0). unfold ring_of.
  assert (vnode_key (silo_id s) 0 ∈ vnodes vn (silo_id s)) as Hin.
  { apply list_elem_of_fmap. exists 0. split; [done|]. apply elem_of_seqZ. lia. }
  assert (∀ r, virtual_nodes r = vn →
    (s ∈ l ∨ ring r !! vnode_key (silo_id s) 0 = Some s) →
    (∀ t, t ∈ l → s = t ∨ collision_free vn (silo_id s) (silo_id t)) →
    ring (foldl HashRing_add r l) !! vnode_key (silo_id s) 0 = Some s) as H.
  { clear Hs Hc. induction l as [|t l IH]; intros r Hr Hor Hall; cbn [foldl].
    { destruct Hor as [[]%not_elem_of_nil|]; done. }
    apply IH; [done| |by intros u Hu; apply Hall; right].
    rewrite lookup_add, Hr. destruct (Hall t) as [->|Hst]; [by left| |].
    - right. by rewrite decide_True.
    - destruct Hor as [[->|Hin']%elem_of_cons|Hj]; [right; by rewrite decide_True|by left|right].
      rewrite decide_False; [done|]. intros Hin'. by apply (proj1 (collision_free_spec _ _ _) Hst _ Hin). }
  apply H; [done|by left|]. intros t Ht. apply Hc; by apply list_elem_of_In.
Qed.

Lemma ring_of_members vn l :
  0 < vn → NoDup (silo_id <$> l) → collisions_free vn l →
  ring_of vn (HashRing_members (ring_of vn l)) = ring_of vn l.
Proof.
  intros Hvn Hnd Hc. symmetry. apply ring_of_foldl_perm; [|done]. symmetry.
  assert (∀ s t, s ∈ l → t ∈ l → silo_id s = silo_id t → s = t) as Hinj.
  { intros s t [i Hi]%list_elem_of_lookup_1 [j Hj]%list_elem_of_lookup_1 He.
    assert (i = j) as ->; [|congruence].
    eapply (NoDup_lookup _ _ _ _ Hnd); rewrite list_lookup_fmap; [by rewrite Hi|by rewrite Hj, He]. }
  apply NoDup_Permutation.
  - eapply NoDup_fmap_1, members_nodup.
  - by eapply NoDup_fmap_1.
  - intros s. split.
    + intros [j Hj]%members_sound. by eapply ring_of_lookup_sound.
    + intros Hs. destruct (ring_of_lookup_complete vn l s Hvn Hc Hs) as [j Hj].
      assert (silo_id s ∈ silo_id <$> HashRing_members (ring_of vn l)) as Hid
        by (apply members_ids; eauto).
      apply list_elem_of_fmap in Hid as (t & Ht & Hin). pose proof Hin as [i Hi]%members_sound.
      apply ring_of_lookup_sound in Hi. by rewrite (Hinj s t).
Qed.

(** ** Clients of a converged cluster *)
Section converged_client.
Context (connects parses : string → bool) (arrival : list SiloAddress → list (SiloAddress * bool)).
Context (status_display : Status → string) (rpc_failure : Status) (now : Z).
Context (Hconn : ∀ uri, connects uri = true).
(** The silos of the cluster, on rings of 150 virtual nodes, and the owner of the grain. *)
Context (silos : list SiloAddress) (gt gk : string) (o : SiloAddress).
Context (Hnd : NoDup (silo_id <$> silos)) (Hcf : collisions_free 150 silos) (Hwf : Forall silo_wf silos).
Abbreviation r := (ring_of 150 silos).
Context (Howner : HashRing_get r (slash gt gk) = Some o).
Abbreviation converged' := (converged parses r None gt gk o).
Abbreviation client_invoke' :=
  (client_invoke connects parses arrival status_display rpc_failure now).
Implicit Types (c : OrlandoClient) (w : World).

Lemma wire_members :
  from_proto_addr <$> (to_proto_addr <$> HashRing_members r) = HashRing_members r.
Proof.
  rewrite <-list_fmap_compose. rewrite <-(list_fmap_id (HashRing_members r)) at 2.
  apply list_fmap_ext. intros i s Hs%list_elem_of_lookup_2. cbn.
  apply members_sound in Hs as [j Hj]. apply ring_of_lookup_sound in Hj.
  rewrite Forall_forall in Hwf. by apply addr_roundtrip, Hwf.
Qed.

(** The answer of any silo of the cluster rebuilds the cluster's ring. *)
Lemma ask_members_converged p w ep s :
  converged' w → w_silos w !! ep = Some s →
  ∃ p', ask_members connects status_display rpc_failure p w ep = (p', Ok (HashRing_members r)).
Proof.
  intros Hw Hs. unfold ask_members, ConnectionPool_get_membership. rewrite Hconn, Hs.
  destruct (proj1 Hw _ _ Hs) as (Hr & _ & Ha & _). unfold get_members.
  change (nd_ring (ms_node (sl_service s))) with (sl_ring s).
  change (ms_auth (sl_service s)) with (sl_auth s). rewrite Ha, Hr. cbn [check_auth]. rewrite wire_members.
  case_bool_decide; eauto.
Qed.

Lemma refresh_converged c w ms :
  converged' w → cl_ring c = r →
  cl_ring (refresh_from connects status_display rpc_failure c w ms).1 = r.
Proof.
  intros Hw. revert c. induction ms as [|m ms IH]; intros c Hc; [done|]. cbn [refresh_from].
  destruct (w_silos w !! endpoint m) as [s|] eqn:E.
  - destruct (ask_members_converged (cl_pool c) w _ s Hw E) as [p ->]. cbn. by apply ring_of_members.
  - destruct (ask_members _ _ _ (cl_pool c) w (endpoint m)) as [p [ms'|]] eqn:A; [|by apply IH].
    exfalso. revert A. unfold ask_members. rewrite E.
    destruct (ConnectionPool_get_membership _ _ _) as [? []]; done.
Qed.

(** One attempt that is answered in time. *)
Lemma loop_answered attempts attempt fates c w so req :
  converged' w → cl_ring c = r → w_silos w !! endpoint o = Some so → fates attempt = Answered →
  iv_grain_type req = gt → iv_grain_key req = gk → oversized req = false → hop_count req < MAX_HOPS →
  ∃ c' w', invoke_loop connects parses arrival status_display rpc_failure now (S attempts) attempt fates c w req
             = (c', w', client_answer (local_dispatch so req).2) ∧
    cl_ring c' = r ∧ converged' w' ∧
    (∀ ep, sl_runtime <$> w_silos w' !! ep =
       if bool_decide (ep = endpoint o) then Some (sl_runtime (local_dispatch so req).1)
       else sl_runtime <$> w_silos w !! ep).
Proof.
  intros Hw Hc Hso Hf Hgt Hgk Hsz Hh. cbn [invoke_loop]. rewrite Hc, Hgt, Hgk, Howner.
  destruct (get_transport_connected connects (cl_pool c) (endpoint o) Hconn) as (p & -> & _).
  destruct (invoke_routes connects parses arrival status_display rpc_failure now Hconn r None gt gk o Howner
              w (endpoint o) None req so so) as (w' & Hi & Hw' & Hrt); try done.
  rewrite bool_decide_true in Hi, Hrt by done. unfold timed_invoke. rewrite Hf, Hi.
  eexists _, _. split; [done|]. split; [done|]. split; [done|exact Hrt].
Qed.

(** The requests of a client are never forwarded ones. *)
Lemma client_hops mt payload enc : hop_count (client_request gt gk mt payload enc) < MAX_HOPS.
Proof. done. Qed.

(** C20: an external client reaches the same activation as the cluster. Connecting through any silo of a converged
    cluster of silos without authentication, with 150 virtual nodes each, succeeds and gives the client exactly the
    ring of the silos; a call whose first request is answered in time is then dispatched at the silo the ring assigns
    the grain to, and the client gets that silo's answer (an error in it as a [GrainError], never retried); no other
    silo's runtime changes. *)
Theorem client_reaches_owner w ep s :
  converged' w → w_silos w !! ep = Some s →
  ∃ c, OrlandoClient_connect connects status_display rpc_failure w ep = Ok c ∧ cl_ring c = r ∧
    ∀ fates mt payload enc so,
      fates 0%nat = Answered → w_silos w !! endpoint o = Some so →
      Z.of_nat (length payload) ≤ MAX_PAYLOAD_SIZE →
      let req := client_request gt gk mt payload enc in
      ∃ c' w', client_invoke' fates c w gt gk mt payload enc
                 = (c', w', client_answer (local_dispatch so req).2) ∧
        cl_ring c' = r ∧ converged' w' ∧
        (∀ ep, sl_runtime <$> w_silos w' !! ep =
           if bool_decide (ep = endpoint o) then Some (sl_runtime (local_dispatch so req).1)
           else sl_runtime <$> w_silos w !! ep).
Proof.
  intros Hw Hs. destruct (ask_members_converged ConnectionPool_new w ep s Hw Hs) as [p Hp].
  assert (HashRing_members r ≠ []) as Hne.
  { intros He. apply get_successor in Howner as (j & _ & Hj).
    assert (silo_id o ∈ silo_id <$> HashRing_members r) as Hin by (apply members_ids; eauto).
    rewrite He in Hin. by apply not_elem_of_nil in Hin. }
  exists (mkClient p r 30000). split_and!; [|done|].
  - unfold OrlandoClient_connect, connect_through. rewrite Hp, bool_decide_false by done.
    change (foldl HashRing_add (HashRing_new 150) (HashRing_members r))
      with (ring_of 150 (HashRing_members r)). by rewrite ring_of_members.
  - intros fates mt payload enc so Hf Hso Hlen req. apply loop_answered; try done.
    apply bool_decide_false. cbn. lia.
Qed.

(** Calls of a client are carried out at least once, and twice when only the answer was too
    late: if the first request misses its deadline and the second does not, the caller gets the answer of
    the second dispatch, at the owner, whose runtime has been through both dispatches when
    the first request had arrived. *)
Theorem client_timeout_repeats c w fates mt payload enc so :
  converged' w → cl_ring c = r → w_silos w !! endpoint o = Some so →
  fates 0%nat ≠ Answered → fates 1%nat = Answered →
  Z.of_nat (length payload) ≤ MAX_PAYLOAD_SIZE →
  let req := client_request gt gk mt payload enc in
  let so1 := match fates 0%nat with Late => (local_dispatch so req).1 | _ => so end in
  ∃ c' w', client_invoke' fates c w gt gk mt payload enc
             = (c', w', client_answer (local_dispatch so1 req).2) ∧ converged' w' ∧
    (∀ ep, sl_runtime <$> w_silos w' !! ep =
       if bool_decide (ep = endpoint o) then Some (sl_runtime (local_dispatch so1 req).1)
       else sl_runtime <$> w_silos w !! ep).
Proof.
  intros Hw Hc Hso H0 H1 Hlen req so1.
  assert (oversized req = false) as Hsz by (apply bool_decide_false; cbn; lia).
  assert (∃ p, timed_invoke connects parses arrival status_display rpc_failure now (fates 0%nat) w (endpoint o) req
    = (set_silo w (endpoint o) (with_pool so1 p), Err deadline_status) ∧
      auth_token p = auth_token (sl_pool so)) as (p & Hp & Hpt).
  { unfold timed_invoke, so1. destruct (fates 0%nat); [done| |].
    - exists (sl_pool so). rewrite with_pool_self. split; [|done]. f_equal. destruct w. cbn in *.
      unfold set_silo. cbn. by rewrite insert_id.
    - destruct (invoke_at_owner connects parses arrival status_display rpc_failure now r None gt gk o Howner
                  3 w so None req) as (p & -> & Hp); try done. by exists p. }
  assert (silo_converged parses r None gt gk o (endpoint o) so1) as Hso1.
  { unfold so1. pose proof (proj1 Hw _ _ Hso) as Hcv. destruct (fates 0%nat); [done|done|].
    by apply silo_converged_dispatch. }
  assert (auth_token (sl_pool so1) = auth_token (sl_pool so)) as Hto.
  { unfold so1. destruct (fates 0%nat); [done|done|]. unfold local_dispatch.
    by destruct (MessageRegistry_dispatch _ _ _ _ _ _ _ _ _). }
  unfold client_invoke. fold req. cbn [invoke_loop].
  change (iv_grain_type req) with gt. change (iv_grain_key req) with gk. rewrite Hc, Howner.
  destruct (get_transport_connected connects (cl_pool c) (endpoint o) Hconn) as (q & -> & _).
  rewrite Hp, bool_decide_true by done.
  set (w1 := set_silo w (endpoint o) (with_pool so1 p)).
  assert (converged' w1) as Hw1.
  { apply converged_set; [done|]. apply silo_converged_pool; [done|congruence]. }
  set (c1 := cl_with_pool _ _).
  destruct (loop_answered 0 1 fates (refresh_membership connects status_display rpc_failure c1 w1).1
    w1 (with_pool so1 p) req) as (c' & w' & Hl & _ & Hw' & Hrt); try done.
  - by apply refresh_converged.
  - unfold w1. cbn. by rewrite lookup_insert_eq.
  - rewrite local_dispatch_with_pool in Hl, Hrt. eexists _, _. split; [exact Hl|]. split; [done|].
    intros ep. rewrite Hrt. case_bool_decide as He; [done|]. unfold w1. cbn.
    by rewrite lookup_insert_ne by congruence.
Qed.
End converged_client.

(** ** Clients and authentication *)
Section authenticated.
Context (connects parses : string → bool) (arrival : list SiloAddress → list (SiloAddress * bool)).
Context (status_display : Status → string) (rpc_failure : Status) (now : Z).
Context (w : World) (Hauth : map_Forall (λ _ s, is_Some (sl_auth s)) (w_silos w)).

Lemma timed_invoke_refused f ep req :
  ∃ e, timed_invoke connects parses arrival status_display rpc_failure now f w ep req = (w, Err e).
Proof.
  assert (∃ e, invoke connects parses arrival status_display rpc_failure now 4 w ep None req = Some (w, Err e))
    as [e He].
  { remember 3%nat as n. cbn [invoke]. destruct (w_silos w !! ep) as [s|] eqn:E; [|eauto].
    destruct (Hauth _ _ E) as [a ->]. cbn. eauto. }
  unfold timed_invoke. rewrite He. destruct f; eauto.
Qed.

Lemma loop_refused n attempt fates c req :
  let '(_, w', res) := invoke_loop connects parses arrival status_display rpc_failure now n attempt fates c w req in
  w' = w ∧ is_ok res = false.
Proof.
  revert attempt c. induction n as [|n IH]; intros attempt c; cbn [invoke_loop]; [done|].
  destruct (HashRing_get _ _) as [t|]; [|done].
  destruct (ConnectionPool_get_transport _ _ _) as [p []].
  - destruct (timed_invoke_refused (fates attempt) (endpoint t) req) as [e ->].
    case_bool_decide; [apply IH|done].
  - case_bool_decide; [apply IH|done].
Qed.

(** An external client cannot use an authenticated cluster: no request of the client carries a
    token, so it cannot connect through any silo, with or without TLS, and whatever ring it
    has, no call of it succeeds or has any effect. *)
Theorem client_refused_by_authenticated_cluster :
  (∀ ep, is_ok (OrlandoClient_connect connects status_display rpc_failure w ep) = false ∧
         is_ok (OrlandoClient_connect_tls connects status_display rpc_failure w ep) = false) ∧
  (∀ fates c gt gk mt payload enc,
     let '(_, w', res) :=
       client_invoke connects parses arrival status_display rpc_failure now fates c w gt gk mt payload enc in
     w' = w ∧ is_ok res = false).
Proof.
  assert (∀ pool ep, is_ok (connect_through connects status_display rpc_failure pool w ep) = false) as Hc.
  { intros pool ep. unfold connect_through, ask_members.
    destruct (ConnectionPool_get_membership _ _ _) as [p []]; [|done].
    destruct (w_silos w !! ep) as [s|] eqn:E; [|done]. unfold get_members.
    destruct (Hauth _ _ E) as [a Ha]. unfold sl_auth in Ha. by rewrite Ha. }
  split; [by intros ep; split; apply Hc|]. intros. apply loop_refused.
Qed.
End authenticated.

(** ** Witnesses: the two silos of the demonstration, on rings of 150 virtual nodes *)
Definition silos_150 : list SiloAddress := [silo_a; silo_b].
Definition silo_150 (auth : option SharedSecretAuth) (addr : SiloAddress) : Silo :=
  mkSiloState echo_registry Runtime_new
    (MembershipService_new 0 (mkNode (SwimState_new addr) (ring_of 150 silos_150) ConnectionPool_new []) 3 auth)
    None.
Definition world_150 (auth : option SharedSecretAuth) : World :=
  mkWorld (<[endpoint silo_a := silo_150 auth silo_a]> {[endpoint silo_b := silo_150 auth silo_b]}) ∅.

Lemma owner_150 : HashRing_get (ring_of 150 silos_150) (slash "Echo" "k") = Some silo_a.
Proof. vm_compute. reflexivity. Qed.

Lemma collision_free_sets vn id id' :
  (list_to_set (vnodes vn id) ∩ list_to_set (vnodes vn id') : gset Z) = ∅ → collision_free vn id id'.
Proof.
  intros He. apply collision_free_spec. intros k H1 H2. apply (not_elem_of_empty (C := gset Z) k).
  rewrite <-He. apply elem_of_intersection. split; by apply elem_of_list_to_set.
Qed.

Lemma silos_150_free : collisions_free 150 silos_150.
Proof.
  assert (collision_free 150 "A" "B") as H1
    by (apply collision_free_sets, (bool_decide_unpack _); vm_compute; exact I).
  pose proof (collision_free_sym _ _ _ H1) as H2.
  intros s t [<-|[<-|[]]] [<-|[<-|[]]]; auto.
Qed.

Lemma silos_150_wf : NoDup (silo_id <$> silos_150) ∧ Forall silo_wf silos_150.
Proof.
  split; [apply (bool_decide_unpack _); vm_compute; exact I|].
  repeat apply Forall_cons_2; [split; cbn; lia || done..|apply Forall_nil_2].
Qed.

Lemma converged_150 :
  converged (λ _, true) (ring_of 150 silos_150) None "Echo" "k" silo_a (world_150 None).
Proof.
  split; [|by eexists]. apply map_Forall_insert_2; [|apply map_Forall_singleton]; split_and!;
    try done; intros; discriminate.
Qed.

Lemma client_reaches_owner_witness :
  ∃ c, OrlandoClient_connect (λ _, true) (λ _, "") (StatusOther "no answer") (world_150 None) (endpoint silo_b)
         = Ok c ∧
    ∃ c' w', client_invoke (λ _, true) (λ _, true) all_answer (λ _, "") (StatusOther "no answer") 0
               (λ _, Answered) c (world_150 None) "Echo" "k" "Say" [Byte.x2a] 0 = (c', w', Ok [Byte.x2a]).
Proof.
  destruct (client_reaches_owner (λ _, true) (λ _, true) all_answer (λ _, "") (StatusOther "no answer") 0
    (λ _, eq_refl) silos_150 "Echo" "k" silo_a (proj1 silos_150_wf) silos_150_free (proj2 silos_150_wf)
    owner_150 (world_150 None) (endpoint silo_b) (silo_150 None silo_b) converged_150 eq_refl)
    as (c & Hc & _ & Hcall).
  exists c. split; [exact Hc|].
  destruct (Hcall (λ _, Answered) "Say" [Byte.x2a] 0 (silo_150 None silo_a) eq_refl eq_refl)
    as (c' & w' & H & _); [vm_compute; discriminate|].
  exists c', w'. rewrite H. vm_compute. reflexivity.
Defined.

Lemma client_timeout_repeats_witness :
  let fates n := if bool_decide (n = 0%nat) then Late else Answered in
  ∃ c' w', client_invoke (λ _, true) (λ _, true) all_answer (λ _, "") (StatusOther "no answer") 0
             fates (mkClient ConnectionPool_new (ring_of 150 silos_150) 30000) (world_150 None)
             "Echo" "k" "Say" [Byte.x2a] 0 = (c', w', Ok [Byte.x2a]).
Proof.
  intros fates.
  destruct (client_timeout_repeats (λ _, true) (λ _, true) all_answer (λ _, "") (StatusOther "no answer") 0
    (λ _, eq_refl) silos_150 "Echo" "k" silo_a (proj1 silos_150_wf) silos_150_free (proj2 silos_150_wf)
    owner_150 (mkClient ConnectionPool_new (ring_of 150 silos_150) 30000) (world_150 None) fates "Say"
    [Byte.x2a] 0 (silo_150 None silo_a) converged_150 eq_refl eq_refl) as (c' & w' & H & _).
  - discriminate.
  - reflexivity.
  - vm_compute. discriminate.
  - exists c', w'. rewrite H. vm_compute. reflexivity.
Defined.

Lemma client_refused_by_authenticated_cluster_witness :
  is_ok (OrlandoClient_connect (λ _, true) (λ _, "") (StatusOther "no answer")
           (world_150 (Some (SharedSecretAuth_new "secret"))) (endpoint silo_a)) = false.
Proof.
  apply (client_refused_by_authenticated_cluster (λ _, true) (λ _, true) all_answer (λ _, "")
    (StatusOther "no answer") 0 (world_150 (Some (SharedSecretAuth_new "secret")))).
  apply map_Forall_insert_2; [eexists; reflexivity|]. apply map_Forall_singleton. eexists. reflexivity.
Defined.
