(* ===== verification/RingTransitions.v ===== *)
(** * Duplicate activations while the rings disagree

    [transport.rs] looks for a grain on every other silo before it activates it
    ([lookup_grain_cluster_wide]), to prevent duplicate activations during ring transitions.  Here is what
    that check achieves when the silos' rings need not agree, and where it is missing. *)
From S2P Require Import Prelude CoreTypes HashRing Mailbox Directory Auth Swim Membership.
From S2P Require Import CrossCluster Registry Transport CallsInFlight ClusterRef ClusterSilo.

(** The silo at [ep] has the grain active. *)
Definition holder (gt gk : string) (w : World) (ep : string) : Prop :=
  ∃ s, w_silos w !! ep = Some s ∧ active_at s gt gk = true.

(** No two silos have it active. *)
Definition unique (gt gk : string) (w : World) : Prop :=
  ∀ ep ep', holder gt gk w ep → holder gt gk w ep' → ep = ep'.

Definition own_endpoint (s : Silo) : string := endpoint (local_addr (nd_swim (ms_node (sl_service s)))).

(** A silo of one cluster without authentication that listens where it says, and whose ring contains
    every other silo that is there; its ring may contain others as well, that have left. *)
Record silo_informed (w : World) (ep : string) (s : Silo) : Prop := {
  in_endpoint : own_endpoint s = ep;
  in_auth : sl_auth s = None;
  in_cross : sl_cross s = None;
  in_ring : ∀ ep', is_Some (w_silos w !! ep') → ep' ≠ ep →
    ∃ m, m ∈ HashRing_members (sl_ring s) ∧ endpoint m = ep' ∧ silo_id m ≠ sl_local_silo_id s }.

Definition informed (w : World) : Prop := map_Forall (silo_informed w) (w_silos w).

Section transitions.
Context (connects parses : string → bool) (arrival : list SiloAddress → list (SiloAddress * bool)).
Context (status_display : Status → string) (rpc_failure : Status) (now : Z).
Abbreviation invoke' := (invoke connects parses arrival status_display rpc_failure now).
Context (Hconn : ∀ uri, connects uri = true) (Harr : ∀ l, arrival l ≡ₚ all_answer l).
Context (gt gk : string).
Abbreviation holder' := (holder gt gk).
Abbreviation unique' := (unique gt gk).

(** Replacing a silo by one with the same identity and ring. *)
Lemma informed_set w ep s s' :
  informed w → w_silos w !! ep = Some s → sl_service s' = sl_service s ∨ (∃ p, s' = with_pool s p) →
  sl_cross s' = sl_cross s → informed (set_silo w ep s').
Proof.
  intros Hw Hs Hsame Hx.
  assert (∀ ep', is_Some (w_silos (set_silo w ep s') !! ep') ↔ is_Some (w_silos w !! ep')) as Hdom.
  { intros ep'. cbn. rewrite lookup_insert. case_decide; [subst; rewrite Hs; naive_solver|done]. }
  assert (own_endpoint s' = own_endpoint s ∧ sl_auth s' = sl_auth s ∧ sl_ring s' = sl_ring s ∧
          sl_local_silo_id s' = sl_local_silo_id s) as (E1 & E2 & E3 & E4).
  { unfold own_endpoint, sl_auth, sl_ring, sl_local_silo_id. destruct Hsame as [->|[p ->]]; done. }
  intros ep' s0. cbn. rewrite lookup_insert. case_decide as He.
  - intros [= <-]. subst ep'. destruct (Hw _ _ Hs) as [H1 H2 H3 H4].
    split; [congruence|congruence|congruence|]. intros ep0 H0 Hne. rewrite E3, E4. apply H4; [by apply Hdom|done].
  - intros Hs0. destruct (Hw _ _ Hs0) as [H1 H2 H3 H4]. split; [done|done|done|]. intros ep0 H0 Hne.
    apply H4; [by apply Hdom|done].
Qed.

Lemma holder_set w ep s ep' :
  holder' (set_silo w ep s) ep' ↔ (ep' = ep ∧ active_at s gt gk = true) ∨ (ep' ≠ ep ∧ holder' w ep').
Proof.
  unfold holder. cbn. rewrite lookup_insert. case_decide; subst; naive_solver.
Qed.

Lemma unique_pool w ep s p :
  w_silos w !! ep = Some s → unique' w → unique' (set_silo w ep (with_pool s p)).
Proof.
  intros Hs Hu ep1 ep2. rewrite !holder_set.
  assert (active_at (with_pool s p) gt gk = true → holder' w ep) as Hh by (intros Ha; by exists s).
  intros [[-> H1]|[_ H1]] [[-> H2]|[_ H2]]; auto.
Qed.

(** The cluster-wide lookup misses nobody it asks. *)
Lemma lookup_tasks_complete w ms pool p :
  informed w → lookup_tasks connects w gt gk pool ms = (p, None) →
  ∀ m s, (m, true) ∈ ms → w_silos w !! endpoint m = Some s → active_at s gt gk = false.
Proof.
  intros Hw. revert pool. induction ms as [|m ms IH]; intros pool Hl m' s' Hin Hs; [by apply not_elem_of_nil in Hin|].
  cbn [lookup_tasks] in Hl. destruct (lookup_at connects w gt gk pool m) as [q r] eqn:E. destruct r as [ep|]; [done|].
  apply elem_of_cons in Hin as [<-|Hin]; [|by eapply IH].
  unfold lookup_at, ConnectionPool_get_membership in E. rewrite Hconn, Hs in E.
  destruct (Hw _ _ Hs) as [_ Ha _ _].
  assert (lookup_grain (grain_type_str (sl_registry s')) (sl_runtime s') (sl_service s') None gt gk =
            Ok (active_at s' gt gk, if active_at s' gt gk then sl_local_silo_id s' else "",
                if active_at s' gt gk then own_endpoint s' else "")) as Hlk
    by (unfold lookup_grain; fold (sl_auth s'); by rewrite Ha).
  rewrite Hlk in E. destruct (active_at s' gt gk); [|done]. case_bool_decide; by simplify_eq/=.
Qed.

(** So a silo that finds the grain nowhere is the only one that may have it. *)
Lemma lookup_none_holder w ep s s' :
  informed w → w_silos w !! ep = Some s → lookup_grain_cluster_wide connects arrival w s gt gk = (s', None) →
  (∃ p, s' = with_pool s p) ∧ ∀ ep', holder' w ep' → ep' = ep.
Proof.
  intros Hw Hs. unfold lookup_grain_cluster_wide.
  destruct (lookup_tasks connects w gt gk (sl_pool s) _) as [p r] eqn:E. intros [= <- ->]. split; [eauto|].
  intros ep' (s0 & Hs0 & Ha). destruct (decide (ep' = ep)) as [|Hne]; [done|]. exfalso.
  destruct (Hw _ _ Hs) as [_ _ _ Hring]. destruct (Hring ep') as (m & Hm & <- & Hid); [by rewrite Hs0|done|].
  enough (active_at s0 gt gk = false) by congruence.
  eapply (lookup_tasks_complete w _ _ _ Hw E); [|exact Hs0]. rewrite Harr. by apply (list_elem_of_fmap_2 (λ m, (m, true))), list_elem_of_filter.
Qed.

(** Dispatching at a silo that is, or may become, the only holder. *)
Lemma dispatch_unique w ep s req p :
  informed w → w_silos w !! ep = Some s → (∀ ep', holder' w ep' → ep' = ep) →
  informed (set_silo w ep (local_dispatch (with_pool s p) req).1) ∧
  unique' (set_silo w ep (local_dispatch (with_pool s p) req).1).
Proof.
  intros Hw Hs Honly. rewrite local_dispatch_with_pool. cbn [fst]. split.
  - assert (∃ rt, (local_dispatch s req).1 = with_runtime s rt) as [rt ->].
    { unfold local_dispatch. destruct (MessageRegistry_dispatch _ _ _ _ _ _ _ _ _). by eexists. }
    assert (informed (set_silo w ep (with_pool s p))) as H1 by (eapply informed_set; eauto).
    assert (set_silo w ep (with_pool (with_runtime s rt) p) =
            set_silo (set_silo w ep (with_pool s p)) ep (with_runtime (with_pool s p) rt)) as ->.
    { unfold set_silo. cbn. by rewrite insert_insert_eq. }
    eapply informed_set; [exact H1|cbn; by rewrite lookup_insert_eq|by left|done].
  - intros ep1 ep2. rewrite !holder_set. intros [[-> _]|[Hn1 H1]] [[-> _]|[Hn2 H2]]; [done|..]; exfalso; eauto.
Qed.

Lemma invoke_unique n w ep md req w' r :
  iv_grain_type req = gt → iv_grain_key req = gk → informed w → unique' w →
  invoke' n w ep md req = Some (w', r) → informed w' ∧ unique' w'.
Proof.
  revert w ep md req w' r. induction n as [|n IH]; intros w ep md req w' r Hgt Hgk Hw Hu; [done|].
  cbn [invoke]. destruct (w_silos w !! ep) as [s|] eqn:Hs; [|by intros [= <- <-]].
  assert (∀ p, informed (set_silo w ep (with_pool s p)) ∧ unique' (set_silo w ep (with_pool s p))) as Hpool.
  { intros p. split; [eapply informed_set; eauto|by apply unique_pool]. }
  assert (∀ m p target, forward connects parses status_display (invoke' n) m w ep (with_pool s p) target req = Some (w', r) →
            informed w' ∧ unique' w') as Hfwd.
  { intros m p target. unfold forward. case_bool_decide; [intros [= <- <-]; apply Hpool|].
    destruct (get_transport_connected connects (sl_pool (with_pool s p)) target Hconn) as (q & -> & _).
    change (with_pool (with_pool s p) q) with (with_pool s q). destruct (Hpool q) as [H1 H2].
    destruct (invoke' n _ target _ (forwarded req)) as [[w1 r1]|] eqn:E; [|done]. intros [= <- <-].
    by eapply IH in E. }
  destruct (Hw _ _ Hs) as [_ Ha Hx _]. rewrite Ha. cbn [check_auth].
  destruct (oversized req); [by intros [= <- <-]|].
  destruct (find_owner s (iv_grain_type req) (iv_grain_key req)) as [target|].
  { rewrite <- (with_pool_self s) at 1. apply Hfwd. }
  unfold check_cross_cluster, cross_verdict. rewrite Hx, already_local_active, Hgt, Hgk.
  destruct (active_at s gt gk) eqn:Hact.
  - assert (∀ ep', holder' w ep' → ep' = ep) as Honly by (intros ep' Hh; apply Hu; [done|by exists s]).
    destruct (dispatch_unique w ep s req (sl_pool s) Hw Hs Honly) as [H1 H2]. rewrite with_pool_self in H1, H2.
    destruct (local_dispatch s req) as [s1 r1]. by intros [= <- <-].
  - destruct (lookup_grain_cluster_wide connects arrival w s gt gk) as [s1 [target|]] eqn:E.
    + assert (∃ p, s1 = with_pool s p) as [p ->].
      { unfold lookup_grain_cluster_wide in E. destruct (lookup_tasks _ _ _ _ _ _) as [p r1]. simplify_eq/=. by eexists. }
      apply Hfwd.
    + destruct (lookup_none_holder w ep s s1 Hw Hs E) as [[p ->] Honly].
      destruct (dispatch_unique w ep s req p Hw Hs Honly) as [H1 H2].
      destruct (local_dispatch (with_pool s p) req) as [s2 r2]. by intros [= <- <-].
Qed.

(** What happens in such a cluster: calls of the grain, arriving anywhere; anything else that a silo does,
    short of activating the grain by other means; silos that join or are gone.  The rings may change in any
    way that keeps the silos informed of each other. *)
Inductive transition_step : World → World → Prop :=
| tr_call n w ep md req w' r :
    iv_grain_type req = gt → iv_grain_key req = gk → invoke' n w ep md req = Some (w', r) → transition_step w w'
| tr_silo w ep s s' :
    w_silos w !! ep = Some s → (active_at s' gt gk = true → active_at s gt gk = true) →
    informed (set_silo w ep s') → transition_step w (set_silo w ep s')
| tr_join w ep s :
    w_silos w !! ep = None → active_at s gt gk = false → informed (set_silo w ep s) →
    transition_step w (set_silo w ep s)
| tr_gone w ep :
    informed (mkWorld (delete ep (w_silos w)) (w_ccd w)) →
    transition_step w (mkWorld (delete ep (w_silos w)) (w_ccd w)).

Lemma transition_step_unique w w' :
  transition_step w w' → informed w ∧ unique' w → informed w' ∧ unique' w'.
Proof.
  intros Hs [Hw Hu].
  destruct Hs as [n w ep md req w' r Hgt Hgk Hi|w ep s s' Hs Hact Hw'|w ep s Hs Hact Hw'|w ep Hw'].
  - by eapply invoke_unique.
  - split; [done|]. intros ep1 ep2. rewrite !holder_set.
    assert (active_at s' gt gk = true → holder' w ep) as Hh by (intros Ha; exists s; auto).
    intros [[-> H1]|[_ H1]] [[-> H2]|[_ H2]]; auto.
  - split; [done|]. intros ep1 ep2. rewrite !holder_set. intros [[_ ?]|[_ H1]] [[_ ?]|[_ H2]]; try congruence; auto.
  - split; [done|]. assert (∀ ep', holder' (mkWorld (delete ep (w_silos w)) (w_ccd w)) ep' → holder' w ep') as Hh.
    { intros ep' (s & Hs & Ha). cbn in Hs. apply lookup_delete_Some in Hs as [_ Hs]. by exists s. }
    intros ep1 ep2 H1 H2. apply Hu; by apply Hh.
Qed.

(** C18: the cluster-wide lookup prevents duplicate activations: silos that do not authenticate, whose lookups are all
    answered in time and which handle one call after the other, never activate a grain on a second silo, as long as
    every silo's ring contains the other silos that are there, however the rings differ in the silos that have left
    and whoever they take for the owner, over any sequence of calls, deactivations, joins and departures. *)
Theorem lookup_prevents_duplicates w w' :
  informed w → unique' w → rtc transition_step w w' → unique' w'.
Proof.
  intros Hw Hu Hr. assert (informed w' ∧ unique' w') as [_ ?]; [|done].
  assert (informed w ∧ unique' w) as Hi by done. clear Hw Hu. induction Hr; eauto using transition_step_unique.
Qed.

(** Where the check is missing: a reference taken on the silo that its own ring makes the owner activates
    the grain there without asking anybody. *)
Theorem local_reference_duplicates rnd cs w ep so h :
  w_silos w !! ep = Some so → cs_directory cs = sl_runtime so → cs_placement cs = HashBasedPlacement →
  (∃ t, HashRing_get (cs_ring cs) (slash gt gk) = Some t ∧ silo_id t = silo_id (cs_local_addr cs)) →
  directory_inv (sl_runtime so) → draining (rt_dir (sl_runtime so)) = false → max_activations (rt_dir (sl_runtime so)) = 0 →
  grain_type_str (sl_registry so) gt = Some gt → holder' w h → h ≠ ep →
  ¬ unique' (set_silo w ep (with_runtime so (cs_directory (get_ref rnd cs gt None gk).1))).
Proof.
  intros Hso Hdir Hpl (t & Ht & Hid) Hinv Hdr Hmax Hty Hh Hne Hu. apply Hne.
  apply Hu; apply holder_set; [by right|]. left. split; [done|].
  assert (cs_directory (get_ref rnd cs gt None gk).1 = (GrainDirectory_get_or_insert (sl_runtime so) (mkGrainId gt gk)).1) as ->.
  { unfold get_ref, hinted_placement. rewrite Hpl. cbn [place]. rewrite Ht, bool_decide_true by done.
    unfold local_activate. rewrite Hdir. by destruct (GrainDirectory_get_or_insert _ _). }
  unfold active_at. cbn [sl_registry sl_runtime with_runtime]. rewrite Hty.
  assert (live_sender (GrainDirectory_get_or_insert (sl_runtime so) (mkGrainId gt gk)).1 (mkGrainId gt gk) =
            Some (GrainDirectory_get_or_insert (sl_runtime so) (mkGrainId gt gk)).2) as Hl.
  { destruct (live_sender (sl_runtime so) (mkGrainId gt gk)) as [sd|] eqn:L; [by rewrite (get_or_insert_live _ _ _ L)|].
    pose proof (get_or_insert_created (sl_runtime so) (mkGrainId gt gk) L Hdr) as Hc.
    destruct (GrainDirectory_get_or_insert (sl_runtime so) (mkGrainId gt gk)) as [w1 s1].
    destruct Hc as (-> & Ho & _ & Ha); [unfold at_limit; lia|]. apply live_sender_Some. cbn.
    unfold GrainDirectory_get_sender. rewrite Ha, lookup_insert_eq. split; [done|]. rewrite Ho. set_solver. }
  unfold live_sender in Hl. destruct (GrainDirectory_get_sender _ _) as [sd|]; [|done].
  by destruct (is_closed _ sd).
Qed.
End transitions.

(** ** Silos with rings of their own *)
Definition silo_d : SiloAddress := mkSilo "10.0.0.4" 7000 "D".
Definition ring_silo (addr : SiloAddress) (r : HashRing) : Silo :=
  mkSiloState echo_registry Runtime_new
    (MembershipService_new 0 (mkNode (SwimState_new addr) r ConnectionPool_new []) 3 None) None.
Definition ring_world (ra rb : HashRing) : World :=
  mkWorld (<[endpoint silo_a := ring_silo silo_a ra]> {[endpoint silo_b := ring_silo silo_b rb]}) ∅.

(** A has heard that D is gone, B has not. *)
Definition parting_world : World := ring_world ring_ab (HashRing_add ring_ab silo_d).

Lemma parting_informed : informed parting_world.
Proof.
  assert (∀ ep', is_Some (w_silos parting_world !! ep') → ep' = endpoint silo_a ∨ ep' = endpoint silo_b) as Hdom.
  { intros ep'. cbn. rewrite lookup_insert. case_decide; [by left|]. intros [s [<- _]%lookup_singleton_Some]. by right. }
  assert (silo_b ∈ HashRing_members ring_ab ∧ silo_a ∈ HashRing_members (HashRing_add ring_ab silo_d)) as [Hb Ha].
  { rewrite !list_elem_of_In. vm_compute. auto. }
  apply map_Forall_insert_2; [|apply map_Forall_singleton].
  - split; [reflexivity..|]. intros ep' [->| ->]%Hdom Hne; [by destruct Hne|]. exists silo_b. split_and!; [exact Hb|reflexivity|discriminate].
  - split; [reflexivity..|]. intros ep' [->| ->]%Hdom Hne; [|by destruct Hne]. exists silo_a. split_and!; [exact Ha|reflexivity|discriminate].
Qed.

Lemma parting_unique : unique "Echo" "k" parting_world.
Proof.
  intros ep ep' (s & Hs & Ha) _. exfalso. revert Hs. cbn. rewrite lookup_insert.
  case_decide; [intros [= <-]|intros [_ <-]%lookup_singleton_Some]; by vm_compute in Ha.
Qed.

(** Whether the silo at [ep] has the grain active after a call that was answered. *)
Definition active_after (o : option (World * result Status InvokeResponse)) (ep : string) : bool :=
  match o with
  | Some (w, Ok _) => match w_silos w !! ep with Some s => active_at s "Echo" "k" | None => false end
  | _ => false
  end.
Lemma active_after_holder o ep :
  active_after o ep = true → ∃ w r, o = Some (w, Ok r) ∧ holder "Echo" "k" w ep.
Proof.
  unfold active_after. destruct o as [[w [r|e]]|]; try done. destruct (w_silos w !! ep) as [s|] eqn:E; [|done].
  intros Ha. exists w, r. split; [done|]. by exists s.
Qed.

Lemma lookup_prevents_duplicates_witness :
  ∃ w r, demo_invoke 4 parting_world (endpoint silo_a) None demo_request = Some (w, Ok r) ∧
    unique "Echo" "k" w ∧ holder "Echo" "k" w (endpoint silo_a).
Proof.
  destruct (active_after_holder (demo_invoke 4 parting_world (endpoint silo_a) None demo_request) (endpoint silo_a))
    as (w & r & E & Hh); [vm_compute; reflexivity|].
  exists w, r. split; [exact E|]. split; [|exact Hh].
  apply (lookup_prevents_duplicates (λ _, true) (λ _, true) all_answer (λ _, "remote status") (StatusOther "no answer") 0
           (λ _, eq_refl) (λ l, Permutation_refl (all_answer l)) "Echo" "k" parting_world w parting_informed parting_unique).
  apply rtc_once. eapply (tr_call _ _ _ _ _ _ "Echo" "k" 4 parting_world (endpoint silo_a) None demo_request w (Ok r));
    [reflexivity|reflexivity|exact E].
Defined.

(** The condition is needed: B has not heard of A yet (A has just joined through somebody else).  Two calls, one
    to each, leave the grain active on both. *)
Definition joining_world : World := ring_world ring_ab (HashRing_add (HashRing_new 2) silo_b).
Definition two_calls : option (World * result Status InvokeResponse) :=
  '(w, _) ← demo_invoke 4 joining_world (endpoint silo_a) None demo_request;
  demo_invoke 4 w (endpoint silo_b) None demo_request.
Example uninformed_silos_duplicate :
  active_after two_calls (endpoint silo_a) = true ∧ active_after two_calls (endpoint silo_b) = true.
Proof. vm_compute. split; reflexivity. Qed.

(** ** A call in flight during a join

    The lookup and the activation are separate accesses ([CallsInFlight]).  B is alone and has looked for the
    grain (it has nobody to ask); A joins, every ring contains both silos and A owns the grain; a call to A asks B,
    which does not have it yet, and activates it; B goes on.  The grain is active twice although every silo was
    informed at every moment. *)
Abbreviation demo_drive :=
  (drive (λ _, true) (λ _, true) all_answer (λ _, "remote status") (StatusOther "no answer") 0).
Definition alone_world : World :=
  mkWorld {[endpoint silo_b := ring_silo silo_b (HashRing_add (HashRing_new 2) silo_b)]} ∅.
Definition before_join : World * Flight := demo_drive 5 alone_world (mkFlight (Arrived (endpoint silo_b) None demo_request) 0).
Definition after_join : World * Flight :=
  demo_drive 7 (ring_world ring_ab ring_ab) (mkFlight (Arrived (endpoint silo_a) None demo_request) 0).
Definition in_flight : World * Flight := demo_drive 1 after_join.1 before_join.2.

Definition answered (f : Flight) : bool :=
  match f with mkFlight (Answered (Ok _)) O => true | _ => false end.
Definition active_in (w : World) (ep : string) : bool :=
  match w_silos w !! ep with Some s => active_at s "Echo" "k" | None => false end.

Example in_flight_call_duplicates :
  before_join.2 = mkFlight (Dispatching (endpoint silo_b) demo_request) 0 ∧
  answered after_join.2 = true ∧ answered in_flight.2 = true ∧
  active_in in_flight.1 (endpoint silo_a) = true ∧ active_in in_flight.1 (endpoint silo_b) = true.
Proof. split_and!; vm_compute; reflexivity. Qed.
