(* ===== verification/Serving.v ===== *)
(** * A serving silo: its background tasks and their interleaving

    The tasks that [ClusterSilo::serve] starts run concurrently on shared state.  First the writers of the
    ring and the rebalancer, at the grain of single ring stores and broadcasts
    ([membership.rs], [swim.rs], [cluster_silo.rs], [rebalancer.rs]); then the loops of the tasks with their
    shutdown signal ([swim.rs], [failure_detector.rs], [multi_cluster.rs], [failover.rs],
    [replication_consumer.rs], [tcp_transport.rs], [health_server.rs]). *)
From S2P Require Import Prelude CoreTypes HashRing Mailbox Directory Auth Swim Membership.
From S2P Require Import Rebalancer Replication CrossCluster Transport ClusterRef ClusterSilo.

(** ** Writers of the ring

    A writer holds the lock of the SWIM state while it stores the ring; the rebalancer takes no lock. *)
Inductive MicroOp :=
| StoreRing (f : HashRing → HashRing)
| SendChange (c : MembershipChange).

(** The stores and broadcasts of each writer, in program order.  [join] and [notify_join] of a silo
    that is not on the ring: *)
Definition join_ops (silo : SiloAddress) : list MicroOp :=
  [StoreRing (λ r, HashRing_add r silo); SendChange (SiloJoined silo)].
Definition notify_leave_ops (silo : SiloAddress) : list MicroOp :=
  [StoreRing (λ r, HashRing_remove r silo); SendChange (SiloLeft silo)].
Definition declare_dead_ops (s : SwimState) (id : string) : list MicroOp :=
  match members s !! id with
  | Some member =>
      [StoreRing (λ r, HashRing_remove r (sm_addr member)); SendChange (SiloLeft (sm_addr member))]
  | None => []
  end.

(** [apply_gossip]: the broadcasts of its loop, then the store after the loop. *)
Definition gossip_ops (now : Z) (n : Node) (updates : list GossipUpdate) : list MicroOp :=
  let acc := foldl (apply_update now) (mkAcc n [] []) updates in
  (SendChange <$> drop (length (nd_changes n)) (nd_changes (acc_node acc))) ++
  match ring_adds acc, ring_removes acc with
  | [], [] => []
  | adds, removes => [StoreRing (λ r, foldl HashRing_add (foldl HashRing_remove r removes) adds)]
  end.

(** [join_cluster], taking over the members of the seed. *)
Definition adopt_ops (silos : list SiloAddress) : list MicroOp :=
  (SendChange ∘ SiloJoined <$> silos) ++ [StoreRing (λ r, foldl HashRing_add r silos)].

Definition run_op (rc : HashRing * list MembershipChange) (op : MicroOp) : HashRing * list MembershipChange :=
  match op with
  | StoreRing f => (f rc.1, rc.2)
  | SendChange c => (rc.1, rc.2 ++ [c])
  end.
Definition run_ops (ops : list MicroOp) (rc : HashRing * list MembershipChange) : HashRing * list MembershipChange :=
  foldl run_op rc ops.

Lemma run_sends cs rc : run_ops (SendChange <$> cs) rc = (rc.1, rc.2 ++ cs).
Proof.
  revert rc. induction cs as [|c cs IH]; intros [r l]; [by rewrite app_nil_r|].
  unfold run_ops in *. cbn. rewrite IH. cbn. by rewrite <- app_assoc.
Qed.

Lemma apply_updates_frame now acc us :
  ∃ cs, nd_changes (acc_node (foldl (apply_update now) acc us)) = nd_changes (acc_node acc) ++ cs ∧
    nd_ring (acc_node (foldl (apply_update now) acc us)) = nd_ring (acc_node acc).
Proof.
  revert acc. induction us as [|u us IH]; intros acc; cbn; [exists []; by rewrite app_nil_r|].
  assert (∃ cs, nd_changes (acc_node (apply_update now acc u)) = nd_changes (acc_node acc) ++ cs ∧
            nd_ring (acc_node (apply_update now acc u)) = nd_ring (acc_node acc)) as (cs & Hc & Hr).
  { unfold apply_update. destruct u; repeat case_match; cbn;
      first [by exists []; rewrite app_nil_r | by eexists [_]]. }
  destruct (IH (apply_update now acc u)) as (cs' & Hc' & Hr'). exists (cs ++ cs').
  by rewrite Hc', Hc, Hr', Hr, app_assoc.
Qed.

(** Run without interruption, the micro-steps of each writer are what its handler does to the ring
    and to the broadcast changes. *)
Theorem writer_ops_agree now n id us :
  run_ops (declare_dead_ops (nd_swim n) id) (nd_ring n, nd_changes n) =
    (nd_ring (declare_dead n id), nd_changes (declare_dead n id)) ∧
  run_ops (gossip_ops now n us) (nd_ring n, nd_changes n) =
    (nd_ring (apply_gossip now n us), nd_changes (apply_gossip now n us)) ∧
  (∀ s s' md p r, ms_node s = n → join now s md (Some p) = (s', Ok r) →
     run_ops (join_ops (from_proto_addr p)) (nd_ring n, nd_changes n) =
       (nd_ring (ms_node s'), nd_changes (ms_node s'))) ∧
  (∀ s s' md p, ms_node s = n → known_on_ring (nd_ring n) (silo_id (from_proto_addr p)) = false →
     notify_join now s md (Some p) = (s', Ok ()) →
     run_ops (join_ops (from_proto_addr p)) (nd_ring n, nd_changes n) =
       (nd_ring (ms_node s'), nd_changes (ms_node s'))) ∧
  (∀ s s' md p, ms_node s = n → known_on_ring (nd_ring n) (silo_id (from_proto_addr p)) = true →
     notify_leave s md (Some p) = (s', Ok ()) →
     run_ops (notify_leave_ops (from_proto_addr p)) (nd_ring n, nd_changes n) =
       (nd_ring (ms_node s'), nd_changes (ms_node s'))) ∧
  (∀ cs silos, cs_node cs = n →
     run_ops (adopt_ops silos) (nd_ring n, nd_changes n) =
       (nd_ring (cs_node (adopt_members cs silos)), nd_changes (cs_node (adopt_members cs silos)))).
Proof.
  split_and!.
  - unfold declare_dead_ops, declare_dead. by destruct (members (nd_swim n) !! id).
  - unfold gossip_ops, apply_gossip.
    destruct (apply_updates_frame now (mkAcc n [] []) us) as (cs & Hc & Hr). cbn [acc_node] in Hc, Hr.
    set (acc := foldl _ _ us) in *. rewrite Hc, drop_app_length.
    unfold run_ops. rewrite foldl_app. fold (run_ops (SendChange <$> cs) (nd_ring n, nd_changes n)).
    rewrite run_sends. cbn [fst snd].
    destruct (ring_adds acc) eqn:Ea, (ring_removes acc) eqn:Er; cbn; by rewrite ?Hc, ?Hr.
  - intros s s' md p r <-. unfold join. repeat case_match; intros; simplify_eq/=; done.
  - intros s s' md p <- Hk. unfold notify_join. repeat case_match; intros; simplify_eq/=; try done; exfalso; cbn in *; congruence.
  - intros s s' md p <- Hk. unfold notify_leave. rewrite Hk. cbn [negb]. repeat case_match; intros; simplify_eq/=; done.
  - intros cs silos <-. unfold adopt_ops, run_ops. rewrite foldl_app, list_fmap_compose.
    fold (run_ops (SendChange <$> (SiloJoined <$> silos)) (nd_ring (cs_node cs), nd_changes (cs_node cs))).
    by rewrite run_sends.
Qed.

(** ** Writers, rebalancer and calls together *)
Record SharedState := mkShared {
  sh_ring : HashRing;
  sh_changes : list MembershipChange; (** broadcast so far *)
  sh_seen : nat;                      (** how many of them the rebalancer has received *)
  sh_runtime : Runtime;
  sh_writers : list (list MicroOp);   (** what each running writer still has to do *)
  sh_calls : gmap nat GrainId }.      (** calls that [find_owner] kept here, not dispatched yet *)

(** The steps, by what they do. *)
Inductive Label :=
| LStart | LStore | LSend (c : MembershipChange) | LPass
| LCheck (id : nat) (g : GrainId) | LInsert (id : nat) (g : GrainId) | LLeave (id : nat)
| LDirect (g : GrainId) | LDeactivate (g : GrainId).
Definition op_label (op : MicroOp) : Label :=
  match op with StoreRing _ => LStore | SendChange c => LSend c end.
Definition call_of (l : Label) : option nat :=
  match l with LCheck id _ | LInsert id _ | LLeave id => Some id | _ => None end.

Section serving.
Context (local_silo_id : string).

(** [writer] says which programs may start as writers.  A call of [invoke] loads the ring in one step and is dispatched in a
    later one ([sv_check], [sv_insert]), with its cross-cluster and cluster-wide lookups in between; or it ends elsewhere
    ([sv_leave]).  References made with [ctx.get_ref] or with a local placement activate their grain without a
    look at the ring ([sv_direct]). *)
Inductive serving_step (writer : list MicroOp → Prop) : SharedState → Label → SharedState → Prop :=
| sv_start r cs seen w ws calls ops :
    writer ops → serving_step writer (mkShared r cs seen w ws calls) LStart (mkShared r cs seen w (ops :: ws) calls)
| sv_micro r cs seen w pre op ops post calls :
    serving_step writer (mkShared r cs seen w (pre ++ (op :: ops) :: post) calls) (op_label op)
      (mkShared (run_op (r, cs) op).1 (run_op (r, cs) op).2 seen w (pre ++ ops :: post) calls)
| sv_receive r cs seen k w ws calls outcome :
    (seen < k ≤ length cs)%nat →
    serving_step writer (mkShared r cs seen w ws calls) LPass
      (mkShared r cs k (rebalance outcome local_silo_id r w) ws calls)
| sv_check r cs seen w ws calls id g :
    calls !! id = None → rehashed local_silo_id r g = false →
    serving_step writer (mkShared r cs seen w ws calls) (LCheck id g) (mkShared r cs seen w ws (<[id := g]> calls))
| sv_insert r cs seen w ws calls id g :
    calls !! id = Some g →
    serving_step writer (mkShared r cs seen w ws calls) (LInsert id g)
      (mkShared r cs seen (GrainDirectory_get_or_insert w g).1 ws (delete id calls))
| sv_leave r cs seen w ws calls id g :
    calls !! id = Some g →
    serving_step writer (mkShared r cs seen w ws calls) (LLeave id) (mkShared r cs seen w ws (delete id calls))
| sv_direct r cs seen w ws calls g :
    serving_step writer (mkShared r cs seen w ws calls) (LDirect g)
      (mkShared r cs seen (GrainDirectory_get_or_insert w g).1 ws calls)
| sv_deactivate r cs seen w ws calls g :
    serving_step writer (mkShared r cs seen w ws calls) (LDeactivate g)
      (mkShared r cs seen (GrainDirectory_activator_remove w g) ws calls).

Inductive serving_run (writer : list MicroOp → Prop) : SharedState → list Label → SharedState → Prop :=
| sr_nil s : serving_run writer s [] s
| sr_snoc s ls s' l s'' : serving_run writer s ls s' → serving_step writer s' l s'' → serving_run writer s (ls ++ [l]) s''.

(** Every active grain is one the ring places here. *)
Definition settled (s : SharedState) : Prop :=
  ∀ g a, activations (rt_dir (sh_runtime s)) !! g = Some a → rehashed local_silo_id (sh_ring s) g = false.

(** All writers are done and the rebalancer has received every change. *)
Definition quiescent (s : SharedState) : Prop :=
  Forall (λ ops, ops = []) (sh_writers s) ∧ sh_seen s = length (sh_changes s).

(** How a grain can get past the rebalancer: after its last pass, by a call whose check was
    overtaken by a store of the ring, or by a reference that does not check. *)
Definition overtaken (ls : list Label) (g : GrainId) : Prop :=
  ∃ pre id mid post, ls = pre ++ LCheck id g :: mid ++ LInsert id g :: post ∧
    Forall (λ l, call_of l ≠ Some id) mid ∧ LStore ∈ mid ∧ LPass ∉ post.
Definition unchecked (ls : list Label) (g : GrainId) : Prop :=
  ∃ pre post, ls = pre ++ LDirect g :: post ∧ LPass ∉ post.
Definition stray (ls : list Label) (g : GrainId) : Prop := overtaken ls g ∨ unchecked ls g.

(** Programs that store the ring before they broadcast the change. *)
Inductive store_first : list MicroOp → Prop :=
| sf_join silo : store_first (join_ops silo)
| sf_leave silo : store_first (notify_leave_ops silo)
| sf_dead st id : store_first (declare_dead_ops st id).

Definition sends (ops : list MicroOp) : Prop := ∃ c, SendChange c ∈ ops.

(** Every store has a broadcast after it. *)
Fixpoint disciplined (ops : list MicroOp) : Prop :=
  match ops with
  | [] => True
  | StoreRing _ :: ops => sends ops ∧ disciplined ops
  | SendChange _ :: ops => disciplined ops
  end.

Lemma store_first_disciplined ops : store_first ops → disciplined ops.
Proof.
  destruct 1; cbn; try (split; [eexists; by left|done]).
  unfold declare_dead_ops. destruct (members st !! id); cbn; [|done]. split; [eexists; by left|done].
Qed.

(** What keeps the silo from being stuck with a grain that is not its own: the rebalancer still has a
    change to receive, or a writer one to broadcast. *)
Definition settled_but (ls : list Label) (s : SharedState) : Prop :=
  ∀ g a, activations (rt_dir (sh_runtime s)) !! g = Some a → rehashed local_silo_id (sh_ring s) g = false ∨ stray ls g.
Record serving_inv (ls : list Label) (s : SharedState) : Prop := {
  si_dir : directory_inv (sh_runtime s);
  si_writers : Forall disciplined (sh_writers s);
  si_seen : (sh_seen s ≤ length (sh_changes s))%nat;
  si_calls : ∀ id g, sh_calls s !! id = Some g →
    ∃ pre mid, ls = pre ++ LCheck id g :: mid ∧ Forall (λ l, call_of l ≠ Some id) mid ∧
      (LStore ∈ mid ∨ rehashed local_silo_id (sh_ring s) g = false);
  si_live : settled_but ls s ∨ (sh_seen s < length (sh_changes s))%nat ∨ Exists sends (sh_writers s) }.

Lemma stray_snoc ls l g : l ≠ LPass → stray ls g → stray (ls ++ [l]) g.
Proof.
  intros Hl [(pre & id & mid & post & -> & Hm & Hs & Hp)|(pre & post & -> & Hp)]; [left|right].
  - exists pre, id, mid, (post ++ [l]). split_and!; [|done|done|rewrite not_elem_of_app, list_elem_of_singleton; naive_solver].
    by rewrite <- (assoc_L (++)), <- app_comm_cons, <- (assoc_L (++)).
  - exists pre, (post ++ [l]). split; [by rewrite <- (assoc_L (++))|]. rewrite not_elem_of_app, list_elem_of_singleton. naive_solver.
Qed.

(** A call in flight stays so, with one more step after its check. *)
Lemma call_snoc (ls : list Label) l (r r' : HashRing) id g :
  (∃ pre mid, ls = pre ++ LCheck id g :: mid ∧ Forall (λ l, call_of l ≠ Some id) mid ∧
    (LStore ∈ mid ∨ rehashed local_silo_id r g = false)) →
  call_of l ≠ Some id → l = LStore ∨ r' = r →
  ∃ pre mid, ls ++ [l] = pre ++ LCheck id g :: mid ∧ Forall (λ l, call_of l ≠ Some id) mid ∧
    (LStore ∈ mid ∨ rehashed local_silo_id r' g = false).
Proof.
  intros (pre & mid & -> & Hm & Hs) Hl Hr. exists pre, (mid ++ [l]). split_and!; [by rewrite <- (assoc_L (++))| |].
  - apply Forall_app. by split; [|apply Forall_singleton].
  - rewrite elem_of_app, list_elem_of_singleton. destruct Hr as [->| ->]; [by left; right|].
    destruct Hs; [left; by left|by right].
Qed.

Lemma get_or_insert_activations w g g' a :
  activations (rt_dir (GrainDirectory_get_or_insert w g).1) !! g' = Some a →
  g' = g ∨ activations (rt_dir w) !! g' = Some a.
Proof.
  destruct (live_sender w g) as [s|] eqn:L; [rewrite (get_or_insert_live _ _ _ L); auto|].
  destruct (decide (draining (rt_dir w) = true ∨ at_limit w)) as [Hd|Hd];
    [rewrite get_or_insert_refused by done; auto|].
  apply Decidable.not_or in Hd as [Hd%not_true_is_false Hlim].
  pose proof (get_or_insert_created w g L Hd Hlim) as Hc.
  destruct (GrainDirectory_get_or_insert w g) as [w' s']. destruct Hc as (_ & _ & _ & Ha). cbn. rewrite Ha.
  destruct (decide (g = g')) as [<-|Hne]; [by left|]. rewrite lookup_insert_ne by done. by right.
Qed.

Lemma Exists_middle {A} (P : A → Prop) pre x y post :
  Exists P (pre ++ x :: post) → (P x → P y) → Exists P (pre ++ y :: post).
Proof. rewrite !Exists_app, !Exists_cons. tauto. Qed.

Lemma settled_but_snoc ls l s s' :
  l ≠ LPass → sh_ring s' = sh_ring s →
  (∀ g a, activations (rt_dir (sh_runtime s')) !! g = Some a →
    (∃ a', activations (rt_dir (sh_runtime s)) !! g = Some a') ∨ rehashed local_silo_id (sh_ring s) g = false ∨ stray (ls ++ [l]) g) →
  settled_but ls s → settled_but (ls ++ [l]) s'.
Proof.
  intros Hl Hr Ha Hs g a Hg. rewrite Hr. destruct (Ha g a Hg) as [[a' Ha']|?]; [|done].
  destruct (Hs g a' Ha') as [?|?]; [by left|right; by apply stray_snoc].
Qed.

Lemma insert_stray ls id g r :
  (∃ pre mid, ls = pre ++ LCheck id g :: mid ∧ Forall (λ l, call_of l ≠ Some id) mid ∧
    (LStore ∈ mid ∨ rehashed local_silo_id r g = false)) →
  rehashed local_silo_id r g = false ∨ stray (ls ++ [LInsert id g]) g.
Proof.
  intros (pre & mid & -> & Hm & [Hs|?]); [|by left]. right. left. exists pre, id, mid, [].
  split_and!; [by rewrite <- (assoc_L (++))|done|done|apply not_elem_of_nil].
Qed.

Lemma serving_step_inv ls s l s' : serving_step store_first s l s' → serving_inv ls s → serving_inv (ls ++ [l]) s'.
Proof.
  intros Hs [Hd Hw Hseen Hc Hl]. destruct Hs as [r cs seen w ws calls ops Hops|r cs seen w pre op ops post calls|
    r cs seen k w ws calls outcome Hk|r cs seen w ws calls id g Hn Hg|r cs seen w ws calls id g Hg|
    r cs seen w ws calls id g Hg|r cs seen w ws calls g|r cs seen w ws calls g]; cbn in *.
  - split; cbn; [done|by constructor; [apply store_first_disciplined|]|done|..].
    + intros id g Hg. eapply call_snoc; [by apply Hc|done|by right].
    + destruct Hl as [Hl|[?|?]]; [left|by right; left|right; right; by constructor 2].
      eapply settled_but_snoc; [done| | |exact Hl]; [done|]. intros g a Ha. left. by exists a.
  - apply Forall_app in Hw as [Hpre [Hop Hpost]%Forall_cons].
    assert (Forall disciplined (pre ++ ops :: post)) as Hw'.
    { apply Forall_app; split; [done|]. constructor; [|done]. destruct op; cbn in Hop; tauto. }
    destruct op as [f|c]; cbn in *; (split; cbn; [done|done|rewrite ?length_app; cbn; lia|..]).
    + intros id g Hg. eapply call_snoc; [by apply Hc|done|by left].
    + right. right. apply Exists_app. right. constructor. tauto.
    + intros id g Hg. eapply call_snoc; [by apply Hc|done|by right].
    + right. left. rewrite length_app. cbn. lia.
  - destruct (rebalance_spec outcome local_silo_id r w Hd) as (Hd' & Ha & _).
    split; cbn; [done|done|lia|..].
    + intros id g Hg. eapply call_snoc; [by apply Hc|done|by right].
    + left. intros g a. cbn. rewrite Ha. left. by destruct (rehashed local_silo_id r g).
  - split; cbn; [done|done|done|..].
    + intros id' g'. rewrite lookup_insert. case_decide as E; [subst id'|].
      * intros [= <-]. exists ls, []. split_and!; [done|by constructor|by right].
      * intros Hg'. eapply call_snoc; [by apply Hc|cbn; congruence|by right].
    + destruct Hl as [Hl|?]; [left|by right]. eapply settled_but_snoc; [done| | |exact Hl]; [done|]. intros g' a Ha. left. by exists a.
  - split; cbn; [by apply directory_inv_get_or_insert|done|done|..].
    + intros id' g' [Hne Hg']%lookup_delete_Some. eapply call_snoc; [by apply Hc|cbn; congruence|by right].
    + destruct Hl as [Hl|?]; [left|by right]. eapply settled_but_snoc; [done| | |exact Hl]; [done|].
      intros g' a [->|Ha]%get_or_insert_activations; [right; by eapply insert_stray, Hc|left; by exists a].
  - split; cbn; [done|done|done|..].
    + intros id' g' [Hne Hg']%lookup_delete_Some. eapply call_snoc; [by apply Hc|cbn; congruence|by right].
    + destruct Hl as [Hl|?]; [left|by right]. eapply settled_but_snoc; [done| | |exact Hl]; [done|]. intros g' a Ha. left. by exists a.
  - split; cbn; [by apply directory_inv_get_or_insert|done|done|..].
    + intros id' g' Hg'. eapply call_snoc; [by apply Hc|done|by right].
    + destruct Hl as [Hl|?]; [left|by right]. eapply settled_but_snoc; [done| | |exact Hl]; [done|].
      intros g' a [->|Ha]%get_or_insert_activations; [|left; by exists a].
      right. right. right. exists ls, []. split; [done|apply not_elem_of_nil].
  - split; cbn; [by apply directory_inv_activator_remove|done|done|..].
    + intros id' g' Hg'. eapply call_snoc; [by apply Hc|done|by right].
    + destruct Hl as [Hl|?]; [left|by right]. eapply settled_but_snoc; [done| | |exact Hl]; [done|].
      intros g' a. cbn. rewrite activator_remove_activations. intros [_ Ha]%lookup_delete_Some. left. by exists a.
Qed.

(** C12: with writers that store the ring before they broadcast (joins, leaves and expired suspicions), the rebalancer never
    misses a grain that was active when it ran: in every interleaving of writers, rebalancer, calls in flight, activations
    without a ring check and deactivations, once the writers are done and the rebalancer has received what was broadcast
    (however much it skipped), every active grain is one that the ring places on this silo, or else it was activated
    after the last pass, by a call that had checked an older ring or by a reference that does not check. *)
Theorem rebalancer_settles s ls s' :
  directory_inv (sh_runtime s) → quiescent s → settled s → sh_calls s = ∅ →
  serving_run store_first s ls s' → quiescent s' →
  ∀ g a, activations (rt_dir (sh_runtime s')) !! g = Some a →
    rehashed local_silo_id (sh_ring s') g = false ∨ overtaken ls g ∨ unchecked ls g.
Proof.
  intros Hd [Hw Hseen] Hset Hno Hr [Hw' Hseen'].
  assert (serving_inv ls s') as [_ _ _ _ Hl].
  { assert (serving_inv [] s) as Hi.
    { split; [done| |lia| |].
      - eapply Forall_impl; [exact Hw|]. by intros ? ->.
      - intros id g. by rewrite Hno, lookup_empty.
      - left. intros g a Ha. left. by eapply Hset. }
    clear -Hr Hi. induction Hr; eauto using serving_step_inv. }
  destruct Hl as [?|[?|Hex]]; [done|lia|]. exfalso.
  apply Exists_exists in Hex as (ops & Hin & c & Hc). rewrite Forall_forall in Hw'.
  rewrite (Hw' _ Hin) in Hc. by apply not_elem_of_nil in Hc.
Qed.

Lemma serving_run_cons writer s l s' ls s'' :
  serving_step writer s l s' → serving_run writer s' ls s'' → serving_run writer s (l :: ls) s''.
Proof.
  intros Hs Hr. induction Hr as [s'|s' ls s1 l1 s2 _ IH Hl].
  - apply (sr_snoc _ _ [] s); [constructor|done].
  - rewrite app_comm_cons. by eapply sr_snoc; [apply IH|].
Qed.

(** C39: gossip is applied the other way round: the changes are broadcast inside the loop of
    [apply_gossip] and the ring is stored after it.  When the rebalancer receives the change in between, it
    rebalances against the old ring; afterwards nothing is pending any more, and a grain that the new
    ring places elsewhere stays active here, out of reach of every call, until the next membership
    change. *)
Theorem gossip_race_strands_grain now n addr outcome w g a :
  directory_inv w → members (nd_swim n) !! silo_id addr = None → silo_id addr ≠ local_id (nd_swim n) →
  activations (rt_dir w) !! g = Some a → rehashed local_silo_id (nd_ring n) g = false →
  rehashed local_silo_id (HashRing_add (nd_ring n) addr) g = true →
  let s := mkShared (nd_ring n) (nd_changes n) (length (nd_changes n)) w [] ∅ in
  ∃ ls s', serving_run (λ ops, ops = gossip_ops now n [GJoin addr]) s ls s' ∧ quiescent s' ∧
    sh_ring s' = nd_ring (apply_gossip now n [GJoin addr]) ∧
    sh_runtime s' = rebalance outcome local_silo_id (nd_ring n) w ∧
    activations (rt_dir (sh_runtime s')) !! g = Some a ∧ ¬ settled s'.
Proof.
  intros Hd Hm Hne Ha Hown Hmoved s.
  assert (gossip_ops now n [GJoin addr] =
            [SendChange (SiloJoined addr); StoreRing (λ r, HashRing_add r addr)]) as Hops.
  { unfold gossip_ops. cbn. rewrite bool_decide_false by done. rewrite Hm. cbn.
    by rewrite drop_app_length. }
  assert (nd_ring (apply_gossip now n [GJoin addr]) = HashRing_add (nd_ring n) addr) as Hring.
  { unfold apply_gossip. cbn. rewrite bool_decide_false by done. by rewrite Hm. }
  destruct (rebalance_spec outcome local_silo_id (nd_ring n) w Hd) as (_ & Hact & _).
  assert (activations (rt_dir (rebalance outcome local_silo_id (nd_ring n) w)) !! g = Some a) as Hga
    by (by rewrite Hact, Hown).
  exists [LStart; LSend (SiloJoined addr); LPass; LStore],
    (mkShared (HashRing_add (nd_ring n) addr) (nd_changes n ++ [SiloJoined addr])
      (length (nd_changes n ++ [SiloJoined addr])) (rebalance outcome local_silo_id (nd_ring n) w) [[]] ∅).
  split_and!; [|split; [by apply Forall_singleton|done]|by rewrite Hring|done|done|].
  - eapply serving_run_cons; [apply sv_start, eq_sym, Hops|].
    eapply serving_run_cons; [apply (sv_micro _ _ _ _ _ [] (SendChange _) _ [])|]. cbn.
    eapply serving_run_cons; [apply (sv_receive _ _ _ _ (length (nd_changes n ++ [SiloJoined addr])) _ _ _ outcome);
                              rewrite length_app; cbn; lia|].
    eapply serving_run_cons; [apply (sv_micro _ _ _ _ _ [] (StoreRing _) _ [])|]. apply sr_nil.
  - intros Hset. specialize (Hset g a Hga). cbn in Hset. congruence.
Qed.
End serving.

(** ** The two silos of the witnesses: B runs a grain, A joins and takes it over *)
Definition cart_1 : GrainId := mkGrainId "Cart" "1".
Definition ring_b : HashRing := HashRing_add (HashRing_new 2) silo_b.
Definition active_cart : Runtime := (GrainDirectory_get_or_insert Runtime_new cart_1).1.

(** A joins while a call for the cart is between its ring check and its dispatch on B. *)
Definition joined : SharedState :=
  mkShared (HashRing_add ring_b silo_a) [SiloJoined silo_a] 1
    (rebalance (λ _, TaskFinished) "B" (HashRing_add ring_b silo_a) active_cart) [[]] {[0%nat := cart_1]}.
Definition join_labels : list Label := [LCheck 0 cart_1; LStart; LStore; LSend (SiloJoined silo_a); LPass].
Lemma joined_run : serving_run "B" store_first (mkShared ring_b [] 0 active_cart [] ∅) join_labels joined.
Proof.
  eapply serving_run_cons; [apply sv_check; [done|vm_compute; reflexivity]|].
  eapply serving_run_cons; [apply sv_start, (sf_join silo_a)|].
  eapply serving_run_cons; [apply (sv_micro _ _ _ _ _ _ [] (StoreRing _) _ [])|].
  eapply serving_run_cons; [apply (sv_micro _ _ _ _ _ _ [] (SendChange _) _ [])|].
  eapply serving_run_cons; [apply (sv_receive _ _ _ _ _ 1 _ _ _ (λ _, TaskFinished)); cbn; lia|]. apply sr_nil.
Qed.

(** The pass removes the cart; the call that was overtaken then activates it again, where no call looks for it. *)
Lemma rebalancer_settles_witness :
  let s' := mkShared (sh_ring joined) (sh_changes joined) 1 (GrainDirectory_get_or_insert (sh_runtime joined) cart_1).1 [[]]
              (delete 0%nat (sh_calls joined)) in
  activations (rt_dir (sh_runtime joined)) !! cart_1 = None ∧
  activations (rt_dir (sh_runtime s')) !! cart_1 = Some (activation_of cart_1 1) ∧ rehashed "B" (sh_ring s') cart_1 = true ∧
  (rehashed "B" (sh_ring s') cart_1 = false ∨ overtaken (join_labels ++ [LInsert 0 cart_1]) cart_1 ∨
   unchecked (join_labels ++ [LInsert 0 cart_1]) cart_1).
Proof.
  intros s'. assert (activations (rt_dir (sh_runtime s')) !! cart_1 = Some (activation_of cart_1 1)) as Ha by (vm_compute; reflexivity).
  split; [vm_compute; reflexivity|]. split; [exact Ha|]. split; [vm_compute; reflexivity|].
  apply (rebalancer_settles "B" (mkShared ring_b [] 0 active_cart [] ∅) _ s') with (a := activation_of cart_1 1).
  - apply directory_inv_get_or_insert, directory_inv_new.
  - split; [constructor|reflexivity].
  - intros g a [->|H]%get_or_insert_activations; [vm_compute; reflexivity|by cbn in H; rewrite lookup_empty in H].
  - reflexivity.
  - eapply sr_snoc; [apply joined_run|]. apply (sv_insert "B" store_first _ _ _ _ _ {[0%nat := cart_1]} 0 cart_1). reflexivity.
  - split; [by apply Forall_singleton|reflexivity].
  - exact Ha.
Defined.

Lemma gossip_race_strands_grain_witness :
  let n := mkNode (SwimState_new silo_b) ring_b ConnectionPool_new [] in
  ∃ ls s', serving_run "B" (λ ops, ops = gossip_ops 0 n [GJoin silo_a]) (mkShared ring_b [] 0 active_cart [] ∅) ls s' ∧
    quiescent s' ∧ ¬ settled "B" s'.
Proof.
  intros n.
  destruct (gossip_race_strands_grain "B" 0 n silo_a (λ _, TaskFinished) active_cart cart_1 (activation_of cart_1 0))
    as (ls & s' & H1 & H2 & _ & _ & _ & H3).
  - apply directory_inv_get_or_insert, directory_inv_new.
  - reflexivity.
  - discriminate.
  - reflexivity.
  - vm_compute. reflexivity.
  - vm_compute. reflexivity.
  - exists ls, s'. split; [exact H1|]. split; [exact H2|exact H3].
Defined.

(** ** The loops of the background tasks *)

(** What [tokio::select!] between the loop's timer and the shutdown channel yields. *)
Inductive Wake (A : Type) := WTick (a : A) | WShutdown.
Arguments WTick {A} a.
Arguments WShutdown {A}.

(** A loop that works on every tick until it is told to stop; also whether it has returned. *)
Fixpoint tick_loop {S A} (body : A → S → S) (ws : list (Wake A)) (s : S) : S * bool :=
  match ws with
  | [] => (s, false)
  | WShutdown :: _ => (s, true)
  | WTick a :: ws => tick_loop body ws (body a s)
  end.

(** The ticks before the first shutdown signal. *)
Fixpoint ticks {A} (ws : list (Wake A)) : list A :=
  match ws with WTick a :: ws => a :: ticks ws | _ => [] end.

Lemma tick_loop_fold {S A} (body : A → S → S) ws s :
  (tick_loop body ws s).1 = foldl (λ s a, body a s) s (ticks ws).
Proof. revert s. induction ws as [|[a|] ws IH]; intros s; cbn; auto. Qed.

(** [run_swim_protocol]: a tick is one protocol period. *)
Definition run_swim_protocol (config : FailureDetectorConfig) (ws : list (Wake PeriodEnv)) (n : Node)
    : Node * bool := tick_loop (swim_period config) ws n.

(** [FailureDetector]: with a SWIM state of its own, or sharing one. *)
Record FailureDetector := mkDetector { fd_config : FailureDetectorConfig; fd_node : Node }.
Definition FailureDetector_new (config : FailureDetectorConfig) (r : HashRing) (pool : ConnectionPool)
    (local : SiloAddress) (cs : list MembershipChange) : FailureDetector :=
  mkDetector config (mkNode (SwimState_new local) r pool cs).
Definition FailureDetector_with_state (config : FailureDetectorConfig) (r : HashRing) (pool : ConnectionPool)
    (cs : list MembershipChange) (st : SwimState) : FailureDetector :=
  mkDetector config (mkNode st r pool cs).
Definition FailureDetector_run (d : FailureDetector) (ws : list (Wake PeriodEnv)) : Node * bool :=
  run_swim_protocol (fd_config d) ws (fd_node d).

(** The detector that [serve] starts shares the silo's membership state: whatever its peers answer,
    as long as they gossip about silos of the universe, the ring agrees with the member table
    after every number of periods. *)
Theorem detector_keeps_ring_agreement vn U config cs ws :
  universe_ok vn U → node_ok vn U (cs_node cs) → Forall (env_ok U) (ticks ws) →
  let n := cs_node cs in
  let n' := (FailureDetector_run
               (FailureDetector_with_state config (nd_ring n) (nd_pool n) (nd_changes n) (nd_swim n)) ws).1 in
  node_ok vn U n'.
Proof.
  intros HU Hn He n n'. unfold n', FailureDetector_run, run_swim_protocol. rewrite tick_loop_fold. cbn [fd_node fd_config FailureDetector_with_state].
  replace (mkNode (nd_swim n) (nd_ring n) (nd_pool n) (nd_changes n)) with n by (by destruct n).
  subst n. revert Hn. generalize (cs_node cs). clear n'. induction He as [|env envs Henv _ IH]; intros n Hn; cbn; [done|].
  apply IH. by apply swim_period_ok.
Qed.

(** A detector made with [FailureDetector::new] starts with an empty member table and never probes
    anybody. *)
Lemma fresh_detector_is_idle config r pool local cs ws :
  (FailureDetector_run (FailureDetector_new config r pool local cs) ws).1 = mkNode (SwimState_new local) r pool cs.
Proof.
  unfold FailureDetector_run, run_swim_protocol. rewrite tick_loop_fold. cbn.
  induction (ticks ws) as [|env envs IH]; [done|]. cbn. exact IH.
Qed.

(** [Rebalancer::run]: what [change_rx.recv()] yields, with the ring and the task outcomes the pass
    then sees. *)
Inductive RebalanceEvent :=
| RbChange (r : HashRing) (outcome : JoinHandle → WaitOutcome)
| RbLagged (r : HashRing) (outcome : JoinHandle → WaitOutcome)
| RbClosed.
Fixpoint Rebalancer_run (local : string) (es : list RebalanceEvent) (w : Runtime) : Runtime * bool :=
  match es with
  | [] => (w, false)
  | RbChange r outcome :: es | RbLagged r outcome :: es => Rebalancer_run local es (rebalance outcome local r w)
  | RbClosed :: _ => (w, true)
  end.

(** [ReplicationConsumer::run]: a tick finds the log in some state, or cannot read it. *)
Definition consumer_tick (gt gk : string) (l : result ReplicationError InMemoryReplicationLog) (c : Consumer) : Consumer :=
  match l with Ok l => consumer_poll l gt gk c | Err _ => c end.
Definition ReplicationConsumer_run (gt gk : string)
    (ws : list (Wake (result ReplicationError InMemoryReplicationLog))) (store : ReplicaStore) : Consumer * bool :=
  tick_loop (consumer_tick gt gk) ws (mkConsumer 0 store).

(** [ClusterHealth::run] *)
Definition ClusterHealth_run (config : MultiClusterConfig)
    (ws : list (Wake ((string → bool) * (string → Metadata → bool) * ConnectionPool)))
    (st : gmap ClusterId PeerStatus) : gmap ClusterId PeerStatus * bool :=
  tick_loop (λ '(connects, answers, pool) _, health_round connects answers config pool) ws st.

(** [FailoverManager::run]: a tick is an instant and the statuses seen then. *)
Definition FailoverManager_run `{CrossClusterDirectory D} (fc : FailoverConfig) (local : ClusterId)
    (ws : list (Wake (Z * list (ClusterId * PeerStatus)))) (d : D)
    : (D * gmap ClusterId FailoverPhase) * bool :=
  tick_loop (λ '(now, statuses) s, failover_pass fc local now statuses s.1 s.2) ws (d, ∅).

(** What a consumer may hold: nothing, or a full state of one of the logs it has read, not newer than
    its position. *)
Definition replica_from (gt gk : string) (ls : list InMemoryReplicationLog) (c : Consumer) : Prop :=
  ∀ p, ReplicaStore_get (cs_store c) gt gk = Some p →
    rp_sequence p ≤ cs_last_sequence c ∧
    ∃ l e, l ∈ ls ∧ e ∈ entries_for l gt gk ∧ re_type e = FullState ∧
      p = mkReplica (re_payload e) (re_sequence e) (re_timestamp e).

Lemma consumer_poll_step l gt gk ls c :
  replica_from gt gk ls c →
  replica_from gt gk (l :: ls) (consumer_poll l gt gk c) ∧
  cs_last_sequence c ≤ cs_last_sequence (consumer_poll l gt gk c).
Proof.
  intros Hc.
  assert (∀ n, cs_last_sequence c ≤ n → replica_from gt gk (l :: ls) (mkConsumer n (cs_store c))) as Hkeep.
  { intros n Hn p Hp. destruct (Hc p Hp) as (Hs & l' & e & Hl & Hrest). cbn. split; [lia|].
    exists l', e. split; [by right|done]. }
  unfold consumer_poll. destruct (last (log_read_from l gt gk (cs_last_sequence c) 100)) as [e|] eqn:E.
  - assert (cs_last_sequence c < re_sequence e ∧ e ∈ entries_for l gt gk) as [Hlt Hin].
    { apply last_Some_elem_of, elem_of_take in E as (i & Hi & _).
      apply list_elem_of_lookup_2, list_elem_of_filter in Hi. done. }
    destruct (existsb _ _) eqn:Hx; cbn [cs_last_sequence]; (split; [|lia]).
    + apply Hkeep. lia.
    + intros p. cbn. unfold ReplicaStore_get, ReplicaStore_update. rewrite lookup_insert_eq. intros [= <-].
      cbn. split; [lia|]. exists l, e. split_and!; [by left|done| |done].
      destruct (re_type e) eqn:Ht; [done|]. exfalso. apply not_true_iff_false in Hx. apply Hx.
      apply existsb_exists. exists e. split; [|by apply bool_decide_eq_true].
      apply list_elem_of_In. by apply last_Some_elem_of.
  - split; [|lia]. destruct c as [n st]. by apply Hkeep.
Qed.

(** The replica never goes back and is never made up: over any run of the consumer, with the log growing,
    being truncated or unreadable in between, its position never decreases, and what the replica
    holds is always a full state that one of the logs it read contained, at most as new as
    its position. *)
Theorem replica_never_regresses gt gk ws1 ws2 :
  let c1 := (ReplicationConsumer_run gt gk ws1 ∅).1 in
  let c2 := (ReplicationConsumer_run gt gk (ws1 ++ ws2) ∅).1 in
  cs_last_sequence c1 ≤ cs_last_sequence c2 ∧
  replica_from gt gk (omap res_ok (ticks (ws1 ++ ws2))) c2.
Proof.
  cbn zeta. unfold ReplicationConsumer_run. rewrite !tick_loop_fold.
  assert (∀ ts ls c, replica_from gt gk ls c →
    replica_from gt gk (reverse (omap res_ok ts) ++ ls) (foldl (λ s a, consumer_tick gt gk a s) c ts) ∧
    cs_last_sequence c ≤ cs_last_sequence (foldl (λ s a, consumer_tick gt gk a s) c ts)) as Hrun.
  { induction ts as [|[l|e] ts IH]; intros ls c Hc; [split; [done|cbn; lia]| |by apply IH].
    destruct (consumer_poll_step l gt gk ls c Hc) as [H1 H2]. destruct (IH _ _ H1) as [H3 H4].
    change (omap res_ok (Ok l :: ts)) with (l :: omap res_ok ts). rewrite reverse_cons, <- app_assoc.
    cbn [foldl consumer_tick]. split; [done|lia]. }
  assert (replica_from gt gk [] (mkConsumer 0 ∅)) as H0 by (intros p Hp; unfold ReplicaStore_get in Hp; cbn in Hp; by rewrite lookup_empty in Hp).
  split.
  - assert (∃ ts, ticks (ws1 ++ ws2) = ticks ws1 ++ ts) as [ts ->].
    { clear. induction ws1 as [|[a|] ws1 [ts IH]]; cbn; [by eexists| |by exists []]. exists ts. by rewrite IH. }
    rewrite foldl_app. apply (Hrun ts (reverse (omap res_ok (ticks ws1)) ++ [])). by apply Hrun.
  - destruct (Hrun (ticks (ws1 ++ ws2)) [] _ H0) as [H _]. intros p Hp.
    destruct (H p Hp) as (Hs & l & e & Hl & Hrest). split; [done|]. exists l, e. split; [|done].
    by rewrite app_nil_r, elem_of_reverse in Hl.
Qed.

(** [TcpTransportServer::serve]: the listener's result and what [select!] yields; the connections
    handed to a task of their own. *)
Inductive AcceptEvent (Conn : Type) := Accepted (c : Conn) | AcceptFailed | AcceptShutdown.
Arguments Accepted {Conn} c.
Arguments AcceptFailed {Conn}.
Arguments AcceptShutdown {Conn}.
Fixpoint accept_loop {Conn} (es : list (AcceptEvent Conn)) : list Conn * bool :=
  match es with
  | [] => ([], false)
  | Accepted c :: es => let '(cs, stopped) := accept_loop es in (c :: cs, stopped)
  | AcceptFailed :: es => accept_loop es
  | AcceptShutdown :: _ => ([], true)
  end.
Definition tcp_serve {Conn} (bind : result string unit) (es : list (AcceptEvent Conn))
    : result Registry.ClusterError (list Conn * bool) :=
  match bind with
  | Err e => Err (Registry.ETransport ("tcp bind failed: " +:+ e))
  | Ok _ => Ok (accept_loop es)
  end.

(** [run_health_server]: the router, and the answers to the requests that arrive until the
    shutdown; nothing is served when the address cannot be bound. *)
Definition health_answer (r : HashRing) (store_probe : option (result string unit)) (path : string) : Z * string :=
  if bool_decide (path = "/healthz") then healthz
  else if bool_decide (path = "/readyz") then readyz r store_probe
  else (404, "").
Definition run_health_server (bound : bool) (ws : list (Wake (HashRing * option (result string unit) * string)))
    : list (Z * string) :=
  if bound then (λ '(r, p, path), health_answer r p path) <$> ticks ws else [].
