(* ===== verification/Macros.v ===== *)
(** * The procedural macros

    orlando-macros [lib.rs]: what [#[grain]], [#[message]] and [#[grain_handler]] make of their
    attributes, and the traits with provided methods the generated code implements
    (orlando-core [grain.rs], [message.rs], orlando-cluster [network_message.rs]).

    The input is the token sequence [syn] works on; parsing a type is [syn]'s and a parameter.  The
    output is the list of generated items; what they mean is the trait with the overridden
    methods, from which silos and registries take their declarations. *)
From S2P Require Import Prelude CoreTypes Parse Mailbox Directory Calls Store PersistentMailbox Transaction.
From S2P Require Import Silos Registry.

(** ** Tokens and parsing *)

(** A keyword is not an [Ident] and counts as another token; an integer literal is its decimal digits. *)
Inductive Token :=
| TIdent (s : string) | TEq | TComma | TInt (digits : string) | TStr (s : string) | TOther (s : string).

Inductive SynError :=
| ExpectedIdent | ExpectedEq | ExpectedComma | ExpectedInt | ExpectedStr
| InvalidInt (e : ParseIntError)
| SynOther (m : string)
| UnknownAttribute (key : string)
| MissingAttribute (key : string)
| Rejected (message : string).

(** A parser over a [ParseStream]. *)
Abbreviation Parser A := (list Token → result SynError (A * list Token)).

Definition parse_ident : Parser string := λ ts,
  match ts with TIdent s :: ts' => Ok (s, ts') | _ => Err ExpectedIdent end.
Definition parse_eq : Parser unit := λ ts,
  match ts with TEq :: ts' => Ok ((), ts') | _ => Err ExpectedEq end.
Definition parse_comma : Parser unit := λ ts,
  match ts with TComma :: ts' => Ok ((), ts') | _ => Err ExpectedComma end.

(** [LitInt] with [base10_parse], for an unsigned type with the given maximum. *)
Definition parse_lit_int (max : Z) : Parser Z := λ ts,
  match ts with
  | TInt digits :: ts' => n ← map_err InvalidInt (parse_int 0 max digits); Ok (n, ts')
  | _ => Err ExpectedInt
  end.
Definition parse_lit_str : Parser string := λ ts,
  match ts with TStr s :: ts' => Ok (s, ts') | _ => Err ExpectedStr end.

(** [= value] *)
Definition parse_value {A} (p : Parser A) : Parser A := λ ts, '(_, ts) ← parse_eq ts; p ts.

Definition u64_max : Z := u64_mod - 1.
Definition u32_max : Z := u32_mod - 1.

(** The loop [while !input.is_empty()] around one attribute: [item] parses the attribute, and a
    comma must follow unless the input ends.  [None] is out of fuel. *)
Fixpoint attribute_loop {Acc} (item : Acc → Parser Acc) (fuel : nat) (acc : Acc) (ts : list Token)
    : option (result SynError Acc) :=
  match ts with
  | [] => Some (Ok acc)
  | _ =>
      match fuel with
      | O => None
      | S fuel' =>
          match item acc ts with
          | Err e => Some (Err e)
          | Ok (acc, []) => Some (Ok acc)
          | Ok (acc, ts) =>
              match parse_comma ts with
              | Err e => Some (Err e)
              | Ok (_, ts) => attribute_loop item fuel' acc ts
              end
          end
      end
  end.

Section macros.
(** [syn]'s types and their parser. *)
Context {Ty : Type} (parse_type : Parser Ty).

(** ** [#[grain(..)]] *)

(** The local variables of the parsing loop. *)
Record GrainVars := mkGrainVars {
  gv_state : option Ty;
  gv_idle_timeout_secs : option Z;
  gv_stateless_worker : bool;
  gv_max_activations : option Z;
  gv_reentrant : bool;
  gv_grain_name : option string;
  gv_ask_timeout_secs : option Z;
  gv_placement : option string;
  gv_storage : option string }.

Definition GrainVars_new : GrainVars := mkGrainVars None None false None false None None None None.

(** An attribute the loop accepts, as it is stored. *)
Inductive GrainSetting :=
| GState (t : Ty) | GIdleTimeout (secs : Z) | GStatelessWorker | GMaxActivations (n : Z)
| GReentrant | GName (s : string) | GAskTimeout (secs : Z) | GPlacement (s : string) | GStorage (s : string).

Definition set_grain (v : GrainVars) (x : GrainSetting) : GrainVars :=
  mkGrainVars
    (match x with GState t => Some t | _ => gv_state v end)
    (match x with GIdleTimeout n => Some n | _ => gv_idle_timeout_secs v end)
    (match x with GStatelessWorker => true | _ => gv_stateless_worker v end)
    (match x with GMaxActivations n => Some n | _ => gv_max_activations v end)
    (match x with GReentrant => true | _ => gv_reentrant v end)
    (match x with GName s => Some s | _ => gv_grain_name v end)
    (match x with GAskTimeout n => Some n | _ => gv_ask_timeout_secs v end)
    (match x with GPlacement s => Some s | _ => gv_placement v end)
    (match x with GStorage s => Some s | _ => gv_storage v end).

(** The [match key] of the loop. *)
Definition parse_grain_setting : Parser GrainSetting := λ ts,
  '(key, ts) ← parse_ident ts;
  if bool_decide (key = "state") then '(t, ts) ← parse_value parse_type ts; Ok (GState t, ts)
  else if bool_decide (key = "idle_timeout_secs") then
    '(n, ts) ← parse_value (parse_lit_int u64_max) ts; Ok (GIdleTimeout n, ts)
  else if bool_decide (key = "stateless_worker") then Ok (GStatelessWorker, ts)
  else if bool_decide (key = "max_activations") then
    '(n, ts) ← parse_value (parse_lit_int u64_max) ts; Ok (GMaxActivations n, ts)
  else if bool_decide (key = "reentrant") then Ok (GReentrant, ts)
  else if bool_decide (key = "name") then '(s, ts) ← parse_value parse_lit_str ts; Ok (GName s, ts)
  else if bool_decide (key = "ask_timeout_secs") then
    '(n, ts) ← parse_value (parse_lit_int u64_max) ts; Ok (GAskTimeout n, ts)
  else if bool_decide (key = "placement") then
    '(s, ts) ← parse_value parse_lit_str ts; Ok (GPlacement s, ts)
  else if bool_decide (key = "storage") then
    '(s, ts) ← parse_value parse_lit_str ts; Ok (GStorage s, ts)
  else Err (UnknownAttribute key).

Definition grain_item (v : GrainVars) : Parser GrainVars := λ ts,
  '(x, ts) ← parse_grain_setting ts; Ok (set_grain v x, ts).

Record GrainArgs := mkGrainArgs {
  ga_state : Ty;
  ga_idle_timeout_secs : option Z;
  ga_stateless_worker : bool;
  ga_max_activations : option Z;
  ga_reentrant : bool;
  ga_grain_name : option string;
  ga_ask_timeout_secs : option Z;
  ga_placement : option string;
  ga_storage : option string }.

Definition grain_args_of (v : GrainVars) : result SynError GrainArgs :=
  state ← ok_or (MissingAttribute "state") (gv_state v);
  Ok (mkGrainArgs state (gv_idle_timeout_secs v) (gv_stateless_worker v) (gv_max_activations v)
        (gv_reentrant v) (gv_grain_name v) (gv_ask_timeout_secs v) (gv_placement v) (gv_storage v)).

(** [<GrainArgs as Parse>::parse] *)
Definition GrainArgs_parse (ts : list Token) : option (result SynError GrainArgs) :=
  r ← attribute_loop grain_item (length ts) GrainVars_new ts;
  Some (r ≫= grain_args_of).

(** A generated method of the [Grain] impl. *)
Inductive GrainMethod :=
| MIdleTimeout (secs : Z) | MAskTimeout (secs : Z) | MGrainTypeName (s : string)
| MReentrant | MPlacementHint (s : string) | MStorageProvider (s : string).

(** A parameter of a function: a receiver or a typed pattern. *)
Inductive FnArg := ArgReceiver | ArgTyped (t : Ty).

(** The generated items. *)
Inductive Item :=
| ItemStruct (name : string)
| ImplGrain (name : string) (state : Ty) (methods : list GrainMethod)
| ImplStatelessWorker (name : string) (max_activations : option Z)
| ImplMessage (name : string) (result_type : Ty)
| ImplNetworkMessage (name message_type_name : string) (version : option Z) (proto : bool)
| ImplGrainHandler (msg_type : Ty) (grain : string) (inputs : list FnArg).

Definition opt_list {A B} (f : A → B) (o : option A) : list B :=
  match o with Some a => [f a] | None => [] end.

(** The body of [grain] on parsed arguments and the name of the struct. *)
Definition expand_grain (args : GrainArgs) (name : string) : result SynError (list Item) :=
  if ga_stateless_worker args && ga_reentrant args then
    Err (Rejected "`stateless_worker` and `reentrant` are mutually exclusive — a stateless worker pool already provides concurrency")
  else
    Ok ([ItemStruct name;
         ImplGrain name (ga_state args)
           (opt_list MIdleTimeout (ga_idle_timeout_secs args) ++
            opt_list MAskTimeout (ga_ask_timeout_secs args) ++
            opt_list MGrainTypeName (ga_grain_name args) ++
            (if ga_reentrant args then [MReentrant] else []) ++
            opt_list MPlacementHint (ga_placement args) ++
            opt_list MStorageProvider (ga_storage args))] ++
        (if ga_stateless_worker args then [ImplStatelessWorker name (ga_max_activations args)] else [])).

(** [grain]; [item] is the struct's name, or why the item is not a struct. *)
Definition grain (attr : list Token) (item : result SynError string) : option (result SynError (list Item)) :=
  args ← GrainArgs_parse attr;
  Some (args ← args; name ← item; expand_grain args name).

(** ** [#[message(..)]] *)
Record MessageVars := mkMessageVars {
  mv_result : option Ty; mv_network : bool; mv_proto : bool; mv_version : option Z }.
Definition MessageVars_new : MessageVars := mkMessageVars None false false None.

Inductive MessageSetting := MResult (t : Ty) | MNetwork | MProto | MVersion (n : Z).

Definition set_message (v : MessageVars) (x : MessageSetting) : MessageVars :=
  mkMessageVars
    (match x with MResult t => Some t | _ => mv_result v end)
    (match x with MNetwork => true | _ => mv_network v end)
    (match x with MProto => true | _ => mv_proto v end)
    (match x with MVersion n => Some n | _ => mv_version v end).

Definition parse_message_setting : Parser MessageSetting := λ ts,
  '(key, ts) ← parse_ident ts;
  if bool_decide (key = "result") then '(t, ts) ← parse_value parse_type ts; Ok (MResult t, ts)
  else if bool_decide (key = "network") then Ok (MNetwork, ts)
  else if bool_decide (key = "proto") then Ok (MProto, ts)
  else if bool_decide (key = "version") then
    '(n, ts) ← parse_value (parse_lit_int u32_max) ts; Ok (MVersion n, ts)
  else Err (UnknownAttribute key).

Definition message_item (v : MessageVars) : Parser MessageVars := λ ts,
  '(x, ts) ← parse_message_setting ts; Ok (set_message v x, ts).

Record MessageArgs := mkMessageArgs {
  ma_result : Ty; ma_network : bool; ma_proto : bool; ma_version : option Z }.

Definition message_args_of (v : MessageVars) : result SynError MessageArgs :=
  res ← ok_or (MissingAttribute "result") (mv_result v);
  Ok (mkMessageArgs res (mv_network v) (mv_proto v) (mv_version v)).

(** [<MessageArgs as Parse>::parse] *)
Definition MessageArgs_parse (ts : list Token) : option (result SynError MessageArgs) :=
  r ← attribute_loop message_item (length ts) MessageVars_new ts;
  Some (r ≫= message_args_of).

Definition expand_message (args : MessageArgs) (name : string) : result SynError (list Item) :=
  if ma_proto args && negb (ma_network args) then
    Err (Rejected "`proto` requires `network` — protobuf encoding is only available for network-capable messages")
  else if bool_decide (is_Some (ma_version args)) && negb (ma_network args) then
    Err (Rejected "`version` requires `network` — versioning is only meaningful for network-capable messages")
  else
    Ok ([ItemStruct name; ImplMessage name (ma_result args)] ++
        (if ma_network args then [ImplNetworkMessage name name (ma_version args) (ma_proto args)] else [])).

(** [message] *)
Definition message (attr : list Token) (item : result SynError string) : option (result SynError (list Item)) :=
  args ← MessageArgs_parse attr;
  Some (args ← args; name ← item; expand_message args name).

(** ** [#[grain_handler(..)]] *)
Definition extract_msg_type (inputs : list FnArg) : option Ty :=
  second ← inputs !! 1%nat;
  match second with ArgTyped t => Some t | ArgReceiver => None end.

(** [grain_handler]; [attr] is the parsed path and [item] the parameters of the function. *)
Definition grain_handler (attr : result SynError string) (item : result SynError (list FnArg))
    : result SynError (list Item) :=
  grain_path ← attr; inputs ← item;
  match extract_msg_type inputs with
  | None => Err (Rejected "grain_handler requires at least 2 parameters: (state: &mut State, msg: M, ...)")
  | Some t => Ok [ImplGrainHandler t grain_path inputs]
  end.
End macros.
Arguments GrainArgs : clear implicits.
Arguments MessageArgs : clear implicits.
Arguments GrainSetting : clear implicits.
Arguments MessageSetting : clear implicits.
Arguments Item : clear implicits.
Arguments FnArg : clear implicits.

(** ** The traits the items implement *)

(** [trait Grain]: the provided methods; durations in seconds. *)
Record GrainTrait := mkGrainTrait {
  tr_idle_timeout : Z;
  tr_ask_timeout : Z;
  tr_grain_type_name : string;
  tr_placement_hint : option string;
  tr_storage_provider : string;
  tr_allowed_clusters : option (list string);
  tr_reentrant : bool }.

(** The default bodies; [rust_type] is [std::any::type_name::<Self>()]. *)
Definition Grain_defaults (rust_type : string) : GrainTrait :=
  mkGrainTrait 300 30 rust_type None "default" None false.

(** An impl overrides the provided methods it contains. *)
Definition override (t : GrainTrait) (m : GrainMethod) : GrainTrait :=
  mkGrainTrait
    (match m with MIdleTimeout n => n | _ => tr_idle_timeout t end)
    (match m with MAskTimeout n => n | _ => tr_ask_timeout t end)
    (match m with MGrainTypeName s => s | _ => tr_grain_type_name t end)
    (match m with MPlacementHint s => Some s | _ => tr_placement_hint t end)
    (match m with MStorageProvider s => s | _ => tr_storage_provider t end)
    (tr_allowed_clusters t)
    (match m with MReentrant => true | _ => tr_reentrant t end).

Definition grain_impl {Ty} (rust_type : string) (items : list (Item Ty)) : option GrainTrait :=
  head (omap (λ it, match it with
                    | ImplGrain _ _ ms => Some (foldl override (Grain_defaults rust_type) ms)
                    | _ => None
                    end) items).

(** [StatelessWorker::max_activations] of the impl, if there is one. *)
Definition worker_impl {Ty} (items : list (Item Ty)) : option Z :=
  head (omap (λ it, match it with ImplStatelessWorker _ n => Some (default 4 n) | _ => None end) items).

(** What silos and registries take from a grain type. *)
Definition decl_of (rust_type : string) (t : GrainTrait) (workers : option Z) : GrainDecl :=
  mkDecl (tr_grain_type_name t) rust_type (tr_reentrant t) (tr_storage_provider t)
    (Z.to_nat (default 4 workers)).
Definition grain_type_of (rust_type : string) (t : GrainTrait) : GrainType :=
  mkGrainType (tr_grain_type_name t) rust_type (tr_allowed_clusters t) (tr_ask_timeout t).

(** [trait NetworkMessage] of the generated impl; the serde and prost codecs are the type's. *)
Record MessageCodecs (M R : Type) := mkCodecs {
  serde_encode : M → result string bytes;
  serde_decode : bytes → result string M;
  serde_encode_result : R → result string bytes;
  serde_decode_result : bytes → result string R;
  prost_decode : bytes → option M;
  prost_encode_result : R → bytes }.
Arguments serde_encode {M R} _ _.
Arguments serde_decode {M R} _ _.
Arguments serde_encode_result {M R} _ _.
Arguments serde_decode_result {M R} _ _.
Arguments prost_decode {M R} _ _.
Arguments prost_encode_result {M R} _ _.

Definition network_message {M R} (c : MessageCodecs M R) (type_name : string) (version : option Z) (proto : bool)
    : NetworkMessage M R :=
  mkMessage M R type_name (default 0 version) (serde_encode c) (serde_decode c)
    (λ b, if proto then prost_decode c b else None)
    (serde_encode_result c) (serde_decode_result c)
    (λ r, if proto then Some (prost_encode_result c r) else None).

Definition message_impl {Ty M R} (c : MessageCodecs M R) (items : list (Item Ty)) : option (NetworkMessage M R) :=
  head (omap (λ it, match it with
                    | ImplNetworkMessage _ n v p => Some (network_message c n v p)
                    | _ => None
                    end) items).

(** ** Parsing always ends *)
Lemma parse_value_short {A} (p : Parser A) ts a rest :
  parse_value p ts = Ok (a, rest) →
  (∀ ts a rest, p ts = Ok (a, rest) → (length rest ≤ length ts)%nat) → (length rest ≤ length ts)%nat.
Proof.
  intros Hv Hp. revert Hv. unfold parse_value. destruct ts as [|[] ts]; cbn; try done.
  intros H%Hp. lia.
Qed.

Lemma parse_lit_int_short max ts n rest :
  parse_lit_int max ts = Ok (n, rest) → (length rest ≤ length ts)%nat.
Proof.
  unfold parse_lit_int. destruct ts as [|[] ts]; cbn; try done.
  destruct (parse_int 0 max digits); cbn; [|done]. intros [= <- <-]. lia.
Qed.

Lemma parse_lit_str_short ts s rest :
  parse_lit_str ts = Ok (s, rest) → (length rest ≤ length ts)%nat.
Proof. unfold parse_lit_str. destruct ts as [|[] ts]; cbn; try done. intros [= <- <-]. lia. Qed.

#[export] Hint Resolve parse_lit_int_short parse_lit_str_short : orlando.

Lemma bind_ok {E A B} (r : result E A) (f : A → result E B) b :
  (r ≫= f) = Ok b → ∃ a, r = Ok a ∧ f a = Ok b.
Proof. destruct r; [eauto|done]. Qed.

(** The loop ends when every attribute takes at least its key. *)
Lemma attribute_loop_total {Acc} (item : Acc → Parser Acc) fuel acc ts :
  (∀ acc ts acc' rest, item acc ts = Ok (acc', rest) → (length rest < length ts)%nat) →
  (length ts ≤ fuel)%nat → is_Some (attribute_loop item fuel acc ts).
Proof.
  intros Hitem. revert acc ts. induction fuel as [|fuel IH]; intros acc ts Hf.
  - destruct ts; cbn in *; [eauto|lia].
  - destruct ts as [|t ts]; cbn [attribute_loop]; [eauto|].
    destruct (item acc (t :: ts)) as [[acc' rest]|e] eqn:E; [|eauto].
    pose proof (Hitem _ _ _ _ E) as Hlt. destruct rest as [|x rest]; [eauto|].
    unfold parse_comma. destruct x; try by eauto. apply IH. cbn in *. lia.
Qed.

Section parsing.
Context {Ty : Type} (parse_type : Parser Ty).
Context (Hshort : ∀ ts t rest, parse_type ts = Ok (t, rest) → (length rest ≤ length ts)%nat).

(** One branch of the [match] on the key at a time. *)
Ltac setting_step :=
  match goal with
  | |- context [bool_decide (_ = _)] => case_bool_decide; setting_step
  | |- (_ ≫= _) = _ → _ =>
      intros ([? ?] & Hv & [= _ <-])%bind_ok; eapply parse_value_short; eauto with orlando
  | |- Ok _ = _ → _ => intros [= _ <-]; lia
  | |- Err _ = _ → _ => done
  end.

Lemma grain_item_consumes v ts v' rest :
  grain_item parse_type v ts = Ok (v', rest) → (length rest < length ts)%nat.
Proof.
  unfold grain_item, parse_grain_setting. destruct ts as [|[] ts]; cbn; try done.
  intros ([x rest'] & H1 & [= _ <-])%bind_ok. cbn.
  enough (length rest' ≤ length ts)%nat by lia. revert H1. setting_step.
Qed.

Lemma message_item_consumes v ts v' rest :
  message_item parse_type v ts = Ok (v', rest) → (length rest < length ts)%nat.
Proof.
  unfold message_item, parse_message_setting. destruct ts as [|[] ts]; cbn; try done.
  intros ([x rest'] & H1 & [= _ <-])%bind_ok. cbn.
  enough (length rest' ≤ length ts)%nat by lia. revert H1. setting_step.
Qed.

(** The macros answer every input, with items or with an error: the loops over the attributes end
    (with as many rounds as there are tokens). *)
Theorem macros_total attr item :
  (∃ r, grain parse_type attr item = Some r) ∧ (∃ r, message parse_type attr item = Some r).
Proof.
  unfold grain, message, GrainArgs_parse, MessageArgs_parse. split.
  - destruct (attribute_loop_total (grain_item parse_type) (length attr) GrainVars_new attr
                grain_item_consumes (le_n _)) as [r ->]. cbn. eauto.
  - destruct (attribute_loop_total (message_item parse_type) (length attr) MessageVars_new attr
                message_item_consumes (le_n _)) as [r ->]. cbn. eauto.
Qed.
End parsing.

(** ** Printed attributes are parsed back *)

(** Attributes separated by commas, with an optional trailing one. *)
Fixpoint comma_joined (xs : list (list Token)) (trailing : bool) : list Token :=
  match xs with
  | [] => []
  | [x] => x ++ (if trailing then [TComma] else [])
  | x :: xs' => x ++ TComma :: comma_joined xs' trailing
  end.

(** What may follow an attribute. *)
Definition delimited (rest : list Token) : Prop := rest = [] ∨ ∃ rest', rest = TComma :: rest'.

Section loop_spec.
Context {Acc X : Type} (item : Acc → Parser Acc) (pr : X → list Token) (ap : Acc → X → Acc) (ok : X → Prop).
Context (Hpr : ∀ x, pr x ≠ []).
Context (Hitem : ∀ acc x rest, ok x → delimited rest → item acc (pr x ++ rest) = Ok (ap acc x, rest)).

Lemma attribute_loop_one fuel acc x rest :
  ok x → attribute_loop item (S fuel) acc (pr x ++ TComma :: rest) = attribute_loop item fuel (ap acc x) rest.
Proof.
  intros Hx. pose proof (Hitem acc x (TComma :: rest) Hx ltac:(right; eauto)) as H. cbn.
  destruct (pr x ++ TComma :: rest) as [|t ts] eqn:E; [by destruct (pr x)|]. by rewrite H.
Qed.

Lemma attribute_loop_last fuel acc x :
  ok x → attribute_loop item (S fuel) acc (pr x) = Some (Ok (ap acc x)).
Proof.
  intros Hx. pose proof (Hitem acc x [] Hx ltac:(by left)) as H. rewrite app_nil_r in H. cbn.
  specialize (Hpr x). destruct (pr x) as [|t ts] eqn:E; [done|]. by rewrite H.
Qed.

Lemma attribute_loop_join xs trailing fuel acc :
  Forall ok xs → (length xs ≤ fuel)%nat →
  attribute_loop item fuel acc (comma_joined (pr <$> xs) trailing) = Some (Ok (foldl ap acc xs)).
Proof.
  intros Hok. revert fuel acc. induction Hok as [|x xs Hx Hxs IH]; intros fuel acc Hf; [by destruct fuel|].
  destruct fuel as [|fuel]; cbn [length] in Hf; [lia|].
  destruct xs as [|y xs]; cbn [fmap list_fmap comma_joined foldl].
  - destruct trailing; [|by rewrite app_nil_r, attribute_loop_last].
    rewrite attribute_loop_one by done. by destruct fuel.
  - rewrite attribute_loop_one by done. apply IH. lia.
Qed.

(** The attributes before a point have been stored when the loop gets there. *)
Lemma attribute_loop_prefix xs fuel acc rest :
  Forall ok xs →
  attribute_loop item (length xs + fuel) acc (concat ((λ x, pr x ++ [TComma]) <$> xs) ++ rest) =
    attribute_loop item fuel (foldl ap acc xs) rest.
Proof.
  intros Hok. revert acc. induction Hok as [|x xs Hx Hxs IH]; intros acc; [done|].
  cbn [length Nat.add fmap list_fmap concat foldl]. rewrite <- !app_assoc. cbn [app].
  rewrite attribute_loop_one by done. apply IH.
Qed.

Lemma comma_joined_length xs trailing : (length xs ≤ length (comma_joined (pr <$> xs) trailing))%nat.
Proof.
  induction xs as [|x xs IH]; [done|].
  assert (0 < length (pr x))%nat by (pose proof (Hpr x); destruct (pr x); cbn; [done|lia]).
  destruct xs as [|y xs]; cbn in *; rewrite length_app; cbn in *; lia.
Qed.
End loop_spec.

Lemma parse_lit_int_pretty max n rest :
  0 ≤ n ≤ max → parse_lit_int max (TInt (pretty n) :: rest) = Ok (n, rest).
Proof. intros Hn. cbn. rewrite parse_int_pretty by lia. done. Qed.

Section roundtrip.
Context {Ty : Type} (parse_type : Parser Ty) (print_type : Ty → list Token).
Context (Htype : ∀ t rest, delimited rest → parse_type (print_type t ++ rest) = Ok (t, rest)).

Definition print_grain_setting (x : GrainSetting Ty) : list Token :=
  match x with
  | GState t => TIdent "state" :: TEq :: print_type t
  | GIdleTimeout n => [TIdent "idle_timeout_secs"; TEq; TInt (pretty n)]
  | GStatelessWorker => [TIdent "stateless_worker"]
  | GMaxActivations n => [TIdent "max_activations"; TEq; TInt (pretty n)]
  | GReentrant => [TIdent "reentrant"]
  | GName s => [TIdent "name"; TEq; TStr s]
  | GAskTimeout n => [TIdent "ask_timeout_secs"; TEq; TInt (pretty n)]
  | GPlacement s => [TIdent "placement"; TEq; TStr s]
  | GStorage s => [TIdent "storage"; TEq; TStr s]
  end.

Definition grain_setting_ok (x : GrainSetting Ty) : Prop :=
  match x with
  | GIdleTimeout n | GMaxActivations n | GAskTimeout n => 0 ≤ n ≤ u64_max
  | _ => True
  end.

Lemma grain_item_print v x rest :
  grain_setting_ok x → delimited rest →
  grain_item parse_type v (print_grain_setting x ++ rest) = Ok (set_grain v x, rest).
Proof.
  intros Hx Hr. unfold grain_item, parse_grain_setting.
  destruct x; cbn [print_grain_setting app parse_ident mbind result_bind grain_setting_ok] in *;
    rewrite ?(bool_decide_true (_ = _)), ?(bool_decide_false (_ = _)) by done;
    unfold parse_value; cbn [parse_eq mbind result_bind app]; try done.
  all: rewrite ?Htype, ?parse_lit_int_pretty by done; done.
Qed.

(** A variable of the loop holds the last attribute that sets it. *)
Lemma last_setting_wins {V X F} (set : V → X → V) (proj : V → option F) (get : X → option F) v xs :
  (∀ v x, proj (set v x) = match get x with Some a => Some a | None => proj v end) →
  proj (foldl set v xs) = match last (omap get xs) with Some a => Some a | None => proj v end.
Proof.
  intros Hset. induction xs as [|x xs IH] using rev_ind; [done|].
  rewrite foldl_app, omap_app, last_app. cbn [foldl]. rewrite Hset. cbn.
  by destruct (get x).
Qed.

Definition is_set (b : bool) : option unit := if b then Some () else None.
Lemma is_set_inj b b' : is_set b = is_set b' → b = b'.
Proof. by destruct b, b'. Qed.

(** The attributes of given arguments. *)
Definition grain_settings (a : GrainArgs Ty) : list (GrainSetting Ty) :=
  GState (ga_state a) ::
  opt_list GIdleTimeout (ga_idle_timeout_secs a) ++
  (if ga_stateless_worker a then [GStatelessWorker] else []) ++
  opt_list GMaxActivations (ga_max_activations a) ++
  (if ga_reentrant a then [GReentrant] else []) ++
  opt_list GName (ga_grain_name a) ++ opt_list GAskTimeout (ga_ask_timeout_secs a) ++
  opt_list GPlacement (ga_placement a) ++ opt_list GStorage (ga_storage a).

Lemma permuted_setting {X F} (get : X → option F) xs ys (o : option F) :
  xs ≡ₚ ys → omap get ys = opt_list id o → last (omap get xs) = o.
Proof.
  intros Hp Hy. assert (omap get xs ≡ₚ opt_list id o) as H by (by rewrite <- Hy, Hp).
  destruct o; cbn in H; [apply Permutation_singleton_r in H|apply Permutation_nil_r in H]; by rewrite H.
Qed.

Lemma grain_settings_parsed ss a :
  ss ≡ₚ grain_settings a →
  foldl set_grain GrainVars_new ss =
    mkGrainVars (Some (ga_state a)) (ga_idle_timeout_secs a) (ga_stateless_worker a) (ga_max_activations a)
      (ga_reentrant a) (ga_grain_name a) (ga_ask_timeout_secs a) (ga_placement a) (ga_storage a).
Proof.
  intros Hp.
  assert (∀ F (proj : GrainVars → option F) get o,
    (∀ v x, proj (set_grain v x) = match get x with Some a => Some a | None => proj v end) →
    proj GrainVars_new = None → omap get (grain_settings a) = opt_list id o →
    proj (foldl set_grain GrainVars_new ss) = o) as Hf.
  { intros F proj get o Hset H0 Ho. rewrite (last_setting_wins set_grain proj get _ _ Hset), H0.
    rewrite (permuted_setting get ss _ o Hp Ho). by destruct o. }
  destruct a as [t idle w mx re nme ask pl st].
  pose proof (Hf _ gv_state (λ x, match x with GState t => Some t | _ => None end) (Some t)) as H1.
  pose proof (Hf _ gv_idle_timeout_secs (λ x, match x with GIdleTimeout n => Some n | _ => None end) idle) as H2.
  pose proof (Hf _ (is_set ∘ gv_stateless_worker)
                (λ x, match x with GStatelessWorker => Some () | _ => None end) (is_set w)) as H3.
  pose proof (Hf _ gv_max_activations (λ x, match x with GMaxActivations n => Some n | _ => None end) mx) as H4.
  pose proof (Hf _ (is_set ∘ gv_reentrant) (λ x, match x with GReentrant => Some () | _ => None end) (is_set re)) as H5.
  pose proof (Hf _ gv_grain_name (λ x, match x with GName n => Some n | _ => None end) nme) as H6.
  pose proof (Hf _ gv_ask_timeout_secs (λ x, match x with GAskTimeout n => Some n | _ => None end) ask) as H7.
  pose proof (Hf _ gv_placement (λ x, match x with GPlacement n => Some n | _ => None end) pl) as H8.
  pose proof (Hf _ gv_storage (λ x, match x with GStorage n => Some n | _ => None end) st) as H9.
  clear Hf Hp. destruct (foldl set_grain GrainVars_new ss). cbn in *. f_equal;
    [apply H1|apply H2|apply is_set_inj, H3|apply H4|apply is_set_inj, H5|apply H6|apply H7|apply H8|apply H9];
    try done; try (by intros ? []); clear; by destruct idle, w, mx, re, nme, ask, pl, st.
Qed.

(** C29: writing the attributes of a grain and parsing them gives the arguments back: in any
    order, with or without a trailing comma, for every value that fits its type.  An unknown attribute
    anywhere after well-formed ones is refused by name. *)
Theorem grain_attribute_roundtrip a ss trailing :
  ss ≡ₚ grain_settings a → Forall grain_setting_ok ss →
  GrainArgs_parse parse_type (comma_joined (print_grain_setting <$> ss) trailing) = Some (Ok a) ∧
  ∀ key rest,
    key ∉ ["state"; "idle_timeout_secs"; "stateless_worker"; "max_activations"; "reentrant"; "name";
           "ask_timeout_secs"; "placement"; "storage"] →
    GrainArgs_parse parse_type
      (concat ((λ x, print_grain_setting x ++ [TComma]) <$> ss) ++ TIdent key :: rest) =
      Some (Err (UnknownAttribute key)).
Proof.
  intros Hp Hok. assert (∀ x, print_grain_setting x ≠ []) as Hne by (by intros []).
  split.
  - unfold GrainArgs_parse.
    rewrite (attribute_loop_join _ print_grain_setting set_grain grain_setting_ok Hne grain_item_print)
      by (done || by apply comma_joined_length). cbn [mbind option_bind].
    rewrite (grain_settings_parsed _ _ Hp). by destruct a.
  - intros key rest Hk. unfold GrainArgs_parse. rewrite length_app.
    set (ts := concat _).
    assert (∃ k, (length ts + length (TIdent key :: rest) = length ss + S k)%nat) as [k ->].
    { exists (length ts - length ss + length rest)%nat. cbn [length].
      enough (length ss ≤ length ts)%nat by lia. unfold ts. clear. induction ss as [|x ss IH]; [done|].
      cbn. rewrite !length_app. cbn. lia. }
    unfold ts. rewrite (attribute_loop_prefix _ print_grain_setting set_grain grain_setting_ok grain_item_print) by done.
    cbn. unfold grain_item, parse_grain_setting. cbn [parse_ident mbind result_bind].
    rewrite !bool_decide_false by set_solver. done.
Qed.
End roundtrip.

(** Types that are one identifier, for the witnesses. *)
Definition parse_path : Parser string := parse_ident.
Definition print_path (t : string) : list Token := [TIdent t].

#[global] Instance GrainSetting_eq_dec {Ty} `{EqDecision Ty} : EqDecision (GrainSetting Ty).
Proof. solve_decision. Defined.

Lemma grain_attribute_roundtrip_witness :
  let a := mkGrainArgs "CounterState" (Some 60) false None true (Some "Counter") None None (Some "redis") in
  let ss := [GName "Counter"; GReentrant; GState "CounterState"; GStorage "redis"; GIdleTimeout 60] in
  GrainArgs_parse parse_path (comma_joined (print_grain_setting print_path <$> ss) true) = Some (Ok a).
Proof.
  intros a ss. apply (grain_attribute_roundtrip parse_path print_path ltac:(by intros) a ss true).
  - apply (bool_decide_unpack _). vm_compute. exact I.
  - repeat constructor; cbn; unfold u64_max, u64_mod; lia.
Defined.

(** ** What the attributes of a grain decide *)
Section grain_meaning.
Context {Ty : Type}.

(** The generated impl overrides exactly the methods whose attribute is given. *)
Lemma expand_grain_trait (a : GrainArgs Ty) name rust items :
  expand_grain a name = Ok items →
  grain_impl rust items =
    Some (mkGrainTrait (default 300 (ga_idle_timeout_secs a)) (default 30 (ga_ask_timeout_secs a))
            (default rust (ga_grain_name a)) (ga_placement a) (default "default" (ga_storage a)) None
            (ga_reentrant a)) ∧
  worker_impl items =
    (if ga_stateless_worker a then Some (default 4 (ga_max_activations a)) else None).
Proof.
  unfold expand_grain. destruct a as [t idle w mx re nme ask pl st]. cbn.
  destruct (w && re) eqn:E; [done|]. intros [= <-]. split; [|by destruct w].
  cbn. by destruct idle, re, nme, ask, pl, st.
Qed.

(** No method is generated twice (a Rust impl with a repeated method does not compile). *)
Definition method_name (m : GrainMethod) : string :=
  match m with
  | MIdleTimeout _ => "idle_timeout" | MAskTimeout _ => "ask_timeout"
  | MGrainTypeName _ => "grain_type_name" | MReentrant => "reentrant"
  | MPlacementHint _ => "placement_hint" | MStorageProvider _ => "storage_provider"
  end.

Lemma expand_grain_methods (a : GrainArgs Ty) name items :
  expand_grain a name = Ok items →
  ∀ n t ms, ImplGrain n t ms ∈ items → NoDup (method_name <$> ms).
Proof.
  unfold expand_grain. destruct a as [t idle w mx re nme ask pl st]. cbn.
  destruct (w && re); [done|]. intros [= <-] n t' ms Hin.
  assert (ms = opt_list MIdleTimeout idle ++ opt_list MAskTimeout ask ++ opt_list MGrainTypeName nme ++
            (if re then [MReentrant] else []) ++ opt_list MPlacementHint pl ++ opt_list MStorageProvider st) as ->.
  { destruct w; set_unfold; naive_solver. }
  apply (bool_decide_unpack _). by destruct idle, re, nme, ask, pl, st.
Qed.

Context {Sto : Type}.

(** C30: what the attributes of [#[grain]] decide.  The expansion is refused exactly when [stateless_worker] and [reentrant] are
    both given.  Otherwise it consists of the struct, one [Grain] impl with the state type and no method twice, and a
    [StatelessWorker] impl exactly when asked for; the trait it implements has every attribute in its place (idle and ask
    timeout, type name, placement hint, storage provider, reentrancy) with the defaults of the trait for those not given; and the
    silo follows: an activation runs the reentrant loop exactly when [reentrant] was given and is filed under [name], or else
    under the Rust path; the store is the one called [storage], or else [default]; a worker reference has [max_activations]
    workers, or else 4, and [max_activations] without [stateless_worker] has no effect. *)
Theorem grain_attributes_decide (a : GrainArgs Ty) name rust h c key (ps : PersistentSilo Sto) :
  (expand_grain a name = Err (Rejected "`stateless_worker` and `reentrant` are mutually exclusive — a stateless worker pool already provides concurrency")
     ↔ ga_stateless_worker a = true ∧ ga_reentrant a = true) ∧
  ∀ items, expand_grain a name = Ok items →
    (∃ ms, items = [ItemStruct name; ImplGrain name (ga_state a) ms] ++
             (if ga_stateless_worker a then [ImplStatelessWorker name (ga_max_activations a)] else []) ∧
           NoDup (method_name <$> ms)) ∧
    let t := mkGrainTrait (default 300 (ga_idle_timeout_secs a)) (default 30 (ga_ask_timeout_secs a))
               (default rust (ga_grain_name a)) (ga_placement a) (default "default" (ga_storage a)) None (ga_reentrant a) in
    grain_impl rust items = Some t ∧
      let d := decl_of rust t (worker_impl items) in
      let g := mkGrainId (default rust (ga_grain_name a)) key in
      (let '(h', (s, r)) := GrainContext_get_ref h c d key in
       (h', s) = activate h g (if ga_reentrant a then RunReentrant else RunMailbox) ∧ ref_grain_id r = g) ∧
      entry_for ps d =
        match ps_stores ps !! default "default" (ga_storage a) with
        | Some e => Some (default "default" (ga_storage a), e)
        | None => e ← ps_stores ps !! "default"; Some ("default", e)
        end ∧
      gd_max_activations d =
        (if ga_stateless_worker a then Z.to_nat (default 4 (ga_max_activations a)) else 4%nat).
Proof.
  split.
  - unfold expand_grain. destruct (ga_stateless_worker a), (ga_reentrant a); cbn; naive_solver.
  - intros items Hi. split.
    { pose proof (expand_grain_methods a name items Hi) as Hn. unfold expand_grain in Hi. destruct (_ && _); [done|].
      injection Hi as <-. eexists. split; [reflexivity|]. eapply Hn. right. left. }
    destruct (expand_grain_trait a name rust items Hi) as [Ht Hw]. cbn zeta. split; [exact Ht|]. rewrite Hw. split_and!.
    + unfold GrainContext_get_ref. cbn. by destruct (activate _ _ _).
    + done.
    + cbn. by destruct (ga_stateless_worker a).
Qed.
End grain_meaning.

Lemma grain_attributes_decide_witness :
  let a := mkGrainArgs "S" (Some 60) false (Some 9) true (Some "Counter") None (Some "local") None in
  let t := mkGrainTrait 60 30 "Counter" (Some "local") "default" None true in
  ∃ items, expand_grain a "Counter" = Ok items ∧ grain_impl "app::Counter" items = Some t ∧
    gd_max_activations (decl_of "app::Counter" t (worker_impl items)) = 4%nat.
Proof.
  intros a t.
  destruct (grain_attributes_decide a "Counter" "app::Counter" (Host_new Runtime_new)
              (GrainContext_new Runtime_new (mkGrainId "silo" "")).2 "k" (mkPSilo (Host_new Runtime_new) ∅ [] : PersistentSilo unit))
    as [_ H].
  destruct (H _ eq_refl) as (_ & Ht & _ & _ & Hm). eexists. split; [reflexivity|]. split; [exact Ht|exact Hm].
Defined.

(** ** What the attributes of a message decide *)
Lemma expand_message_impl {Ty M R} (c : MessageCodecs M R) (a : MessageArgs Ty) name items :
  expand_message a name = Ok items →
  message_impl c items =
    if ma_network a then Some (network_message c name (ma_version a) (ma_proto a)) else None.
Proof.
  unfold expand_message. destruct a as [t n p v]. cbn.
  destruct (p && negb n); [done|]. destruct (_ && negb n); [done|]. intros [= <-]. by destruct n.
Qed.

Section message_meaning.
Context {Ty M R : Type} `{Countable M} (c : MessageCodecs M R).
Context (gd : GrainError → string) (gt : GrainType) (reply : list Delivery → RequestContext → M → Oneshot R).

(** What the attributes of [#[message]] decide on the wire.  [proto] or [version] without [network] is
    refused; without [network] there is no network impl at all.  Once a network
    message is registered: a call with a newer version is refused before the grain is touched; a
    protobuf call is refused as unsupported, again before the grain is touched, unless
    [proto] was given; and a bincode call is decoded and dispatched whether it was given or not. *)
Theorem message_attributes_decide (a : MessageArgs Ty) name :
  (ma_network a = false → (ma_proto a = true ∨ is_Some (ma_version a) ↔ is_ok (expand_message a name) = false)) ∧
  ∀ items, expand_message a name = Ok items →
    (message_impl c items = None ↔ ma_network a = false) ∧
    ∀ nm r r', message_impl c items = Some nm → MessageRegistry_register gd gt nm reply r = Some r' →
      ∀ key version payload ctx w,
        let dispatch enc := MessageRegistry_dispatch r' (gt_grain_type_name gt) key name version payload enc ctx w in
        (default 0 (ma_version a) < version →
           ∀ enc, dispatch enc = (w, Err (UnsupportedMessageVersion name version (default 0 (ma_version a))))) ∧
        (version ≤ default 0 (ma_version a) →
           (ma_proto a = false → ∃ why, dispatch Protobuf = (w, Err (UnsupportedEncoding name why))) ∧
           (∀ msg, serde_decode c payload = Ok msg →
              dispatch Bincode = dispatch_fn gd gt nm reply key payload Bincode ctx w ∧
              decode_message nm Bincode payload = Ok msg)).
Proof.
  split.
  - intros Hn. unfold expand_message. rewrite Hn. destruct (ma_proto a), (ma_version a); cbn;
      rewrite ?is_Some_alt; naive_solver.
  - intros items Hi. rewrite (expand_message_impl c a name items Hi).
    split; [by destruct (ma_network a)|]. intros nm r r' Hnm Hreg key version payload ctx w.
    destruct (ma_network a); [|done]. injection Hnm as <-. cbn zeta.
    pose proof (dispatch_registered_handler gd gt _ reply r r' Hreg key version payload) as Hd. cbn in Hd.
    split.
    + intros Hv enc. by rewrite Hd, bool_decide_true.
    + intros Hv. rewrite Hd, bool_decide_false by lia. split.
      * intros Hp. exists "protobuf not supported for this message type".
        unfold dispatch_fn, decode_message. cbn. by rewrite Hp.
      * intros msg Hm. rewrite Hd, bool_decide_false by lia. split; [done|]. cbn. by rewrite Hm.
Qed.

(** The wire name of a message is the bare name of its struct.  A second message struct of the same
    name (from another module) registered for the same grain silently replaces the first: calls of the first
    type run the handler of the second. *)
Theorem same_named_messages_collide {M2 R2} `{Countable M2} (c2 : MessageCodecs M2 R2) reply2
    (a a2 : MessageArgs Ty) name items items2 nm nm2 r r' r'' :
  expand_message a name = Ok items → expand_message a2 name = Ok items2 →
  message_impl c items = Some nm → message_impl c2 items2 = Some nm2 →
  MessageRegistry_register gd gt nm reply r = Some r' →
  MessageRegistry_register gd gt nm2 reply2 r' = Some r'' →
  ∀ key payload enc ctx w,
    MessageRegistry_dispatch r'' (gt_grain_type_name gt) key (message_type_name nm) (message_version nm2) payload enc ctx w =
    dispatch_fn gd gt nm2 reply2 key payload enc ctx w.
Proof.
  intros Hi Hi2 Hnm Hnm2 Hr Hr2 key payload enc ctx w.
  assert (message_type_name nm = message_type_name nm2) as ->.
  { rewrite (expand_message_impl c a name items Hi) in Hnm.
    rewrite (expand_message_impl c2 a2 name items2 Hi2) in Hnm2. destruct (ma_network a), (ma_network a2); by simplify_eq. }
  rewrite (dispatch_registered_handler gd gt nm2 reply2 r' r'' Hr2). by rewrite bool_decide_false by lia.
Qed.
End message_meaning.

(** Messages on byte strings. *)
Definition byte_codecs : MessageCodecs bytes bytes := mkCodecs bytes bytes Ok Ok Ok Ok Some id.
Definition say_args : MessageArgs string := mkMessageArgs "Bytes" true false (Some 2).

Lemma message_attributes_decide_witness :
  ∃ r', MessageRegistry_register no_display echo_type (network_message byte_codecs "Say" (Some 2) false)
          echo_reply MessageRegistry_new = Some r' ∧
    MessageRegistry_dispatch r' "Echo" "k" "Say" 3 [] Bincode ∅ Runtime_new =
      (Runtime_new, Err (UnsupportedMessageVersion "Say" 3 2)) ∧
    ∃ why, MessageRegistry_dispatch r' "Echo" "k" "Say" 1 [] Protobuf ∅ Runtime_new =
      (Runtime_new, Err (UnsupportedEncoding "Say" why)).
Proof.
  eexists. split; [reflexivity|].
  destruct (message_attributes_decide byte_codecs no_display echo_type echo_reply say_args "Say") as [_ H].
  destruct (H _ eq_refl) as [_ Hd]. split.
  - refine (proj1 (Hd _ MessageRegistry_new _ eq_refl eq_refl "k" 3 [] ∅ Runtime_new) _ Bincode).
    reflexivity.
  - refine (proj1 (proj2 (Hd _ MessageRegistry_new _ eq_refl eq_refl "k" 1 [] ∅ Runtime_new) _) eq_refl).
    discriminate.
Defined.
