(* ===== verification/VirtualActor.v ===== *)
(** * The virtual actor

    What the parts together promise a caller: a grain is one sequential object, wherever it is called
    from.  The abstract actor is a state and a handler; the concrete one is a grain
    of a cluster of silos, called through the references of [cluster_silo.rs] and
    [cluster_grain_ref.rs], the transport, the registry, the directory and the mailbox loop.  The
    cluster refines the actor. *)
From S2P Require Import Prelude CoreTypes HashRing Mailbox Directory Calls Auth Swim Membership.
From S2P Require Import CrossCluster Replication Registry Transport ClusterRef ClusterSilo.

(** ** The actor's messages

    A grain type with a family of messages: each has its codec and its handler, which does
    not panic; [index] finds a message type by its name. *)
Section actor.
Context {I : Type} (Msg Res : I → Type) `{Heq : ∀ i, EqDecision (Msg i)} `{Hcnt : ∀ i, Countable (Msg i)}.
Context (gt : GrainType) (gk : string) (nm : ∀ i, NetworkMessage (Msg i) (Res i)).
Context {State : Type} (initial : State).
Context (handle : ∀ i, RequestContext → State → Msg i → State * Res i).
Context (index : string → option I) (Hindex : ∀ i, index (message_type_name (nm i)) = Some i).
Abbreviation g := (mkGrainId (gt_grain_type_name gt) gk).

(** The closure of an envelope, run by the mailbox of the grain. *)
Definition envelope_of (i : I) (ctx : RequestContext) (msg : Msg i) (st : State) : option State * Oneshot (Res i) :=
  build_ask_envelope (λ c s m, let '(s', r) := handle i c s m in (s', Some r)) ctx msg g (Some st).

(** What a queued message does to the state. *)
Definition envelope_turn (d : Delivery) (st : State) : State * FutResult :=
  match index (dl_message d) with
  | Some i =>
      match decode (dl_value d) with
      | Some msg => (default st (envelope_of i (mkCtx (dl_context d)) msg st).1, FutOk)
      | None => (st, FutOk)
      end
  | None => (st, FutOk)
  end.

(** The state of a mailbox that has handled the given messages. *)
Definition state_after (ds : list Delivery) : State := (turns initial (envelope_turn <$> ds)).1.1.

(** What it answers the next one with. *)
Definition mailbox_reply (i : I) (ds : list Delivery) (ctx : RequestContext) (msg : Msg i) : Oneshot (Res i) :=
  (envelope_of i ctx msg (state_after ds)).2.

(** ** The abstract actor *)
Inductive ActorEvent :=
| Called (i : I) (ctx : RequestContext) (msg : Msg i) (res : result GrainError (Res i))
| Deactivated.

(** A call is answered by the handler, run under the caller's context extended by the grain; a
    deactivated grain starts anew. *)
Inductive actor_step : State → ActorEvent → State → Prop :=
| as_call st i ctx msg st' r :
    handle i (with_call_chain_entry ctx g) st msg = (st', r) →
    actor_step st (Called i ctx msg (Ok r)) st'
| as_deactivate st : actor_step st Deactivated initial.

Inductive actor_run : State → list ActorEvent → State → Prop :=
| ar_nil st : actor_run st [] st
| ar_cons st e st' es st'' : actor_step st e st' → actor_run st' es st'' → actor_run st (e :: es) st''.

Lemma turns_snoc (st : State) (es : list (State → State * FutResult)) e :
  (∀ x st, x ∈ es → (x st).2 = FutOk) →
  (turns st (es ++ [e])).1.1 = (e (turns st es).1.1).1.
Proof.
  intros Hok. revert st. induction es as [|x es IH]; intros st; cbn.
  - destruct (e st) as [st' []]; done.
  - destruct (x st) as [st' res] eqn:E. pose proof (Hok x st (list_elem_of_here _ _)) as Hx.
    rewrite E in Hx. cbn in Hx. subst res.
    specialize (IH (λ y st' Hy, Hok y st' (list_elem_of_further _ _ _ Hy)) st').
    destruct (turns st' (es ++ [e])) as [[??]?], (turns st' es) as [[??]?]. exact IH.
Qed.

Lemma envelope_turn_ok d st : (envelope_turn d st).2 = FutOk.
Proof. unfold envelope_turn. repeat case_match; done. Qed.

Lemma state_after_snoc ds d : state_after (ds ++ [d]) = (envelope_turn d (state_after ds)).1.
Proof.
  unfold state_after. rewrite fmap_app. apply turns_snoc.
  intros x st (d' & -> & _)%list_elem_of_fmap. apply envelope_turn_ok.
Qed.

Lemma envelope_turn_delivery i ctx msg st :
  (envelope_turn (delivery (nm i) ctx msg) st).1 = (handle i (with_call_chain_entry ctx g) st msg).1.
Proof.
  unfold envelope_turn, delivery, envelope_of, build_ask_envelope. cbn [dl_message dl_context dl_value].
  rewrite Hindex, decode_encode. destruct ctx as [v]. cbn [values].
  by destruct (handle _ _ _ _).
Qed.

(** The mailbox loop really ends in that state: channel closed after exactly these messages. *)
Lemma mailbox_loop_state ds :
  ∃ effs, mailbox_loop Idle initial ((RecvMessage <$> (envelope_turn <$> ds)) ++ [RecvClosed]) =
            Some (Draining, state_after ds, effs).
Proof.
  rewrite mailbox_loop_turns by done. unfold state_after.
  destruct (turns initial (envelope_turn <$> ds)) as [[st p] effs] eqn:E. exists effs.
  assert (p = false) as ->; [|done].
  revert E. generalize initial. clear. revert st p effs. induction ds as [|d ds IH]; intros st p effs st0; cbn.
  - congruence.
  - pose proof (envelope_turn_ok d st0) as Hd. destruct (envelope_turn d st0) as [st' res]. cbn in Hd. subst res.
    destruct (turns st' _) as [[??]?] eqn:E. intros [= _ <- _]. by eapply IH.
Qed.

(** ** The grain on one silo *)

(** The actor's state as a silo holds it: the messages of the live mailbox, run; a grain without
    one has its initial state. *)
Definition state_on (w : Runtime) : State :=
  match live_sender w g with
  | Some s => state_after (inbox w s)
  | None => initial
  end.

(** A silo that accepts activations. *)
Definition accepting (w : Runtime) : Prop :=
  directory_inv w ∧ inbox_inv w ∧ draining (rt_dir w) = false ∧ max_activations (rt_dir w) = 0.

(** What other grains of the silo do in the meantime: one is called (and activated if it was
    not active), or its mailbox ends. *)
Inductive other_grain_step : Runtime → Runtime → Prop :=
| og_call w g' d :
    g' ≠ g →
    other_grain_step w
      (let '(w, s) := GrainDirectory_get_or_insert w g' in if is_closed w s then w else enqueue w s d)
| og_end w g' s :
    g' ≠ g → GrainDirectory_get_sender w g' = Some s →
    other_grain_step w (end_task false (GrainDirectory_activator_remove w g') s).

(** The mailbox of the grain itself ends, between calls: in [Asks] its stop, the removal of its entry and the closing of its
    channel are steps of their own. *)
Definition end_activation (w : Runtime) : Runtime :=
  match live_sender w g with
  | Some s => end_task false (GrainDirectory_activator_remove w g) s
  | None => w
  end.

Lemma is_closed_open w s : s ∈ rt_open w → is_closed w s = false.
Proof. intros Hs. unfold is_closed. apply bool_decide_false. tauto. Qed.

Lemma accepting_not_limited w : max_activations (rt_dir w) = 0 → ¬ at_limit w.
Proof. unfold at_limit. lia. Qed.

(** Looking the grain up finds, or makes, an open mailbox in the actor's state. *)
Lemma get_or_insert_state w :
  accepting w →
  let a := GrainDirectory_get_or_insert w g in
  accepting a.1 ∧ is_closed a.1 a.2 = false ∧ live_sender a.1 g = Some a.2 ∧
  state_after (inbox a.1 a.2) = state_on w.
Proof.
  intros (Hd & Hi & Hdr & Hm). cbn zeta.
  destruct (get_or_insert_inbox w g) as (Hin & Hfr & Hdr' & Hm').
  assert (accepting (GrainDirectory_get_or_insert w g).1) as Hacc.
  { split_and!; [by apply directory_inv_get_or_insert| |congruence..].
    intros s Hs. rewrite Hin in Hs. specialize (Hi s Hs). lia. }
  split; [done|]. unfold state_on. destruct (live_sender w g) as [s|] eqn:L.
  - rewrite (get_or_insert_live _ _ _ L). cbn [fst snd]. split_and!; [|done..].
    apply live_sender_Some in L as [_ Ho]. by apply is_closed_open.
  - generalize (get_or_insert_created w g L Hdr (accepting_not_limited _ Hm)).
    destruct (GrainDirectory_get_or_insert w g) as [w' s]. cbn [fst snd] in *.
    intros (-> & Ho & _ & Ha). split_and!.
    + apply is_closed_open. set_solver.
    + apply live_sender_Some. unfold GrainDirectory_get_sender. rewrite Ha, lookup_insert_eq. set_solver.
    + unfold inbox. rewrite Hin. fold (inbox w (rt_fresh w)). by rewrite inbox_inv_fresh.
Qed.

(** A message enqueued in the live mailbox is a turn of the actor. *)
Lemma enqueue_state w s d :
  accepting w → live_sender w g = Some s →
  accepting (enqueue w s d) ∧ live_sender (enqueue w s d) g = Some s ∧
  state_on (enqueue w s d) = (envelope_turn d (state_after (inbox w s))).1.
Proof.
  intros (Hd & Hi & Hdr & Hm) L.
  assert (live_sender (enqueue w s d) g = Some s) as L' by exact L.
  split_and!; [| |].
  - split_and!; [by apply directory_inv_enqueue| |done..].
    intros s' Hs'. cbn in Hs'. destruct (decide (s = s')) as [<-|Hne].
    + apply live_sender_Some in L as [_ Ho]. by apply (di_open _ Hd).
    + rewrite lookup_insert_ne in Hs' by done. by apply Hi.
  - done.
  - unfold state_on. rewrite L'. unfold inbox at 1. cbn. rewrite lookup_insert_eq. cbn.
    by rewrite state_after_snoc.
Qed.

Lemma end_activation_state w :
  accepting w → accepting (end_activation w) ∧ state_on (end_activation w) = initial.
Proof.
  intros Hacc. unfold end_activation. destruct (live_sender w g) as [s|] eqn:L.
  - destruct Hacc as (Hd & Hi & Hdr & Hm).
    destruct (activator_remove_inbox w g) as (Hin & Hfr & Hop & Hdr' & Hm'). split.
    + split_and!; [by apply directory_inv_end_task, directory_inv_activator_remove| |cbn; congruence..].
      intros s'. cbn. rewrite Hin, Hfr. apply Hi.
    + unfold state_on, live_sender, GrainDirectory_get_sender. cbn.
      by rewrite activator_remove_activations, lookup_delete_eq.
  - split; [done|]. unfold state_on. by rewrite L.
Qed.

Lemma live_sender_other w g' :
  directory_inv w → g' ≠ g → live_sender (GrainDirectory_get_or_insert w g').1 g = live_sender w g.
Proof.
  intros Hw Hne. destruct (live_sender w g) as [s|] eqn:L; [by apply live_sender_stable|].
  destruct (live_sender w g') as [s'|] eqn:L'; [by rewrite (get_or_insert_live _ _ _ L')|].
  destruct (decide (draining (rt_dir w) = true ∨ at_limit w)) as [Hd|Hd].
  { rewrite get_or_insert_refused by done. exact L. }
  apply Decidable.not_or in Hd as [Hd%not_true_is_false Hlim].
  pose proof (get_or_insert_created w g' L' Hd Hlim) as Hc.
  destruct (GrainDirectory_get_or_insert w g') as [w' s']. destruct Hc as (-> & Ho & _ & Ha). cbn.
  apply eq_None_not_Some. intros [s (Hs & Hop)%live_sender_Some].
  unfold GrainDirectory_get_sender in Hs. rewrite Ha, lookup_insert_ne in Hs by done.
  apply fmap_Some in Hs as (a & Hga & ->).
  assert (act_sender a ∈ rt_open w) as Hin.
  { pose proof (di_fresh _ Hw _ _ Hga). rewrite Ho in Hop. set_unfold. naive_solver lia. }
  assert (live_sender w g = Some (act_sender a)); [|congruence].
  apply live_sender_Some. unfold GrainDirectory_get_sender. by rewrite Hga.
Qed.

(** The mailbox a lookup of another grain returns is not the one of this grain. *)
Lemma get_or_insert_distinct w g' s :
  directory_inv w → g' ≠ g → live_sender w g = Some s → (GrainDirectory_get_or_insert w g').2 ≠ s.
Proof.
  intros Hw Hne (Hs & Hop)%live_sender_Some.
  apply fmap_Some in Hs as (a & Hga & ->). pose proof (di_fresh _ Hw _ _ Hga) as Hlt.
  pose proof (get_or_insert_correct w g') as Hc.
  destruct (GrainDirectory_get_or_insert w g') as [w' s']. cbn.
  destruct (live_sender w g') as [s0|] eqn:L'.
  - destruct Hc as [_ ->]. apply live_sender_Some in L' as [(a' & Hga' & ->)%fmap_Some _].
    intros Heq'. by pose proof (di_senders _ Hw _ _ _ _ Hga' Hga Heq').
  - case_decide; destruct_and!; subst; lia.
Qed.

Lemma other_grain_frame w w' :
  directory_inv w → inbox_inv w → other_grain_step w w' →
  directory_inv w' ∧ inbox_inv w' ∧ live_sender w' g = live_sender w g ∧
  (∀ s, live_sender w g = Some s → inbox w' s = inbox w s) ∧
  draining (rt_dir w') = draining (rt_dir w) ∧ max_activations (rt_dir w') = max_activations (rt_dir w).
Proof.
  intros Hd Hi Hs. destruct Hs as [w g' d Hne|w g' s Hne Hg'].
  - pose proof (live_sender_other w g' Hd Hne) as Hl. pose proof (directory_inv_get_or_insert w g' Hd) as Hd'.
    pose proof (get_or_insert_distinct w g') as Hdist.
    destruct (get_or_insert_inbox w g') as (Hin & Hfr & Hdr & Hm).
    destruct (GrainDirectory_get_or_insert w g') as [w' s]. cbn [fst snd] in *.
    assert (inbox_inv w') as Hi'. { intros x Hx. rewrite Hin in Hx. specialize (Hi x Hx). lia. }
    assert (∀ x, inbox w' x = inbox w x) as Hbox by (intros x; unfold inbox; by rewrite Hin).
    destruct (is_closed w' s) eqn:Hc; [split_and!; auto|].
    split_and!; [by apply directory_inv_enqueue| |exact Hl| |done|done].
    + intros x Hx. cbn in Hx. destruct (decide (s = x)) as [<-|Hx'].
      * apply (di_open _ Hd'). unfold is_closed in Hc. apply bool_decide_eq_false in Hc.
        by destruct (decide (s ∈ rt_open w')).
      * rewrite lookup_insert_ne in Hx by done. by apply Hi'.
    + intros x Hx. unfold inbox at 1. cbn. rewrite lookup_insert_ne by (by apply Hdist).
      apply Hbox.
  - destruct (activator_remove_inbox w g') as (Hin & Hfr & Hop & Hdr & Hm).
    split_and!; [by apply directory_inv_end_task, directory_inv_activator_remove| | | |done|done].
    + intros x. cbn. rewrite Hin, Hfr. apply Hi.
    + unfold live_sender, GrainDirectory_get_sender. cbn.
      rewrite activator_remove_activations, lookup_delete_ne by done.
      unfold GrainDirectory_get_sender in Hg'. apply fmap_Some in Hg' as (a' & Ha' & ->).
      destruct (activations (rt_dir w) !! g) as [a|] eqn:Ha; [|done]. cbn.
      unfold is_closed. cbn. rewrite Hop.
      replace (bool_decide (act_sender a ∉ rt_open w ∖ {[act_sender a']}))
        with (bool_decide (act_sender a ∉ rt_open w)); [done|].
      apply bool_decide_ext. rewrite not_elem_of_difference, elem_of_singleton. split; [tauto|].
      intros [?|Heq']; [done|]. by pose proof (di_senders _ Hd _ _ _ _ Ha Ha' Heq').
    + intros x _. unfold inbox. cbn. by rewrite Hin.
Qed.

Lemma other_grain_state w w' :
  accepting w → other_grain_step w w' → accepting w' ∧ state_on w' = state_on w.
Proof.
  intros (Hd & Hi & Hdr & Hm) Hs.
  destruct (other_grain_frame w w' Hd Hi Hs) as (Hd' & Hi' & Hl & Hb & Hdr' & Hm').
  split; [split_and!; [done|done|congruence..]|]. unfold state_on. rewrite Hl.
  destruct (live_sender w g) as [s|] eqn:L; [|done]. by rewrite Hb.
Qed.
(** ** The grain in a cluster *)
Section cluster.
Context (connects parses : string → bool) (arrival : list SiloAddress → list (SiloAddress * bool)).
Context (status_display : Status → string) (rpc_failure : Status) (now : Z).
Context (Hconn : ∀ uri, connects uri = true) (gd : GrainError → string) (elapse : Z → World → World).
Context (rnd : nat → nat) (policy : RetryPolicy).
Context (r : HashRing) (auth : option SharedSecretAuth) (o : SiloAddress).
Context (Howner : HashRing_get r (slash (gt_grain_type_name gt) gk) = Some o).
Abbreviation converged' := (converged parses r auth (gt_grain_type_name gt) gk o).
Abbreviation ask' i := (ClusterGrainRef_ask connects parses arrival status_display rpc_failure now
                          gt (nm i) (mailbox_reply i) elapse).

(** The cluster silo whose services run on the parts of [s], with default settings but for the
    retry policy. *)
Definition cluster_silo_of (s : Silo) : ClusterSilo :=
  let n := ms_node (sl_service s) in
  mkClusterSilo (local_addr (nd_swim n)) (sl_runtime s) (sl_registry s) n FailureDetectorConfig_default
    false HashBasedPlacement false false (sl_auth s) policy None false None None
    FailoverConfig_default None None.

(** A call from the silo at [from]: [silo.get_ref(key).ask(msg)]. *)
Definition cluster_call (w : World) (from : string) (i : I) (ctx : RequestContext) (msg : Msg i)
    : World * result GrainError (Res i) * list Z :=
  match w_silos w !! from with
  | None => (w, Err MailboxClosed, [])
  | Some s =>
      let '(cs, ref) := get_ref rnd (cluster_silo_of s) (gt_grain_type_name gt) None gk in
      ask' i ref from ctx msg (set_silo w from (with_runtime s (cs_directory cs)))
  end.

(** The codecs lose nothing: of this message, which must also fit into a request, and of every
    result. *)
Definition sendable (i : I) (msg : Msg i) : Prop :=
  ∃ payload, bincode_encode (nm i) msg = Ok payload ∧ bincode_decode (nm i) payload = Ok msg ∧
    Z.of_nat (length payload) ≤ MAX_PAYLOAD_SIZE.
Context (Hres : ∀ i res, ∃ b, bincode_encode_result (nm i) res = Ok b ∧ bincode_decode_result (nm i) b = Ok res).

(** The steps of the cluster: a silo calls the grain (from a context that has not passed through it);
    the grain's mailbox ends; other grains of a silo are busy. *)
Inductive cluster_step : World → list ActorEvent → World → Prop :=
| cs_call w from i ctx msg w' res delays :
    is_Some (w_silos w !! from) → sendable i msg →
    is_in_call_chain ctx (mkGrainId (gt_grain_type_name gt) "") = false →
    cluster_call w from i ctx msg = (w', res, delays) →
    cluster_step w [Called i ctx msg res] w'
| cs_deactivate w so :
    w_silos w !! endpoint o = Some so →
    cluster_step w [Deactivated] (set_silo w (endpoint o) (with_runtime so (end_activation (sl_runtime so))))
| cs_other w ep s rt :
    w_silos w !! ep = Some s → other_grain_step (sl_runtime s) rt →
    cluster_step w [] (set_silo w ep (with_runtime s rt)).

Inductive cluster_run : World → list ActorEvent → World → Prop :=
| cr_nil w : cluster_run w [] w
| cr_cons w es w' es' w'' : cluster_step w es w' → cluster_run w' es' w'' → cluster_run w (es ++ es') w''.

(** The cluster implements an actor in state [st]: it has converged, the owner of the grain accepts
    activations and dispatches the grain's messages, and its mailbox is in state [st]. *)
Record implements (w : World) (st : State) : Prop := {
  im_converged : converged' w;
  im_dirs : map_Forall (λ _ s, directory_inv (sl_runtime s) ∧ inbox_inv (sl_runtime s) ∧
                               registry_wf (sl_registry s)) (w_silos w);
  im_owner : ∃ so, w_silos w !! endpoint o = Some so ∧ accepting (sl_runtime so) ∧
    state_on (sl_runtime so) = st ∧
    ∀ i, registered gd gt (nm i) (mailbox_reply i) (sl_registry so) }.

Lemma set_silo_twice w ep s s' : set_silo (set_silo w ep s) ep s' = set_silo w ep s'.
Proof. unfold set_silo. cbn. by rewrite insert_insert_eq. Qed.

Lemma set_silo_self w ep s : w_silos w !! ep = Some s → set_silo w ep (with_runtime s (sl_runtime s)) = w.
Proof.
  intros Hs. destruct s as [? ? ? ?], w as [m c]. unfold set_silo. cbn in *. by rewrite insert_id.
Qed.

Lemma implements_owner w st so rt st' :
  implements w st → w_silos w !! endpoint o = Some so → accepting rt → state_on rt = st' →
  implements (set_silo w (endpoint o) (with_runtime so rt)) st'.
Proof.
  intros [Hc Hd (so' & Hso & Hacc & Hst & Hreg)] Hso' Hrt Hst'.
  assert (so' = so) as -> by congruence. split.
  - apply converged_set; [done|]. destruct (proj1 Hc _ _ Hso) as (H1 & H2 & H3 & H4 & H5 & _).
    split_and!; done.
  - apply map_Forall_insert_2; [|done]. destruct Hrt as (? & ? & _), (Hd _ _ Hso) as (_ & _ & ?). done.
  - exists (with_runtime so rt). cbn. rewrite lookup_insert_eq. done.
Qed.

(** The references of [get_ref] in a converged cluster. *)
Lemma get_ref_local so :
  sl_ring so = r → sl_local_silo_id so = silo_id o →
  get_ref rnd (cluster_silo_of so) (gt_grain_type_name gt) None gk =
    (with_directory (cluster_silo_of so) (GrainDirectory_get_or_insert (sl_runtime so) g).1,
     with_retry_policy (ClusterGrainRef_local (GrainDirectory_get_or_insert (sl_runtime so) g).2) policy).
Proof.
  intros Hr Hid. unfold get_ref, local_activate. cbn [hinted_placement place cluster_silo_of cs_placement].
  change (cs_ring (cluster_silo_of so)) with (sl_ring so).
  change (silo_id (cs_local_addr (cluster_silo_of so))) with (sl_local_silo_id so).
  change (cs_directory (cluster_silo_of so)) with (sl_runtime so).
  rewrite Hr, Howner, bool_decide_true by done. by destruct (GrainDirectory_get_or_insert _ _).
Qed.

Lemma get_ref_remote s :
  sl_ring s = r → sl_local_silo_id s ≠ silo_id o →
  get_ref rnd (cluster_silo_of s) (gt_grain_type_name gt) None gk =
    (cluster_silo_of s,
     with_retry_policy (ClusterGrainRef_remote (endpoint o) (gt_grain_type_name gt) gk) policy).
Proof.
  intros Hr Hid. unfold get_ref. cbn [hinted_placement place cluster_silo_of cs_placement].
  change (cs_ring (cluster_silo_of s)) with (sl_ring s).
  change (silo_id (cs_local_addr (cluster_silo_of s))) with (sl_local_silo_id s).
  by rewrite Hr, Howner, bool_decide_false by congruence.
Qed.

Lemma mailbox_reply_handle i ds ctx msg st' res :
  handle i (with_call_chain_entry ctx g) (state_after ds) msg = (st', res) →
  mailbox_reply i ds ctx msg = Replied (Some res).
Proof.
  intros Hh. unfold mailbox_reply, envelope_of, build_ask_envelope. by rewrite Hh.
Qed.

(** A call at the owner: the directory's mailbox takes the message. *)
Lemma call_local w st so i ctx msg st' res :
  implements w st → w_silos w !! endpoint o = Some so →
  is_in_call_chain ctx (mkGrainId (gt_grain_type_name gt) "") = false →
  handle i (with_call_chain_entry ctx g) st msg = (st', res) →
  ∃ rt, let w' := set_silo w (endpoint o) (with_runtime so rt) in
    cluster_call w (endpoint o) i ctx msg = (w', Ok res, []) ∧ implements w' st'.
Proof.
  intros Him Hso Hchain Hh. pose proof Him as [Hc _ (so' & Hso' & Hacc & Hst & Hreg)].
  assert (so' = so) as -> by congruence.
  destruct (proj1 Hc _ _ Hso) as (Hr & Hid & _).
  destruct (get_or_insert_state (sl_runtime so) Hacc) as (Hacc1 & Hopen & Hlive & Hst1).
  unfold cluster_call. rewrite Hso, get_ref_local by (done || by apply Hid).
  cbn [cs_directory with_directory]. unfold ClusterGrainRef_ask, local_ask.
  cbn [with_retry_policy cr_inner ClusterGrainRef_local set_silo w_silos]. rewrite lookup_insert_eq.
  cbn [sl_runtime with_runtime].
  set (a := GrainDirectory_get_or_insert (sl_runtime so) g) in *.
  rewrite <- Hst, <- Hst1 in Hh.
  rewrite (ask_sender_ok gt (nm i) (mailbox_reply i) a.1 a.2 ctx msg res Hchain Hopen
             (mailbox_reply_handle _ _ _ _ _ _ Hh)).
  fold (delivery (nm i) ctx msg). rewrite set_silo_twice.
  change (with_runtime (with_runtime so a.1)) with (with_runtime so). eexists. split; [done|].
  destruct (enqueue_state a.1 a.2 (delivery (nm i) ctx msg) Hacc1 Hlive) as (Hacc2 & _ & Hst2).
  eapply implements_owner; [done|done|done|]. rewrite Hst2, envelope_turn_delivery. by rewrite Hh.
Qed.

(** A call from elsewhere: the same, through the transport. *)
Lemma call_remote w st from i ctx msg st' res :
  implements w st → is_Some (w_silos w !! from) → from ≠ endpoint o → sendable i msg →
  is_in_call_chain ctx (mkGrainId (gt_grain_type_name gt) "") = false →
  handle i (with_call_chain_entry ctx g) st msg = (st', res) →
  ∃ w', cluster_call w from i ctx msg = (w', Ok res, []) ∧ implements w' st'.
Proof.
  intros [Hc Hd (so & Hso & Hacc & Hst & Hreg)] [s Hs] Hne (payload & Henc & Hdec & Hlen) Hchain Hh.
  destruct (proj1 Hc _ _ Hs) as (Hr & Hid & _).
  destruct (get_or_insert_state (sl_runtime so) Hacc) as (Hacc1 & Hopen & Hlive & Hst1).
  destruct (Hres i res) as (b & Hb & Hbd).
  unfold cluster_call. rewrite Hs, get_ref_remote by (done || by rewrite Hid).
  change (cs_directory (cluster_silo_of s)) with (sl_runtime s). rewrite set_silo_self by done.
  set (a := GrainDirectory_get_or_insert (sl_runtime so) g) in *.
  rewrite <- Hst, <- Hst1 in Hh.
  destruct (remote_ask_owner connects parses arrival status_display rpc_failure now Hconn gd gt (nm i)
              (mailbox_reply i) elapse r auth gk o Howner w from s so policy ctx msg payload res b
              Hc Hne Hs Hso (Hreg i) Henc Hdec Hlen Hchain Hopen (mailbox_reply_handle _ _ _ _ _ _ Hh) Hb Hbd)
    as (w' & Hask & Hc' & Hrt & Hrg).
  fold a in Hrt. exists w'. split; [exact Hask|].
  destruct (enqueue_state a.1 a.2 (delivery (nm i) ctx msg) Hacc1 Hlive) as (Hacc2 & _ & Hst2).
  assert (∀ ep s', w_silos w' !! ep = Some s' →
    ∃ s0, w_silos w !! ep = Some s0 ∧ sl_registry s' = sl_registry s0 ∧
      (sl_runtime s' = enqueue a.1 a.2 (delivery (nm i) ctx msg) ∨ sl_runtime s' = sl_runtime s0)) as Hall.
  { intros ep s' Hs'. specialize (Hrt ep). specialize (Hrg ep). rewrite Hs' in Hrt, Hrg.
    destruct (w_silos w !! ep) as [s0|]; [|done]. cbn in Hrt, Hrg. exists s0.
    case_bool_decide; split_and!; try congruence; [left|right]; congruence. }
  split; [done| |].
  - intros ep s' Hs'. destruct (Hall ep s' Hs') as (s0 & Hs0 & -> & Hrun).
    destruct (Hd _ _ Hs0) as (? & ? & ?), Hacc2 as (? & ? & _). by destruct Hrun as [->| ->].
  - destruct (proj2 Hc') as [so' Hso']. exists so'. split; [done|].
    specialize (Hrt (endpoint o)). specialize (Hrg (endpoint o)). rewrite Hso', Hso in Hrg. rewrite Hso' in Hrt.
    cbn in Hrt, Hrg. rewrite bool_decide_true in Hrt by done.
    injection Hrt as Hrt. injection Hrg as Hrg. rewrite Hrt, Hrg. split_and!; [done| |done].
    rewrite Hst2, envelope_turn_delivery. by rewrite Hh.
Qed.

Lemma active_at_live s :
  registry_wf (sl_registry s) →
  active_at s (gt_grain_type_name gt) gk =
    bool_decide (is_Some (grain_type_str (sl_registry s) (gt_grain_type_name gt))) &&
    bool_decide (is_Some (live_sender (sl_runtime s) g)).
Proof.
  intros (Hwf & _). unfold active_at, live_sender, grain_type_str.
  destruct (grain_types (sl_registry s) !! gt_grain_type_name gt) as [t|] eqn:E; [|done].
  rewrite (Hwf _ _ E). cbn. destruct (GrainDirectory_get_sender _ _) as [sd|]; [|done].
  by destruct (is_closed _ _).
Qed.

Lemma other_implements w st ep s rt :
  implements w st → w_silos w !! ep = Some s → other_grain_step (sl_runtime s) rt →
  implements (set_silo w ep (with_runtime s rt)) st.
Proof.
  intros Him Hs Hstep. destruct (decide (ep = endpoint o)) as [->|Hne].
  { pose proof Him as [_ _ (so & Hso & Hacc & Hst & _)]. assert (so = s) as -> by congruence.
    destruct (other_grain_state _ _ Hacc Hstep) as [Hacc' Hst'].
    eapply implements_owner; [done|done|done|congruence]. }
  destruct Him as [Hc Hd (so & Hso & Hrest)].
  destruct (Hd _ _ Hs) as (Hdi & Hin & Hwf).
  destruct (other_grain_frame _ _ Hdi Hin Hstep) as (Hdi' & Hin' & Hl & _).
  split.
  - apply converged_set; [done|]. destruct (proj1 Hc _ _ Hs) as (H1 & H2 & H3 & H4 & H5 & H6).
    split_and!; try done. intros _. specialize (H6 Hne).
    rewrite active_at_live in H6 |- * by done. cbn [sl_runtime sl_registry with_runtime]. by rewrite Hl.
  - by apply map_Forall_insert_2.
  - exists so. cbn. by rewrite lookup_insert_ne.
Qed.

Lemma step_implements w st es w' :
  implements w st → cluster_step w es w' → ∃ st', actor_run st es st' ∧ implements w' st'.
Proof.
  intros Him Hs. destruct Hs as [w from i ctx msg w' res delays Hfrom Hsend Hchain Hcall|w so Hso|w ep s rt Hs Hstep].
  - destruct (handle i (with_call_chain_entry ctx g) st msg) as [st' r'] eqn:Hh.
    assert (∃ w', cluster_call w from i ctx msg = (w', Ok r', []) ∧ implements w' st') as (w1 & Hw1 & Him').
    { destruct (decide (from = endpoint o)) as [->|Hne]; [|by eapply call_remote].
      destruct Hfrom as [so Hso]. edestruct call_local as (rt & ? & ?); eauto. }
    rewrite Hw1 in Hcall. injection Hcall as <- <- <-. exists st'. split; [|done].
    eapply ar_cons; [by eapply as_call|apply ar_nil].
  - pose proof Him as [_ _ (so' & Hso' & Hacc & _)]. assert (so' = so) as -> by congruence.
    destruct (end_activation_state _ Hacc) as [Hacc' Hst']. exists initial.
    split; [eapply ar_cons; [apply as_deactivate|apply ar_nil]|]. by eapply implements_owner.
  - exists st. split; [constructor|]. by eapply other_implements.
Qed.

Lemma actor_run_app st es st' es' st'' :
  actor_run st es st' → actor_run st' es' st'' → actor_run st (es ++ es') st''.
Proof. intros H1 H2. induction H1; cbn; [done|]. econstructor; eauto. Qed.

Lemma run_implements w st es w' :
  implements w st → cluster_run w es w' → ∃ st', actor_run st es st' ∧ implements w' st'.
Proof.
  intros Him Hr. revert st Him. induction Hr as [|w es w' es' w'' Hs _ IH]; intros st Him.
  - exists st. split; [constructor|done].
  - destruct (step_implements _ _ _ _ Him Hs) as (st1 & H1 & Him1).
    destruct (IH st1 Him1) as (st2 & H2 & Him2). exists st2. split; [|done]. by eapply actor_run_app.
Qed.
(** A cluster in which the grain is not active yet implements it in its initial state. *)
Lemma implements_initial w :
  converged' w →
  map_Forall (λ _ s, directory_inv (sl_runtime s) ∧ inbox_inv (sl_runtime s) ∧ registry_wf (sl_registry s)) (w_silos w) →
  (∀ so, w_silos w !! endpoint o = Some so →
     draining (rt_dir (sl_runtime so)) = false ∧ max_activations (rt_dir (sl_runtime so)) = 0 ∧
     live_sender (sl_runtime so) g = None ∧
     ∀ i, registered gd gt (nm i) (mailbox_reply i) (sl_registry so)) →
  implements w initial.
Proof.
  intros Hc Hd Ho. destruct (proj2 Hc) as [so Hso]. destruct (Ho so Hso) as (H1 & H2 & H3 & H4).
  split; [done|done|]. exists so. destruct (Hd _ _ Hso) as (? & ? & _). split_and!; try done.
  unfold state_on. by rewrite H3.
Qed.

(** C1: a converged cluster implements the virtual actor.  Whatever silos call the grain, through
    their own references (local or remote), in whatever order, while other grains of the silos
    are called and end and the grain itself may be deactivated in between: every call is
    answered, and the answers are those of one sequential object that handles the calls one after the
    other, starting anew after a deactivation.  In particular no message is lost, handled twice or
    handled by a second activation. *)
Theorem cluster_refines_actor w st es w' :
  implements w st → cluster_run w es w' → ∃ st', actor_run st es st' ∧ implements w' st'.
Proof. apply run_implements. Qed.
End cluster.
End actor.

(** ** A counter in a cluster of two silos *)
Definition CounterMsg (b : bool) : Type := if b then nat else unit.
#[global] Instance CounterMsg_eq_dec b : EqDecision (CounterMsg b).
Proof. destruct b; apply _. Defined.
#[global] Instance CounterMsg_countable b : Countable (CounterMsg b).
Proof. destruct b; apply _. Defined.

Definition counter_handle (b : bool) (_ : RequestContext) : nat → CounterMsg b → nat * nat :=
  match b with
  | true => λ st n, (st + n, st + n)%nat
  | false => λ st _, (st, st)
  end.

(** Numbers in unary. *)
Definition enc_nat (n : nat) : result string bytes := Ok (repeat Byte.x01 n).
Definition dec_nat (b : bytes) : result string nat := Ok (length b).

Definition counter_nm (b : bool) : NetworkMessage (CounterMsg b) nat :=
  match b with
  | true => mkMessage nat nat "Add" 1 enc_nat dec_nat (λ _, None) enc_nat dec_nat (λ _, None)
  | false => mkMessage unit nat "Get" 1 (λ _, Ok []) (λ _, Ok ()) (λ _, None) enc_nat dec_nat (λ _, None)
  end.
Definition counter_index (s : string) : option bool :=
  if bool_decide (s = "Add") then Some true else if bool_decide (s = "Get") then Some false else None.
Definition counter_type : GrainType := mkGrainType "Counter" "app::Counter" None 30.

Abbreviation counter_reply :=
  (mailbox_reply CounterMsg (λ _, nat) counter_type "k" 0%nat counter_handle counter_index).
Definition counter_registry1 : MessageRegistry :=
  default MessageRegistry_new
    (MessageRegistry_register no_display counter_type (counter_nm true) (counter_reply true) MessageRegistry_new).
Definition counter_registry : MessageRegistry :=
  default MessageRegistry_new
    (MessageRegistry_register no_display counter_type (counter_nm false) (counter_reply false) counter_registry1).

Definition counter_silo (addr : SiloAddress) : Silo :=
  mkSiloState counter_registry Runtime_new
    (MembershipService_new 0 (mkNode (SwimState_new addr) ring_ab ConnectionPool_new []) 3 None) None.
Definition counter_world : World :=
  mkWorld (<[endpoint silo_a := counter_silo silo_a]> {[endpoint silo_b := counter_silo silo_b]}) ∅.
Definition counter_owner : SiloAddress := default silo_a (HashRing_get ring_ab (slash "Counter" "k")).

Abbreviation counter_implements :=
  (implements CounterMsg (λ _, nat) counter_type "k" counter_nm 0%nat counter_handle counter_index
     (λ _, true) no_display ring_ab None counter_owner).
Abbreviation counter_call :=
  (cluster_call CounterMsg (λ _, nat) counter_type "k" counter_nm 0%nat counter_handle counter_index
     (λ _, true) (λ _, true) all_answer (λ _, "remote status") (StatusOther "no answer") 0
     (λ _ w, w) (λ _, 0%nat) RetryPolicy_default).

Lemma counter_registered1 :
  MessageRegistry_register no_display counter_type (counter_nm true) (counter_reply true) MessageRegistry_new =
    Some counter_registry1.
Proof. reflexivity. Qed.
Lemma counter_registered2 :
  MessageRegistry_register no_display counter_type (counter_nm false) (counter_reply false) counter_registry1 =
    Some counter_registry.
Proof. reflexivity. Qed.

Lemma counter_registry_wf : registry_wf counter_registry1 ∧ registry_wf counter_registry.
Proof.
  pose proof (registry_wf_register _ _ _ _ _ _ registry_wf_new counter_registered1) as H1.
  split; [done|]. exact (registry_wf_register _ _ _ _ _ _ H1 counter_registered2).
Qed.

Lemma counter_registered b : registered no_display counter_type (counter_nm b) (counter_reply b) counter_registry.
Proof.
  destruct b; [|exact (registered_self _ _ _ _ _ _ counter_registered2)].
  refine (registered_other _ _ _ _ _ _ _ _ _ _ (proj1 counter_registry_wf)
            (registered_self _ _ _ _ _ _ counter_registered1) _ counter_registered2).
  discriminate.
Qed.

Lemma counter_world_implements : counter_implements counter_world 0%nat.
Proof.
  apply implements_initial.
  - assert (endpoint counter_owner = endpoint silo_a) as Ho by (vm_compute; reflexivity).
    split; [|rewrite Ho; eexists; apply lookup_insert_eq]. apply map_Forall_insert_2; [|apply map_Forall_singleton];
      vm_compute; split_and!; try done; intros; discriminate.
  - apply map_Forall_insert_2; [|apply map_Forall_singleton];
      (split_and!; [exact directory_inv_new|by intros ? [? ?]|apply counter_registry_wf]).
  - intros so Hso.
    assert (sl_runtime so = Runtime_new ∧ sl_registry so = counter_registry) as [-> ->].
    { revert so Hso. generalize (endpoint counter_owner).
      apply map_Forall_insert_2; [|apply map_Forall_singleton]; done. }
    split_and!; [done..|exact counter_registered].
Qed.

Abbreviation counter_run :=
  (cluster_run CounterMsg (λ _, nat) counter_type "k" counter_nm 0%nat counter_handle counter_index
     (λ _, true) (λ _, true) all_answer (λ _, "remote status") (StatusOther "no answer") 0
     (λ _ w, w) (λ _, 0%nat) RetryPolicy_default counter_owner).
Abbreviation counter_actor :=
  (actor_run CounterMsg (λ _, nat) counter_type "k" 0%nat counter_handle).

(** Silo B adds 2 and silo A reads. *)
Definition counter_w1 : World := (counter_call counter_world (endpoint silo_b) true RequestContext_new 2%nat).1.1.
Definition counter_w2 : World := (counter_call counter_w1 (endpoint silo_a) false RequestContext_new ()).1.1.
Definition counter_events : list (ActorEvent CounterMsg (λ _, nat)) :=
  [Called CounterMsg (λ _, nat) true RequestContext_new 2%nat (Ok 2%nat);
   Called CounterMsg (λ _, nat) false RequestContext_new () (Ok 2%nat)].

(** A call of the model with the result it computes. *)
Lemma counter_call_step w from b ctx msg res :
  is_Some (w_silos w !! from) → sendable CounterMsg (λ _, nat) counter_nm b msg →
  is_in_call_chain ctx (mkGrainId "Counter" "") = false → (counter_call w from b ctx msg).1.2 = res →
  cluster_step CounterMsg (λ _, nat) counter_type "k" counter_nm 0%nat counter_handle counter_index
    (λ _, true) (λ _, true) all_answer (λ _, "remote status") (StatusOther "no answer") 0
    (λ _ w, w) (λ _, 0%nat) RetryPolicy_default counter_owner w
    [Called CounterMsg (λ _, nat) b ctx msg res] (counter_call w from b ctx msg).1.1.
Proof.
  intros Hw Hs Hc <-. eapply cs_call with (from := from) (delays := (counter_call w from b ctx msg).2); try done.
  by destruct (counter_call w from b ctx msg) as [[??]?].
Qed.

Lemma cluster_refines_actor_witness :
  ∃ st', counter_actor 0%nat counter_events st' ∧ counter_implements counter_w2 st'.
Proof.
  apply (cluster_refines_actor CounterMsg (λ _, nat) counter_type "k" counter_nm 0%nat counter_handle counter_index
           ltac:(intros []; reflexivity) (λ _, true) (λ _, true) all_answer (λ _, "remote status")
           (StatusOther "no answer") 0 (λ _, eq_refl) no_display (λ _ w, w) (λ _, 0%nat) RetryPolicy_default
           ring_ab None counter_owner ltac:(vm_compute; reflexivity)
           ltac:(intros [] n; exists (repeat Byte.x01 n); cbn; unfold dec_nat; rewrite repeat_length; split; reflexivity)
           counter_world 0%nat).
  - exact counter_world_implements.
  - eapply cr_cons with (es := [_]) (w' := counter_w1) (es' := [_]).
    + apply counter_call_step; [by eexists|by exists [Byte.x01; Byte.x01]|reflexivity|vm_compute; reflexivity].
    + eapply cr_cons with (es := [_]) (w' := counter_w2) (es' := []); [|apply cr_nil].
      apply counter_call_step; [|by exists []|reflexivity|vm_compute; reflexivity].
      apply (bool_decide_unpack _). vm_compute. exact I.
Defined.
