(* ===== verification/Asks.v ===== *)
(** * Asks on one silo

    An ask of a grain on the silo that holds it, cut at its accesses to shared state: the accesses of
    [get_or_insert] ([directory.rs]), the send into the mailbox, the turn of the mailbox ([mailbox.rs]) and the
    arrival of its reply, or the timeout ([envelope.rs], [grain_ref.rs]).  Between any two of them other asks, other grains
    and the teardown of the mailbox (leaving its loop, removing its entry, dropping its receiver) may happen, so an ask can
    find the channel closed, or see its message dropped.

    The silo's history of asks is linearizable: an ask that is answered took effect exactly once while it
    was pending, an ask that failed because the mailbox closed never takes effect, and one that timed out takes effect at most
    once, possibly later. *)
From S2P Require Import Prelude CoreTypes Mailbox Directory ConcurrentDirectory Calls Registry ClusterRef VirtualActor.

Section asks.
Context {I : Type} (Msg Res : I → Type) `{Heq : ∀ i, EqDecision (Msg i)} `{Hcnt : ∀ i, Countable (Msg i)}.
Context (gt : GrainType) (gk : string) (nm : ∀ i, NetworkMessage (Msg i) (Res i)).
Context {State : Type} (initial : State).
Context (handle : ∀ i, RequestContext → State → Msg i → State * Res i).
Context (index : string → option I) (Hindex : ∀ i, index (message_type_name (nm i)) = Some i).
Context {K : Type} `{Countable K}.
Abbreviation g := (mkGrainId (gt_grain_type_name gt) gk).
Abbreviation state_after' := (state_after Msg Res gt gk initial handle index).
Abbreviation reply' := (mailbox_reply Msg Res gt gk initial handle index).

(** ** An ask and where it is *)
Inductive Progress (i : I) :=
| Entering (c : Caller)                        (** inside [get_or_insert] *)
| Holding (s : Sender)                         (** about to send into the mailbox *)
| Waiting (s : Sender) (pos : nat)             (** sent as message [pos] of the mailbox *)
| Settled (r : result GrainError (Res i)).
Arguments Entering {i}.
Arguments Holding {i}.
Arguments Waiting {i}.
Arguments Settled {i}.

Record Ask := mkAsk { as_i : I; as_ctx : RequestContext; as_msg : Msg as_i; as_progress : Progress as_i }.

(** The asks of the grain with the mailbox tasks of the silo: their phases, how many messages each has handled, and whose message
    is where (an envelope carries the reply channel of its ask). *)
Record Asks := mkAsks {
  ak_others : list Caller;
  ak_mail : gmap Sender (GrainId * MailPhase);
  ak_handled : gmap Sender nat;
  ak_sent : gmap (Sender * nat) K;
  ak_asks : gmap K Ask }.
Definition handled (a : Asks) (s : Sender) : nat := default 0%nat (ak_handled a !! s).

Inductive AskEvent :=
| Begun (id : K) (i : I) (ctx : RequestContext) (msg : Msg i)
| Handled (id : K) (i : I) (ctx : RequestContext) (msg : Msg i) (res : Res i)
| Finished (id : K) (i : I) (r : result GrainError (Res i))
| Stopped.

Definition put (a : Asks) (id : K) (x : Ask) : Asks :=
  mkAsks (ak_others a) (ak_mail a) (ak_handled a) (ak_sent a) (<[id := x]> (ak_asks a)).
Definition settled (a : Asks) (id : K) (x : Ask) (r : result GrainError (Res (as_i x))) : Asks :=
  put a id (mkAsk (as_i x) (as_ctx x) (as_msg x) (Settled r)).

(** A fresh ask, through a reference that is created for it or through an older one. *)
Definition begin_ask (a : Asks) (id : K) (i : I) (ctx : RequestContext) (msg : Msg i) : Asks :=
  put a id (mkAsk i ctx msg (Entering (CStart g))).
Definition begin_held (a : Asks) (id : K) (s : Sender) (i : I) (ctx : RequestContext) (msg : Msg i) : Asks :=
  put a id (mkAsk i ctx msg (Holding s)).

(** The next access of an ask; [None] while it has to wait: for room in the channel, or for the reply. *)
Definition advance (rt : Runtime) (a : Asks) (id : K) : option (Runtime * Asks * list AskEvent) :=
  match ak_asks a !! id with
  | None => None
  | Some x =>
      let to p := put a id (mkAsk (as_i x) (as_ctx x) (as_msg x) p) in
      let finish r := Some (rt, settled a id x r, [Finished id (as_i x) r]) in
      let recv o := finish (recv_ask_response o (gt_ask_timeout gt)) in
      match as_progress x return option (Runtime * Asks * list AskEvent) with
      | Entering c =>
          match c with
          | CReturned _ s => Some (rt, to (Holding s), [])
          | _ =>
              let '(rt', c', spawned) := caller_step rt c in
              Some (rt', mkAsks (ak_others a) (add_mail (caller_grain c) spawned (ak_mail a)) (ak_handled a) (ak_sent a)
                           (ak_asks (to (Entering c'))), [])
          end
      | Holding s =>
          if is_closed rt s then finish (Err MailboxClosed)
          else if bool_decide (length (inbox rt s) < handled a s + 256)%nat then
            let pos := length (inbox rt s) in
            Some (enqueue rt s (delivery (nm (as_i x)) (as_ctx x) (as_msg x)),
                  mkAsks (ak_others a) (ak_mail a) (ak_handled a) (<[(s, pos) := id]> (ak_sent a))
                    (ak_asks (to (Waiting s pos))), [])
          else None
      | Waiting s pos =>
          if bool_decide (pos < handled a s)%nat then
            recv (reply' (as_i x) (take pos (inbox rt s)) (as_ctx x) (as_msg x))
          else match ak_mail a !! s with Some (_, MEnded) => recv SenderDropped | _ => None end
      | Settled _ => None
      end
  end.

(** [timeout(..)] around the reply fires. *)
Definition time_out (a : Asks) (id : K) : option (Asks * list AskEvent) :=
  match ak_asks a !! id with
  | None => None
  | Some x =>
      match as_progress x return option (Asks * list AskEvent) with
      | Waiting _ _ =>
          let r := recv_ask_response Elapsed (gt_ask_timeout gt) in
          Some (settled a id x r, [Finished id (as_i x) r])
      | _ => None
      end
  end.

(** A turn of the grain's mailbox: the next envelope runs its handler and replies. *)
Definition mailbox_turn (rt : Runtime) (a : Asks) (s : Sender) : option (Asks * list AskEvent) :=
  match ak_mail a !! s with
  | Some (g', MRunning) =>
      if bool_decide (g' = g) then
        let k := handled a s in
        d ← inbox rt s !! k;
        id ← ak_sent a !! (s, k);
        i ← index (dl_message d);
        msg ← decode (dl_value d);
        match reply' i (take k (inbox rt s)) (mkCtx (dl_context d)) msg with
        | Replied (Some res) =>
            Some (mkAsks (ak_others a) (ak_mail a) (<[s := S k]> (ak_handled a)) (ak_sent a) (ak_asks a),
                  [Handled id i (mkCtx (dl_context d)) msg res])
        | _ => None
        end
      else None
  | _ => None
  end.

(** The mailbox leaves its loop; what it has not handled it never will. *)
Definition mailbox_stop (a : Asks) (s : Sender) : option (Asks * list AskEvent) :=
  match ak_mail a !! s with
  | Some (g', MRunning) =>
      if bool_decide (g' = g) then
        Some (mkAsks (ak_others a) (<[s := (g, MStopping)]> (ak_mail a)) (ak_handled a) (ak_sent a) (ak_asks a), [Stopped])
      else None
  | _ => None
  end.

(** Everything else on the silo: other callers of [get_or_insert] (for this grain too), messages to other grains, mailboxes
    of other grains that stop, and the teardown of mailboxes that have stopped. *)
Definition quiet (rt rt' : Runtime) (ms ms' : gmap Sender (GrainId * MailPhase)) : Prop :=
  (∀ s p, ms !! s = Some (g, p) → inbox rt' s = inbox rt s) ∧
  (∀ s, ms !! s = Some (g, MRunning) → ms' !! s = Some (g, MRunning)).

Inductive ask_step : Runtime * Asks → list AskEvent → Runtime * Asks → Prop :=
| ak_begin rt a id i ctx msg :
    ak_asks a !! id = None → is_in_call_chain ctx (mkGrainId (gt_grain_type_name gt) "") = false →
    ask_step (rt, a) [Begun id i ctx msg] (rt, begin_ask a id i ctx msg)
| ak_held rt a id s p i ctx msg :
    ak_asks a !! id = None → ak_mail a !! s = Some (g, p) →
    is_in_call_chain ctx (mkGrainId (gt_grain_type_name gt) "") = false →
    ask_step (rt, a) [Begun id i ctx msg] (rt, begin_held a id s i ctx msg)
| ak_advance rt a id rt' a' es : advance rt a id = Some (rt', a', es) → ask_step (rt, a) es (rt', a')
| ak_timeout rt a id a' es : time_out a id = Some (a', es) → ask_step (rt, a) es (rt, a')
| ak_turn rt a s a' es : mailbox_turn rt a s = Some (a', es) → ask_step (rt, a) es (rt, a')
| ak_stop rt a s a' es : mailbox_stop a s = Some (a', es) → ask_step (rt, a) es (rt, a')
| ak_silo rt a rt' cs' ms' :
    conc_step (mkConc rt (ak_others a) (ak_mail a)) (mkConc rt' cs' ms') → quiet rt rt' (ak_mail a) ms' →
    max_activations (rt_dir rt') = max_activations (rt_dir rt) →
    ask_step (rt, a) [] (rt', mkAsks cs' ms' (ak_handled a) (ak_sent a) (ak_asks a)).

(** ** Histories *)

(** What the actor sees of a history: the turns of its mailboxes and their ends. *)
Definition effects (es : list AskEvent) : list (ActorEvent Msg Res) :=
  omap (λ e, match e with
             | Handled _ i ctx msg res => Some (Called Msg Res i ctx msg (Ok res))
             | Stopped => Some (Deactivated Msg Res)
             | _ => None
             end) es.

Definition of_ask (id : K) (e : AskEvent) : bool :=
  match e with
  | Begun id' _ _ _ | Handled id' _ _ _ _ | Finished id' _ _ => bool_decide (id' = id)
  | Stopped => false
  end.
Abbreviation ask_events id es := (filter (λ e, of_ask id e = true) es).

Abbreviation timed_out := (Err (Timeout (gt_ask_timeout gt))).

(** The history of one ask.  Answered, it was handled once in between and the answer is that of the turn; failed on a
    closed mailbox, it was never handled; timed out, it was handled at most once, before or after. *)
Inductive ask_history (id : K) : list AskEvent → Prop :=
| ah_none : ask_history id []
| ah_begun i ctx msg : ask_history id [Begun id i ctx msg]
| ah_handled i ctx msg res : ask_history id [Begun id i ctx msg; Handled id i ctx msg res]
| ah_answered i ctx msg res r :
    r = Ok res ∨ r = timed_out →
    ask_history id [Begun id i ctx msg; Handled id i ctx msg res; Finished id i r]
| ah_failed i ctx msg r :
    r = Err MailboxClosed ∨ r = timed_out → ask_history id [Begun id i ctx msg; Finished id i r]
| ah_late i ctx msg res :
    ask_history id [Begun id i ctx msg; Finished id i timed_out; Handled id i ctx msg res].

(** ** The invariant *)
Definition sent_by (a : Asks) (id : K) (s : Sender) (k : nat) : Prop := ak_sent a !! (s, k) = Some id.
Definition unsent (a : Asks) (id : K) : Prop := ∀ s k, ¬ sent_by a id s k.

(** What the mailboxes have done about an ask so far. *)
Definition effect (rt : Runtime) (a : Asks) (id : K) (i : I) (ctx : RequestContext) (msg : Msg i) (hs : list AskEvent) : Prop :=
  (hs = [] ∧ ∀ s k, sent_by a id s k → (handled a s ≤ k)%nat) ∨
  ∃ s k res, sent_by a id s k ∧ (k < handled a s)%nat ∧
    reply' i (take k (inbox rt s)) ctx msg = Replied (Some res) ∧ hs = [Handled id i ctx msg res].
(** Its message is in no mailbox that still runs. *)
Definition lost (a : Asks) (id : K) : Prop := ∀ s k, sent_by a id s k → ∃ g', ak_mail a !! s = Some (g', MEnded).

Inductive settled_history (rt : Runtime) (a : Asks) (id : K) (i : I) (ctx : RequestContext) (msg : Msg i)
    : result GrainError (Res i) → list AskEvent → Prop :=
| sh_answered res r :
    effect rt a id i ctx msg [Handled id i ctx msg res] → r = Ok res ∨ r = timed_out →
    settled_history rt a id i ctx msg r [Handled id i ctx msg res; Finished id i r]
| sh_late res :
    effect rt a id i ctx msg [Handled id i ctx msg res] →
    settled_history rt a id i ctx msg timed_out [Finished id i timed_out; Handled id i ctx msg res]
| sh_pending :
    effect rt a id i ctx msg [] → settled_history rt a id i ctx msg timed_out [Finished id i timed_out]
| sh_failed :
    effect rt a id i ctx msg [] → lost a id →
    settled_history rt a id i ctx msg (Err MailboxClosed) [Finished id i (Err MailboxClosed)].

Definition progress_ok (rt : Runtime) (a : Asks) (id : K) (i : I) (ctx : RequestContext) (msg : Msg i)
    (p : Progress i) (h : list AskEvent) : Prop :=
  match p with
  | Entering c => h = [] ∧ unsent a id ∧ caller_ok rt (ak_mail a) c ∧ caller_grain c = g
  | Holding s => h = [] ∧ unsent a id ∧ caller_ok rt (ak_mail a) (CReturned g s)
  | Waiting s pos => sent_by a id s pos ∧ effect rt a id i ctx msg h
  | Settled r => settled_history rt a id i ctx msg r h
  end.

(** An ask and its history. *)
Definition tracked (rt : Runtime) (a : Asks) (id : K) (x : Ask) (h : list AskEvent) : Prop :=
  ∃ h', h = Begun id (as_i x) (as_ctx x) (as_msg x) :: h' ∧
    (∀ s k, sent_by a id s k → inbox rt s !! k = Some (delivery (nm (as_i x)) (as_ctx x) (as_msg x))) ∧
    progress_ok rt a id (as_i x) (as_ctx x) (as_msg x) (as_progress x) h'.

(** The state of the actor is in the hands of the running mailbox. *)
Definition actor_state (rt : Runtime) (a : Asks) (st : State) : Prop :=
  (∀ s, ak_mail a !! s = Some (g, MRunning) → st = state_after' (take (handled a s) (inbox rt s))) ∧
  ((∀ s, ak_mail a !! s ≠ Some (g, MRunning)) → st = initial).

(** The parts of the invariant that are not about single asks. *)
Record silo_inv (rt : Runtime) (a : Asks) : Prop := {
  si_conc : conc_inv (mkConc rt (ak_others a) (ak_mail a));
  si_inbox : inbox_inv rt;
  si_handled : ∀ s, (handled a s ≤ length (inbox rt s))%nat;
  si_sent : ∀ id s k, sent_by a id s k →
    (∃ p, ak_mail a !! s = Some (g, p)) ∧ (k < length (inbox rt s))%nat ∧ is_Some (ak_asks a !! id);
  si_inj : ∀ id s k s' k', sent_by a id s k → sent_by a id s' k' → s' = s ∧ k' = k }.

Definition asks_ok (rt : Runtime) (a : Asks) (es : list AskEvent) : Prop :=
  ∀ id, match ak_asks a !! id with
        | Some x => tracked rt a id x (ask_events id es)
        | None => ask_events id es = []
        end.

(** A step leaves what concerns [id] alone. *)
Record leaves (rt : Runtime) (a : Asks) (rt' : Runtime) (a' : Asks) (id : K) : Prop := {
  lv_asks : ak_asks a' !! id = ak_asks a !! id;
  lv_inbox : ∀ s p, ak_mail a !! s = Some (g, p) → ∃ l, inbox rt' s = inbox rt s ++ l;
  lv_sent : ∀ s k, sent_by a' id s k ↔ sent_by a id s k;
  lv_handled : ∀ s k, sent_by a id s k → (k < handled a' s ↔ k < handled a s)%nat;
  lv_caller : ∀ c, caller_ok rt (ak_mail a) c → caller_ok rt' (ak_mail a') c;
  lv_ended : ∀ s g', ak_mail a !! s = Some (g', MEnded) → ak_mail a' !! s = Some (g', MEnded) }.

Section frame.
Context (rt : Runtime) (a : Asks) (rt' : Runtime) (a' : Asks) (id : K).
Context (Hsi : silo_inv rt a) (Hlv : leaves rt a rt' a' id).

Lemma leaves_take s k : sent_by a id s k → take k (inbox rt' s) = take k (inbox rt s).
Proof.
  intros Hs. destruct (si_sent _ _ Hsi _ _ _ Hs) as ([p Hp] & Hk & _).
  destruct (lv_inbox _ _ _ _ _ Hlv _ _ Hp) as [l ->]. rewrite take_app_le; [done|lia].
Qed.

Lemma leaves_effect i ctx msg hs : effect rt a id i ctx msg hs → effect rt' a' id i ctx msg hs.
Proof.
  intros [[-> Hk]|(s & k & res & Hs & Hk & Hr & ->)].
  - left. split; [done|]. intros s k Hs%(lv_sent _ _ _ _ _ Hlv). specialize (Hk _ _ Hs).
    pose proof (lv_handled _ _ _ _ _ Hlv _ _ Hs). lia.
  - right. exists s, k, res. split_and!; [by apply (lv_sent _ _ _ _ _ Hlv)|by apply (lv_handled _ _ _ _ _ Hlv)| |done].
    by rewrite leaves_take.
Qed.

Lemma leaves_tracked x h : tracked rt a id x h → tracked rt' a' id x h.
Proof.
  intros (h' & -> & Hd & Hp). exists h'. split; [done|]. split.
  { intros s k Hs%(lv_sent _ _ _ _ _ Hlv). specialize (Hd _ _ Hs).
    destruct (si_sent _ _ Hsi _ _ _ Hs) as ([p Hm] & _). destruct (lv_inbox _ _ _ _ _ Hlv _ _ Hm) as [l ->].
    by apply lookup_app_l_Some. }
  destruct (as_progress x) as [c|s|s pos|r]; cbn [progress_ok] in *.
  - destruct Hp as (-> & Hu & Hc & Hg). split_and!; [done| |by apply (lv_caller _ _ _ _ _ Hlv)|done].
    intros s k Hs%(lv_sent _ _ _ _ _ Hlv). by eapply Hu.
  - destruct Hp as (-> & Hu & Hc). split_and!; [done| |by apply (lv_caller _ _ _ _ _ Hlv)].
    intros s' k Hs%(lv_sent _ _ _ _ _ Hlv). by eapply Hu.
  - destruct Hp as [Hs He]. split; [by apply (lv_sent _ _ _ _ _ Hlv)|by apply leaves_effect].
  - destruct Hp as [res r He Hr|res He|He|He Hl].
    + apply sh_answered; [by apply leaves_effect|done].
    + apply sh_late. by apply leaves_effect.
    + apply sh_pending. by apply leaves_effect.
    + apply sh_failed; [by apply leaves_effect|]. intros s k Hs%(lv_sent _ _ _ _ _ Hlv).
      destruct (Hl _ _ Hs) as [g' Hg']. exists g'. by apply (lv_ended _ _ _ _ _ Hlv).
Qed.
End frame.

(** A step about one ask, or about none. *)
Lemma asks_ok_step rt a rt' a' es es' :
  silo_inv rt a → asks_ok rt a es →
  (∀ id, leaves rt a rt' a' id ∧ ask_events id es' = [] ∨
         ∃ x, ak_asks a' !! id = Some x ∧ tracked rt' a' id x (ask_events id es ++ ask_events id es')) →
  asks_ok rt' a' (es ++ es').
Proof.
  intros Hsi Hok Hall id. rewrite filter_app. destruct (Hall id) as [[Hlv ->]|(x & -> & Ht)]; [|done].
  rewrite app_nil_r, (lv_asks _ _ _ _ _ Hlv). specialize (Hok id).
  destruct (ak_asks a !! id) as [x|]; [|done]. by eapply leaves_tracked.
Qed.

Lemma events_own id e : of_ask id e = true → ask_events id [e] = [e].
Proof. intros He. by rewrite filter_cons_True. Qed.
Lemma events_other id e : of_ask id e = false → ask_events id [e] = [].
Proof. intros He. rewrite filter_cons_False by congruence. done. Qed.

(** ** Steps that touch one ask only *)
Lemma leaves_put rt a id id' x : id' ≠ id → leaves rt a rt (put a id x) id'.
Proof.
  intros Hne. split; try done; [by apply lookup_insert_ne|]. intros s p _. exists []. by rewrite app_nil_r.
Qed.
Lemma silo_inv_put rt a id x : silo_inv rt a → silo_inv rt (put a id x).
Proof.
  intros [H1 H2 H3 H4 H5]. split; try done. intros id' s k Hs. destruct (H4 _ _ _ Hs) as (Hm & Hk & [y Hy]).
  split_and!; [done|done|]. cbn. rewrite lookup_insert. case_decide; [by eexists|by exists y].
Qed.

(** Such a step with the events of this ask. *)
Lemma put_step rt a es id x es' h' :
  silo_inv rt a → asks_ok rt a es → (∀ id', id' ≠ id → ask_events id' es' = []) →
  ask_events id es ++ ask_events id es' = Begun id (as_i x) (as_ctx x) (as_msg x) :: h' →
  (∀ s k, sent_by a id s k → inbox rt s !! k = Some (delivery (nm (as_i x)) (as_ctx x) (as_msg x))) →
  progress_ok rt (put a id x) id (as_i x) (as_ctx x) (as_msg x) (as_progress x) h' →
  silo_inv rt (put a id x) ∧ asks_ok rt (put a id x) (es ++ es').
Proof.
  intros Hsi Hok Hev Hh Hd Hp. split; [by apply silo_inv_put|]. eapply asks_ok_step; [done|done|].
  intros id'. destruct (decide (id' = id)) as [->|Hne].
  - right. exists x. split; [apply lookup_insert_eq|]. exists h'. by split_and!.
  - left. split; [by apply leaves_put|by apply Hev].
Qed.

Lemma tracked_ask rt a es id x :
  asks_ok rt a es → ak_asks a !! id = Some x → tracked rt a id x (ask_events id es).
Proof. intros Hok Hx. specialize (Hok id). by rewrite Hx in Hok. Qed.

Lemma begin_step rt a es id i ctx msg p :
  silo_inv rt a → asks_ok rt a es → ak_asks a !! id = None →
  (unsent a id → progress_ok rt (put a id (mkAsk i ctx msg p)) id i ctx msg p []) →
  silo_inv rt (put a id (mkAsk i ctx msg p)) ∧ asks_ok rt (put a id (mkAsk i ctx msg p)) (es ++ [Begun id i ctx msg]).
Proof.
  intros Hsi Hok Hnone Hp. assert (unsent a id) as Hu.
  { intros s k Hs. destruct (si_sent _ _ Hsi _ _ _ Hs) as (_ & _ & [y Hy]). congruence. }
  eapply put_step; try done.
  - intros id' Hne. apply events_other. by apply bool_decide_false.
  - pose proof (Hok id) as Hid. rewrite Hnone in Hid. rewrite Hid, events_own by (by apply bool_decide_true). done.
  - intros s k Hs. by destruct (Hu s k).
  - by apply Hp.
Qed.

(** Settling an ask. *)
Lemma settle_step rt a es id x r h' h'' :
  silo_inv rt a → asks_ok rt a es → ak_asks a !! id = Some x →
  ask_events id es = Begun id (as_i x) (as_ctx x) (as_msg x) :: h' →
  h'' = h' ++ [Finished id (as_i x) r] →
  settled_history rt a id (as_i x) (as_ctx x) (as_msg x) r h'' →
  silo_inv rt (settled a id x r) ∧ asks_ok rt (settled a id x r) (es ++ [Finished id (as_i x) r]).
Proof.
  intros Hsi Hok Hx Hh Heq'' Hset. destruct (tracked_ask _ _ _ _ _ Hok Hx) as (h1 & _ & Hd & _).
  apply (put_step _ _ _ _ _ _ h''); try done.
  - intros id' Hne. apply events_other. by apply bool_decide_false.
  - rewrite Hh, events_own by (by apply bool_decide_true). by rewrite Heq''.
  - clear Heq''. cbn [as_progress progress_ok as_i as_ctx as_msg]. destruct Hset as [res r He Hr|res He|He|He Hl].
    + apply sh_answered; [exact He|exact Hr].
    + apply sh_late. exact He.
    + apply sh_pending. exact He.
    + apply sh_failed; [exact He|exact Hl].
Qed.

(** A mailbox handles each message once. *)
Lemma effect_at rt a id i ctx msg s pos h :
  silo_inv rt a → sent_by a id s pos → effect rt a id i ctx msg h →
  if decide (pos < handled a s)%nat
  then ∃ res, reply' i (take pos (inbox rt s)) ctx msg = Replied (Some res) ∧ h = [Handled id i ctx msg res]
  else h = [].
Proof.
  intros Hsi Hs [[-> Hk]|(s' & k & res & Hs' & Hk & Hr & ->)]; case_decide as Hlt; try done.
  - specialize (Hk _ _ Hs). lia.
  - destruct (si_inj _ _ Hsi _ _ _ _ _ Hs Hs') as [-> ->]. eauto.
  - destruct (si_inj _ _ Hsi _ _ _ _ _ Hs Hs') as [-> ->]. done.
Qed.

(** ** Steps of the silo *)
Section silo_step.
Context (rt : Runtime) (a : Asks) (cs cs' : list Caller) (rt' : Runtime) (a' : Asks).
Context (Hsi : silo_inv rt a) (Hci : conc_inv (mkConc rt cs (ak_mail a))).
Context (Hstep : conc_step (mkConc rt cs (ak_mail a)) (mkConc rt' cs' (ak_mail a'))).
Context (Hsent : ak_sent a' = ak_sent a) (Hhandled : ak_handled a' = ak_handled a).

Lemma silo_leaves id : ak_asks a' !! id = ak_asks a !! id → leaves rt a rt' a' id.
Proof.
  intros Hid. destruct (conc_step_mail _ _ _ _ _ _ Hstep Hci) as (_ & Hended & _). split.
  - done.
  - intros s p _. by eapply conc_step_inbox_grows.
  - intros s k. unfold sent_by. by rewrite Hsent.
  - intros s k _. unfold handled. by rewrite Hhandled.
  - intros c. by eapply conc_step_bystander.
  - intros s g'. apply Hended.
Qed.

Lemma silo_inv_step :
  conc_inv (mkConc rt' (ak_others a') (ak_mail a')) → (∀ id, is_Some (ak_asks a !! id) → is_Some (ak_asks a' !! id)) →
  silo_inv rt' a'.
Proof.
  intros Hc Hasks. pose proof Hsi as [H1 H2 H3 H4 H5].
  destruct (conc_step_mail _ _ _ _ _ _ Hstep Hci) as (Hmail & _ & _).
  pose proof (conc_step_inbox_grows _ _ _ _ _ _ Hstep) as Hgrow. split.
  - done.
  - by eapply conc_step_inbox_inv.
  - intros s. unfold handled. rewrite Hhandled. specialize (H3 s). unfold handled in H3.
    destruct (Hgrow s) as [l ->]. rewrite length_app. lia.
  - intros id s k. unfold sent_by. rewrite Hsent. intros Hs. destruct (H4 _ _ _ Hs) as ([p Hp] & Hk & Hx).
    split_and!; [by eapply Hmail| |by apply Hasks]. destruct (Hgrow s) as [l ->]. rewrite length_app. lia.
  - intros id s k s' k'. unfold sent_by. rewrite Hsent. apply H5.
Qed.

(** A mailbox that is new finds nothing in its inbox, and there was no other. *)
Lemma actor_state_step st :
  quiet rt rt' (ak_mail a) (ak_mail a') → actor_state rt a st → actor_state rt' a' st.
Proof.
  intros [Hq1 Hq2] [Hrun Hinit]. destruct (conc_step_mail _ _ _ _ _ _ Hstep Hci) as (_ & _ & Hnew).
  pose proof Hsi as [_ Hin Hh _ _]. pose proof Hci as [_ _ _ Hentry _]. cbn in Hentry.
  unfold actor_state, handled. rewrite Hhandled. split.
  - intros s Hs. destruct (Hnew _ _ Hs) as [Hold|(-> & Hn & Hib)].
    + rewrite (Hq1 _ _ Hold). by apply Hrun.
    + assert (st = initial) as ->.
      { apply Hinit. intros s Hs'. assert (GrainDirectory_get_sender rt g = Some s); [|congruence]. apply Hentry. by left. }
      assert (inbox rt' (rt_fresh rt) = []) as ->; [|by rewrite take_nil].
      unfold inbox. rewrite Hib. by apply inbox_inv_fresh.
  - intros Hno. apply Hinit. intros s Hs. by apply (Hno s), Hq2.
Qed.
End silo_step.

Abbreviation actor_run' := (actor_run Msg Res gt gk initial handle).
(** What a step must achieve. *)
Definition step_ok (st : State) (es es' : list AskEvent) (rt' : Runtime) (a' : Asks) : Prop :=
  ∃ st', actor_run' st (effects es') st' ∧ actor_state rt' a' st' ∧ silo_inv rt' a' ∧ asks_ok rt' a' (es ++ es').

Lemma step_ok_silent st es es' rt' a' :
  effects es' = [] → actor_state rt' a' st → silo_inv rt' a' ∧ asks_ok rt' a' (es ++ es') → step_ok st es es' rt' a'.
Proof. intros He Hst [H1 H2]. exists st. split_and!; try done. rewrite He. constructor. Qed.

Lemma conc_inv_cons rt c cs ms : conc_inv (mkConc rt cs ms) → caller_ok rt ms c → conc_inv (mkConc rt (c :: cs) ms).
Proof. intros [H1 H2 H3 H4 H5] Hc. split; try done. by constructor. Qed.
Lemma conc_inv_tail rt c cs ms : conc_inv (mkConc rt (c :: cs) ms) → conc_inv (mkConc rt cs ms) ∧ caller_ok rt ms c.
Proof. intros [H1 H2 H3 H4 [Hc H5]%Forall_cons]. split; [|done]. by split. Qed.

Lemma entering_step rt a st es id x c rt' c' spawned :
  silo_inv rt a → asks_ok rt a es → actor_state rt a st → ak_asks a !! id = Some x → as_progress x = Entering c →
  caller_step rt c = (rt', c', spawned) →
  step_ok st es [] rt' (mkAsks (ak_others a) (add_mail (caller_grain c) spawned (ak_mail a)) (ak_handled a) (ak_sent a)
                          (<[id := mkAsk (as_i x) (as_ctx x) (as_msg x) (Entering c')]> (ak_asks a))).
Proof.
  intros Hsi Hok Hst Hx Hp Hc. set (a' := mkAsks _ _ _ _ _).
  destruct (tracked_ask _ _ _ _ _ Hok Hx) as (h & Hh & Hd & Hpr). rewrite Hp in Hpr. destruct Hpr as (-> & Hu & Hco & Hg).
  pose proof (conc_inv_cons _ _ _ _ (si_conc _ _ Hsi) Hco) as Hci.
  assert (conc_step (mkConc rt (c :: ak_others a) (ak_mail a)) (mkConc rt' (c' :: ak_others a) (ak_mail a'))) as Hs
    by (by apply (cs_caller _ _ [] c c' (ak_others a))).
  destruct (conc_inv_tail _ _ _ _ (conc_step_inv _ _ Hs Hci)) as [Hci' Hco'].
  assert (∀ s, inbox rt' s = inbox rt s) as Hin.
  { intros s. pose proof (caller_step_inbox rt c) as [Hi _]. rewrite Hc in Hi. cbn in Hi. unfold inbox. by rewrite Hi. }
  apply step_ok_silent; [done| |split].
  - eapply (actor_state_step _ _ _ _ _ _ Hsi Hci Hs); [done| |done]. split; [done|]. intros s Hsr. unfold a'. cbn.
    destruct spawned as [m|]; [|done]. cbn. destruct (caller_step_spawned _ [] _ _ _ _ _ _ Hci Hc) as [-> _].
    rewrite lookup_insert_ne; [done|]. intros <-. apply (ci_fresh _ Hci) in Hsr. cbn in Hsr. lia.
  - eapply (silo_inv_step _ _ _ _ _ _ Hsi Hci Hs); [done|done|done|]. intros id' [y Hy]. unfold a'. cbn.
    rewrite lookup_insert. case_decide; by eexists.
  - eapply asks_ok_step; [done|done|]. intros id'. destruct (decide (id' = id)) as [->|Hne].
    + right. eexists. split; [apply lookup_insert_eq|]. exists []. cbn [as_i as_ctx as_msg as_progress]. split_and!.
      * by rewrite filter_nil, app_nil_r.
      * intros s k Hsent. by destruct (Hu s k).
      * split_and!; [done|exact Hu|exact Hco'|]. rewrite <- Hg.
        clear -Hc. destruct c; cbn in Hc; repeat case_match; by simplify_eq/=.
    + left. split; [|done]. eapply (silo_leaves _ _ _ _ _ _ Hci Hs); [done|done|]. unfold a'. cbn. by rewrite lookup_insert_ne.
Qed.

Lemma send_step rt a st es id x s :
  silo_inv rt a → asks_ok rt a es → actor_state rt a st → ak_asks a !! id = Some x → as_progress x = Holding s →
  is_closed rt s = false →
  step_ok st es [] (enqueue rt s (delivery (nm (as_i x)) (as_ctx x) (as_msg x)))
    (mkAsks (ak_others a) (ak_mail a) (ak_handled a) (<[(s, length (inbox rt s)) := id]> (ak_sent a))
       (<[id := mkAsk (as_i x) (as_ctx x) (as_msg x) (Waiting s (length (inbox rt s)))]> (ak_asks a))).
Proof.
  intros Hsi Hok Hst Hx Hp Hcl. remember (length (inbox rt s)) as pos eqn:Hpos. set (d := delivery _ _ _).
  set (rt' := enqueue rt s d). set (a' := mkAsks _ _ _ _ _).
  destruct (tracked_ask _ _ _ _ _ Hok Hx) as (h & Hh & Hd & Hpr). rewrite Hp in Hpr. destruct Hpr as (-> & Hu & Hlt & Hm).
  assert (s ∈ rt_open rt) as Hopen.
  { unfold is_closed in Hcl. apply bool_decide_eq_false in Hcl. by destruct (decide (s ∈ rt_open rt)). }
  destruct Hm as [Hm|[p Hm]]; [done|]. pose proof Hsi as [H1 H2 H3 H4 H5].
  assert (conc_step (mkConc rt (ak_others a) (ak_mail a)) (mkConc rt' (ak_others a) (ak_mail a))) as Hs by (by apply cs_send).
  assert (∀ s', inbox rt' s' = if decide (s' = s) then inbox rt s ++ [d] else inbox rt s') as Hin.
  { intros s'. unfold rt', inbox at 1. cbn. rewrite lookup_insert. repeat case_decide; subst; done. }
  assert (∀ id' s' k, sent_by a' id' s' k ↔ (id' = id ∧ s' = s ∧ k = pos) ∨ sent_by a id' s' k) as Hsent.
  { intros id' s' k. unfold sent_by, a'. cbn. rewrite lookup_insert. case_decide as E; simplify_eq.
    - split; [intros [= ->]; by left|]. intros [(-> & _)|Hsb]; [done|]. destruct (H4 _ _ _ Hsb) as (_ & Hk & _). lia.
    - split; [by right|]. intros [(-> & -> & ->)|?]; done. }
  apply step_ok_silent; [done| |split].
  - destruct Hst as [Hr Hi]. split; [|exact Hi]. intros s' Hs'. rewrite Hin. change (handled a' s') with (handled a s').
    rewrite (Hr s' Hs'). case_decide as E; [|done]. subst. rewrite take_app_le; [done|apply H3].
  - split.
    + by eapply (conc_step_inv _ _ Hs).
    + by eapply (conc_step_inbox_inv _ _ _ _ _ _ Hs).
    + intros s'. change (handled a' s') with (handled a s'). specialize (H3 s'). rewrite Hin. case_decide; [subst; rewrite length_app; lia|done].
    + intros id' s' k. rewrite Hsent, Hin. intros [(-> & -> & ->)|Hsb].
      * split_and!; [by exists p|rewrite decide_True, length_app by done; cbn; lia|]. unfold a'. cbn. rewrite lookup_insert_eq. by eexists.
      * destruct (H4 _ _ _ Hsb) as (Hp' & Hk & [y Hy]). split_and!; [done|case_decide; [subst; rewrite length_app; lia|done]|].
        unfold a'. cbn. rewrite lookup_insert. case_decide; by eexists.
    + intros id' s1 k1 s2 k2. rewrite !Hsent. intros [(-> & -> & ->)|Hb1] [(Hid & -> & ->)|Hb2]; try done.
      * by destruct (Hu _ _ Hb2).
      * subst id'. by destruct (Hu _ _ Hb1).
      * by eapply H5.
  - eapply asks_ok_step; [done|done|]. intros id'. destruct (decide (id' = id)) as [->|Hne].
    + right. eexists. split; [apply lookup_insert_eq|]. exists []. cbn [as_i as_ctx as_msg as_progress]. split_and!.
      * by rewrite filter_nil, app_nil_r.
      * intros s' k. rewrite Hsent, Hin. intros [(_ & -> & ->)|Hb]; [|by destruct (Hu _ _ Hb)].
        rewrite decide_True by done. by apply list_lookup_middle.
      * cbn [progress_ok]. split; [apply Hsent; by left|]. left. split; [done|]. intros s' k. rewrite Hsent.
        intros [(_ & -> & ->)|Hb]; [rewrite Hpos; apply H3|by destruct (Hu _ _ Hb)].
    + left. split; [|done]. split.
      * unfold a'. cbn. by rewrite lookup_insert_ne.
      * intros s' p' _. rewrite Hin. case_decide; [subst; eauto|]. exists []. by rewrite app_nil_r.
      * intros s' k. rewrite Hsent. naive_solver.
      * done.
      * intros c. by eapply (conc_step_bystander _ _ _ _ _ _ _ Hs).
      * done.
Qed.

Lemma advance_step rt a st es id rt' a' es' :
  silo_inv rt a → asks_ok rt a es → actor_state rt a st → advance rt a id = Some (rt', a', es') →
  step_ok st es es' rt' a'.
Proof.
  intros Hsi Hok Hst. unfold advance. destruct (ak_asks a !! id) as [x|] eqn:Hx; [|done].
  destruct (tracked_ask _ _ _ _ _ Hok Hx) as (h & Hh & Hd & Hpr).
  destruct (as_progress x) as [c|s|s pos|r] eqn:Hp; cbn [progress_ok] in Hpr; [| | |done].
  - destruct c as [g'|g'|g' s'|g'|g' mx|g'|g' s']; cbv beta iota;
      try (match goal with |- context [caller_step rt ?c] => destruct (caller_step rt c) as [[rt1 c1] sp] eqn:Hc end;
           intros [= <- <- <-]; exact (entering_step _ _ _ _ _ _ _ _ _ _ Hsi Hok Hst Hx Hp Hc)).
    intros [= <- <- <-]. destruct Hpr as (-> & Hu & Hco & Hg). apply step_ok_silent; [done|exact Hst|].
    apply (put_step _ _ _ _ _ _ []); try done.
    + by rewrite filter_nil, app_nil_r.
    + split_and!; [done|exact Hu|]. cbn in Hg. by subst g'.
  - destruct (is_closed rt s) eqn:Hcl.
    + intros [= <- <- <-]. destruct Hpr as (-> & Hu & _). apply step_ok_silent; [done|exact Hst|].
      eapply settle_step; [done|done|done|done|done|]. apply sh_failed.
      * left. split; [done|]. intros s' k Hs. by destruct (Hu s' k).
      * intros s' k Hs. by destruct (Hu s' k).
    + case_bool_decide; [|done]. intros [= <- <- <-]. by apply send_step.
  - destruct Hpr as [Hs He]. pose proof (effect_at _ _ _ _ _ _ _ _ _ Hsi Hs He) as Hat. case_bool_decide as Hlt.
    + rewrite decide_True in Hat by done. destruct Hat as (res & Hr & ->). rewrite Hr. intros [= <- <- <-].
      apply step_ok_silent; [done|exact Hst|]. eapply settle_step; [done|done|done|done|done|]. apply sh_answered; [done|by left].
    + rewrite decide_False in Hat by done. subst h. destruct (ak_mail a !! s) as [[g' []]|] eqn:Hm; try done.
      intros [= <- <- <-]. apply step_ok_silent; [done|exact Hst|]. eapply settle_step; [done|done|done|done|done|].
      apply sh_failed; [done|]. intros s' k Hs'. destruct (si_inj _ _ Hsi _ _ _ _ _ Hs Hs') as [-> ->]. eauto.
Qed.

Lemma timeout_step rt a st es id a' es' :
  silo_inv rt a → asks_ok rt a es → actor_state rt a st → time_out a id = Some (a', es') → step_ok st es es' rt a'.
Proof.
  intros Hsi Hok Hst. unfold time_out. destruct (ak_asks a !! id) as [x|] eqn:Hx; [|done].
  destruct (tracked_ask _ _ _ _ _ Hok Hx) as (h & Hh & Hd & Hpr).
  destruct (as_progress x) as [c|s|s pos|r] eqn:Hp; cbn [progress_ok] in Hpr; try done. intros [= <- <-].
  destruct Hpr as [Hs He]. apply step_ok_silent; [done|exact Hst|].
  pose proof (effect_at _ _ _ _ _ _ _ _ _ Hsi Hs He) as Hat. case_decide as Hlt.
  - destruct Hat as (res & _ & ->). eapply settle_step; [done|done|done|done|done|]. apply sh_answered; [done|by right].
  - subst h. eapply settle_step; [done|done|done|done|done|]. by apply sh_pending.
Qed.

(** A turn of the mailbox is a step of the actor, and the one effect of its ask. *)
Lemma turn_step rt a st es s a' es' :
  silo_inv rt a → asks_ok rt a es → actor_state rt a st → mailbox_turn rt a s = Some (a', es') → step_ok st es es' rt a'.
Proof.
  intros Hsi Hok Hst. unfold mailbox_turn. destruct (ak_mail a !! s) as [[g' []]|] eqn:Hm; try done.
  case_bool_decide as Hg; [|done]. subst g'. set (k := handled a s).
  destruct (inbox rt s !! k) as [d|] eqn:Hk; [|done]. cbn. destruct (ak_sent a !! (s, k)) as [id|] eqn:Hs; [|done]. cbn.
  pose proof Hsi as [H1 H2 H3 H4 H5]. destruct (H4 _ _ _ Hs) as (_ & _ & [x Hx]).
  destruct (tracked_ask _ _ _ _ _ Hok Hx) as (h & Hh & Hd & Hpr).
  pose proof (Hd _ _ Hs) as Hk'. rewrite Hk in Hk'. injection Hk' as ->.
  destruct x as [i ctx msg p]. cbn [as_i as_ctx as_msg as_progress] in *.
  cbn [delivery dl_message dl_context dl_value]. rewrite Hindex. cbn. rewrite decode_encode. cbn.
  destruct ctx as [vs]. cbn [values].
  destruct (reply' i (take k (inbox rt s)) (mkCtx vs) msg) as [[res|]| |] eqn:Hr; try done. intros [= <- <-].
  set (a' := mkAsks _ _ _ _ _).
  assert (∀ s', handled a' s' = if decide (s' = s) then S k else handled a s') as Hha.
  { intros s'. unfold handled, a'. cbn. rewrite lookup_insert. repeat case_decide; subst; done. }
  pose proof Hst as [Hrun Hinit]. pose proof (Hrun s Hm) as Hsta. fold k in Hsta.
  destruct (handle i (with_call_chain_entry (mkCtx vs) g) st msg) as [st' res'] eqn:Hhd.
  assert (res' = res) as ->.
  { rewrite Hsta in Hhd. pose proof (mailbox_reply_handle Msg Res gt gk initial handle index _ _ _ _ _ _ Hhd) as Hr'. congruence. }
  assert (∀ hs, effect rt a id i (mkCtx vs) msg hs → hs = []) as Hnone.
  { intros hs He. pose proof (effect_at _ _ _ _ _ _ _ _ _ Hsi Hs He) as Hat. rewrite decide_False in Hat; [done|unfold k; lia]. }
  assert (effect rt a' id i (mkCtx vs) msg [Handled id i (mkCtx vs) msg res]) as Hdone.
  { right. exists s, k, res. split_and!; [done|rewrite Hha, decide_True by done; lia|done|done]. }
  exists st'. split_and!.
  - eapply ar_cons; [by apply as_call|apply ar_nil].
  - split; [|intros Hno; by destruct (Hno s)]. intros s' Hs'. unfold a' in Hs'. cbn in Hs'.
    assert (s' = s) as ->. { pose proof (ci_entry _ H1 g) as He. cbn in He.
      pose proof (proj2 (He s) (or_introl Hm)). pose proof (proj2 (He s') (or_introl Hs')). congruence. }
    rewrite Hha, decide_True by done. rewrite (take_S_r _ _ _ Hk).
    rewrite state_after_snoc, (envelope_turn_delivery Msg Res gt gk nm handle index Hindex), <- Hsta. by rewrite Hhd.
  - split; try done. intros s'. rewrite Hha. case_decide; [subst|apply H3]. apply lookup_lt_Some in Hk. lia.
  - eapply asks_ok_step; [done|done|]. intros id'. destruct (decide (id' = id)) as [->|Hne].
    + right. eexists. split; [exact Hx|]. rewrite Hh, events_own by (by apply bool_decide_true).
      exists (h ++ [Handled id i (mkCtx vs) msg res]). split; [done|]. split; [exact Hd|].
      cbn [as_i as_ctx as_msg as_progress]. destruct p as [c|s'|s' pos|r]; cbn [progress_ok] in *.
      * destruct Hpr as (_ & Hu & _). by destruct (Hu _ _ Hs).
      * destruct Hpr as (_ & Hu & _). by destruct (Hu _ _ Hs).
      * destruct Hpr as [Hs' He]. rewrite (Hnone _ He). split; [exact Hs'|exact Hdone].
      * destruct Hpr as [res' r He Hr'|res' He|He|He Hl]; try (by specialize (Hnone _ He)).
        -- apply sh_late. exact Hdone.
        -- destruct (Hl _ _ Hs) as [g' Hg']. congruence.
    + left. split; [|apply events_other; by apply bool_decide_false]. split; try done.
      * intros s' p' _. exists []. by rewrite app_nil_r.
      * intros s' k' Hs'. rewrite Hha. case_decide; [subst s'|done].
        assert (k' ≠ k) by (intros ->; unfold sent_by in Hs'; congruence). unfold k in *. lia.
Qed.

Lemma stop_step rt a st es s a' es' :
  silo_inv rt a → asks_ok rt a es → actor_state rt a st → mailbox_stop a s = Some (a', es') → step_ok st es es' rt a'.
Proof.
  intros Hsi Hok Hst. unfold mailbox_stop. destruct (ak_mail a !! s) as [[g' []]|] eqn:Hm; try done.
  case_bool_decide as Hg; [|done]. subst g'. intros [= <- <-]. set (a' := mkAsks _ _ _ _ _).
  pose proof (si_conc _ _ Hsi) as Hci.
  assert (conc_step (mkConc rt (ak_others a) (ak_mail a)) (mkConc rt (ak_others a) (ak_mail a'))) as Hs by (by apply cs_stop).
  exists initial. split_and!.
  - eapply ar_cons; [apply as_deactivate|apply ar_nil].
  - split; [|done]. intros s' Hs'. unfold a' in Hs'. cbn in Hs'. rewrite lookup_insert in Hs'. case_decide; [done|].
    pose proof (ci_entry _ Hci g) as He. cbn in He.
    pose proof (proj2 (He s) (or_introl Hm)). pose proof (proj2 (He s') (or_introl Hs')). congruence.
  - eapply (silo_inv_step _ _ _ _ _ _ Hsi Hci Hs); [done|done|by eapply (conc_step_inv _ _ Hs)|done].
  - eapply asks_ok_step; [done|done|]. intros id. left. split; [|done]. by eapply (silo_leaves _ _ _ _ _ _ Hci Hs).
Qed.

Lemma ask_step_ok rt a st es es' rt' a' :
  silo_inv rt a → asks_ok rt a es → actor_state rt a st → ask_step (rt, a) es' (rt', a') → step_ok st es es' rt' a'.
Proof.
  intros Hsi Hok Hst Hs. inversion Hs; subst.
  - apply step_ok_silent; [done|exact Hst|]. apply begin_step; try done.
  - apply step_ok_silent; [done|exact Hst|]. apply begin_step; try done. intros Hu. split_and!; [done|exact Hu|].
    pose proof (si_conc _ _ Hsi) as [_ Hf _ _ _]. cbn in Hf |- *. split; [by eapply Hf|]. right. by exists p.
  - by eapply advance_step.
  - by eapply timeout_step.
  - by eapply turn_step.
  - by eapply stop_step.
  - pose proof (si_conc _ _ Hsi) as Hci. set (a' := mkAsks _ _ _ _ _).
    match goal with H : conc_step _ _ |- _ => rename H into Hc end.
    apply step_ok_silent; [done| |split].
    + by eapply (actor_state_step _ _ _ _ _ a' Hsi Hci Hc).
    + eapply (silo_inv_step _ _ _ _ _ a' Hsi Hci Hc); [done|done|by eapply (conc_step_inv _ _ Hc)|done].
    + eapply asks_ok_step; [done|done|]. intros id. left. split; [|done]. by eapply (silo_leaves _ _ _ _ _ a' Hci Hc).
Qed.

(** ** Histories of the asks *)
Lemma effect_shape rt a id i ctx msg h :
  effect rt a id i ctx msg h → h = [] ∨ ∃ res, h = [Handled id i ctx msg res].
Proof. intros [[-> _]|(s & k & res & _ & _ & _ & ->)]; eauto. Qed.

Lemma settled_finished rt a id i ctx msg r h : settled_history rt a id i ctx msg r h → Finished id i r ∈ h.
Proof. intros []; repeat first [apply list_elem_of_here|apply list_elem_of_further]. Qed.

Lemma tracked_history rt a id x h : tracked rt a id x h → ask_history id h.
Proof.
  intros (h' & -> & _ & Hp). destruct (as_progress x) as [c|s|s pos|r]; cbn [progress_ok] in Hp.
  - destruct Hp as [-> _]. constructor.
  - destruct Hp as [-> _]. constructor.
  - destruct Hp as [_ He]. destruct (effect_shape _ _ _ _ _ _ _ He) as [->|[res ->]]; constructor.
  - destruct Hp; constructor; auto.
Qed.

Lemma asks_ok_history rt a es id : asks_ok rt a es → ask_history id (ask_events id es).
Proof.
  intros Hok. specialize (Hok id). destruct (ak_asks a !! id) as [x|]; [by eapply tracked_history|].
  rewrite Hok. constructor.
Qed.

(** ** Asks that fail

    While the silo accepts activations and no mailbox of the grain has left its loop, no ask finds its mailbox closed. *)
Definition calm_caller (ms : gmap Sender (GrainId * MailPhase)) (c : Caller) : Prop :=
  match c with
  | CStart _ | CLoadMax _ | CEntry _ => True
  | CLen _ max => max = 0
  | CLookup _ | CFound _ _ => False
  | CReturned _ s => ∃ p, ms !! s = Some (g, p)
  end.
Definition calm_progress (ms : gmap Sender (GrainId * MailPhase)) {i} (p : Progress i) : Prop :=
  match p with
  | Entering c => calm_caller ms c
  | Holding s => ∃ p, ms !! s = Some (g, p)
  | Waiting _ _ => True
  | Settled r => r ≠ Err MailboxClosed
  end.
Record calm (rt : Runtime) (a : Asks) : Prop := {
  ca_draining : draining (rt_dir rt) = false;
  ca_limit : max_activations (rt_dir rt) = 0;
  ca_mail : ∀ s p, ak_mail a !! s = Some (g, p) → p = MRunning;
  ca_asks : ∀ id x, ak_asks a !! id = Some x → calm_progress (ak_mail a) (as_progress x) }.

(** A step that leaves the mailboxes as they are, or adds running ones. *)
Lemma calm_progress_mono ms ms' i (p : Progress i) :
  (∀ s p, ms !! s = Some (g, p) → ∃ p', ms' !! s = Some (g, p')) → calm_progress ms p → calm_progress ms' p.
Proof. intros Hm. destruct p as [[]| | |]; cbn; naive_solver. Qed.

Lemma calm_put rt a id x : calm rt a → calm_progress (ak_mail a) (as_progress x) → calm rt (put a id x).
Proof.
  intros [H1 H2 H3 H4] Hx. split; try done. intros id' y. cbn. rewrite lookup_insert. case_decide; [|apply H4].
  by intros [= <-].
Qed.

(** The accesses of [get_or_insert] on a calm silo. *)
Lemma calm_entering rt cs ms c rt' c' spawned :
  conc_inv (mkConc rt (c :: cs) ms) → draining (rt_dir rt) = false → max_activations (rt_dir rt) = 0 →
  caller_grain c = g → calm_caller ms c → caller_step rt c = (rt', c', spawned) →
  draining (rt_dir rt') = false ∧ max_activations (rt_dir rt') = 0 ∧ calm_caller (add_mail g spawned ms) c'.
Proof.
  intros Hci Hd Hm Hg Hc Hs. destruct c as [g'|g'|g' s|g'|g' mx|g'|g' s]; cbn in Hg, Hc; try done; subst g'; cbn in Hs.
  - rewrite Hd in Hs. by injection Hs as <- <- <-.
  - injection Hs as <- <- <-. by split_and!.
  - subst mx. injection Hs as <- <- <-. by split_and!.
  - pose proof (directory_entry_spec _ g Hci) as He. cbn [c_rt] in He. pose proof (ci_entry _ Hci g) as Hen. cbn in Hen.
    destruct (directory_entry rt g) as [[w1 s] sp]. injection Hs as <- <- <-.
    destruct (GrainDirectory_get_sender rt g) as [m0|]; destruct_and!; subst.
    + split_and!; [done|done|]. destruct (proj1 (Hen m0) eq_refl); by eexists.
    + split_and!; [congruence|congruence|]. exists MRunning. cbn. apply lookup_insert_eq.
  - injection Hs as <- <- <-. by split_and!.
Qed.

Lemma caller_step_draining w c : draining (rt_dir (caller_step w c).1.1) = draining (rt_dir w).
Proof.
  destruct c as [g'|g'|g' m|g'|g' mx|g'|g' m]; cbn; try done.
  - by destruct (GrainDirectory_get_sender w g').
  - by destruct (is_closed w m).
  - unfold directory_entry. destruct (activations (rt_dir w) !! g') as [e|]; [destruct (is_closed w (act_sender e))|]; done.
Qed.
Lemma conc_step_draining w cs ms w' cs' ms' :
  conc_step (mkConc w cs ms) (mkConc w' cs' ms') → draining (rt_dir w') = draining (rt_dir w).
Proof.
  intros Hs. inversion Hs; subst; try done.
  - pose proof (caller_step_draining w c) as Hd.
    match goal with H : caller_step _ _ = _ |- _ => rewrite H in Hd end. done.
  - by match goal with |- context [GrainDirectory_activator_remove _ ?g'] =>
      destruct (activator_remove_inbox w g') as (_ & _ & _ & Hd & _) end.
Qed.

Lemma calm_mail rt cs ms rt' cs' ms' :
  conc_step (mkConc rt cs ms) (mkConc rt' cs' ms') → (∀ s, ms !! s = Some (g, MRunning) → ms' !! s = Some (g, MRunning)) →
  (∀ s p, ms !! s = Some (g, p) → p = MRunning) → ∀ s p, ms' !! s = Some (g, p) → p = MRunning.
Proof.
  intros Hs Hq Hm s p. inversion Hs; subst; try apply Hm.
  - destruct spawned as [m|]; cbn; [|apply Hm]. rewrite lookup_insert. case_decide; [by intros [= _ <-]|apply Hm].
  - rewrite lookup_insert. case_decide as E; [|apply Hm]. intros [= -> <-]. subst.
    match goal with H : ms !! s = _ |- _ => apply Hq in H; rewrite lookup_insert_eq in H end. done.
  - rewrite lookup_insert. case_decide as E; [|apply Hm]. intros [= -> <-]. subst.
    match goal with H : ms !! s = _ |- _ => by apply Hm in H end.
  - rewrite lookup_insert. case_decide as E; [|apply Hm]. intros [= -> <-]. subst.
    match goal with H : ms !! s = _ |- _ => by apply Hm in H end.
Qed.

Lemma calm_advance rt a es id rt' a' es' :
  silo_inv rt a → asks_ok rt a es → calm rt a → advance rt a id = Some (rt', a', es') →
  calm rt' a' ∧ ∀ id' i, Finished id' i (Err MailboxClosed) ∉ es'.
Proof.
  intros Hsi Hok Hcalm. pose proof Hcalm as [H1 H2 H3 H4]. unfold advance.
  destruct (ak_asks a !! id) as [x|] eqn:Hx; [|done]. pose proof (H4 _ _ Hx) as Hp.
  destruct (tracked_ask _ _ _ _ _ Hok Hx) as (h & Hh & Hd & Hpr).
  destruct (as_progress x) as [c|s|s pos|r] eqn:Ep; cbn [calm_progress progress_ok] in Hp, Hpr; [| | |done].
  - destruct Hpr as (-> & Hu & Hco & Hg).
    assert (∀ rt1 c1 sp, caller_step rt c = (rt1, c1, sp) →
      calm rt1 (mkAsks (ak_others a) (add_mail g sp (ak_mail a)) (ak_handled a) (ak_sent a)
        (<[id := mkAsk (as_i x) (as_ctx x) (as_msg x) (Entering c1)]> (ak_asks a)))) as Hall.
    { intros rt1 c1 sp Hc. pose proof (conc_inv_cons _ _ _ _ (si_conc _ _ Hsi) Hco) as Hci.
      destruct (calm_entering _ _ _ _ _ _ _ Hci H1 H2 Hg Hp Hc) as (Hd1 & Hm1 & Hc1).
      assert (∀ s p, ak_mail a !! s = Some (g, p) → ∃ p', add_mail g sp (ak_mail a) !! s = Some (g, p')) as Hmono.
      { intros s p Hs. destruct sp as [m|]; cbn; [|by exists p]. rewrite lookup_insert. case_decide; by eexists. }
      split; cbn [ak_mail ak_asks]; [done|done| |].
      - intros s p. destruct sp as [m|]; cbn; [|apply H3]. rewrite lookup_insert. case_decide; [by intros [= <-]|apply H3].
      - intros id' y. rewrite lookup_insert. case_decide; [by intros [= <-]|].
        intros Hy. eapply calm_progress_mono; [exact Hmono|by eapply H4]. }
    destruct c as [g'|g'|g' s'|g'|g' mx|g'|g' s']; cbn in Hg; subst g'; cbv beta iota;
      try (match goal with |- context [caller_step rt ?c] => destruct (caller_step rt c) as [[rt1 c1] sp] eqn:Hc end;
           intros [= <- <- <-]; split; [exact (Hall _ _ _ eq_refl)|intros ? ?; apply not_elem_of_nil]).
    intros [= <- <- <-]. split; [|intros ? ?; apply not_elem_of_nil]. by apply calm_put.
  - destruct Hp as [p Hp]. pose proof (H3 _ _ Hp) as ->. destruct (ci_open _ (si_conc _ _ Hsi) _ _ _ Hp) as [?|Hopen]; [done|].
    cbn in Hopen. rewrite is_closed_open by done. case_bool_decide; [|done]. intros [= <- <- <-].
    split; [|intros ? ?; apply not_elem_of_nil]. split; [done|done|done|]. apply (ca_asks rt (put a id _)). by apply calm_put.
  - destruct Hpr as [Hs He]. pose proof (effect_at _ _ _ _ _ _ _ _ _ Hsi Hs He) as Hat. case_bool_decide as Hlt.
    + rewrite decide_True in Hat by done. destruct Hat as (res & Hr & ->). rewrite Hr. intros [= <- <- <-]. split.
      * by apply calm_put.
      * intros id' i' Hin%list_elem_of_singleton. by simplify_eq.
    + destruct (si_sent _ _ Hsi _ _ _ Hs) as ([p Hm] & _). pose proof (H3 _ _ Hm) as ->. by rewrite Hm.
Qed.

Lemma turn_event rt a s a' es :
  mailbox_turn rt a s = Some (a', es) →
  ∃ id i ctx msg res, es = [Handled id i ctx msg res] ∧
    a' = mkAsks (ak_others a) (ak_mail a) (<[s := S (handled a s)]> (ak_handled a)) (ak_sent a) (ak_asks a).
Proof.
  unfold mailbox_turn. intros Ht. destruct (ak_mail a !! s) as [[? []]|]; try done. case_bool_decide; [|done].
  destruct (inbox rt s !! _) as [d|]; [|done]. cbn in Ht. destruct (ak_sent a !! _) as [id|]; [|done]. cbn in Ht.
  destruct (index _) as [i|]; [|done]. cbn in Ht. destruct (decode _) as [msg|]; [|done]. cbn in Ht.
  destruct (reply' _ _ _ _) as [[res|]| |]; try done. injection Ht as <- <-. by repeat eexists.
Qed.

Lemma calm_step rt a es rt' a' es' :
  silo_inv rt a → asks_ok rt a es → calm rt a → ask_step (rt, a) es' (rt', a') → Stopped ∉ es' →
  calm rt' a' ∧ ∀ id i, Finished id i (Err MailboxClosed) ∉ es'.
Proof.
  intros Hsi Hok Hcalm Hs Hno. pose proof Hcalm as [H1 H2 H3 H4]. inversion Hs; subst.
  - split; [by apply calm_put|]. intros id' i' ?%list_elem_of_singleton. done.
  - split; [apply calm_put; [done|by eexists]|]. intros id' i' ?%list_elem_of_singleton. done.
  - by eapply calm_advance.
  - match goal with H : time_out _ _ = _ |- _ => unfold time_out in H; rename H into Ht end.
    destruct (ak_asks a !! id) as [x|]; [|done]. destruct (as_progress x); try done. injection Ht as <- <-.
    split; [by apply calm_put|]. intros id' i' ?%list_elem_of_singleton. by simplify_eq.
  - match goal with H : mailbox_turn _ _ _ = _ |- _ => apply turn_event in H as (id & i & ctx & msg & res & -> & ->) end.
    split; [by split|]. intros id' i' ?%list_elem_of_singleton. done.
  - match goal with H : mailbox_stop _ _ = _ |- _ => unfold mailbox_stop in H; rename H into Ht end.
    destruct (ak_mail a !! s) as [[? []]|]; try done. case_bool_decide; [|done]. injection Ht as <- <-.
    exfalso. apply Hno. by left.
  - match goal with H : conc_step _ _ |- _ => rename H into Hc end.
    match goal with H : quiet _ _ _ _ |- _ => destruct H as [_ Hq] end.
    split; [|intros ? ?; apply not_elem_of_nil]. split; cbn [ak_mail ak_asks].
    + rewrite (conc_step_draining _ _ _ _ _ _ Hc). done.
    + congruence.
    + by eapply calm_mail.
    + intros id x Hx. eapply calm_progress_mono; [|by eapply H4].
      intros s p Hp. by eapply (proj1 (conc_step_mail _ _ _ _ _ _ Hc (si_conc _ _ Hsi))).
Qed.
End asks.

Arguments Entering {I Res i}.
Arguments Holding {I Res i}.
Arguments Waiting {I Res i}.
Arguments Settled {I Res i}.
Arguments mkAsk {I Msg Res}.
Arguments as_i {I Msg Res}.
Arguments as_progress {I Msg Res}.
Arguments mkAsks {I Msg Res K EqDecision0 H}.
Arguments ak_mail {I Msg Res K EqDecision0 H}.
Arguments ak_asks {I Msg Res K EqDecision0 H}.
Arguments Begun {I Msg Res K}.
Arguments Handled {I Msg Res K}.
Arguments Finished {I Msg Res K}.
Arguments Stopped {I Msg Res K}.
