(* ===== verification/Linearizable.v ===== *)
(** * Concurrent calls to a virtual actor

    Calls of one grain at many silos of a converged cluster, interleaved access by access: the routing accesses of
    [CallsInFlight] up to the dispatch at the owner, and from there the accesses of [Asks], among them those of
    mailboxes that stop and are replaced while calls are under way.  Local references are used and other grains are busy in
    between.  The history of the calls is linearizable: a call that is answered took effect at one moment
    between its start and its end, and in the order of these moments the answers are those of one
    sequential actor. *)
From S2P Require Import Prelude CoreTypes HashRing Mailbox Directory ConcurrentDirectory Calls Auth Swim Membership.
From S2P Require Import CrossCluster Replication Registry Transport ClusterRef ClusterSilo VirtualActor CallsInFlight Asks.

Section linearizable.
Context {I : Type} (Msg Res : I → Type) `{Heq : ∀ i, EqDecision (Msg i)} `{Hcnt : ∀ i, Countable (Msg i)}.
Context (gt : GrainType) (gk : string) (nm : ∀ i, NetworkMessage (Msg i) (Res i)).
Context {State : Type} (initial : State).
Context (handle : ∀ i, RequestContext → State → Msg i → State * Res i).
Context (index : string → option I) (Hindex : ∀ i, index (message_type_name (nm i)) = Some i).
Context (connects parses : string → bool) (arrival : list SiloAddress → list (SiloAddress * bool)).
Context (status_display : Status → string) (rpc_failure : Status) (now : Z).
Context (Hconn : ∀ uri, connects uri = true) (Harr : ∀ l, arrival l ≡ₚ all_answer l).
Context (gd : GrainError → string).
Context (r : HashRing) (auth : option SharedSecretAuth) (o : SiloAddress).
Context (Howner : HashRing_get r (slash (gt_grain_type_name gt) gk) = Some o).
(** The endpoint of the owner is nobody else's. *)
Context (Hends : ∀ m, m ∈ HashRing_members r → endpoint m = endpoint o → silo_id m = silo_id o).
Abbreviation tn := (gt_grain_type_name gt).
Abbreviation g := (mkGrainId tn gk).
Abbreviation step' := (flight_step connects parses arrival status_display rpc_failure now).
Abbreviation converged' := (converged parses r auth tn gk o).
Abbreviation actor_run' := (actor_run Msg Res gt gk initial handle).

(** Asks at the owner: for the calls of other silos, and through local references. *)
Abbreviation Id := (nat + nat)%type.
Abbreviation Asks' := (Asks Msg Res (K := Id)).
Abbreviation AskEvent' := (AskEvent Msg Res (K := Id)).
Abbreviation ask_step' := (ask_step Msg Res gt gk nm initial handle index (K := Id)).
Abbreviation silo_inv' := (silo_inv Msg Res gt gk (K := Id)).
Abbreviation asks_ok' := (asks_ok Msg Res gt gk nm initial handle index (K := Id)).
Abbreviation actor_state' := (actor_state Msg Res gt gk initial handle index (K := Id)).
Abbreviation calm' := (calm Msg Res gt gk (K := Id)).
Abbreviation ask_history' := (ask_history Msg Res gt (K := Id)).
Abbreviation ask_events id es := (filter (λ e, of_ask Msg Res id e = true) es).

(** ** Histories *)
Inductive Event :=
| Invoked (id : nat) (ep : string) (req : InvokeRequest)
| Asked (e : AskEvent')
| Returned (id : nat) (out : result Status InvokeResponse).
Definition asks_of (es : list Event) : list AskEvent' :=
  omap (λ e, match e with Asked e => Some e | _ => None end) es.

(** A request for the grain: an encoded message from a context that has not passed through it. *)
Definition grain_request (i : I) (ctx : RequestContext) (msg : Msg i) (req : InvokeRequest) : Prop :=
  ∃ payload, req = remote_request (nm i) tn gk payload (RequestContext_to_map ctx) ∧
    bincode_decode (nm i) payload = Ok msg ∧ Z.of_nat (length payload) ≤ MAX_PAYLOAD_SIZE ∧
    is_in_call_chain ctx (mkGrainId tn "") = false.
Definition is_call (req : InvokeRequest) : Prop := ∃ i ctx msg, grain_request i ctx msg req.

(** ** The cluster with its calls *)

(** A call on its way, or waiting for its ask at the owner, with the encoding of the reply; [waiting] counts the
    silos that have forwarded it. *)
Inductive Call := Travelling (f : Flight) | Asking (waiting : nat) (encoding : Encoding).

Record Cluster := mkCluster { cl_world : World; cl_asks : Asks'; cl_calls : gmap nat Call; cl_next : nat }.

(** The start of the dispatch closure: decode, then ask.  [None] for requests other than [grain_request]s. *)
Definition dispatch_begin (a : Asks') (id : nat) (req : InvokeRequest) : option (AskEvent' * Asks') :=
  i ← index (iv_message_type req);
  match decode_message (nm i) (Encoding_from_proto (iv_encoding req)) (iv_payload req) with
  | Err _ => None
  | Ok msg =>
      let ctx := RequestContext_with_values (iv_request_context req) in
      if is_in_call_chain ctx (mkGrainId tn "") then None
      else Some (Begun (inl id) i ctx msg, begin_ask Msg Res gt gk a (inl id) i ctx msg)
  end.

(** The end of it: the response to the result of the ask. *)
Definition answer (encoding : Encoding) (i : I) (res : result GrainError (Res i)) : InvokeResponse :=
  dispatch_response encoding
    match res with
    | Err e => Err (HandlerError (gd e))
    | Ok v => match encode_result (nm i) encoding v with Err e => Err e | Ok b => Ok (b, encoding) end
    end.
Definition call_answer (a : Asks') (id : nat) (encoding : Encoding) : option InvokeResponse :=
  x ← ak_asks a !! inl id;
  match as_progress x with Settled res => Some (answer encoding (as_i x) res) | _ => None end.

Definition dispatching (f : Flight) : Prop := match fl_phase f with Dispatching _ _ => True | _ => False end.
Definition local_begin (e : AskEvent') : Prop := match e with Begun (inl _) _ _ _ => False | _ => True end.
#[global] Instance dispatching_dec f : Decision (dispatching f).
Proof. unfold dispatching. destruct (fl_phase f); apply _. Defined.

(** A call arrives at some silo; a call on its way makes its next access; it is dispatched at the owner;
    an access of the asks at the owner; the dispatch ends; a call returns; other grains of
    another silo are busy (those of the owner are part of its [ask_step]s). *)
Inductive live_step : Cluster → list Event → Cluster → Prop :=
| ls_invoke w a cs n ep md req :
    is_Some (w_silos w !! ep) → check_auth auth md = Ok () → is_call req → hop_count req < MAX_HOPS →
    live_step (mkCluster w a cs n) [Invoked n ep req]
      (mkCluster w a (<[n := Travelling (mkFlight (Arrived ep md req) 0)]> cs) (S n))
| ls_access w a cs n id f w' f' :
    cs !! id = Some (Travelling f) → ¬ completed f → ¬ dispatching f → step' w f = (w', f') →
    live_step (mkCluster w a cs n) [] (mkCluster w' a (<[id := Travelling f']> cs) n)
| ls_dispatch w a cs n id ep req m e a' :
    cs !! id = Some (Travelling (mkFlight (Dispatching ep req) m)) → dispatch_begin a id req = Some (e, a') →
    live_step (mkCluster w a cs n) [Asked e]
      (mkCluster w a' (<[id := Asking m (Encoding_from_proto (iv_encoding req))]> cs) n)
| ls_ask w a cs n so rt' a' es :
    w_silos w !! endpoint o = Some so → ask_step' (sl_runtime so, a) es (rt', a') → Forall local_begin es →
    live_step (mkCluster w a cs n) (Asked <$> es)
      (mkCluster (set_silo w (endpoint o) (with_runtime so rt')) a' cs n)
| ls_answer w a cs n id m encoding resp :
    cs !! id = Some (Asking m encoding) → call_answer a id encoding = Some resp →
    live_step (mkCluster w a cs n) []
      (mkCluster w a (<[id := Travelling (mkFlight (Answered (Ok resp)) m)]> cs) n)
| ls_return w a cs n id out :
    cs !! id = Some (Travelling (mkFlight (Answered out) 0)) →
    live_step (mkCluster w a cs n) [Returned id out] (mkCluster w a (delete id cs) n)
| ls_other w a cs n ep s rt :
    w_silos w !! ep = Some s → ep ≠ endpoint o → other_grain_step gt gk (sl_runtime s) rt →
    live_step (mkCluster w a cs n) [] (mkCluster (set_silo w ep (with_runtime s rt)) a cs n).

Inductive live_run : Cluster → list Event → Cluster → Prop :=
| lr_nil c : live_run c [] c
| lr_snoc c es c' es' c'' : live_run c es c' → live_step c' es' c'' → live_run c (es ++ es') c''.

(** The events of one call. *)
Definition of_call (id : nat) (e : Event) : bool :=
  match e with
  | Invoked id' _ _ | Returned id' _ => bool_decide (id' = id)
  | Asked e => of_ask Msg Res (inl id) e
  end.
Abbreviation history id es := (filter (λ e, of_call id e = true) es).

(** The request reaches the actor as it was sent, or with the mark of one forwarding. *)
Definition routed (req req' : InvokeRequest) : Prop := req' = req ∨ req' = forwarded req.

(** The history of a call: it is invoked, asks the actor its message once, and returns the result of the
    ask.  [ask_history] says what the ask may do: after a result it was handled exactly once before; after
    [MailboxClosed] never; after a timeout at most once, before or after the return. *)
Inductive call_history (id : nat) : list Event → Prop :=
| ch_none : call_history id []
| ch_invoked ep req : call_history id [Invoked id ep req]
| ch_asking ep req req' i ctx msg h :
    routed req req' → grain_request i ctx msg req' → ask_history' (inl id) (Begun (inl id) i ctx msg :: h) →
    call_history id (Invoked id ep req :: (Asked <$> Begun (inl id) i ctx msg :: h))
| ch_returned ep req req' i ctx msg h res h' :
    routed req req' → grain_request i ctx msg req' → Finished (inl id) i res ∈ h →
    ask_history' (inl id) (Begun (inl id) i ctx msg :: h ++ h') →
    call_history id (Invoked id ep req :: (Asked <$> Begun (inl id) i ctx msg :: h) ++
                     Returned id (Ok (answer Bincode i res)) :: (Asked <$> h')).

(** ** The invariant *)

(** The cluster around the asks: it has converged, and the directories of the silos are well-formed. *)
Definition cluster_ok (w : World) : Prop :=
  converged' w ∧
  map_Forall (λ _ s, directory_inv (sl_runtime s) ∧ inbox_inv (sl_runtime s) ∧ registry_wf (sl_registry s)) (w_silos w).
Definition owner_runtime (w : World) : option Runtime := sl_runtime <$> w_silos w !! endpoint o.

(** Where a call for the grain can be before it is dispatched. *)
Definition phase_ok (w : World) (req : InvokeRequest) (p : Phase) : Prop :=
  match p with
  | Arrived ep md req' =>
      check_auth auth md = Ok () ∧ is_Some (w_silos w !! ep) ∧
      (req' = req ∨ ep = endpoint o ∧ req' = forwarded req)
  | Forwarding _ ep target req' => is_Some (w_silos w !! ep) ∧ target = endpoint o ∧ req' = req
  | CrossCheck ep req' | LocalCheck ep req' | LookupStart ep req' | Dispatching ep req' =>
      ep = endpoint o ∧ routed req req'
  | LookingUp ep req' ms => ep = endpoint o ∧ routed req req' ∧ ∀ m, m ∈ ms → endpoint m.1 ≠ endpoint o
  | Claiming _ _ _ _ | Answered _ => False
  end.

(** A call with its history and that of its ask. *)
Inductive tracks (w : World) (id : nat) : Call → list Event → list AskEvent' → Prop :=
| tr_travelling f ep req :
    is_call req → hop_count req < MAX_HOPS → phase_ok w req (fl_phase f) →
    tracks w id (Travelling f) [Invoked id ep req] []
| tr_asking m ep req req' i ctx msg h :
    routed req req' → grain_request i ctx msg req' →
    tracks w id (Asking m Bincode) (Invoked id ep req :: (Asked <$> Begun (inl id) i ctx msg :: h))
      (Begun (inl id) i ctx msg :: h)
| tr_answered m ep req req' i ctx msg h res :
    routed req req' → grain_request i ctx msg req' → Finished (inl id) i res ∈ h →
    tracks w id (Travelling (mkFlight (Answered (Ok (answer Bincode i res))) m))
      (Invoked id ep req :: (Asked <$> Begun (inl id) i ctx msg :: h)) (Begun (inl id) i ctx msg :: h).

(** A call that has returned. *)
Definition returned (id : nat) (h : list Event) (ha : list AskEvent') : Prop :=
  ∃ ep req req' i ctx msg h1 res h2, routed req req' ∧ grain_request i ctx msg req' ∧ Finished (inl id) i res ∈ h1 ∧
    ha = Begun (inl id) i ctx msg :: h1 ++ h2 ∧
    h = Invoked id ep req :: (Asked <$> Begun (inl id) i ctx msg :: h1) ++
          Returned id (Ok (answer Bincode i res)) :: (Asked <$> h2).

Definition call_ok (w : World) (n id : nat) (c : option Call) (h : list Event) (ha : list AskEvent') : Prop :=
  match c with
  | Some c => (id < n)%nat ∧ tracks w id c h ha
  | None => (n ≤ id)%nat ∧ h = [] ∧ ha = [] ∨ (id < n)%nat ∧ returned id h ha
  end.

(** Silos stay. *)
Definition silos_kept (w w' : World) : Prop := ∀ ep, is_Some (w_silos w !! ep) → is_Some (w_silos w' !! ep).

Lemma silos_kept_set w ep s : silos_kept w (set_silo w ep s).
Proof. intros ep' H. cbn. rewrite lookup_insert. by case_decide. Qed.
Lemma silos_kept_refl w : silos_kept w w.
Proof. by intros ?. Qed.

Lemma phase_ok_kept w w' req p : silos_kept w w' → phase_ok w req p → phase_ok w' req p.
Proof. intros Hk. destruct p; cbn; naive_solver. Qed.

(** Events of the asks lengthen the history of a call that has begun its ask. *)
Lemma call_ok_asked w w' n id c h ha hs :
  silos_kept w w' → call_ok w n id c h ha → (ha = [] → hs = []) → call_ok w' n id c (h ++ (Asked <$> hs)) (ha ++ hs).
Proof.
  intros Hk Hc Hhs. destruct c as [c|]; cbn in *.
  - destruct Hc as [Hlt Ht]. split; [done|].
    destruct Ht as [f ep req Hcall Hhop Hp|m ep req req' i ctx msg h Hr Hg|m ep req req' i ctx msg h res Hr Hg Hf].
    + rewrite Hhs by done. constructor; [done|done|by eapply phase_ok_kept].
    + cbn. rewrite <- fmap_app. by eapply (tr_asking _ _ _ _ _ _ _ _ _ (h ++ hs)).
    + cbn. rewrite <- fmap_app. eapply (tr_answered _ _ _ _ _ _ _ _ _ (h ++ hs)); [done|done|]. apply elem_of_app. by left.
  - destruct Hc as [(Hle & -> & ->)|[Hlt Hr]]; [left; by rewrite Hhs|]. right. split; [done|].
    destruct Hr as (ep & req & req' & i & ctx & msg & h1 & res & h2 & Hr & Hg & Hf & -> & ->).
    exists ep, req, req', i, ctx, msg, h1, res, (h2 ++ hs). split_and!; [done|done|done| |].
    + cbn. by rewrite app_assoc.
    + cbn. rewrite fmap_app, <- app_assoc. done.
Qed.

Lemma call_ok_kept w w' n id c h ha : silos_kept w w' → call_ok w n id c h ha → call_ok w' n id c h ha.
Proof. intros Hk Hc. pose proof (call_ok_asked _ _ _ _ _ _ _ [] Hk Hc (λ _, eq_refl)) as H'. by rewrite !app_nil_r in H'. Qed.

(** ** Requests *)
Lemma grain_request_forwarded i ctx msg req :
  grain_request i ctx msg req → ∃ ctx', grain_request i ctx' msg (forwarded req).
Proof.
  intros (payload & -> & Hd & Hl & Hc).
  set (req := remote_request _ _ _ _ _).
  exists (RequestContext_with ctx HOP_COUNT_KEY (pretty (hop_count req + 1))), payload.
  split_and!; [done|done|done|]. rewrite <- Hc. unfold is_in_call_chain, RequestContext_get, RequestContext_with.
  cbn [values]. by rewrite lookup_insert_ne.
Qed.

Lemma is_call_routed req req' : is_call req → routed req req' → is_call req'.
Proof.
  intros (i & ctx & msg & Hg) [->| ->]; [by do 3 eexists|].
  destruct (grain_request_forwarded _ _ _ _ Hg) as [ctx' ?]. by do 3 eexists.
Qed.

Lemma is_call_names req :
  is_call req → iv_grain_type req = tn ∧ iv_grain_key req = gk ∧ oversized req = false.
Proof.
  intros (i & ctx & msg & payload & -> & _ & Hl & _). split_and!; [done|done|].
  apply bool_decide_false. cbn. lia.
Qed.

(** The dispatch of a call begins its ask. *)
Lemma dispatch_begins a id i ctx msg req :
  grain_request i ctx msg req →
  dispatch_begin a id req = Some (Begun (inl id) i ctx msg, begin_ask Msg Res gt gk a (inl id) i ctx msg) ∧
  Encoding_from_proto (iv_encoding req) = Bincode.
Proof.
  intros (payload & -> & Hd & _ & Hc). split; [|done]. unfold dispatch_begin, decode_message. cbn. rewrite Hindex. cbn. rewrite Hd. cbn.
  destruct ctx as [vs]. unfold RequestContext_with_values, RequestContext_to_map. cbn [values]. by rewrite Hc.
Qed.

(** ** Accesses on the way *)

(** Filling a connection pool changes nothing that matters. *)
Lemma cluster_ok_pool w ep s p :
  cluster_ok w → w_silos w !! ep = Some s → auth_token p = auth_token (sl_pool s) →
  cluster_ok (set_silo w ep (with_pool s p)) ∧ owner_runtime (set_silo w ep (with_pool s p)) = owner_runtime w.
Proof.
  intros [Hc Hd] Hs Hp. split; [split|].
  - apply converged_set; [done|]. apply silo_converged_pool; [by apply (proj1 Hc)|done].
  - apply map_Forall_insert_2; [|done]. exact (Hd _ _ Hs).
  - unfold owner_runtime. cbn. rewrite lookup_insert. case_decide; [|done]. subst. by rewrite Hs.
Qed.

(** What one access must achieve: the call moves on, and the grain is left alone. *)
Definition access_ok (w : World) (id : nat) (h : list Event) (ha : list AskEvent') (w' : World) (f' : Flight) : Prop :=
  silos_kept w w' ∧ cluster_ok w' ∧ owner_runtime w' = owner_runtime w ∧ tracks w' id (Travelling f') h ha.

Lemma access_still w id ep req p n :
  cluster_ok w → is_call req → hop_count req < MAX_HOPS → phase_ok w req p →
  access_ok w id [Invoked id ep req] [] w (mkFlight p n).
Proof. intros. split_and!; [apply silos_kept_refl|done|done|]. by constructor. Qed.
Lemma access_pool w id ep req p n ep' s q :
  cluster_ok w → is_call req → hop_count req < MAX_HOPS → w_silos w !! ep' = Some s → auth_token q = auth_token (sl_pool s) →
  (silos_kept w (set_silo w ep' (with_pool s q)) → phase_ok (set_silo w ep' (with_pool s q)) req p) →
  access_ok w id [Invoked id ep req] [] (set_silo w ep' (with_pool s q)) (mkFlight p n).
Proof.
  intros Hw Hcall Hhop Hs Hq Hp. destruct (cluster_ok_pool _ _ _ _ Hw Hs Hq) as [H1 H2].
  split_and!; [apply silos_kept_set|done|done|]. constructor; [done|done|]. apply Hp, silos_kept_set.
Qed.

Lemma owner_silo w :
  cluster_ok w → ∃ so, w_silos w !! endpoint o = Some so ∧ sl_cross so = None ∧
    sl_ring so = r ∧ sl_local_silo_id so = silo_id o.
Proof.
  intros [Hc _]. destruct (proj2 Hc) as [so Hso]. exists so. destruct (proj1 Hc _ _ Hso) as (Hr & Hid & _ & _ & Hx & _).
  split_and!; [done..|]. by apply Hid.
Qed.

Lemma arrive_access w id ep0 req n ep md req' :
  cluster_ok w → is_call req → hop_count req < MAX_HOPS → phase_ok w req (Arrived ep md req') →
  ∃ p, step' w (mkFlight (Arrived ep md req') n) = (w, mkFlight p n) ∧
    access_ok w id [Invoked id ep0 req] [] w (mkFlight p n).
Proof.
  intros Hw Hcall Hhop (Hmd & [s Hs] & Hreq). destruct (proj1 (proj1 Hw) _ _ Hs) as (Hr & Hid & Ha & _).
  assert (routed req req') as Hrt by (destruct Hreq as [->|[_ ->]]; [by left|by right]).
  destruct (is_call_names _ (is_call_routed _ _ Hcall Hrt)) as (Hgt & Hgk & Hsz).
  eexists. split.
  { cbn. unfold arrive_step, at_silo. rewrite Hs, Ha, Hmd, Hsz. unfold find_owner. rewrite Hr, Hgt, Hgk, Howner. done. }
  apply access_still; try done. case_bool_decide as Hne; cbn.
  - assert (ep ≠ endpoint o) by (intros He; apply Hne; symmetry; by apply Hid).
    destruct Hreq as [->|[? _]]; [|done]. by rewrite Hs.
  - split; [|done]. apply Hid. destruct (decide (sl_local_silo_id s = silo_id o)); [done|congruence].
Qed.

Lemma forward_access w id ep0 req n m ep target req' :
  cluster_ok w → is_call req → hop_count req < MAX_HOPS → phase_ok w req (Forwarding m ep target req') →
  ∃ w' p, step' w (mkFlight (Forwarding m ep target req') n) = (w', mkFlight p (S n)) ∧
    access_ok w id [Invoked id ep0 req] [] w' (mkFlight p (S n)).
Proof.
  intros Hw Hcall Hhop ([s Hs] & -> & ->). destruct (proj1 (proj1 Hw) _ _ Hs) as (_ & _ & _ & Htok & _).
  destruct (get_transport_connected connects (sl_pool s) (endpoint o) Hconn) as (p & Hp & Hpt).
  eexists _, _. split.
  { cbn. unfold forward_step. rewrite Hs, bool_decide_false, Hp by lia. done. }
  apply access_pool; try done. intros Hk. cbn. split_and!; [|apply Hk, (proj2 (proj1 Hw))|by right].
  unfold authorized_request in *. by rewrite Hpt.
Qed.

(** The owner's checks before it looks around. *)
Lemma check_access w id ep0 req n req' p :
  cluster_ok w → is_call req → hop_count req < MAX_HOPS → routed req req' →
  p = CrossCheck (endpoint o) req' ∨ p = LocalCheck (endpoint o) req' ∨ p = LookupStart (endpoint o) req' →
  ∃ p', step' w (mkFlight p n) = (w, mkFlight p' n) ∧
    access_ok w id [Invoked id ep0 req] [] w (mkFlight p' n).
Proof.
  intros Hw Hcall Hhop Hrt Hp. destruct (owner_silo w Hw) as (so & Hso & Hx & Hr & Hid).
  destruct Hp as [->|[->| ->]]; eexists.
  - split; [cbn; unfold cross_step, at_silo; rewrite Hso; unfold cross_verdict; rewrite Hx; done|].
    by apply access_still.
  - split; [cbn; unfold local_step, at_silo; rewrite Hso; done|].
    apply access_still; try done. by destruct (already_local _ _).
  - split; [cbn; unfold lookup_start_step, at_silo; rewrite Hso; done|].
    apply access_still; try done. split_and!; [done|done|].
    intros m Hm. rewrite Harr in Hm. apply list_elem_of_fmap in Hm as (m' & -> & Hm).
    apply list_elem_of_filter in Hm as [Hm1 Hm2]. rewrite Hr in Hm2.
    intros He. apply Hm1. rewrite Hid. by apply Hends.
Qed.

Lemma lookup_access w id ep0 req n req' ms :
  cluster_ok w → is_call req → hop_count req < MAX_HOPS →
  phase_ok w req (LookingUp (endpoint o) req' ms) →
  ∃ w' p, step' w (mkFlight (LookingUp (endpoint o) req' ms) n) = (w', mkFlight p n) ∧
    access_ok w id [Invoked id ep0 req] [] w' (mkFlight p n).
Proof.
  intros Hw Hcall Hhop (_ & Hrt & Hms). destruct (owner_silo w Hw) as (so & Hso & _).
  destruct (is_call_names _ (is_call_routed _ _ Hcall Hrt)) as (Hgt & Hgk & _).
  destruct ms as [|m ms].
  - eexists _, _. split; [cbn; unfold lookup_step, at_silo; rewrite Hso; done|]. by apply access_still.
  - destruct (lookup_at_inactive connects w tn gk (sl_pool so) m) as [H1 H2].
    { intros s Hs. destruct (proj1 (proj1 Hw) _ _ Hs) as (_ & _ & _ & _ & _ & Hact).
      apply Hact, Hms. apply list_elem_of_here. }
    destruct (lookup_at connects w tn gk (sl_pool so) m) as [q hit] eqn:E. cbn [fst snd] in *. subst hit.
    eexists _, _. split; [cbn; unfold lookup_step, at_silo; rewrite Hso, Hgt, Hgk, E; done|].
    apply access_pool; try done. intros _. split_and!; [done|done|]. intros m' Hm'. by apply Hms, list_elem_of_further.
Qed.

(** One access of a call on its way. *)
Lemma access_tracks w id f h ha w' f' :
  cluster_ok w → tracks w id (Travelling f) h ha → ¬ completed f → ¬ dispatching f → step' w f = (w', f') →
  access_ok w id h ha w' f'.
Proof.
  intros Hw Ht Hnc Hnd Hs.
  inversion Ht as [f1 ep0 req Hcall Hhop Hp| |m ep0 req req' i ctx msg h1 res Hrt Hg Hf]; subst.
  2:{ destruct m as [|m]; [exfalso; apply Hnc; split; [done|by eexists]|].
      cbn in Hs. injection Hs as <- <-. split_and!; [apply silos_kept_refl|done|done|]. by eapply tr_answered. }
  destruct f as [p n]. cbn [fl_phase] in Hp.
  assert (∀ a b, step' w (mkFlight p n) = (a, b) → access_ok w id [Invoked id ep0 req] [] a b →
    access_ok w id [Invoked id ep0 req] [] w' f') as Hfin.
  { intros a b Hab. rewrite Hab in Hs. by injection Hs as <- <-. }
  destruct p as [ep md req'|m ep target req'|ep req'|ep req' ? ?|ep req'|ep req'|ep req' ms|ep req'|out].
  - edestruct arrive_access as (p & H1 & H2); eauto.
  - edestruct forward_access as (w1 & p & H1 & H2); eauto.
  - destruct Hp as [-> Hrt]. edestruct check_access as (p & H1 & H2); [done|exact Hcall|done|done|by left|]. eauto.
  - done.
  - destruct Hp as [-> Hrt]. edestruct check_access as (p & H1 & H2); [done|exact Hcall|done|done|by right; left|]. eauto.
  - destruct Hp as [-> Hrt]. edestruct check_access as (p & H1 & H2); [done|exact Hcall|done|done|by right; right|]. eauto.
  - pose proof (proj1 Hp) as ->. edestruct lookup_access as (w1 & p & H1 & H2); eauto.
  - exfalso. by apply Hnd.
  - done.
Qed.

(** ** Runs *)

(** The asks at the owner after a history, [P] if they started on a calm silo. *)
Definition owner_ok (st0 : State) (P : Prop) (es : list AskEvent') (w : World) (a : Asks') : Prop :=
  ∃ rt st, owner_runtime w = Some rt ∧ silo_inv' rt a ∧ asks_ok' rt a es ∧
    actor_run' st0 (effects Msg Res es) st ∧ actor_state' rt a st ∧
    (P → Stopped ∉ es → calm' rt a ∧ ∀ id i, Finished id i (Err MailboxClosed) ∉ es).

Record run_ok (st0 : State) (P : Prop) (es : list Event) (c : Cluster) : Prop := {
  ro_cluster : cluster_ok (cl_world c);
  ro_owner : owner_ok st0 P (asks_of es) (cl_world c) (cl_asks c);
  ro_calls : ∀ id, call_ok (cl_world c) (cl_next c) id (cl_calls c !! id) (history id es) (ask_events (inl id) (asks_of es)) }.

Lemma asks_of_app es es' : asks_of (es ++ es') = asks_of es ++ asks_of es'.
Proof. apply omap_app. Qed.
Lemma asks_of_asked (es : list AskEvent') : asks_of (Asked <$> es) = es.
Proof. unfold asks_of. induction es as [|e es IH]; [done|]. cbn. by f_equal. Qed.
Lemma history_asked id (es : list AskEvent') : history id (Asked <$> es) = Asked <$> ask_events (inl id : Id) es.
Proof.
  induction es as [|e es IH]; [done|]. rewrite fmap_cons, !filter_cons. cbn [of_call].
  case_decide; [rewrite fmap_cons|]; by rewrite IH.
Qed.
Lemma effects_app (es es' : list AskEvent') : effects Msg Res (es ++ es') = effects Msg Res es ++ effects Msg Res es'.
Proof. apply omap_app. Qed.

Lemma owner_ok_kept st0 P es w w' a : owner_ok st0 P es w a → owner_runtime w' = owner_runtime w → owner_ok st0 P es w' a.
Proof. intros (rt & st & Hrt & Hrest) Hw. exists rt, st. by rewrite Hw. Qed.

(** A step without events of the asks that concerns at most the call [id]. *)
Lemma run_ok_call st0 P es w a cs n es' w' id cs' n' :
  run_ok st0 P es (mkCluster w a cs n) → asks_of es' = [] → (∀ id', id' ≠ id → history id' es' = []) →
  silos_kept w w' → cluster_ok w' → owner_runtime w' = owner_runtime w →
  (∀ id', id' ≠ id → cs' !! id' = cs !! id') → (n' = n ∨ n' = S n ∧ id = n) →
  call_ok w' n' id (cs' !! id) (history id es ++ history id es') (ask_events (inl id : Id) (asks_of es)) →
  run_ok st0 P (es ++ es') (mkCluster w' a cs' n').
Proof.
  intros [Hc Ho Hcalls] Has Hother Hk Hw' Hrt Hcs Hn Hid. cbn [cl_world cl_asks cl_calls cl_next] in *.
  split; cbn [cl_world cl_asks cl_calls cl_next].
  - done.
  - rewrite asks_of_app, Has, app_nil_r. by eapply owner_ok_kept.
  - intros id'. rewrite asks_of_app, Has, app_nil_r, filter_app. destruct (decide (id' = id)) as [->|Hne]; [done|].
    rewrite Hother, app_nil_r, Hcs by done. pose proof (call_ok_kept _ _ _ _ _ _ _ Hk (Hcalls id')) as Hold.
    destruct (cs !! id'); cbn in *; destruct Hn as [->|[-> ?]]; try done.
    + destruct Hold. split; [lia|done].
    + destruct Hold as [(? & ? & ?)|[? ?]]; [left|right]; (split; [lia|done]).
Qed.

Lemma invoke_run_ok st0 P es w a cs n ep md req :
  run_ok st0 P es (mkCluster w a cs n) → is_Some (w_silos w !! ep) → check_auth auth md = Ok () → is_call req →
  hop_count req < MAX_HOPS →
  run_ok st0 P (es ++ [Invoked n ep req]) (mkCluster w a (<[n := Travelling (mkFlight (Arrived ep md req) 0)]> cs) (S n)).
Proof.
  intros Hok Hep Hmd Hcall Hhop. pose proof Hok as [Hc Ho Hcalls].
  eapply (run_ok_call _ _ _ _ _ _ _ _ _ n); [exact Hok|..]; try first [done|apply silos_kept_refl].
  - intros id' Hne. rewrite filter_cons_False; [done|]. cbn. by rewrite bool_decide_false.
  - intros id' Hne. by rewrite lookup_insert_ne.
  - by right.
  - rewrite lookup_insert_eq. split; [lia|]. specialize (Hcalls n). cbn [cl_calls cl_world cl_next] in Hcalls.
    destruct (cs !! n) as [c|]; [destruct Hcalls; lia|]. destruct Hcalls as [(_ & -> & ->)|[? _]]; [|lia].
    rewrite filter_cons_True by (cbn; by rewrite bool_decide_true). constructor; [done|done|]. by split_and!; [|done|left].
Qed.

Lemma access_run_ok st0 P es w a cs n id f w' f' :
  run_ok st0 P es (mkCluster w a cs n) → cs !! id = Some (Travelling f) → ¬ completed f → ¬ dispatching f →
  step' w f = (w', f') → run_ok st0 P (es ++ []) (mkCluster w' a (<[id := Travelling f']> cs) n).
Proof.
  intros Hok Hf Hnc Hnd Hs. pose proof Hok as [Hc Ho Hcalls]. specialize (Hcalls id). cbn [cl_calls cl_world cl_next] in *.
  rewrite Hf in Hcalls. destruct Hcalls as [Hlt Ht].
  destruct (access_tracks _ _ _ _ _ _ _ Hc Ht Hnc Hnd Hs) as (Hk & Hw' & Hrt & Ht').
  eapply (run_ok_call _ _ _ _ _ _ _ _ _ id); [exact Hok|..]; try first [done|apply silos_kept_refl].
  - intros id' Hne. by rewrite lookup_insert_ne.
  - by left.
  - rewrite lookup_insert_eq, app_nil_r. done.
Qed.

Lemma return_run_ok st0 P es w a cs n id out :
  run_ok st0 P es (mkCluster w a cs n) → cs !! id = Some (Travelling (mkFlight (Answered out) 0)) →
  run_ok st0 P (es ++ [Returned id out]) (mkCluster w a (delete id cs) n).
Proof.
  intros Hok Hf. pose proof Hok as [Hc Ho Hcalls]. specialize (Hcalls id). cbn [cl_calls cl_world cl_next] in *.
  rewrite Hf in Hcalls. destruct Hcalls as [Hlt Ht].
  eapply (run_ok_call _ _ _ _ _ _ _ _ _ id); [exact Hok|..]; try first [done|apply silos_kept_refl].
  - intros id' Hne. rewrite filter_cons_False; [done|]. cbn. by rewrite bool_decide_false.
  - intros id' Hne. by rewrite lookup_delete_ne.
  - by left.
  - rewrite lookup_delete_eq, filter_cons_True by (cbn; by rewrite bool_decide_true).
    inversion Ht as [? ? ? _ _ Hp| |m ep req req' i ctx msg h1 res Hrt Hg Hf' Heq1 Hh Hha]; [by destruct Hp|]. subst.
    right. split; [done|]. exists ep, req, req', i, ctx, msg, h1, res, []. split_and!; try done. by rewrite app_nil_r.
Qed.

Lemma answer_run_ok st0 P es w a cs n id m encoding resp :
  run_ok st0 P es (mkCluster w a cs n) → cs !! id = Some (Asking m encoding) → call_answer a id encoding = Some resp →
  run_ok st0 P (es ++ []) (mkCluster w a (<[id := Travelling (mkFlight (Answered (Ok resp)) m)]> cs) n).
Proof.
  intros Hok Hf Ha. pose proof Hok as [Hc Ho Hcalls]. specialize (Hcalls id). cbn [cl_calls cl_world cl_next] in *.
  rewrite Hf in Hcalls. destruct Hcalls as [Hlt Ht].
  eapply (run_ok_call _ _ _ _ _ _ _ _ _ id); [exact Hok|..]; try first [done|apply silos_kept_refl].
  - intros id' Hne. by rewrite lookup_insert_ne.
  - by left.
  - rewrite lookup_insert_eq, app_nil_r. split; [done|].
    unfold call_answer in Ha. destruct (ak_asks a !! inl id) as [x|] eqn:Hx; [|done]. cbn in Ha.
    destruct (as_progress x) as [| | |res] eqn:Ep; try done. injection Ha as <-.
    destruct Ho as (rt & st & _ & _ & Hasks & _). destruct (tracked_ask _ _ _ _ _ _ _ _ _ _ _ _ _ Hasks Hx) as (h' & Hh & _ & Hpr).
    rewrite Ep in Hpr. apply settled_finished in Hpr.
    inversion Ht as [|m' ep req req' i ctx msg h1 Hrt Hg Heq1 Hh1 Hha|]. subst. rewrite <- Hha in Hh.
    destruct x as [i' ctx' msg' p]. cbn [as_i as_progress as_ctx as_msg] in *.
    assert (i' = i ∧ h' = h1) as [-> ->] by (injection Hh; auto). by eapply tr_answered.
Qed.

(** The owner's part of a step of the asks. *)
Lemma owner_ok_step st0 P es w a so rt' a' es' :
  owner_ok st0 P es w a → w_silos w !! endpoint o = Some so → ask_step' (sl_runtime so, a) es' (rt', a') →
  owner_ok st0 P (es ++ es') (set_silo w (endpoint o) (with_runtime so rt')) a' ∧ asks_ok' rt' a' (es ++ es') ∧ silo_inv' rt' a'.
Proof.
  intros (rt & st & Hrt & Hsi & Hasks & Hrun & Hst & Hcalm) Hso Hs. unfold owner_runtime in Hrt. rewrite Hso in Hrt.
  injection Hrt as <-.
  destruct (ask_step_ok Msg Res gt gk nm initial handle index Hindex _ _ _ _ _ _ _ Hsi Hasks Hst Hs)
    as (st' & Hrun' & Hst' & Hsi' & Hasks'). split; [|done].
  exists rt', st'. split_and!; [|done|done| |done|].
  - unfold owner_runtime. cbn. by rewrite lookup_insert_eq.
  - rewrite effects_app. by eapply actor_run_app.
  - intros HP Hno. rewrite not_elem_of_app in Hno. destruct Hno as [Hno1 Hno2]. destruct (Hcalm HP Hno1) as [Hc Hf].
    destruct (calm_step Msg Res gt gk nm initial handle index _ _ _ _ _ _ Hsi Hasks Hc Hs Hno2) as [Hc' Hf'].
    split; [done|]. intros id i. rewrite not_elem_of_app. auto.
Qed.

(** Such a step, seen from the calls: only a dispatch begins the ask of a call. *)
Lemma asks_begin rt a es es' id :
  asks_ok' rt a (es ++ es') → Forall local_begin es' → ask_events (inl id : Id) es = [] → ask_events (inl id : Id) es' = [].
Proof.
  intros Hok Hl Hnone. specialize (Hok (inl id)). rewrite filter_app, Hnone in Hok. cbn in Hok.
  destruct (ak_asks a !! inl id) as [x|]; [|done]. destruct Hok as (h & Hh & _).
  assert (Begun (inl id) (as_i x) (as_ctx _ _ x) (as_msg _ _ x) ∈ es') as Hin.
  { eapply list_elem_of_filter. rewrite Hh. by left. }
  by apply (proj1 (Forall_forall _ _) Hl) in Hin.
Qed.

Lemma ask_run_ok st0 P es w a cs n so rt' a' es' :
  run_ok st0 P es (mkCluster w a cs n) → w_silos w !! endpoint o = Some so → ask_step' (sl_runtime so, a) es' (rt', a') →
  Forall local_begin es' →
  run_ok st0 P (es ++ (Asked <$> es')) (mkCluster (set_silo w (endpoint o) (with_runtime so rt')) a' cs n).
Proof.
  intros [Hc Ho Hcalls] Hso Hs Hl. cbn [cl_world cl_asks cl_calls cl_next] in *.
  destruct (owner_ok_step _ _ _ _ _ _ _ _ _ Ho Hso Hs) as (Ho' & Hasks & Hsi). split; cbn [cl_world cl_asks cl_calls cl_next].
  - destruct Hc as [Hc Hd]. split.
    + apply converged_set; [done|]. destruct (proj1 Hc _ _ Hso) as (H1 & H2 & H3 & H4 & H5 & _). by split_and!.
    + apply map_Forall_insert_2; [|done]. destruct (Hd _ _ Hso) as (_ & _ & Hwf). destruct Hsi as [Hci Hin _ _ _].
      split_and!; [exact (ci_dir _ Hci)|done|done].
  - by rewrite asks_of_app, asks_of_asked.
  - intros id. rewrite asks_of_app, asks_of_asked, !filter_app, history_asked.
    eapply call_ok_asked; [apply silos_kept_set|apply Hcalls|]. by eapply asks_begin.
Qed.

Lemma dispatch_run_ok st0 P es w a cs n id ep req m e a' :
  run_ok st0 P es (mkCluster w a cs n) → cs !! id = Some (Travelling (mkFlight (Dispatching ep req) m)) →
  dispatch_begin a id req = Some (e, a') →
  run_ok st0 P (es ++ [Asked e]) (mkCluster w a' (<[id := Asking m (Encoding_from_proto (iv_encoding req))]> cs) n).
Proof.
  intros [Hc Ho Hcalls] Hf Hd. cbn [cl_world cl_asks cl_calls cl_next] in *. pose proof (Hcalls id) as Hid. rewrite Hf in Hid.
  destruct Hid as [Hlt Ht]. inversion Ht as [f ep0 req0 Hcall Hhop Hp Heq1 Hh Hha| |]. subst. destruct Hp as [-> Hrt].
  destruct (is_call_routed _ _ Hcall Hrt) as (i & ctx & msg & Hg).
  destruct (dispatch_begins a id i ctx msg req Hg) as [Hb Henc]. rewrite Hb in Hd. injection Hd as <- <-. rewrite Henc.
  destruct (proj2 (proj1 Hc)) as [so Hso].
  assert (ak_asks a !! inl id = None) as Hnone.
  { destruct Ho as (rt & st & _ & _ & Hasks & _). specialize (Hasks (inl id)). destruct (ak_asks a !! inl id) as [x|]; [|done].
    destruct Hasks as (h & Hh' & _). rewrite <- Hha in Hh'. done. }
  assert (is_in_call_chain ctx (mkGrainId tn "") = false) as Hch by (by destruct Hg as (? & _ & _ & _ & ?)).
  destruct (owner_ok_step _ _ _ _ _ so _ _ _ Ho Hso (ak_begin Msg Res gt gk nm initial handle index _ a (inl id) i ctx msg Hnone Hch)) as (Ho' & _).
  split; cbn [cl_world cl_asks cl_calls cl_next].
  - done.
  - rewrite asks_of_app. cbn. eapply owner_ok_kept; [exact Ho'|]. unfold owner_runtime. cbn. by rewrite lookup_insert_eq, Hso.
  - intros id'. rewrite asks_of_app, !filter_app. cbn [asks_of omap list_omap].
    change [Asked (Begun (inl id) i ctx msg)] with (Asked <$> [Begun (inl id) i ctx msg]). rewrite history_asked.
    destruct (decide (id' = id)) as [->|Hne].
    + rewrite lookup_insert_eq, <- Hh, <- Hha, events_own by (by apply bool_decide_true). split; [done|].
      by eapply (tr_asking _ _ _ _ _ _ _ _ _ []).
    + rewrite lookup_insert_ne, events_other by (try apply bool_decide_false; congruence). cbn. rewrite !app_nil_r. apply Hcalls.
Qed.

Lemma other_run_ok st0 P es w a cs n ep s rt :
  run_ok st0 P es (mkCluster w a cs n) → w_silos w !! ep = Some s → ep ≠ endpoint o →
  other_grain_step gt gk (sl_runtime s) rt →
  run_ok st0 P (es ++ []) (mkCluster (set_silo w ep (with_runtime s rt)) a cs n).
Proof.
  intros Hok Hs Hne Hstep. pose proof Hok as [[Hc Hd] _ Hcalls]. cbn [cl_world cl_calls cl_next] in *.
  destruct (Hd _ _ Hs) as (Hdi & Hin & Hwf).
  destruct (other_grain_frame Msg Res gt gk nm index Hindex _ _ Hdi Hin Hstep) as (Hdi' & Hin' & Hl & _).
  eapply (run_ok_call _ _ _ _ _ _ _ _ _ n); [exact Hok|done|done|apply silos_kept_set| | |done|by left|].
  - split; [|by apply map_Forall_insert_2]. apply converged_set; [done|].
    destruct (proj1 Hc _ _ Hs) as (H1 & H2 & H3 & H4 & H5 & H6). split_and!; try done. intros _. specialize (H6 Hne).
    rewrite active_at_live in H6 |- * by done. cbn [sl_runtime sl_registry with_runtime]. by rewrite Hl.
  - unfold owner_runtime. cbn. by rewrite lookup_insert_ne.
  - rewrite app_nil_r. eapply call_ok_kept; [apply silos_kept_set|apply Hcalls].
Qed.

Lemma step_run_ok st0 P es c es' c' : run_ok st0 P es c → live_step c es' c' → run_ok st0 P (es ++ es') c'.
Proof.
  intros Hok Hs. destruct Hs.
  - by apply invoke_run_ok.
  - by eapply access_run_ok.
  - by eapply dispatch_run_ok.
  - by eapply ask_run_ok.
  - by eapply answer_run_ok.
  - by apply return_run_ok.
  - by eapply other_run_ok.
Qed.

(** A cluster that serves the grain in state [st], before any call. *)
Record serves (w : World) (a : Asks') (st : State) : Prop := {
  sv_cluster : cluster_ok w;
  sv_owner : ∃ rt, owner_runtime w = Some rt ∧ silo_inv' rt a ∧ actor_state' rt a st;
  sv_asks : ak_asks a = ∅ }.
(** The owner accepts activations, and no mailbox of the grain is being torn down. *)
Definition owner_calm (w : World) (a : Asks') : Prop := ∃ rt, owner_runtime w = Some rt ∧ calm' rt a.

Lemma live_run_ok w a st es c : serves w a st → live_run (mkCluster w a ∅ 0) es c → run_ok st (owner_calm w a) es c.
Proof.
  intros [Hw (rt & Hrt & Hsi & Hst) Ha] Hrun. remember (mkCluster w a ∅ 0) as c0 eqn:E.
  induction Hrun as [c|c es c' es' c'' _ IH Hs]; [|by eapply step_run_ok; eauto]. subst c. split; cbn.
  - done.
  - exists rt, st. split_and!; try done.
    + intros id. by rewrite Ha, lookup_empty.
    + constructor.
    + intros (rt' & Hrt' & Hcalm) _. assert (rt' = rt) as -> by congruence. split; [done|]. intros ? ?. apply not_elem_of_nil.
  - intros id. rewrite lookup_empty. left. split_and!; [lia|done|done].
Qed.

Lemma run_ok_history st0 P es c id : run_ok st0 P es c → call_history id (history id es).
Proof.
  intros [_ (rt & st & _ & _ & Hasks & _) Hcalls]. pose proof (asks_ok_history _ _ _ _ _ _ _ _ _ _ _ (inl id : Id) Hasks) as Hh.
  specialize (Hcalls id). destruct (cl_calls c !! id) as [c0|].
  - destruct Hcalls as [_ Ht]. clear Hasks. revert Ht Hh. generalize (history id es) (ask_events (inl id : Id) (asks_of es)).
    intros h ha Ht Hh. destruct Ht; [constructor|by eapply ch_asking..].
  - destruct Hcalls as [(_ & -> & _)|[_ Hr]]; [constructor|].
    destruct Hr as (ep & req & req' & i & ctx & msg & h1 & res & h2 & Hr & Hg & Hf & Hha & ->). rewrite Hha in Hh.
    by eapply ch_returned.
Qed.

(** C2: concurrent calls are linearizable.  In a converged cluster whose members answer every lookup, calls for a grain arrive
    at any silos at any time, and their accesses interleave in any order: with each other, with asks through local references,
    with mailboxes of the grain that stop, remove their entry and drop their receiver, and with other grains.  The turns of
    the grain's mailboxes, in the order in which they happened and with the stops of mailboxes in between, are a run of
    one sequential actor that starts anew after a stop, and the actor's state is the one the running mailbox holds.  The history
    of every single call is a beginning of: invoked, asked once, returned with the result of the ask; if that is a result
    of the handler, the message was handled exactly once, between the two, and it is the result of that turn; if it
    is [MailboxClosed] the message is never handled; if it is a timeout, at most once.  Asks through local references have the same
    histories.  And on an owner that is not draining and has no activation limit, no ask fails with [MailboxClosed] unless a mailbox
    of the grain has stopped. *)
Theorem calls_linearize w a st es c :
  serves w a st → live_run (mkCluster w a ∅ 0) es c →
  (∃ st' rt', actor_run' st (effects Msg Res (asks_of es)) st' ∧
     owner_runtime (cl_world c) = Some rt' ∧ actor_state' rt' (cl_asks c) st') ∧
  (∀ id, call_history id (history id es)) ∧
  (∀ n, ask_history' (inr n) (ask_events (inr n : Id) (asks_of es))) ∧
  (owner_calm w a → Stopped ∉ asks_of es → ∀ id i, Finished id i (Err MailboxClosed) ∉ asks_of es).
Proof.
  intros Hsv Hrun. pose proof (live_run_ok w a st es c Hsv Hrun) as Hok.
  pose proof Hok as [_ (rt & st' & Hrt & _ & Hasks & Hact & Hst & Hcalm) _]. split_and!.
  - by exists st', rt.
  - intros id. by eapply run_ok_history.
  - intros n. by eapply asks_ok_history.
  - intros Hc Hno. by apply (Hcalm Hc Hno).
Qed.

(** ** Playing a schedule *)
Inductive Action :=
| Arrive (ep : string) (md : Metadata) (req : InvokeRequest)
| Access (id : nat)        (** the next access of a call, on its way or at the owner *)
| Expire (id : nat)        (** its ask times out *)
| Turn (s : Sender)        (** a mailbox of the grain handles a message *)
| Stop (s : Sender)        (** a mailbox of the grain leaves its loop *)
| Teardown (s : Sender)    (** a stopped mailbox removes its entry, or drops its receiver *)
| Return (id : nat).

Definition tear_down (rt : Runtime) (a : Asks') (s : Sender) : option (Runtime * Asks') :=
  let to rt p := Some (rt, mkAsks (ak_others _ _ a) (<[s := (g, p)]> (ak_mail a)) (ak_handled _ _ a) (ak_sent _ _ a) (ak_asks a)) in
  match ak_mail a !! s with
  | Some (g', MStopping) => if bool_decide (g' = g) then to (GrainDirectory_activator_remove rt g) MRemoved else None
  | Some (g', MRemoved) => if bool_decide (g' = g) then to (end_task false rt s) MEnded else None
  | _ => None
  end.

(** A step of the asks on the owner's runtime. *)
Definition at_owner (c : Cluster) (k : Runtime → Asks' → option (Runtime * Asks' * list AskEvent')) : option (list Event * Cluster) :=
  match w_silos (cl_world c) !! endpoint o with
  | None => None
  | Some so =>
      match k (sl_runtime so) (cl_asks c) with
      | None => None
      | Some (rt, a, es) =>
          Some (Asked <$> es, mkCluster (set_silo (cl_world c) (endpoint o) (with_runtime so rt)) a (cl_calls c) (cl_next c))
      end
  end.
Abbreviation advance' := (advance Msg Res gt gk nm initial handle index (K := Id)).

Definition play_access (c : Cluster) (id : nat) : option (list Event * Cluster) :=
  let '(mkCluster w a cs n) := c in
  match cs !! id with
  | Some (Travelling f) =>
      match f with
      | mkFlight (Dispatching _ req) m =>
          '(e, a) ← dispatch_begin a id req;
          Some ([Asked e], mkCluster w a (<[id := Asking m (Encoding_from_proto (iv_encoding req))]> cs) n)
      | _ =>
          if decide (completed f) then None
          else let '(w', f') := step' w f in Some ([], mkCluster w' a (<[id := Travelling f']> cs) n)
      end
  | Some (Asking m encoding) =>
      match call_answer a id encoding with
      | Some resp => Some ([], mkCluster w a (<[id := Travelling (mkFlight (Answered (Ok resp)) m)]> cs) n)
      | None => at_owner c (λ rt a, advance' rt a (inl id))
      end
  | None => None
  end.

Definition play_one (c : Cluster) (act : Action) : option (list Event * Cluster) :=
  match act with
  | Arrive ep md req =>
      let '(mkCluster w a cs n) := c in
      Some ([Invoked n ep req], mkCluster w a (<[n := Travelling (mkFlight (Arrived ep md req) 0)]> cs) (S n))
  | Access id => play_access c id
  | Expire id => at_owner c (λ rt a, '(a, es) ← time_out Msg Res gt a (inl id); Some (rt, a, es))
  | Turn s => at_owner c (λ rt a, '(a, es) ← mailbox_turn Msg Res gt gk initial handle index rt a s; Some (rt, a, es))
  | Stop s => at_owner c (λ rt a, '(a, es) ← mailbox_stop Msg Res gt gk a s; Some (rt, a, es))
  | Teardown s => at_owner c (λ rt a, '(rt, a) ← tear_down rt a s; Some (rt, a, []))
  | Return id =>
      let '(mkCluster w a cs n) := c in
      match cs !! id with
      | Some (Travelling (mkFlight (Answered out) O)) => Some ([Returned id out], mkCluster w a (delete id cs) n)
      | _ => None
      end
  end.

Fixpoint play (c : Cluster) (acts : list Action) : option (list Event * Cluster) :=
  match acts with
  | [] => Some ([], c)
  | a :: acts => '(es, c) ← play_one c a; '(es', c) ← play c acts; Some (es ++ es', c)
  end.

(** An arrival that may happen in a world with these silos. *)
Definition arrival_ok (eps : list string) (a : Action) : Prop :=
  match a with
  | Arrive ep md req => ep ∈ eps ∧ check_auth auth md = Ok () ∧ is_call req ∧ hop_count req < MAX_HOPS
  | _ => True
  end.

Lemma flight_step_kept w f : silos_kept w (step' w f).1.
Proof.
  destruct f as [p n]. unfold flight_step, arrive_step, forward_step, cross_step, claim_step, local_step, lookup_start_step,
    lookup_step, dispatch_step, at_silo, cross_verdict, forward_to_cluster.
  intros ep Hep. repeat (case_match; simplify_eq/=); rewrite ?lookup_insert; repeat case_decide; try done; eauto.
Qed.

Lemma live_run_cons c es c' es' c'' : live_step c es c' → live_run c' es' c'' → live_run c (es ++ es') c''.
Proof.
  intros Hs Hr. induction Hr as [c'|c' es1 c1 es2 c2 _ IH Hs2].
  - rewrite app_nil_r. rewrite <- (app_nil_l es). econstructor; [constructor|done].
  - rewrite app_assoc. econstructor; eauto.
Qed.

(** What [play] does on the owner is a step of the asks. *)
Lemma tear_down_step rt a s rt' a' : tear_down rt a s = Some (rt', a') → ask_step' (rt, a) [] (rt', a').
Proof.
  unfold tear_down. destruct (ak_mail a !! s) as [[g' []]|] eqn:Hm; try done; case_bool_decide as Hg; try done; subst g';
    intros [= <- <-]; destruct (activator_remove_inbox rt g) as (Hin & _ & _ & _ & Hmax).
  - apply ak_silo; [by eapply cs_remove|split|done].
    + intros s' p _. unfold inbox. by rewrite Hin.
    + intros s' Hs'. rewrite lookup_insert_ne; [done|congruence].
  - apply ak_silo; [by eapply cs_end|split|done].
    + done.
    + intros s' Hs'. rewrite lookup_insert_ne; [done|congruence].
Qed.

Lemma at_owner_step c k es c' :
  at_owner c k = Some (es, c') →
  (∀ rt a rt' a' es', k rt a = Some (rt', a', es') → ask_step' (rt, a) es' (rt', a') ∧ Forall local_begin es') →
  live_step c es c' ∧ silos_kept (cl_world c) (cl_world c').
Proof.
  unfold at_owner. intros H Hk. destruct c as [w a cs n]. cbn in H. destruct (w_silos w !! endpoint o) as [so|] eqn:Hso; [|done].
  cbn in H. destruct (k (sl_runtime so) a) as [[[rt a'] es']|] eqn:Ek; [|done]. injection H as <- <-.
  destruct (Hk _ _ _ _ _ Ek). split; [by eapply ls_ask|apply silos_kept_set].
Qed.

Lemma advance_local rt a id rt' a' es : advance' rt a id = Some (rt', a', es) → Forall local_begin es.
Proof.
  unfold advance. destruct (ak_asks a !! id) as [x|]; [|done].
  assert (∀ r : result GrainError (Res (as_i x)), Forall local_begin [Finished id (as_i x) r]) as Hf by (intros; by constructor).
  destruct (as_progress x) as [c|s|s pos|]; [destruct c| | |]; repeat case_match; intros; simplify_eq; auto.
Qed.

Lemma play_access_step c id es c' :
  play_access c id = Some (es, c') → live_step c es c' ∧ silos_kept (cl_world c) (cl_world c').
Proof.
  destruct c as [w a cs n]. cbn. destruct (cs !! id) as [[f|m enc]|] eqn:Hf; [| |done].
  - intros H. assert (¬ dispatching f → (if decide (completed f) then None
        else let '(w', f') := step' w f in Some ([] : list Event, mkCluster w' a (<[id := Travelling f']> cs) n)) = Some (es, c') →
      live_step (mkCluster w a cs n) es c' ∧ silos_kept w (cl_world c')) as Hacc.
    { intros Hnd H'. case_decide; [done|]. pose proof (flight_step_kept w f) as Hk. destruct (step' w f) as [w' f'] eqn:Hs.
      injection H' as <- <-. split; [by eapply ls_access|done]. }
    destruct f as [[] m]; try (apply Hacc; [intros []|exact H]).
    destruct (dispatch_begin a id req) as [[e a']|] eqn:Hd; [|done]. cbn in H. injection H as <- <-.
    split; [by eapply ls_dispatch|apply silos_kept_refl].
  - destruct (call_answer a id enc) as [resp|] eqn:Ha.
    + intros [= <- <-]. split; [by eapply ls_answer|apply silos_kept_refl].
    + intros H. eapply at_owner_step; [exact H|]. intros rt a1 rt' a2 es' Hadv.
      split; [exact (ak_advance _ _ _ _ _ _ _ _ _ _ _ _ _ _ Hadv)|exact (advance_local _ _ _ _ _ _ Hadv)].
Qed.

Lemma play_one_step eps c act es c' :
  arrival_ok eps act → Forall (λ ep, is_Some (w_silos (cl_world c) !! ep)) eps → play_one c act = Some (es, c') →
  live_step c es c' ∧ silos_kept (cl_world c) (cl_world c').
Proof.
  intros Ha Heps. destruct act as [ep md req|id|id|s|s|s|id]; cbn [play_one].
  - destruct c as [w a cs n]. intros [= <- <-]. destruct Ha as (Hin & Hmd & Hc & Hh).
    split; [|apply silos_kept_refl]. constructor; try done. by apply (proj1 (Forall_forall _ _) Heps).
  - apply play_access_step.
  - intros H. eapply at_owner_step; [exact H|]. intros rt a rt' a' es' E. cbv beta in E.
    destruct (time_out Msg Res gt a (inl id)) as [[a1 es1]|] eqn:Et; [|done]. cbn in E. injection E as <- <- <-.
    split; [by eapply ak_timeout|]. unfold time_out in Et. repeat case_match; simplify_eq. by repeat constructor.
  - intros H. eapply at_owner_step; [exact H|]. intros rt a rt' a' es' E. cbv beta in E.
    destruct (mailbox_turn Msg Res gt gk initial handle index rt a s) as [[a1 es1]|] eqn:Et; [|done]. cbn in E. injection E as <- <- <-.
    split; [by eapply ak_turn|]. apply turn_event in Et as (? & ? & ? & ? & ? & -> & _). by repeat constructor.
  - intros H. eapply at_owner_step; [exact H|]. intros rt a rt' a' es' E. cbv beta in E.
    destruct (mailbox_stop Msg Res gt gk a s) as [[a1 es1]|] eqn:Et; [|done]. cbn in E. injection E as <- <- <-.
    split; [by eapply ak_stop|]. unfold mailbox_stop in Et. repeat case_match; simplify_eq. by repeat constructor.
  - intros H. eapply at_owner_step; [exact H|]. intros rt a rt' a' es' E. cbv beta in E.
    destruct (tear_down rt a s) as [[rt1 a1]|] eqn:Et; [|done]. cbn in E. injection E as <- <- <-.
    split; [by eapply tear_down_step|constructor].
  - destruct c as [w a cs n]. destruct (cs !! id) as [[[[] []]|]|] eqn:Hf; try done. intros [= <- <-].
    split; [by constructor|apply silos_kept_refl].
Qed.

Lemma play_run eps acts c es c' :
  Forall (arrival_ok eps) acts → Forall (λ ep, is_Some (w_silos (cl_world c) !! ep)) eps →
  play c acts = Some (es, c') → live_run c es c'.
Proof.
  revert c es. induction acts as [|a acts IH]; intros c es Hok Heps; cbn.
  { intros [= <- <-]. constructor. }
  apply Forall_cons in Hok as [Ha Hok]. destruct (play_one c a) as [[es1 c1]|] eqn:E1; [|done]. cbn.
  destruct (play c1 acts) as [[es2 c2]|] eqn:E2; [|done]. cbn. intros [= <- <-].
  destruct (play_one_step _ _ _ _ _ Ha Heps E1) as [Hs Hk].
  eapply live_run_cons; [exact Hs|]. apply IH; [done| |done]. eapply Forall_impl; [exact Heps|]. intros ep. apply Hk.
Qed.
End linearizable.

(** ** Calls of the counter around a stop of its mailbox *)
Abbreviation counter_play :=
  (play CounterMsg (λ _, nat) counter_type "k" counter_nm 0%nat counter_handle counter_index
     (λ _, true) (λ _, true) all_answer (λ _, "remote status") (StatusOther "no answer") 0 no_display counter_owner).
Abbreviation CounterEvent := (Event CounterMsg (λ _, nat)).
Definition add_request (n : nat) : InvokeRequest :=
  remote_request (counter_nm true) "Counter" "k" (repeat Byte.x01 n) ∅.
Definition counter_start : Cluster CounterMsg (λ _, nat) :=
  mkCluster _ _ counter_world (mkAsks [] ∅ ∅ ∅ ∅) ∅ 0.
(** Silo B is called to add 2 and silo A, the owner, to add 3.  The two take turns until both are dispatched and have the
    sender of one mailbox.  Call 1 sends its message, which is handled; then the mailbox stops and is torn down, so call 0
    finds it closed.  A third call, through B, adds 4 to a new activation. *)
Definition around_a_stop : list Action :=
  [Arrive (endpoint silo_b) None (add_request 2); Arrive (endpoint silo_a) None (add_request 3)] ++
  concat (replicate 11 [Access 0; Access 1]) ++
  [Access 1; Access 0; Access 1; Access 0; Access 0; Turn 0; Access 1; Access 1; Return 1;
   Stop 0; Teardown 0; Teardown 0; Access 0; Access 0; Access 0; Return 0; Arrive (endpoint silo_b) None (add_request 4)] ++
  replicate 15 (Access 2) ++ [Turn 1; Access 2; Access 2; Access 2; Return 2].

(** What the calls returned: a result, or an error. *)
Definition answers (es : list CounterEvent) : list (nat * option nat) :=
  omap (λ e, match e with
             | Returned _ _ id (Ok resp) => Some (id, if bool_decide (rs_error resp = "") then Some (length (rs_payload resp)) else None)
             | Returned _ _ id (Err _) => Some (id, None)
             | _ => None
             end) es.
Definition played (o : option (list CounterEvent * Cluster CounterMsg (λ _, nat))) : option (list (nat * option nat)) :=
  '(es, _) ← o; Some (answers es).

Lemma played_Some o l : played o = Some l → ∃ es c, o = Some (es, c) ∧ answers es = l.
Proof. unfold played. destruct o as [[es c]|]; [|done]. cbn. intros [= <-]. eauto. Qed.

Lemma add_request_call n :
  (n ≤ 100)%nat →
  is_call CounterMsg (λ _, nat) counter_type "k" counter_nm (add_request n).
Proof.
  intros Hn. exists true, RequestContext_new, n, (repeat Byte.x01 n). split_and!; [done| | |done].
  - cbn. unfold dec_nat. by rewrite repeat_length.
  - rewrite repeat_length. unfold MAX_PAYLOAD_SIZE. lia.
Qed.

Lemma counter_serves :
  serves CounterMsg (λ _, nat) counter_type "k" 0%nat counter_handle counter_index (λ _, true) ring_ab None counter_owner
    counter_world (mkAsks [] ∅ ∅ ∅ ∅) 0%nat.
Proof.
  destruct counter_world_implements as [Hc Hd _]. split; [done| |done].
  exists Runtime_new. split; [vm_compute; reflexivity|]. split; [split|split].
  - exact conc_inv_initial.
  - intros s [? Hs]. cbn in Hs. by rewrite lookup_empty in Hs.
  - intros s. unfold handled. cbn. rewrite lookup_empty. cbn. lia.
  - intros id s k Hs. unfold sent_by in Hs. cbn in Hs. by rewrite lookup_empty in Hs.
  - intros id s k s' k' Hs. unfold sent_by in Hs. cbn in Hs. by rewrite lookup_empty in Hs.
  - intros s Hs. cbn in Hs. by rewrite lookup_empty in Hs.
  - done.
Qed.

Lemma calls_linearize_witness :
  ∃ es c, counter_play counter_start around_a_stop = Some (es, c) ∧
    answers es = [(1%nat, Some 3%nat); (0%nat, None); (2%nat, Some 4%nat)] ∧
    (∃ st' rt', counter_actor 0%nat (effects CounterMsg (λ _, nat) (asks_of _ _ es)) st' ∧
       owner_runtime counter_owner (cl_world _ _ c) = Some rt' ∧
       actor_state CounterMsg (λ _, nat) counter_type "k" 0%nat counter_handle counter_index rt' (cl_asks _ _ c) st') ∧
    ∀ id, call_history CounterMsg (λ _, nat) counter_type "k" counter_nm no_display id
            (filter (λ e, of_call CounterMsg (λ _, nat) id e = true) es).
Proof.
  destruct (played_Some (counter_play counter_start around_a_stop) [(1%nat, Some 3%nat); (0%nat, None); (2%nat, Some 4%nat)])
    as (es & c & E & Hans); [vm_compute; reflexivity|].
  exists es, c. split; [exact E|]. split; [exact Hans|].
  destruct (calls_linearize CounterMsg (λ _, nat) counter_type "k" counter_nm 0%nat counter_handle counter_index
           ltac:(intros []; reflexivity) (λ _, true) (λ _, true) all_answer (λ _, "remote status")
           (StatusOther "no answer") 0 (λ _, eq_refl) (λ l, Permutation_refl (all_answer l)) no_display
           ring_ab None counter_owner ltac:(vm_compute; reflexivity)
           ltac:(intros m Hm; apply list_elem_of_In in Hm; vm_compute in Hm; destruct Hm as [<-|[<-|[]]]; vm_compute; done)
           counter_world (mkAsks [] ∅ ∅ ∅ ∅) 0%nat es c counter_serves) as (Hact & Hcalls & _).
  - eapply (play_run CounterMsg (λ _, nat) counter_type "k" counter_nm) with (eps := [endpoint silo_b; endpoint silo_a])
      (acts := around_a_stop); [| |exact E].
    + repeat (apply Forall_cons; split; [first [exact I|split_and!; [first [by left|by right; left]|reflexivity|apply add_request_call; lia|reflexivity]]|]).
      by apply Forall_nil.
    + repeat (apply Forall_cons; split; [by eexists|]). by apply Forall_nil.
  - split; [exact Hact|exact Hcalls].
Defined.
