(* ===== verification/Examples.v ===== *)
(** * Applications

    Example applications of the repository, as clients of the models: an event-sourced ledger
    ([event_sourcing.rs]), a transactional account ([transactional_grain.rs]), a profile whose schema
    changed twice ([versioned_grain.rs]) and a chat room with grain-to-grain calls ([chat_room.rs]).  What the
    library promises becomes what the application may rely on.

    Arithmetic is that of release builds, which wraps. *)
From S2P Require Import Prelude CoreTypes Mailbox Calls Store PersistentMailbox Journal Transaction.

(** ** The ledger *)
Inductive LedgerEvent := Credited (a : Z) | Debited (a : Z).

Record LedgerState := mkLedger { lg_balance : Z; lg_event_count : Z }.

(** [<Ledger as JournaledGrain>::apply] *)
Definition Ledger_apply (state : LedgerState) (event : LedgerEvent) : LedgerState :=
  mkLedger
    (match event with
     | Credited a => as_i64 (lg_balance state + a)
     | Debited a => as_i64 (lg_balance state - a)
     end)
    (u64_add (lg_event_count state) 1).
Definition Ledger_snapshot_interval : Z := 100.

Definition Ledger : Grain LedgerState := {|
  grain_default := mkLedger 0 0;
  on_activate := λ s, (s, FutOk);
  on_deactivate := λ s, (s, FutOk) |}.

(** The messages and what their handlers answer. *)
Inductive LedgerMsg := Credit (a : Z) | Debit (a : Z) | Balance.
Inductive LedgerReply := NewBalance (b : Z) | BalanceAndCount (b n : Z).
Definition Ledger_handle (msg : LedgerMsg) (state : LedgerState) : LedgerReply * list LedgerEvent :=
  match msg with
  | Credit a => (NewBalance (as_i64 (lg_balance state + a)), [Credited a])
  | Debit a => (NewBalance (as_i64 (lg_balance state - a)), [Debited a])
  | Balance => (BalanceAndCount (lg_balance state) (lg_event_count state), [])
  end.

(** The account one would keep on paper: the sum of what was credited and debited, and how many entries
    there are. *)
Definition ledger_amount (msg : LedgerMsg) : Z :=
  match msg with Credit a => a | Debit a => - a | Balance => 0 end.
Definition ledger_entries (msg : LedgerMsg) : nat := match msg with Balance => 0 | _ => 1 end.
Definition ledger_sum (msgs : list LedgerMsg) : Z := foldr (λ m z, ledger_amount m + z) 0 msgs.
Definition ledger_count (msgs : list LedgerMsg) : nat := foldr (λ m n, ledger_entries m + n)%nat 0%nat msgs.

Lemma as_i64_add z a : as_i64 (as_i64 z + a) = as_i64 (z + a).
Proof.
  unfold as_i64. replace ((z + i64_half) mod u64_mod - i64_half + a + i64_half) with ((z + i64_half) mod u64_mod + a) by lia.
  rewrite Zplus_mod_idemp_l. do 2 f_equal. lia.
Qed.

(** The events of a list of messages, whatever the state, and what they add up to. *)
Definition ledger_events (msgs : list LedgerMsg) : list LedgerEvent :=
  msgs ≫= (λ m, (Ledger_handle m (grain_default Ledger)).2).

Lemma ledger_events_cons m msgs :
  ledger_events (m :: msgs) = (Ledger_handle m (grain_default Ledger)).2 ++ ledger_events msgs.
Proof. done. Qed.
Lemma ledger_events_app ms ms' : ledger_events (ms ++ ms') = ledger_events ms ++ ledger_events ms'.
Proof. apply bind_app. Qed.

Lemma Ledger_handle_events m st st' : (Ledger_handle m st).2 = (Ledger_handle m st').2.
Proof. by destruct m. Qed.

Lemma all_events_ledger st msgs : all_events Ledger_apply st (Ledger_handle <$> msgs) = ledger_events msgs.
Proof.
  revert st. induction msgs as [|m msgs IH]; intros st; [done|]. cbn [fmap list_fmap all_events].
  rewrite IH, ledger_events_cons. f_equal. apply Ledger_handle_events.
Qed.

Lemma length_ledger_events msgs : length (ledger_events msgs) = ledger_count msgs.
Proof.
  induction msgs as [|m msgs IH]; [done|]. rewrite ledger_events_cons, length_app, IH. by destruct m.
Qed.

Lemma ledger_sum_app ms ms' : ledger_sum (ms ++ ms') = ledger_sum ms + ledger_sum ms'.
Proof. unfold ledger_sum. induction ms as [|m ms IH]; cbn; [lia|]. rewrite IH. lia. Qed.

Lemma ledger_sum_cons m ms : ledger_sum (m :: ms) = ledger_amount m + ledger_sum ms.
Proof. done. Qed.
Lemma ledger_count_cons m ms : ledger_count (m :: ms) = (ledger_entries m + ledger_count ms)%nat.
Proof. done. Qed.

Lemma ledger_state msgs b n :
  is_i64 b → is_u64 n →
  foldl Ledger_apply (mkLedger b n) (ledger_events msgs) =
    mkLedger (as_i64 (b + ledger_sum msgs)) ((n + Z.of_nat (ledger_count msgs)) mod u64_mod).
Proof.
  revert b n. induction msgs as [|m msgs IH]; intros b n Hb Hn.
  - cbn. rewrite !Z.add_0_r, (Z.mod_small n) by (unfold is_u64 in Hn; lia). f_equal. symmetry.
    unfold as_i64. unfold is_i64 in Hb. rewrite Z.mod_small; unfold i64_half, u64_mod in *; lia.
  - rewrite ledger_events_cons, foldl_app, ledger_sum_cons, ledger_count_cons.
    destruct m as [a|a|]; cbn [Ledger_handle snd foldl].
    + change (Ledger_apply (mkLedger b n) (Credited a)) with (mkLedger (as_i64 (b + a)) (u64_add n 1)).
      rewrite IH by auto using as_i64_range, u64_add_bound. f_equal.
      * rewrite as_i64_add. f_equal. cbn. lia.
      * unfold u64_add. rewrite Zplus_mod_idemp_l. f_equal. cbn. lia.
    + change (Ledger_apply (mkLedger b n) (Debited a)) with (mkLedger (as_i64 (b - a)) (u64_add n 1)).
      rewrite IH by auto using as_i64_range, u64_add_bound. f_equal.
      * rewrite as_i64_add. f_equal. cbn. lia.
      * unfold u64_add. rewrite Zplus_mod_idemp_l. f_equal. cbn. lia.
    + rewrite IH by done. done.
Qed.

Section ledger.
Context {D : Type} `{GrainActivatorLaws D} {J : Type} `{JournalStore J} `{!JournalStoreLaws J} `{!ReliableJournal J}.
Context (encode_event : LedgerEvent → option bytes) (decode_event : bytes → option LedgerEvent).
Context (serialize : LedgerState → option bytes) (deserialize : bytes → option LedgerState).
Context (Hcodec : ∀ ev, ∃ b, encode_event ev = Some b ∧ decode_event b = Some ev).
Context (Hsnap : ∀ st b, serialize st = Some b → deserialize b = Some st).
Context (acct : GrainId).

Abbreviation holds := (journal_holds encode_event decode_event deserialize Ledger_apply Ledger acct).

(** How an activation of the ledger ends: it idles, its channel closes, or a handler panics. *)
Inductive Ending := Idles | Closes | Panics.
Definition ending (e : Ending) : RecvOutcome (JournaledState (State := LedgerState) * J) :=
  match e with
  | Idles => RecvElapsed
  | Closes => RecvClosed
  | Panics => RecvMessage (journaled_envelope (R := LedgerReply) encode_event serialize Ledger_apply
                             Ledger_snapshot_interval acct (λ _, None))
  end.

(** The life of the account: one activation after the other, each with the messages it handles and its
    ending. *)
Fixpoint ledger_life (sessions : list (list LedgerMsg * Ending)) (j : J) (dir : D) : option (J * D) :=
  match sessions with
  | [] => Some (j, dir)
  | (msgs, e) :: sessions =>
      '(_, _, j, dir) ← journaled_run decode_event serialize deserialize Ledger_apply Ledger acct
                          ((RecvMessage <$> journaled_msgs encode_event serialize Ledger_apply Ledger_snapshot_interval
                                              acct (Ledger_handle <$> msgs)) ++ [ending e]) j dir;
      ledger_life sessions j dir
  end.
Definition ledger_history (sessions : list (list LedgerMsg * Ending)) : list LedgerMsg := sessions ≫= fst.

Lemma ledger_count_app ms ms' : ledger_count (ms ++ ms') = (ledger_count ms + ledger_count ms')%nat.
Proof. unfold ledger_count. induction ms as [|m ms IH]; cbn; [done|]. rewrite IH. lia. Qed.

Lemma ledger_life_holds sessions past j dir :
  holds j (ledger_events past) →
  Z.of_nat (ledger_count (past ++ ledger_history sessions)) < u64_mod →
  ∃ j' dir', ledger_life sessions j dir = Some (j', dir') ∧ holds j' (ledger_events (past ++ ledger_history sessions)).
Proof.
  revert past j dir. induction sessions as [|[msgs e] sessions IH]; intros past j dir Hj Hlt.
  { exists j, dir. cbn. by rewrite app_nil_r. }
  cbn in Hlt. rewrite app_assoc in Hlt.
  pose proof (ledger_count_app (past ++ msgs) (ledger_history sessions)) as Hc1.
  pose proof (ledger_count_app past msgs) as Hc2. unfold ledger_history in *.
  destruct (journaled_run_holds encode_event decode_event serialize deserialize Ledger_apply Ledger
              Ledger_snapshot_interval acct Hcodec Hsnap (Ledger_handle <$> msgs) (ledger_events past) j (ending e) [] dir Hj)
    as (js1 & j1 & dir1 & Hrun & _ & _ & Hj1 & _); [done|done| |destruct e; auto|].
  { rewrite all_events_ledger, !length_ledger_events. lia. }
  rewrite all_events_ledger in Hj1. rewrite <- ledger_events_app in Hj1.
  destruct (IH (past ++ msgs) j1 dir1 Hj1) as (j' & dir' & Hl & Hj'); [lia|].
  exists j', dir'. cbn [ledger_life]. rewrite Hrun. cbn [mbind option_bind]. split; [done|].
  cbn. by rewrite app_assoc.
Qed.

(** C32: the ledger never loses an entry: over any number of activations, each handling any messages and
    ending in an idle timeout, a closed channel or a panic, the account comes back with the balance and the
    number of entries of its whole history, and the next question is answered with them. *)
Theorem ledger_survives sessions j dir timeout :
  js_events j acct = [] → js_snapshot j acct = None →
  Z.of_nat (ledger_count (ledger_history sessions)) < u64_mod →
  ∃ j' dir', ledger_life sessions j dir = Some (j', dir') ∧
    let '(st, seq) := journal_load_state decode_event deserialize Ledger_apply Ledger acct j' in
    (JournaledGrainRef_ask encode_event serialize Ledger_apply Ledger_snapshot_interval acct
       (λ st, Some (Ledger_handle Balance st)) true false timeout (Some (mkJS st seq 0)) j').2 =
      Ok (BalanceAndCount (as_i64 (ledger_sum (ledger_history sessions)))
            (Z.of_nat (ledger_count (ledger_history sessions)))).
Proof.
  intros He Hs Hlt.
  destruct (ledger_life_holds sessions [] j dir) as (j' & dir' & Hl & Hj); [|done|].
  { split; [exists []; split; [constructor|done]|done|]. by rewrite Hs. }
  exists j', dir'. split; [done|]. rewrite (load_holds _ _ _ _ _ _ _ _ Hj).
  change (grain_default Ledger) with (mkLedger 0 0). cbn [app].
  rewrite ledger_state by (unfold is_i64, is_u64, i64_half, u64_mod; lia).
  rewrite !Z.add_0_l, Z.mod_small by lia. done.
Qed.
End ledger.

(** A codec for the witness, and the run of [main]: two credits and a debit, a pause in which the account
    idles, and the balance again. *)
Definition ledger_encode (e : LedgerEvent) : option bytes :=
  let enc (tag : Byte.byte) a := Some (tag :: (if bool_decide (0 ≤ a) then Byte.x01 else Byte.x00) :: repeat Byte.x01 (Z.to_nat (Z.abs a))) in
  match e with Credited a => enc Byte.x01 a | Debited a => enc Byte.x00 a end.
Definition ledger_decode (b : bytes) : option LedgerEvent :=
  match b with
  | tag :: sign :: n =>
      let a := if Byte.eqb sign Byte.x01 then Z.of_nat (length n) else - Z.of_nat (length n) in
      Some (if Byte.eqb tag Byte.x01 then Credited a else Debited a)
  | _ => None
  end.

Lemma ledger_codec ev : ∃ b, ledger_encode ev = Some b ∧ ledger_decode b = Some ev.
Proof.
  destruct ev as [a|a]; eexists; (split; [reflexivity|]); cbn; rewrite repeat_length; case_bool_decide; cbn; do 2 f_equal; lia.
Qed.

Lemma ledger_survives_witness :
  ∃ j' dir',
    ledger_life ledger_encode ledger_decode (λ _, None) (λ _, None) grain_x
      [([Credit 100; Credit 50; Debit 30; Balance], Idles); ([Balance], Panics)] InMemoryJournalStore_new (mkFake ∅) = Some (j', dir') ∧
    let '(st, seq) := journal_load_state ledger_decode (λ _, None) Ledger_apply Ledger grain_x j' in
    (JournaledGrainRef_ask ledger_encode (λ _, None) Ledger_apply Ledger_snapshot_interval grain_x
       (λ st, Some (Ledger_handle Balance st)) true false 30 (Some (mkJS st seq 0)) j').2 = Ok (BalanceAndCount 120 3).
Proof.
  apply (ledger_survives (D := FakeActivator) ledger_encode ledger_decode (λ _, None) (λ _, None) ledger_codec
           ltac:(discriminate) grain_x
           [([Credit 100; Credit 50; Debit 30; Balance], Idles); ([Balance], Panics)] InMemoryJournalStore_new (mkFake ∅) 30).
  - reflexivity.
  - reflexivity.
  - vm_compute. reflexivity.
Defined.

(** ** The account *)
Record AccountState := mkAccount { ac_balance : Z }.
Inductive AccountMsg := Deposit (a : Z) | Withdraw (a : Z) | GetBalance.

(** The handlers: the account is changed first, and an overdraft returns an error. *)
Definition Account_handle (msg : AccountMsg) (state : AccountState) : TxProg (State := AccountState) (R := Z) :=
  match msg with
  | Deposit a =>
      let state := mkAccount (as_i64 (ac_balance state + a)) in
      TxReturn state (Ok (ac_balance state))
  | Withdraw a =>
      let state := mkAccount (as_i64 (ac_balance state - a)) in
      if bool_decide (ac_balance state < 0) then TxReturn state (Err (Io "insufficient funds"))
      else TxReturn state (Ok (ac_balance state))
  | GetBalance => TxReturn state (Ok (ac_balance state))
  end.

Section account.
Context {Sto : Type} `{StateStore Sto} (encode : AccountState → option bytes) (decode : bytes → option AccountState).
Context (error_display : PersistenceError → string) (acct : GrainId) (timeout : Z).

(** Calls one after the other, with their answers. *)
Fixpoint account_calls (msgs : list AccountMsg) (st : option AccountState) (s : Sto)
    : option AccountState * Sto * list (result GrainError Z) :=
  match msgs with
  | [] => (st, s, [])
  | m :: msgs =>
      let '(st, s, r) := TransactionalGrainRef_ask encode decode acct error_display (Account_handle m) true false timeout st s in
      let '(st, s, rs) := account_calls msgs st s in (st, s, r :: rs)
  end.

(** The account on paper: a withdrawal that is not covered is refused and changes nothing. *)
Definition paper (b : Z) (msg : AccountMsg) : Z * result GrainError Z :=
  match msg with
  | Deposit a => (b + a, Ok (b + a))
  | Withdraw a =>
      if bool_decide (a ≤ b) then (b - a, Ok (b - a))
      else (b, Err (HandlerFailed (error_display (Io "insufficient funds"))))
  | GetBalance => (b, Ok b)
  end.
Fixpoint paper_all (b : Z) (msgs : list AccountMsg) : Z * list (result GrainError Z) :=
  match msgs with
  | [] => (b, [])
  | m :: msgs => let '(b, r) := paper b m in let '(b, rs) := paper_all b msgs in (b, r :: rs)
  end.

Definition amount_ok (msg : AccountMsg) : Prop :=
  match msg with Deposit a | Withdraw a => 0 ≤ a < i64_half | GetBalance => True end.
Definition deposits (msgs : list AccountMsg) : Z :=
  foldr (λ m z, (match m with Deposit a => a | _ => 0 end) + z) 0 msgs.

Lemma deposits_nonneg msgs : Forall amount_ok msgs → 0 ≤ deposits msgs.
Proof.
  induction 1 as [|m msgs Hm _ IH]; [done|]. cbn. fold (deposits msgs). destruct m; cbn in *; lia.
Qed.

Lemma account_call m b s :
  amount_ok m → 0 ≤ b → b + deposits [m] < i64_half →
  TransactionalGrainRef_ask encode decode acct error_display (Account_handle m) true false timeout (Some (mkAccount b)) s =
    (Some (mkAccount (paper b m).1), s, (paper b m).2) ∧ 0 ≤ (paper b m).1 ≤ b + deposits [m].
Proof.
  intros Hm Hb Hlt. assert (∀ z, - i64_half ≤ z < i64_half → as_i64 z = z) as Hi.
  { intros z Hz. unfold as_i64. rewrite Z.mod_small; unfold i64_half, u64_mod in *; lia. }
  unfold TransactionalGrainRef_ask, transactional_envelope.
  destruct m as [a|a|]; cbn in *; rewrite ?Hi by lia.
  - split; [done|lia].
  - repeat case_bool_decide; cbn; try lia; (split; [done|lia]).
  - split; [done|lia].
Qed.

(** C33: the account is never overdrawn and a refused withdrawal leaves no trace: for any sequence of calls with
    amounts that are not negative and deposits that keep the balance below [2^63] (the grain checks neither), it
    answers every call like the account on paper and ends with its balance, which is not negative; nothing is written
    to the store. *)
Theorem account_refines_paper msgs b s :
  Forall amount_ok msgs → 0 ≤ b → b + deposits msgs < i64_half →
  account_calls msgs (Some (mkAccount b)) s = (Some (mkAccount (paper_all b msgs).1), s, (paper_all b msgs).2) ∧
  0 ≤ (paper_all b msgs).1.
Proof.
  intros Hok. revert b s. induction Hok as [|m msgs Hm Hok IH]; intros b s Hb Hlt; [done|].
  pose proof (deposits_nonneg msgs Hok) as Hnn.
  assert (deposits (m :: msgs) = deposits [m] + deposits msgs) as Hd by (cbn; fold (deposits msgs); lia).
  destruct (account_call m b s Hm Hb) as [Hcall Hrange]; [lia|].
  cbn [account_calls paper_all]. rewrite Hcall. destruct (paper b m) as [b1 r1]. cbn [fst snd] in *.
  destruct (IH b1 s) as [IH1 IH2]; [lia|lia|]. rewrite IH1. by destruct (paper_all b1 msgs).
Qed.
End account.

(** The run of [main]. *)
Lemma account_refines_paper_witness :
  (account_calls (Sto := InMemoryStateStore) (λ _, None) (λ _, None) (λ _, "insufficient funds") grain_x 30
     [Deposit 100; Withdraw 30; Withdraw 1000; GetBalance] (Some (mkAccount 0)) InMemoryStateStore_new).2 =
    [Ok 100; Ok 70; Err (HandlerFailed "insufficient funds"); Ok 70].
Proof.
  destruct (account_refines_paper (Sto := InMemoryStateStore) (λ _, None) (λ _, None) (λ _, "insufficient funds") grain_x 30
              [Deposit 100; Withdraw 30; Withdraw 1000; GetBalance] 0 InMemoryStateStore_new) as [-> _].
  - repeat constructor; cbn; unfold i64_half; lia.
  - lia.
  - vm_compute. reflexivity.
  - vm_compute. reflexivity.
Defined.

(** ** The profile *)
Record ProfileV0 := mkV0 { v0_name : string }.
Record ProfileV1 := mkV1 { v1_name : string; v1_email : string }.
Record ProfileV2 := mkV2 { v2_name : string; v2_email : string; v2_age : Z }.

Section profile.
Context {Sto : Type} `{StateStore Sto} `{!StateStoreLaws Sto} `{!ReliableStore Sto}.
(** bincode on the three schemas. *)
Context (decode0 : bytes → option ProfileV0) (decode1 : bytes → option ProfileV1) (decode2 : bytes → option ProfileV2).
Context (encode1 : ProfileV1 → option bytes) (encode2 : ProfileV2 → option bytes).
Context (Hcodec1 : ∀ p, ∃ b, encode1 p = Some b ∧ decode1 b = Some p).
Context (Hcodec2 : ∀ p, ∃ b, encode2 p = Some b ∧ decode2 b = Some p).
Context (decode_version : bytes → option Z) (ada : GrainId).

Definition Profile_state_version : Z := 2.
Definition upgrade0 (old : ProfileV0) : ProfileV1 := mkV1 (v0_name old) "unknown@example.com".
Definition upgrade1 (old : ProfileV1) : ProfileV2 := mkV2 (v1_name old) (v1_email old) 0.

(** [<Profile as VersionedGrain>::migrate] *)
Definition Profile_migrate (from_version : Z) (b : bytes) : result PersistenceError bytes :=
  if bool_decide (from_version = 0) then migrate_state decode0 encode1 upgrade0 b
  else if bool_decide (from_version = 1) then migrate_state decode1 encode2 upgrade1 b
  else Err (Deserialization ("unknown state version " +:+ pretty from_version)).

(** The bytes a deployment of version [v] left, as the profile they are today. *)
Definition profile_repr (v : Z) (b : bytes) (p : ProfileV2) : Prop :=
  (v = 0 ∧ ∃ p0, decode0 b = Some p0 ∧ p = upgrade1 (upgrade0 p0)) ∨
  (v = 1 ∧ ∃ p1, decode1 b = Some p1 ∧ p = upgrade1 p1) ∨
  (v = 2 ∧ decode2 b = Some p).

Lemma Profile_migrate_repr v b p :
  v < Profile_state_version → profile_repr v b p → ∃ b', Profile_migrate v b = Ok b' ∧ profile_repr (v + 1) b' p.
Proof.
  intros Hv [(-> & p0 & Hd & ->)|[(-> & p1 & Hd & ->)|[-> _]]]; unfold Profile_migrate, migrate_state; cbn.
  - rewrite Hd. destruct (Hcodec1 (upgrade0 p0)) as (b' & He & Hd'). exists b'. cbn. rewrite He. split; [done|].
    right. left. eauto.
  - rewrite Hd. destruct (Hcodec2 (upgrade1 p1)) as (b' & He & Hd'). exists b'. cbn. rewrite He. split; [done|].
    right. right. eauto.
  - unfold Profile_state_version in Hv. lia.
Qed.

(** A profile stored by any deployment loads today: its fields are kept, and a field its schema did not
    have gets its default. *)
Theorem profile_loads s v b p :
  stored_version ada decode_version s = Some v → ss_view s ada = Some b → profile_repr v b p →
  (load_versioned_state decode2 ada decode_version Profile_state_version Profile_migrate s).2 = Ok (Some p).
Proof.
  intros Hv Hb Hr. assert (v ≤ Profile_state_version) as Hle.
  { unfold Profile_state_version. destruct Hr as [[-> _]|[[-> _]|[-> _]]]; lia. }
  eapply versioned_load_migrates; [exact Profile_migrate_repr| |exact Hv|exact Hb|exact Hr|exact Hle].
  intros b' p' [[Hx _]|[[Hx _]|[_ Hd]]]; [discriminate Hx..|done].
Qed.
End profile.

(** ** The chat room *)
Record ChatRoomState := mkRoom { cr_messages : list (string * string); cr_participants : list string }.
Definition ChatRoom_default : ChatRoomState := mkRoom [] [].
Inductive RoomMsg := JoinRoom (user : string) | SendChat (user text : string) | GetHistory.

Definition handle_join (state : ChatRoomState) (user : string) : ChatRoomState :=
  if bool_decide (user ∈ cr_participants state) then state
  else mkRoom (cr_messages state) (cr_participants state ++ [user]).
Definition handle_send (state : ChatRoomState) (user text : string) : ChatRoomState :=
  mkRoom (cr_messages state ++ [(user, text)]) (cr_participants state).
Definition handle_history (state : ChatRoomState) : list (string * string) := cr_messages state.

(** The handlers of a room; the two that return nothing answer with the empty list. *)
Definition ChatRoom_handle (_ : RequestContext) (state : ChatRoomState) (msg : RoomMsg)
    : ChatRoomState * option (list (string * string)) :=
  match msg with
  | JoinRoom u => (handle_join state u, Some [])
  | SendChat u t => (handle_send state u t, Some [])
  | GetHistory => (state, Some (handle_history state))
  end.

Abbreviation Rooms := (gmap string ChatRoomState).
Definition room_id (key : string) : GrainId := mkGrainId "chat_room::ChatRoom" key.
Definition user_id (key : string) : GrainId := mkGrainId "chat_room::UserProfile" key.
Definition open_channel : Channel := mkChannel false 0 256.

(** [ctx.get_ref::<ChatRoom>(key).ask(msg)] from a caller with request context [ctx]. *)
Definition room_ask (ctx : RequestContext) (rooms : Rooms) (key : string) (msg : RoomMsg)
    : Rooms * result GrainError (list (string * string)) :=
  let '(st, reply) := build_ask_envelope ChatRoom_handle ctx msg (room_id key)
                        (Some (default ChatRoom_default (rooms !! key))) in
  let '(r, evs) := GrainRef_ask (GrainRef_with_id (room_id key) []) ctx "RoomMsg" open_channel reply 30 in
  (match st with
   | Some st => if bool_decide (EvEnqueued ∈ evs) then <[key := st]> rooms else rooms
   | None => rooms
   end, r).

Record UserProfileState := mkUser { up_name : string; up_room_count : Z }.
Definition UserProfile_default : UserProfileState := mkUser "" 0.
Inductive UserMsg := SetName (name : string) | GetName | JoinAndGreet (room_key : string).

(** [handle_join_and_greet]; an answer that is an error panics in [unwrap]. *)
Definition handle_join_and_greet (ctx : RequestContext) (state : UserProfileState) (rooms : Rooms) (room_key : string)
    : UserProfileState * Rooms * option string :=
  match room_ask ctx rooms room_key (JoinRoom (up_name state)) with
  | (rooms, Err _) => (state, rooms, None)
  | (rooms, Ok _) =>
      match room_ask ctx rooms room_key (SendChat (up_name state) "Hello everyone!") with
      | (rooms, Err _) => (state, rooms, None)
      | (rooms, Ok _) => (mkUser (up_name state) ((up_room_count state + 1) mod u32_mod), rooms, Some "")
      end
  end.

(** The handlers of a user, on the state and the rooms they may call. *)
Definition UserProfile_handle (ctx : RequestContext) (state : UserProfileState * Rooms) (msg : UserMsg)
    : (UserProfileState * Rooms) * option string :=
  match msg with
  | SetName n => ((mkUser n (up_room_count state.1), state.2), Some "")
  | GetName => (state, Some (up_name state.1))
  | JoinAndGreet key =>
      let '(st, rooms, r) := handle_join_and_greet ctx state.1 state.2 key in ((st, rooms), r)
  end.

Record ChatWorld := mkChat { ch_rooms : Rooms; ch_users : gmap string UserProfileState }.

(** [silo.get_ref::<UserProfile>(key).ask(msg)] *)
Definition user_ask (ctx : RequestContext) (w : ChatWorld) (key : string) (msg : UserMsg)
    : ChatWorld * result GrainError string :=
  let st := default UserProfile_default (ch_users w !! key) in
  let '(out, reply) := build_ask_envelope UserProfile_handle ctx msg (user_id key) (Some (st, ch_rooms w)) in
  let '(r, evs) := GrainRef_ask (GrainRef_with_id (user_id key) []) ctx "UserMsg" open_channel reply 30 in
  (match out with
   | Some (st, rooms) =>
       if bool_decide (EvEnqueued ∈ evs) then mkChat rooms (<[key := st]> (ch_users w)) else w
   | None => w
   end, r).

(** What [main] and its like do: calls one after the other; whether all of them were answered. *)
Inductive ChatCall := CallUser (key : string) (msg : UserMsg) | CallRoom (key : string) (msg : RoomMsg).
Definition chat_call (w : ChatWorld) (c : ChatCall) : ChatWorld * bool :=
  match c with
  | CallUser key msg => let '(w, r) := user_ask RequestContext_new w key msg in (w, is_ok r)
  | CallRoom key msg =>
      let '(rooms, r) := room_ask RequestContext_new (ch_rooms w) key msg in (mkChat rooms (ch_users w), is_ok r)
  end.
Fixpoint chat_run (cs : list ChatCall) (w : ChatWorld) : ChatWorld * bool :=
  match cs with
  | [] => (w, true)
  | c :: cs => let '(w, ok) := chat_call w c in let '(w, oks) := chat_run cs w in (w, ok && oks)
  end.

(** The conversation as its participants remember it: the names, and who joined and said what
    where. *)
Record Minutes := mkMinutes {
  mi_names : gmap string string;
  mi_joins : list (string * string);            (** room, user *)
  mi_posts : list (string * (string * string)) }. (** room, (user, text) *)
Definition minute (m : Minutes) (c : ChatCall) : Minutes :=
  let name key := default "" (mi_names m !! key) in
  match c with
  | CallUser key (SetName n) => mkMinutes (<[key := n]> (mi_names m)) (mi_joins m) (mi_posts m)
  | CallUser key GetName => m
  | CallUser key (JoinAndGreet room) =>
      mkMinutes (mi_names m) (mi_joins m ++ [(room, name key)])
        (mi_posts m ++ [(room, (name key, "Hello everyone!"))])
  | CallRoom room (JoinRoom u) => mkMinutes (mi_names m) (mi_joins m ++ [(room, u)]) (mi_posts m)
  | CallRoom room (SendChat u t) => mkMinutes (mi_names m) (mi_joins m) (mi_posts m ++ [(room, (u, t))])
  | CallRoom room GetHistory => m
  end.

(** A room agrees with the minutes. *)
Definition room_agrees (m : Minutes) (key : string) (st : ChatRoomState) : Prop :=
  cr_messages st = (filter (λ p, p.1 = key) (mi_posts m)).*2 ∧
  NoDup (cr_participants st) ∧ ∀ u, u ∈ cr_participants st ↔ (key, u) ∈ mi_joins m.
Definition rooms_agree (m : Minutes) (rooms : Rooms) : Prop :=
  ∀ key, room_agrees m key (default ChatRoom_default (rooms !! key)).
Definition chat_agrees (m : Minutes) (w : ChatWorld) : Prop :=
  rooms_agree m (ch_rooms w) ∧
  ∀ key, up_name (default UserProfile_default (ch_users w !! key)) = default "" (mi_names m !! key).

(** A call that is not part of a cycle is answered by the handler. *)
Lemma GrainRef_ask_open {R} g ctx label (r : option R) :
  is_in_call_chain ctx g = false →
  GrainRef_ask (GrainRef_with_id g []) ctx label open_channel (Replied r) 30 =
    (recv_ask_response (Replied r) 30, [EvEnqueued]).
Proof.
  intros Hc. unfold GrainRef_ask. cbn [ref_grain_id GrainRef_with_id ref_filters]. rewrite Hc.
  by destruct r.
Qed.

Lemma room_ask_open ctx rooms key msg :
  is_in_call_chain ctx (room_id key) = false →
  room_ask ctx rooms key msg =
    (<[key := (ChatRoom_handle ctx (default ChatRoom_default (rooms !! key)) msg).1]> rooms,
     Ok (default [] (ChatRoom_handle ctx (default ChatRoom_default (rooms !! key)) msg).2)).
Proof.
  intros Hc. unfold room_ask, build_ask_envelope.
  destruct msg; cbn [ChatRoom_handle fst snd]; rewrite (GrainRef_ask_open _ _ _ _ Hc); done.
Qed.

Lemma rooms_agree_insert m m' rooms key st :
  rooms_agree m rooms → room_agrees m' key st →
  (∀ key', key' ≠ key → ∀ st, room_agrees m key' st → room_agrees m' key' st) →
  rooms_agree m' (<[key := st]> rooms).
Proof.
  intros Hr Hs Hother key'. rewrite lookup_insert. case_decide; [by subst|]. by apply Hother, Hr.
Qed.

Lemma room_join_agrees names joins posts rooms key u :
  rooms_agree (mkMinutes names joins posts) rooms →
  rooms_agree (mkMinutes names (joins ++ [(key, u)]) posts)
    (<[key := handle_join (default ChatRoom_default (rooms !! key)) u]> rooms).
Proof.
  intros Hr. eapply rooms_agree_insert; [exact Hr| |].
  - destruct (Hr key) as (Hm & Hnd & Hp). unfold handle_join. case_bool_decide as Hin; (split_and!; [done|..]); cbn in *.
    + done.
    + intros v. rewrite Hp. set_solver.
    + apply NoDup_app. split_and!; [done|set_solver|apply NoDup_singleton].
    + intros v. rewrite elem_of_app, Hp. set_solver.
  - intros key' Hne st (Hm & Hnd & Hp). split_and!; [done|done|]. intros v. rewrite Hp. set_solver.
Qed.

Lemma room_send_agrees names joins posts rooms key u t :
  rooms_agree (mkMinutes names joins posts) rooms →
  rooms_agree (mkMinutes names joins (posts ++ [(key, (u, t))]))
    (<[key := handle_send (default ChatRoom_default (rooms !! key)) u t]> rooms).
Proof.
  intros Hr. eapply rooms_agree_insert; [exact Hr| |].
  - destruct (Hr key) as (Hm & Hnd & Hp). split_and!; [|done|done]. cbn in *.
    rewrite filter_app, fmap_app, Hm. by rewrite filter_cons_True.
  - intros key' Hne st (Hm & Hnd & Hp). split_and!; [|done|done]. cbn in *.
    rewrite filter_app, fmap_app, Hm, filter_cons_False by (cbn; congruence). cbn. by rewrite app_nil_r.
Qed.

Definition call_safe (c : ChatCall) : Prop :=
  match c with
  | CallUser key (JoinAndGreet room) => chain_safe (user_id key) ∧ chain_safe (room_id room)
  | _ => True
  end.

Lemma minute_room_history m rooms key :
  rooms_agree m rooms → rooms_agree m (<[key := default ChatRoom_default (rooms !! key)]> rooms).
Proof. intros Hr. eapply rooms_agree_insert; [exact Hr|apply Hr|auto]. Qed.

Lemma new_in_no_chain g : is_in_call_chain RequestContext_new g = false.
Proof. done. Qed.

(** Inside a user's handler, no room is part of the chain yet. *)
Lemma user_chain_free user room :
  chain_safe (user_id user) → chain_safe (room_id room) →
  is_in_call_chain (with_call_chain_entry RequestContext_new (user_id user)) (room_id room) = false.
Proof.
  intros Hu Hr. change (with_call_chain_entry RequestContext_new (user_id user)) with (path_ctx RequestContext_new [user_id user]).
  rewrite is_in_call_chain_path; [|done|by apply Forall_singleton|done]. apply bool_decide_false.
  rewrite list_elem_of_singleton. done.
Qed.

Lemma user_ask_spec w key msg :
  call_safe (CallUser key msg) →
  let st := default UserProfile_default (ch_users w !! key) in
  ∃ r st' rooms', user_ask RequestContext_new w key msg = (mkChat rooms' (<[key := st']> (ch_users w)), Ok r) ∧
    match msg with
    | SetName n => up_name st' = n ∧ rooms' = ch_rooms w
    | GetName => st' = st ∧ rooms' = ch_rooms w ∧ r = up_name st
    | JoinAndGreet room =>
        up_name st' = up_name st ∧
        let joined := <[room := handle_join (default ChatRoom_default (ch_rooms w !! room)) (up_name st)]> (ch_rooms w) in
        rooms' = <[room := handle_send (default ChatRoom_default (joined !! room)) (up_name st) "Hello everyone!"]> joined
    end.
Proof.
  intros Hs st. unfold user_ask, build_ask_envelope. fold st. destruct msg as [n| |room]; cbn [UserProfile_handle fst snd].
  - rewrite GrainRef_ask_open by apply new_in_no_chain. cbn. by eexists _, _, _.
  - rewrite GrainRef_ask_open by apply new_in_no_chain. cbn. by eexists _, _, _.
  - destruct Hs as [Hu Hr]. unfold handle_join_and_greet.
    rewrite room_ask_open by (by apply user_chain_free). cbn [ChatRoom_handle fst snd].
    rewrite room_ask_open by (by apply user_chain_free). cbn [ChatRoom_handle fst snd].
    rewrite GrainRef_ask_open by apply new_in_no_chain. cbn. by eexists _, _, _.
Qed.

Lemma chat_call_agrees m w c :
  call_safe c → chat_agrees m w → ∃ w', chat_call w c = (w', true) ∧ chat_agrees (minute m c) w'.
Proof.
  intros Hs [Hr Hn]. destruct m as [names joins posts]. destruct c as [key msg|key msg]; cbn [chat_call].
  - destruct (user_ask_spec w key msg Hs) as (r & st' & rooms' & -> & Hspec). eexists. split; [done|].
    cbn in Hn. destruct msg as [n| |room].
    + destruct Hspec as [Hname ->]. split; [done|]. intros k. cbn. rewrite !lookup_insert. case_decide; [done|apply Hn].
    + destruct Hspec as (-> & -> & _). split; [done|]. intros k. cbn. rewrite lookup_insert. case_decide; [subst; apply Hn|apply Hn].
    + destruct Hspec as [Hname ->]. pose proof (Hn key) as Hk. rewrite Hk in *. split; cbn [ch_rooms ch_users minute mi_names mi_joins mi_posts].
      * by apply room_send_agrees, room_join_agrees.
      * intros k. rewrite lookup_insert. case_decide; [by subst|apply Hn].
  - rewrite room_ask_open by apply new_in_no_chain. eexists. split; [done|]. split; [|by destruct msg]. cbn [ch_rooms].
    destruct msg; cbn [ChatRoom_handle fst minute mi_names mi_joins mi_posts];
      [by apply room_join_agrees|by apply room_send_agrees|by apply minute_room_history].
Qed.

(** The chat rooms keep the minutes: after any calls to users and rooms, directly or from one grain to
    another, every call has been answered (no call between grains is mistaken for a cycle), and every
    room has exactly the messages that were posted to it, in order, under the name the poster had
    at the time, and every participant once. *)
Theorem chat_keeps_minutes cs :
  Forall call_safe cs →
  ∃ w, chat_run cs (mkChat ∅ ∅) = (w, true) ∧
    let m := foldl minute (mkMinutes ∅ [] []) cs in
    ∀ key, let st := default ChatRoom_default (ch_rooms w !! key) in
      room_ask RequestContext_new (ch_rooms w) key GetHistory =
        (<[key := st]> (ch_rooms w), Ok (filter (λ p, p.1 = key) (mi_posts m)).*2) ∧
      NoDup (cr_participants st) ∧ (∀ u, u ∈ cr_participants st ↔ (key, u) ∈ mi_joins m).
Proof.
  intros Hs.
  assert (∀ cs m w, Forall call_safe cs → chat_agrees m w →
            ∃ w', chat_run cs w = (w', true) ∧ chat_agrees (foldl minute m cs) w') as Hrun.
  { clear. induction cs as [|c cs IH]; intros m w Hs Hm; [by exists w|]. apply Forall_cons in Hs as [Hc Hs].
    destruct (chat_call_agrees m w c Hc Hm) as (w1 & E & Hm1). destruct (IH _ w1 Hs Hm1) as (w2 & E2 & Hm2).
    exists w2. cbn. by rewrite E, E2. }
  destruct (Hrun cs (mkMinutes ∅ [] []) (mkChat ∅ ∅) Hs) as (w & E & Hr & _).
  { split; [|intros k; cbn; by rewrite !lookup_empty]. intros k. cbn. rewrite lookup_empty. cbn.
    split_and!; [done|constructor|]. intros u. split; intros Hu; by apply not_elem_of_nil in Hu. }
  exists w. split; [done|]. intros m key st. destruct (Hr key) as (Hmsgs & Hnd & Hp).
  split; [|done]. rewrite room_ask_open by apply new_in_no_chain. cbn [ChatRoom_handle fst snd default].
  unfold handle_history. by rewrite Hmsgs.
Qed.

(** The run of [main]. *)
Definition chat_main : list ChatCall :=
  [CallUser "alice" (SetName "Alice"); CallUser "bob" (SetName "Bob");
   CallUser "alice" (JoinAndGreet "general"); CallUser "bob" (JoinAndGreet "general");
   CallRoom "general" (SendChat "Alice" "How's everyone doing?"); CallRoom "general" (SendChat "Bob" "Great, thanks!")].

Lemma chat_keeps_minutes_witness :
  ∃ w, chat_run chat_main (mkChat ∅ ∅) = (w, true) ∧
    (room_ask RequestContext_new (ch_rooms w) "general" GetHistory).2 =
      Ok [("Alice", "Hello everyone!"); ("Bob", "Hello everyone!"); ("Alice", "How's everyone doing?"); ("Bob", "Great, thanks!")].
Proof.
  destruct (chat_keeps_minutes chat_main) as (w & Hrun & Hw).
  - repeat constructor; vm_compute; reflexivity.
  - exists w. split; [exact Hrun|]. destruct (Hw "general") as [-> _]. vm_compute. reflexivity.
Defined.
