(* ===== verification/RuntimeExamples.v ===== *)
(** * Applications of the runtime and of a cluster

    Example applications of orlando-runtime and orlando-cluster: publish and subscribe ([observers.rs], [streams.rs]), a
    pool of workers ([stateless_worker.rs]), a mailbox under load ([backpressure.rs]), and a
    counter: behind filters and lifecycle hooks ([counter.rs], [grain_filters.rs], [lifecycle_hooks.rs]), in a
    cluster ([cluster.rs]), stored between activations ([persistent_counter.rs], [redis_counter.rs],
    [postgres_counter.rs]) and driven by a reminder ([reminders.rs]).  Readers and consumers are taken to stay active; arithmetic is that of release builds, which wraps. *)
From S2P Require Import Prelude CoreTypes HashRing Mailbox Observers Directory Calls CallGraph Silos.
From S2P Require Import Auth Registry Transport ClusterRef ClusterSilo VirtualActor Examples.
From S2P Require Import Sql Reminders Store PersistentMailbox.

(** ** Publish and subscribe

    A topic grain with its readers; [N] is what it broadcasts. *)
Section newsroom.
Context {N : Type}.

(** The topic's state, the directory of the readers' mailboxes, the mailboxes, and what the readers
    have put into their states. *)
Record Newsroom := mkNewsroom {
  nr_observers : ObserverSet;
  nr_readers : gmap string Sender;
  nr_boxes : gmap Sender (Mbox N);
  nr_inbox : gmap Sender (list N) }.
Definition Newsroom_new : Newsroom := mkNewsroom ObserverSet_new ∅ ∅ ∅.

(** [ctx.get_ref::<Reader>(key)]: the reader's mailbox, opened on first use. *)
Definition get_reader (w : Newsroom) (key : string) : Newsroom * Sender :=
  match nr_readers w !! key with
  | Some s => (w, s)
  | None =>
      let s := size (nr_readers w) in
      (mkNewsroom (nr_observers w) (<[key := s]> (nr_readers w)) (<[s := mkMbox false [] 256]> (nr_boxes w)) (nr_inbox w), s)
  end.

(** [topic_subscribe]: the number of subscribers is the answer. *)
Definition topic_subscribe (w : Newsroom) (key : string) : Newsroom * nat :=
  let '(w, s) := get_reader w key in
  let o := (ObserverSet_subscribe (nr_observers w) s).1 in
  (mkNewsroom o (nr_readers w) (nr_boxes w) (nr_inbox w), ObserverSet_len o).

(** [topic_publish] *)
Definition topic_publish (w : Newsroom) (item : N) : Newsroom :=
  let '(ms, o) := ObserverSet_notify (nr_boxes w) (nr_observers w) item in
  mkNewsroom o (nr_readers w) ms (nr_inbox w).

(** A turn of a reader: [reader_receive] on the next item of its mailbox. *)
Definition reader_receive (w : Newsroom) (key : string) : Newsroom :=
  let '(w, s) := get_reader w key in
  match nr_boxes w !! s with
  | Some (mkMbox c (x :: q) cap) =>
      mkNewsroom (nr_observers w) (nr_readers w) (<[s := mkMbox c q cap]> (nr_boxes w))
        (<[s := default [] (nr_inbox w !! s) ++ [x]]> (nr_inbox w))
  | _ => w
  end.

(** [reader_inbox] *)
Definition reader_inbox (w : Newsroom) (key : string) : list N :=
  match nr_readers w !! key with Some s => default [] (nr_inbox w !! s) | None => [] end.

Inductive NewsStep := SubscribeReader (key : string) | Publish (item : N) | Receive (key : string).
Definition news_step (w : Newsroom) (a : NewsStep) : Newsroom :=
  match a with
  | SubscribeReader key => (topic_subscribe w key).1
  | Publish item => topic_publish w item
  | Receive key => reader_receive w key
  end.
Definition news_run (w : Newsroom) (acts : list NewsStep) : Newsroom := foldl news_step w acts.

(** What a reader is owed: every item once per subscription it had made before. *)
Definition owed_step (key : string) (st : nat * list N) (a : NewsStep) : nat * list N :=
  match a with
  | SubscribeReader k => (if bool_decide (k = key) then S st.1 else st.1, st.2)
  | Publish item => (st.1, st.2 ++ repeat item st.1)
  | Receive _ => st
  end.
Definition owed (key : string) (acts : list NewsStep) : nat * list N := foldl (owed_step key) (0%nat, []) acts.

(** Items waiting in a reader's mailbox. *)
Definition waiting (w : Newsroom) (key : string) : list N :=
  match nr_readers w !! key with
  | Some s => match nr_boxes w !! s with Some m => mb_queue m | None => [] end
  | None => []
  end.
Definition subscriptions (w : Newsroom) (key : string) : nat :=
  match nr_readers w !! key with Some s => subscriptions_of s (subscribers (nr_observers w)) | None => 0 end.

(** No mailbox overflows during the run. *)
Fixpoint roomy (w : Newsroom) (acts : list NewsStep) : Prop :=
  match acts with
  | [] => True
  | a :: acts =>
      match a with
      | Publish _ => map_Forall (λ key _, (length (waiting w key) + subscriptions w key ≤ 256)%nat) (nr_readers w)
      | _ => True
      end ∧ roomy (news_step w a) acts
  end.

(** Every reader's mailbox is open and its own; a reader without a mailbox has no subscriptions. *)
Record newsroom_wf (w : Newsroom) : Prop := {
  nw_fresh : ∀ key s, nr_readers w !! key = Some s → (s < size (nr_readers w))%nat;
  nw_inj : ∀ key key' s, nr_readers w !! key = Some s → nr_readers w !! key' = Some s → key = key';
  nw_box : ∀ key s, nr_readers w !! key = Some s → ∃ q, nr_boxes w !! s = Some (mkMbox false q 256);
  nw_subs : ∀ x, x ∈ subscribers (nr_observers w) → ∃ key, nr_readers w !! key = Some (sub_sender x);
  nw_inbox : ∀ s, is_Some (nr_inbox w !! s) → (s < size (nr_readers w))%nat }.

Lemma newsroom_wf_new : newsroom_wf Newsroom_new.
Proof. split; cbn; try done; [intros x Hx; by apply elem_of_nil in Hx|intros s [? Hs]; by rewrite lookup_empty in Hs]. Qed.

(** What matters of a newsroom to its readers. *)
Definition view (w : Newsroom) (key : string) : nat * list N := (subscriptions w key, reader_inbox w key ++ waiting w key).

Lemma subscriptions_of_zero (subs : list Subscriber) sd :
  (∀ x, x ∈ subs → sub_sender x ≠ sd) → subscriptions_of sd subs = 0%nat.
Proof.
  intros H. unfold subscriptions_of. induction subs as [|x subs IH]; [done|].
  rewrite filter_cons_False by (apply H; by left). apply IH. intros y Hy. apply H. by right.
Qed.

Lemma get_reader_spec (w : Newsroom) key :
  newsroom_wf w →
  let '(w', s) := get_reader w key in
  newsroom_wf w' ∧ nr_readers w' !! key = Some s ∧ nr_observers w' = nr_observers w ∧ ∀ k, view w' k = view w k.
Proof.
  intros [H1 H2 H3 H4 H5]. unfold get_reader. destruct (nr_readers w !! key) as [s|] eqn:E; [by split_and!|].
  set (s := size (nr_readers w)).
  assert (∀ k s', nr_readers w !! k = Some s' → s' ≠ s) as Hne by (intros k s' Hk; specialize (H1 _ _ Hk); unfold s; lia).
  split_and!; [|apply lookup_insert_eq|done|].
  - split; cbn.
    + intros k s'. rewrite map_size_insert_None by done. rewrite lookup_insert. case_decide; [intros [= <-]; unfold s; lia|].
      intros Hk. specialize (H1 _ _ Hk). lia.
    + intros k k' s'. rewrite !lookup_insert. repeat case_decide; subst; try congruence.
      * intros [= <-] Hk'. by destruct (Hne _ _ Hk').
      * intros Hk [= <-]. by destruct (Hne _ _ Hk).
      * apply H2.
    + intros k s'. rewrite lookup_insert. case_decide; [intros [= <-]; rewrite lookup_insert_eq; by eexists|].
      intros Hk. rewrite lookup_insert_ne by (intros <-; by destruct (Hne _ _ Hk)). by eapply H3.
    + intros x Hx. destruct (H4 x Hx) as [k Hk]. exists k. rewrite lookup_insert_ne; [done|congruence].
    + intros s' Hs'. specialize (H5 s' Hs'). rewrite map_size_insert_None by done. lia.
  - intros k. unfold view, subscriptions, reader_inbox, waiting. cbn. rewrite lookup_insert. case_decide as Hk.
    + subst k. rewrite E, lookup_insert_eq, subscriptions_of_zero; cbn.
      * destruct (nr_inbox w !! s) as [l|] eqn:El; [|done]. assert (s < s)%nat; [|lia]. by apply H5.
      * intros x Hx. destruct (H4 x Hx) as [k Hk]. by apply (Hne k).
    + destruct (nr_readers w !! k) as [s'|] eqn:Ek; [|done]. by rewrite lookup_insert_ne by (intros <-; by destruct (Hne _ _ Ek)).
Qed.

Lemma topic_subscribe_view (w : Newsroom) key :
  newsroom_wf w → newsroom_wf (topic_subscribe w key).1 ∧
  ∀ k, view (topic_subscribe w key).1 k = owed_step k (view w k) (SubscribeReader key).
Proof.
  intros Hw. pose proof (get_reader_spec w key Hw) as Hg. unfold topic_subscribe.
  destruct (get_reader w key) as [w1 s]. destruct Hg as ([H1 H2 H3 H4 H5] & Hs & Ho & Hv). cbn [fst]. split.
  - split; cbn; try done. intros x [Hx| ->%list_elem_of_singleton]%elem_of_app; [by apply H4|]. by exists key.
  - intros k. rewrite <- Hv. unfold view, owed_step, subscriptions, reader_inbox, waiting. cbn [nr_observers nr_readers nr_boxes nr_inbox fst snd].
    f_equal. cbn. destruct (nr_readers w1 !! k) as [s'|] eqn:Ek.
    + unfold subscriptions_of. rewrite filter_app, length_app, filter_cons. cbn.
      destruct (decide (key = k)) as [->|Hne].
      * rewrite bool_decide_true, decide_True by congruence. cbn. lia.
      * rewrite bool_decide_false, decide_False; [cbn; lia| |done]. intros ->. by apply Hne, (H2 _ _ s').
    + rewrite bool_decide_false by congruence. done.
Qed.

Lemma topic_publish_view (w : Newsroom) item :
  newsroom_wf w → map_Forall (λ key _, (length (waiting w key) + subscriptions w key ≤ 256)%nat) (nr_readers w) →
  newsroom_wf (topic_publish w item) ∧ ∀ k, view (topic_publish w item) k = owed_step k (view w k) (Publish item).
Proof.
  intros [H1 H2 H3 H4 H5] Hroom. unfold topic_publish, ObserverSet_notify.
  pose proof (notify_loop_spec (nr_boxes w) (subscribers (nr_observers w)) item) as Hn.
  destruct (notify_loop _ _ _) as [ms kept]. destruct Hn as [-> Hq].
  rewrite filter_keeps_all.
  2:{ intros x Hx. destruct (H4 x Hx) as [k Hk]. destruct (H3 _ _ Hk) as [q Hb]. unfold is_open, mb_is_closed. by rewrite Hb. }
  assert (∀ k s, nr_readers w !! k = Some s → ∃ q, nr_boxes w !! s = Some (mkMbox false q 256) ∧
            ms !! s = Some (mkMbox false (q ++ repeat item (subscriptions_of s (subscribers (nr_observers w)))) 256)) as Hbox.
  { intros k s Hk. destruct (H3 _ _ Hk) as [q Hb]. exists q. split; [done|]. rewrite Hq, Hb. cbn. unfold queued. cbn.
    specialize (Hroom _ _ Hk). unfold waiting, subscriptions in Hroom. rewrite Hk, Hb in Hroom. cbn in Hroom.
    by rewrite Nat.min_l by lia. }
  split.
  - split; cbn; try done. intros k s Hk. destruct (Hbox k s Hk) as (q & _ & Hm). eauto.
  - intros k. unfold view, owed_step, subscriptions, reader_inbox, waiting. cbn.
    destruct (nr_readers w !! k) as [s|] eqn:Ek; [|done]. destruct (Hbox k s Ek) as (q & -> & ->). cbn. by rewrite app_assoc.
Qed.

Lemma reader_receive_view (w : Newsroom) key :
  newsroom_wf w → newsroom_wf (reader_receive w key) ∧ ∀ k, view (reader_receive w key) k = view w k.
Proof.
  intros Hw. pose proof (get_reader_spec w key Hw) as Hg. unfold reader_receive.
  destruct (get_reader w key) as [w1 s]. destruct Hg as ([H1 H2 H3 H4 H5] & Hs & _ & Hv).
  destruct (H3 _ _ Hs) as [q Hb]. rewrite Hb. destruct q as [|x q]; [split; [by split|done]|]. split.
  - split; cbn; try done.
    + intros k s' Hk. rewrite lookup_insert. case_decide; [by eexists|by eapply H3].
    + intros s' Hs'. destruct (decide (s = s')) as [<-|]; [by eapply H1|]. apply H5. by rewrite lookup_insert_ne in Hs'.
  - intros k. rewrite <- Hv. unfold view, subscriptions, reader_inbox, waiting. cbn.
    destruct (nr_readers w1 !! k) as [s'|] eqn:Ek; [|done]. rewrite !lookup_insert. case_decide as Heq; [|done].
    subst s'. rewrite Hb. cbn. by rewrite <- app_assoc.
Qed.

Lemma news_run_view (w : Newsroom) acts :
  newsroom_wf w → roomy w acts →
  newsroom_wf (news_run w acts) ∧ ∀ key, view (news_run w acts) key = foldl (owed_step key) (view w key) acts.
Proof.
  revert w. induction acts as [|a acts IH]; intros w Hw Hroom; [done|]. destruct Hroom as [Ha Hroom].
  assert (newsroom_wf (news_step w a) ∧ ∀ k, view (news_step w a) k = owed_step k (view w k) a) as [Hw' Hv].
  { destruct a; cbn [news_step]; [by apply topic_subscribe_view|by apply topic_publish_view|by apply reader_receive_view]. }
  destruct (IH _ Hw' Hroom) as [H1 H2]. split; [exact H1|]. intros key. unfold news_run in *. cbn [foldl]. by rewrite H2, Hv.
Qed.

(** C31: every subscriber gets every item, as long as no mailbox is full when something is published and readers stay
    active: whatever the order of subscriptions, publications and turns of the readers, what a reader has received,
    followed by what waits in its mailbox, is exactly the items published since it subscribed, in order and once per
    subscription. *)
Theorem subscribers_get_everything acts :
  roomy Newsroom_new acts → ∀ key,
  subscriptions (news_run Newsroom_new acts) key = (owed key acts).1 ∧
  reader_inbox (news_run Newsroom_new acts) key ++ waiting (news_run Newsroom_new acts) key = (owed key acts).2.
Proof.
  intros Hroom key. destruct (news_run_view Newsroom_new acts newsroom_wf_new Hroom) as [_ Hv].
  specialize (Hv key). unfold view in Hv. unfold owed.
  change (subscriptions Newsroom_new key, reader_inbox Newsroom_new key ++ waiting Newsroom_new key) with (0%nat, @nil N) in Hv.
  by rewrite <- Hv.
Qed.
End newsroom.
Arguments Newsroom N : clear implicits.
Arguments NewsStep N : clear implicits.

(** The run of [main] in [observers.rs]. *)
Definition newsroom_main : list (NewsStep string) :=
  [SubscribeReader "alice"; SubscribeReader "bob"; Publish "Orlando 1.0 released"; Publish "Grains now self-aware";
   Receive "alice"; Receive "bob"; Receive "bob"; Receive "alice"].
Definition news_items : list string := ["Orlando 1.0 released"; "Grains now self-aware"].

Lemma subscribers_get_everything_witness :
  let w := news_run Newsroom_new newsroom_main in
  reader_inbox w "alice" = news_items ∧ reader_inbox w "bob" = news_items ∧
  (topic_subscribe (news_run Newsroom_new (take 1 newsroom_main)) "bob").2 = 2%nat.
Proof.
  assert (roomy Newsroom_new newsroom_main) as Hroom.
  { repeat split; apply (bool_decide_unpack _); vm_compute; exact I. }
  pose proof (subscribers_get_everything newsroom_main Hroom "alice") as [_ Ha].
  pose proof (subscribers_get_everything newsroom_main Hroom "bob") as [_ Hb].
  cbn zeta. split; [|split; [|vm_compute; reflexivity]].
  - assert (waiting (news_run Newsroom_new newsroom_main) "alice" = []) as E by (vm_compute; reflexivity).
    rewrite E, app_nil_r in Ha. rewrite Ha. vm_compute. reflexivity.
  - assert (waiting (news_run Newsroom_new newsroom_main) "bob" = []) as E by (vm_compute; reflexivity).
    rewrite E, app_nil_r in Hb. rewrite Hb. vm_compute. reflexivity.
Defined.

(** ** Streams ([streams.rs])

    The same room, with a numbered stream in place of the topic. *)
Record StreamApp := mkStreamApp { sa_room : Newsroom (StreamItem Z); sa_sequence : Z }.

(** [ProducerState::default] *)
Definition StreamApp_new : StreamApp :=
  let stream := StreamProducer_new "numbers" in
  mkStreamApp (mkNewsroom (sp_observers stream) ∅ ∅ ∅) (sp_sequence stream).
Definition app_stream (w : StreamApp) : StreamProducer := mkProducer "numbers" (nr_observers (sa_room w)) (sa_sequence w).
Definition consumer_key : string := "consumer-1".

Definition handle_subscribe (w : StreamApp) : StreamApp :=
  let '(room, consumer) := get_reader (sa_room w) consumer_key in
  let stream := (StreamProducer_subscribe (app_stream w) consumer).1 in
  mkStreamApp (mkNewsroom (sp_observers stream) (nr_readers room) (nr_boxes room) (nr_inbox room)) (sp_sequence stream).

(** The answer is [sequence()] after the send. *)
Definition handle_publish (w : StreamApp) (value : Z) : StreamApp * Z :=
  let room := sa_room w in
  let '(ms, stream) := StreamProducer_send (nr_boxes room) (app_stream w) value in
  (mkStreamApp (mkNewsroom (sp_observers stream) (nr_readers room) ms (nr_inbox room)) (sp_sequence stream),
   sp_sequence stream).

(** A turn of the consumer: [handle_item] on the next item of its mailbox. *)
Definition handle_item (w : StreamApp) : StreamApp := mkStreamApp (reader_receive (sa_room w) consumer_key) (sa_sequence w).
Definition numbered (x : StreamItem Z) : Z * Z := (si_sequence x, si_item x).
Definition handle_get_received (w : StreamApp) : list (Z * Z) := numbered <$> reader_inbox (sa_room w) consumer_key.

Inductive StreamAct := Send (value : Z) | Consume.
Definition stream_act (w : StreamApp) (a : StreamAct) : StreamApp :=
  match a with Send v => (handle_publish w v).1 | Consume => handle_item w end.
Definition stream_main (acts : list StreamAct) : StreamApp := foldl stream_act (handle_subscribe StreamApp_new) acts.

(** What was sent, and the same acts as steps of the room. *)
Fixpoint sent (acts : list StreamAct) : list Z :=
  match acts with [] => [] | Send v :: acts => v :: sent acts | Consume :: acts => sent acts end.
Fixpoint news_of (n : Z) (acts : list StreamAct) : list (NewsStep (StreamItem Z)) :=
  match acts with
  | [] => []
  | Send v :: acts => Publish (mkItem "numbers" v n) :: news_of (u64_add n 1) acts
  | Consume :: acts => Receive consumer_key :: news_of n acts
  end.

Lemma handle_publish_room w v :
  handle_publish w v =
    (mkStreamApp (topic_publish (sa_room w) (mkItem "numbers" v (sa_sequence w))) (u64_add (sa_sequence w) 1),
     u64_add (sa_sequence w) 1).
Proof.
  unfold handle_publish, topic_publish, StreamProducer_send. cbn.
  by destruct (ObserverSet_notify _ _ _).
Qed.

Lemma stream_acts_room w acts :
  sa_room (foldl stream_act w acts) = news_run (sa_room w) (news_of (sa_sequence w) acts).
Proof.
  revert w. induction acts as [|[v|] acts IH]; intros w; [done| |]; cbn [foldl news_of stream_act]; rewrite IH.
  - by rewrite handle_publish_room.
  - done.
Qed.

Lemma handle_subscribe_room :
  sa_room (handle_subscribe StreamApp_new) = news_run Newsroom_new [SubscribeReader consumer_key] ∧
  sa_sequence (handle_subscribe StreamApp_new) = 0.
Proof. done. Qed.

Lemma owed_news_of n acts l :
  0 ≤ n → n + Z.of_nat (length (sent acts)) < u64_mod →
  foldl (owed_step consumer_key) (1%nat, l) (news_of n acts) =
    (1%nat, l ++ imap (λ i v, mkItem "numbers" v (n + Z.of_nat i)) (sent acts)).
Proof.
  revert n l. induction acts as [|[v|] acts IH]; intros n l Hn Hlen; cbn [news_of foldl sent imap length] in *.
  - by rewrite app_nil_r.
  - rewrite u64_add_small by (unfold is_u64; lia). cbn [owed_step fst snd repeat]. rewrite IH by lia.
    f_equal. rewrite <- app_assoc. f_equal. cbn. f_equal; [by rewrite Z.add_0_r|].
    apply imap_ext. intros i x _. cbn. f_equal. lia.
  - by apply IH.
Qed.

(** A consumer that has subscribed once reads the items in order and numbered from 0, whatever the
    interleaving of sends and turns, while its mailbox has room; and a send is answered with the
    number of items sent, which is one more than the number of the item. *)
Theorem consumer_gets_stream acts :
  Z.of_nat (length (sent acts)) < u64_mod - 1 →
  roomy (sa_room (handle_subscribe StreamApp_new)) (news_of 0 acts) →
  let w := stream_main acts in
  handle_get_received w ++ (numbered <$> waiting (sa_room w) consumer_key) = imap (λ i v, (Z.of_nat i, v)) (sent acts) ∧
  ∀ v, (handle_publish w v).2 = Z.of_nat (length (sent acts)) + 1.
Proof.
  intros Hlen Hroom w. split.
  - unfold handle_get_received. rewrite <- fmap_app. subst w. unfold stream_main. rewrite stream_acts_room.
    destruct handle_subscribe_room as [Hr ->]. rewrite Hr in Hroom |- *.
    assert (newsroom_wf (news_run (N := StreamItem Z) Newsroom_new [SubscribeReader consumer_key]) ∧
            ∀ k, view (news_run (N := StreamItem Z) Newsroom_new [SubscribeReader consumer_key]) k =
              owed_step k (view Newsroom_new k) (SubscribeReader consumer_key)) as [Hw Hv0].
    { apply topic_subscribe_view, newsroom_wf_new. }
    destruct (news_run_view _ _ Hw Hroom) as [_ Hv]. specialize (Hv consumer_key). rewrite Hv0 in Hv.
    change (owed_step consumer_key (view Newsroom_new consumer_key) (SubscribeReader consumer_key))
      with (1%nat, @nil (StreamItem Z)) in Hv.
    rewrite owed_news_of in Hv by lia. apply (f_equal snd) in Hv. unfold view in Hv. cbn [app snd] in Hv.
    etransitivity; [exact (f_equal (fmap numbered) Hv)|]. by rewrite fmap_imap.
  - intros v. rewrite handle_publish_room. cbn [snd]. subst w.
    assert (∀ w0, 0 ≤ sa_sequence w0 → sa_sequence w0 + Z.of_nat (length (sent acts)) < u64_mod →
      sa_sequence (foldl stream_act w0 acts) = sa_sequence w0 + Z.of_nat (length (sent acts))) as H.
    { clear. induction acts as [|[v|] acts IH]; intros w0 H0 Hl; cbn [foldl sent length stream_act] in *; [lia| |by apply (IH (handle_item w0))].
      rewrite IH; rewrite handle_publish_room; cbn [fst sa_sequence]; rewrite ?u64_add_small by (unfold is_u64; lia); lia. }
    unfold stream_main. rewrite H; destruct handle_subscribe_room as [_ ->]; [|lia|lia].
    rewrite u64_add_small; [lia|unfold is_u64; lia].
Qed.

(** The run of [main] in [streams.rs]. *)
Lemma consumer_gets_stream_witness :
  handle_get_received (stream_main [Send 10; Send 20; Consume; Send 30; Consume; Consume]) = [(0, 10); (1, 20); (2, 30)].
Proof.
  destruct (consumer_gets_stream [Send 10; Send 20; Consume; Send 30; Consume; Consume]) as [H _].
  - vm_compute. reflexivity.
  - repeat split; apply (bool_decide_unpack _); vm_compute; exact I.
  - assert (waiting (sa_room (stream_main [Send 10; Send 20; Consume; Send 30; Consume; Consume])) consumer_key = [])
      as E by (vm_compute; reflexivity).
    rewrite E, fmap_nil, app_nil_r in H. rewrite H. reflexivity.
Defined.

(** ** A pool of workers ([stateless_worker.rs]) *)

(** The worker's count, and the FNV-1a hash of the input, computed as the ring's. *)
Definition handle_hash (processed : Z) (input : string) : Z * Z := (u64_add processed 1, hash_key input).

(** A batch of asks through the pool, with the states of the workers. *)
Fixpoint hash_all (w : WorkerGrainRef) (states : gmap Sender Z) (inputs : list string)
    : gmap Sender Z * list (Dispatch Z) :=
  match inputs with
  | [] => (states, [])
  | input :: inputs =>
      let work s := handle_hash (default 0 (states !! s)) input in
      let '(w', d) := WorkerGrainRef_ask (λ _, open_mailbox) (λ s, Replied (Some (work s).2)) 30 w in
      let states' := match d with DispatchTo s _ => <[s := (work s).1]> states | _ => states end in
      let '(states'', ds) := hash_all w' states' inputs in
      (states'', d :: ds)
  end.
Definition processed (states : gmap Sender Z) (s : Sender) : Z := default 0 (states !! s).

Section pool.
Context (pool : list Sender).
Context (Hpool : pool ≠ []) (Hnodup : NoDup pool).

(** The worker of the [i]th ask, counted from the start. *)
Definition worker_at (i : Z) : option Sender := pool !! Z.to_nat (i mod Z.of_nat (length pool)).
Definition turns_of (s : Sender) (i : Z) (n : nat) : nat :=
  length (filter (λ k, worker_at k = Some s) (seqZ i (Z.of_nat n))).

Lemma pool_length : 0 < Z.of_nat (length pool).
Proof. destruct pool; [done|cbn; lia]. Qed.

Lemma worker_at_some i : ∃ s, worker_at i = Some s.
Proof.
  unfold worker_at. apply lookup_lt_is_Some_2. pose proof pool_length.
  pose proof (Z.mod_pos_bound i (Z.of_nat (length pool))). lia.
Qed.

Lemma turns_of_app s i n m : turns_of s i (n + m) = (turns_of s i n + turns_of s (i + Z.of_nat n) m)%nat.
Proof. unfold turns_of. rewrite Nat2Z.inj_add, seqZ_app, filter_app, length_app by lia. done. Qed.

Lemma worker_at_shift i : worker_at (i + Z.of_nat (length pool)) = worker_at i.
Proof. unfold worker_at. pose proof pool_length. by rewrite <- (Z_mod_plus_full i 1 (Z.of_nat (length pool))), Z.mul_1_l. Qed.

(** Over one round every worker has one turn. *)
Lemma turns_of_round s : s ∈ pool → turns_of s 0 (length pool) = 1%nat.
Proof.
  intros [j Hj]%list_elem_of_lookup_1. pose proof (lookup_lt_Some _ _ _ Hj) as Hlt.
  unfold turns_of. replace (filter (λ k, worker_at k = Some s) (seqZ 0 (Z.of_nat (length pool)))) with [Z.of_nat j]; [done|].
  symmetry. apply Permutation_singleton_r, NoDup_Permutation;
    [apply NoDup_filter, NoDup_seqZ|apply NoDup_singleton|].
  intros k. rewrite list_elem_of_filter, elem_of_seqZ, list_elem_of_singleton. unfold worker_at. split.
  - intros [Hk Hr]. rewrite Z.mod_small in Hk by lia.
    pose proof (NoDup_lookup _ _ _ _ Hnodup Hk Hj). lia.
  - intros ->. rewrite Z.mod_small, Nat2Z.id by lia. split; [done|lia].
Qed.

Lemma turns_of_shift s i n : turns_of s (i + Z.of_nat (length pool)) n = turns_of s i n.
Proof.
  unfold turns_of. revert i. induction n as [|n IH]; intros i; [done|].
  rewrite Nat2Z.inj_succ, (seqZ_cons i), (seqZ_cons (i + _)) by lia. rewrite !filter_cons, worker_at_shift, !Z.pred_succ.
  replace (Z.succ (i + Z.of_nat (length pool))) with (Z.succ i + Z.of_nat (length pool)) by lia.
  case_decide; cbn [length]; by rewrite IH.
Qed.

Lemma turns_of_rounds s k : s ∈ pool → turns_of s 0 (k * length pool) = k.
Proof.
  intros Hs. induction k as [|k IH]; [done|]. cbn [Nat.mul]. rewrite turns_of_app, turns_of_round by done.
  rewrite turns_of_shift, IH. lia.
Qed.

Lemma hash_all_spec states inputs i :
  0 ≤ i → i + Z.of_nat (length inputs) < u64_mod →
  (∀ s, 0 ≤ processed states s ≤ i) →
  let '(states', ds) := hash_all (mkWorkerRef pool i) states inputs in
  (∀ s, processed states' s = processed states s + Z.of_nat (turns_of s i (length inputs))) ∧
  Forall2 (λ d input, ∃ s, d = DispatchTo s (Ok (hash_key input))) ds inputs.
Proof.
  revert states i. induction inputs as [|input inputs IH]; intros states i Hi Hlen Hst; cbn [hash_all length] in *.
  { split; [|constructor]. intros s. change (turns_of s i 0) with 0%nat. lia. }
  destruct (worker_at_some i) as [s Hs].
  unfold WorkerGrainRef_ask. rewrite next_worker_lookup by done. cbn [wr_senders wr_next].
  fold (worker_at i). rewrite Hs. cbn [send_await open_mailbox ch_closed recv_ask_response].
  rewrite u64_add_small by (unfold is_u64; lia).
  set (st1 := <[s := _]> states).
  assert (∀ s', processed st1 s' = processed states s' + (if decide (s' = s) then 1 else 0)) as Hst1.
  { intros s'. unfold processed, st1. rewrite lookup_insert. case_decide as E; [subst s'|].
    - rewrite decide_True by done. cbn. specialize (Hst s). unfold processed in Hst.
      rewrite u64_add_small; [done|unfold is_u64; lia].
    - rewrite decide_False by congruence. lia. }
  specialize (IH st1 (i + 1)).
  destruct (hash_all (mkWorkerRef pool (i + 1)) st1 inputs) as [st2 ds]. destruct IH as [H1 H2]; [lia|lia| |].
  { intros s'. rewrite Hst1. specialize (Hst s'). case_decide; lia. }
  split; [|constructor; [by eexists|done]].
  intros s'. rewrite H1, Hst1. change (S (length inputs)) with (1 + length inputs)%nat. rewrite turns_of_app.
  assert (turns_of s' i 1 = if decide (s' = s) then 1%nat else 0%nat) as ->.
  { unfold turns_of. change (Z.of_nat 1) with (Z.succ 0). rewrite seqZ_cons by lia. cbn [Z.pred]. rewrite filter_cons, Hs.
    repeat case_decide; try congruence; done. }
  change (Z.of_nat 1) with 1. case_decide; lia.
Qed.
End pool.

(** The work of a batch is shared evenly: after [k] rounds of asks every worker of a fresh pool has processed exactly
    [k] inputs, and every ask is answered with the hash of its own input. *)
Theorem work_shared_evenly pool inputs k :
  pool ≠ [] → NoDup pool → length inputs = (k * length pool)%nat → Z.of_nat (length inputs) < u64_mod →
  let '(states, ds) := hash_all (WorkerGrainRef_new pool) ∅ inputs in
  (∀ s, s ∈ pool → processed states s = Z.of_nat k) ∧
  Forall2 (λ d input, ∃ s, d = DispatchTo s (Ok (hash_key input))) ds inputs.
Proof.
  intros Hne Hnd Hlen Hlt. pose proof (hash_all_spec pool Hne Hnd ∅ inputs 0) as H.
  unfold WorkerGrainRef_new. destruct (hash_all _ _ _) as [states ds].
  destruct H as [H1 H2]; [lia|lia|intros s; unfold processed; rewrite lookup_empty; cbn; lia|].
  split; [|done]. intros s Hs. rewrite H1, Hlen, turns_of_rounds by done. unfold processed. by rewrite lookup_empty.
Qed.

(** The run of [main]: eight payloads, four workers, two each. *)
Definition payloads : list string := (λ i : Z, "payload-" +:+ pretty i) <$> seqZ 0 8.
Lemma work_shared_evenly_witness :
  let states := (hash_all (WorkerGrainRef_new [0; 1; 2; 3]%nat) ∅ payloads).1 in
  ∀ s, s ∈ [0; 1; 2; 3]%nat → processed states s = 2.
Proof.
  pose proof (work_shared_evenly [0; 1; 2; 3]%nat payloads 2) as H.
  destruct (hash_all _ _ _) as [states ds]. apply H; [done|apply (bool_decide_unpack _); exact I|reflexivity|reflexivity].
Defined.

(** ** A mailbox under load ([backpressure.rs]) *)

Definition MAILBOX_CAPACITY : nat := 256.
(** The messages waiting, those the worker has taken, and what [main] counts. *)
Record Load := mkLoad { ld_waiting : nat; ld_taken : nat; ld_accepted : nat; ld_rejected : nat; ld_failed : nat }.
Inductive LoadStep := TryAsk | Work.
#[export] Instance LoadStep_eq_dec : EqDecision LoadStep := ltac:(solve_decision).

(** A request is counted by the outcome of its [try_ask]; the worker takes a message and answers it with [()]. *)
Definition load_step (l : Load) (a : LoadStep) : Load :=
  match a with
  | TryAsk =>
      let ch := mkChannel false (ld_waiting l) MAILBOX_CAPACITY in
      match (GrainRef_try_ask (GrainRef_with_id (mkGrainId "backpressure::SlowWorker" "slow") []) RequestContext_new
               "backpressure::Work" ch (Replied (Some ())) 30).1 with
      | Ok _ => mkLoad (S (ld_waiting l)) (ld_taken l) (S (ld_accepted l)) (ld_rejected l) (ld_failed l)
      | Err MailboxFull => mkLoad (ld_waiting l) (ld_taken l) (ld_accepted l) (S (ld_rejected l)) (ld_failed l)
      | Err _ => mkLoad (ld_waiting l) (ld_taken l) (ld_accepted l) (ld_rejected l) (S (ld_failed l))
      end
  | Work =>
      match ld_waiting l with
      | O => l
      | S n => mkLoad n (S (ld_taken l)) (ld_accepted l) (ld_rejected l) (ld_failed l)
      end
  end.
Definition load_run (acts : list LoadStep) : Load := foldl load_step (mkLoad 0 0 0 0 0) acts.

Lemma try_ask_load l :
  load_step l TryAsk =
    if bool_decide (MAILBOX_CAPACITY ≤ ld_waiting l)%nat
    then mkLoad (ld_waiting l) (ld_taken l) (ld_accepted l) (S (ld_rejected l)) (ld_failed l)
    else mkLoad (S (ld_waiting l)) (ld_taken l) (S (ld_accepted l)) (ld_rejected l) (ld_failed l).
Proof.
  unfold load_step, GrainRef_try_ask, GrainRef_with_id, try_send.
  cbn [ref_filters run_before ch_closed ch_capacity ch_len]. by case_bool_decide.
Qed.

(** Backpressure is exact, whatever the order of requests and work: every request is accepted or rejected, the accepted are
    those the worker has taken and at most a mailbox of others, and requests are rejected only
    when the mailbox was full, so that a burst no work comes between loses exactly what exceeds the capacity. *)
Theorem backpressure_exact acts :
  let l := load_run acts in
  (ld_accepted l + ld_rejected l)%nat = length (filter (λ a, a = TryAsk) acts) ∧ ld_failed l = 0%nat ∧
  ld_accepted l = (ld_taken l + ld_waiting l)%nat ∧ (ld_waiting l ≤ MAILBOX_CAPACITY)%nat ∧
  ((0 < ld_rejected l)%nat → (MAILBOX_CAPACITY ≤ ld_accepted l)%nat) ∧
  ∀ n, let l' := foldl load_step l (repeat TryAsk n) in
       ld_accepted l' = (ld_accepted l + (n `min` (MAILBOX_CAPACITY - ld_waiting l)))%nat.
Proof.
  cbn zeta.
  assert (let l := load_run acts in
    (ld_accepted l + ld_rejected l)%nat = length (filter (λ a, a = TryAsk) acts) ∧ ld_failed l = 0%nat ∧
    ld_accepted l = (ld_taken l + ld_waiting l)%nat ∧ (ld_waiting l ≤ MAILBOX_CAPACITY)%nat ∧
    ((0 < ld_rejected l)%nat → (MAILBOX_CAPACITY ≤ ld_accepted l)%nat)) as (H1 & H2 & H3 & H4 & H5).
  { induction acts as [|a acts IH] using rev_ind; [cbn; split_and!; lia|].
    unfold load_run in *. rewrite foldl_snoc, filter_app, length_app. set (l := foldl load_step _ acts) in *.
    cbn zeta in IH. destruct IH as (H1 & H2 & H3 & H4 & H5). destruct a.
    - change (length (filter (λ a, a = TryAsk) [TryAsk])) with 1%nat. rewrite try_ask_load.
      case_bool_decide; cbn -[MAILBOX_CAPACITY]; split_and!; lia.
    - change (length (filter (λ a, a = TryAsk) [Work])) with 0%nat. unfold load_step.
      destruct (ld_waiting l) eqn:E; cbn -[MAILBOX_CAPACITY]; rewrite ?E; split_and!; lia. }
  split_and!; [done..|]. generalize (load_run acts) H4. clear. intros l Hl n. revert l Hl.
  induction n as [|n IH]; intros l Hl; cbn [repeat foldl]; [lia|].
  rewrite IH, try_ask_load by (rewrite try_ask_load; case_bool_decide; cbn -[MAILBOX_CAPACITY]; lia).
  case_bool_decide; cbn -[MAILBOX_CAPACITY Nat.sub Nat.min]; lia.
Qed.

(** ** A counter *)
Definition handle_increment (count amount : Z) : Z * Z := let count := as_i64 (count + amount) in (count, count).
Definition handle_get (count : Z) : Z * Z := (count, count).
Inductive CounterCall := Increment (amount : Z) | GetCount.
Definition counter_turn (call : CounterCall) (count : Z) : Z * Z :=
  match call with Increment amount => handle_increment count amount | GetCount => handle_get count end.
Definition call_name (call : CounterCall) : string :=
  match call with Increment _ => "counter::Increment" | GetCount => "counter::GetCount" end.

(** Calls from outside the silo, one after the other, through a reference with filters: the answers and what the filters see. *)
Fixpoint counter_asks (ref : GrainRef) (count : Z) (calls : list CounterCall)
    : Z * list (result GrainError Z) * list CallEvent :=
  match calls with
  | [] => (count, [], [])
  | call :: calls =>
      let '(count', answer) := counter_turn call count in
      let '(r, evs) := GrainRef_ask ref RequestContext_new (call_name call) open_mailbox (Replied (Some answer)) 30 in
      let count := if bool_decide (EvEnqueued ∈ evs) then count' else count in
      let '(count, rs, evs') := counter_asks ref count calls in
      (count, r :: rs, evs ++ evs')
  end.

(** [LoggingFilter] and [CountingFilter] let every call pass; the latter's counter is the number of its [on_before]. *)
Definition LoggingFilter_on_before (_ : GrainCallInfo) : result string unit := Ok ().
Definition CountingFilter_on_before (_ : GrainCallInfo) : result string unit := Ok ().
Definition CountingFilter_calls (i : nat) (evs : list CallEvent) : nat := length (filter (λ e, e = EvBefore i) evs).

Fixpoint amounts (calls : list CounterCall) : Z :=
  match calls with [] => 0 | Increment a :: calls => a + amounts calls | GetCount :: calls => amounts calls end.
Fixpoint running (count : Z) (calls : list CounterCall) : list Z :=
  match calls with [] => [] | call :: calls => let c := count + amounts [call] in c :: running c calls end.

Lemma as_i64_id c : is_i64 c → as_i64 c = c.
Proof. unfold as_i64, is_i64, i64_half, u64_mod. intros. rewrite Z.mod_small; lia. Qed.

Lemma counter_turn_amount call count :
  counter_turn call (as_i64 count) = (as_i64 (count + amounts [call]), as_i64 (count + amounts [call])).
Proof.
  destruct call; cbn; unfold handle_increment, handle_get; rewrite ?as_i64_add, ?Z.add_0_r; done.
Qed.

Lemma CountingFilter_app i evs evs' : CountingFilter_calls i (evs ++ evs') = (CountingFilter_calls i evs + CountingFilter_calls i evs')%nat.
Proof. unfold CountingFilter_calls. by rewrite filter_app, length_app. Qed.

Lemma counting_none i evs : EvBefore i ∉ evs → CountingFilter_calls i evs = 0%nat.
Proof.
  intros H. unfold CountingFilter_calls. induction evs as [|e evs IH]; [done|].
  apply not_elem_of_cons in H as [H1 H2]. rewrite filter_cons_False by congruence. by apply IH.
Qed.

(** One call as a filter sees it. *)
Lemma counter_ask_events (fs : FilterChain) g mt (answer : Z) :
  (∀ info, Forall (λ f, is_ok (f info) = true) fs) →
  ∃ evs, GrainRef_ask (GrainRef_with_id g fs) RequestContext_new mt open_mailbox (Replied (Some answer)) 30 = (Ok answer, evs) ∧
    EvEnqueued ∈ evs ∧ ∀ i, (i < length fs)%nat → CountingFilter_calls i evs = 1%nat.
Proof.
  intros Hfs. unfold GrainRef_ask, GrainRef_with_id. cbn [ref_grain_id ref_filters].
  change (is_in_call_chain RequestContext_new g) with false. cbn iota. rewrite run_before_accept by done.
  rewrite finish_call_spec. cbn. eexists. split; [done|]. split; [set_solver|].
  intros i Hi. rewrite CountingFilter_app, (counting_none i (EvEnqueued :: _)).
  - replace (length fs) with (i + S (length fs - S i))%nat by lia.
    rewrite seq_app, fmap_app, CountingFilter_app. cbn [seq Nat.add]. rewrite fmap_cons.
    change (EvBefore i :: ?l) with ([EvBefore i] ++ l). rewrite CountingFilter_app.
    assert (CountingFilter_calls i [EvBefore i] = 1%nat) as -> by (unfold CountingFilter_calls; by rewrite filter_cons_True).
    rewrite !counting_none; [done| |].
    + rewrite list_elem_of_fmap. intros (k & [= <-] & Hk%elem_of_seq). lia.
    + rewrite list_elem_of_fmap. intros (k & [= <-] & Hk%elem_of_seq). lia.
  - rewrite elem_of_cons, list_elem_of_fmap. intros [?|(k & ? & _)]; done.
Qed.

(** A counter keeps the sum of what it was sent, under whatever filters that let calls pass: every call is answered with the
    sum so far (as a signed 64-bit number), and each filter has seen every call once. *)
Theorem counter_behind_filters g fs count calls :
  (∀ info, Forall (λ f, is_ok (f info) = true) fs) →
  let '(count', rs, evs) := counter_asks (GrainRef_with_id g fs) (as_i64 count) calls in
  count' = as_i64 (count + amounts calls) ∧ rs = (λ z, Ok (as_i64 z)) <$> running count calls ∧
  ∀ i, (i < length fs)%nat → CountingFilter_calls i evs = length calls.
Proof.
  intros Hfs. revert count. induction calls as [|call calls IH]; intros count; cbn [counter_asks].
  { cbn. rewrite Z.add_0_r. done. }
  rewrite counter_turn_amount.
  destruct (counter_ask_events fs g (call_name call) (as_i64 (count + amounts [call])) Hfs) as (evs & -> & Hin & Hc).
  rewrite bool_decide_true by done. specialize (IH (count + amounts [call])).
  destruct (counter_asks _ _ calls) as [[count' rs] evs']. destruct IH as (-> & -> & Hevs).
  split_and!.
  - f_equal. destruct call; cbn; lia.
  - done.
  - intros i Hi. rewrite CountingFilter_app, Hc, Hevs by done. done.
Qed.

(** The runs of [counter.rs] and [grain_filters.rs]. *)
Definition counter_main : list (result GrainError Z) :=
  (counter_asks (GrainRef_with_id (mkGrainId "counter::Counter" "my-counter") []) 0 [Increment 5; Increment 3; GetCount]).1.2.
Example counter_main_answers : counter_main = [Ok 5; Ok 8; Ok 8].
Proof. vm_compute. reflexivity. Qed.

Lemma counter_behind_filters_witness :
  let '(count, rs, evs) :=
    counter_asks (GrainRef_with_id (mkGrainId "grain_filters::Counter" "demo") [LoggingFilter_on_before; CountingFilter_on_before])
      0 [Increment 5; Increment 3; Increment 10] in
  count = 18 ∧ rs = [Ok 5; Ok 8; Ok 18] ∧ CountingFilter_calls 1 evs = 3%nat.
Proof.
  pose proof (counter_behind_filters (mkGrainId "grain_filters::Counter" "demo")
    [LoggingFilter_on_before; CountingFilter_on_before] 0 [Increment 5; Increment 3; Increment 10]) as H.
  change (as_i64 0) with 0 in H. destruct (counter_asks _ _ _) as [[count rs] evs].
  destruct H as (-> & -> & Hc); [intros info; repeat constructor|].
  split_and!; [reflexivity|reflexivity|]. apply Hc. cbn. lia.
Defined.

(** [lifecycle_hooks.rs]: hook 0 prints at startup and hook 1 at shutdown; the work comes between. *)
Definition lifecycle_main : list SiloEvent * list (result GrainError Z) * list SiloEvent :=
  let '(silo, started) := SiloBuilder_build (on_shutdown (on_startup SiloBuilder_new 0) 1) in
  let answers := (counter_asks (GrainRef_with_id (mkGrainId "lifecycle_hooks::Counter" "demo") (rs_filters silo)) 0 [Increment 7]).1.2 in
  (started, answers, (run_shutdown_hooks silo).2).
Example lifecycle_main_runs : lifecycle_main = ([RanHook 0], [Ok 7], [RanHook 1]).
Proof. vm_compute. reflexivity. Qed.

(** ** A counter in a cluster ([cluster.rs])

    The codecs of the messages are a parameter, as are the cluster's surroundings. *)
Section cluster_counter.
(** The messages: [true] for [Increment] and [false] for [GetCount]. *)
Definition ClusterCounterMsg (b : bool) : Type := if b then Z else unit.
#[local] Instance ClusterCounterMsg_eq_dec b : EqDecision (ClusterCounterMsg b).
Proof. destruct b; apply _. Defined.
#[local] Instance ClusterCounterMsg_countable b : Countable (ClusterCounterMsg b).
Proof. destruct b; apply _. Defined.
Abbreviation Result := (λ _ : bool, Z).
Definition Counter_handle (b : bool) (_ : RequestContext) : Z → ClusterCounterMsg b → Z * Z :=
  match b with
  | true => λ count amount, let count := as_i64 (count + amount) in (count, count)
  | false => λ count _, (count, count)
  end.
Context (gt : GrainType) (gk : string) (nm : ∀ b, NetworkMessage (ClusterCounterMsg b) Z).

(** What a history adds. *)
Definition event_amount (e : ActorEvent ClusterCounterMsg Result) : Z :=
  match e with
  | Called _ _ b _ msg _ => match b return ClusterCounterMsg b → Z with true => λ amount, amount | false => λ _, 0 end msg
  | Deactivated _ _ => 0
  end.
Definition added (es : list (ActorEvent ClusterCounterMsg Result)) : Z := foldr (λ e z, event_amount e + z) 0 es.
Definition stays_active (es : list (ActorEvent ClusterCounterMsg Result)) : Prop := Deactivated _ _ ∉ es.

Lemma counter_step_called st e st' :
  actor_step ClusterCounterMsg Result gt gk 0 Counter_handle st e st' →
  match e with
  | Called _ _ b ctx msg res =>
      let '(st1, v) := Counter_handle b (with_call_chain_entry ctx (mkGrainId (gt_grain_type_name gt) gk)) st msg in
      res = Ok v ∧ st' = st1
  | Deactivated _ _ => st' = 0
  end.
Proof. intros [? b ctx msg ? v Hh|]; [by rewrite Hh|done]. Qed.

Lemma counter_actor_added st es st' :
  actor_run ClusterCounterMsg Result gt gk 0 Counter_handle (as_i64 st) es st' → stays_active es → st' = as_i64 (st + added es).
Proof.
  intros Hr. remember (as_i64 st) as c eqn:Hc. revert st Hc.
  induction Hr as [c|c e c' es c'' Hs _ IH]; intros st -> Ha; cbn [added foldr]; [by rewrite Z.add_0_r|].
  apply not_elem_of_cons in Ha as [Hne Ha]. apply counter_step_called in Hs. destruct e as [b ctx msg res|]; [|done].
  rewrite (IH (st + event_amount (Called ClusterCounterMsg Result b ctx msg res))); [f_equal; unfold added; lia| |done].
  destruct b; cbn in Hs |- *; destruct Hs as [_ ->]; by rewrite ?as_i64_add, ?Z.add_0_r.
Qed.

Context (index : string → option bool) (Hindex : ∀ b, index (message_type_name (nm b)) = Some b).
Context (connects parses : string → bool) (arrival : list SiloAddress → list (SiloAddress * bool)).
Context (status_display : Status → string) (rpc_failure : Status) (now : Z).
Context (Hconn : ∀ uri, connects uri = true) (gd : GrainError → string) (elapse : Z → World → World).
Context (rnd : nat → nat) (policy : RetryPolicy) (r : HashRing) (auth : option SharedSecretAuth) (o : SiloAddress).
Context (Howner : HashRing_get r (slash (gt_grain_type_name gt) gk) = Some o).
Context (Hres : ∀ b res, ∃ bs, bincode_encode_result (nm b) res = Ok bs ∧ bincode_decode_result (nm b) bs = Ok res).
Abbreviation counter_implements' :=
  (implements ClusterCounterMsg Result gt gk nm 0 Counter_handle index parses gd r auth o).
Abbreviation counter_cluster_run :=
  (cluster_run ClusterCounterMsg Result gt gk nm 0 Counter_handle index connects parses arrival status_display
     rpc_failure now elapse rnd policy o).

(** Every silo reads what all silos have added: in a converged cluster, after increments and reads of a counter from whatever silos,
    a read from any silo returns their sum, as long as the counter stays active. *)
Theorem cluster_counter_reads w es w' ctx res :
  counter_implements' w 0 → counter_cluster_run w (es ++ [Called ClusterCounterMsg Result false ctx () res]) w' → stays_active es →
  res = Ok (as_i64 (added es)).
Proof.
  intros Him Hrun Ha.
  destruct (run_implements ClusterCounterMsg Result gt gk nm 0 Counter_handle index Hindex connects parses arrival status_display
              rpc_failure now Hconn gd elapse rnd policy r auth o Howner Hres _ _ _ _ Him Hrun) as (st & Hact & _).
  assert (∀ st0 st1, actor_run ClusterCounterMsg Result gt gk 0 Counter_handle st0
            (es ++ [Called ClusterCounterMsg Result false ctx () res]) st1 →
          ∃ st2, actor_run ClusterCounterMsg Result gt gk 0 Counter_handle st0 es st2 ∧ res = Ok st2) as Hsplit.
  { clear. induction es as [|e es IH]; intros st0 st1 H.
    - inversion H as [|? ? ? ? ? Hs Hr]; subst. exists st0. split; [constructor|].
      apply counter_step_called in Hs. cbn in Hs. apply Hs.
    - inversion H as [|? ? ? ? ? Hs Hr]; subst. destruct (IH _ _ Hr) as (st2 & H2 & ->). exists st2. split; [|done].
      by econstructor. }
  destruct (Hsplit _ _ Hact) as (st2 & H2 & ->). f_equal.
  exact (counter_actor_added 0 es st2 H2 Ha).
Qed.
End cluster_counter.

(** ** A stored counter ([persistent_counter.rs], [redis_counter.rs], [postgres_counter.rs]) *)
Definition PersistentCounter : Grain Z := {|
  grain_default := 0;
  on_activate := λ s, (s, FutOk);
  on_deactivate := λ s, (s, FutOk) |}.
Definition counter_envelope (call : CounterCall) (count : Z) : Z * FutResult := ((counter_turn call count).1, FutOk).

Section stored_counter.
Context {D : Type} `{GrainActivator D} `{!GrainActivatorLaws D}.
Context {Sto : Type} `{StateStore Sto} `{!StateStoreLaws Sto} `{!ReliableStore Sto}.
Context (serialize : Z → option bytes) (deserialize : bytes → option Z) (grain_id : GrainId).
Context (Hser : ∀ count, is_Some (serialize count)) (Hround : ∀ count b, serialize count = Some b → deserialize b = Some count).

(** One activation: its calls, then the idle timeout. *)
Definition session (strategy : PersistenceStrategy) (store : Sto) (dir : D) (calls : list (CounterCall * Z)) : option (Sto * D) :=
  out ← run serialize deserialize PersistentCounter grain_id strategy 0
          (InSeq (deliver ((λ c, (counter_envelope c.1, c.2)) <$> calls) ++ [(RecvElapsed, 0)])) store false dir;
  Some (pe_store (re_env out), re_dir out).
Fixpoint sessions (strategy : PersistenceStrategy) (store : Sto) (dir : D) (ss : list (list (CounterCall * Z))) : option (Sto * D) :=
  match ss with
  | [] => Some (store, dir)
  | calls :: ss => '(store, dir) ← session strategy store dir calls; sessions strategy store dir ss
  end.

(** What the next activation starts from. *)
Definition restored (store : Sto) : Z := (load_or_default deserialize PersistentCounter grain_id store).2.

Lemma counter_run_all count (calls : list (CounterCall * Z)) :
  run_all (as_i64 count) ((λ c, (counter_envelope c.1, c.2)) <$> calls) = as_i64 (count + amounts calls.*1) ∧
  no_panics (as_i64 count) ((λ c, (counter_envelope c.1, c.2)) <$> calls).
Proof.
  revert count. induction calls as [|[c t] calls IH]; intros count; cbn [fmap list_fmap run_all foldl no_panics].
  { cbn. by rewrite Z.add_0_r. }
  destruct (IH (count + amounts [c])) as [H1 H2]. cbn [counter_envelope fst snd] in *. rewrite !counter_turn_amount. cbn [fst snd].
  split; [|done]. etransitivity; [exact H1|]. f_equal. destruct c; cbn; lia.
Qed.

(** The count survives deactivation: over any number of activations, each ended by the idle timeout, the next activation
    starts from the sum of everything the counter was ever sent, whatever the strategy and the store. *)
Theorem count_survives_deactivation strategy store dir ss count :
  loaded deserialize PersistentCounter (ss_view store grain_id) = as_i64 count →
  ∃ store' dir', sessions strategy store dir ss = Some (store', dir') ∧
    restored store' = as_i64 (count + amounts (concat ss).*1).
Proof.
  revert store dir count. induction ss as [|calls ss IH]; intros store dir count Hl; cbn [sessions].
  { exists store, dir. split; [done|]. unfold restored.
    destruct (load_reliable deserialize PersistentCounter grain_id store) as (s' & -> & _). cbn. by rewrite Hl, Z.add_0_r. }
  destruct (counter_run_all count calls) as [Hall Hnp].
  destruct (run_durable serialize deserialize PersistentCounter grain_id Hser strategy 0
              ((λ c, (counter_envelope c.1, c.2)) <$> calls) RecvElapsed 0 [] store false dir Hround eq_refl)
    as (out & Hrun & _ & Hst & Hview & _); [done|cbn; by rewrite Hl|].
  unfold session. rewrite Hrun. cbn [mbind option_bind].
  destruct (IH (pe_store (re_env out)) (re_dir out) (count + amounts calls.*1)) as (store' & dir' & Hs & Hr).
  - rewrite Hview, Hst. cbn [PersistentCounter on_deactivate on_activate fst]. rewrite Hl, Hall.
    destruct (Hser (as_i64 (count + amounts calls.*1))) as [b Hb]. rewrite Hb. cbn. by rewrite (Hround _ _ Hb).
  - exists store', dir'. split; [done|]. rewrite Hr. f_equal. rewrite <- Z.add_assoc. f_equal.
    cbn [concat]. rewrite fmap_app. clear. induction (calls.*1) as [|[a|] l IH]; cbn in *; lia.
Qed.
End stored_counter.

(** ** A heartbeat ([reminders.rs]) *)
Definition handle_tick (beats : Z) : Z := as_i64 (beats + 1).
Definition heart : GrainId := mkGrainId "reminders::Heartbeat" "heart-1".
Definition pulse : ReminderKey := (heart, "pulse").

(** The service of [main], with the reminder registered at [now], and the beats after polls at [times]. *)
Definition heartbeat_service {S} `{ReminderStore S} (store : S) (now : Z) : ReminderService S :=
  (register_reminder now (register_grain_type (ReminderService_with_poll_interval store (100 * ns_per_ms)) "reminders::Heartbeat")
     heart "pulse" (200 * ns_per_ms)).1.
Definition beats {S} `{ReminderStore S} (store : S) (now : Z) (times : list Z) : Z :=
  foldl (λ b _, handle_tick b) 0 (fires pulse (poll_loop times (heartbeat_service store now)).2).

Lemma ticks_count {A} (l : list A) b : foldl (λ b _, handle_tick b) (as_i64 b) l = as_i64 (b + Z.of_nat (length l)).
Proof.
  revert b. induction l as [|x l IH]; intros b; [by rewrite Z.add_0_r|]. cbn [foldl length].
  unfold handle_tick at 2. rewrite as_i64_add, IH. f_equal. lia.
Qed.

(** The heart beats on schedule: at the first poll one period after the registration, and then at every first poll
    one period after the previous beat. *)
Theorem heartbeat_on_schedule {S} `{ReminderStoreLaws S} (store : S) now times :
  rs_inv store → rs_time_ok (200 * ns_per_ms) → rs_time_ok (now + 200 * ns_per_ms) →
  Forall (λ t, poll_ok t (heartbeat_service store now)) times →
  beats store now times =
    as_i64 (Z.of_nat (length (schedule (rs_round (200 * ns_per_ms)) (rs_round (now + 200 * ns_per_ms)) times))).
Proof.
  intros Hinv Hp Hd Hok. unfold beats. change 0 with (as_i64 0). rewrite ticks_count, Z.add_0_l.
  assert (rs_inv (svc_store (heartbeat_service store now)) ∧
          reminder (heartbeat_service store now) pulse =
            Some (mkReg heart "pulse" (rs_round (200 * ns_per_ms)) (rs_round (now + 200 * ns_per_ms))) ∧
          svc_dispatchers (heartbeat_service store now) = {["reminders::Heartbeat"]} ∪ ∅) as (Hi & Hr & Hds).
  { unfold heartbeat_service, register_reminder, reminder. cbn [register_grain_type ReminderService_with_poll_interval svc_store].
    destruct (rs_save_ok store (mkReg heart "pulse" (200 * ns_per_ms) (now + 200 * ns_per_ms)) Hinv Hp Hd) as (s' & -> & Hi & Hs).
    cbn. rewrite Hs. cbn. by rewrite lookup_insert_eq. }
  erewrite poll_loop_schedule; [|done|done|done|]; [done|]. rewrite Hds. set_solver.
Qed.

(** Polls every 100 ms during 2 s, on SQLite: nine beats. *)
Example heartbeat_main : beats (∅ : ReminderTable) 0 ((λ i, i * 100 * ns_per_ms) <$> seqZ 0 20) = 9.
Proof. vm_compute. reflexivity. Qed.
